(* ===== verification/_CoqProject ===== *)
-Q . S2P
Prelude.v
Ids.v
Streams.v
Frame.v
Text.v
Mux.v
MuxBook.v
Router.v
Session.v
Allocator.v
Routing.v
RouteEngine.v
Dag.v
StopDag.v
Base64.v
Rings.v
FileRing.v
Targets.v
Gateway.v
Orchestrator.v
Circuit.v
Daemon.v
SecurityKey.v
Identity.v
RemoteNode.v
GuestAuth.v
SecureSession.v
Usbip.v
ExecFiles.v
DetachedUnits.v
Detached.v
DetachedSound.v
DetachedRecovery.v
