(* ===== verification/Prelude.v ===== *)
(** * d2b: a verification of its control plane, daemons and guest services

    d2b runs workloads in micro-VMs and lets realms (a tree of administrative
    domains, each with its own controller) reach each other's workloads.  Two
    peers meet over a byte stream: they shake hands and negotiate
    capabilities, exchange typed operation requests that a router accepts at
    most once, and open flow-controlled streams under the accepted
    operations.  Realms learn of each other through signed route
    advertisements along the tree.  On one host, an allocator leases kernel
    resources to realm controllers; a daemon admits local requests, brings a
    VM's processes up along a dependency graph and shares the security key
    and USB devices out; a privileged broker does what needs root; a guest
    daemon authenticates the host and runs commands inside the VM; a gateway
    opens display sessions.  This library models those parts from the Rust
    sources under [packages/] and proves what makes them correct.

    ** Files

    Foundations:
    - [Prelude]: results and the state-and-error monad, machine integers, Rust's
      total orders, sorting and B-tree iteration, list lemmas, hints.
    - [Ids], [Streams], [Frame]: identifiers and realm paths, tokens and
      capabilities, requests, responses, errors and the dedup fingerprint
      ([d2b-realm-core] [ids.rs], [realm.rs], [token.rs], [capability.rs],
      [stream.rs], [frame.rs], [error.rs], [audit.rs]).
    - [Text]: the functions of [str] on bytes; [Base64]: [base64_codec.rs].

    Between peers:
    - [Mux]: [Module StreamMux] is the multiplexer ([mux.rs]), [Module Link]
      two of them joined. [MuxBook]: the plain account of its streams that it
      implements.
    - [Router]: the operation router ([d2b-realm-router] [lib.rs]).
    - [Session]: [Module PeerSession] ([session.rs]), [Module MuxSession]
      ([mux_session.rs]), [Module SessionLifecycle]; the codec is
      [Class ProtocolCodec].  [SecureSession]: [secure_session.rs], on top of it.
    - [RemoteNode]: the registry of remote nodes, dispatch to them and target
      resolution ([remote_node.rs], [target_resolver.rs]), on top of [Router].
    - [Targets]: target names ([target.rs]).  [Identity]: the identity store
      ([identity_store.rs], [enrollment.rs]).
    - [Routing], [RouteEngine]: route metadata and the tree-route engine.
    - [Circuit]: the provider circuit breaker ([rate_limit.rs]).
    - [Gateway], [Orchestrator]: display sessions ([d2b-gateway]
      [handshake.rs], [ledger.rs], [orchestrator.rs]) over [Class GatewayDeps].

    On the host:
    - [Allocator]: the host-resource allocator ([allocator_engine.rs]).
    - [Daemon]: admission and locking ([d2bd] [admission.rs], [wire.rs],
      [concurrency.rs], the dispatch of [lib.rs]).
    - [Dag], [StopDag]: the process DAG executor over [Class NodeRunner], and
      the restart planner ([supervisor/]).
    - [SecurityKey]: the security-key proxy ([security_key.rs]).
    - [Usbip]: the USB passthrough plan of the daemon and the broker's claim
      files, inspection, handlers and dispatch.

    In the guest:
    - [GuestAuth]: guest-control authentication in the guest, the broker and
      the daemon.
    - [Rings], [FileRing]: output rings in memory ([Class Ring]) and on disk.
    - [ExecFiles], [DetachedUnits], [Detached], [DetachedSound],
      [DetachedRecovery]: detached commands.  The files guestd and the runner
      exchange; the request, the systemd units and how they are recognised;
      the registry's methods as programs of atomic steps; its invariant under
      every interleaving; creation and recovery.

    ** Conventions

    A Rust path [T::f] is [T_f], or plain [f] inside the Module of a stateful
    component; [X::new] with a check returns [option].  A method on [&mut self]
    is a function from the state to a result and a state: a [handler] where
    it returns a [Result], a pair otherwise.  Where tasks or processes
    interleave ([FileRing], [Detached], [Daemon]), code is a tree of atomic
    steps or a step relation.  Identifier newtypes are [string], a realm path
    is the list of its labels, most specific first, bytes are [list ascii].
    [u64] and [u32] values are [N] with wrap-around or saturation written out
    where the source has it; collection sizes are [nat].  A [BTreeMap] or
    [HashMap] is a [gmap] and is iterated in key order through [btree_entries]
    and [btree_keys].  Clocks and Unix times are arguments.  A panic is [None].
    Cryptography, the kernel, systemd and the file system are parameters: the
    MAC, the AEAD and the codecs with the laws their crates document, the
    rest as functions of time that may answer anything.

    ** What the theorems show

    - Multiplexer: every reachable state is well formed; every answer and
      everything it shows are those of a book with one line per stream;
      inbound data is accepted in sequence and within credit; what an honest
      sender emits is accepted.
    - Router and remote nodes: an operation is not executed twice under one
      key within the retention window; a replay returns the recorded result;
      an acknowledged mutation reaches a node once; a request goes exactly to
      a live node of the right generation.
    - Sessions: both ends of a handshake agree, in the clear and encrypted;
      frames of a secure session arrive in order or not at all, and those
      sent arrive; framing is exact; phases never go back.
    - Identity and routes: the stores' invariants hold of every history; a
      revocation has exactly the effect of its target and is final; the route
      tables stay a tree within their limits, a route is allowed exactly along
      live edges to a capable target, an advertisement changes only what is
      its own, within its allocation, and is refused when replayed; target
      names have exactly one parse.
    - Gateway: a credential is used once; quotas hold; whatever side effects
      and other tasks do, an open session holds exactly its listener and
      agent, and what each way of failing leaves behind is known; the breaker
      lets one probe through and recovers.
    - Host: no resource is leased twice; privileged requests need the admin
      role; operations that take locks exclude each other exactly as their
      classes say, and complete; connections are bounded; the DAG's order
      exists exactly when the sort finds it; a USB device is bound, granted
      and detached only under the claim of a VM that asked for it, and claims
      exclude each other.
    - Guest: a host is authenticated only by its proof, both sides then agree
      on the transcript, and an honest probe succeeds; reads of the file
      ring are never torn; slot files decode exactly; the units of an
      accepted command are recognised; the registry's accounts are exact
      under every interleaving, creation is a transaction, and a command that
      runs survives a restart of the daemon.

    Other theorems exhibit behaviour that differs from what the code or its
    documentation intends, each next to the component it is about:
    [regrant_quarantined], [superseded_replay_accepted],
    [stale_capability_kept], [no_wait_omits_nodes], [with_retention_horizon],
    [two_vms_relay_at_once], [failed_replay_shares_device],
    [orphan_claim_stays], [explicit_claim_stays],
    [unreadable_claim_detaches_nothing], [long_request_accepted],
    [lost_command_listed_as_running], [sweep_stops_a_new_command] and those
    of [Identity], [Orchestrator] and [SecureSession].

    ** Loops and fuel

    Loops that are not structural take fuel, with a proof that it is enough:
    the lease-id search takes one round per existing lease and one more
    ([find_lease_id_some]); the walks along parent entries take one round per
    table entry ([walk_up_fuel], [loop_walk_fuel]); the sort takes one round
    per node ([kahn_done]); framed reads and writes take a round per byte;
    the file ring's reader retries as often as the source does; the poll of a
    create takes one hundred and one rounds of 100 ms, its timeout being ten
    seconds.  Where a poll waits on the outside world ([wait], [cancel]) the
    theorems hold for every fuel, and a task that runs out stands still.

    ** Not modelled

    Serde field decoding beyond hand-written visitors, JSON schemas, [Debug]
    redaction, log lines and metrics.  Signature verification, which happens
    before the route engine.  Protobuf code, which the build generates, and
    the transports, sockets and terminals around it.  The broker's other
    operations, the supervisor's pidfds and the guest's attached commands:
    sequences of system calls whose content is the kernel's.  The bundle, its
    manifests and the Nix modules that write them: configuration data.
    Request handlers of the daemon behind the role checks, and the
    command-line client: I/O and printing.  Parts of [d2b-realm-core],
    [d2b-core], [d2b-host] and [d2b-contracts] that only declare records or
    print command lines. *)

From Stdlib Require Export Ascii String.
From stdpp Require Export sorting relations numbers finite.
From stdpp Require Export base gmap strings list fin_maps.

(** ** Results and the state-and-error monad

    [result A E] is Rust's [Result<A, E>].  A method that takes [&mut self]
    and returns a [Result] is a [handler]: it maps the state before the call
    to the value returned and the state after it, on the error path too, so
    that what an early return leaves behind is part of the model. *)

Inductive result (A E : Type) : Type :=
| Ok (a : A)
| Err (e : E).

Arguments Ok {A E} a.
Arguments Err {A E} e.

Definition is_ok {A E} (r : result A E) : bool :=
  match r with Ok _ => true | Err _ => false end.

(** [?] on a result outside a handler. *)
Definition r_bind {A B E} (r : result A E) (k : A -> result B E) : result B E :=
  match r with Ok a => k a | Err e => Err e end.

#[global] Instance result_eq_dec {A E} `{EqDecision A, EqDecision E} :
  EqDecision (result A E).
Proof. solve_decision. Defined.

Definition handler (S E A : Type) : Type := S -> result A E * S.

Declare Scope rust_scope.
Delimit Scope rust_scope with rust.

Section handlers.
Context {S E : Type}.

Definition h_ret {A} (a : A) : handler S E A := fun s => (Ok a, s).

Definition h_throw {A} (e : E) : handler S E A := fun s => (Err e, s).

Definition h_bind {A B} (m : handler S E A) (k : A -> handler S E B) :
    handler S E B :=
  fun s =>
    match m s with
    | (Ok a, s') => k a s'
    | (Err e, s') => (Err e, s')
    end.

Definition h_get : handler S E S := fun s => (Ok s, s).

Definition h_modify (f : S -> S) : handler S E unit := fun s => (Ok tt, f s).

Definition h_lift {A} (r : result A E) : handler S E A := fun s => (r, s).

(** [if cond { return Err(e) }] *)
Definition h_reject (cond : bool) (e : E) : handler S E unit :=
  if cond then h_throw e else h_ret tt.
End handlers.

Notation "'let?' x ':=' m 'in' k" := (h_bind m (fun x => k))
  (at level 10, x pattern, m at level 100, k at level 200,
   format "'[v' 'let?'  x  ':='  m  'in' '//' k ']'") : rust_scope.
Notation "m '?;' k" := (h_bind m (fun _ => k))
  (at level 199, right associativity, format "'[v' m  '?;' '//' k ']'") : rust_scope.

(** Unfold the combinators of a handler applied to a state. *)
Ltac unfold_handler :=
  unfold h_bind, h_reject, h_get, h_modify, h_lift, h_ret, h_throw in *.

(** Case analysis on every [match] and [if] of the hypotheses and the goal,
    with the resulting equations used at once. *)
Ltac run_cases :=
  repeat (case_match || case_decide || simplify_eq/=).

(** ** Machine integers

    Unsigned integers are [N].  [usize] values are lengths of in-memory
    collections and are [nat].  Arithmetic that the source lets wrap (the
    workspace sets no [overflow-checks]) is written with its modulus,
    [saturating_*] with its bound. *)

Definition u64_max : N := 2 ^ 64 - 1.
Definition u32_max : N := 2 ^ 32 - 1.
Definition u64_wrap (n : N) : N := n mod 2 ^ 64.
Definition u64_saturating_add (a b : N) : N := N.min (a + b) u64_max.
Definition u64_fits (n : N) : Prop := (n <= u64_max)%N.
Definition u32_fits (n : N) : Prop := (n <= u32_max)%N.

Lemma u64_wrap_small n : u64_fits n -> u64_wrap n = n.
Proof.
  unfold u64_fits, u64_wrap, u64_max. intros H. apply N.mod_small. lia.
Qed.

Lemma u64_wrap_fits n : u64_fits (u64_wrap n).
Proof.
  unfold u64_fits, u64_wrap, u64_max.
  pose proof (N.mod_lt n (2 ^ 64)). lia.
Qed.

Lemma u64_saturating_add_fits a b : u64_fits (u64_saturating_add a b).
Proof. unfold u64_fits, u64_saturating_add. lia. Qed.

Lemma u64_saturating_add_small a b :
  u64_fits (a + b) -> u64_saturating_add a b = (a + b)%N.
Proof. unfold u64_fits, u64_saturating_add. lia. Qed.

Lemma u64_saturating_add_ge a b :
  u64_fits a -> (a <= u64_saturating_add a b)%N.
Proof. unfold u64_fits, u64_saturating_add. lia. Qed.

(** ** Total orders

    [RustOrd] is the part of Rust's [Ord] the code relies on: the order of
    [BTreeMap] and [BTreeSet] iteration and of [Vec::sort]. *)

Class RustOrd (A : Type) := rust_cmp : A -> A -> comparison.

Class RustOrdLaws (A : Type) `{RustOrd A} : Prop := {
  rust_cmp_eq : forall x y : A, rust_cmp x y = Eq <-> x = y;
  rust_cmp_opp : forall x y : A, rust_cmp y x = CompOpp (rust_cmp x y);
  rust_cmp_lt_trans : forall x y z : A,
    rust_cmp x y = Lt -> rust_cmp y z = Lt -> rust_cmp x z = Lt
}.

Definition ord_le {A} `{RustOrd A} (x y : A) : Prop := rust_cmp x y <> Gt.
Definition ord_lt {A} `{RustOrd A} (x y : A) : Prop := rust_cmp x y = Lt.

#[global] Instance ord_le_dec {A} `{RustOrd A} (x y : A) : Decision (ord_le x y).
Proof.
  unfold ord_le. destruct (rust_cmp x y); [left|left|right]; congruence.
Defined.

#[global] Instance ord_lt_dec {A} `{RustOrd A} (x y : A) : Decision (ord_lt x y).
Proof. unfold ord_lt. destruct (rust_cmp x y); [right|left|right]; congruence. Defined.

Section ord_laws.
Context {A : Type} `{RustOrdLaws A}.

Lemma rust_cmp_refl (x : A) : rust_cmp x x = Eq.
Proof. by apply rust_cmp_eq. Qed.

Lemma ord_lt_irrefl (x : A) : ~ ord_lt x x.
Proof. unfold ord_lt. by rewrite rust_cmp_refl. Qed.

Lemma ord_lt_trans (x y z : A) : ord_lt x y -> ord_lt y z -> ord_lt x z.
Proof. apply rust_cmp_lt_trans. Qed.

Lemma ord_le_lt_eq (x y : A) : ord_le x y <-> ord_lt x y \/ x = y.
Proof.
  unfold ord_le, ord_lt. rewrite <- rust_cmp_eq.
  destruct (rust_cmp x y); naive_solver.
Qed.

Lemma ord_not_lt_le (x y : A) : ~ ord_lt x y <-> ord_le y x.
Proof.
  unfold ord_le, ord_lt. rewrite (rust_cmp_opp x y).
  destruct (rust_cmp x y); naive_solver.
Qed.

#[global] Instance ord_le_total : Total (ord_le (A := A)).
Proof.
  intros x y. unfold ord_le. rewrite (rust_cmp_opp x y).
  destruct (rust_cmp x y); naive_solver.
Qed.

#[global] Instance ord_le_refl : Reflexive (ord_le (A := A)).
Proof. intros x. apply ord_le_lt_eq. by right. Qed.

#[global] Instance ord_le_trans : Transitive (ord_le (A := A)).
Proof.
  intros x y z. rewrite !ord_le_lt_eq.
  intros [?|Hxy] [?|Hyz]; subst; eauto using ord_lt_trans.
Qed.

#[global] Instance ord_le_antisymm : AntiSymm eq (ord_le (A := A)).
Proof.
  intros x y. rewrite !ord_le_lt_eq. intros [H1|H1] [H2|H2]; try done.
  by destruct (ord_lt_irrefl x (ord_lt_trans _ _ _ H1 H2)).
Qed.

(** [Vec::sort]: the order is total and antisymmetric, so stability does
    not show. *)
Definition rust_sort (l : list A) : list A := merge_sort ord_le l.

Lemma rust_sort_perm (l : list A) : rust_sort l ≡ₚ l.
Proof. apply merge_sort_Permutation. Qed.

Lemma rust_sort_sorted (l : list A) : StronglySorted ord_le (rust_sort l).
Proof. apply StronglySorted_merge_sort; apply _. Qed.

(** The sorted list does not depend on the order of its input. *)
Lemma rust_sort_perm_eq (l1 l2 : list A) :
  l1 ≡ₚ l2 -> rust_sort l1 = rust_sort l2.
Proof.
  intros Hp. apply (StronglySorted_unique ord_le);
    [apply rust_sort_sorted..|]. by rewrite !rust_sort_perm.
Qed.

Lemma elem_of_rust_sort (x : A) (l : list A) : x ∈ rust_sort l <-> x ∈ l.
Proof. by rewrite rust_sort_perm. Qed.

Lemma length_rust_sort (l : list A) : length (rust_sort l) = length l.
Proof. by rewrite rust_sort_perm. Qed.

Lemma rust_sort_singleton (x : A) : rust_sort [x] = [x].
Proof. apply Permutation_singleton_r, rust_sort_perm. Qed.
End ord_laws.

(** Orders along an injection: enums through their discriminant, records
    through the tuple of their fields (the derived [Ord]). *)
Definition cmp_via {A B} `{RustOrd B} (f : A -> B) : RustOrd A :=
  fun x y => rust_cmp (f x) (f y).

Lemma cmp_via_laws {A B} `{RustOrdLaws B} (f : A -> B) :
  (forall x y, f x = f y -> x = y) -> @RustOrdLaws A (cmp_via f).
Proof.
  intros Hinj. split; unfold rust_cmp, cmp_via.
  - intros x y. rewrite rust_cmp_eq. naive_solver.
  - intros x y. apply rust_cmp_opp.
  - intros x y z. apply rust_cmp_lt_trans.
Qed.

(** The discriminant of a constructor: its position in the declaration. *)
Definition enum_pos {A} `{Finite A} (x : A) : nat :=
  default 0 (fst <$> list_find (fun y => x = y) (enum A)).

Lemma enum_pos_inj {A} `{Finite A} (x y : A) : enum_pos x = enum_pos y -> x = y.
Proof.
  unfold enum_pos.
  destruct (list_find_elem_of (fun z => x = z) (enum A) x) as [[i z] Hx];
    [apply elem_of_enum|done|].
  destruct (list_find_elem_of (fun z => y = z) (enum A) y) as [[j w] Hy];
    [apply elem_of_enum|done|].
  rewrite Hx, Hy. simpl. intros ->.
  apply list_find_Some in Hx as (Hx & -> & _).
  apply list_find_Some in Hy as (Hy & -> & _). congruence.
Qed.

Ltac solve_enum_NoDup := apply (bool_decide_unpack _); vm_compute; exact I.
Ltac solve_enum_elem :=
  intros []; apply (bool_decide_unpack _); vm_compute; exact I.

#[global] Instance nat_rust_ord : RustOrd nat := Nat.compare.
#[global] Instance nat_rust_ord_laws : RustOrdLaws nat.
Proof.
  split; unfold rust_cmp, nat_rust_ord; intros.
  - apply Nat.compare_eq_iff.
  - apply Nat.compare_antisym.
  - rewrite Nat.compare_lt_iff in *. lia.
Qed.

#[global] Instance N_rust_ord : RustOrd N := N.compare.
#[global] Instance N_rust_ord_laws : RustOrdLaws N.
Proof.
  split; unfold rust_cmp, N_rust_ord; intros.
  - apply N.compare_eq_iff.
  - apply N.compare_antisym.
  - rewrite N.compare_lt_iff in *. lia.
Qed.

#[global] Instance ascii_rust_ord : RustOrd Ascii.ascii := cmp_via Ascii.N_of_ascii.
#[global] Instance ascii_rust_ord_laws : RustOrdLaws Ascii.ascii.
Proof.
  apply cmp_via_laws. intros x y Hxy.
  by rewrite <- (Ascii.ascii_N_embedding x), Hxy, Ascii.ascii_N_embedding.
Qed.

(** Tuples compare lexicographically. *)
#[global] Instance prod_rust_ord {A B} `{RustOrd A, RustOrd B} : RustOrd (A * B) :=
  fun x y =>
    match rust_cmp x.1 y.1 with
    | Eq => rust_cmp x.2 y.2
    | c => c
    end.

#[global] Instance prod_rust_ord_laws {A B} `{RustOrdLaws A, RustOrdLaws B} :
  RustOrdLaws (A * B).
Proof.
  split; unfold rust_cmp, prod_rust_ord.
  - intros [x1 x2] [y1 y2]; simpl. destruct (rust_cmp x1 y1) eqn:E.
    + apply rust_cmp_eq in E as ->. rewrite rust_cmp_eq. naive_solver.
    + split; [done|]. intros [= -> ->]. by rewrite rust_cmp_refl in E.
    + split; [done|]. intros [= -> ->]. by rewrite rust_cmp_refl in E.
  - intros [x1 x2] [y1 y2]; simpl. rewrite (rust_cmp_opp x1 y1).
    destruct (rust_cmp x1 y1); simpl; [apply rust_cmp_opp|done..].
  - intros [x1 x2] [y1 y2] [z1 z2]; simpl.
    destruct (rust_cmp x1 y1) eqn:E1; [|..]; try done.
    + apply rust_cmp_eq in E1 as ->. destruct (rust_cmp y1 z1); try done.
      apply rust_cmp_lt_trans.
    + destruct (rust_cmp y1 z1) eqn:E2; try done.
      * apply rust_cmp_eq in E2 as ->. by rewrite E1.
      * by rewrite (rust_cmp_lt_trans _ _ _ E1 E2).
Qed.

(** Lists compare lexicographically, a proper prefix being smaller. *)
Fixpoint list_cmp {A} `{RustOrd A} (l k : list A) : comparison :=
  match l, k with
  | [], [] => Eq
  | [], _ :: _ => Lt
  | _ :: _, [] => Gt
  | x :: l, y :: k =>
      match rust_cmp x y with
      | Eq => list_cmp l k
      | c => c
      end
  end.

#[global] Instance list_rust_ord {A} `{RustOrd A} : RustOrd (list A) := list_cmp.

#[global] Instance list_rust_ord_laws {A} `{RustOrdLaws A} : RustOrdLaws (list A).
Proof.
  split; unfold rust_cmp, list_rust_ord.
  - induction x as [|x l IH]; intros [|y k]; simpl; try done.
    destruct (rust_cmp x y) eqn:E.
    + apply rust_cmp_eq in E as ->. rewrite IH. naive_solver.
    + split; [done|]. intros [= -> ->]. by rewrite rust_cmp_refl in E.
    + split; [done|]. intros [= -> ->]. by rewrite rust_cmp_refl in E.
  - induction x as [|x l IH]; intros [|y k]; simpl; try done.
    rewrite (rust_cmp_opp x y). by destruct (rust_cmp x y); simpl.
  - induction x as [|x l IH]; intros [|y k] [|z m]; simpl; try done.
    destruct (rust_cmp x y) eqn:E1; try done.
    + apply rust_cmp_eq in E1 as ->. destruct (rust_cmp y z); try done. apply IH.
    + destruct (rust_cmp y z) eqn:E2; try done.
      * apply rust_cmp_eq in E2 as ->. by rewrite E1.
      * by rewrite (rust_cmp_lt_trans _ _ _ E1 E2).
Qed.

(** [String] compares by its bytes. *)
#[global] Instance string_rust_ord : RustOrd string := cmp_via String.list_ascii_of_string.
#[global] Instance string_rust_ord_laws : RustOrdLaws string.
Proof.
  apply cmp_via_laws. intros x y Hxy.
  by rewrite <- (String.string_of_list_ascii_of_string x), Hxy,
    String.string_of_list_ascii_of_string.
Qed.

#[global] Instance option_rust_ord {A} `{RustOrd A} : RustOrd (option A) :=
  cmp_via (fun o => match o with None => [] | Some a => [a] end).
#[global] Instance option_rust_ord_laws {A} `{RustOrdLaws A} : RustOrdLaws (option A).
Proof. apply cmp_via_laws. intros [x|] [y|]; congruence. Qed.

(** ** Ordered containers

    A [BTreeMap] is a [gmap] and a [BTreeSet] a [gset]; iterating one visits
    its keys in increasing order. *)
Section btree.
Context {K : Type} `{Countable K, !RustOrd K, !RustOrdLaws K}.

Definition btree_iter (s : gset K) : list K := rust_sort (elements s).

Definition btree_keys {V} (m : gmap K V) : list K := btree_iter (dom m).

(** [BTreeMap::iter]: the entries in key order. *)
Definition btree_entries {V} (m : gmap K V) : list (K * V) :=
  omap (fun k => v ← m !! k; Some (k, v)) (btree_keys m).

Lemma elem_of_btree_iter (s : gset K) k : k ∈ btree_iter s <-> k ∈ s.
Proof. unfold btree_iter. by rewrite elem_of_rust_sort, elem_of_elements. Qed.

Lemma btree_iter_NoDup (s : gset K) : NoDup (btree_iter s).
Proof. unfold btree_iter. rewrite rust_sort_perm. apply NoDup_elements. Qed.

Lemma btree_iter_sorted (s : gset K) : StronglySorted ord_lt (btree_iter s).
Proof.
  pose proof (btree_iter_NoDup s) as Hnd.
  pose proof (rust_sort_sorted (elements s)) as Hs. fold (btree_iter s) in Hs.
  induction Hs as [|k l Hs IH Hall]; [constructor|].
  apply NoDup_cons in Hnd as [Hk Hnd]. constructor; [by apply IH|].
  rewrite Forall_forall in *. intros x Hx.
  destruct (proj1 (ord_le_lt_eq _ _) (Hall x Hx)) as [Hl|Hl]; [done|by subst].
Qed.

Lemma length_btree_iter (s : gset K) : length (btree_iter s) = size s.
Proof. unfold btree_iter. by rewrite length_rust_sort. Qed.

Lemma elem_of_btree_entries {V} (m : gmap K V) k v :
  (k, v) ∈ btree_entries m <-> m !! k = Some v.
Proof.
  unfold btree_entries, btree_keys. rewrite list_elem_of_omap. split.
  - intros (k' & _ & Hk'). destruct (m !! k') eqn:E; simplify_eq/=. done.
  - intros Hk. exists k. rewrite elem_of_btree_iter, elem_of_dom, Hk. eauto.
Qed.
End btree.

(** ** Lists *)

Lemma size_list_to_set_le {A} `{Countable A} (l : list A) :
  size (list_to_set l : gset A) <= length l.
Proof.
  induction l as [|x l IH]; [apply Nat.le_0_l|]. cbn [list_to_set length].
  rewrite size_union_alt, size_singleton.
  assert (size ((list_to_set l : gset A) ∖ {[x]}) <= size (list_to_set l : gset A))
    by (apply subseteq_size; set_solver). lia.
Qed.

(** [iter().any(..)], [iter().all(..)]. *)
Lemma existsb_elem {A} (f : A -> bool) l :
  existsb f l = true <-> exists x, x ∈ l /\ f x = true.
Proof.
  rewrite List.existsb_exists. by setoid_rewrite <- list_elem_of_In.
Qed.

Lemma existsb_false {A} (f : A -> bool) l :
  existsb f l = false <-> forall x, x ∈ l -> f x = false.
Proof.
  split.
  - intros H x Hx. destruct (f x) eqn:E; [|done].
    assert (existsb f l = true) by (apply existsb_elem; eauto). congruence.
  - intros H. destruct (existsb f l) eqn:E; [|done].
    apply existsb_elem in E as (x & Hx & Hf). by rewrite H in Hf.
Qed.

Lemma forallb_elem {A} (f : A -> bool) l :
  forallb f l = true <-> forall x, x ∈ l -> f x = true.
Proof.
  rewrite List.forallb_forall. by setoid_rewrite <- list_elem_of_In.
Qed.

(** [BTreeSet::insert] in a loop: [true] when some element repeats. *)
Fixpoint has_duplicate {A} `{EqDecision A} (l : list A) : bool :=
  match l with
  | [] => false
  | x :: l => bool_decide (x ∈ l) || has_duplicate l
  end.

Lemma has_duplicate_false {A} `{EqDecision A} (l : list A) :
  has_duplicate l = false <-> NoDup l.
Proof.
  induction l as [|x l IH]; simpl.
  - split; [constructor|done].
  - rewrite orb_false_iff, bool_decide_eq_false, NoDup_cons. by rewrite IH.
Qed.

(** ** Little-endian integers *)

(** [to_le_bytes] and [from_le_bytes]; the width is in bytes. *)
Fixpoint le_bytes (width : nat) (n : N) : list Ascii.ascii :=
  match width with
  | O => []
  | S width => Ascii.ascii_of_N (n mod 256) :: le_bytes width (n / 256)
  end.

Fixpoint from_le_bytes (bs : list Ascii.ascii) : N :=
  match bs with
  | [] => 0
  | b :: bs => Ascii.N_of_ascii b + 256 * from_le_bytes bs
  end.

Lemma le_bytes_length w n : length (le_bytes w n) = w.
Proof. revert n. induction w as [|w IH]; intros n; simpl; [done|]. by rewrite IH. Qed.

Lemma from_le_bytes_le_bytes w n :
  (n < 256 ^ N.of_nat w)%N -> from_le_bytes (le_bytes w n) = n.
Proof.
  revert n. induction w as [|w IH]; intros n Hn.
  { change (256 ^ N.of_nat 0)%N with 1%N in Hn. simpl. lia. }
  rewrite Nat2N.inj_succ, N.pow_succ_r' in Hn. cbn [le_bytes from_le_bytes].
  rewrite Ascii.N_ascii_embedding by (apply N.mod_lt; lia).
  rewrite IH by (apply N.Div0.div_lt_upper_bound; lia).
  rewrite (N.div_mod n 256) at 3 by lia. lia.
Qed.

Lemma le_bytes_inj w n m :
  (n < 256 ^ N.of_nat w)%N -> (m < 256 ^ N.of_nat w)%N -> le_bytes w n = le_bytes w m -> n = m.
Proof.
  intros Hn Hm H. rewrite <- (from_le_bytes_le_bytes w n), <- (from_le_bytes_le_bytes w m) by done.
  by rewrite H.
Qed.

Lemma le_bytes_from bs : le_bytes (length bs) (from_le_bytes bs) = bs.
Proof.
  induction bs as [|b bs IH]; [done|]. cbn [length from_le_bytes le_bytes].
  pose proof (Ascii.N_ascii_bounded b) as Hb.
  replace ((Ascii.N_of_ascii b + 256 * from_le_bytes bs) mod 256)%N with (Ascii.N_of_ascii b)
    by (rewrite N.mul_comm, N.Div0.mod_add, N.mod_small; done).
  replace ((Ascii.N_of_ascii b + 256 * from_le_bytes bs) / 256)%N with (from_le_bytes bs)
    by (rewrite N.mul_comm, N.div_add, N.div_small by lia; lia).
  by rewrite Ascii.ascii_N_embedding, IH.
Qed.

Lemma from_le_bytes_lt bs : (from_le_bytes bs < 256 ^ N.of_nat (length bs))%N.
Proof.
  induction bs as [|b bs IH]; [done|]. cbn [length from_le_bytes].
  rewrite Nat2N.inj_succ, N.pow_succ_r'. pose proof (Ascii.N_ascii_bounded b). lia.
Qed.

(** ** Automation

    [rust] collects the lemmas that close the routine side conditions. *)
Create HintDb rust.
#[export] Hint Resolve u64_wrap_fits u64_saturating_add_fits : rust.
#[export] Hint Resolve btree_iter_NoDup btree_iter_sorted : rust.
#[export] Hint Resolve -> elem_of_btree_iter elem_of_rust_sort : rust.
#[export] Hint Resolve <- elem_of_btree_iter elem_of_rust_sort : rust.
