(* ===== verification/Ids.v ===== *)
(** * Identifiers and realm paths

    [packages/d2b-realm-core/src/ids.rs] and [realm.rs]: the validated
    identifier newtypes ([parse] over [is_label] or [is_opaque_token]) and
    [RealmPath] with its tree relations.  A newtype over [String] is the string
    of its UTF-8 bytes; the character classes the validators accept are ASCII,
    so testing bytes and testing characters agree. *)

From S2P Require Import Prelude.

Abbreviation chars := String.list_ascii_of_string.

Definition char_in (lo hi c : Ascii.ascii) : bool :=
  (N.leb (Ascii.N_of_ascii lo) (Ascii.N_of_ascii c)
   && N.leb (Ascii.N_of_ascii c) (Ascii.N_of_ascii hi))%bool.

(** [u8::is_ascii_lowercase] and its companions. *)
Definition is_ascii_lowercase : Ascii.ascii -> bool := char_in "a"%char "z"%char.
Definition is_ascii_uppercase : Ascii.ascii -> bool := char_in "A"%char "Z"%char.
Definition is_ascii_digit : Ascii.ascii -> bool := char_in "0"%char "9"%char.
Definition is_ascii_alphanumeric (c : Ascii.ascii) : bool :=
  is_ascii_lowercase c || is_ascii_uppercase c || is_ascii_digit c.
Definition char_eqb : Ascii.ascii -> Ascii.ascii -> bool := Ascii.eqb.

(** [char::to_lowercase] on ASCII. *)
Definition to_lowercase (c : Ascii.ascii) : Ascii.ascii :=
  if is_ascii_uppercase c
  then Ascii.ascii_of_N (Ascii.N_of_ascii c + 32) else c.

(** [str::contains] for a string pattern. *)
Fixpoint starts_with (p s : list Ascii.ascii) : bool :=
  match p, s with
  | [], _ => true
  | _ :: _, [] => false
  | a :: p, b :: s => char_eqb a b && starts_with p s
  end.

Fixpoint contains (p s : list Ascii.ascii) : bool :=
  starts_with p s ||
  match s with
  | [] => false
  | _ :: s => contains p s
  end.

(** ** Validation *)

Definition MAX_ID_LEN : nat := 128.

Definition SECRET_MARKERS : list string :=
  ["secret"; "password"; "passwd"; "bearer"; "credential"; "private";
   "apikey"; "token"; "privatekey"; "accesstoken"; "refreshtoken";
   "sessiontoken"]%string.

Inductive IdError := IdEmpty | IdTooLong | IdBadShape.

#[global] Instance IdError_eq_dec : EqDecision IdError.
Proof. solve_decision. Defined.

Definition is_label (s : string) : bool :=
  match chars s with
  | c :: rest =>
      is_ascii_lowercase c &&
      forallb (fun c => is_ascii_lowercase c || is_ascii_digit c || char_eqb c "-"%char) rest
  | [] => false
  end.

Definition is_separator (c : Ascii.ascii) : bool :=
  char_eqb c "-"%char || char_eqb c "_"%char || char_eqb c "."%char.

Definition compact (s : string) : list Ascii.ascii :=
  map to_lowercase (List.filter (fun c => negb (is_separator c)) (chars s)).

Definition is_opaque_token (s : string) : bool :=
  match chars s with
  | [] => false
  | first :: _ =>
      if negb (is_ascii_alphanumeric first) then false
      else if negb (forallb (fun c => is_ascii_alphanumeric c || is_separator c) (chars s))
      then false
      else if contains (chars "..") (chars s) then false
      else negb (existsb (fun marker => contains (chars marker) (compact s)) SECRET_MARKERS)
  end.

(** The [parse] of [id_newtype!], generic in the validator. *)
Definition parse_id (validate : string -> bool) (raw : string) : result string IdError :=
  if String.eqb raw "" then Err IdEmpty
  else if bool_decide (MAX_ID_LEN < String.length raw) then Err IdTooLong
  else if negb (validate raw) then Err IdBadShape
  else Ok raw.

Definition parse_label : string -> result string IdError := parse_id is_label.
Definition parse_opaque : string -> result string IdError := parse_id is_opaque_token.

(** ** Realm paths *)

Abbreviation RealmId := string (only parsing).
Abbreviation RealmPath := (list string) (only parsing).

Definition MAX_REALM_LABELS : nat := 16.
Definition MAX_REALM_PATH_BYTES : nat := 255.

(** Bytes of the dotted form: the labels and the separators between them. *)
Definition path_bytes (labels : list RealmId) : nat :=
  sum_list (String.length <$> labels) + (length labels - 1).

Definition RealmPath_new (labels : list RealmId) : option RealmPath :=
  if (bool_decide (labels = []) || bool_decide (MAX_REALM_LABELS < length labels))%bool
  then None
  else if bool_decide (MAX_REALM_PATH_BYTES < path_bytes labels) then None
  else Some labels.

Definition RealmPath_local : RealmPath := ["local"%string].

Definition storage_form (p : RealmPath) : string := String.concat "/" (reverse p).
Definition target_form (p : RealmPath) : string := String.concat "." p.

Definition has_suffix (self suffix : RealmPath) : bool :=
  forallb (fun ab => String.eqb ab.1 ab.2) (zip (reverse self) (reverse suffix))
  && bool_decide (length suffix <= length self).

Definition is_descendant_of (self ancestor : RealmPath) : bool :=
  bool_decide (length ancestor < length self) && has_suffix self ancestor.

Definition is_direct_child_of (self parent : RealmPath) : bool :=
  bool_decide (length self = length parent + 1) && has_suffix self parent.

(** ** Lemmas *)

(** What holds of every value a [parse] returns. *)
Definition valid_label (s : string) : Prop := parse_label s = Ok s.
Definition valid_opaque (s : string) : Prop := parse_opaque s = Ok s.

Lemma parse_id_ok validate raw s :
  parse_id validate raw = Ok s <->
  s = raw /\ raw <> ""%string /\ String.length raw <= MAX_ID_LEN /\ validate raw = true.
Proof.
  unfold parse_id. split.
  - intros H. destruct (String.eqb_spec raw "") as [|Hne]; [done|].
    case_bool_decide; [done|]. destruct (validate raw); simplify_eq/=.
    split_and!; [done..|lia|done].
  - intros (-> & Hne & Hlen & Hv). apply String.eqb_neq in Hne as ->.
    rewrite bool_decide_false by lia. by rewrite Hv.
Qed.

Lemma zip_reverse_all {A} `{EqDecision A} (f : A * A -> bool) :
  (forall a b, f (a, b) = true <-> a = b) -> forall l k : list A,
  length k <= length l ->
  (forallb f (zip l k) = true <-> take (length k) l = k).
Proof.
  intros Hf l k. revert l. induction k as [|y k IH]; intros l Hlen.
  - by destruct l.
  - destruct l as [|x l]; simpl in *; [lia|].
    rewrite andb_true_iff, Hf, IH by lia.
    split; [intros [-> ->]; done|by intros [= ? ?]].
Qed.

(** [has_suffix] is list suffix. *)
Lemma has_suffix_spec self suffix :
  has_suffix self suffix = true <-> suffix `suffix_of` self.
Proof.
  unfold has_suffix. rewrite andb_true_iff, bool_decide_eq_true. split.
  - intros [Hz Hlen]. apply zip_reverse_all in Hz;
      [|intros; apply String.eqb_eq|rewrite !length_reverse; lia].
    exists (reverse (drop (length suffix) (reverse self))).
    rewrite length_reverse in Hz.
    transitivity (reverse (take (length suffix) (reverse self)
                           ++ drop (length suffix) (reverse self))).
    + by rewrite take_drop, reverse_involutive.
    + by rewrite reverse_app, Hz, reverse_involutive.
  - intros [pre ->]. rewrite length_app. split; [|lia].
    apply zip_reverse_all;
      [intros; apply String.eqb_eq|rewrite !length_reverse, length_app; lia|].
    by rewrite reverse_app, take_app_length.
Qed.

Lemma is_descendant_of_spec self ancestor :
  is_descendant_of self ancestor = true <->
  exists pre, pre <> [] /\ self = pre ++ ancestor.
Proof.
  unfold is_descendant_of. rewrite andb_true_iff, bool_decide_eq_true, has_suffix_spec.
  split.
  - intros [Hlen [pre ->]]. exists pre. split; [|done].
    intros ->. simpl in Hlen. lia.
  - intros (pre & Hne & ->). split; [|by exists pre].
    rewrite length_app. destruct pre; simpl; [done|lia].
Qed.

Lemma is_direct_child_of_spec self parent :
  is_direct_child_of self parent = true <-> exists label, self = label :: parent.
Proof.
  unfold is_direct_child_of. rewrite andb_true_iff, bool_decide_eq_true, has_suffix_spec.
  split.
  - intros [Hlen [pre ->]]. rewrite length_app in Hlen.
    destruct pre as [|x [|]]; simpl in *; [lia|by exists x|lia].
  - intros [x ->]. simpl. split; [lia|by exists [x]].
Qed.

Lemma RealmPath_new_some labels p :
  RealmPath_new labels = Some p <->
  p = labels /\ labels <> [] /\ length labels <= MAX_REALM_LABELS
  /\ path_bytes labels <= MAX_REALM_PATH_BYTES.
Proof.
  unfold RealmPath_new. split.
  - intros Hn. repeat case_bool_decide; simplify_eq/=. split_and!; try done; lia.
  - intros (-> & Hne & Hlen & Hb).
    rewrite (bool_decide_false (labels = [])) by done.
    by rewrite !bool_decide_false by lia.
Qed.
