(* ===== verification/Streams.v ===== *)
(** * Capabilities and stream descriptors

    [packages/d2b-realm-core/src/capability.rs], [stream.rs] and [token.rs]:
    the closed enums of the wire model, [CapabilitySet] with its negotiation
    fingerprint and its bounded wire form, and the authorization context of a
    stream.  A Rust path [T::f] is the Rocq name [T_f]. *)

From S2P Require Import Prelude Ids.

(** ** Capabilities *)

Inductive Capability :=
| Capability_Lifecycle
| Capability_Exec
| Capability_Pty
| Capability_Logs
| Capability_FileCopy
| Capability_PortForward
| Capability_PersistentShell
| Capability_Vsock
| Capability_Virtiofs
| Capability_WindowForwarding
| Capability_DisplayStreaming
| Capability_Clipboard
| Capability_AudioPlayback
| Capability_AudioCapture
| Capability_Hid
| Capability_Usb
| Capability_GpuAccel
| Capability_Snapshots
| Capability_Hotplug
| Capability_EphemeralSessions
| Capability_ProviderManagedIsolation
| Capability_ConfiguredLaunch.

#[global] Instance Capability_eq_dec : EqDecision Capability.
Proof. solve_decision. Defined.

#[global] Program Instance Capability_finite : Finite Capability :=
  {| enum := [Capability_Lifecycle; Capability_Exec; Capability_Pty; Capability_Logs; Capability_FileCopy; Capability_PortForward; Capability_PersistentShell; Capability_Vsock; Capability_Virtiofs; Capability_WindowForwarding; Capability_DisplayStreaming; Capability_Clipboard; Capability_AudioPlayback; Capability_AudioCapture; Capability_Hid; Capability_Usb; Capability_GpuAccel; Capability_Snapshots; Capability_Hotplug; Capability_EphemeralSessions; Capability_ProviderManagedIsolation; Capability_ConfiguredLaunch] |}.
Next Obligation. solve_enum_NoDup. Qed.
Next Obligation. solve_enum_elem. Qed.

#[global] Instance Capability_ord : RustOrd Capability := cmp_via enum_pos.
#[global] Instance Capability_ord_laws : RustOrdLaws Capability.
Proof. apply cmp_via_laws, enum_pos_inj. Qed.

Definition Capability_code (self : Capability) : string :=
  match self with
  | Capability_Lifecycle => "lifecycle"
  | Capability_Exec => "exec"
  | Capability_Pty => "pty"
  | Capability_Logs => "logs"
  | Capability_FileCopy => "file-copy"
  | Capability_PortForward => "port-forward"
  | Capability_PersistentShell => "persistent-shell"
  | Capability_Vsock => "vsock"
  | Capability_Virtiofs => "virtiofs"
  | Capability_WindowForwarding => "window-forwarding"
  | Capability_DisplayStreaming => "display-streaming"
  | Capability_Clipboard => "clipboard"
  | Capability_AudioPlayback => "audio-playback"
  | Capability_AudioCapture => "audio-capture"
  | Capability_Hid => "hid"
  | Capability_Usb => "usb"
  | Capability_GpuAccel => "gpu-accel"
  | Capability_Snapshots => "snapshots"
  | Capability_Hotplug => "hotplug"
  | Capability_EphemeralSessions => "ephemeral-sessions"
  | Capability_ProviderManagedIsolation => "provider-managed-isolation"
  | Capability_ConfiguredLaunch => "configured-launch"
  end%string.

Definition Capability_from_code (code : string) : option Capability :=
  if String.eqb code "lifecycle" then Some Capability_Lifecycle
  else if String.eqb code "exec" then Some Capability_Exec
  else if String.eqb code "pty" then Some Capability_Pty
  else if String.eqb code "logs" then Some Capability_Logs
  else if String.eqb code "file-copy" then Some Capability_FileCopy
  else if String.eqb code "port-forward" then Some Capability_PortForward
  else if String.eqb code "persistent-shell" then Some Capability_PersistentShell
  else if String.eqb code "vsock" then Some Capability_Vsock
  else if String.eqb code "virtiofs" then Some Capability_Virtiofs
  else if String.eqb code "window-forwarding" then Some Capability_WindowForwarding
  else if String.eqb code "display-streaming" then Some Capability_DisplayStreaming
  else if String.eqb code "clipboard" then Some Capability_Clipboard
  else if String.eqb code "audio-playback" then Some Capability_AudioPlayback
  else if String.eqb code "audio-capture" then Some Capability_AudioCapture
  else if String.eqb code "hid" then Some Capability_Hid
  else if String.eqb code "usb" then Some Capability_Usb
  else if String.eqb code "gpu-accel" then Some Capability_GpuAccel
  else if String.eqb code "snapshots" then Some Capability_Snapshots
  else if String.eqb code "hotplug" then Some Capability_Hotplug
  else if String.eqb code "ephemeral-sessions" then Some Capability_EphemeralSessions
  else if String.eqb code "provider-managed-isolation" then Some Capability_ProviderManagedIsolation
  else if String.eqb code "configured-launch" then Some Capability_ConfiguredLaunch
  else None.

(** ** Protocol tokens *)

Definition MAX_PROTOCOL_TOKEN_LEN : nat := 64.

Inductive TokenError := TokenError_Empty | TokenError_TooLong | TokenError_BadShape.

Definition TokenError_display (e : TokenError) : string :=
  match e with
  | TokenError_Empty => "protocol token is empty"
  | TokenError_TooLong => "protocol token exceeds 64 bytes"
  | TokenError_BadShape => "protocol token has an invalid shape"
  end.

(** [char::is_ascii_graphic]: the printable ASCII range without the space. *)
Definition is_ascii_graphic : Ascii.ascii -> bool := char_in "!"%char "~"%char.

Definition ProtocolToken_parse (raw : string) : result string TokenError :=
  if String.eqb raw "" then Err TokenError_Empty
  else if bool_decide (MAX_PROTOCOL_TOKEN_LEN < String.length raw) then Err TokenError_TooLong
  else if negb (forallb (fun c => is_ascii_graphic c && negb (char_eqb c " "%char)) (chars raw))
  then Err TokenError_BadShape
  else Ok raw.

(** ** Capability sets *)

Definition CAPABILITY_NEGOTIATION_SCHEMA_VERSION : N := 1.
Definition MAX_CAPABILITY_SET_LEN : nat := 64.

Record CapabilitySet := mkCapabilitySet {
  known : gset Capability;
  unknown : gset string
}.

#[global] Instance CapabilitySet_eq_dec : EqDecision CapabilitySet.
Proof. solve_decision. Defined.

Definition CapabilitySet_empty : CapabilitySet := mkCapabilitySet ∅ ∅.

Definition CapabilitySet_from_caps (caps : list Capability) : CapabilitySet :=
  mkCapabilitySet (list_to_set caps) ∅.

Definition from_tokens_step (set : CapabilitySet) (token : string) : CapabilitySet :=
  match Capability_from_code token with
  | Some capability => mkCapabilitySet ({[capability]} ∪ known set) (unknown set)
  | None => mkCapabilitySet (known set) ({[token]} ∪ unknown set)
  end.

Definition CapabilitySet_from_tokens (tokens : list string) : CapabilitySet :=
  fold_left from_tokens_step tokens CapabilitySet_empty.

Definition CapabilitySet_with (self : CapabilitySet) (cap : Capability) : CapabilitySet :=
  mkCapabilitySet ({[cap]} ∪ known self) (unknown self).

Definition CapabilitySet_has (self : CapabilitySet) (cap : Capability) : bool :=
  bool_decide (cap ∈ known self).

(** The sorted code list that [Serialize] writes and [stable_fingerprint]
    hashes. *)
Definition CapabilitySet_codes (self : CapabilitySet) : list string :=
  rust_sort (map Capability_code (btree_iter (known self)) ++ btree_iter (unknown self)).

(** One FNV-1a round on a 64-bit state. *)
Definition fnv_byte (hash byte : N) : N :=
  u64_wrap (N.lxor hash byte * 0x100000001b3).

Definition fnv_code (hash : N) (code : string) : N :=
  fnv_byte (fold_left (fun h c => fnv_byte h (Ascii.N_of_ascii c)) (chars code) hash) 0xff.

Definition hex_digit (n : N) : Ascii.ascii :=
  if (n <? 10)%N then Ascii.ascii_of_N (48 + n) else Ascii.ascii_of_N (87 + n).

(** [{hash:016x}] *)
Fixpoint hex_digits (width : nat) (n : N) : string :=
  match width with
  | O => ""
  | S width => hex_digits width (n / 16) +:+ String (hex_digit (n mod 16)) ""
  end.

Definition CapabilitySet_stable_fingerprint (self : CapabilitySet) : string :=
  "cap-v1-" +:+
  hex_digits 16 (fold_left fnv_code (CapabilitySet_codes self) 0xcbf29ce484222325%N).

Definition CapabilitySet_intersection (self other : CapabilitySet) : CapabilitySet :=
  mkCapabilitySet (known self ∩ known other) (unknown self ∩ unknown other).

Definition CapabilitySet_is_subset_of (self other : CapabilitySet) : bool :=
  bool_decide (known self ⊆ known other) && bool_decide (unknown self ⊆ unknown other).

Record CapabilityNegotiation := mkCapabilityNegotiation {
  schema_version : N;
  negotiated_set : CapabilitySet;
  negotiated_fingerprint : string
}.

#[global] Instance CapabilityNegotiation_eq_dec : EqDecision CapabilityNegotiation.
Proof. solve_decision. Defined.

Definition CapabilitySet_negotiation (self : CapabilitySet) : CapabilityNegotiation :=
  mkCapabilityNegotiation CAPABILITY_NEGOTIATION_SCHEMA_VERSION self
    (CapabilitySet_stable_fingerprint self).

(** [visit_seq] of the deserializer: each element is parsed as a token before
    it is counted. *)
Fixpoint collect_tokens (seq : list string) (count : nat) (tokens : list string) :
    option (list string) :=
  match seq with
  | [] => Some tokens
  | raw :: seq =>
      match ProtocolToken_parse raw with
      | Err _ => None
      | Ok token =>
          if bool_decide (MAX_CAPABILITY_SET_LEN < S count) then None
          else collect_tokens seq (S count) (tokens ++ [token])
      end
  end.

Definition CapabilitySet_deserialize (seq : list string) : option CapabilitySet :=
  CapabilitySet_from_tokens <$> collect_tokens seq 0 [].

(** ** Streams *)

Inductive StreamKind :=
| StreamKind_Control
| StreamKind_Pty
| StreamKind_ShellPty
| StreamKind_Stdio
| StreamKind_Logs
| StreamKind_FileCopy
| StreamKind_PortForward
| StreamKind_Display
| StreamKind_Clipboard
| StreamKind_AudioPlayback
| StreamKind_AudioCapture
| StreamKind_DeviceHid
| StreamKind_DeviceUsb.

#[global] Instance StreamKind_eq_dec : EqDecision StreamKind.
Proof. solve_decision. Defined.

#[global] Program Instance StreamKind_finite : Finite StreamKind :=
  {| enum := [StreamKind_Control; StreamKind_Pty; StreamKind_ShellPty; StreamKind_Stdio; StreamKind_Logs; StreamKind_FileCopy; StreamKind_PortForward; StreamKind_Display; StreamKind_Clipboard; StreamKind_AudioPlayback; StreamKind_AudioCapture; StreamKind_DeviceHid; StreamKind_DeviceUsb] |}.
Next Obligation. solve_enum_NoDup. Qed.
Next Obligation. solve_enum_elem. Qed.

Definition StreamKind_code (self : StreamKind) : string :=
  match self with
  | StreamKind_Control => "control"
  | StreamKind_Pty => "pty"
  | StreamKind_ShellPty => "shell-pty"
  | StreamKind_Stdio => "stdio"
  | StreamKind_Logs => "logs"
  | StreamKind_FileCopy => "file-copy"
  | StreamKind_PortForward => "port-forward"
  | StreamKind_Display => "display"
  | StreamKind_Clipboard => "clipboard"
  | StreamKind_AudioPlayback => "audio-playback"
  | StreamKind_AudioCapture => "audio-capture"
  | StreamKind_DeviceHid => "device-hid"
  | StreamKind_DeviceUsb => "device-usb"
  end%string.

Definition StreamKind_required_capability (self : StreamKind) : Capability :=
  match self with
  | StreamKind_Control => Capability_Lifecycle
  | StreamKind_Pty => Capability_Pty
  | StreamKind_ShellPty => Capability_PersistentShell
  | StreamKind_Stdio => Capability_Exec
  | StreamKind_Logs => Capability_Logs
  | StreamKind_FileCopy => Capability_FileCopy
  | StreamKind_PortForward => Capability_PortForward
  | StreamKind_Display => Capability_WindowForwarding
  | StreamKind_Clipboard => Capability_Clipboard
  | StreamKind_AudioPlayback => Capability_AudioPlayback
  | StreamKind_AudioCapture => Capability_AudioCapture
  | StreamKind_DeviceHid => Capability_Hid
  | StreamKind_DeviceUsb => Capability_Usb
  end.

Inductive StreamChannel :=
| StreamChannel_Primary
| StreamChannel_Stdout
| StreamChannel_Stderr.

#[global] Instance StreamChannel_eq_dec : EqDecision StreamChannel.
Proof. solve_decision. Defined.

#[global] Program Instance StreamChannel_finite : Finite StreamChannel :=
  {| enum := [StreamChannel_Primary; StreamChannel_Stdout; StreamChannel_Stderr] |}.
Next Obligation. solve_enum_NoDup. Qed.
Next Obligation. solve_enum_elem. Qed.

Inductive StreamCloseReason :=
| StreamCloseReason_Completed
| StreamCloseReason_Cancelled
| StreamCloseReason_TimedOut
| StreamCloseReason_Errored
| StreamCloseReason_PeerGone.

#[global] Instance StreamCloseReason_eq_dec : EqDecision StreamCloseReason.
Proof. solve_decision. Defined.

#[global] Program Instance StreamCloseReason_finite : Finite StreamCloseReason :=
  {| enum := [StreamCloseReason_Completed; StreamCloseReason_Cancelled; StreamCloseReason_TimedOut; StreamCloseReason_Errored; StreamCloseReason_PeerGone] |}.
Next Obligation. solve_enum_NoDup. Qed.
Next Obligation. solve_enum_elem. Qed.

Definition StreamCloseReason_code (self : StreamCloseReason) : string :=
  match self with
  | StreamCloseReason_Completed => "completed"
  | StreamCloseReason_Cancelled => "cancelled"
  | StreamCloseReason_TimedOut => "timed-out"
  | StreamCloseReason_Errored => "errored"
  | StreamCloseReason_PeerGone => "peer-gone"
  end%string.

Record StreamDescriptor := mkStreamDescriptor {
  descriptor_id : string;
  descriptor_kind : StreamKind
}.

Record StreamAuthz := mkStreamAuthz {
  authz_principal : string;
  authz_realm : RealmPath;
  authz_capability : Capability
}.

Definition StreamAuthz_for_kind (principal : string) (realm : RealmPath) (kind : StreamKind) :
    StreamAuthz :=
  mkStreamAuthz principal realm (StreamKind_required_capability kind).

Definition StreamAuthz_matches_kind (self : StreamAuthz) (kind : StreamKind) : bool :=
  bool_decide (authz_capability self = StreamKind_required_capability kind).

(** ** Lemmas *)

Lemma Capability_from_code_code c : Capability_from_code (Capability_code c) = Some c.
Proof. by destruct c. Qed.

Lemma Capability_from_code_some t c : Capability_from_code t = Some c -> t = Capability_code c.
Proof.
  unfold Capability_from_code.
  repeat (case_match; [intros [= <-]; by apply String.eqb_eq|]). done.
Qed.

Lemma Capability_code_inj c1 c2 : Capability_code c1 = Capability_code c2 -> c1 = c2.
Proof.
  intros H. apply (inj Some). by rewrite <- !Capability_from_code_code, H.
Qed.

Lemma Capability_code_token c : ProtocolToken_parse (Capability_code c) = Ok (Capability_code c).
Proof. by destruct c. Qed.

Lemma from_tokens_elem tokens s :
  (forall c, c ∈ known (fold_left from_tokens_step tokens s) <->
             c ∈ known s \/ Capability_code c ∈ tokens) /\
  (forall t, t ∈ unknown (fold_left from_tokens_step tokens s) <->
             t ∈ unknown s \/ (t ∈ tokens /\ Capability_from_code t = None)).
Proof.
  revert s. induction tokens as [|t tokens IH]; intros s; simpl.
  { split; intros x; set_solver. }
  destruct (IH (from_tokens_step s t)) as [IH1 IH2]. unfold from_tokens_step in *.
  destruct (Capability_from_code t) as [c|] eqn:Hc; simpl in *; split; intros x;
    rewrite ?IH1, ?IH2, ?elem_of_union, ?elem_of_singleton, ?elem_of_cons.
  - apply Capability_from_code_some in Hc. subst t.
    assert (Capability_code x = Capability_code c <-> x = c) as ->
      by (split; [apply Capability_code_inj|congruence]). tauto.
  - split; [tauto|]. intros [?|[[->|?] ?]]; [tauto|congruence|tauto].
  - split; [tauto|]. intros [?|[Heq|?]]; [tauto| |tauto].
    rewrite <- Heq, Capability_from_code_code in Hc. done.
  - naive_solver.
Qed.

Lemma collect_tokens_valid seq count tokens :
  Forall (fun t => ProtocolToken_parse t = Ok t) seq ->
  count + length seq <= MAX_CAPABILITY_SET_LEN ->
  collect_tokens seq count tokens = Some (tokens ++ seq).
Proof.
  intros Hv. revert count tokens. induction Hv as [|t seq Ht _ IH]; intros count tokens Hlen; simpl.
  { by rewrite app_nil_r. }
  rewrite Ht. simpl in Hlen. rewrite bool_decide_false by lia.
  rewrite IH by lia. by rewrite <- app_assoc.
Qed.

Lemma elem_of_codes s t :
  t ∈ CapabilitySet_codes s <-> (exists c, t = Capability_code c /\ c ∈ known s) \/ t ∈ unknown s.
Proof.
  unfold CapabilitySet_codes. rewrite elem_of_rust_sort, elem_of_app, elem_of_btree_iter.
  rewrite list_elem_of_fmap. by setoid_rewrite elem_of_btree_iter.
Qed.

Lemma length_codes s : length (CapabilitySet_codes s) = size (known s) + size (unknown s).
Proof.
  unfold CapabilitySet_codes.
  by rewrite length_rust_sort, length_app, length_map, !length_btree_iter.
Qed.

(** The sets the constructors build: unknown tokens are valid and unknown. *)
Definition CapabilitySet_wf (s : CapabilitySet) : Prop :=
  forall t, t ∈ unknown s -> ProtocolToken_parse t = Ok t /\ Capability_from_code t = None.

(** A capability set survives the wire: decoding the code list that
    serialization writes gives the set back, unknown future capabilities
    included, whenever it fits the decoder's bound. *)
Theorem capability_set_roundtrip (s : CapabilitySet) :
  CapabilitySet_wf s -> size (known s) + size (unknown s) <= MAX_CAPABILITY_SET_LEN ->
  CapabilitySet_deserialize (CapabilitySet_codes s) = Some s.
Proof.
  intros Hwf Hsz. unfold CapabilitySet_deserialize. rewrite collect_tokens_valid.
  - simpl. f_equal. unfold CapabilitySet_from_tokens.
    destruct (from_tokens_elem (CapabilitySet_codes s) CapabilitySet_empty) as [Hk Hu].
    destruct (fold_left _ _ _) as [k u], s as [k0 u0]. unfold CapabilitySet_wf in Hwf. simpl in *.
    f_equal; apply set_eq; intros x.
    + rewrite Hk, elem_of_codes. simpl. split.
      * intros [?|[(c & ->%Capability_code_inj & ?)|Hx]]; [set_solver|done|].
        apply Hwf in Hx as [_ Hx]. by rewrite Capability_from_code_code in Hx.
      * eauto.
    + rewrite Hu, elem_of_codes. simpl. split.
      * intros [?|[[(c & -> & _)|Hx] Hn]]; [set_solver| |done].
        by rewrite Capability_from_code_code in Hn.
      * intros Hx. right. split; [by right|]. by apply Hwf.
  - apply Forall_forall. intros t [(c & -> & _)|Ht]%elem_of_codes;
      [apply Capability_code_token|by apply Hwf].
  - rewrite length_codes. lia.
Qed.

Definition demo_set : CapabilitySet :=
  mkCapabilitySet {[Capability_Logs; Capability_Usb]} {["teleport"%string]}.

Lemma capability_set_roundtrip_witness :
  CapabilitySet_deserialize ["logs"; "teleport"; "usb"] = Some demo_set.
Proof.
  change ["logs"; "teleport"; "usb"]%string with (CapabilitySet_codes demo_set).
  apply (capability_set_roundtrip demo_set).
  - intros t Ht. assert (t = "teleport"%string) as -> by set_solver. by split.
  - vm_compute. lia.
Defined.
