(* ===== verification/Frame.v ===== *)
(** * Errors and semantic frames

    [packages/d2b-realm-core/src/error.rs] and [frame.rs], with the audit
    scope of [audit.rs]: the typed error with its bounded message, operation
    kinds and what the router derives from them, operation requests with the
    byte string that identifies a request for deduplication, and the stream
    frames the mux consumes. *)

From stdpp Require Export pretty.
From S2P Require Import Prelude Ids Streams.

(** ** Typed errors *)

Inductive ErrorKind :=
| ErrorKind_CapabilityDenied
| ErrorKind_Unauthorized
| ErrorKind_NoRealmEntrypoint
| ErrorKind_GatewayUnavailable
| ErrorKind_ProviderAllocationFailed
| ErrorKind_RelayUnavailable
| ErrorKind_AuthenticationFailed
| ErrorKind_VersionSkew
| ErrorKind_OperationInProgress
| ErrorKind_IdempotencyKeyConflict
| ErrorKind_IdempotencyKeyExpired
| ErrorKind_Backpressure
| ErrorKind_Cancelled
| ErrorKind_Timeout
| ErrorKind_FrameTooLarge
| ErrorKind_MalformedFrame
| ErrorKind_InvalidTarget
| ErrorKind_AuditUnavailable
| ErrorKind_UnsupportedFeature.

#[global] Instance ErrorKind_eq_dec : EqDecision ErrorKind.
Proof. solve_decision. Defined.

#[global] Program Instance ErrorKind_finite : Finite ErrorKind :=
  {| enum := [ErrorKind_CapabilityDenied; ErrorKind_Unauthorized; ErrorKind_NoRealmEntrypoint; ErrorKind_GatewayUnavailable; ErrorKind_ProviderAllocationFailed; ErrorKind_RelayUnavailable; ErrorKind_AuthenticationFailed; ErrorKind_VersionSkew; ErrorKind_OperationInProgress; ErrorKind_IdempotencyKeyConflict; ErrorKind_IdempotencyKeyExpired; ErrorKind_Backpressure; ErrorKind_Cancelled; ErrorKind_Timeout; ErrorKind_FrameTooLarge; ErrorKind_MalformedFrame; ErrorKind_InvalidTarget; ErrorKind_AuditUnavailable; ErrorKind_UnsupportedFeature] |}.
Next Obligation. solve_enum_NoDup. Qed.
Next Obligation. solve_enum_elem. Qed.

Definition ErrorKind_code (self : ErrorKind) : string :=
  match self with
  | ErrorKind_CapabilityDenied => "capability-denied"
  | ErrorKind_Unauthorized => "unauthorized"
  | ErrorKind_NoRealmEntrypoint => "no-realm-entrypoint"
  | ErrorKind_GatewayUnavailable => "gateway-unavailable"
  | ErrorKind_ProviderAllocationFailed => "provider-allocation-failed"
  | ErrorKind_RelayUnavailable => "relay-unavailable"
  | ErrorKind_AuthenticationFailed => "authentication-failed"
  | ErrorKind_VersionSkew => "version-skew"
  | ErrorKind_OperationInProgress => "operation-in-progress"
  | ErrorKind_IdempotencyKeyConflict => "idempotency-key-conflict"
  | ErrorKind_IdempotencyKeyExpired => "idempotency-key-expired"
  | ErrorKind_Backpressure => "backpressure"
  | ErrorKind_Cancelled => "cancelled"
  | ErrorKind_Timeout => "timeout"
  | ErrorKind_FrameTooLarge => "frame-too-large"
  | ErrorKind_MalformedFrame => "malformed-frame"
  | ErrorKind_InvalidTarget => "invalid-target"
  | ErrorKind_AuditUnavailable => "audit-unavailable"
  | ErrorKind_UnsupportedFeature => "unsupported-feature"
  end%string.

Definition MAX_MESSAGE_LEN : nat := 256.
Definition MAX_FINGERPRINT_LEN : nat := 64.

(** [str::is_char_boundary]: not inside a UTF-8 sequence. *)
Definition is_char_boundary (s : string) (i : nat) : bool :=
  if bool_decide (i = 0) then true
  else match chars s !! i with
       | Some c => negb (char_in "128"%char "191"%char c)
       | None => bool_decide (i = String.length s)
       end.

(** [while end > 0 && !s.is_char_boundary(end) { end -= 1 }] *)
Fixpoint floor_boundary (s : string) (e : nat) : nat :=
  match e with
  | O => O
  | S e' => if is_char_boundary s e then e else floor_boundary s e'
  end.

Definition truncate_at (max : nat) (s : string) : string :=
  if bool_decide (max < String.length s)
  then String.string_of_list_ascii (take (floor_boundary s max) (chars s))
  else s.

Definition bound_message : string -> string := truncate_at MAX_MESSAGE_LEN.
Definition bound_fingerprint : string -> string := truncate_at MAX_FINGERPRINT_LEN.

Record ConstellationError := mkConstellationError {
  err_kind : ErrorKind;
  err_correlation_id : option string;
  err_capability : option Capability;
  err_fingerprint : option string;
  err_message : string
}.

#[global] Instance ConstellationError_eq_dec : EqDecision ConstellationError.
Proof. solve_decision. Defined.

Definition ConstellationError_new (kind : ErrorKind) (message : string) : ConstellationError :=
  let kind := if bool_decide (kind = ErrorKind_CapabilityDenied)
              then ErrorKind_Unauthorized else kind in
  mkConstellationError kind None None None (bound_message message).

Definition capability_denied_with_fingerprint (missing : Capability)
    (negotiated_fingerprint : option string) : ConstellationError :=
  mkConstellationError ErrorKind_CapabilityDenied None (Some missing)
    (bound_fingerprint <$> negotiated_fingerprint)
    (bound_message ("required capability " +:+ Capability_code missing +:+ " is not advertised")).

Definition capability_denied (missing : Capability) : ConstellationError :=
  capability_denied_with_fingerprint missing None.

Definition with_correlation_id (self : ConstellationError) (correlation_id : string) :
    ConstellationError :=
  mkConstellationError (err_kind self) (Some correlation_id) (err_capability self)
    (err_fingerprint self) (err_message self).

(** The checks of the deserializer on the decoded fields. *)
Definition ConstellationError_deserialize (raw : ConstellationError) : option ConstellationError :=
  if bool_decide (err_kind raw = ErrorKind_CapabilityDenied) && bool_decide (err_capability raw = None)
  then None
  else if bool_decide (err_kind raw <> ErrorKind_CapabilityDenied)
          && negb (bool_decide (err_fingerprint raw = None))
  then None
  else Some (mkConstellationError (err_kind raw) (err_correlation_id raw) (err_capability raw)
               (bound_fingerprint <$> err_fingerprint raw) (bound_message (err_message raw))).

(** ** Operation kinds *)

Inductive OperationKind :=
| OperationKind_NodeRegister
| OperationKind_NodeHeartbeat
| OperationKind_NodeCapabilities
| OperationKind_WorkloadList
| OperationKind_WorkloadStart
| OperationKind_WorkloadStop
| OperationKind_GuestHealth
| OperationKind_ExecStart
| OperationKind_ExecAttach
| OperationKind_ExecLogs
| OperationKind_ExecCancel
| OperationKind_ShellList
| OperationKind_ShellAttach
| OperationKind_ShellDetach
| OperationKind_ShellKill
| OperationKind_FileCopyStart
| OperationKind_PortForwardOpen
| OperationKind_DisplaySessionOpen.

#[global] Instance OperationKind_eq_dec : EqDecision OperationKind.
Proof. solve_decision. Defined.

#[global] Program Instance OperationKind_finite : Finite OperationKind :=
  {| enum := [OperationKind_NodeRegister; OperationKind_NodeHeartbeat; OperationKind_NodeCapabilities; OperationKind_WorkloadList; OperationKind_WorkloadStart; OperationKind_WorkloadStop; OperationKind_GuestHealth; OperationKind_ExecStart; OperationKind_ExecAttach; OperationKind_ExecLogs; OperationKind_ExecCancel; OperationKind_ShellList; OperationKind_ShellAttach; OperationKind_ShellDetach; OperationKind_ShellKill; OperationKind_FileCopyStart; OperationKind_PortForwardOpen; OperationKind_DisplaySessionOpen] |}.
Next Obligation. solve_enum_NoDup. Qed.
Next Obligation. solve_enum_elem. Qed.

Definition OperationKind_code (self : OperationKind) : string :=
  match self with
  | OperationKind_NodeRegister => "node-register"
  | OperationKind_NodeHeartbeat => "node-heartbeat"
  | OperationKind_NodeCapabilities => "node-capabilities"
  | OperationKind_WorkloadList => "workload-list"
  | OperationKind_WorkloadStart => "workload-start"
  | OperationKind_WorkloadStop => "workload-stop"
  | OperationKind_GuestHealth => "guest-health"
  | OperationKind_ExecStart => "exec-start"
  | OperationKind_ExecAttach => "exec-attach"
  | OperationKind_ExecLogs => "exec-logs"
  | OperationKind_ExecCancel => "exec-cancel"
  | OperationKind_ShellList => "shell-list"
  | OperationKind_ShellAttach => "shell-attach"
  | OperationKind_ShellDetach => "shell-detach"
  | OperationKind_ShellKill => "shell-kill"
  | OperationKind_FileCopyStart => "file-copy-start"
  | OperationKind_PortForwardOpen => "port-forward-open"
  | OperationKind_DisplaySessionOpen => "display-session-open"
  end%string.

(** The derived [Debug] form: the constructor's name. *)
Definition OperationKind_debug (self : OperationKind) : string :=
  match self with
  | OperationKind_NodeRegister => "NodeRegister"
  | OperationKind_NodeHeartbeat => "NodeHeartbeat"
  | OperationKind_NodeCapabilities => "NodeCapabilities"
  | OperationKind_WorkloadList => "WorkloadList"
  | OperationKind_WorkloadStart => "WorkloadStart"
  | OperationKind_WorkloadStop => "WorkloadStop"
  | OperationKind_GuestHealth => "GuestHealth"
  | OperationKind_ExecStart => "ExecStart"
  | OperationKind_ExecAttach => "ExecAttach"
  | OperationKind_ExecLogs => "ExecLogs"
  | OperationKind_ExecCancel => "ExecCancel"
  | OperationKind_ShellList => "ShellList"
  | OperationKind_ShellAttach => "ShellAttach"
  | OperationKind_ShellDetach => "ShellDetach"
  | OperationKind_ShellKill => "ShellKill"
  | OperationKind_FileCopyStart => "FileCopyStart"
  | OperationKind_PortForwardOpen => "PortForwardOpen"
  | OperationKind_DisplaySessionOpen => "DisplaySessionOpen"
  end%string.

Definition OperationKind_is_mutating (self : OperationKind) : bool :=
  match self with
  | OperationKind_WorkloadStart | OperationKind_WorkloadStop | OperationKind_ExecStart | OperationKind_ExecAttach | OperationKind_ExecCancel | OperationKind_ShellAttach | OperationKind_ShellDetach | OperationKind_ShellKill | OperationKind_FileCopyStart | OperationKind_PortForwardOpen | OperationKind_DisplaySessionOpen | OperationKind_NodeRegister => true
  | _ => false
  end.

Definition OperationKind_required_capability (self : OperationKind) : option Capability :=
  match self with
  | OperationKind_NodeRegister | OperationKind_NodeHeartbeat | OperationKind_NodeCapabilities | OperationKind_GuestHealth => None
  | OperationKind_WorkloadList | OperationKind_WorkloadStart | OperationKind_WorkloadStop => Some Capability_Lifecycle
  | OperationKind_ExecStart | OperationKind_ExecAttach | OperationKind_ExecCancel => Some Capability_Exec
  | OperationKind_ExecLogs => Some Capability_Logs
  | OperationKind_ShellList | OperationKind_ShellAttach | OperationKind_ShellDetach | OperationKind_ShellKill => Some Capability_PersistentShell
  | OperationKind_FileCopyStart => Some Capability_FileCopy
  | OperationKind_PortForwardOpen => Some Capability_PortForward
  | OperationKind_DisplaySessionOpen => Some Capability_WindowForwarding
  end.

Inductive AuthorizationScope :=
| AuthorizationScope_Capability (capability : Capability)
| AuthorizationScope_NodeControl
| AuthorizationScope_Enrollment
| AuthorizationScope_KeyRotation
| AuthorizationScope_Revocation
| AuthorizationScope_Recovery
| AuthorizationScope_Health.

#[global] Instance AuthorizationScope_eq_dec : EqDecision AuthorizationScope.
Proof. solve_decision. Defined.

Definition OperationKind_authorization_scope (self : OperationKind) : AuthorizationScope :=
  match self with
  | OperationKind_NodeRegister => AuthorizationScope_Enrollment
  | OperationKind_NodeHeartbeat | OperationKind_NodeCapabilities => AuthorizationScope_NodeControl
  | OperationKind_GuestHealth => AuthorizationScope_Health
  | _ =>
      match OperationKind_required_capability self with
      | Some cap => AuthorizationScope_Capability cap
      | None => AuthorizationScope_NodeControl
      end
  end.

Definition OperationKind_requires_workload (self : OperationKind) : bool :=
  match self with
  | OperationKind_NodeRegister | OperationKind_NodeHeartbeat | OperationKind_NodeCapabilities | OperationKind_WorkloadList => false
  | _ => true
  end.

Definition OperationKind_allowed_stream_kinds (self : OperationKind) : list StreamKind :=
  match self with
  | OperationKind_ExecStart | OperationKind_ExecAttach => [StreamKind_Stdio; StreamKind_Pty]
  | OperationKind_ExecLogs => [StreamKind_Logs]
  | OperationKind_ShellAttach => [StreamKind_ShellPty]
  | OperationKind_FileCopyStart => [StreamKind_FileCopy]
  | OperationKind_PortForwardOpen => [StreamKind_PortForward]
  | OperationKind_DisplaySessionOpen => [StreamKind_Display]
  | _ => []
  end.

(** ** Operation requests *)

(** Payload bytes. *)
Abbreviation bytes := (list Ascii.ascii) (only parsing).

Definition MAX_PAYLOAD_LEN : N := N.shiftl 1 20.

(** [OpaquePayload::new]; [None] is [PayloadTooLarge]. *)
Definition OpaquePayload_new (raw : bytes) : option bytes :=
  if bool_decide (MAX_PAYLOAD_LEN < N.of_nat (length raw))%N then None else Some raw.

Record TraceContext := mkTraceContext { trace_id : string; span_id : string }.

#[global] Instance TraceContext_eq_dec : EqDecision TraceContext.
Proof. solve_decision. Defined.

Record OperationRequest := mkOperationRequest {
  req_operation_id : string;
  req_correlation_id : string;
  req_idempotency_key : option string;
  req_realm : RealmPath;
  req_node : string;
  req_workload : option string;
  req_principal : string;
  req_kind : OperationKind;
  req_trace : option TraceContext;
  req_body : bytes
}.

(** The check the deserializer adds to the fields' own. *)
Definition OperationRequest_deserialize (raw : OperationRequest) : option OperationRequest :=
  if OperationKind_is_mutating (req_kind raw) && bool_decide (req_idempotency_key raw = None)
  then None
  else Some raw.

Definition push_field (label : string) (value : bytes) : bytes :=
  chars label ++ ["="%char] ++ le_bytes 8 (N.of_nat (length value)) ++ value ++ ["010"%char].

Definition dedup_fingerprint_input (self : OperationRequest) : bytes :=
  push_field "kind" (chars (OperationKind_debug (req_kind self)))
  ++ push_field "realm" (chars (target_form (req_realm self)))
  ++ push_field "node" (chars (req_node self))
  ++ push_field "workload" (chars (default ""%string (req_workload self)))
  ++ push_field "principal" (chars (req_principal self))
  ++ push_field "body" (req_body self).

Record OperationResponse := mkOperationResponse {
  resp_operation_id : string;
  resp_correlation_id : string;
  resp_body : bytes
}.

(** ** Stream frames *)

Record StreamOpen := mkStreamOpen {
  open_descriptor : StreamDescriptor;
  open_operation_id : string;
  open_authz : StreamAuthz
}.

Definition StreamOpen_is_consistent (self : StreamOpen) : bool :=
  StreamAuthz_matches_kind (open_authz self) (descriptor_kind (open_descriptor self)).

Definition StreamOpen_deserialize (raw : StreamOpen) : option StreamOpen :=
  if StreamOpen_is_consistent raw then Some raw else None.

Record StreamData := mkStreamData {
  data_stream : string;
  data_sequence : N;
  data_channel : StreamChannel;
  data_cursor : option string;
  data_payload : bytes
}.

Record StreamFlow := mkStreamFlow { flow_stream : string; flow_credits : N }.

Definition StreamFlow_deserialize (raw : StreamFlow) : option StreamFlow :=
  if bool_decide (flow_credits raw = 0%N) then None else Some raw.

Record StreamClose := mkStreamClose {
  close_stream_id : string;
  close_reason_of : StreamCloseReason
}.

Record StreamResume := mkStreamResume { resume_stream_id : string; resume_cursor : string }.

Inductive AuthzDecision := AuthzDecision_Allow | AuthzDecision_Deny.

Record AdmissionAuditRecord := mkAdmissionAuditRecord {
  aar_operation_id : string;
  aar_correlation_id : string;
  aar_realm : RealmPath;
  aar_principal : option string;
  aar_node : string;
  aar_scope : AuthorizationScope;
  aar_decision : AuthzDecision;
  aar_reason : ErrorKind;
  aar_trace : option TraceContext
}.

Definition AdmissionAuditRecord_denied (operation_id correlation_id : string) (realm : RealmPath)
    (node : string) (scope : AuthorizationScope) (reason : ErrorKind) : AdmissionAuditRecord :=
  mkAdmissionAuditRecord operation_id correlation_id realm None node scope
    AuthzDecision_Deny reason None.

Definition aar_with_principal (self : AdmissionAuditRecord) (p : string) : AdmissionAuditRecord :=
  mkAdmissionAuditRecord (aar_operation_id self) (aar_correlation_id self) (aar_realm self)
    (Some p) (aar_node self) (aar_scope self) (aar_decision self) (aar_reason self)
    (aar_trace self).

Definition aar_with_trace (self : AdmissionAuditRecord) (t : TraceContext) : AdmissionAuditRecord :=
  mkAdmissionAuditRecord (aar_operation_id self) (aar_correlation_id self) (aar_realm self)
    (aar_principal self) (aar_node self) (aar_scope self) (aar_decision self) (aar_reason self)
    (Some t).

(** ** Handshake frames and the frame sum *)

Record PeerContext := mkPeerContext {
  auth_mechanism : string;
  peer_principal : option string;
  peer_node : option string
}.

#[global] Instance PeerContext_eq_dec : EqDecision PeerContext.
Proof. solve_decision. Defined.

Record Handshake := mkHandshake {
  hs_protocol_version : N;
  hs_codec_id : string;
  hs_schema_fingerprint : string;
  hs_capabilities : CapabilityNegotiation;
  hs_peer : option PeerContext
}.

Record HandshakeAccepted := mkHandshakeAccepted { selected : Handshake }.

Inductive HandshakeRejectedReason :=
| HandshakeRejectedReason_VersionSkew
| HandshakeRejectedReason_CodecMismatch
| HandshakeRejectedReason_SchemaFingerprintMismatch
| HandshakeRejectedReason_CapabilityMismatch
| HandshakeRejectedReason_ChannelBindingMismatch
| HandshakeRejectedReason_MalformedHandshake.

(** The derived [Debug] text. *)
Definition HandshakeRejectedReason_debug (self : HandshakeRejectedReason) : string :=
  match self with
  | HandshakeRejectedReason_VersionSkew => "VersionSkew"
  | HandshakeRejectedReason_CodecMismatch => "CodecMismatch"
  | HandshakeRejectedReason_SchemaFingerprintMismatch => "SchemaFingerprintMismatch"
  | HandshakeRejectedReason_CapabilityMismatch => "CapabilityMismatch"
  | HandshakeRejectedReason_ChannelBindingMismatch => "ChannelBindingMismatch"
  | HandshakeRejectedReason_MalformedHandshake => "MalformedHandshake"
  end.

Record HandshakeRejected := mkHandshakeRejected { rejected_reason : HandshakeRejectedReason }.

Inductive ConstellationFrame :=
| ConstellationFrame_Handshake (h : Handshake)
| ConstellationFrame_HandshakeAccepted (h : HandshakeAccepted)
| ConstellationFrame_HandshakeRejected (h : HandshakeRejected)
| ConstellationFrame_OperationRequest (r : OperationRequest)
| ConstellationFrame_OperationResponse (r : OperationResponse)
| ConstellationFrame_StreamOpen (o : StreamOpen)
| ConstellationFrame_StreamData (d : StreamData)
| ConstellationFrame_StreamFlow (f : StreamFlow)
| ConstellationFrame_StreamClose (c : StreamClose)
| ConstellationFrame_StreamResume (r : StreamResume)
| ConstellationFrame_TypedError (e : ConstellationError)
| ConstellationFrame_AdmissionAudit (a : AdmissionAuditRecord).

(** ** Bounded messages *)

Lemma floor_boundary_spec s e :
  floor_boundary s e <= e /\ is_char_boundary s (floor_boundary s e) = true /\
  forall i, floor_boundary s e < i <= e -> is_char_boundary s i = false.
Proof.
  induction e as [|e (IH1 & IH2 & IH3)]; simpl.
  { split_and!; [lia|done|lia]. }
  destruct (is_char_boundary s (S e)) eqn:Hb.
  - split_and!; [lia|done|lia].
  - split_and!; [lia|done|]. intros i Hi. destruct (decide (i = S e)) as [->|]; [done|].
    apply IH3. lia.
Qed.

Lemma length_chars s : length (chars s) = String.length s.
Proof. induction s as [|c s IH]; simpl; congruence. Qed.

Lemma chars_inj s1 s2 : chars s1 = chars s2 -> s1 = s2.
Proof.
  intros H. by rewrite <- (String.string_of_list_ascii_of_string s1), H,
    String.string_of_list_ascii_of_string.
Qed.

(** A message is cut to at most [MAX_MESSAGE_LEN] bytes without ever
    splitting a UTF-8 sequence: what is kept is a prefix that ends at the last
    character boundary within the bound, and a message within the bound is
    kept whole. *)
Theorem bound_message_spec (s : string) :
  exists e, chars (bound_message s) = take e (chars s) /\
    String.length (bound_message s) <= MAX_MESSAGE_LEN /\
    (String.length s <= MAX_MESSAGE_LEN -> bound_message s = s) /\
    (MAX_MESSAGE_LEN < String.length s ->
       e <= MAX_MESSAGE_LEN /\ is_char_boundary s e = true /\
       forall i, e < i <= MAX_MESSAGE_LEN -> is_char_boundary s i = false).
Proof.
  unfold bound_message, truncate_at. case_bool_decide as Hlen.
  - destruct (floor_boundary_spec s MAX_MESSAGE_LEN) as (H1 & H2 & H3).
    exists (floor_boundary s MAX_MESSAGE_LEN). rewrite String.list_ascii_of_string_of_list_ascii.
    split_and!; [done| |lia|done].
    rewrite <- length_chars, String.list_ascii_of_string_of_list_ascii, length_take. lia.
  - exists (length (chars s)). split_and!; [by rewrite firstn_all|lia|done|lia].
Qed.

(** ** The dedup fingerprint *)

(** The length prefix makes a field self-delimiting. *)
Lemma push_field_inj label v1 v2 rest1 rest2 :
  u64_fits (N.of_nat (length v1)) -> u64_fits (N.of_nat (length v2)) ->
  push_field label v1 ++ rest1 = push_field label v2 ++ rest2 -> v1 = v2 /\ rest1 = rest2.
Proof.
  intros Hf1 Hf2. unfold push_field, u64_fits, u64_max in *.
  rewrite <- !app_assoc. intros H. apply app_inv_head, (app_inv_head ["="%char]) in H.
  apply app_inj_1 in H as [Hlen H]; [|by rewrite !le_bytes_length].
  apply le_bytes_inj in Hlen; [|simpl; lia..]. apply app_inj_1 in H as [-> H]; [|lia].
  by apply (app_inv_head ["010"%char]) in H.
Qed.

Definition dot_free (s : string) : Prop := "."%char ∉ chars s.

Lemma chars_app s1 s2 : chars (s1 +:+ s2) = chars s1 ++ chars s2.
Proof. induction s1 as [|c s1 IH]; simpl; [done|]. by rewrite <- IH. Qed.

Lemma target_form_cons l p :
  p <> [] -> chars (target_form (l :: p)) = chars l ++ "."%char :: chars (target_form p).
Proof. destruct p as [|k p]; [done|]. intros _. unfold target_form. simpl. by rewrite chars_app. Qed.

(** The first separator splits a list one way. *)
Lemma sep_inj (sep : Ascii.ascii) (u v r t : list Ascii.ascii) :
  sep ∉ u -> sep ∉ v -> u ++ sep :: r = v ++ sep :: t -> u = v /\ r = t.
Proof.
  revert v. induction u as [|x u IH]; intros [|y v] Hu Hv; simpl.
  - by intros [= ->].
  - intros [= -> _]. set_solver.
  - intros [= -> _]. set_solver.
  - intros [= -> H]. destruct (IH v) as [-> ->]; [set_solver..|done|done].
Qed.

Lemma target_form_inj p q :
  p <> [] -> q <> [] -> Forall dot_free p -> Forall dot_free q ->
  target_form p = target_form q -> p = q.
Proof.
  intros Hp Hq Hfp. revert q Hq. induction Hfp as [|l p Hl Hfp IH]; [done|].
  intros q Hq Hfq H. destruct Hfq as [|k q Hk Hfq]; [done|].
  assert (Hc : chars (target_form (l :: p)) = chars (target_form (k :: q))) by by rewrite H.
  destruct (decide (p = [])) as [->|Hpn], (decide (q = [])) as [->|Hqn].
  - change (l = k) in H. by subst.
  - rewrite (target_form_cons k q) in Hc by done. change (target_form [l]) with l in Hc.
    unfold dot_free in Hl. rewrite Hc in Hl. set_solver.
  - rewrite (target_form_cons l p) in Hc by done. change (target_form [k]) with k in Hc.
    unfold dot_free in Hk. rewrite <- Hc in Hk. set_solver.
  - rewrite !target_form_cons in Hc by done. apply sep_inj in Hc as [Hlk Hr]; [|done..].
    apply chars_inj in Hlk as ->. apply chars_inj in Hr. f_equal. by apply IH.
Qed.

Lemma is_label_dot_free s : is_label s = true -> dot_free s.
Proof.
  unfold is_label, dot_free. destruct (chars s) as [|c cs]; [done|].
  rewrite andb_true_iff, forallb_elem. intros [Hc Hcs] [<-|Hin]%elem_of_cons; [done|].
  by apply Hcs in Hin.
Qed.

(** What decoding establishes of a request's fields. *)
Record request_wf (r : OperationRequest) : Prop := {
  rw_realm : RealmPath_new (req_realm r) = Some (req_realm r);
  rw_labels : Forall valid_label (req_realm r);
  rw_node : valid_label (req_node r);
  rw_workload : forall w, req_workload r = Some w -> valid_label w;
  rw_principal : valid_opaque (req_principal r);
  rw_body : OpaquePayload_new (req_body r) = Some (req_body r)
}.

Lemma length_target_form p : String.length (target_form p) = path_bytes p.
Proof.
  unfold path_bytes. induction p as [|l p IH]; [done|].
  destruct (decide (p = [])) as [->|Hne]; [change (target_form [l]) with l; simpl; lia|].
  rewrite <- length_chars, target_form_cons, length_app by done. simpl.
  rewrite !length_chars, IH. destruct p; [done|]. simpl. lia.
Qed.

Lemma valid_label_fits s : valid_label s -> u64_fits (N.of_nat (length (chars s))).
Proof.
  intros (_ & _ & Hlen & _)%parse_id_ok. rewrite length_chars.
  unfold u64_fits, u64_max, MAX_ID_LEN in *. lia.
Qed.

Lemma valid_opaque_fits s : valid_opaque s -> u64_fits (N.of_nat (length (chars s))).
Proof.
  intros (_ & _ & Hlen & _)%parse_id_ok. rewrite length_chars.
  unfold u64_fits, u64_max, MAX_ID_LEN in *. lia.
Qed.

Lemma debug_fits k : u64_fits (N.of_nat (length (chars (OperationKind_debug k)))).
Proof. unfold u64_fits. destruct k; vm_compute; discriminate. Qed.

Lemma debug_inj k1 k2 : OperationKind_debug k1 = OperationKind_debug k2 -> k1 = k2.
Proof. by destruct k1, k2. Qed.

Lemma request_realm_fits r :
  request_wf r -> u64_fits (N.of_nat (length (chars (target_form (req_realm r))))).
Proof.
  intros Hwf. rewrite length_chars, length_target_form.
  apply rw_realm, RealmPath_new_some in Hwf as (_ & _ & _ & Hb).
  unfold u64_fits, u64_max, MAX_REALM_PATH_BYTES in *. lia.
Qed.

Lemma request_workload_fits r :
  request_wf r -> u64_fits (N.of_nat (length (chars (default ""%string (req_workload r))))).
Proof.
  intros Hwf. pose proof (rw_workload r Hwf) as Hw.
  destruct (req_workload r) as [w|]; [by apply valid_label_fits, Hw|]. by vm_compute.
Qed.

Lemma request_body_fits r : request_wf r -> u64_fits (N.of_nat (length (req_body r))).
Proof.
  intros Hwf. pose proof (rw_body r Hwf) as Hb. unfold OpaquePayload_new in Hb.
  case_bool_decide; [done|]. change MAX_PAYLOAD_LEN with 1048576%N in *.
  unfold u64_fits, u64_max. lia.
Qed.

(** The dedup fingerprint input identifies a request: two decoded requests
    have the same input exactly when they agree on kind, realm, node,
    workload, principal and body. *)
Theorem dedup_fingerprint_injective (r1 r2 : OperationRequest) :
  request_wf r1 -> request_wf r2 ->
  (dedup_fingerprint_input r1 = dedup_fingerprint_input r2 <->
   req_kind r1 = req_kind r2 /\ req_realm r1 = req_realm r2 /\ req_node r1 = req_node r2 /\
   req_workload r1 = req_workload r2 /\ req_principal r1 = req_principal r2 /\
   req_body r1 = req_body r2).
Proof.
  intros H1 H2. split; cycle 1.
  { intros (Hk & Hr & Hn & Hw & Hp & Hb). unfold dedup_fingerprint_input. congruence. }
  unfold dedup_fingerprint_input. intros H.
  apply push_field_inj in H as [Hk H]; [|apply debug_fits..].
  apply push_field_inj in H as [Hr H]; [|by apply request_realm_fits..].
  apply push_field_inj in H as [Hn H]; [|apply valid_label_fits, rw_node; done..].
  apply push_field_inj in H as [Hw H]; [|by apply request_workload_fits..].
  apply push_field_inj in H as [Hp H]; [|apply valid_opaque_fits, rw_principal; done..].
  rewrite <- (app_nil_r (push_field "body" (req_body r1))),
    <- (app_nil_r (push_field "body" (req_body r2))) in H.
  apply push_field_inj in H as [Hb _]; [|by apply request_body_fits..].
  apply chars_inj in Hr, Hn, Hw, Hp. apply chars_inj, debug_inj in Hk.
  split_and!; try done.
  - pose proof (proj1 (RealmPath_new_some _ _) (rw_realm _ H1)) as (_ & Hne1 & _).
    pose proof (proj1 (RealmPath_new_some _ _) (rw_realm _ H2)) as (_ & Hne2 & _).
    apply target_form_inj; try done;
      (eapply Forall_impl; [by apply rw_labels|]);
      intros l (_ & _ & _ & Hl)%parse_id_ok; by apply is_label_dot_free.
  - pose proof (rw_workload _ H1) as Hv1. pose proof (rw_workload _ H2) as Hv2.
    destruct (req_workload r1) as [w1|], (req_workload r2) as [w2|]; simpl in Hw; subst; try done.
    + discriminate (Hv1 _ eq_refl).
    + discriminate (Hv2 _ eq_refl).
Qed.

Definition demo_request (body : bytes) : OperationRequest :=
  mkOperationRequest "op-1" "corr-1" (Some "key-1"%string) ["work"%string; "home"%string] "gw"
    (Some "vm-1"%string) "alice" OperationKind_WorkloadStart None body.

Lemma demo_request_wf c : request_wf (demo_request [c]).
Proof.
  split; try (vm_compute; reflexivity).
  - repeat constructor.
  - intros w [= <-]. vm_compute; reflexivity.
Qed.

Lemma dedup_fingerprint_injective_witness :
  dedup_fingerprint_input (demo_request ["a"%char]) <>
  dedup_fingerprint_input (demo_request ["b"%char]).
Proof.
  intros H.
  apply (dedup_fingerprint_injective (demo_request ["a"%char]) (demo_request ["b"%char])
           (demo_request_wf _) (demo_request_wf _)) in H.
  destruct H as (_ & _ & _ & _ & _ & Hb). discriminate Hb.
Defined.

(** ** Decimal numbers *)

Lemma pretty_char_digit x : (x < 10)%N -> is_ascii_digit (pretty_N_char x) = true.
Proof.
  intros Hx. assert (exists n, n < 10 /\ x = N.of_nat n) as (n & Hn & ->)
    by (exists (N.to_nat x); lia).
  do 10 (destruct n as [|n]; [done|]). lia.
Qed.

Lemma pretty_go_digits k x s :
  (x < 10 ^ N.of_nat k)%N -> forallb is_ascii_digit (chars s) = true ->
  forallb is_ascii_digit (chars (pretty_N_go x s)) = true /\
  String.length (pretty_N_go x s) <= k + String.length s.
Proof.
  revert x s. induction k as [|k IH]; intros x s Hx Hs.
  { assert (x = 0%N) as -> by (change (10 ^ N.of_nat 0)%N with 1%N in Hx; lia).
    by rewrite pretty_N_go_0. }
  destruct (decide (x = 0%N)) as [->|Hne].
  { rewrite pretty_N_go_0. split; [done|lia]. }
  rewrite pretty_N_go_step by lia. rewrite Nat2N.inj_succ, N.pow_succ_r' in Hx.
  destruct (IH (x / 10)%N (String (pretty_N_char (x mod 10)) s)) as [H1 H2].
  - apply N.Div0.div_lt_upper_bound. lia.
  - simpl. rewrite Hs, pretty_char_digit; [done|]. apply N.mod_lt. lia.
  - split; [done|]. simpl in H2. lia.
Qed.

Lemma pretty_u64 n :
  u64_fits n -> forallb is_ascii_digit (chars (pretty n)) = true /\ String.length (pretty n) <= 20.
Proof.
  intros Hn. unfold pretty, pretty_N. case_decide; [split; [done|simpl; lia]|].
  apply (pretty_go_digits 20 n ""); [|done]. unfold u64_fits, u64_max in Hn.
  change (10 ^ N.of_nat 20)%N with 100000000000000000000%N. lia.
Qed.
