(* ===== verification/Text.v ===== *)
(** * Text

    The functions of [str] that several components use, on bytes.  White space
    is that of ASCII: the texts split at white space here (claim files, unit
    names, properties of units) hold no other. *)

From S2P Require Import Prelude Ids Frame.

(** [str::trim], on ASCII. *)
Definition is_whitespace (c : Ascii.ascii) : bool :=
  char_eqb c " "%char || char_in "009"%char "013"%char c.

Fixpoint trim_start_chars (l : list Ascii.ascii) : list Ascii.ascii :=
  match l with
  | c :: r => if is_whitespace c then trim_start_chars r else l
  | [] => []
  end.

Definition trim (s : string) : string :=
  String.string_of_list_ascii
    (reverse (trim_start_chars (reverse (trim_start_chars (chars s))))).

(** [split_once] *)
Fixpoint split_once_chars (sep : list Ascii.ascii) (l : list Ascii.ascii) :
    option (list Ascii.ascii * list Ascii.ascii) :=
  if starts_with sep l then Some ([], drop (length sep) l)
  else match l with
       | [] => None
       | c :: l =>
           match split_once_chars sep l with
           | Some (before, after) => Some (c :: before, after)
           | None => None
           end
       end.

Definition split_once (sep s : string) : option (string * string) :=
  match split_once_chars (chars sep) (chars s) with
  | Some (a, b) => Some (String.string_of_list_ascii a, String.string_of_list_ascii b)
  | None => None
  end.

(** [from_str_radix]: an optional plus sign and at least one digit. *)
Definition hex_value (c : Ascii.ascii) : option N :=
  let n := Ascii.N_of_ascii c in
  if is_ascii_digit c then Some (n - 48)%N
  else if char_in "a"%char "f"%char c then Some (n - 87)%N
  else if char_in "A"%char "F"%char c then Some (n - 55)%N
  else None.

Definition digit_value (radix : N) (c : Ascii.ascii) : option N :=
  match hex_value c with
  | Some d => if (d <? radix)%N then Some d else None
  | None => None
  end.

Fixpoint digits_value (radix acc : N) (l : list Ascii.ascii) : option N :=
  match l with
  | [] => Some acc
  | c :: l =>
      match digit_value radix c with
      | Some d => digits_value radix (acc * radix + d) l
      | None => None
      end
  end.

Definition parse_radix (radix max : N) (s : string) : option N :=
  let digits := match chars s with "+"%char :: r => r | r => r end in
  if bool_decide (digits = []) then None
  else match digits_value radix 0 digits with
       | Some n => if (max <? n)%N then None else Some n
       | None => None
       end.

Definition parse_u8 : string -> option N := parse_radix 10 255.
Definition parse_u16 : string -> option N := parse_radix 10 65535.


(** ** More of [str], on the bytes *)

Definition of_chars : list Ascii.ascii -> string := String.string_of_list_ascii.

Definition trim_chars (l : list Ascii.ascii) : list Ascii.ascii :=
  reverse (trim_start_chars (reverse (trim_start_chars l))).

Fixpoint strip_prefix_chars (prefix l : list Ascii.ascii) : option (list Ascii.ascii) :=
  match prefix, l with
  | [], _ => Some l
  | a :: prefix, b :: l => if char_eqb a b then strip_prefix_chars prefix l else None
  | _ :: _, [] => None
  end.

Definition strip_suffix_chars (suffix l : list Ascii.ascii) : option (list Ascii.ascii) :=
  reverse <$> strip_prefix_chars (reverse suffix) (reverse l).

(** [split] at a non-empty pattern; [skip] counts what is left of a match. *)
Fixpoint split_on (sep : list Ascii.ascii) (skip : nat) (piece l : list Ascii.ascii) :
    list (list Ascii.ascii) :=
  match l with
  | [] => [piece]
  | c :: r =>
      match skip with
      | S skip => split_on sep skip piece r
      | O =>
          if starts_with sep l then piece :: split_on sep (length sep - 1) [] r
          else split_on sep 0 (piece ++ [c]) r
      end
  end.

Definition split (sep l : list Ascii.ascii) : list (list Ascii.ascii) := split_on sep 0 [] l.

(** [rsplit_once] at a non-empty pattern *)
Fixpoint rsplit_once_chars (sep l : list Ascii.ascii) :
    option (list Ascii.ascii * list Ascii.ascii) :=
  match l with
  | [] => None
  | c :: r =>
      match rsplit_once_chars sep r with
      | Some (before, after) => Some (c :: before, after)
      | None => if starts_with sep l then Some ([], drop (length sep) l) else None
      end
  end.

(** [split_whitespace] *)
Fixpoint words_from (word l : list Ascii.ascii) : list (list Ascii.ascii) :=
  match l with
  | [] => if bool_decide (word = []) then [] else [word]
  | c :: l =>
      if is_whitespace c
      then (if bool_decide (word = []) then [] else [word]) ++ words_from [] l
      else words_from (word ++ [c]) l
  end.

Definition words : list Ascii.ascii -> list (list Ascii.ascii) := words_from [].

Definition line_feed : Ascii.ascii := "010"%char.
Definition carriage_return : Ascii.ascii := "013"%char.

(** [lines]: the line feed, and a carriage return before it, are not part
    of a line. *)
Fixpoint lines_from (line l : list Ascii.ascii) : list (list Ascii.ascii) :=
  match l with
  | [] => if bool_decide (line = []) then [] else [line]
  | c :: l =>
      if char_eqb c line_feed
      then default line (strip_suffix_chars [carriage_return] line) :: lines_from [] l
      else lines_from (line ++ [c]) l
  end.

Definition lines : list Ascii.ascii -> list (list Ascii.ascii) := lines_from [].

(** [join] *)
Fixpoint join (sep : list Ascii.ascii) (pieces : list (list Ascii.ascii)) : list Ascii.ascii :=
  match pieces with
  | [] => []
  | [p] => p
  | p :: pieces => p ++ sep ++ join sep pieces
  end.

(** ** Trimming *)

Lemma trim_start_id l :
  match l with c :: _ => is_whitespace c = false | [] => True end -> trim_start_chars l = l.
Proof. destruct l as [|c l]; simpl; [done|]. by intros ->. Qed.

Lemma no_whitespace_head l :
  forallb (fun c => negb (is_whitespace c)) l = true ->
  match l with c :: _ => is_whitespace c = false | [] => True end.
Proof. destruct l as [|c l]; simpl; [done|]. by destruct (is_whitespace c). Qed.

Lemma no_whitespace_reverse l :
  forallb (fun c => negb (is_whitespace c)) l = true ->
  forallb (fun c => negb (is_whitespace c)) (reverse l) = true.
Proof. rewrite !forallb_elem. intros Hl c Hc. apply Hl. by apply elem_of_reverse. Qed.

Lemma trim_trim s : trim (trim s) = trim s.
Proof.
  assert (Hs : forall l, match trim_start_chars l with c :: _ => is_whitespace c = false | [] => True end).
  { induction l as [|c l IH]; simpl; [done|]. destruct (is_whitespace c) eqn:E; [done|]. by rewrite E. }
  assert (Hsuf : forall l, exists p, l = p ++ trim_start_chars l).
  { induction l as [|c l [p IH]]; [by exists []|]. simpl.
    destruct (is_whitespace c); [exists (c :: p); by rewrite IH at 1|by exists []]. }
  unfold trim. f_equal. rewrite String.list_ascii_of_string_of_list_ascii.
  set (a := trim_start_chars (chars s)). destruct (Hsuf (reverse a)) as [p Hp].
  set (b := trim_start_chars (reverse a)) in *.
  assert (Ha : a = reverse b ++ reverse p)
    by (rewrite <- reverse_app, <- Hp; by rewrite reverse_involutive).
  rewrite (trim_start_id (reverse b)).
  - rewrite reverse_involutive. f_equal. apply trim_start_id. apply Hs.
  - pose proof (Hs (chars s)) as Ht. fold a in Ht. rewrite Ha in Ht.
    by destruct (reverse b) as [|c r].
Qed.

(** ** Prefixes and suffixes *)

Lemma char_eqb_refl c : char_eqb c c = true.
Proof. apply Ascii.eqb_refl. Qed.

Lemma char_eqb_true a b : char_eqb a b = true -> a = b.
Proof. apply Ascii.eqb_eq. Qed.

Lemma starts_with_app p b : starts_with p (p ++ b) = true.
Proof. induction p as [|c p IH]; [done|]. simpl. by rewrite char_eqb_refl. Qed.

Lemma starts_with_true p l : starts_with p l = true -> exists r, l = p ++ r.
Proof.
  revert l. induction p as [|c p IH]; intros l; simpl; [by exists l|].
  destruct l as [|b l]; [done|]. intros [->%char_eqb_true [r ->]%IH]%andb_true_iff. by exists r.
Qed.

Lemma strip_prefix_chars_app p l : strip_prefix_chars p (p ++ l) = Some l.
Proof. induction p as [|c p IH]; [done|]. simpl. by rewrite char_eqb_refl. Qed.

Lemma strip_suffix_chars_app l s : strip_suffix_chars s (l ++ s) = Some l.
Proof.
  unfold strip_suffix_chars. rewrite reverse_app, strip_prefix_chars_app. simpl.
  by rewrite reverse_involutive.
Qed.

(** ** Splitting *)

(** The first match is at the end of [a] if a character of the pattern is
    neither in [a] nor earlier in the pattern. *)
Lemma split_once_chars_app pre c post a b :
  c ∉ a -> c ∉ pre ->
  split_once_chars (pre ++ c :: post) (a ++ (pre ++ c :: post) ++ b) = Some (a, b).
Proof.
  intros Ha Hpre. set (sep := pre ++ c :: post).
  induction a as [|x a IH]; cbn [app].
  - assert (Hs : starts_with sep (sep ++ b) = true) by apply starts_with_app.
    destruct (sep ++ b) as [|y l] eqn:Hl; simpl; rewrite Hs, <- Hl; by rewrite drop_app_length.
  - assert (Hs : starts_with sep (x :: a ++ sep ++ b) = false).
    { apply not_true_is_false. intros [r Hr]%starts_with_true.
      assert (Hc : (x :: a ++ sep ++ b) !! length pre = Some c).
      { rewrite Hr. unfold sep. rewrite <- app_assoc. by apply (list_lookup_middle pre). }
      unfold sep in Hc. rewrite <- app_assoc, app_comm_cons, app_assoc in Hc.
      rewrite lookup_app_l in Hc by (rewrite length_app; simpl; lia).
      apply list_elem_of_lookup_2, elem_of_app in Hc. set_solver. }
    cbn [split_once_chars]. rewrite Hs, IH by set_solver. done.
Qed.

(** The last match is [sep] if none follows its first character. *)
Lemma rsplit_once_chars_app sep a b :
  sep <> [] -> rsplit_once_chars sep (drop 1 (sep ++ b)) = None ->
  rsplit_once_chars sep (a ++ sep ++ b) = Some (a, b).
Proof.
  intros Hne Hn. induction a as [|x a IH]; cbn [app].
  - pose proof (starts_with_app sep b) as Hs. pose proof (drop_app_length sep b) as Hd.
    destruct sep as [|c sep]; [done|]. cbn [app drop] in *. rewrite drop_0 in Hn. cbn [rsplit_once_chars].
    by rewrite Hn, Hs, Hd.
  - cbn [rsplit_once_chars]. by rewrite IH.
Qed.

Lemma split_on_char c piece a r :
  c ∉ a -> split_on [c] 0 piece (a ++ c :: r) = (piece ++ a) :: split [c] r.
Proof.
  revert piece. induction a as [|x a IH]; intros piece Ha; cbn [app split_on starts_with].
  - by rewrite char_eqb_refl, app_nil_r.
  - destruct (char_eqb c x) eqn:E; [apply char_eqb_true in E; set_solver|]. simpl.
    rewrite IH by set_solver. by rewrite <- app_assoc.
Qed.

Lemma split_char c a r : c ∉ a -> split [c] (a ++ c :: r) = a :: split [c] r.
Proof. apply (split_on_char c []). Qed.

Lemma split_on_none sep piece l :
  contains sep l = false -> split_on sep 0 piece l = [piece ++ l].
Proof.
  revert piece. induction l as [|c l IH]; intros piece; [by rewrite app_nil_r|].
  cbn [contains split_on]. intros [-> H]%orb_false_iff. rewrite IH by done. by rewrite <- app_assoc.
Qed.

(** ** White space *)

Definition unspaced (l : list Ascii.ascii) : Prop :=
  l <> [] /\ Forall (fun c => is_whitespace c = false) l.

Lemma words_from_app word l rest :
  Forall (fun c => is_whitespace c = false) l ->
  words_from word (l ++ rest) = words_from (word ++ l) rest.
Proof.
  revert word. induction l as [|c l IH]; intros word; [by rewrite app_nil_r|].
  intros [Hc Hl]%Forall_cons. cbn [app words_from]. rewrite Hc, IH by done. by rewrite <- app_assoc.
Qed.

Lemma words_join l : Forall unspaced l -> words (join [" "%char] l) = l.
Proof.
  unfold words. induction l as [|w l IH]; [done|]. intros [[Hne Hw] Hl]%Forall_cons.
  destruct l as [|w' l].
  - cbn [join]. rewrite <- (app_nil_r w) at 1. rewrite words_from_app by done. simpl.
    by rewrite bool_decide_eq_false_2.
  - change (join [" "%char] (w :: w' :: l)) with (w ++ " "%char :: join [" "%char] (w' :: l)).
    rewrite words_from_app by done. cbn [app words_from].
    change (is_whitespace " ") with true. cbv iota. rewrite bool_decide_eq_false_2 by done.
    by rewrite IH.
Qed.

(** Words followed by anything else. *)
Lemma words_cons w rest :
  unspaced w -> words (w ++ " "%char :: rest) = w :: words rest.
Proof.
  intros [Hne Hw]. unfold words. rewrite words_from_app by done. cbn [app words_from].
  change (is_whitespace " ") with true. cbv iota. by rewrite bool_decide_eq_false_2.
Qed.

(** Text that neither starts nor ends with white space. *)
Definition trimmed (l : list Ascii.ascii) : Prop :=
  (forall c, head l = Some c -> is_whitespace c = false)
  /\ (forall c, last l = Some c -> is_whitespace c = false).

Lemma trim_chars_id l : trimmed l -> trim_chars l = l.
Proof.
  intros [Hh Hl]. unfold trim_chars. rewrite (trim_start_id l).
  - rewrite trim_start_id; [by rewrite reverse_involutive|].
    destruct (reverse l) as [|c r] eqn:E; [done|]. apply Hl.
    rewrite <- (reverse_involutive l), E, reverse_cons. by rewrite last_snoc.
  - destruct l as [|c l]; [done|]. by apply Hh.
Qed.

(** White space around a trimmed text. *)
Lemma trim_chars_spaces l :
  trimmed l -> trim_chars (" "%char :: l ++ [" "%char]) = l.
Proof.
  intros [Hh Hl]. unfold trim_chars. simpl. destruct l as [|c l].
  - done.
  - rewrite (trim_start_id ((c :: l) ++ _)) by (by apply Hh).
    rewrite reverse_app. change (trim_start_chars (reverse [" "%char] ++ reverse (c :: l)))
      with (trim_start_chars (reverse (c :: l))).
    rewrite trim_start_id; [by rewrite reverse_involutive|].
    destruct (reverse (c :: l)) as [|x r] eqn:E; [done|]. apply Hl.
    rewrite <- (reverse_involutive (c :: l)), E, reverse_cons. by rewrite last_snoc.
Qed.

(** ** Lines *)

Lemma lines_from_app line l rest :
  line_feed ∉ l -> lines_from line (l ++ rest) = lines_from (line ++ l) rest.
Proof.
  revert line. induction l as [|c l IH]; intros line Hl; [by rewrite app_nil_r|].
  cbn [app lines_from]. destruct (char_eqb c line_feed) eqn:E;
    [apply char_eqb_true in E; set_solver|].
  rewrite IH by set_solver. by rewrite <- app_assoc.
Qed.

(** A line as [lines] returns it. *)
Definition is_line (l : list Ascii.ascii) : Prop :=
  (line_feed ∉ l) /\ last l <> Some carriage_return.

Lemma strip_cr l : last l <> Some carriage_return -> strip_suffix_chars [carriage_return] l = None.
Proof.
  intros Hl. unfold strip_suffix_chars. destruct (reverse l) as [|c r] eqn:E; [done|].
  cbn [reverse rev_append strip_prefix_chars]. destruct (char_eqb carriage_return c) eqn:Ec; [|done].
  apply char_eqb_true in Ec. subst c. destruct Hl.
  rewrite <- (reverse_involutive l), E, reverse_cons. by rewrite last_snoc.
Qed.

Lemma lines_cons l rest : is_line l -> lines (l ++ line_feed :: rest) = l :: lines rest.
Proof.
  intros [Hf Hr]. unfold lines. rewrite lines_from_app by done. cbn [app lines_from].
  change (char_eqb line_feed line_feed) with true. cbv iota. by rewrite strip_cr.
Qed.

Lemma lines_last l : line_feed ∉ l -> l <> [] -> lines l = [l].
Proof.
  intros Hf Hne. unfold lines. rewrite <- (app_nil_r l) at 1. rewrite lines_from_app by done.
  simpl. by rewrite bool_decide_eq_false_2.
Qed.

Lemma contains_none sep l :
  sep <> [] -> contains sep l = false -> rsplit_once_chars sep l = None.
Proof.
  intros Hne. induction l as [|c l IH]; [done|]. cbn [contains rsplit_once_chars].
  intros [-> H]%orb_false_iff. by rewrite IH.
Qed.
