(* ===== verification/Mux.v ===== *)
(** * The stream multiplexer

    [packages/d2b-realm-core/src/mux.rs].  [Module StreamMux] holds the state
    machine one peer-session endpoint runs: its state record, one handler per
    method, the invariant [wf] with its preservation, and the behaviour of
    every operation on every branch.  [Module Link] composes a sending and a
    receiving endpoint over two ordered channels and shows that the credit
    protocol is sound: an honest sender is never refused. *)

From S2P Require Import Prelude Ids Streams Frame.

Local Open Scope rust_scope.

Module StreamMux.

Definition DEFAULT_MAX_OPEN_STREAMS : nat := 256.
Definition DEFAULT_MAX_CLOSED_STREAMS : nat := 1024.

Inductive StreamState := StreamState_Open | StreamState_Closed.

#[global] Instance StreamState_eq_dec : EqDecision StreamState.
Proof. solve_decision. Defined.

Record StreamEntry := mkStreamEntry {
  kind : StreamKind;
  operation_id : string;
  state : StreamState;
  close_reason : option StreamCloseReason;
  expected_seq : N;
  recv_credit : N;
  next_send_seq : N;
  send_credit : N
}.

Record StreamMux := mkStreamMux {
  streams : gmap string StreamEntry;
  open_streams : gset string;
  sendable_streams : gset string;
  closed_order : list string;
  max_open : nat;
  max_closed : nat
}.

(** [*entry = e] through the [&mut] that [open_entry_mut] returned. *)
Definition put_entry (stream : string) (e : StreamEntry) (self : StreamMux) : StreamMux :=
  mkStreamMux (<[stream := e]> (streams self)) (open_streams self) (sendable_streams self)
    (closed_order self) (max_open self) (max_closed self).

Definition set_open (s : gset string) (self : StreamMux) : StreamMux :=
  mkStreamMux (streams self) s (sendable_streams self)
    (closed_order self) (max_open self) (max_closed self).

Definition set_sendable (s : gset string) (self : StreamMux) : StreamMux :=
  mkStreamMux (streams self) (open_streams self) s
    (closed_order self) (max_open self) (max_closed self).

Definition with_limits (max_open max_closed : nat) : StreamMux :=
  mkStreamMux ∅ ∅ ∅ [] (max max_open 1) (max max_closed 1).

Definition with_max_open (max_open : nat) : StreamMux :=
  with_limits max_open DEFAULT_MAX_CLOSED_STREAMS.

Definition new : StreamMux := with_max_open DEFAULT_MAX_OPEN_STREAMS.

Definition open_stream_count (self : StreamMux) : nat := size (open_streams self).

Definition is_open (self : StreamMux) (stream : string) : bool :=
  bool_decide (stream ∈ open_streams self).

Definition close_reason_at (self : StreamMux) (stream : string) : option StreamCloseReason :=
  e ← streams self !! stream; close_reason e.

Definition channel_valid_for_kind (kind : StreamKind) (channel : StreamChannel) : bool :=
  match kind with
  | StreamKind_Stdio =>
      match channel with
      | StreamChannel_Stdout | StreamChannel_Stderr => true
      | StreamChannel_Primary => false
      end
  | _ => bool_decide (channel = StreamChannel_Primary)
  end.

Abbreviation mux_handler := (handler StreamMux ConstellationError) (only parsing).

Definition open_entry (stream : string) : mux_handler StreamEntry :=
  let? self := h_get in
  match streams self !! stream with
  | Some e =>
      if bool_decide (state e = StreamState_Open) then h_ret e
      else h_throw (ConstellationError_new ErrorKind_Cancelled "stream is closed")
  | None =>
      h_throw (ConstellationError_new ErrorKind_MalformedFrame "reference to an unknown stream")
  end.

(** The same lookup through [get_mut]; the write is a later [put_entry]. *)
Definition open_entry_mut (stream : string) : mux_handler StreamEntry := open_entry stream.

Definition open_with_capabilities (open : StreamOpen) (capabilities : CapabilitySet) :
    mux_handler unit :=
  h_reject (negb (StreamOpen_is_consistent open))
    (ConstellationError_new ErrorKind_Unauthorized
       "stream open authz capability does not match the descriptor kind") ?;
  h_reject (negb (CapabilitySet_has capabilities (authz_capability (open_authz open))))
    (capability_denied (authz_capability (open_authz open))) ?;
  let? self := h_get in
  let id := descriptor_id (open_descriptor open) in
  h_reject (bool_decide (is_Some (streams self !! id)))
    (ConstellationError_new ErrorKind_MalformedFrame "stream id is already open") ?;
  h_reject (bool_decide (max_open self <= open_stream_count self))
    (ConstellationError_new ErrorKind_Backpressure
       "peer session exceeds the open-stream cap") ?;
  h_modify (put_entry id
    (mkStreamEntry (descriptor_kind (open_descriptor open)) (open_operation_id open)
       StreamState_Open None 0 0 0 0)) ?;
  h_modify (set_open ({[id]} ∪ open_streams self)).

Definition grant_inbound (stream : string) (credits : N) : mux_handler StreamFlow :=
  h_reject (bool_decide (credits = 0%N))
    (ConstellationError_new ErrorKind_MalformedFrame "credit grant must be non-zero") ?;
  let? e := open_entry_mut stream in
  h_modify (put_entry stream
    (mkStreamEntry (kind e) (operation_id e) (state e) (close_reason e) (expected_seq e)
       (u64_saturating_add (recv_credit e) credits) (next_send_seq e) (send_credit e))) ?;
  h_ret (mkStreamFlow stream credits).

Definition accept_data (data : StreamData) : mux_handler unit :=
  let? e := open_entry (data_stream data) in
  let kind_ := kind e in
  h_reject (negb (channel_valid_for_kind kind_ (data_channel data)))
    (ConstellationError_new ErrorKind_MalformedFrame
       "stream channel is not valid for the stream kind") ?;
  h_reject (bool_decide (is_Some (data_cursor data)) && negb (bool_decide (kind_ = StreamKind_Logs)))
    (ConstellationError_new ErrorKind_MalformedFrame
       "only a logs stream may carry a resume cursor") ?;
  let? e := open_entry_mut (data_stream data) in
  h_reject (negb (bool_decide (data_sequence data = expected_seq e)))
    (ConstellationError_new ErrorKind_MalformedFrame
       "stream data sequence is not the next expected value") ?;
  h_reject (bool_decide (recv_credit e = 0%N))
    (ConstellationError_new ErrorKind_Backpressure "stream data exceeds granted credit") ?;
  h_modify (put_entry (data_stream data)
    (mkStreamEntry (kind e) (operation_id e) (state e) (close_reason e)
       (u64_wrap (expected_seq e + 1)) (recv_credit e - 1)
       (next_send_seq e) (send_credit e))).

Definition receive_flow (flow : StreamFlow) : mux_handler unit :=
  h_reject (bool_decide (flow_credits flow = 0%N))
    (ConstellationError_new ErrorKind_MalformedFrame "credit grant must be non-zero") ?;
  let? e := open_entry_mut (flow_stream flow) in
  let was_unsendable := bool_decide (send_credit e = 0%N) in
  h_modify (put_entry (flow_stream flow)
    (mkStreamEntry (kind e) (operation_id e) (state e) (close_reason e) (expected_seq e)
       (recv_credit e) (next_send_seq e)
       (u64_saturating_add (send_credit e) (flow_credits flow)))) ?;
  if was_unsendable
  then h_modify (fun self => set_sendable ({[flow_stream flow]} ∪ sendable_streams self) self)
  else h_ret tt.

Definition sendable_streams_list (self : StreamMux) : list string :=
  btree_iter (sendable_streams self).

(** [range((Excluded(after), Unbounded)).next()], wrapping to the first. *)
Definition next_sendable_after (self : StreamMux) (after : option string) : option string :=
  match after with
  | None => head (sendable_streams_list self)
  | Some after =>
      match head (List.filter (fun s => bool_decide (ord_lt after s)) (sendable_streams_list self)) with
      | Some s => Some s
      | None => head (sendable_streams_list self)
      end
  end.

Definition reserve_send (stream : string) (channel : StreamChannel) : mux_handler N :=
  let? e := open_entry stream in
  h_reject (negb (channel_valid_for_kind (kind e) channel))
    (ConstellationError_new ErrorKind_MalformedFrame
       "stream channel is not valid for the stream kind") ?;
  let? e := open_entry_mut stream in
  h_reject (bool_decide (send_credit e = 0%N))
    (ConstellationError_new ErrorKind_Backpressure
       "no outbound credit remains on the stream") ?;
  let left := (send_credit e - 1)%N in
  let seq := next_send_seq e in
  h_modify (put_entry stream
    (mkStreamEntry (kind e) (operation_id e) (state e) (close_reason e) (expected_seq e)
       (recv_credit e) (u64_wrap (next_send_seq e + 1)) left)) ?;
  (if bool_decide (left = 0%N)
   then h_modify (fun self => set_sendable (sendable_streams self ∖ {[stream]}) self)
   else h_ret tt) ?;
  h_ret seq.

(** The [while] of [remember_closed], on the queue and the stream table. *)
Fixpoint prune_closed (max : nat) (order : list string) (table : gmap string StreamEntry) :
    list string * gmap string StreamEntry :=
  match order with
  | [] => ([], table)
  | old :: rest =>
      if bool_decide (max < length order)
      then prune_closed max rest
             (match table !! old with
              | Some e => if bool_decide (state e = StreamState_Closed)
                          then delete old table else table
              | None => table
              end)
      else (order, table)
  end.

Definition remember_closed (stream : string) (self : StreamMux) : StreamMux :=
  let '(order, table) :=
    prune_closed (max_closed self) (closed_order self ++ [stream]) (streams self) in
  mkStreamMux table (open_streams self) (sendable_streams self) order
    (max_open self) (max_closed self).

(** What [close] and [cancel] do to an open stream. *)
Definition closed_entry (e : StreamEntry) (reason : StreamCloseReason) : StreamEntry :=
  mkStreamEntry (kind e) (operation_id e) StreamState_Closed (Some reason) (expected_seq e)
    (recv_credit e) (next_send_seq e) (send_credit e).

Definition close_open (stream : string) (e : StreamEntry) (reason : StreamCloseReason)
    (self : StreamMux) : StreamMux :=
  let self := put_entry stream (closed_entry e reason) self in
  let self := set_open (open_streams self ∖ {[stream]}) self in
  let self := set_sendable (sendable_streams self ∖ {[stream]}) self in
  remember_closed stream self.

Definition close (close : StreamClose) : mux_handler unit :=
  let? self := h_get in
  match streams self !! close_stream_id close with
  | None =>
      h_throw (ConstellationError_new ErrorKind_MalformedFrame "close of an unknown stream")
  | Some e =>
      if bool_decide (state e = StreamState_Closed) then
        if bool_decide (close_reason e = Some StreamCloseReason_Cancelled)
           && bool_decide (close_reason_of close = StreamCloseReason_Cancelled)
        then h_ret tt
        else h_throw (ConstellationError_new ErrorKind_MalformedFrame "stream is already closed")
      else h_modify (close_open (close_stream_id close) e (close_reason_of close))
  end.

Definition cancel (stream : string) : mux_handler bool :=
  let? self := h_get in
  match streams self !! stream with
  | Some e =>
      if bool_decide (state e = StreamState_Open) then
        h_modify (close_open stream e StreamCloseReason_Cancelled) ?;
        h_ret true
      else h_ret false
  | None => h_ret false
  end.

Definition validate_resume (resume : StreamResume) : mux_handler unit :=
  let? self := h_get in
  match streams self !! resume_stream_id resume with
  | None =>
      h_throw (ConstellationError_new ErrorKind_MalformedFrame "resume of an unknown stream")
  | Some e =>
      h_reject (negb (bool_decide (kind e = StreamKind_Logs)))
        (ConstellationError_new ErrorKind_MalformedFrame
           "only logs streams support cursor resume")
  end.

Definition operation_id_of (self : StreamMux) (stream : string) : option string :=
  operation_id <$> streams self !! stream.

(** ** The invariant

    The two index sets are exactly the open streams and the open streams with
    outbound credit, the queue lists each retained closed stream once, both
    caps hold, and every counter fits its width. *)

Record entry_wf (e : StreamEntry) : Prop := {
  ew_reason : state e = StreamState_Open <-> close_reason e = None;
  ew_expected : u64_fits (expected_seq e);
  ew_recv : u64_fits (recv_credit e);
  ew_next : u64_fits (next_send_seq e);
  ew_send : u64_fits (send_credit e)
}.

Definition entry_at (m : StreamMux) (id : string) (P : StreamEntry -> Prop) : Prop :=
  exists e, streams m !! id = Some e /\ P e.

Definition Open (e : StreamEntry) : Prop := state e = StreamState_Open.
Definition Closed (e : StreamEntry) : Prop := state e = StreamState_Closed.

Record wf (m : StreamMux) : Prop := {
  wf_open : forall id, id ∈ open_streams m <-> entry_at m id Open;
  wf_sendable : forall id, id ∈ sendable_streams m
    <-> entry_at m id (fun e => Open e /\ send_credit e <> 0%N);
  wf_closed : forall id, id ∈ closed_order m <-> entry_at m id Closed;
  wf_closed_nodup : NoDup (closed_order m);
  wf_open_cap : size (open_streams m) <= max_open m;
  wf_closed_cap : length (closed_order m) <= max_closed m;
  wf_entries : forall id e, streams m !! id = Some e -> entry_wf e
}.

Lemma with_limits_wf a b : wf (with_limits a b).
Proof.
  split; unfold entry_at; simpl.
  - intros id. setoid_rewrite lookup_empty. set_solver.
  - intros id. setoid_rewrite lookup_empty. set_solver.
  - intros id. setoid_rewrite lookup_empty. set_solver.
  - constructor.
  - apply Nat.le_0_l.
  - lia.
  - intros id e. by rewrite lookup_empty.
Qed.

Lemma not_open_closed e : state e <> StreamState_Open -> Closed e.
Proof. unfold Closed. by destruct (state e). Qed.

(** Replacing the entry of an open stream by another open one, with the
    sendable set adjusted to the new credit. *)
Lemma wf_update_open m id e e' S :
  wf m -> streams m !! id = Some e -> Open e -> Open e' -> entry_wf e' ->
  (forall x, x ∈ S <-> (x = id /\ send_credit e' <> 0%N) \/ (x <> id /\ x ∈ sendable_streams m)) ->
  wf (set_sendable S (put_entry id e' m)).
Proof.
  intros Hwf He Ho Ho' Hew HS. destruct Hwf. unfold entry_at, Open, Closed in *.
  split; simpl; unfold entry_at, Open, Closed; simpl; try done.
  - intros x. rewrite wf_open0. destruct (decide (x = id)) as [->|Hne].
    + rewrite lookup_insert_eq. split; intros _; eauto.
    + by rewrite lookup_insert_ne.
  - intros x. rewrite HS. destruct (decide (x = id)) as [->|Hne].
    + rewrite lookup_insert_eq. naive_solver.
    + rewrite lookup_insert_ne by done. rewrite wf_sendable0. naive_solver.
  - intros x. rewrite wf_closed0. destruct (decide (x = id)) as [->|Hne].
    + rewrite lookup_insert_eq, He. naive_solver congruence.
    + by rewrite lookup_insert_ne.
  - intros x y. destruct (decide (x = id)) as [->|Hne].
    + rewrite lookup_insert_eq. by intros [= <-].
    + rewrite lookup_insert_ne by done. apply wf_entries0.
Qed.

Lemma set_sendable_id m : set_sendable (sendable_streams m) m = m.
Proof. by destruct m. Qed.

Lemma sendable_in m id e :
  wf m -> streams m !! id = Some e -> Open e ->
  id ∈ sendable_streams m <-> send_credit e <> 0%N.
Proof.
  intros Hwf He Ho. rewrite (wf_sendable m Hwf). unfold entry_at.
  rewrite He. naive_solver.
Qed.

Lemma sendable_same m id e x :
  wf m -> streams m !! id = Some e -> Open e ->
  x ∈ sendable_streams m <->
  (x = id /\ send_credit e <> 0%N) \/ (x <> id /\ x ∈ sendable_streams m).
Proof.
  intros Hwf He Ho. pose proof (sendable_in _ _ _ Hwf He Ho).
  destruct (decide (x = id)) as [->|Hne]; tauto.
Qed.

(** [prune_closed] drops the oldest entries beyond the cap, and their records. *)
Lemma prune_closed_spec max order table :
  NoDup order ->
  (forall x, x ∈ order -> exists e, table !! x = Some e /\ Closed e) ->
  let dropped := take (length order - max) order in
  (prune_closed max order table).1 = drop (length order - max) order /\
  (forall x, x ∈ dropped -> (prune_closed max order table).2 !! x = None) /\
  (forall x, x ∉ dropped -> (prune_closed max order table).2 !! x = table !! x).
Proof.
  revert table. induction order as [|old rest IH]; intros table Hnd Hcl; simpl.
  { split_and!; [done|set_solver|done]. }
  case_bool_decide as Hlen; cycle 1.
  { replace (S (length rest) - max) with 0 by lia. split_and!; [done|set_solver|done]. }
  apply NoDup_cons in Hnd as [Hold Hnd].
  destruct (Hcl old) as (e & He & Hclosed); [left|].
  rewrite He, bool_decide_true by done.
  destruct (IH (delete old table)) as (IH1 & IH2 & IH3); [done|..].
  { intros x Hx. rewrite lookup_delete_ne by (intros ->; done). apply Hcl. by right. }
  replace (S (length rest) - max) with (S (length rest - max)) by lia. simpl.
  split_and!; [done|..]; intros x.
  - rewrite elem_of_cons. intros [->|Hx]; [|by apply IH2].
    rewrite IH3; [apply lookup_delete_eq|].
    intros (i & Hi & _)%elem_of_take. by eapply Hold, list_elem_of_lookup_2.
  - rewrite not_elem_of_cons. intros [Hne Hx]. rewrite IH3 by done.
    by rewrite lookup_delete_ne.
Qed.

Lemma take_drop_elem (n : nat) (l : list string) x :
  NoDup l -> x ∈ drop n l <-> x ∈ l /\ x ∉ take n l.
Proof.
  intros Hnd. rewrite <- (take_drop n l) at 2.
  rewrite <- (take_drop n l) in Hnd. apply NoDup_app in Hnd as (_ & Hd & _).
  rewrite elem_of_app. naive_solver.
Qed.

(** Closing one open stream of a well-formed multiplexer. *)
Section close_open.
Context (m : StreamMux) (id : string) (e : StreamEntry) (r : StreamCloseReason).
Context (Hwf : wf m) (He : streams m !! id = Some e) (Ho : Open e).

Let table : gmap string StreamEntry := <[id := closed_entry e r]> (streams m).
Let order : list string := closed_order m ++ [id].
Let dropped : list string := take (length order - max_closed m) order.

Lemma close_order_nodup : NoDup order.
Proof.
  assert (id ∉ closed_order m) as Hid.
  { rewrite (wf_closed m Hwf). unfold entry_at, Closed, Open in *. naive_solver congruence. }
  apply NoDup_app. split_and!; [apply Hwf| |apply NoDup_singleton].
  intros x Hx ->%list_elem_of_singleton. done.
Qed.

Lemma close_order_in x : x ∈ order <-> exists e', table !! x = Some e' /\ Closed e'.
Proof.
  unfold order, table. rewrite elem_of_app, list_elem_of_singleton, (wf_closed m Hwf).
  unfold entry_at. destruct (decide (x = id)) as [->|Hne].
  - rewrite lookup_insert_eq. split; [|naive_solver]. intros _. by eexists.
  - rewrite lookup_insert_ne by done. naive_solver.
Qed.

Lemma close_open_run :
  closed_order (close_open id e r m) = drop (length order - max_closed m) order /\
  (forall x, x ∈ dropped -> streams (close_open id e r m) !! x = None) /\
  (forall x, x ∉ dropped -> streams (close_open id e r m) !! x = table !! x).
Proof.
  destruct (prune_closed_spec (max_closed m) order table) as (Hp1 & Hp2 & Hp3);
    [exact close_order_nodup|by intros x; apply close_order_in|].
  unfold close_open, remember_closed. simpl. fold table order.
  by destruct (prune_closed (max_closed m) order table).
Qed.

Lemma close_dropped x : x ∈ dropped -> exists e', table !! x = Some e' /\ Closed e'.
Proof.
  intros (i & Hi & _)%elem_of_take. by eapply close_order_in, list_elem_of_lookup_2.
Qed.

(** The other open streams keep their entry; no stream becomes open. *)
Lemma close_open_open x e' :
  streams (close_open id e r m) !! x = Some e' /\ Open e' <->
  x <> id /\ streams m !! x = Some e' /\ Open e'.
Proof.
  destruct close_open_run as (_ & Hp2 & Hp3). destruct (decide (x ∈ dropped)) as [Hx|Hx].
  - rewrite Hp2 by done. destruct (close_dropped x Hx) as (e1 & He1 & Hc1).
    split; [naive_solver|]. unfold table in He1. intros (Hne & Hs & Ho1).
    rewrite lookup_insert_ne in He1 by done. unfold Open, Closed in *. naive_solver congruence.
  - rewrite Hp3 by done. unfold table. destruct (decide (x = id)) as [->|Hne].
    + rewrite lookup_insert_eq. unfold Open, closed_entry. naive_solver.
    + rewrite lookup_insert_ne by done. naive_solver.
Qed.

Lemma close_open_sets :
  open_streams (close_open id e r m) = open_streams m ∖ {[id]} /\
  sendable_streams (close_open id e r m) = sendable_streams m ∖ {[id]} /\
  max_open (close_open id e r m) = max_open m /\
  max_closed (close_open id e r m) = max_closed m.
Proof. unfold close_open, remember_closed. by destruct (prune_closed _ _ _). Qed.

Lemma close_open_entry_wf x e' :
  streams (close_open id e r m) !! x = Some e' -> entry_wf e'.
Proof.
  destruct close_open_run as (_ & Hp2 & Hp3).
  destruct (decide (x ∈ dropped)) as [Hx|Hx]; [by rewrite Hp2|].
  rewrite Hp3 by done. unfold table. destruct (decide (x = id)) as [->|Hne].
  - rewrite lookup_insert_eq. intros [= <-].
    destruct (wf_entries _ Hwf _ _ He). split; simpl; try done.
  - rewrite lookup_insert_ne by done. apply Hwf.
Qed.

Lemma close_open_wf : wf (close_open id e r m).
Proof.
  destruct close_open_run as (Hord & Hp2 & Hp3).
  destruct close_open_sets as (Hos & Hss & Hmo & Hmc).
  split; rewrite ?Hos, ?Hss, ?Hmo, ?Hmc, ?Hord; unfold entry_at.
  - intros x. rewrite elem_of_difference, elem_of_singleton, (wf_open _ Hwf). unfold entry_at.
    setoid_rewrite close_open_open. naive_solver.
  - intros x. rewrite elem_of_difference, elem_of_singleton, (wf_sendable _ Hwf). split.
    + intros [(e1 & He1 & Ho1 & Hc1) Hne]. exists e1.
      destruct (proj2 (close_open_open x e1)); naive_solver.
    + intros (e1 & He1 & Ho1 & Hc1). destruct (proj1 (close_open_open x e1)) as (? & ? & ?);
        [done|]. split; [by exists e1|done].
  - intros x. rewrite take_drop_elem by exact close_order_nodup.
    fold dropped. rewrite close_order_in. split.
    + intros [(e1 & He1 & Hc1) Hx]. exists e1. by rewrite Hp3.
    + intros (e1 & He1 & Hc1). destruct (decide (x ∈ dropped)) as [Hx|Hx].
      * rewrite Hp2 in He1 by done. done.
      * rewrite Hp3 in He1 by done. eauto.
  - apply (sublist_NoDup _ order); [exact close_order_nodup|apply sublist_drop].
  - etrans; [|exact (wf_open_cap _ Hwf)]. apply subseteq_size. set_solver.
  - rewrite length_drop. unfold order. rewrite length_app. simpl.
    pose proof (wf_closed_cap _ Hwf). lia.
  - apply close_open_entry_wf.
Qed.

End close_open.

(** ** The operations, branch by branch *)

Definition with_recv (e : StreamEntry) (seq credit : N) : StreamEntry :=
  mkStreamEntry (kind e) (operation_id e) (state e) (close_reason e) seq credit
    (next_send_seq e) (send_credit e).

Definition with_send (e : StreamEntry) (seq credit : N) : StreamEntry :=
  mkStreamEntry (kind e) (operation_id e) (state e) (close_reason e) (expected_seq e)
    (recv_credit e) seq credit.

(** ** Accepted calls

    [event] lists the calls a session makes; [apply] performs one and says
    whether it was accepted.  [transition] has one rule per way a call is
    accepted, with the state it leaves: the proofs below go by its cases.
    What the multiplexer promises, without its helpers and indexes, is in
    [MuxBook]. *)

Inductive event :=
| EvOpen (op : StreamOpen) (caps : CapabilitySet)
| EvGrant (id : string) (credits : N)
| EvData (data : StreamData)
| EvFlow (flow : StreamFlow)
| EvReserve (id : string) (channel : StreamChannel)
| EvClose (cl : StreamClose)
| EvCancel (id : string)
| EvResume (r : StreamResume).

Definition apply (ev : event) (m : StreamMux) : bool * StreamMux :=
  let run {A} (h : mux_handler A) := let '(r, m') := h m in (is_ok r, m') in
  match ev with
  | EvOpen op caps => run (open_with_capabilities op caps)
  | EvGrant id c => run (grant_inbound id c)
  | EvData data => run (accept_data data)
  | EvFlow flow => run (receive_flow flow)
  | EvReserve id ch => run (reserve_send id ch)
  | EvClose cl => run (close cl)
  | EvCancel id => run (cancel id)
  | EvResume r => run (validate_resume r)
  end.

Definition apply_all (evs : list event) (m : StreamMux) : StreamMux :=
  fold_left (fun m ev => (apply ev m).2) evs m.

Definition fresh_entry (op : StreamOpen) : StreamEntry :=
  mkStreamEntry (descriptor_kind (open_descriptor op)) (open_operation_id op)
    StreamState_Open None 0 0 0 0.

Inductive transition (m : StreamMux) : event -> StreamMux -> Prop :=
| tr_open op caps :
    let id := descriptor_id (open_descriptor op) in
    StreamOpen_is_consistent op = true ->
    CapabilitySet_has caps (authz_capability (open_authz op)) = true ->
    streams m !! id = None -> size (open_streams m) < max_open m ->
    transition m (EvOpen op caps)
      (set_open ({[id]} ∪ open_streams m) (put_entry id (fresh_entry op) m))
| tr_grant id c e :
    c <> 0%N -> streams m !! id = Some e -> Open e ->
    transition m (EvGrant id c)
      (put_entry id (with_recv e (expected_seq e) (u64_saturating_add (recv_credit e) c)) m)
| tr_data data e :
    streams m !! data_stream data = Some e -> Open e ->
    channel_valid_for_kind (kind e) (data_channel data) = true ->
    (is_Some (data_cursor data) -> kind e = StreamKind_Logs) ->
    data_sequence data = expected_seq e -> recv_credit e <> 0%N ->
    transition m (EvData data)
      (put_entry (data_stream data)
         (with_recv e (u64_wrap (expected_seq e + 1)) (recv_credit e - 1)) m)
| tr_flow flow e :
    flow_credits flow <> 0%N -> streams m !! flow_stream flow = Some e -> Open e ->
    transition m (EvFlow flow)
      (set_sendable (if decide (send_credit e = 0%N)
                     then {[flow_stream flow]} ∪ sendable_streams m else sendable_streams m)
         (put_entry (flow_stream flow) (with_send e (next_send_seq e)
            (u64_saturating_add (send_credit e) (flow_credits flow))) m))
| tr_reserve id ch e :
    streams m !! id = Some e -> Open e -> channel_valid_for_kind (kind e) ch = true ->
    send_credit e <> 0%N ->
    transition m (EvReserve id ch)
      (set_sendable (if decide (send_credit e - 1 = 0)%N
                     then sendable_streams m ∖ {[id]} else sendable_streams m)
         (put_entry id (with_send e (u64_wrap (next_send_seq e + 1)) (send_credit e - 1)) m))
| tr_close cl e :
    streams m !! close_stream_id cl = Some e -> Open e ->
    transition m (EvClose cl) (close_open (close_stream_id cl) e (close_reason_of cl) m)
| tr_close_again cl e :
    streams m !! close_stream_id cl = Some e -> Closed e ->
    close_reason e = Some StreamCloseReason_Cancelled ->
    close_reason_of cl = StreamCloseReason_Cancelled ->
    transition m (EvClose cl) m
| tr_cancel id e :
    streams m !! id = Some e -> Open e ->
    transition m (EvCancel id) (close_open id e StreamCloseReason_Cancelled m)
| tr_cancel_again id :
    (forall e, streams m !! id = Some e -> Closed e) ->
    transition m (EvCancel id) m
| tr_resume r e :
    streams m !! resume_stream_id r = Some e -> kind e = StreamKind_Logs ->
    transition m (EvResume r) m.

Lemma open_entry_cases id m :
  (exists err, open_entry id m = (Err err, m)) \/
  (exists e, open_entry id m = (Ok e, m) /\ streams m !! id = Some e /\ Open e).
Proof.
  unfold open_entry. unfold_handler. destruct (streams m !! id) as [e|]; simpl; [|by eauto].
  case_bool_decide; eauto.
Qed.

Lemma open_entry_open id m e :
  streams m !! id = Some e -> Open e -> open_entry id m = (Ok e, m).
Proof.
  intros He Ho. unfold open_entry. unfold_handler. by rewrite He, bool_decide_true.
Qed.

Ltac by_open_entry id m :=
  let err := fresh "err" in let Hoe := fresh "Hoe" in
  destruct (open_entry_cases id m) as [(err & Hoe)|(e & Hoe & He & Ho)];
  unfold open_entry_mut; rewrite ?Hoe; simpl; [by left|].

(** Every call is refused with the state untouched or is a transition. *)
Lemma apply_cases ev m :
  apply ev m = (false, m) \/ exists m', apply ev m = (true, m') /\ transition m ev m'.
Proof.
  destruct ev as [op caps|id c|data|flow|id ch|cl|id|r]; simpl.
  - unfold open_with_capabilities. unfold_handler.
    destruct (StreamOpen_is_consistent op) eqn:Hcon; simpl; [|by left].
    destruct (CapabilitySet_has _ _) eqn:Hcap; simpl; [|by left].
    case_bool_decide as Hs; simpl; [by left|]. case_bool_decide as Hc; simpl; [by left|].
    right. eexists. split; [done|]. unfold open_stream_count in Hc.
    apply (tr_open m op caps); [done..|by apply eq_None_not_Some|lia].
  - unfold grant_inbound. unfold_handler. case_bool_decide; simpl; [by left|].
    by_open_entry id m. right. eexists. split; [done|]. by apply tr_grant.
  - unfold accept_data. unfold_handler. by_open_entry (data_stream data) m.
    destruct (channel_valid_for_kind _ _) eqn:Hch; simpl; [|by left].
    destruct (bool_decide (is_Some _) && _) eqn:Hcur; simpl; [by left|].
    assert (is_Some (data_cursor data) -> kind e = StreamKind_Logs) as Hlogs.
    { intros Hs. rewrite bool_decide_true in Hcur by done.
      by apply negb_false_iff, bool_decide_eq_true in Hcur. }
    clear Hcur. rewrite Hoe; simpl. case_bool_decide as Hseq; simpl; [|by left].
    case_bool_decide as Hcr; simpl; [by left|]. right. eexists. split; [done|]. by apply tr_data.
  - unfold receive_flow. unfold_handler. case_bool_decide; simpl; [by left|].
    by_open_entry (flow_stream flow) m. right.
    eexists. split; [|by apply (tr_flow m flow e)].
    case_bool_decide; [rewrite decide_True by done|rewrite decide_False by done]; done.
  - unfold reserve_send. unfold_handler. by_open_entry id m.
    destruct (channel_valid_for_kind _ _) eqn:Hch; simpl; [|by left].
    rewrite Hoe; simpl. case_bool_decide as Hc; simpl; [by left|]. right.
    eexists. split; [|by apply (tr_reserve m id ch e)].
    case_bool_decide; [rewrite decide_True by done|rewrite decide_False by done]; done.
  - unfold close. unfold_handler. destruct (streams m !! _) as [e|] eqn:He; simpl; [|by left].
    case_bool_decide as Hs.
    + repeat case_bool_decide; simpl; try by left. right. eexists. split; [done|].
      by eapply tr_close_again.
    + right. eexists. split; [done|]. apply tr_close; [done|].
      unfold Open. by destruct (state e).
  - unfold cancel. unfold_handler. right. destruct (streams m !! id) as [e|] eqn:He; simpl.
    + case_bool_decide as Hs; simpl; (eexists; split; [done|]).
      * by apply tr_cancel.
      * apply tr_cancel_again. rewrite He. intros ? [= <-]. by apply not_open_closed.
    + eexists. split; [done|]. apply tr_cancel_again. by rewrite He.
  - unfold validate_resume. unfold_handler.
    destruct (streams m !! _) as [e|] eqn:He; simpl; [|by left].
    case_bool_decide; [right|by left]. eexists. split; [done|]. by eapply tr_resume.
Qed.

Lemma Open_Closed e : Open e -> Closed e -> False.
Proof. unfold Open, Closed. congruence. Qed.

Lemma transition_apply ev m m' : transition m ev m' -> apply ev m = (true, m').
Proof.
  destruct 1 as [op caps id Hcon Hcap Hn Hsz|id c e Hc He Ho|data e He Ho Hch Hcur Hseq Hcr
    |flow e Hc He Ho|id ch e He Ho Hch Hc|cl e He Ho|cl e He Ho Hr Hr'|id e He Ho|id Hcl
    |r e He Hk]; simpl.
  - unfold open_with_capabilities. unfold_handler. fold id. unfold open_stream_count.
    rewrite Hcon, Hcap. simpl. rewrite Hn.
    rewrite bool_decide_false by (by intros [? ?]). simpl.
    rewrite bool_decide_false by lia. done.
  - unfold grant_inbound, open_entry_mut. unfold_handler. rewrite bool_decide_false by done.
    by rewrite (open_entry_open _ _ e).
  - unfold accept_data, open_entry_mut. unfold_handler.
    rewrite (open_entry_open _ _ e), Hch by done. simpl.
    assert (bool_decide (is_Some (data_cursor data)) &&
            negb (bool_decide (kind e = StreamKind_Logs)) = false) as ->.
    { destruct (decide (is_Some (data_cursor data))) as [Hs|Hs].
      - rewrite (Hcur Hs). by rewrite andb_false_r.
      - by rewrite bool_decide_false. }
    simpl. rewrite (open_entry_open _ _ e) by done. simpl.
    rewrite Hseq, bool_decide_true by done. simpl. by rewrite bool_decide_false.
  - unfold receive_flow, open_entry_mut. unfold_handler.
    rewrite (bool_decide_false (flow_credits flow = 0%N)) by done.
    rewrite (open_entry_open _ _ e) by done. simpl.
    case_decide; [rewrite bool_decide_true by done|rewrite bool_decide_false by done]; done.
  - unfold reserve_send, open_entry_mut. unfold_handler.
    rewrite (open_entry_open _ _ e), Hch by done. simpl.
    rewrite (open_entry_open _ _ e) by done. simpl.
    rewrite (bool_decide_false (send_credit e = 0%N)) by done. simpl.
    case_decide; [rewrite bool_decide_true by done|rewrite bool_decide_false by done]; done.
  - unfold close. unfold_handler. rewrite He.
    by rewrite bool_decide_false by (intros Hc; by eapply Open_Closed).
  - unfold close. unfold_handler. by rewrite He, Hr, Hr', !bool_decide_true.
  - unfold cancel. unfold_handler. by rewrite He, bool_decide_true.
  - unfold cancel. unfold_handler. destruct (streams m !! id) as [e|] eqn:He; [|done].
    rewrite bool_decide_false; [done|]. intros ?. by eapply Open_Closed, Hcl.
  - unfold validate_resume. unfold_handler. rewrite He, Hk. done.
Qed.

Lemma entry_wf_recv e seq credit :
  entry_wf e -> u64_fits seq -> u64_fits credit -> entry_wf (with_recv e seq credit).
Proof. intros [] ? ?. by split. Qed.

Lemma entry_wf_send e seq credit :
  entry_wf e -> u64_fits seq -> u64_fits credit -> entry_wf (with_send e seq credit).
Proof. intros [] ? ?. by split. Qed.

Lemma open_wf m id knd opid :
  wf m -> streams m !! id = None -> size (open_streams m) < max_open m ->
  wf (set_open ({[id]} ∪ open_streams m)
        (put_entry id (mkStreamEntry knd opid StreamState_Open None 0 0 0 0) m)).
Proof.
  intros Hwf Hid Hcap. destruct Hwf. unfold entry_at, Open, Closed in *.
  split; unfold entry_at, Open, Closed; simpl; try done.
  - intros x. rewrite elem_of_union, elem_of_singleton, wf_open0.
    destruct (decide (x = id)) as [->|Hne].
    + rewrite lookup_insert_eq. naive_solver.
    + rewrite lookup_insert_ne by done. naive_solver.
  - intros x. rewrite wf_sendable0. destruct (decide (x = id)) as [->|Hne].
    + rewrite lookup_insert_eq, Hid. naive_solver.
    + by rewrite lookup_insert_ne.
  - intros x. rewrite wf_closed0. destruct (decide (x = id)) as [->|Hne].
    + rewrite lookup_insert_eq, Hid. naive_solver.
    + by rewrite lookup_insert_ne.
  - pose proof (size_union_alt {[id]} (open_streams m)) as Hsz.
    rewrite Hsz, size_singleton.
    assert (size (open_streams m ∖ {[id]}) <= size (open_streams m))
      by (apply subseteq_size; set_solver). lia.
  - intros x e. destruct (decide (x = id)) as [->|Hne].
    + rewrite lookup_insert_eq. intros [= <-]. by split.
    + rewrite lookup_insert_ne by done. apply wf_entries0.
Qed.

Lemma transition_wf m ev m' : wf m -> transition m ev m' -> wf m'.
Proof.
  intros Hwf. destruct 1 as [op caps id Hcon Hcap Hn Hsz|id c e Hc He Ho
    |data e He Ho Hch Hcur Hseq Hcr|flow e Hc He Ho|id ch e He Ho Hch Hc|cl e He Ho
    |cl e He Ho Hr Hr'|id e He Ho|id Hcl|r e He Hk]; try done.
  - by apply open_wf.
  - pose proof (wf_entries _ Hwf _ _ He) as Hew.
    rewrite <- (set_sendable_id (put_entry _ _ _)). apply (wf_update_open _ _ e); try done.
    { apply entry_wf_recv; auto using u64_saturating_add_fits; apply Hew. }
    intros x. by apply (sendable_same m _ e).
  - pose proof (wf_entries _ Hwf _ _ He) as Hew.
    rewrite <- (set_sendable_id (put_entry _ _ _)). apply (wf_update_open _ _ e); try done.
    { apply entry_wf_recv; auto using u64_wrap_fits. destruct Hew. unfold u64_fits in *. lia. }
    intros x. by apply (sendable_same m _ e).
  - pose proof (wf_entries _ Hwf _ _ He) as Hew. apply (wf_update_open _ _ e); try done.
    { apply entry_wf_send; auto using u64_saturating_add_fits; apply Hew. }
    intros x. simpl. pose proof (sendable_in _ _ _ Hwf He Ho) as Hs.
    assert (u64_saturating_add (send_credit e) (flow_credits flow) <> 0%N).
    { unfold u64_saturating_add, u64_max. lia. }
    destruct (decide (x = flow_stream flow)) as [->|]; case_decide; set_solver.
  - pose proof (wf_entries _ Hwf _ _ He) as Hew. apply (wf_update_open _ _ e); try done.
    { apply entry_wf_send; auto using u64_wrap_fits. destruct Hew. unfold u64_fits in *. lia. }
    intros x. simpl. pose proof (sendable_in _ _ _ Hwf He Ho) as Hs.
    destruct (decide (x = id)) as [->|]; case_decide; set_solver.
  - by apply close_open_wf.
  - by apply close_open_wf.
Qed.

Lemma apply_wf ev m : wf m -> wf (apply ev m).2.
Proof.
  intros Hwf. destruct (apply_cases ev m) as [->|(m' & -> & Ht)]; simpl;
    eauto using transition_wf.
Qed.

Lemma apply_all_wf evs m : wf m -> wf (apply_all evs m).
Proof.
  revert m. induction evs as [|ev evs IH]; intros m Hwf; [done|].
  apply IH, apply_wf, Hwf.
Qed.

(** ** One stream at a time

    [open_at] is what a stream's peer can see of the multiplexer; each call
    acts on the stream it names and on no other. *)

Definition open_at (m : StreamMux) (x : string) : option StreamEntry :=
  e ← streams m !! x; if decide (state e = StreamState_Open) then Some e else None.

Definition open_effect (ev : event) (x : string) (o : option StreamEntry) : option StreamEntry :=
  match ev with
  | EvOpen op _ =>
      if decide (descriptor_id (open_descriptor op) = x) then Some (fresh_entry op) else o
  | EvGrant id c =>
      if decide (id = x)
      then (fun e => with_recv e (expected_seq e) (u64_saturating_add (recv_credit e) c)) <$> o
      else o
  | EvData data =>
      if decide (data_stream data = x)
      then (fun e => with_recv e (u64_wrap (expected_seq e + 1)) (recv_credit e - 1)) <$> o
      else o
  | EvFlow flow =>
      if decide (flow_stream flow = x)
      then (fun e => with_send e (next_send_seq e)
                       (u64_saturating_add (send_credit e) (flow_credits flow))) <$> o
      else o
  | EvReserve id _ =>
      if decide (id = x)
      then (fun e => with_send e (u64_wrap (next_send_seq e + 1)) (send_credit e - 1)) <$> o
      else o
  | EvClose cl => if decide (close_stream_id cl = x) then None else o
  | EvCancel id => if decide (id = x) then None else o
  | EvResume _ => o
  end.

Lemma open_at_some m x e : open_at m x = Some e <-> streams m !! x = Some e /\ Open e.
Proof.
  unfold open_at, Open. destruct (streams m !! x) as [e1|]; simpl; [case_decide|]; naive_solver.
Qed.

Lemma open_at_none m x e : streams m !! x = Some e -> Closed e -> open_at m x = None.
Proof.
  intros He Hc. unfold open_at. rewrite He. simpl. rewrite decide_False; [done|].
  intros Ho. by eapply Open_Closed.
Qed.

Lemma open_at_put m id e S x :
  Open e -> open_at (set_sendable S (put_entry id e m)) x =
            if decide (id = x) then Some e else open_at m x.
Proof.
  intros Ho. unfold open_at. simpl. case_decide as Hx.
  - subst x. rewrite lookup_insert_eq. simpl. by rewrite decide_True.
  - by rewrite lookup_insert_ne.
Qed.

Lemma open_at_close m id e r x :
  wf m -> streams m !! id = Some e -> Open e ->
  open_at (close_open id e r m) x = if decide (id = x) then None else open_at m x.
Proof.
  intros Hwf He Ho. apply option_eq. intros e'.
  rewrite open_at_some, close_open_open by done.
  case_decide; rewrite ?open_at_some; naive_solver.
Qed.

Lemma transition_open_at m ev m' x :
  wf m -> transition m ev m' -> open_at m' x = open_effect ev x (open_at m x).
Proof.
  intros Hwf. destruct 1 as [op caps id Hcon Hcap Hn Hsz|id c e Hc He Ho
    |data e He Ho Hch Hcur Hseq Hcr|flow e Hc He Ho|id ch e He Ho Hch Hc|cl e He Ho
    |cl e He Ho Hr Hr'|id e He Ho|id Hcl|r e He Hk]; simpl; try done.
  - unfold open_at. simpl. fold id. case_decide as Hx; [by subst x; rewrite lookup_insert_eq|].
    by rewrite lookup_insert_ne.
  - rewrite <- (set_sendable_id (put_entry _ _ _)), open_at_put by done.
    case_decide as Hx; [|done]. subst x. by rewrite (proj2 (open_at_some m id e)).
  - rewrite <- (set_sendable_id (put_entry _ _ _)), open_at_put by done.
    case_decide as Hx; [|done]. subst x. by rewrite (proj2 (open_at_some m _ e)).
  - rewrite open_at_put by done.
    case_decide as Hx; [|done]. subst x. by rewrite (proj2 (open_at_some m _ e)).
  - rewrite open_at_put by done.
    case_decide as Hx; [|done]. subst x. by rewrite (proj2 (open_at_some m _ e)).
  - by apply open_at_close.
  - case_decide as Hx; [|done]. subst x. by apply (open_at_none m _ e).
  - by apply open_at_close.
  - case_decide as Hx; [|done]. subst x.
    destruct (streams m !! id) as [e|] eqn:He; [by apply (open_at_none m id e); auto|].
    unfold open_at. by rewrite He.
Qed.

(** A retained stream keeps its kind; a new entry comes from an accepted open. *)
Lemma transition_kind m ev m' x e' :
  wf m -> transition m ev m' -> streams m' !! x = Some e' ->
  (exists e, streams m !! x = Some e /\ kind e' = kind e) \/
  (exists op caps, ev = EvOpen op caps /\ x = descriptor_id (open_descriptor op) /\
     kind e' = descriptor_kind (open_descriptor op)).
Proof.
  assert (Hins : forall id e1 e2, streams m !! id = Some e1 -> kind e2 = kind e1 ->
    <[id := e2]> (streams m) !! x = Some e' ->
    exists e, streams m !! x = Some e /\ kind e' = kind e).
  { intros id e1 e2 H1 Hk. rewrite lookup_insert_Some. naive_solver. }
  assert (Hclose : forall id e r, wf m -> streams m !! id = Some e -> Open e ->
    streams (close_open id e r m) !! x = Some e' ->
    exists e, streams m !! x = Some e /\ kind e' = kind e).
  { intros id e r Hwf He Ho Hx.
    destruct (close_open_run m id e r Hwf He Ho) as (_ & Hp2 & Hp3).
    destruct (decide (x ∈ take (length (closed_order m ++ [id]) - max_closed m)
                           (closed_order m ++ [id]))) as [Hd|Hd].
    - by rewrite Hp2 in Hx.
    - rewrite Hp3 in Hx by done. by apply (Hins id e (closed_entry e r)). }
  intros Hwf. destruct 1 as [op caps id Hcon Hcap Hn Hsz|id c e Hc He Ho
    |data e He Ho Hch Hcur Hseq Hcr|flow e Hc He Ho|id ch e He Ho Hch Hc|cl e He Ho
    |cl e He Ho Hr Hr'|id e He Ho|id Hcl|r e He Hk]; simpl; intros Hx;
    try (left; exact (Hclose _ _ _ Hwf He Ho Hx));
    try (left; eapply Hins; [exact He| |exact Hx]; done); try (left; by exists e').
  rewrite lookup_insert_Some in Hx. destruct Hx as [[<- <-]|[_ Hx]]; [right|by eauto].
  exists op, caps. done.
Qed.

(** ** Histories of one inbound stream *)

(** The sequence numbers of the data frames accepted on [x], in order. *)
Fixpoint delivered (x : string) (evs : list event) (m : StreamMux) : list N :=
  match evs with
  | [] => []
  | ev :: evs =>
      let '(ok, m') := apply ev m in
      match ev with
      | EvData data =>
          if ok && bool_decide (data_stream data = x) then [data_sequence data] else []
      | _ => []
      end ++ delivered x evs m'
  end.

(** The credit this endpoint granted on [x]. *)
Fixpoint granted (x : string) (evs : list event) (m : StreamMux) : N :=
  match evs with
  | [] => 0
  | ev :: evs =>
      let '(ok, m') := apply ev m in
      match ev with
      | EvGrant id c => if ok && bool_decide (id = x) then c else 0
      | _ => 0
      end + granted x evs m'
  end.

Definition opens (x : string) (ev : event) : bool :=
  match ev with
  | EvOpen op _ => bool_decide (descriptor_id (open_descriptor op) = x)
  | _ => false
  end.

Definition count_from (n : N) (k : nat) : list N := (fun i => n + N.of_nat i)%N <$> seq 0 k.

Lemma count_from_S n k : count_from n (S k) = n :: count_from (n + 1) k.
Proof.
  unfold count_from. simpl. f_equal; [lia|]. rewrite <- fmap_S_seq, <- list_fmap_compose.
  apply list_fmap_ext. intros i j _. simpl. lia.
Qed.

(** A stream that is not open stays so until it is opened, and takes no data. *)
Lemma not_open_inert x evs m :
  wf m -> forallb (fun ev => negb (opens x ev)) evs = true -> open_at m x = None ->
  delivered x evs m = [] /\ open_at (apply_all evs m) x = None.
Proof.
  revert m. induction evs as [|ev evs IH]; intros m Hwf; [done|].
  cbn [forallb delivered apply_all fold_left]. intros [Hop Hops]%andb_true_iff Hx.
  destruct (apply_cases ev m) as [Hap|(m' & Hap & Ht)]; rewrite Hap; cbn [snd].
  { destruct (IH m) as [-> ?]; try done. by destruct ev. }
  assert (open_at m' x = None) as Hx'.
  { rewrite (transition_open_at m ev m' x) by done. rewrite Hx.
    apply negb_true_iff in Hop.
    destruct ev; simpl in *; try done; try (by case_decide). }
  destruct (IH m') as [-> ?]; eauto using transition_wf. split; [|done].
  destruct Ht; try done. simpl. rewrite bool_decide_false; [done|]. intros Heq.
  assert (open_at m (data_stream data) = Some e) by (by apply open_at_some). congruence.
Qed.

(** One accepted call and the inbound half of an open stream. *)
Lemma inbound_step x ev m m' e :
  wf m -> transition m ev m' -> open_at m x = Some e ->
  match open_at m' x with
  | Some e' =>
      match ev with
      | EvData data =>
          if decide (data_stream data = x)
          then data_sequence data = expected_seq e /\ recv_credit e <> 0%N /\
               expected_seq e' = u64_wrap (expected_seq e + 1) /\
               recv_credit e' = (recv_credit e - 1)%N
          else e' = e
      | EvGrant id c =>
          if decide (id = x)
          then expected_seq e' = expected_seq e /\ (recv_credit e' <= recv_credit e + c)%N
          else e' = e
      | _ => opens x ev = false -> expected_seq e' = expected_seq e /\ recv_credit e' = recv_credit e
      end
  | None => match ev with EvClose _ | EvCancel _ => True | _ => False end
  end.
Proof.
  intros Hwf Ht Hx. rewrite (transition_open_at m ev m' x), Hx by done.
  apply open_at_some in Hx as [He Ho].
  destruct Ht as [op caps id Hcon Hcap Hn Hsz|id c e0 Hc He0 Ho0|data e0 He0 Ho0 Hch Hcur Hseq Hcr
    | | | | | | |]; simpl; try (case_decide; done); try done.
  - fold id. case_decide; [|done]. by rewrite bool_decide_true.
  - case_decide; [|done]. simpl. unfold u64_saturating_add. lia.
  - case_decide; [|done]. subst x. rewrite He in He0. injection He0 as <-. done.
Qed.

Lemma inbound_run x evs m e :
  wf m -> forallb (fun ev => negb (opens x ev)) evs = true -> open_at m x = Some e ->
  (expected_seq e + N.of_nat (length evs) <= u64_max)%N ->
  exists k, delivered x evs m = count_from (expected_seq e) k /\
    (N.of_nat k <= recv_credit e + granted x evs m)%N /\
    (forall e', open_at (apply_all evs m) x = Some e' ->
       expected_seq e' = (expected_seq e + N.of_nat k)%N /\
       (recv_credit e' + N.of_nat k <= recv_credit e + granted x evs m)%N).
Proof.
  revert m e. induction evs as [|ev evs IH]; intros m e Hwf Hops Hx Hlen.
  { exists 0. simpl. split_and!; [done|lia|]. rewrite Hx. intros e' [= <-]. lia. }
  cbn [forallb delivered granted apply_all fold_left length] in *.
  apply andb_true_iff in Hops as [Hop%negb_true_iff Hops].
  destruct (apply_cases ev m) as [Hap|(m' & Hap & Ht)]; rewrite Hap; cbn [snd].
  { destruct (IH m e) as (k & -> & Hk & Hend); [done..|lia|]. exists k. by destruct ev. }
  pose proof (inbound_step x ev m m' e Hwf Ht Hx) as Hstep.
  assert (Hwf' : wf m') by eauto using transition_wf.
  destruct (open_at m' x) as [e'|] eqn:Hx'; cycle 1.
  { destruct (not_open_inert x evs m' Hwf' Hops Hx') as [Hd Hn]. exists 0.
    rewrite Hd. split_and!; [by destruct ev|lia|]. by unfold apply_all in Hn; rewrite Hn. }
  specialize (IH m' e' Hwf' Hops Hx').
  destruct ev as [op caps|id c|data|flow|id ch|cl|id|r]; cbn [andb app] in *;
    try (destruct Hstep as [Hs1 Hs2]; [done|]; rewrite Hs1, Hs2 in IH;
         destruct IH as (k & -> & Hk & Hend); [lia|]; exists k; done).
  - case_decide as Hid.
    + rewrite bool_decide_true by done. destruct Hstep as [Hs1 Hs2]. rewrite Hs1 in IH.
      destruct IH as (k & -> & Hk & Hend); [lia|]. exists k. split_and!; [done|lia|].
      intros e1 [-> ?]%Hend. split; [done|lia].
    + rewrite bool_decide_false by done. subst e'. destruct IH as (k & -> & Hk & Hend); [lia|].
      by exists k.
  - case_decide as Hid.
    + rewrite bool_decide_true by done. destruct Hstep as (-> & Hc & Hs1 & Hs2).
      rewrite u64_wrap_small in Hs1 by (unfold u64_fits; lia). rewrite Hs1, Hs2 in IH.
      destruct IH as (k & -> & Hk & Hend); [lia|]. exists (S k). rewrite count_from_S.
      split_and!; [done|lia|]. intros e1 [-> ?]%Hend. lia.
    + rewrite bool_decide_false by done. subst e'. destruct IH as (k & -> & Hk & Hend); [lia|].
      by exists k.
Qed.

(** ** Round-robin scheduling *)

(** [n] scheduling passes: each feeds back the stream it selected. *)
Fixpoint visits (m : StreamMux) (n : nat) (after : option string) : list string :=
  match n with
  | 0 => []
  | S n =>
      match next_sendable_after m after with
      | Some s => s :: visits m n (Some s)
      | None => []
      end
  end.

Definition past (after : option string) (s : string) : bool :=
  match after with None => true | Some a => bool_decide (ord_lt a s) end.

Lemma next_sendable_past m after :
  next_sendable_after m after =
  match head (List.filter (past after) (sendable_streams_list m)) with
  | Some s => Some s
  | None => head (sendable_streams_list m)
  end.
Proof.
  destruct after as [a|]; [done|]. simpl.
  assert (forall l : list string, List.filter (past None) l = l) as ->.
  { induction l as [|x l IH]; simpl; congruence. }
  by destruct (sendable_streams_list m).
Qed.

(** In a strictly increasing list the elements past one are the rest. *)
Lemma filter_past_sorted (l1 l2 : list string) x :
  StronglySorted ord_lt (l1 ++ x :: l2) -> List.filter (past (Some x)) (l1 ++ x :: l2) = l2.
Proof.
  induction l1 as [|y l1 IH]; simpl; intros Hs; inversion Hs as [|? ? Hs' Hall]; subst.
  - rewrite bool_decide_false by apply ord_lt_irrefl. clear -Hall.
    induction Hall as [|z l2 Hz _ IH]; simpl; [done|]. rewrite bool_decide_true by done.
    by f_equal.
  - rewrite bool_decide_false; [by apply IH|]. intros Hxy.
    rewrite Forall_forall in Hall. apply (ord_lt_irrefl x).
    apply (ord_lt_trans x y x Hxy), Hall. set_solver.
Qed.

Lemma visits_prefix m after l1 l2 k :
  sendable_streams_list m = l1 ++ l2 -> List.filter (past after) (l1 ++ l2) = l2 ->
  k <= length l2 -> visits m k after = take k l2.
Proof.
  revert after l1 l2. induction k as [|k IH]; intros after l1 l2 Hl Hf Hk; [done|].
  destruct l2 as [|x l2]; simpl in *; [lia|]. rewrite next_sendable_past, Hl, Hf. simpl.
  f_equal. apply (IH (Some x) (l1 ++ [x])); [by rewrite <- app_assoc| |lia].
  rewrite <- app_assoc. apply filter_past_sorted. rewrite <- Hl. apply btree_iter_sorted.
Qed.

Lemma visits_wrap m after n :
  List.filter (past after) (sendable_streams_list m) = [] ->
  visits m n after = visits m n None.
Proof.
  intros Hf. destruct n; [done|]. simpl. by rewrite next_sendable_past, Hf.
Qed.

Lemma visits_rotation m l1 x l2 :
  sendable_streams_list m = l1 ++ x :: l2 ->
  visits m (length (l1 ++ x :: l2)) (Some x) = l2 ++ l1 ++ [x].
Proof.
  intros Hl. assert (Hs : StronglySorted ord_lt (l1 ++ x :: l2)).
  { rewrite <- Hl. apply btree_iter_sorted. }
  assert (Hrest : forall k, visits m (length l2 + k) (Some x) = l2 ++ visits m k None).
  { intros k. enough (forall l0 y l, sendable_streams_list m = l0 ++ y :: l ->
      visits m (length l + k) (Some y) = l ++ visits m k None) as H by eauto.
    intros l0 y l. revert l0 y. induction l as [|z l IH]; intros l0 y Hy.
    - apply visits_wrap. rewrite Hy. apply filter_past_sorted.
      rewrite <- Hy. apply btree_iter_sorted.
    - cbn [visits length Nat.add app].
      rewrite next_sendable_past, Hy, filter_past_sorted; [|rewrite <- Hy; apply btree_iter_sorted].
      simpl. f_equal. apply (IH (l0 ++ [y])). by rewrite <- app_assoc. }
  replace (length (l1 ++ x :: l2)) with (length l2 + S (length l1))
    by (rewrite length_app; simpl; lia).
  rewrite Hrest. f_equal. rewrite (visits_prefix m None [] (l1 ++ x :: l2)).
  - rewrite cons_middle, app_assoc. apply take_app_length'. rewrite length_app. simpl. lia.
  - done.
  - simpl. clear. induction (l1 ++ x :: l2) as [|y l IH]; simpl; congruence.
  - rewrite length_app. simpl. lia.
Qed.

(** ** What the multiplexer guarantees *)

Lemma transition_caps m ev m' :
  transition m ev m' -> max_open m' = max_open m /\ max_closed m' = max_closed m.
Proof.
  destruct 1; try done; apply close_open_sets.
Qed.

Lemma apply_all_caps evs m :
  max_open (apply_all evs m) = max_open m /\ max_closed (apply_all evs m) = max_closed m.
Proof.
  revert m. induction evs as [|ev evs IH]; intros m; [done|].
  unfold apply_all. simpl. fold (apply_all evs (apply ev m).2).
  destruct (IH (apply ev m).2) as [-> ->].
  destruct (apply_cases ev m) as [->|(m' & -> & Ht)]; [done|]. by apply transition_caps in Ht.
Qed.

Lemma wf_size m : wf m -> size (streams m) <= max_open m + max_closed m.
Proof.
  intros Hwf. rewrite <- size_dom.
  assert (dom (streams m) ⊆ open_streams m ∪ list_to_set (closed_order m)) as Hsub.
  { intros x [e He]%elem_of_dom. rewrite elem_of_union, elem_of_list_to_set.
    rewrite (wf_open _ Hwf), (wf_closed _ Hwf). unfold entry_at, Open, Closed.
    destruct (state e) eqn:Hs; eauto. }
  apply subseteq_size in Hsub. rewrite size_union_alt in Hsub.
  assert (size (list_to_set (closed_order m) ∖ open_streams m : gset string)
          <= length (closed_order m)).
  { rewrite <- (size_list_to_set (C := gset string)) by apply Hwf.
    apply subseteq_size. set_solver. }
  pose proof (wf_open_cap _ Hwf). pose proof (wf_closed_cap _ Hwf). lia.
Qed.

(** C1. Whatever calls a session makes, in whatever order and with whatever
    arguments, the multiplexer stays well-formed: [open_streams] and
    [sendable_streams] index exactly the open streams and those with credit,
    the closed queue lists every retained closed stream once, counters fit in
    [u64], and the table never outgrows the two caps. *)
Theorem reachable_wf (max_open_ max_closed_ : nat) (evs : list event) :
  let m := apply_all evs (with_limits max_open_ max_closed_) in
  wf m /\ size (streams m) <= max max_open_ 1 + max max_closed_ 1.
Proof.
  simpl. assert (Hwf : wf (apply_all evs (with_limits max_open_ max_closed_)))
    by apply apply_all_wf, with_limits_wf.
  split; [done|]. pose proof (wf_size _ Hwf) as Hsz.
  destruct (apply_all_caps evs (with_limits max_open_ max_closed_)) as [Hmo Hmc].
  by rewrite Hmo, Hmc in Hsz.
Qed.

(** C30. A peer can neither reorder, repeat nor skip data, nor send more than
    it was granted: on a stream that is open and not reopened, the accepted
    frames carry consecutive sequence numbers from the expected one, and
    their number plus the credit left never exceeds the credit held at the
    start plus the credit granted since. *)
Theorem inbound_discipline (x : string) (evs : list event) (m : StreamMux) (e : StreamEntry) :
  wf m -> forallb (fun ev => negb (opens x ev)) evs = true -> open_at m x = Some e ->
  (expected_seq e + N.of_nat (length evs) <= u64_max)%N ->
  exists k, delivered x evs m = count_from (expected_seq e) k /\
    (N.of_nat k <= recv_credit e + granted x evs m)%N /\
    (forall e', open_at (apply_all evs m) x = Some e' ->
       expected_seq e' = (expected_seq e + N.of_nat k)%N /\
       (recv_credit e' + N.of_nat k <= recv_credit e + granted x evs m)%N).
Proof. apply inbound_run. Qed.

(** Streams do not interfere: an accepted call acts on the stream it names
    as that stream's own machine [open_effect] says, and leaves every other
    open stream as it was. *)
Theorem stream_isolation (m : StreamMux) (ev : event) (m' : StreamMux) (x : string) :
  wf m -> transition m ev m' -> open_at m' x = open_effect ev x (open_at m x).
Proof. apply transition_open_at. Qed.

(** [next_sendable_after] is a fair round robin: fed back its own answers,
    it visits every sendable stream once, in cyclic order, before it returns
    to the stream it started after. *)
Theorem round_robin_fair (m : StreamMux) (l1 l2 : list string) (x : string) :
  sendable_streams_list m = l1 ++ x :: l2 ->
  visits m (size (sendable_streams m)) (Some x) = l2 ++ l1 ++ [x].
Proof.
  intros Hl. rewrite <- length_btree_iter. fold (sendable_streams_list m). rewrite Hl.
  by apply visits_rotation.
Qed.

(** *** Witnesses *)

Definition demo_open (id : string) (k : StreamKind) : StreamOpen :=
  mkStreamOpen (mkStreamDescriptor id k) "op-1"
    (StreamAuthz_for_kind "alice" [] k).

Definition demo_caps (k : StreamKind) : CapabilitySet :=
  CapabilitySet_from_caps [StreamKind_required_capability k].

Definition demo_data (id : string) (seq : N) : StreamData :=
  mkStreamData id seq StreamChannel_Primary None [].

Definition demo_mux : StreamMux :=
  apply_all [EvOpen (demo_open "s1" StreamKind_Logs) (demo_caps StreamKind_Logs);
             EvOpen (demo_open "s2" StreamKind_Logs) (demo_caps StreamKind_Logs);
             EvFlow (mkStreamFlow "s1" 1); EvFlow (mkStreamFlow "s2" 2)]
    (with_limits 4 4).

Definition demo_entry : StreamEntry :=
  mkStreamEntry StreamKind_Logs "op-1" StreamState_Open None 0 0 0 1.

Definition demo_evs : list event :=
  [EvGrant "s1" 1; EvData (demo_data "s1" 0); EvData (demo_data "s1" 1)].

Lemma demo_mux_wf : wf demo_mux.
Proof. apply apply_all_wf, with_limits_wf. Qed.

Lemma inbound_discipline_witness :
  delivered "s1" demo_evs demo_mux = [0%N] /\
  exists k, delivered "s1" demo_evs demo_mux = count_from 0 k /\
    (N.of_nat k <= 0 + granted "s1" demo_evs demo_mux)%N.
Proof.
  split; [vm_compute; reflexivity|].
  destruct (inbound_discipline "s1" demo_evs demo_mux demo_entry) as (k & Hk & Hc & _).
  - exact demo_mux_wf.
  - vm_compute; reflexivity.
  - vm_compute; reflexivity.
  - vm_compute. discriminate.
  - exists k. split; assumption.
Defined.

Lemma stream_isolation_witness :
  open_at (apply (EvCancel "s2") demo_mux).2 "s1" = Some demo_entry.
Proof.
  rewrite (stream_isolation demo_mux (EvCancel "s2") (apply (EvCancel "s2") demo_mux).2 "s1"
             demo_mux_wf).
  - vm_compute; reflexivity.
  - destruct (apply_cases (EvCancel "s2") demo_mux) as [Hap|(m' & Hap & Ht)].
    + exfalso. vm_compute in Hap. discriminate.
    + rewrite Hap. exact Ht.
Defined.

Lemma round_robin_fair_witness : visits demo_mux 2 (Some "s1") = ["s2"; "s1"].
Proof.
  exact (round_robin_fair demo_mux [] ["s2"] "s1" (ltac:(vm_compute; reflexivity))).
Defined.

End StreamMux.

(** ** Two endpoints and the credit protocol

    [a] sends on stream [x] and [b] receives; [data] and [flows] are the
    frames in flight, oldest first, on the two ordered directions of one
    session.  Either endpoint may do anything to its other streams. *)
Module Link.
Import StreamMux.

Record link := mkLink {
  a : StreamMux; b : StreamMux; data : list StreamData; flows : list StreamFlow
}.

Definition touches (x : string) (ev : event) : bool :=
  bool_decide (x = match ev with
                   | EvOpen op _ => descriptor_id (open_descriptor op)
                   | EvGrant id _ | EvReserve id _ | EvCancel id => id
                   | EvData d => data_stream d
                   | EvFlow f => flow_stream f
                   | EvClose cl => close_stream_id cl
                   | EvResume r => resume_stream_id r
                   end).

Inductive step (x : string) : link -> link -> Prop :=
| step_send l ch payload seq a' :
    reserve_send x ch (a l) = (Ok seq, a') ->
    step x l (mkLink a' (b l) (data l ++ [mkStreamData x seq ch None payload]) (flows l))
| step_deliver l d rest r b' :
    data l = d :: rest -> accept_data d (b l) = (r, b') ->
    step x l (mkLink (a l) b' rest (flows l))
| step_grant l c flow b' :
    (forall e, open_at (b l) x = Some e -> (recv_credit e + c <= u64_max)%N) ->
    grant_inbound x c (b l) = (Ok flow, b') ->
    step x l (mkLink (a l) b' (data l) (flows l ++ [flow]))
| step_flow l f rest r a' :
    flows l = f :: rest -> receive_flow f (a l) = (r, a') ->
    step x l (mkLink a' (b l) (data l) rest)
| step_a_other l ev :
    touches x ev = false -> step x l (mkLink (apply ev (a l)).2 (b l) (data l) (flows l))
| step_b_other l ev :
    touches x ev = false -> step x l (mkLink (a l) (apply ev (b l)).2 (data l) (flows l)).

Definition seqs_from (n : N) (k : nat) : list N := (fun i => u64_wrap (n + N.of_nat i)) <$> seq 0 k.

Definition in_flight_credit (fs : list StreamFlow) : N :=
  foldr (fun f acc => flow_credits f + acc)%N 0%N fs.

Record inv (x : string) (l : link) (ea eb : StreamEntry) : Prop := {
  inv_wf_a : wf (a l);
  inv_wf_b : wf (b l);
  inv_a : open_at (a l) x = Some ea;
  inv_b : open_at (b l) x = Some eb;
  inv_kind : kind ea = kind eb;
  inv_seqs : map data_sequence (data l) = seqs_from (expected_seq eb) (length (data l));
  inv_next : next_send_seq ea = u64_wrap (expected_seq eb + N.of_nat (length (data l)));
  inv_data : Forall (fun d => data_stream d = x /\ data_cursor d = None /\
                       channel_valid_for_kind (kind eb) (data_channel d) = true) (data l);
  inv_flows : Forall (fun f => flow_stream f = x /\ flow_credits f <> 0%N) (flows l);
  inv_credit : recv_credit eb =
    (send_credit ea + N.of_nat (length (data l)) + in_flight_credit (flows l))%N
}.

Lemma u64_wrap_add n k : u64_wrap (u64_wrap n + k) = u64_wrap (n + k).
Proof. unfold u64_wrap. by rewrite N.Div0.add_mod_idemp_l. Qed.

Lemma seqs_from_S n k : seqs_from n (S k) = u64_wrap n :: seqs_from (u64_wrap (n + 1)) k.
Proof.
  unfold seqs_from. simpl. rewrite N.add_0_r. f_equal.
  rewrite <- fmap_S_seq, <- list_fmap_compose. apply list_fmap_ext. intros i j _. simpl.
  rewrite u64_wrap_add. f_equal. lia.
Qed.

Lemma seqs_from_snoc n k : seqs_from n (S k) = seqs_from n k ++ [u64_wrap (n + N.of_nat k)].
Proof. unfold seqs_from. rewrite seq_S, fmap_app. done. Qed.

Lemma in_flight_credit_snoc fs f :
  in_flight_credit (fs ++ [f]) = (in_flight_credit fs + flow_credits f)%N.
Proof. induction fs as [|g fs IH]; simpl; [lia|]. rewrite IH. lia. Qed.

Lemma run_transition {A} (h : handler StreamMux ConstellationError A) ev m v m' :
  apply ev m = (let '(r, m'') := h m in (is_ok r, m'')) -> h m = (Ok v, m') ->
  transition m ev m'.
Proof.
  intros Hap Hh. rewrite Hh in Hap. destruct (apply_cases ev m) as [?|(m1 & Hap' & Ht)];
    simpl in *; congruence.
Qed.

Lemma apply_run {A} (h : handler StreamMux ConstellationError A) ev m m' :
  apply ev m = (let '(r, m'') := h m in (is_ok r, m'')) -> transition m ev m' ->
  exists v, h m = (Ok v, m').
Proof.
  intros Hap Ht. apply transition_apply in Ht. rewrite Ht in Hap.
  destruct (h m) as [[v|err] m1]; simpl in *; [|done]. exists v. congruence.
Qed.

Lemma reserve_send_seq x ch m seq m' :
  reserve_send x ch m = (Ok seq, m') ->
  exists e, open_at m x = Some e /\ seq = next_send_seq e /\ send_credit e <> 0%N /\
    channel_valid_for_kind (kind e) ch = true.
Proof.
  unfold reserve_send, open_entry_mut. unfold_handler.
  destruct (open_entry_cases x m) as [(err & Hoe)|(e & Hoe & He)]; rewrite ?Hoe; simpl; [done|].
  destruct (channel_valid_for_kind _ _) eqn:Hch; simpl; [|done]. rewrite ?Hoe. simpl.
  case_bool_decide; simpl; [done|]. intros Heq. exists e. rewrite open_at_some.
  split_and!; try done; try apply He. by case_bool_decide; simplify_eq/=.
Qed.

Lemma grant_inbound_flow x c m flow m' :
  grant_inbound x c m = (Ok flow, m') -> flow = mkStreamFlow x c /\ c <> 0%N.
Proof.
  unfold grant_inbound, open_entry_mut. unfold_handler. case_bool_decide; simpl; [done|].
  destruct (open_entry_cases x m) as [(err & Hoe)|(e & Hoe & He)]; rewrite ?Hoe; simpl; [done|].
  by intros [= <- <-].
Qed.

Lemma touches_effect x ev o : touches x ev = false -> open_effect ev x o = o.
Proof.
  unfold touches. rewrite bool_decide_eq_false. intros Hne.
  by destruct ev; simpl in *; try (rewrite decide_False by done).
Qed.

Lemma other_open_at x ev m :
  wf m -> touches x ev = false -> open_at (apply ev m).2 x = open_at m x.
Proof.
  intros Hwf Ht. destruct (apply_cases ev m) as [->|(m' & -> & Htr)]; [done|]. simpl.
  by rewrite (transition_open_at m ev m' x), touches_effect.
Qed.

(** The oldest frames in flight are always accepted. *)
Lemma deliver_accepted x l ea eb d rest :
  inv x l ea eb -> data l = d :: rest ->
  exists b', accept_data d (b l) = (Ok tt, b') /\ transition (b l) (EvData d) b'.
Proof.
  intros [Hwa Hwb Ha Hb Hk Hs Hn Hd Hf Hc] Hdata. rewrite Hdata in *. simpl in *.
  rewrite seqs_from_S in Hs. injection Hs as Hs _. apply Forall_cons in Hd as [(Hx & Hcur & Hch) _].
  apply open_at_some in Hb as [He Ho]. rewrite <- Hx in He.
  assert (transition (b l) (EvData d)
    (put_entry (data_stream d) (with_recv eb (u64_wrap (expected_seq eb + 1)) (recv_credit eb - 1))
       (b l))) as Ht.
  { apply tr_data; try done; [|..|lia].
    - rewrite Hcur. by intros [? ?].
    - rewrite Hs. apply u64_wrap_small. by apply (wf_entries _ Hwb _ _ He). }
  destruct (apply_run (accept_data d) (EvData d) (b l) _ eq_refl Ht) as [[] Hrun]. eauto.
Qed.

Lemma flow_accepted x l ea eb f rest :
  inv x l ea eb -> flows l = f :: rest ->
  exists a', receive_flow f (a l) = (Ok tt, a') /\ transition (a l) (EvFlow f) a'.
Proof.
  intros [Hwa Hwb Ha Hb Hk Hs Hn Hd Hf Hc] Hflows. rewrite Hflows in *.
  apply Forall_cons in Hf as [[Hx Hnz] _]. apply open_at_some in Ha as [He Ho].
  rewrite <- Hx in He. pose proof (tr_flow (a l) f ea Hnz He Ho) as Ht.
  destruct (apply_run (receive_flow f) (EvFlow f) (a l) _ eq_refl Ht) as [[] Hrun]. eauto.
Qed.

Lemma inv_send x l ea eb ch payload seq a' :
  inv x l ea eb -> reserve_send x ch (a l) = (Ok seq, a') ->
  inv x (mkLink a' (b l) (data l ++ [mkStreamData x seq ch None payload]) (flows l))
    (with_send ea (u64_wrap (next_send_seq ea + 1)) (send_credit ea - 1)) eb.
Proof.
  intros [Hwa Hwb Ha Hb Hk Hs Hn Hd Hf Hc] Hr.
  destruct (reserve_send_seq _ _ _ _ _ Hr) as (e & He & -> & Hnz & Hch).
  rewrite Ha in He. injection He as <-.
  pose proof (run_transition (reserve_send x ch) (EvReserve x ch) (a l) _ _ eq_refl Hr) as Ht.
  split; simpl; try done.
  - by apply (transition_wf (a l) (EvReserve x ch)).
  - rewrite (transition_open_at _ _ _ x Hwa Ht), Ha. simpl. by rewrite decide_True.
  - rewrite map_app, length_app, Hs. simpl. rewrite Nat.add_1_r, seqs_from_snoc. by rewrite Hn.
  - rewrite Hn, u64_wrap_add, length_app. simpl. f_equal. lia.
  - apply Forall_app. split; [done|]. apply Forall_singleton. simpl. by rewrite <- Hk.
  - rewrite length_app. simpl. lia.
Qed.

Lemma inv_deliver x l ea eb d rest b' :
  inv x l ea eb -> data l = d :: rest -> transition (b l) (EvData d) b' ->
  inv x (mkLink (a l) b' rest (flows l)) ea
    (with_recv eb (u64_wrap (expected_seq eb + 1)) (recv_credit eb - 1)).
Proof.
  intros [Hwa Hwb Ha Hb Hk Hs Hn Hd Hf Hc] Hdata Ht. rewrite Hdata in *. simpl in *.
  apply Forall_cons in Hd as [(Hx & _) Hd]. rewrite seqs_from_S in Hs. injection Hs as _ Hs.
  split; simpl; try done.
  - by apply (transition_wf (b l) (EvData d)).
  - rewrite (transition_open_at _ _ _ x Hwb Ht), Hb. simpl. by rewrite decide_True.
  - rewrite Hn, u64_wrap_add. f_equal. lia.
  - lia.
Qed.

Lemma inv_grant x l ea eb c flow b' :
  inv x l ea eb -> (recv_credit eb + c <= u64_max)%N ->
  grant_inbound x c (b l) = (Ok flow, b') ->
  inv x (mkLink (a l) b' (data l) (flows l ++ [flow])) ea
    (with_recv eb (expected_seq eb) (u64_saturating_add (recv_credit eb) c)).
Proof.
  intros [Hwa Hwb Ha Hb Hk Hs Hn Hd Hf Hc] Hcap Hg.
  destruct (grant_inbound_flow _ _ _ _ _ Hg) as [-> Hnz].
  pose proof (run_transition (grant_inbound x c) (EvGrant x c) (b l) _ _ eq_refl Hg) as Ht.
  split; simpl; try done.
  - by apply (transition_wf (b l) (EvGrant x c)).
  - rewrite (transition_open_at _ _ _ x Hwb Ht), Hb. simpl. by rewrite decide_True.
  - apply Forall_app. split; [done|]. by apply Forall_singleton.
  - rewrite in_flight_credit_snoc. simpl. rewrite u64_saturating_add_small by done. lia.
Qed.

Lemma inv_flow x l ea eb f rest a' :
  inv x l ea eb -> flows l = f :: rest -> transition (a l) (EvFlow f) a' ->
  inv x (mkLink a' (b l) (data l) rest)
    (with_send ea (next_send_seq ea) (u64_saturating_add (send_credit ea) (flow_credits f))) eb.
Proof.
  intros [Hwa Hwb Ha Hb Hk Hs Hn Hd Hf Hc] Hflows Ht. rewrite Hflows in *. simpl in *.
  apply Forall_cons in Hf as [[Hx Hnz] Hf]. pose proof (proj1 (open_at_some _ _ _) Hb) as [Heb _].
  pose proof (ew_recv _ (wf_entries _ Hwb _ _ Heb)) as Hfit.
  split; simpl; try done.
  - by apply (transition_wf (a l) (EvFlow f)).
  - rewrite (transition_open_at _ _ _ x Hwa Ht), Ha. simpl. by rewrite decide_True.
  - rewrite u64_saturating_add_small by (unfold u64_fits in *; lia). lia.
Qed.

Lemma inv_step x l l' :
  (exists ea eb, inv x l ea eb) -> step x l l' -> exists ea eb, inv x l' ea eb.
Proof.
  intros (ea & eb & Hinv) Hstep.
  destruct Hstep as [l ch payload seq a' Hr|l d rest r b' Hdata Hacc|l c flow b' Hcap Hg
    |l f rest r a' Hflows Hrf|l ev Ht|l ev Ht].
  - eexists _, _. by eapply inv_send.
  - destruct (deliver_accepted _ _ _ _ _ _ Hinv Hdata) as (b1 & Hacc' & Ht).
    rewrite Hacc in Hacc'. injection Hacc' as -> ->. eexists _, _. by eapply inv_deliver.
  - eexists _, _. eapply inv_grant; [done| |done]. apply Hcap, Hinv.
  - destruct (flow_accepted _ _ _ _ _ _ Hinv Hflows) as (a1 & Hrf' & Ht).
    rewrite Hrf in Hrf'. injection Hrf' as -> ->. eexists _, _. by eapply inv_flow.
  - exists ea, eb. destruct Hinv. split; simpl; try done; [by apply apply_wf|].
    by rewrite other_open_at.
  - exists ea, eb. destruct Hinv. split; simpl; try done; [by apply apply_wf|].
    by rewrite other_open_at.
Qed.

(** Both ends have just accepted the same open. *)
Definition connected (op : StreamOpen) (l : link) : Prop :=
  exists caps_a caps_b a0 b0, wf a0 /\ wf b0 /\
    apply (EvOpen op caps_a) a0 = (true, a l) /\ apply (EvOpen op caps_b) b0 = (true, b l) /\
    data l = [] /\ flows l = [].

Lemma opened_at op caps m m' :
  wf m -> apply (EvOpen op caps) m = (true, m') ->
  wf m' /\ open_at m' (descriptor_id (open_descriptor op)) = Some (fresh_entry op).
Proof.
  intros Hwf Hap. destruct (apply_cases (EvOpen op caps) m) as [?|(m1 & Hap1 & Ht)]; [congruence|].
  rewrite Hap in Hap1. injection Hap1 as <-. split; [by eapply transition_wf|].
  rewrite (transition_open_at _ _ _ _ Hwf Ht). simpl. by rewrite decide_True.
Qed.

Lemma connected_inv op l :
  connected op l ->
  inv (descriptor_id (open_descriptor op)) l (fresh_entry op) (fresh_entry op).
Proof.
  intros (ca & cb & a0 & b0 & Hwa & Hwb & Ha & Hb & Hd & Hf).
  destruct (opened_at _ _ _ _ Hwa Ha) as [Hwa' Ha'].
  destruct (opened_at _ _ _ _ Hwb Hb) as [Hwb' Hb'].
  split; rewrite ?Hd, ?Hf; simpl; try done; constructor.
Qed.

Lemma reachable_inv op l0 l :
  connected op l0 -> rtc (step (descriptor_id (open_descriptor op))) l0 l ->
  exists ea eb, inv (descriptor_id (open_descriptor op)) l ea eb.
Proof.
  intros Hc Hr. assert (exists ea eb, inv (descriptor_id (open_descriptor op)) l0 ea eb) as Hinv
    by eauto using connected_inv.
  clear Hc. induction Hr as [|l1 l2 l3 Hs _ IH]; eauto using inv_step.
Qed.

(** C19. The credit protocol is sound: once both ends have accepted the same
    open, over any interleaving of sends, deliveries, grants (whose total the
    receiver's counter can hold), flow frames and activity on other streams,
    the oldest data frame in flight is accepted by the receiver, the oldest
    flow frame is accepted by the sender, and the receiver's credit is the
    sender's plus what is in flight both ways. *)
Theorem honest_sender_accepted (op : StreamOpen) (l0 l : link) :
  connected op l0 -> rtc (step (descriptor_id (open_descriptor op))) l0 l ->
  (forall d rest, data l = d :: rest -> exists b', accept_data d (b l) = (Ok tt, b')) /\
  (forall f rest, flows l = f :: rest -> exists a', receive_flow f (a l) = (Ok tt, a')) /\
  exists ea eb, open_at (a l) (descriptor_id (open_descriptor op)) = Some ea /\
    open_at (b l) (descriptor_id (open_descriptor op)) = Some eb /\
    recv_credit eb =
      (send_credit ea + N.of_nat (length (data l)) + in_flight_credit (flows l))%N.
Proof.
  intros Hc Hr. destruct (reachable_inv _ _ _ Hc Hr) as (ea & eb & Hinv). split_and!.
  - intros d rest Hd. destruct (deliver_accepted _ _ _ _ _ _ Hinv Hd) as (b' & ? & _). eauto.
  - intros f rest Hf. destruct (flow_accepted _ _ _ _ _ _ Hinv Hf) as (a' & ? & _). eauto.
  - exists ea, eb. split_and!; apply Hinv.
Qed.

Definition demo_end : StreamMux :=
  (apply (EvOpen (demo_open "s1" StreamKind_Logs) (demo_caps StreamKind_Logs))
     (with_limits 4 4)).2.

Definition demo_receiver : StreamMux := (grant_inbound "s1" 3 demo_end).2.
Definition demo_funded : StreamMux := (receive_flow (mkStreamFlow "s1" 3) demo_end).2.
Definition demo_sender : StreamMux := (reserve_send "s1" StreamChannel_Primary demo_funded).2.

(** A grant that reaches the sender, and one frame sent on it. *)
Lemma grant_flow_send x ch c a0 a1 a2 b0 b1 :
  (forall e, open_at b0 x = Some e -> (recv_credit e + c <= u64_max)%N) ->
  grant_inbound x c b0 = (Ok (mkStreamFlow x c), b1) ->
  receive_flow (mkStreamFlow x c) a0 = (Ok tt, a1) ->
  reserve_send x ch a1 = (Ok 0%N, a2) ->
  rtc (step x) (mkLink a0 b0 [] []) (mkLink a2 b1 [mkStreamData x 0 ch None []] []).
Proof.
  intros Hcap Hg Hf Hs.
  eapply rtc_l; [by apply (step_grant x (mkLink a0 b0 [] []) c)|].
  eapply rtc_l; [by eapply (step_flow x (mkLink a0 b1 [] [mkStreamFlow x c]))|].
  apply rtc_once. by apply (step_send x (mkLink a1 b1 [] []) ch [] 0%N).
Qed.

Lemma honest_sender_accepted_witness :
  exists b', accept_data (demo_data "s1" 0) demo_receiver = (Ok tt, b').
Proof.
  destruct (honest_sender_accepted (demo_open "s1" StreamKind_Logs)
              (mkLink demo_end demo_end [] [])
              (mkLink demo_sender demo_receiver [demo_data "s1" 0] [])) as (Hd & _ & _).
  - exists (demo_caps StreamKind_Logs), (demo_caps StreamKind_Logs),
      (with_limits 4 4), (with_limits 4 4).
    split; [apply with_limits_wf|]. split; [apply with_limits_wf|].
    split_and!; vm_compute; reflexivity.
  - apply (grant_flow_send "s1" StreamChannel_Primary 3 demo_end demo_funded).
    + intros e He. vm_compute in He. injection He as <-. vm_compute. discriminate.
    + vm_compute; reflexivity.
    + vm_compute; reflexivity.
    + vm_compute; reflexivity.
  - apply (Hd (demo_data "s1" 0) []). reflexivity.
Defined.

End Link.
