(* ===== verification/MuxBook.v ===== *)
(** * What the stream multiplexer promises

    An account of a session's streams without the multiplexer's indexes: the
    live streams with their four counters, and the ended ones that are still
    remembered, oldest first ([Record book]).  [promise] says what each call
    answers, errors included, and what it does to the book.  [mux_keeps_book]
    is the refinement: after any calls the multiplexer has answered as the
    book does, and every question about its streams has the book's answer. *)

From S2P Require Import Prelude Ids Streams Frame Mux.
Import StreamMux.

Module Book.

(** A live stream: the next sequence number and the credit, inbound and
    outbound. *)
Record channel := mkChannel {
  ch_kind : StreamKind;
  ch_operation : string;
  in_next : N;
  in_credit : N;
  out_next : N;
  out_credit : N
}.

Record ended := mkEnded {
  en_stream : string;
  en_kind : StreamKind;
  en_operation : string;
  en_reason : StreamCloseReason
}.

Record book := mkBook { lives : gmap string channel; graves : list ended }.

Definition empty_book : book := mkBook ∅ [].

Inductive standing := Unknown | Live (c : channel) | Ended (g : ended).

Definition grave_of (b : book) (id : string) : option ended :=
  find (fun g => bool_decide (en_stream g = id)) (graves b).

Definition standing_of (b : book) (id : string) : standing :=
  match lives b !! id with
  | Some c => Live c
  | None => match grave_of b id with Some g => Ended g | None => Unknown end
  end.

Inductive reply :=
| Done
| Granted (flow : StreamFlow)
| Reserved (sequence : N)
| Cancelled_now (was_open : bool).

Section promise.
Variables (open_cap grave_cap : nat).

Definition refusal (kind : ErrorKind) (message : string) (b : book) :
    result reply ConstellationError * book :=
  (Err (ConstellationError_new kind message), b).

Definition keep (id : string) (c : channel) (b : book) : book :=
  mkBook (<[id := c]> (lives b)) (graves b).

(** The stream ends; only the last [grave_cap] ended ones are remembered. *)
Definition bury (id : string) (c : channel) (reason : StreamCloseReason) (b : book) : book :=
  let remembered := graves b ++ [mkEnded id (ch_kind c) (ch_operation c) reason] in
  mkBook (delete id (lives b)) (drop (length remembered - grave_cap) remembered).

Definition on_live (id : string)
    (k : channel -> result reply ConstellationError * book) (b : book) :
    result reply ConstellationError * book :=
  match standing_of b id with
  | Live c => k c
  | Ended _ => refusal ErrorKind_Cancelled "stream is closed" b
  | Unknown => refusal ErrorKind_MalformedFrame "reference to an unknown stream" b
  end.

(** Credit stops at the largest 64-bit number; sequence numbers start over. *)
Definition more (credit n : N) : N := N.min (credit + n) (2 ^ 64 - 1).
Definition after (sequence : N) : N := ((sequence + 1) mod 2 ^ 64)%N.

(** A stdio stream carries stdout and stderr, any other its primary channel. *)
Definition carries (kind : StreamKind) (channel : StreamChannel) : bool :=
  if bool_decide (kind = StreamKind_Stdio)
  then negb (bool_decide (channel = StreamChannel_Primary))
  else bool_decide (channel = StreamChannel_Primary).

Definition promise (ev : event) (b : book) : result reply ConstellationError * book :=
  match ev with
  | EvOpen op caps =>
      let id := descriptor_id (open_descriptor op) in
      let needed := authz_capability (open_authz op) in
      if negb (StreamOpen_is_consistent op) then
        refusal ErrorKind_Unauthorized
          "stream open authz capability does not match the descriptor kind" b
      else if negb (CapabilitySet_has caps needed) then (Err (capability_denied needed), b)
      else match standing_of b id with
        | Unknown =>
            if size (lives b) <? open_cap then
              (Ok Done, keep id (mkChannel (descriptor_kind (open_descriptor op))
                                   (open_operation_id op) 0 0 0 0) b)
            else refusal ErrorKind_Backpressure "peer session exceeds the open-stream cap" b
        | _ => refusal ErrorKind_MalformedFrame "stream id is already open" b
        end
  | EvGrant id credits =>
      if (credits =? 0)%N then
        refusal ErrorKind_MalformedFrame "credit grant must be non-zero" b
      else on_live id (fun c =>
        (Ok (Granted (mkStreamFlow id credits)),
         keep id (mkChannel (ch_kind c) (ch_operation c) (in_next c) (more (in_credit c) credits)
                    (out_next c) (out_credit c)) b)) b
  | EvData data =>
      let id := data_stream data in
      on_live id (fun c =>
        if negb (carries (ch_kind c) (data_channel data)) then
          refusal ErrorKind_MalformedFrame "stream channel is not valid for the stream kind" b
        else if bool_decide (data_cursor data <> None)
                && negb (bool_decide (ch_kind c = StreamKind_Logs)) then
          refusal ErrorKind_MalformedFrame "only a logs stream may carry a resume cursor" b
        else if negb (data_sequence data =? in_next c)%N then
          refusal ErrorKind_MalformedFrame "stream data sequence is not the next expected value" b
        else if (in_credit c =? 0)%N then
          refusal ErrorKind_Backpressure "stream data exceeds granted credit" b
        else
          (Ok Done, keep id (mkChannel (ch_kind c) (ch_operation c) (after (in_next c))
                               (N.pred (in_credit c)) (out_next c) (out_credit c)) b)) b
  | EvFlow flow =>
      let id := flow_stream flow in
      if (flow_credits flow =? 0)%N then
        refusal ErrorKind_MalformedFrame "credit grant must be non-zero" b
      else on_live id (fun c =>
        (Ok Done, keep id (mkChannel (ch_kind c) (ch_operation c) (in_next c) (in_credit c)
                             (out_next c) (more (out_credit c) (flow_credits flow))) b)) b
  | EvReserve id channel =>
      on_live id (fun c =>
        if negb (carries (ch_kind c) channel) then
          refusal ErrorKind_MalformedFrame "stream channel is not valid for the stream kind" b
        else if (out_credit c =? 0)%N then
          refusal ErrorKind_Backpressure "no outbound credit remains on the stream" b
        else
          (Ok (Reserved (out_next c)),
           keep id (mkChannel (ch_kind c) (ch_operation c) (in_next c) (in_credit c)
                      (after (out_next c)) (N.pred (out_credit c))) b)) b
  | EvClose cl =>
      let id := close_stream_id cl in
      match standing_of b id with
      | Unknown => refusal ErrorKind_MalformedFrame "close of an unknown stream" b
      | Ended g =>
          if bool_decide (en_reason g = StreamCloseReason_Cancelled
                          /\ close_reason_of cl = StreamCloseReason_Cancelled)
          then (Ok Done, b)
          else refusal ErrorKind_MalformedFrame "stream is already closed" b
      | Live c => (Ok Done, bury id c (close_reason_of cl) b)
      end
  | EvCancel id =>
      match standing_of b id with
      | Live c => (Ok (Cancelled_now true), bury id c StreamCloseReason_Cancelled b)
      | _ => (Ok (Cancelled_now false), b)
      end
  | EvResume r =>
      match standing_of b (resume_stream_id r) with
      | Unknown => refusal ErrorKind_MalformedFrame "resume of an unknown stream" b
      | Live (mkChannel k _ _ _ _ _) | Ended (mkEnded _ k _ _) =>
          if bool_decide (k = StreamKind_Logs) then (Ok Done, b)
          else refusal ErrorKind_MalformedFrame "only logs streams support cursor resume" b
      end
  end.

Fixpoint promises (evs : list event) (b : book) :
    list (result reply ConstellationError) * book :=
  match evs with
  | [] => ([], b)
  | ev :: evs =>
      let '(r, b) := promise ev b in
      let '(rs, b) := promises evs b in
      (r :: rs, b)
  end.

End promise.

(** ** The multiplexer's answers *)

Definition answer (ev : event) (m : StreamMux) : result reply ConstellationError * StreamMux :=
  let as_reply {A} (f : A -> reply) (h : handler StreamMux ConstellationError A) :=
    let '(r, m') := h m in
    (match r with Ok a => Ok (f a) | Err e => Err e end, m') in
  match ev with
  | EvOpen op caps => as_reply (fun _ => Done) (open_with_capabilities op caps)
  | EvGrant id c => as_reply Granted (grant_inbound id c)
  | EvData data => as_reply (fun _ => Done) (accept_data data)
  | EvFlow flow => as_reply (fun _ => Done) (receive_flow flow)
  | EvReserve id ch => as_reply Reserved (reserve_send id ch)
  | EvClose cl => as_reply (fun _ => Done) (close cl)
  | EvCancel id => as_reply Cancelled_now (cancel id)
  | EvResume r => as_reply (fun _ => Done) (validate_resume r)
  end.

Fixpoint answers (evs : list event) (m : StreamMux) :
    list (result reply ConstellationError) * StreamMux :=
  match evs with
  | [] => ([], m)
  | ev :: evs =>
      let '(r, m) := answer ev m in
      let '(rs, m) := answers evs m in
      (r :: rs, m)
  end.

(** ** The book a multiplexer keeps *)

Definition channel_of (e : StreamEntry) : channel :=
  mkChannel (kind e) (operation_id e) (expected_seq e) (recv_credit e) (next_send_seq e)
    (send_credit e).

Definition live_view (e : StreamEntry) : option channel :=
  if bool_decide (state e = StreamState_Open) then Some (channel_of e) else None.

Definition dead_view (id : string) (e : StreamEntry) : option ended :=
  if bool_decide (state e = StreamState_Open) then None
  else mkEnded id (kind e) (operation_id e) <$> close_reason e.

(** The entry of every live stream is its channel, and the queue of closed
    streams, each with its entry, is the graves in order. *)
Record keeps (m : StreamMux) (b : book) : Prop := {
  ks_lives id : lives b !! id = streams m !! id ≫= live_view;
  ks_graves : Some <$> graves b = (fun id => streams m !! id ≫= dead_view id) <$> closed_order m
}.

Lemma keeps_empty a c : keeps (with_limits a c) empty_book.
Proof. split; [|done]. intros id. simpl. by rewrite !lookup_empty. Qed.

Lemma keeps_grave m b g :
  keeps m b -> g ∈ graves b ->
  en_stream g ∈ closed_order m /\ streams m !! en_stream g ≫= dead_view (en_stream g) = Some g.
Proof.
  intros [_ Hg] Hin. apply (list_elem_of_fmap_2 Some) in Hin. rewrite Hg in Hin.
  apply list_elem_of_fmap in Hin as (id & Hs & Hid).
  enough (en_stream g = id) as <- by done.
  destruct (streams m !! id) as [e|]; simplify_eq/=. unfold dead_view in Hs.
  case_bool_decide; [done|]. by destruct (close_reason e); simplify_eq/=.
Qed.

Lemma keeps_grave_of m b id :
  wf m -> keeps m b -> grave_of b id = streams m !! id ≫= dead_view id.
Proof.
  intros Hwf Hk. unfold grave_of. destruct (find _ _) as [g|] eqn:Hf.
  - apply find_some in Hf as [Hin <-%bool_decide_eq_true]. apply list_elem_of_In in Hin.
    by destruct (keeps_grave m b g Hk Hin).
  - destruct (streams m !! id) as [e|] eqn:He; [|done]. simpl. unfold dead_view.
    case_bool_decide as Ho; [done|].
    assert (id ∈ closed_order m) as Hid.
    { apply (wf_closed m Hwf). exists e. split; [done|]. by apply not_open_closed. }
    apply (list_elem_of_fmap_2 (fun id => streams m !! id ≫= dead_view id)) in Hid.
    rewrite <- (ks_graves m b Hk) in Hid. apply list_elem_of_fmap in Hid as (g & Hg & Hin).
    rewrite He in Hg. simpl in Hg. unfold dead_view in Hg. rewrite bool_decide_false in Hg by done.
    apply list_elem_of_In in Hin. pose proof (find_none _ _ Hf g Hin) as Hn.
    apply bool_decide_eq_false in Hn. destruct (close_reason e); simplify_eq/=.
Qed.

(** The table entry of a stream, read off the book. *)
Lemma keeps_standing m b id :
  wf m -> keeps m b ->
  match streams m !! id with
  | None => standing_of b id = Unknown
  | Some e =>
      if bool_decide (state e = StreamState_Open) then standing_of b id = Live (channel_of e)
      else exists r, close_reason e = Some r
           /\ standing_of b id = Ended (mkEnded id (kind e) (operation_id e) r)
  end.
Proof.
  intros Hwf Hk. unfold standing_of.
  rewrite (ks_lives m b Hk), (keeps_grave_of m b id Hwf Hk).
  destruct (streams m !! id) as [e|] eqn:He; [|done]. simpl. unfold live_view, dead_view.
  case_bool_decide as Ho; [done|]. pose proof (ew_reason _ (wf_entries _ Hwf _ _ He)) as Hr.
  destruct (close_reason e) as [r|]; [by exists r|]. by rewrite Hr in Ho.
Qed.

Lemma keeps_live m b id e :
  wf m -> keeps m b -> streams m !! id = Some e -> Open e -> standing_of b id = Live (channel_of e).
Proof.
  intros Hwf Hk He Ho. pose proof (keeps_standing m b id Hwf Hk) as H. rewrite He in H.
  by rewrite bool_decide_true in H.
Qed.

Lemma keeps_size m b : wf m -> keeps m b -> size (lives b) = size (open_streams m).
Proof.
  intros Hwf Hk. rewrite <- size_dom. f_equal. apply set_eq. intros id.
  rewrite elem_of_dom, (ks_lives m b Hk), (wf_open m Hwf). unfold entry_at, live_view, Open.
  destruct (streams m !! id) as [e|]; simpl; [case_bool_decide|]; naive_solver.
Qed.

(** An open stream gets another entry, or a new one its first. *)
Lemma keeps_put m b id e' S :
  wf m -> keeps m b -> id ∉ closed_order m -> Open e' ->
  keeps (set_sendable S (put_entry id e' m)) (keep id (channel_of e') b).
Proof.
  intros Hwf [Hl Hg] Hid Ho. split; simpl.
  - intros x. destruct (decide (x = id)) as [->|Hne].
    + rewrite !lookup_insert_eq. simpl. unfold live_view. by rewrite bool_decide_true.
    + by rewrite !lookup_insert_ne.
  - rewrite Hg. apply list_fmap_ext. intros i x Hx.
    rewrite lookup_insert_ne; [done|]. intros ->. by eapply Hid, list_elem_of_lookup_2.
Qed.

Lemma open_not_closed m id e : wf m -> streams m !! id = Some e -> Open e -> id ∉ closed_order m.
Proof.
  intros Hwf He Ho. rewrite (wf_closed m Hwf). unfold entry_at, Open, Closed in *.
  naive_solver congruence.
Qed.

Lemma keeps_bury m b id e r :
  wf m -> keeps m b -> streams m !! id = Some e -> Open e ->
  keeps (close_open id e r m) (bury (max_closed m) id (channel_of e) r b).
Proof.
  intros Hwf Hk He Ho. destruct (close_open_run m id e r Hwf He Ho) as (Hord & Hdrop & Hkept).
  pose proof (open_not_closed m id e Hwf He Ho) as Hid.
  assert (length (graves b) = length (closed_order m)) as Hlen.
  { pose proof (f_equal length (ks_graves m b Hk)) as H. by rewrite !length_fmap in H. }
  split.
  - intros x. simpl. apply option_eq. intros c. rewrite lookup_delete_Some, (ks_lives m b Hk).
    assert (forall m', streams m' !! x ≫= live_view = Some c <->
      exists e', (streams m' !! x = Some e' /\ Open e') /\ c = channel_of e') as Hv.
    { intros m'. unfold live_view, Open. destruct (streams m' !! x) as [e'|]; simpl;
        [case_bool_decide|]; naive_solver. }
    rewrite !Hv. setoid_rewrite (close_open_open m id e r Hwf He Ho x). naive_solver.
  - simpl. rewrite Hord, !length_app, Hlen. cbn [length].
    set (n := length (closed_order m) + 1 - max_closed m).
    assert ((fun x => streams (close_open id e r m) !! x ≫= dead_view x)
              <$> drop n (closed_order m ++ [id])
            = (fun x => <[id := closed_entry e r]> (streams m) !! x ≫= dead_view x)
              <$> drop n (closed_order m ++ [id])) as ->.
    { apply list_fmap_ext. intros i x Hx. rewrite Hkept; [done|].
      apply list_elem_of_lookup_2 in Hx.
      rewrite length_app. cbn [length]. fold n.
      by apply (take_drop_elem n) in Hx as [_ Hx]; [|apply (close_order_nodup m id e)]. }
    rewrite !fmap_drop, !fmap_app, (ks_graves m b Hk). f_equal. f_equal.
    + apply list_fmap_ext. intros i x Hx. rewrite lookup_insert_ne; [done|].
      intros ->. by eapply Hid, list_elem_of_lookup_2.
    + simpl. by rewrite lookup_insert_eq.
Qed.

(** ** Call by call *)

Lemma open_entry_live m b id k :
  wf m -> keeps m b ->
  match open_entry id m with
  | (Ok e, m') => m' = m /\ streams m !! id = Some e /\ Open e /\ on_live id k b = k (channel_of e)
  | (Err err, m') => m' = m /\ on_live id k b = (Err err, b)
  end.
Proof.
  intros Hwf Hk. pose proof (keeps_standing m b id Hwf Hk) as Hs. unfold open_entry, on_live.
  unfold_handler. destruct (streams m !! id) as [e|] eqn:He; [|by rewrite Hs].
  case_bool_decide as Ho; [by rewrite Hs|]. destruct Hs as (r & _ & ->). done.
Qed.

(** Both sides answer the same, and the book stays the multiplexer's. *)
Definition in_step (x : result reply ConstellationError * StreamMux)
    (y : result reply ConstellationError * book) : Prop :=
  x.1 = y.1 /\ keeps x.2 y.2.

Lemma carries_valid k ch : channel_valid_for_kind k ch = carries k ch.
Proof. by destruct k, ch. Qed.

Lemma more_saturates a n : more a n = u64_saturating_add a n.
Proof. unfold more, u64_saturating_add, u64_max. exact eq_refl. Qed.

Lemma after_wraps n : after n = u64_wrap (n + 1).
Proof. unfold after, u64_wrap. exact eq_refl. Qed.

Lemma keeps_update m b id e e' c S :
  wf m -> keeps m b -> streams m !! id = Some e -> Open e -> Open e' -> channel_of e' = c ->
  keeps (set_sendable S (put_entry id e' m)) (keep id c b)
  /\ keeps (put_entry id e' m) (keep id c b).
Proof.
  intros Hwf Hk He Ho Ho' <-. rewrite <- (set_sendable_id (put_entry id e' m)) at 2.
  split; (apply keeps_put; [done|done| |done]; by eapply open_not_closed).
Qed.

Ltac same_channel :=
  unfold channel_of;
  cbn [kind operation_id expected_seq recv_credit next_send_seq send_credit ch_kind ch_operation
       in_next in_credit out_next out_credit];
  f_equal;
  first [apply eq_sym, more_saturates | apply eq_sym, after_wraps | apply N.sub_1_r | done].

Section steps.
Context (m : StreamMux) (b : book) (Hwf : wf m) (Hk : keeps m b).
Abbreviation promised ev := (promise (max_open m) (max_closed m) ev b).

Lemma open_in_step op caps : in_step (answer (EvOpen op caps) m) (promised (EvOpen op caps)).
Proof.
  unfold answer, promise, open_with_capabilities. unfold_handler.
  set (id := descriptor_id (open_descriptor op)).
  destruct (StreamOpen_is_consistent op); cbn [negb]; [|done].
  destruct (CapabilitySet_has _ _); cbn [negb]; [|done].
  pose proof (keeps_standing m b id Hwf Hk) as Hs.
  destruct (streams m !! id) as [e|] eqn:He.
  - rewrite bool_decide_true by eauto. case_bool_decide; [by rewrite Hs|].
    destruct Hs as (r & _ & ->). done.
  - rewrite Hs, bool_decide_false by (intros [? ?]; done). unfold open_stream_count.
    rewrite <- (keeps_size m b Hwf Hk).
    destruct (Nat.ltb_spec (size (lives b)) (max_open m)) as [Hlt|Hge].
    + rewrite bool_decide_false by lia. split; [done|]. cbn [snd].
      destruct (keeps_put m b id (mkStreamEntry (descriptor_kind (open_descriptor op))
        (open_operation_id op) StreamState_Open None 0 0 0 0) (sendable_streams m) Hwf Hk)
        as [Hl Hg]; [|done|by split].
      rewrite (wf_closed m Hwf). intros (e & He' & _). congruence.
    + by rewrite bool_decide_true.
Qed.

Lemma grant_in_step id c : in_step (answer (EvGrant id c) m) (promised (EvGrant id c)).
Proof.
  unfold answer, promise, grant_inbound, open_entry_mut. cbv zeta beta. unfold_handler.
  destruct (N.eqb_spec c 0) as [->|Hc]; [done|]. rewrite bool_decide_false by done.
  match goal with |- context [on_live id ?k b] =>
    pose proof (open_entry_live m b id k Hwf Hk) as Ho end.
  destruct (open_entry id m) as [[e|err] m']; [|by destruct Ho as [-> ->]].
  destruct Ho as (-> & He & Ho & ->). split; [done|].
  apply (keeps_update m b id e _ _ ∅); [done..|same_channel].
Qed.

Lemma data_in_step data : in_step (answer (EvData data) m) (promised (EvData data)).
Proof.
  unfold answer, promise, accept_data, open_entry_mut. cbv zeta beta. unfold_handler.
  match goal with |- context [on_live ?id ?k b] =>
    pose proof (open_entry_live m b id k Hwf Hk) as Ho end.
  destruct (open_entry _ m) as [[e|err] m'] eqn:E; [|by destruct Ho as [-> ->]].
  destruct Ho as (-> & He & Ho & ->). rewrite carries_valid. cbn [channel_of ch_kind].
  destruct (carries _ _); cbn [negb]; [|done].
  assert (bool_decide (is_Some (data_cursor data)) = bool_decide (data_cursor data <> None)) as ->.
  { apply bool_decide_ext. rewrite <- not_eq_None_Some. done. }
  destruct (_ && _); [done|]. rewrite E. cbn [channel_of in_next].
  destruct (N.eqb_spec (data_sequence data) (expected_seq e)) as [Hq|Hq]; cbn [negb];
    [rewrite (bool_decide_true (data_sequence data = _)) by done
    |by rewrite (bool_decide_false (data_sequence data = _))].
  cbn [negb channel_of in_credit]. destruct (N.eqb_spec (recv_credit e) 0) as [Hz|Hz];
    [by rewrite bool_decide_true|rewrite bool_decide_false by done].
  split; [done|]. apply (keeps_update m b _ e _ _ ∅); [done..|same_channel].
Qed.

Lemma flow_in_step flow : in_step (answer (EvFlow flow) m) (promised (EvFlow flow)).
Proof.
  unfold answer, promise, receive_flow, open_entry_mut. cbv zeta beta. unfold_handler.
  destruct (N.eqb_spec (flow_credits flow) 0) as [Hz|Hc]; [by rewrite bool_decide_true|].
  rewrite bool_decide_false by done.
  match goal with |- context [on_live ?id ?k b] =>
    pose proof (open_entry_live m b id k Hwf Hk) as Ho end.
  destruct (open_entry _ m) as [[e|err] m']; [|by destruct Ho as [-> ->]].
  destruct Ho as (-> & He & Ho & ->).
  case_bool_decide; (split; [done|]);
    [eapply (keeps_update m b _ e)|apply (keeps_update m b _ e _ _ ∅)]; (done || same_channel).
Qed.

Lemma reserve_in_step id ch : in_step (answer (EvReserve id ch) m) (promised (EvReserve id ch)).
Proof.
  unfold answer, promise, reserve_send, open_entry_mut. cbv zeta beta. unfold_handler.
  match goal with |- context [on_live ?id ?k b] =>
    pose proof (open_entry_live m b id k Hwf Hk) as Ho end.
  destruct (open_entry _ m) as [[e|err] m'] eqn:E; [|by destruct Ho as [-> ->]].
  destruct Ho as (-> & He & Ho & ->). rewrite carries_valid. cbn [channel_of ch_kind].
  destruct (carries _ _); cbn [negb]; [|done]. rewrite E. cbn [channel_of out_credit].
  destruct (N.eqb_spec (send_credit e) 0) as [Hz|Hz];
    [by rewrite bool_decide_true|rewrite (bool_decide_false (send_credit e = 0%N)) by done].
  case_bool_decide; (split; [done|]);
    [eapply (keeps_update m b _ e)|apply (keeps_update m b _ e _ _ ∅)]; (done || same_channel).
Qed.

Lemma close_in_step cl : in_step (answer (EvClose cl) m) (promised (EvClose cl)).
Proof.
  unfold answer, promise, close. cbv zeta beta. unfold_handler.
  pose proof (keeps_standing m b (close_stream_id cl) Hwf Hk) as Hs.
  destruct (streams m !! close_stream_id cl) as [e|] eqn:He; [|by rewrite Hs].
  case_bool_decide as Ho.
  - rewrite Hs, bool_decide_false by congruence. split; [done|]. by apply keeps_bury.
  - destruct Hs as (r & Hr & ->). rewrite bool_decide_true by by apply not_open_closed.
    cbn [en_reason]. rewrite Hr, bool_decide_and.
    assert (bool_decide (Some r = Some StreamCloseReason_Cancelled)
            = bool_decide (r = StreamCloseReason_Cancelled)) as ->
      by (apply bool_decide_ext; naive_solver).
    by destruct (_ && _).
Qed.

Lemma cancel_in_step id : in_step (answer (EvCancel id) m) (promised (EvCancel id)).
Proof.
  unfold answer, promise, cancel. cbv zeta beta. unfold_handler.
  pose proof (keeps_standing m b id Hwf Hk) as Hs.
  destruct (streams m !! id) as [e|] eqn:He; [|by rewrite Hs].
  case_bool_decide as Ho; [rewrite Hs; split; [done|]; by apply keeps_bury|].
  by destruct Hs as (r & Hr & ->).
Qed.

Lemma resume_in_step r : in_step (answer (EvResume r) m) (promised (EvResume r)).
Proof.
  unfold answer, promise, validate_resume. cbv zeta beta. unfold_handler.
  pose proof (keeps_standing m b (resume_stream_id r) Hwf Hk) as Hs.
  destruct (streams m !! resume_stream_id r) as [e|] eqn:He; [|by rewrite Hs].
  case_bool_decide as Ho; [rewrite Hs; simpl; by case_bool_decide|].
  destruct Hs as (x & Hr & ->). by case_bool_decide.
Qed.

Lemma answer_in_step ev : in_step (answer ev m) (promised ev).
Proof.
  destruct ev; [apply open_in_step|apply grant_in_step|apply data_in_step|apply flow_in_step
    |apply reserve_in_step|apply close_in_step|apply cancel_in_step|apply resume_in_step].
Qed.

End steps.

Lemma answer_apply ev m : (answer ev m).2 = (apply ev m).2.
Proof.
  destruct ev; unfold answer, apply;
    match goal with |- context [match ?h with _ => _ end] => by destruct h end.
Qed.

Lemma answer_caps ev m :
  max_open (answer ev m).2 = max_open m /\ max_closed (answer ev m).2 = max_closed m.
Proof. rewrite answer_apply. apply (apply_all_caps [ev] m). Qed.

Lemma answers_in_step evs m b :
  wf m -> keeps m b ->
  (answers evs m).1 = (promises (max_open m) (max_closed m) evs b).1
  /\ wf (answers evs m).2
  /\ keeps (answers evs m).2 (promises (max_open m) (max_closed m) evs b).2.
Proof.
  revert m b. induction evs as [|ev evs IH]; intros m b Hwf Hk; [done|]. simpl.
  pose proof (answer_in_step m b Hwf Hk ev) as [Hr Hk'].
  pose proof (answer_caps ev m) as [Ho Hc].
  assert (wf (answer ev m).2) as Hwf' by (rewrite answer_apply; by apply apply_wf).
  destruct (answer ev m) as [r m'], (promise _ _ ev b) as [r' b']. simpl in *. subst r'.
  destruct (IH m' b' Hwf' Hk') as (E & Hw & Hkk). rewrite Ho, Hc in E, Hkk.
  destruct (answers evs m') as [rs m2], (promises _ _ evs b') as [rs' b2]. simpl in *.
  by rewrite E.
Qed.

(** ** What can be asked of the multiplexer *)

Definition sendable (b : book) : gset string :=
  dom (filter (fun e => out_credit e.2 <> 0%N) (lives b)).

Record same_view (m : StreamMux) (b : book) : Prop := {
  sv_open id : is_open m id = bool_decide (is_Some (lives b !! id));
  sv_count : open_stream_count m = size (lives b);
  sv_reason id : close_reason_at m id = en_reason <$> grave_of b id;
  sv_operation id :
    operation_id_of m id =
    match standing_of b id with
    | Live c => Some (ch_operation c)
    | Ended g => Some (en_operation g)
    | Unknown => None
    end;
  sv_sendable : sendable_streams_list m = btree_iter (sendable b)
}.

Lemma keeps_view m b : wf m -> keeps m b -> same_view m b.
Proof.
  intros Hwf Hk.
  assert (forall id, is_Some (lives b !! id) <-> id ∈ open_streams m) as Hlive.
  { intros id. rewrite (ks_lives m b Hk), (wf_open m Hwf). unfold entry_at, live_view, Open.
    destruct (streams m !! id) as [e|]; simpl; [case_bool_decide|]; naive_solver. }
  split.
  - intros id. unfold is_open. apply bool_decide_ext. by rewrite Hlive.
  - unfold open_stream_count. by rewrite (keeps_size m b).
  - intros id. rewrite (keeps_grave_of m b id Hwf Hk). unfold close_reason_at.
    destruct (streams m !! id) as [e|] eqn:He; [|done]. simpl. unfold dead_view.
    case_bool_decide as Ho; [|by destruct (close_reason e)].
    by rewrite (proj1 (ew_reason _ (wf_entries _ Hwf _ _ He)) Ho).
  - intros id. pose proof (keeps_standing m b id Hwf Hk) as Hs. unfold operation_id_of.
    destruct (streams m !! id) as [e|]; [|by rewrite Hs]. simpl.
    case_bool_decide; [by rewrite Hs|]. by destruct Hs as (r & _ & ->).
  - unfold sendable_streams_list. f_equal. apply set_eq. intros id.
    rewrite (wf_sendable m Hwf). unfold sendable. rewrite elem_of_dom. unfold entry_at. split.
    + intros (e & He & Ho & Hc). exists (channel_of e). apply map_lookup_filter_Some.
      rewrite (ks_lives m b Hk), He. simpl. unfold live_view. by rewrite bool_decide_true.
    + intros [c [Hl Hc]%map_lookup_filter_Some]. rewrite (ks_lives m b Hk) in Hl.
      destruct (streams m !! id) as [e|]; simplify_eq/=. exists e. unfold live_view in Hl.
      case_bool_decide; by simplify_eq/=.
Qed.

(** C26. The multiplexer is the plain account of its streams that [book] and
    [promise] give: whatever calls a session makes, every call is answered as
    the book answers it, with the same flow grant, sequence number, flag or
    error (kind and text), and afterwards its open streams, their number, the
    reasons and operations it remembers and the streams that can send are
    those of the book.  The index sets, the table of tombstones and their
    pruning are never visible. *)
Theorem mux_keeps_book (open_cap grave_cap : nat) (evs : list event) :
  let '(said, m) := answers evs (with_limits open_cap grave_cap) in
  let '(promised, b) := promises (max open_cap 1) (max grave_cap 1) evs empty_book in
  said = promised /\ same_view m b.
Proof.
  destruct (answers_in_step evs (with_limits open_cap grave_cap) empty_book
    (with_limits_wf _ _) (keeps_empty _ _)) as (E & Hw & Hk).
  cbn [max_open max_closed with_limits] in *.
  destruct (answers _ _) as [rs m], (promises _ _ _ _) as [rs' b]. simpl in *.
  split; [done|]. by apply keeps_view.
Qed.

End Book.
