(* ===== verification/Router.v ===== *)
(** * The operation router and its dedup records

    [packages/d2b-realm-router/src/lib.rs].  [Module Router] models
    [OperationRouter]: the route plan, the admission order of
    [route_with_capabilities], the dedup table with its retention and
    tombstones, and the mapping of refusals to errors.  The clock is an
    argument [now] of every call, in nanoseconds; [Instant] subtraction
    saturates at zero.  The theorems speak of whole histories of calls. *)

From S2P Require Import Prelude Ids Streams Frame.

Module Router.

Definition nanos_per_sec : N := 1000000000.
Definition Duration_max : N := u64_max * nanos_per_sec + (nanos_per_sec - 1).
Definition from_secs (s : N) : N := s * nanos_per_sec.
Definition saturating_mul (d k : N) : N := N.min (d * k) Duration_max.
Definition duration_since (now since : N) : N := now - since.

Definition DEFAULT_RETENTION : N := from_secs (15 * 60).
Definition DEFAULT_NO_REUSE_HORIZON : N := from_secs (60 * 60).
Definition DEFAULT_MAX_DEDUP_RECORDS : N := 65536.

Inductive RouteDecision :=
| Accept (scope : AuthorizationScope)
| Replay (original_operation_id : string) (result : bytes)
| InProgress (original_operation_id : string)
| IdempotencyKeyConflict
| IdempotencyKeyExpired
| MissingIdempotencyKey
| MissingWorkload
| PrincipalMismatch
| CapabilityDenied (capability : Capability)
| UnsupportedOperation (kind : OperationKind)
| DedupCapacityExceeded.

#[global] Instance RouteDecision_eq_dec : EqDecision RouteDecision.
Proof. solve_decision. Defined.

Definition supported_stream_kind (kind : StreamKind) : bool :=
  match kind with
  | StreamKind_Control | StreamKind_Pty | StreamKind_ShellPty | StreamKind_Stdio
  | StreamKind_Logs | StreamKind_Display => true
  | _ => false
  end.

Record OperationRoutePlan := mkOperationRoutePlan {
  plan_kind : OperationKind;
  plan_authorization_scope : AuthorizationScope;
  plan_required_capability : option Capability;
  plan_mutating : bool;
  plan_requires_workload : bool;
  plan_stream_kinds : list StreamKind
}.

Definition OperationRoutePlan_new (kind : OperationKind) : OperationRoutePlan :=
  mkOperationRoutePlan kind (OperationKind_authorization_scope kind)
    (OperationKind_required_capability kind) (OperationKind_is_mutating kind)
    (OperationKind_requires_workload kind) (OperationKind_allowed_stream_kinds kind).

Definition streams_supported (self : OperationRoutePlan) : bool :=
  forallb supported_stream_kind (plan_stream_kinds self).

Definition operation_route_plan (kind : OperationKind) : option OperationRoutePlan :=
  match kind with
  | OperationKind_FileCopyStart | OperationKind_PortForwardOpen => None
  | _ =>
      let plan := OperationRoutePlan_new kind in
      if streams_supported plan then Some plan else None
  end.

Definition supported_operation_kind (kind : OperationKind) : bool :=
  bool_decide (is_Some (operation_route_plan kind)).

(** ** Dedup records *)

Record DedupKey := mkDedupKey {
  key_realm : RealmPath;
  key_principal : string;
  key_node : string;
  key_kind : OperationKind;
  key_key : string
}.

#[global] Instance DedupKey_eq_dec : EqDecision DedupKey.
Proof. solve_decision. Defined.

#[global] Program Instance DedupKey_countable : Countable DedupKey :=
  inj_countable'
    (fun k => (key_realm k, key_principal k, key_node k, key_kind k, key_key k))
    (fun '(r, p, n, k, i) => mkDedupKey r p n k i) _.
Next Obligation. by intros []. Qed.

Definition DedupKey_for_request (req : OperationRequest) (key : string) : DedupKey :=
  mkDedupKey (req_realm req) (req_principal req) (req_node req) (req_kind req) key.

Inductive DedupState :=
| DedupState_InProgress (since : N)
| DedupState_Completed (result : bytes) (since : N)
| DedupState_Expired (since : N).

#[global] Instance DedupState_eq_dec : EqDecision DedupState.
Proof. solve_decision. Defined.

Record DedupEntry := mkDedupEntry {
  fingerprint : bytes;
  original_operation_id : string;
  entry_state : DedupState
}.

Record OperationRouter := mkOperationRouter {
  retention : N;
  no_reuse_horizon : N;
  max_dedup_records : N;
  dedup : gmap DedupKey DedupEntry
}.

Definition set_dedup (m : gmap DedupKey DedupEntry) (self : OperationRouter) : OperationRouter :=
  mkOperationRouter (retention self) (no_reuse_horizon self) (max_dedup_records self) m.

Definition with_clock : OperationRouter :=
  mkOperationRouter DEFAULT_RETENTION DEFAULT_NO_REUSE_HORIZON DEFAULT_MAX_DEDUP_RECORDS ∅.

Definition with_retention (self : OperationRouter) (retention_ : N) : OperationRouter :=
  mkOperationRouter retention_
    (if bool_decide (no_reuse_horizon self < retention_)%N then saturating_mul retention_ 2
     else no_reuse_horizon self)
    (max_dedup_records self) (dedup self).

Definition with_no_reuse_horizon (self : OperationRouter) (horizon : N) : OperationRouter :=
  mkOperationRouter (retention self) horizon (max_dedup_records self) (dedup self).

Definition with_max_dedup_records (self : OperationRouter) (max : N) : OperationRouter :=
  mkOperationRouter (retention self) (no_reuse_horizon self) max (dedup self).

Definition set_state (e : DedupEntry) (s : DedupState) : DedupEntry :=
  mkDedupEntry (fingerprint e) (original_operation_id e) s.

(** The two passes of [gc_at]. *)
Definition age_entry (retention_ now : N) (e : DedupEntry) : DedupEntry :=
  match entry_state e with
  | DedupState_Completed _ since =>
      if bool_decide (retention_ < duration_since now since)%N
      then set_state e (DedupState_Expired now) else e
  | _ => e
  end.

Definition retained (horizon now : N) (e : DedupEntry) : bool :=
  match entry_state e with
  | DedupState_Expired since => bool_decide (duration_since now since <= horizon)%N
  | _ => true
  end.

Definition gc_at (now : N) (self : OperationRouter) : OperationRouter :=
  set_dedup
    (filter (fun ke => retained (no_reuse_horizon self) now ke.2 = true)
       (age_entry (retention self) now <$> dedup self)) self.

Definition tracked (self : OperationRouter) : N := N.of_nat (size (dedup self)).

(** The dedup part of [route_with_capabilities], from the table lookup on. *)
Definition route_mutating (now : N) (req : OperationRequest) (scope : AuthorizationScope)
    (key : string) (self : OperationRouter) : RouteDecision * OperationRouter :=
  let dedup_key := DedupKey_for_request req key in
  let fp := dedup_fingerprint_input req in
  match dedup self !! dedup_key with
  | None =>
      let self := gc_at now self in
      if bool_decide (max_dedup_records self <= N.of_nat (size (dedup self)))%N
      then (DedupCapacityExceeded, self)
      else (Accept scope,
            set_dedup (<[dedup_key := mkDedupEntry fp (req_operation_id req)
                                        (DedupState_InProgress now)]> (dedup self)) self)
  | Some entry =>
      match entry_state entry with
      | DedupState_InProgress _ =>
          if bool_decide (fingerprint entry <> fp) then (IdempotencyKeyConflict, self)
          else (InProgress (original_operation_id entry), self)
      | DedupState_Completed result since =>
          if bool_decide (retention self < duration_since now since)%N
          then (IdempotencyKeyExpired,
                set_dedup (<[dedup_key := set_state entry (DedupState_Expired now)]>
                             (dedup self)) self)
          else if bool_decide (fingerprint entry <> fp) then (IdempotencyKeyConflict, self)
          else (Replay (original_operation_id entry) result, self)
      | DedupState_Expired _ => (IdempotencyKeyExpired, self)
      end
  end.

(** The capability the plan requires and the peer did not negotiate. *)
Definition missing_capability (plan : OperationRoutePlan) (capabilities : CapabilitySet) :
    option Capability :=
  capability ← plan_required_capability plan;
  if CapabilitySet_has capabilities capability then None else Some capability.

Definition route_with_capabilities (now : N) (req : OperationRequest) (session_principal : string)
    (capabilities : CapabilitySet) (self : OperationRouter) : RouteDecision * OperationRouter :=
  if negb (String.eqb (req_principal req) session_principal) then (PrincipalMismatch, self)
  else match operation_route_plan (req_kind req) with
  | None => (UnsupportedOperation (req_kind req), self)
  | Some plan =>
      let scope := plan_authorization_scope plan in
      if plan_requires_workload plan && bool_decide (req_workload req = None)
      then (MissingWorkload, self)
      else match missing_capability plan capabilities with
      | Some capability => (CapabilityDenied capability, self)
      | None =>
          if negb (plan_mutating plan) then (Accept scope, self)
          else match req_idempotency_key req with
          | None => (MissingIdempotencyKey, self)
          | Some key => route_mutating now req scope key self
          end
      end
  end.

(** The record [mark_completed] and [mark_failed] address. *)
Definition matching_lease (req : OperationRequest) (self : OperationRouter) :
    option (DedupKey * DedupEntry) :=
  key ← req_idempotency_key req;
  let dedup_key := DedupKey_for_request req key in
  entry ← dedup self !! dedup_key;
  match entry_state entry with
  | DedupState_InProgress _ =>
      if bool_decide (fingerprint entry = dedup_fingerprint_input req)
      then Some (dedup_key, entry) else None
  | _ => None
  end.

Definition mark_completed (now : N) (req : OperationRequest) (result : bytes)
    (self : OperationRouter) : bool * OperationRouter :=
  match matching_lease req self with
  | Some (dedup_key, entry) =>
      (true, set_dedup (<[dedup_key := set_state entry (DedupState_Completed result now)]>
                          (dedup self)) self)
  | None => (false, self)
  end.

Definition mark_failed (req : OperationRequest) (self : OperationRouter) :
    bool * OperationRouter :=
  match matching_lease req self with
  | Some (dedup_key, _) => (true, set_dedup (delete dedup_key (dedup self)) self)
  | None => (false, self)
  end.

Record ReconcilableLease := mkReconcilableLease { lease_operation_id : string; lease_age : N }.

Definition stale_lease (now older_than : N) (e : DedupEntry) : option ReconcilableLease :=
  match entry_state e with
  | DedupState_InProgress since =>
      let age := duration_since now since in
      if bool_decide (older_than < age)%N
      then Some (mkReconcilableLease (original_operation_id e) age) else None
  | _ => None
  end.

Definition older (a b : ReconcilableLease) : Prop := (lease_age b <= lease_age a)%N.

#[global] Instance older_dec a b : Decision (older a b).
Proof. unfold older. apply _. Defined.

#[global] Instance older_total : Total older.
Proof. intros a b. unfold older. lia. Qed.

#[global] Instance older_trans : Transitive older.
Proof. intros a b c. unfold older. lia. Qed.

(** [values] is the order in which the hash map yields its entries. *)
Definition reconcilable_leases (now older_than : N) (values : list DedupEntry) :
    list ReconcilableLease :=
  merge_sort older (omap (stale_lease now older_than) values).

Definition route_decision_error (req : OperationRequest) (decision : RouteDecision) :
    option ConstellationError :=
  let error kind message :=
    Some (with_correlation_id (ConstellationError_new kind message) (req_correlation_id req)) in
  match decision with
  | PrincipalMismatch => error ErrorKind_Unauthorized "principal binding mismatch"
  | CapabilityDenied capability =>
      Some (with_correlation_id (capability_denied capability) (req_correlation_id req))
  | MissingIdempotencyKey =>
      error ErrorKind_MalformedFrame "mutating operation requires an idempotency key"
  | IdempotencyKeyConflict =>
      error ErrorKind_IdempotencyKeyConflict
        "idempotency key conflicts with an existing operation"
  | IdempotencyKeyExpired =>
      error ErrorKind_IdempotencyKeyExpired "idempotency key was reused after retention"
  | DedupCapacityExceeded => error ErrorKind_Backpressure "deduplication capacity exceeded"
  | MissingWorkload =>
      error ErrorKind_InvalidTarget
        ("operation kind '" +:+ OperationKind_code (req_kind req)
         +:+ "' requires a workload target")
  | UnsupportedOperation kind =>
      error ErrorKind_UnsupportedFeature
        ("operation kind '" +:+ OperationKind_code kind +:+ "' is not supported")
  | Accept _ | Replay _ _ | InProgress _ => None
  end%string.

(** ** Histories *)

Inductive event :=
| ERoute (now : N) (req : OperationRequest) (session_principal : string) (caps : CapabilitySet)
| ECompleted (now : N) (req : OperationRequest) (result : bytes)
| EFailed (now : N) (req : OperationRequest)
| EGc (now : N).

Inductive output := ODecision (d : RouteDecision) | OBool (b : bool) | OUnit.

Definition time (ev : event) : N :=
  match ev with ERoute t _ _ _ | ECompleted t _ _ | EFailed t _ | EGc t => t end.

Definition step (ev : event) (r : OperationRouter) : output * OperationRouter :=
  match ev with
  | ERoute t q p c => prod_map ODecision id (route_with_capabilities t q p c r)
  | ECompleted t q res => prod_map OBool id (mark_completed t q res r)
  | EFailed _ q => prod_map OBool id (mark_failed q r)
  | EGc t => (OUnit, gc_at t r)
  end.

(** [h] is a history of calls with their answers that leads from [r] to [r']. *)
Fixpoint executes (r : OperationRouter) (h : list (event * output)) (r' : OperationRouter) : Prop :=
  match h with
  | [] => r' = r
  | (ev, o) :: h => (step ev r).1 = o /\ executes (step ev r).2 h r'
  end.

(** The clock never runs backwards. *)
Fixpoint monotone (t : N) (h : list (event * output)) : Prop :=
  match h with
  | [] => True
  | (ev, _) :: h => (t <= time ev)%N /\ monotone (time ev) h
  end.

Definition key_of (q : OperationRequest) : option DedupKey :=
  DedupKey_for_request q <$> req_idempotency_key q.

(** A mutating operation under [k] was handed to the executor. *)
Definition accepts (k : DedupKey) (x : event * output) : Prop :=
  exists t q p c s, x = (ERoute t q p c, ODecision (Accept s)) /\
    OperationKind_is_mutating (req_kind q) = true /\ key_of q = Some k.

Definition fails (k : DedupKey) (x : event * output) : Prop :=
  exists t q, x = (EFailed t q, OBool true) /\ key_of q = Some k.

Definition completes (k : DedupKey) (tc : N) (x : event * output) : Prop :=
  exists q res, x = (ECompleted tc q res, OBool true) /\ key_of q = Some k.

Lemma executes_app r h1 h2 r' :
  executes r (h1 ++ h2) r' <-> exists rm, executes r h1 rm /\ executes rm h2 r'.
Proof.
  revert r. induction h1 as [|[ev o] h1 IH]; intros r; simpl.
  - naive_solver.
  - rewrite IH. naive_solver.
Qed.

Lemma monotone_app t h1 x h2 : monotone t (h1 ++ x :: h2) -> monotone (time x.1) h2 /\ (t <= time x.1)%N.
Proof.
  revert t. induction h1 as [|[ev o] h1 IH]; intros t; simpl.
  - destruct x as [ev o]. simpl. tauto.
  - intros [Ht [? ?]%IH]. split; [done|]. simpl in *. lia.
Qed.

(** ** One call and one key *)

#[local] Arguments gc_at : simpl never.

Lemma gc_lookup now r k :
  dedup (gc_at now r) !! k =
  (e ← dedup r !! k;
   let e' := age_entry (retention r) now e in
   if retained (no_reuse_horizon r) now e' then Some e' else None).
Proof.
  unfold gc_at. simpl. rewrite map_lookup_filter, lookup_fmap.
  destruct (dedup r !! k) as [e|]; simpl; [|done].
  destruct (retained _ _ _) eqn:Hr.
  - by rewrite option_guard_True.
  - by rewrite option_guard_False by (simpl; congruence).
Qed.

Lemma route_cases t q p c r :
  (exists key scope, req_idempotency_key q = Some key /\
     OperationKind_is_mutating (req_kind q) = true /\
     route_with_capabilities t q p c r = route_mutating t q scope key r) \/
  ((route_with_capabilities t q p c r).2 = r /\
   match (route_with_capabilities t q p c r).1 with
   | Accept _ => OperationKind_is_mutating (req_kind q) = false
   | Replay _ _ => False
   | _ => True
   end).
Proof.
  unfold route_with_capabilities. case_match; simpl; [by right|].
  destruct (operation_route_plan (req_kind q)) as [plan|] eqn:Hp; [|by right].
  assert (plan = OperationRoutePlan_new (req_kind q)) as ->.
  { unfold operation_route_plan in Hp. destruct (req_kind q); by simplify_eq/=. }
  case_match; [by right|]. destruct (missing_capability _ _); [by right|].
  simpl. destruct (OperationKind_is_mutating (req_kind q)); simpl; [|by right].
  destruct (req_idempotency_key q) as [key|]; [left; eauto|by right].
Qed.

(** The stages of a key after its operation was accepted: running, or
    completed at [tc] and since then at most aged into a tombstone, unless
    retention and horizon have both passed. *)
Definition life (ret hor now : N) (o : option DedupEntry) (tc : option N) : Prop :=
  match tc with
  | None => exists e since, o = Some e /\ entry_state e = DedupState_InProgress since
  | Some tc =>
      (exists e res, o = Some e /\ entry_state e = DedupState_Completed res tc) \/
      (exists e s, o = Some e /\ entry_state e = DedupState_Expired s /\ (tc + ret < s)%N) \/
      (tc + ret + hor < now)%N
  end.

Lemma life_later ret hor now now' o tc :
  (now <= now')%N -> life ret hor now o tc -> life ret hor now' o tc.
Proof. intros Hle. destruct tc; simpl; [|done]. intros [?|[?|?]]; auto. right; right. lia. Qed.

Lemma life_gc r k t tc :
  life (retention r) (no_reuse_horizon r) t (dedup r !! k) tc ->
  life (retention r) (no_reuse_horizon r) t (dedup (gc_at t r) !! k) tc.
Proof.
  rewrite gc_lookup. destruct tc as [tc|]; simpl.
  - intros [(e & res & -> & He)|[(e & s & -> & He & Hs)|?]]; [..|by auto]; simpl.
    + unfold age_entry. rewrite He. case_bool_decide as Hage; simpl.
      * unfold retained. simpl. unfold duration_since in *.
        rewrite bool_decide_true by lia. right; left. eexists _, _. split_and!; [done..|lia].
      * unfold retained. rewrite He. left; eauto.
    + unfold age_entry. rewrite He. unfold retained. rewrite He. unfold duration_since.
      case_bool_decide; [right; left; eauto|]. right; right. lia.
  - intros (e & since & -> & He). simpl. unfold age_entry. rewrite He. unfold retained.
    rewrite He. eauto.
Qed.

Lemma step_config ev r :
  retention (step ev r).2 = retention r /\ no_reuse_horizon (step ev r).2 = no_reuse_horizon r /\
  max_dedup_records (step ev r).2 = max_dedup_records r.
Proof.
  destruct ev as [t q p c|t q res|t q|t]; simpl; try done.
  - destruct (route_cases t q p c r) as [(key & scope & _ & _ & ->)|[Hr _]].
    + unfold route_mutating. repeat case_match; done.
    + by rewrite Hr.
  - unfold mark_completed. by destruct (matching_lease q r) as [[]|].
  - unfold mark_failed. by destruct (matching_lease q r) as [[]|].
Qed.

Lemma matching_lease_some q r k e :
  matching_lease q r = Some (k, e) <->
  key_of q = Some k /\ dedup r !! k = Some e /\ fingerprint e = dedup_fingerprint_input q /\
  exists since, entry_state e = DedupState_InProgress since.
Proof.
  unfold matching_lease, key_of.
  destruct (req_idempotency_key q) as [key|]; simpl; [|split; [done|by intros [? _]]]. split.
  - destruct (dedup r !! DedupKey_for_request q key) as [e'|] eqn:Hl; simpl; [|done].
    destruct (entry_state e') eqn:Hs; [|done..]. case_bool_decide; [|done].
    intros [= <- <-]. eauto.
  - intros ([= <-] & -> & Hfp & since & Hs). simpl. by rewrite Hs, bool_decide_true.
Qed.

(** The routing call on the key it names and on the others. *)
Lemma route_mutating_life t q scope key r k tc :
  let '(d, r') := route_mutating t q scope key r in
  life (retention r) (no_reuse_horizon r) t (dedup r !! k) tc ->
  life (retention r) (no_reuse_horizon r) t (dedup r' !! k) tc /\
  (DedupKey_for_request q key = k -> forall s, d = Accept s ->
     exists t0, tc = Some t0 /\ (t0 + retention r + no_reuse_horizon r < t)%N).
Proof.
  unfold route_mutating. set (k' := DedupKey_for_request q key).
  destruct (dedup r !! k') as [e|] eqn:Hk'.
  - destruct (entry_state e) as [since|res since|since] eqn:He.
    + case_bool_decide; split; (done || by intros).
    + case_bool_decide as Hage; [|case_bool_decide; split; (done || by intros)].
      intros Hl. split; [|by intros]. simpl.
      destruct (decide (k' = k)) as [<-|Hne]; [|by rewrite lookup_insert_ne].
      rewrite lookup_insert_eq. rewrite Hk' in Hl. unfold duration_since in Hage.
      destruct tc as [tc|]; simpl in *.
      * destruct Hl as [(e1 & res1 & [= <-] & He1)|[(e1 & s & [= <-] & He1 & Hs)|?]];
          [|congruence|by auto].
        right; left. eexists _, _. split_and!; [done..|]. rewrite He in He1.
        injection He1 as -> ->. lia.
      * destruct Hl as (e1 & s & [= <-] & He1). congruence.
    + split; (done || by intros).
  - case_bool_decide.
    + intros Hl. split; [by apply life_gc|by intros].
    + intros Hl. simpl. destruct (decide (k' = k)) as [<-|Hne].
      * rewrite Hk' in Hl.
        assert (exists t0, tc = Some t0 /\ (t0 + retention r + no_reuse_horizon r < t)%N) as Ht.
        { destruct tc as [tc|]; simpl in Hl; [|naive_solver].
          destruct Hl as [(? & ? & ? & ?)|[(? & ? & ? & ?)|?]]; [done..|]. eauto. }
        split; [|by auto]. destruct Ht as (t0 & -> & Ht). simpl. auto.
      * split; [|by intros]. rewrite lookup_insert_ne by done. by apply life_gc.
Qed.

(** One call, seen from a key whose operation was accepted. *)
Lemma step_life ev r k tc t0 :
  life (retention r) (no_reuse_horizon r) t0 (dedup r !! k) tc -> (t0 <= time ev)%N ->
  let x := (ev, (step ev r).1) in
  fails k x \/
  (exists tc', (tc' = tc \/ (completes k (time ev) x /\ tc' = Some (time ev))) /\
     life (retention r) (no_reuse_horizon r) (time ev) (dedup (step ev r).2 !! k) tc' /\
     (accepts k x -> exists t, tc = Some t /\
        (t + retention r + no_reuse_horizon r < time ev)%N)).
Proof.
  intros Hl Hle. apply (life_later _ _ _ _ _ _ Hle) in Hl.
  destruct ev as [t q p c|t q res|t q|t]; simpl in *.
  - right. exists tc. split; [by left|].
    destruct (route_cases t q p c r) as [(key & scope & Hkey & Hm & Hr)|[Hr Hd]]; cycle 1.
    { rewrite Hr. split; [done|]. intros (? & ? & ? & ? & ? & [= <- <- <- <- Hacc] & Hm & _).
      rewrite Hacc in Hd. congruence. }
    rewrite Hr. pose proof (route_mutating_life t q scope key r k tc) as H.
    destruct (route_mutating t q scope key r) as [d r']. destruct (H Hl) as [H1 H2].
    split; [done|]. intros (? & ? & ? & ? & s & [= <- <- <- <- Hacc] & _ & Hk).
    unfold key_of in Hk. rewrite Hkey in Hk. injection Hk as Hk. by apply (H2 Hk s).
  - right. unfold mark_completed. destruct (matching_lease q r) as [[k' e]|] eqn:Hml; simpl.
    + apply matching_lease_some in Hml as (Hk & He & _ & since & Hs).
      destruct (decide (k' = k)) as [->|Hne].
      * exists (Some t). split; [right; split; [by exists q, res|done]|].
        split; [|by intros (? & ? & ? & ? & ? & ? & _)].
        simpl. left. rewrite lookup_insert_eq. eauto.
      * exists tc. split; [by left|]. rewrite lookup_insert_ne by done.
        split; [done|]. by intros (? & ? & ? & ? & ? & ? & _).
    + exists tc. split; [by left|]. split; [done|]. by intros (? & ? & ? & ? & ? & ? & _).
  - unfold mark_failed. destruct (matching_lease q r) as [[k' e]|] eqn:Hml; simpl.
    + apply matching_lease_some in Hml as (Hk & _). destruct (decide (k' = k)) as [->|Hne].
      * left. by exists t, q.
      * right. exists tc. split; [by left|]. rewrite lookup_delete_ne by done.
        split; [done|]. by intros (? & ? & ? & ? & ? & ? & _).
    + right. exists tc. split; [by left|]. split; [done|].
      by intros (? & ? & ? & ? & ? & ? & _).
  - right. exists tc. split; [by left|]. split; [by apply life_gc|].
    by intros (? & ? & ? & ? & ? & ? & _).
Qed.

(** What may let [k] be accepted again at [t]: see [no_double_execution]. *)
Definition released (r : OperationRouter) (k : DedupKey) (t : N) (h : list (event * output)) : Prop :=
  exists y, y ∈ h /\
    (fails k y \/ exists tc, completes k tc y /\ (tc + retention r + no_reuse_horizon r < t)%N).

Lemma reaccepted_released r t0 tc h1 x h2 r' k :
  life (retention r) (no_reuse_horizon r) t0 (dedup r !! k) tc ->
  executes r (h1 ++ x :: h2) r' -> monotone t0 (h1 ++ x :: h2) -> accepts k x ->
  released r k (time x.1) h1 \/
  exists t, tc = Some t /\ (t + retention r + no_reuse_horizon r < time x.1)%N.
Proof.
  revert r t0 tc. induction h1 as [|[ev o] h1 IH]; intros r t0 tc Hl Hex Hmono Hacc.
  - destruct x as [ev o]. simpl in *. destruct Hex as [<- _], Hmono as [Hle _].
    destruct (step_life ev r k tc t0 Hl Hle) as [(? & ? & ? & _)|(tc' & _ & _ & H)].
    + destruct Hacc as (? & ? & ? & ? & ? & ? & _). congruence.
    + right. by apply H.
  - pose proof (monotone_app _ ((ev, o) :: h1) x h2 Hmono) as [_ _].
    simpl in Hex, Hmono. destruct Hex as [Ho Hex], Hmono as [Hle Hmono].
    destruct (step_life ev r k tc t0 Hl Hle) as [Hf|(tc' & Htc & Hl' & _)].
    + left. exists (ev, o). split; [left|]. left. by rewrite <- Ho.
    + destruct (step_config ev r) as (Hret & Hhor & _). rewrite <- Hret, <- Hhor in Hl'.
      destruct (IH _ _ _ Hl' Hex Hmono Hacc) as [(y & Hy & Hrel)|(t & Ht & Hlt)];
        rewrite Hret, Hhor in *.
      * left. exists y. split; [by right|done].
      * destruct Htc as [->|[Hc ->]]; [by right; eauto|]. left. exists (ev, o). split; [left|].
        right. exists (time ev). rewrite Ho in Hc. split; [done|]. by injection Ht as <-.
Qed.

Lemma executes_config h r r' :
  executes r h r' ->
  retention r' = retention r /\ no_reuse_horizon r' = no_reuse_horizon r /\
  max_dedup_records r' = max_dedup_records r.
Proof.
  revert r. induction h as [|[ev o] h IH]; intros r; simpl; [by intros ->|].
  intros [_ Hex]. destruct (IH _ Hex) as (-> & -> & ->). apply step_config.
Qed.

Lemma accepted_life t q p c r k s :
  key_of q = Some k -> OperationKind_is_mutating (req_kind q) = true ->
  (route_with_capabilities t q p c r).1 = Accept s ->
  dedup (route_with_capabilities t q p c r).2 !! k =
  Some (mkDedupEntry (dedup_fingerprint_input q) (req_operation_id q) (DedupState_InProgress t)).
Proof.
  intros Hk Hm. destruct (route_cases t q p c r) as [(key & scope & Hkey & _ & ->)|[_ Hd]]; cycle 1.
  { intros Hacc. rewrite Hacc in Hd. congruence. }
  unfold key_of in Hk. rewrite Hkey in Hk. injection Hk as <-.
  unfold route_mutating. repeat case_match; try done. intros _. simpl. by rewrite lookup_insert_eq.
Qed.

(** ** What the router guarantees *)

(** C2. No mutating operation is executed twice: in any history of calls on one
    router, between two acceptances of the same dedup key (realm, principal,
    node, kind and idempotency key) the operation was explicitly marked
    failed, or it was completed so long before the second acceptance that
    both the retention window and the no-reuse horizon had passed. *)
Theorem no_double_execution (r r' : OperationRouter) (t0 : N) (k : DedupKey)
    (h1 h2 h3 : list (event * output)) (x y : event * output) :
  executes r (h1 ++ x :: h2 ++ y :: h3) r' -> monotone t0 (h1 ++ x :: h2 ++ y :: h3) ->
  accepts k x -> accepts k y ->
  exists z, z ∈ h2 /\
    (fails k z \/
     exists tc, completes k tc z /\ (tc + retention r + no_reuse_horizon r < time y.1)%N).
Proof.
  intros Hex Hmono Hx Hy. apply executes_app in Hex as (r1 & Hex1 & Hex).
  destruct (monotone_app _ _ _ _ Hmono) as [Hm _].
  destruct x as [ev o]. destruct Hx as (t & q & p & c & s & [= -> ->] & Hmut & Hk).
  cbn [executes step] in Hex. destruct Hex as [Hacc Hex].
  simpl in Hacc. injection Hacc as Hacc.
  pose proof (accepted_life t q p c r1 k s Hk Hmut Hacc) as Hlk.
  destruct (executes_config _ _ _ Hex1) as (Hret & Hhor & _).
  destruct (step_config (ERoute t q p c) r1) as (Hret' & Hhor' & _).
  destruct (reaccepted_released (step (ERoute t q p c) r1).2 t None h2 y h3 r' k)
    as [Hrel|(? & ? & _)]; [|exact Hex|exact Hm|exact Hy| |done].
  { eexists _, t. split; [exact Hlk|done]. }
  unfold released in Hrel. by rewrite Hret', Hhor', Hret, Hhor in Hrel.
Qed.

(** Where a record came from: the accepted request and, once completed, the
    call that recorded its result. *)
Definition explained (h : list (event * output)) (k : DedupKey) (e : DedupEntry) : Prop :=
  (exists t q p c s, (ERoute t q p c, ODecision (Accept s)) ∈ h /\ key_of q = Some k /\
     dedup_fingerprint_input q = fingerprint e /\ req_operation_id q = original_operation_id e) /\
  match entry_state e with
  | DedupState_Completed res tc =>
      exists q, (ECompleted tc q res, OBool true) ∈ h /\ key_of q = Some k /\
        dedup_fingerprint_input q = fingerprint e
  | _ => True
  end.

Lemma explained_more h x k e : explained h k e -> explained (h ++ [x]) k e.
Proof.
  intros [(t & q & p & c & s & Hin & H) Hc]. split.
  - exists t, q, p, c, s. split; [|done]. apply elem_of_app. by left.
  - destruct (entry_state e); try done. destruct Hc as (q' & Hin' & H').
    exists q'. split; [|done]. apply elem_of_app. by left.
Qed.

Lemma explained_set h k e s :
  explained h k e -> match s with DedupState_Completed _ _ => False | _ => True end ->
  explained h k (set_state e s).
Proof. intros [H _] Hs. split; [done|]. simpl. by destruct s. Qed.

Lemma explained_gc h r t :
  (forall k e, dedup r !! k = Some e -> explained h k e) ->
  forall k e, dedup (gc_at t r) !! k = Some e -> explained h k e.
Proof.
  intros Hall k e. rewrite gc_lookup. destruct (dedup r !! k) as [e0|] eqn:He; simpl; [|done].
  case_match; [|done]. intros [= <-]. unfold age_entry.
  destruct (entry_state e0); [by apply Hall| |by apply Hall].
  case_bool_decide; [|by apply Hall]. apply explained_set; [by apply Hall|done].
Qed.

Lemma explained_route h r t q p c :
  (forall k e, dedup r !! k = Some e -> explained h k e) ->
  forall k e, dedup (step (ERoute t q p c) r).2 !! k = Some e ->
  explained (h ++ [(ERoute t q p c, (step (ERoute t q p c) r).1)]) k e.
Proof.
  intros Hall k e. simpl.
  destruct (route_cases t q p c r) as [(key & scope & Hkey & Hm & ->)|[-> _]]; cycle 1.
  { intros He. by apply explained_more, Hall. }
  unfold route_mutating.
  assert (Hk : key_of q = Some (DedupKey_for_request q key)) by (unfold key_of; by rewrite Hkey).
  destruct (dedup r !! DedupKey_for_request q key) as [e0|] eqn:He0.
  - pose proof (Hall _ _ He0) as Hex0.
    destruct (entry_state e0); repeat case_bool_decide; simpl;
      try (intros He; by apply explained_more, Hall).
    destruct (decide (DedupKey_for_request q key = k)) as [<-|Hne].
    + rewrite lookup_insert_eq. intros [= <-]. apply explained_more, explained_set; done.
    + rewrite lookup_insert_ne by done. intros He. by apply explained_more, Hall.
  - case_bool_decide; simpl.
    + intros He. apply explained_more. exact (explained_gc h r t Hall k e He).
    + destruct (decide (DedupKey_for_request q key = k)) as [<-|Hne].
      * rewrite lookup_insert_eq. intros [= <-]. split; simpl; [|done].
        exists t, q, p, c, scope. split; [|done]. apply elem_of_app. right.
        by apply list_elem_of_singleton.
      * rewrite lookup_insert_ne by done. intros He. apply explained_more.
        exact (explained_gc h r t Hall k e He).
Qed.

Lemma explained_step h ev r :
  (forall k e, dedup r !! k = Some e -> explained h k e) ->
  forall k e, dedup (step ev r).2 !! k = Some e -> explained (h ++ [(ev, (step ev r).1)]) k e.
Proof.
  intros Hall. destruct ev as [t q p c|t q res|t q|t]; [by apply explained_route|..];
    intros k e; simpl.
  - unfold mark_completed. destruct (matching_lease q r) as [[k' e']|] eqn:Hml; simpl;
      [|intros He; by apply explained_more, Hall].
    apply matching_lease_some in Hml as (Hk & He' & Hfp & _).
    destruct (decide (k' = k)) as [->|Hne].
    + rewrite lookup_insert_eq. intros [= <-]. split.
      * apply (explained_more _ _ k e'). by apply Hall.
      * simpl. exists q. split; [|done]. apply elem_of_app. right. by apply list_elem_of_singleton.
    + rewrite lookup_insert_ne by done. intros He. by apply explained_more, Hall.
  - unfold mark_failed. destruct (matching_lease q r) as [[k' e']|]; simpl.
    + intros [_ He]%lookup_delete_Some. by apply explained_more, Hall.
    + intros He. by apply explained_more, Hall.
  - intros He. apply explained_more. exact (explained_gc h r t Hall k e He).
Qed.

Lemma executes_explained r h r' :
  dedup r = ∅ -> executes r h r' -> forall k e, dedup r' !! k = Some e -> explained h k e.
Proof.
  intros Hr. revert r'. induction h as [|[ev o] h IH] using rev_ind; intros r'.
  - simpl. intros ->. rewrite Hr. intros k e. by rewrite lookup_empty.
  - intros (rm & Hex & Ho & Hr')%executes_app. simpl in *. subst r' o.
    apply explained_step. eauto.
Qed.

(** A replayed answer is the right one: when [route_with_capabilities]
    answers a request with [Replay], an equivalent request (same dedup key,
    same fingerprint) was accepted before under the operation id returned,
    and the result returned was recorded for it by a completion call that
    lies within the retention window. *)
Theorem replay_sound (r r' : OperationRouter) (h : list (event * output))
    (t : N) (q : OperationRequest) (p op : string) (c : CapabilitySet) (res : bytes) :
  dedup r = ∅ -> executes r h r' ->
  (route_with_capabilities t q p c r').1 = Replay op res ->
  exists k, key_of q = Some k /\
    (exists t0 q0 p0 c0 s0, (ERoute t0 q0 p0 c0, ODecision (Accept s0)) ∈ h /\
       key_of q0 = Some k /\ dedup_fingerprint_input q0 = dedup_fingerprint_input q /\
       req_operation_id q0 = op) /\
    (exists tc qc, (ECompleted tc qc res, OBool true) ∈ h /\ key_of qc = Some k /\
       dedup_fingerprint_input qc = dedup_fingerprint_input q /\ (t <= tc + retention r)%N).
Proof.
  intros Hr Hex Hd. destruct (executes_config _ _ _ Hex) as (Hret & _).
  destruct (route_cases t q p c r') as [(key & scope & Hkey & Hm & Heq)|[_ Hno]]; cycle 1.
  { by rewrite Hd in Hno. }
  rewrite Heq in Hd. unfold route_mutating in Hd.
  destruct (dedup r' !! DedupKey_for_request q key) as [e|] eqn:He; [|by case_bool_decide].
  pose proof (executes_explained _ _ _ Hr Hex _ _ He) as [Hacc Hcomp].
  destruct (entry_state e) as [since|res0 since|since]; [by case_bool_decide| |done].
  unfold duration_since in Hd. case_bool_decide as Hage; [done|].
  case_bool_decide as Hfp; [done|]. injection Hd as <- <-.
  destruct (decide (fingerprint e = dedup_fingerprint_input q)) as [Hf|]; [|by destruct Hfp].
  exists (DedupKey_for_request q key). split; [unfold key_of; by rewrite Hkey|]. split.
  - destruct Hacc as (t0 & q0 & p0 & c0 & s0 & Hin & Hk & Hf0 & Hop).
    exists t0, q0, p0, c0, s0. by rewrite Hf0.
  - destruct Hcomp as (qc & Hin & Hk & Hfc). exists since, qc. rewrite Hfc, <- Hret.
    split_and!; try done. lia.
Qed.

Lemma operation_route_plan_some kind plan :
  operation_route_plan kind = Some plan -> plan = OperationRoutePlan_new kind.
Proof. unfold operation_route_plan. destruct kind; by intros [= <-]. Qed.

Lemma missing_capability_none plan caps :
  missing_capability plan caps = None <->
  forall cap, plan_required_capability plan = Some cap -> CapabilitySet_has caps cap = true.
Proof.
  unfold missing_capability. destruct (plan_required_capability plan) as [cap|]; simpl; [|done].
  destruct (CapabilitySet_has caps cap) eqn:Hc; split; try done.
  - intros _ cap' [= <-]. done.
  - intros H. by rewrite (H cap eq_refl) in Hc.
Qed.

Lemma route_mutating_accept t q scope key r s :
  (route_mutating t q scope key r).1 = Accept s <->
  s = scope /\ dedup r !! DedupKey_for_request q key = None /\
  (N.of_nat (size (dedup (gc_at t r))) < max_dedup_records r)%N.
Proof.
  unfold route_mutating. destruct (dedup r !! _) as [e|].
  - split; [|by intros (_ & ? & _)]. destruct (entry_state e); repeat case_bool_decide; done.
  - change (max_dedup_records (gc_at t r)) with (max_dedup_records r).
    case_bool_decide; cbn [fst]; split; try done.
    + intros (_ & _ & ?). lia.
    + intros [= <-]. split_and!; [done..|lia].
    + by intros [-> _].
Qed.

(** Admission is exact: a request is accepted precisely when its principal
    is the session's, the kind is supported, a workload is named where the
    kind needs one, the peer negotiated the required capability and, for a
    mutating kind, its key is new and the dedup table has room; the scope
    handed to the executor is the one the kind prescribes. *)
Theorem accept_exact (t : N) (q : OperationRequest) (p : string) (c : CapabilitySet)
    (r : OperationRouter) (s : AuthorizationScope) :
  (route_with_capabilities t q p c r).1 = Accept s <->
  req_principal q = p /\ supported_operation_kind (req_kind q) = true /\
  s = OperationKind_authorization_scope (req_kind q) /\
  (OperationKind_requires_workload (req_kind q) = true -> is_Some (req_workload q)) /\
  (forall cap, OperationKind_required_capability (req_kind q) = Some cap ->
     CapabilitySet_has c cap = true) /\
  (OperationKind_is_mutating (req_kind q) = true ->
     exists k, key_of q = Some k /\ dedup r !! k = None /\
       (N.of_nat (size (dedup (gc_at t r))) < max_dedup_records r)%N).
Proof.
  unfold route_with_capabilities, supported_operation_kind.
  destruct (String.eqb_spec (req_principal q) p) as [Hp|Hp]; simpl; [|split; [done|by intros [? _]]].
  destruct (operation_route_plan (req_kind q)) as [plan|] eqn:Hplan; simpl; cycle 1.
  { split; [done|]. by intros (_ & Hb & _). }
  apply operation_route_plan_some in Hplan as ->.
  destruct (missing_capability (OperationRoutePlan_new (req_kind q)) c) as [cap|] eqn:Hmc; cycle 1.
  - rewrite missing_capability_none in Hmc. simpl in *.
    destruct (OperationKind_requires_workload (req_kind q)) eqn:Hw, (req_workload q) as [w|] eqn:Hwl;
      simpl; try (split; [done|]; intros (_ & _ & _ & H & _); by destruct (H eq_refl)).
    all: destruct (OperationKind_is_mutating (req_kind q)) eqn:Hm; simpl;
      [|split; [intros Heq; injection Heq as <-; split_and!; eauto; done
               |by intros (_ & _ & -> & _)]].
    all: unfold key_of; destruct (req_idempotency_key q) as [key|]; simpl;
      [|split; [done|]; intros (_ & _ & _ & _ & _ & H); by destruct (H eq_refl) as (? & ? & _)].
    all: rewrite route_mutating_accept; split;
      [intros (-> & Hn & Hsz); split_and!; eauto; done
      |intros (_ & _ & -> & _ & _ & H); destruct (H eq_refl) as (k & [= <-] & ? & ?); done].
  - split.
    + intros H. exfalso. destruct (_ && _); done.
    + intros (_ & _ & _ & _ & Hcap & _). exfalso. unfold missing_capability in Hmc. simpl in Hmc.
      destruct (OperationKind_required_capability (req_kind q)) as [cap'|]; simpl in Hmc; [|done].
      by rewrite (Hcap cap' eq_refl) in Hmc.
Qed.

Lemma gc_size t r : size (dedup (gc_at t r)) <= size (dedup r).
Proof.
  unfold gc_at. simpl. etrans; [apply map_size_filter|]. by rewrite map_size_fmap.
Qed.

Lemma step_size ev r :
  (N.of_nat (size (dedup r)) <= max_dedup_records r)%N ->
  (N.of_nat (size (dedup (step ev r).2)) <= max_dedup_records r)%N.
Proof.
  intros Hle. destruct ev as [t q p c|t q res|t q|t]; simpl.
  - destruct (route_cases t q p c r) as [(key & scope & _ & _ & ->)|[-> _]]; [|done].
    pose proof (gc_size t r). unfold route_mutating.
    destruct (dedup r !! _) as [e|] eqn:He.
    + destruct (entry_state e); repeat case_bool_decide; simpl; try done.
      by rewrite map_size_insert, He.
    + change (max_dedup_records (gc_at t r)) with (max_dedup_records r).
      case_bool_decide; cbn [snd]; [lia|]. cbn [set_dedup dedup].
      rewrite map_size_insert. destruct (dedup (gc_at t r) !! _); unfold id; lia.
  - unfold mark_completed. destruct (matching_lease q r) as [[k e]|] eqn:Hml; simpl; [|done].
    apply matching_lease_some in Hml as (_ & He & _). by rewrite map_size_insert, He.
  - unfold mark_failed. destruct (matching_lease q r) as [[k e]|]; simpl; [|done].
    rewrite map_size_delete. destruct (dedup r !! k); unfold id; lia.
  - pose proof (gc_size t r) as Hgc. unfold gc_at in Hgc. simpl in Hgc. lia.
Qed.

(** The dedup table never holds more than [max_dedup_records] records,
    whatever calls are made: the router refuses work instead. *)
Theorem dedup_bounded (r r' : OperationRouter) (h : list (event * output)) :
  dedup r = ∅ -> executes r h r' -> (tracked r' <= max_dedup_records r)%N.
Proof.
  intros Hr. assert (Hle : (N.of_nat (size (dedup r)) <= max_dedup_records r)%N)
    by (rewrite Hr, map_size_empty; lia).
  clear Hr. unfold tracked. revert r Hle. induction h as [|[ev o] h IH]; intros r Hle; simpl.
  - by intros ->.
  - intros [_ Hex]. destruct (step_config ev r) as (_ & _ & Hmax). rewrite <- Hmax.
    apply IH; [|done]. rewrite Hmax. by apply step_size.
Qed.

(** Stale leases are reported, never resolved: whatever order the hash map
    yields its entries in, [reconcilable_leases] lists exactly the running
    operations older than the bound, oldest first. *)
Theorem reconcilable_leases_exact (r : OperationRouter) (now older_than : N)
    (values : list DedupEntry) :
  values ≡ₚ (map_to_list (dedup r)).*2 ->
  StronglySorted older (reconcilable_leases now older_than values) /\
  forall l, l ∈ reconcilable_leases now older_than values <->
    exists k e since, dedup r !! k = Some e /\ entry_state e = DedupState_InProgress since /\
      (older_than < now - since)%N /\
      l = mkReconcilableLease (original_operation_id e) (now - since).
Proof.
  intros Hv. unfold reconcilable_leases. split.
  - apply StronglySorted_merge_sort; apply _.
  - intros l. rewrite merge_sort_Permutation, list_elem_of_omap. setoid_rewrite Hv.
    setoid_rewrite list_elem_of_fmap. split.
    + intros (e & ([k e'] & -> & Hk%elem_of_map_to_list) & Hs). unfold stale_lease in Hs.
      simpl in *. destruct (entry_state e') as [since| |] eqn:He; try done.
      unfold duration_since in Hs. case_bool_decide; [|done]. injection Hs as <-. eauto 10.
    + intros (k & e & since & Hk & He & Hold & ->). exists e. split.
      * exists (k, e). split; [done|]. by apply elem_of_map_to_list.
      * unfold stale_lease, duration_since. by rewrite He, bool_decide_true.
Qed.

(** [with_retention] keeps the no-reuse horizon at least as long as the
    retention window, but not one window longer as its documentation says: a
    one-hour retention on a default router leaves the horizon at one hour. *)
Theorem with_retention_horizon :
  (forall self d, (d <= Duration_max)%N -> (d <= no_reuse_horizon (with_retention self d))%N) /\
  no_reuse_horizon (with_retention with_clock (from_secs 3600)) = from_secs 3600.
Proof.
  split; [|by vm_compute]. intros self d Hd. unfold with_retention. simpl.
  case_bool_decide; [|lia]. unfold saturating_mul. lia.
Qed.

(** *** Witnesses *)

Definition history (evs : list event) (r : OperationRouter) : list (event * output) :=
  (fix go evs r := match evs with
                   | [] => []
                   | ev :: evs => (ev, (step ev r).1) :: go evs (step ev r).2
                   end) evs r.

Definition final (evs : list event) (r : OperationRouter) : OperationRouter :=
  fold_left (fun r ev => (step ev r).2) evs r.

Lemma executes_history evs r : executes r (history evs r) (final evs r).
Proof. revert r. induction evs as [|ev evs IH]; intros r; simpl; [done|]. split; [done|apply IH]. Qed.

Definition demo_caps : CapabilitySet := CapabilitySet_from_caps [Capability_Lifecycle].
Definition demo_req : OperationRequest := demo_request ["a"%char].
Definition demo_route (t : N) : event := ERoute t demo_req "alice" demo_caps.
Definition demo_accept : output := ODecision (Accept (AuthorizationScope_Capability Capability_Lifecycle)).
Definition demo_key : DedupKey := DedupKey_for_request demo_req "key-1".

Definition demo_retry : list event := [demo_route 0; EFailed 1 demo_req; demo_route 2].

Lemma demo_accepts t : accepts demo_key (demo_route t, demo_accept).
Proof. by eexists t, demo_req, _, _, _. Qed.

Lemma no_double_execution_witness :
  exists z, z ∈ [(EFailed 1 demo_req, OBool true)] /\
    (fails demo_key z \/
     exists tc, completes demo_key tc z /\
       (tc + retention with_clock + no_reuse_horizon with_clock < 2)%N).
Proof.
  pose proof (executes_history demo_retry with_clock) as Hex.
  replace (history demo_retry with_clock)
    with ([] ++ (demo_route 0, demo_accept) :: [(EFailed 1 demo_req, OBool true)]
          ++ (demo_route 2, demo_accept) :: []) in Hex by (vm_compute; reflexivity).
  apply (no_double_execution with_clock (final demo_retry with_clock) 0 demo_key []
           [(EFailed 1 demo_req, OBool true)] [] (demo_route 0, demo_accept)
           (demo_route 2, demo_accept)).
  - exact Hex.
  - simpl. lia.
  - apply demo_accepts.
  - apply demo_accepts.
Defined.

Definition demo_done : list event := [demo_route 0; ECompleted 5 demo_req ["r"%char]].

Lemma replay_sound_witness :
  exists k, key_of demo_req = Some k.
Proof.
  destruct (replay_sound with_clock (final demo_done with_clock) (history demo_done with_clock)
              7 demo_req "alice" "op-1" demo_caps ["r"%char]) as (k & Hk & _).
  - reflexivity.
  - apply executes_history.
  - vm_compute; reflexivity.
  - exists k. exact Hk.
Defined.

Lemma dedup_bounded_witness : (tracked (final demo_done with_clock) <= 65536)%N.
Proof.
  apply (dedup_bounded with_clock (final demo_done with_clock) (history demo_done with_clock)).
  - reflexivity.
  - apply executes_history.
Defined.

Lemma reconcilable_leases_exact_witness :
  StronglySorted older (reconcilable_leases 9 3 (map_to_list (dedup (final [demo_route 0] with_clock))).*2).
Proof.
  apply (reconcilable_leases_exact (final [demo_route 0] with_clock) 9 3). reflexivity.
Defined.

End Router.
