(* ===== verification/Session.v ===== *)
(** * Peer sessions

    [packages/d2b-realm-router/src/session.rs], [mux_session.rs] and
    [session_lifecycle.rs].  [Module PeerSession] is the handshake and the
    length-prefixed framing over a byte stream; [Module MuxSession] puts the
    operation table and the stream multiplexer on top of it;
    [Module SessionLifecycle] is the phase machine of a gateway session.  The
    codec is the interface [ProtocolCodec]; the byte stream is the list of
    bytes that arrive and the list of bytes written, with the write error the
    transport reports, if any. *)

From S2P Require Import Prelude Ids Streams Frame Mux Router.

Local Open Scope rust_scope.

(** The codec trait of [packages/d2b-realm-provider/src/provider.rs]. *)
Class ProtocolCodec := {
  codec_id : string;
  encode_frame : ConstellationFrame -> result bytes ConstellationError;
  decode_frame : bytes -> result ConstellationFrame ConstellationError;
  schema_fingerprint : string
}.

Module PeerSession.

Definition PROTOCOL_VERSION : N := 1.
Definition MAX_FRAME_BYTES : N := 1024 * 1024.

Inductive Role := Role_Client | Role_Server.

(** One end of a duplex byte stream. *)
Record ByteStream := mkByteStream {
  incoming : bytes;
  outgoing : bytes;
  write_error : option string;
  flush_error : option string
}.

Abbreviation io := (handler ByteStream ConstellationError) (only parsing).

Definition error (kind : ErrorKind) (message : string) : ConstellationError :=
  ConstellationError_new kind message.

Definition write_all (bs : bytes) : handler ByteStream string unit := fun s =>
  match write_error s with
  | Some kind => (Err kind, s)
  | None => (Ok tt, mkByteStream (incoming s) (outgoing s ++ bs) (write_error s) (flush_error s))
  end.

Definition flush : handler ByteStream string unit := fun s =>
  match flush_error s with Some kind => (Err kind, s) | None => (Ok tt, s) end.

(** [read_exact]: the next [n] bytes, or the end-of-file error. *)
Definition read_exact (n : nat) : handler ByteStream string bytes := fun s =>
  if bool_decide (length (incoming s) < n) then
    (Err "unexpected end of file"%string,
     mkByteStream [] (outgoing s) (write_error s) (flush_error s))
  else
    (Ok (take n (incoming s)),
     mkByteStream (drop n (incoming s)) (outgoing s) (write_error s) (flush_error s)).

Definition map_err {A} (f : string -> ConstellationError) (h : handler ByteStream string A) : io A :=
  fun s => match h s with (Ok a, s') => (Ok a, s') | (Err e, s') => (Err (f e), s') end.

Definition write_frame (payload : bytes) : io unit :=
  h_reject (bool_decide (MAX_FRAME_BYTES < N.of_nat (length payload))%N)
    (error ErrorKind_FrameTooLarge "peer-session frame exceeds the maximum size") ?;
  map_err (fun kind => error ErrorKind_GatewayUnavailable ("peer-session write failed: " +:+ kind))
    (write_all (le_bytes 4 (N.of_nat (length payload)) ++ payload)) ?;
  map_err (fun kind => error ErrorKind_GatewayUnavailable ("peer-session flush failed: " +:+ kind))
    flush.

Definition read_frame : io bytes :=
  let? len_buf := map_err (fun kind => error ErrorKind_GatewayUnavailable
      ("peer-session closed before a frame length: " +:+ kind)) (read_exact 4) in
  let declared := from_le_bytes len_buf in
  h_reject (bool_decide (MAX_FRAME_BYTES < declared)%N)
    (error ErrorKind_FrameTooLarge "peer declared a frame above the maximum size") ?;
  map_err (fun kind => error ErrorKind_MalformedFrame
      ("peer-session truncated a frame body: " +:+ kind)) (read_exact (N.to_nat declared)).

Definition parse_codec_id (id : string) : result string ConstellationError :=
  match ProtocolToken_parse id with
  | Ok token => Ok token
  | Err err => Err (error ErrorKind_MalformedFrame ("codec id: " +:+ TokenError_display err))
  end.

Definition reconcile_common (ours theirs : Handshake) : result unit HandshakeRejectedReason :=
  if bool_decide (hs_protocol_version theirs <> hs_protocol_version ours)
  then Err HandshakeRejectedReason_VersionSkew
  else if bool_decide (hs_codec_id theirs <> hs_codec_id ours)
  then Err HandshakeRejectedReason_CodecMismatch
  else if bool_decide (hs_schema_fingerprint theirs <> hs_schema_fingerprint ours)
  then Err HandshakeRejectedReason_SchemaFingerprintMismatch
  else if bool_decide (hs_peer theirs <> hs_peer ours)
  then Err HandshakeRejectedReason_ChannelBindingMismatch
  else Ok tt.

Definition reconcile_proposal : Handshake -> Handshake -> result unit HandshakeRejectedReason :=
  reconcile_common.

Definition reconcile_selected (ours selected : Handshake) : result unit HandshakeRejectedReason :=
  match reconcile_common ours selected with
  | Err reason => Err reason
  | Ok _ =>
      let set := negotiated_set (hs_capabilities selected) in
      if negb (CapabilitySet_is_subset_of set (negotiated_set (hs_capabilities ours)))
      then Err HandshakeRejectedReason_CapabilityMismatch
      else if bool_decide (negotiated_fingerprint (hs_capabilities selected)
                           <> CapabilitySet_stable_fingerprint set)
      then Err HandshakeRejectedReason_CapabilityMismatch
      else Ok tt
  end.

Definition handshake_rejected_error (reason : HandshakeRejectedReason) : ConstellationError :=
  error
    (match reason with
     | HandshakeRejectedReason_VersionSkew
     | HandshakeRejectedReason_CodecMismatch
     | HandshakeRejectedReason_SchemaFingerprintMismatch
     | HandshakeRejectedReason_CapabilityMismatch => ErrorKind_VersionSkew
     | HandshakeRejectedReason_ChannelBindingMismatch => ErrorKind_AuthenticationFailed
     | HandshakeRejectedReason_MalformedHandshake => ErrorKind_MalformedFrame
     end)
    ("peer handshake rejected: " +:+ HandshakeRejectedReason_debug reason).

Section codec.
Context `{ProtocolCodec}.

Definition expect_handshake_accept (bs : bytes) : result HandshakeAccepted ConstellationError :=
  match decode_frame bs with
  | Err e => Err e
  | Ok (ConstellationFrame_HandshakeAccepted h) => Ok h
  | Ok (ConstellationFrame_HandshakeRejected rejected) =>
      Err (handshake_rejected_error (rejected_reason rejected))
  | Ok _ => Err (error ErrorKind_MalformedFrame
                   "expected a handshake-accepted frame before any other traffic")
  end.

Definition expect_handshake (bs : bytes) : result Handshake ConstellationError :=
  match decode_frame bs with
  | Err e => Err e
  | Ok (ConstellationFrame_Handshake h) => Ok h
  | Ok _ => Err (error ErrorKind_MalformedFrame
                   "expected a handshake frame before any other traffic")
  end.

(** Encode and send one semantic frame. *)
Definition send (frame : ConstellationFrame) : io unit :=
  let? bs := h_lift (encode_frame frame) in
  write_frame bs.

Definition recv : io ConstellationFrame :=
  let? bs := read_frame in
  h_lift (decode_frame bs).

Definition with_capabilities (h : Handshake) (c : CapabilityNegotiation) : Handshake :=
  mkHandshake (hs_protocol_version h) (hs_codec_id h) (hs_schema_fingerprint h) c (hs_peer h).

Definition establish_client (ours : Handshake) : io Handshake :=
  send (ConstellationFrame_Handshake ours) ?;
  let? bs := read_frame in
  let? accepted := h_lift (expect_handshake_accept bs) in
  match reconcile_selected ours (selected accepted) with
  | Err reason => h_throw (handshake_rejected_error reason)
  | Ok _ => h_ret (selected accepted)
  end.

(** [let _ = write_frame(..).await]: an error of the write is dropped, one of
    the encoder is not. *)
Definition establish_server (ours : Handshake) : io Handshake :=
  let? bs := read_frame in
  let? theirs := h_lift (expect_handshake bs) in
  match reconcile_proposal ours theirs with
  | Err reason =>
      let? rejected := h_lift (encode_frame
        (ConstellationFrame_HandshakeRejected (mkHandshakeRejected reason))) in
      (fun s => (Ok tt, (write_frame rejected s).2)) ?;
      h_throw (handshake_rejected_error reason)
  | Ok _ =>
      let chosen := with_capabilities ours
        (CapabilitySet_negotiation
           (CapabilitySet_intersection (negotiated_set (hs_capabilities ours))
              (negotiated_set (hs_capabilities theirs)))) in
      send (ConstellationFrame_HandshakeAccepted (mkHandshakeAccepted chosen)) ?;
      h_ret chosen
  end.

Definition establish (role : Role) (capabilities : CapabilitySet) : io Handshake :=
  let? codec := h_lift (parse_codec_id codec_id) in
  let? schema := h_lift (parse_codec_id schema_fingerprint) in
  let ours := mkHandshake PROTOCOL_VERSION codec schema
                (CapabilitySet_negotiation capabilities) None in
  match role with
  | Role_Client => establish_client ours
  | Role_Server => establish_server ours
  end.

Definition connect_with_capabilities : CapabilitySet -> io Handshake := establish Role_Client.
Definition accept_with_capabilities : CapabilitySet -> io Handshake := establish Role_Server.

End codec.

(** ** Framing *)

Definition frame_bytes (p : bytes) : bytes := le_bytes 4 (N.of_nat (length p)) ++ p.

Definition fits_frame (p : bytes) : Prop := (N.of_nat (length p) <= MAX_FRAME_BYTES)%N.

Lemma fits_frame_u32 p : fits_frame p -> (N.of_nat (length p) < 256 ^ N.of_nat 4)%N.
Proof.
  unfold fits_frame, MAX_FRAME_BYTES. change (256 ^ N.of_nat 4)%N with 4294967296%N. lia.
Qed.

Lemma write_frame_ok p inc out :
  fits_frame p ->
  write_frame p (mkByteStream inc out None None) =
  (Ok tt, mkByteStream inc (out ++ frame_bytes p) None None).
Proof.
  intros Hp. unfold write_frame, map_err, write_all, flush. unfold_handler.
  unfold fits_frame in Hp. by rewrite bool_decide_false by lia.
Qed.

Lemma read_exact_ok n s :
  n <= length (incoming s) ->
  read_exact n s = (Ok (take n (incoming s)),
    mkByteStream (drop n (incoming s)) (outgoing s) (write_error s) (flush_error s)).
Proof. intros Hn. unfold read_exact. by rewrite bool_decide_false by lia. Qed.

Lemma read_frame_ok p rest out we fe :
  fits_frame p ->
  read_frame (mkByteStream (frame_bytes p ++ rest) out we fe) =
  (Ok p, mkByteStream rest out we fe).
Proof.
  intros Hp. unfold read_frame, map_err, frame_bytes. unfold_handler. rewrite <- app_assoc.
  rewrite read_exact_ok by (cbn [incoming]; rewrite length_app, le_bytes_length; lia). cbn [incoming outgoing].
  rewrite take_app_length', drop_app_length' by (by rewrite le_bytes_length).
  rewrite from_le_bytes_le_bytes by (by apply fits_frame_u32).
  rewrite bool_decide_false by (unfold fits_frame in Hp; lia).
  rewrite read_exact_ok by (simpl; rewrite Nat2N.id, length_app; lia). cbn [incoming outgoing].
  by rewrite Nat2N.id, take_app_length, drop_app_length.
Qed.

Lemma frame_bytes_of hd p :
  length hd = 4 -> from_le_bytes hd = N.of_nat (length p) -> frame_bytes p = hd ++ p.
Proof.
  intros H1 H2. transitivity (le_bytes 4 (N.of_nat (length p)) ++ p); [done|].
  by rewrite <- H2, <- H1, le_bytes_from.
Qed.

(** Framing is exact: [read_frame] returns a payload precisely when the
    input starts with the bytes [write_frame] produces for it, of a payload
    within [MAX_FRAME_BYTES], and consumes exactly those bytes. *)
Theorem framing_exact (s : ByteStream) (p : bytes) (s' : ByteStream) :
  read_frame s = (Ok p, s') <->
  fits_frame p /\ exists rest, incoming s = frame_bytes p ++ rest /\
    s' = mkByteStream rest (outgoing s) (write_error s) (flush_error s).
Proof.
  split; cycle 1.
  { intros (Hp & rest & Hin & ->). destruct s as [inc out we fe]. simpl in *. subst inc.
    by apply read_frame_ok. }
  unfold read_frame, map_err. unfold_handler.
  unfold read_exact at 1. case_bool_decide as Hlen; [done|].
  set (hd := take 4 (incoming s)).
  assert (Hhd : length hd = 4) by (unfold hd; rewrite length_take; lia).
  case_bool_decide as Hmax; [done|]. unfold read_exact. cbn [incoming outgoing write_error flush_error]. case_bool_decide as Hbody; [done|].
  intros [= <- <-]. rewrite length_drop in Hbody.
  assert (Hplen : length (take (N.to_nat (from_le_bytes hd)) (drop 4 (incoming s)))
                  = N.to_nat (from_le_bytes hd)) by (rewrite length_take, length_drop; lia).
  split; [unfold fits_frame; rewrite Hplen; lia|].
  exists (drop (N.to_nat (from_le_bytes hd)) (drop 4 (incoming s))). split; [|done].
  rewrite (frame_bytes_of hd), <- app_assoc, take_drop by (rewrite ?Hplen; lia).
  unfold hd. by rewrite take_drop.
Qed.

(** ** The handshake *)

Lemma subset_refl_inter c1 c2 :
  CapabilitySet_is_subset_of (CapabilitySet_intersection c1 c2) c2 = true /\
  CapabilitySet_is_subset_of (CapabilitySet_intersection c1 c2) c1 = true.
Proof.
  unfold CapabilitySet_is_subset_of, CapabilitySet_intersection. simpl.
  split; rewrite !bool_decide_true by set_solver; done.
Qed.

Lemma reconcile_common_ok ours theirs :
  reconcile_common ours theirs = Ok tt <->
  hs_protocol_version theirs = hs_protocol_version ours /\ hs_codec_id theirs = hs_codec_id ours /\
  hs_schema_fingerprint theirs = hs_schema_fingerprint ours /\ hs_peer theirs = hs_peer ours.
Proof.
  unfold reconcile_common. split.
  - repeat case_bool_decide; try done.
  - intros (-> & -> & -> & ->). by rewrite !bool_decide_false by (intros Hn; by apply Hn).
Qed.

Lemma reconcile_selected_ok ours sel :
  reconcile_selected ours sel = Ok tt <->
  reconcile_common ours sel = Ok tt /\
  CapabilitySet_is_subset_of (negotiated_set (hs_capabilities sel))
    (negotiated_set (hs_capabilities ours)) = true /\
  negotiated_fingerprint (hs_capabilities sel) =
    CapabilitySet_stable_fingerprint (negotiated_set (hs_capabilities sel)).
Proof.
  unfold reconcile_selected. destruct (reconcile_common ours sel) as [[]|e]; [|by split; [|intros [? _]]].
  destruct (CapabilitySet_is_subset_of _ _); simpl; [|by split; [|intros (_ & ? & _)]].
  case_bool_decide as Hf; split; try done.
  intros (_ & _ & ?). by destruct Hf.
Qed.

Definition offer `{ProtocolCodec} (caps : CapabilitySet) : Handshake :=
  mkHandshake PROTOCOL_VERSION codec_id schema_fingerprint (CapabilitySet_negotiation caps) None.

Definition agreement `{ProtocolCodec} (server client : CapabilitySet) : Handshake :=
  with_capabilities (offer server)
    (CapabilitySet_negotiation (CapabilitySet_intersection server client)).

Lemma parse_codec_id_ok id tok :
  parse_codec_id id = Ok tok <-> tok = id /\ ProtocolToken_parse id = Ok id.
Proof.
  unfold parse_codec_id. destruct (ProtocolToken_parse id) as [t|e] eqn:Ht.
  - assert (t = id) as ->.
    { unfold ProtocolToken_parse in Ht. by repeat case_match; simplify_eq. }
    naive_solver.
  - naive_solver.
Qed.

(** The handshake agrees: when a client and a server run the same codec
    and each reads what the other writes, both establish a session with the
    same parameters, whose capabilities are exactly those both offered, and
    neither consumes a byte of the traffic that follows. *)
Theorem handshake_agreement `{ProtocolCodec} (cc cs : CapabilitySet) (hello reply : bytes)
    (rest_c rest_s : bytes) :
  ProtocolToken_parse codec_id = Ok codec_id ->
  ProtocolToken_parse schema_fingerprint = Ok schema_fingerprint ->
  encode_frame (ConstellationFrame_Handshake (offer cc)) = Ok hello ->
  decode_frame hello = Ok (ConstellationFrame_Handshake (offer cc)) -> fits_frame hello ->
  encode_frame (ConstellationFrame_HandshakeAccepted (mkHandshakeAccepted (agreement cs cc)))
    = Ok reply ->
  decode_frame reply
    = Ok (ConstellationFrame_HandshakeAccepted (mkHandshakeAccepted (agreement cs cc))) ->
  fits_frame reply ->
  connect_with_capabilities cc (mkByteStream (frame_bytes reply ++ rest_c) [] None None) =
    (Ok (agreement cs cc), mkByteStream rest_c (frame_bytes hello) None None) /\
  accept_with_capabilities cs (mkByteStream (frame_bytes hello ++ rest_s) [] None None) =
    (Ok (agreement cs cc), mkByteStream rest_s (frame_bytes reply) None None).
Proof.
  intros Hid Hsch Hh Hdh Hfh Hr Hdr Hfr.
  pose proof (proj2 (parse_codec_id_ok _ _) (conj eq_refl Hid)) as Hid'.
  pose proof (proj2 (parse_codec_id_ok _ _) (conj eq_refl Hsch)) as Hsch'.
  split.
  - unfold connect_with_capabilities, establish, establish_client, send. unfold_handler.
    rewrite Hid', Hsch'. fold (offer cc). rewrite Hh, write_frame_ok by done. cbv beta iota.
    rewrite read_frame_ok by done. unfold expect_handshake_accept. rewrite Hdr.
    assert (reconcile_selected (offer cc) (agreement cs cc) = Ok tt) as Hrec.
    { apply reconcile_selected_ok. split_and!; [by apply reconcile_common_ok| |done].
      apply subset_refl_inter. }
    cbn [selected]. by rewrite Hrec.
  - unfold accept_with_capabilities, establish, establish_server, send. unfold_handler.
    rewrite Hid', Hsch'. fold (offer cs). rewrite read_frame_ok by done.
    unfold expect_handshake. rewrite Hdh.
    assert (reconcile_proposal (offer cs) (offer cc) = Ok tt) as ->
      by (by apply reconcile_common_ok).
    cbn [negotiated_set hs_capabilities offer CapabilitySet_negotiation].
    fold (agreement cs cc). by rewrite Hr, write_frame_ok.
Qed.

(** The handshake fails closed against any peer: whatever bytes arrive, a
    session is established only with this build's protocol version, codec and
    schema, no peer identity, capabilities this endpoint offered and the
    fingerprint that belongs to them. *)
Theorem handshake_fail_closed `{ProtocolCodec} (role : Role) (caps : CapabilitySet)
    (s : ByteStream) (h : Handshake) (s' : ByteStream) :
  establish role caps s = (Ok h, s') ->
  hs_protocol_version h = PROTOCOL_VERSION /\ hs_codec_id h = codec_id /\
  hs_schema_fingerprint h = schema_fingerprint /\ hs_peer h = None /\
  CapabilitySet_is_subset_of (negotiated_set (hs_capabilities h)) caps = true /\
  negotiated_fingerprint (hs_capabilities h) =
    CapabilitySet_stable_fingerprint (negotiated_set (hs_capabilities h)).
Proof.
  unfold establish. unfold_handler. destruct (parse_codec_id codec_id) as [c|] eqn:Hc; [|done].
  destruct (parse_codec_id schema_fingerprint) as [sch|] eqn:Hs; [|done].
  apply parse_codec_id_ok in Hc as [-> _], Hs as [-> _]. fold (offer caps). destruct role.
  - unfold establish_client. unfold_handler. destruct (send _ s) as [[]s1]; [|done].
    destruct (read_frame s1) as [[bs|]s2]; [|done].
    destruct (expect_handshake_accept bs) as [acc|]; [|done].
    destruct (reconcile_selected (offer caps) (selected acc)) as [[]|] eqn:Hrec; [|done].
    intros [= <- <-]. apply reconcile_selected_ok in Hrec as (Hcom & Hsub & Hf).
    apply reconcile_common_ok in Hcom as (? & ? & ? & ?). done.
  - unfold establish_server. unfold_handler. destruct (read_frame s) as [[bs|]s1]; [|done].
    destruct (expect_handshake bs) as [theirs|]; [|done].
    destruct (reconcile_proposal (offer caps) theirs).
    + destruct (send _ s1) as [[]s2]; [|done]. intros [= <- <-]. simpl.
      split_and!; try done. apply subset_refl_inter.
    + destruct (encode_frame _); [|done]. done.
Qed.

(** *** Witnesses *)

Definition demo_client : CapabilitySet := CapabilitySet_from_caps [Capability_Logs; Capability_Exec].
Definition demo_server : CapabilitySet := CapabilitySet_from_caps [Capability_Logs; Capability_Usb].

Definition demo_offer (caps : CapabilitySet) : Handshake :=
  mkHandshake 1 "demo" "v1" (CapabilitySet_negotiation caps) None.

(** A codec that knows the two frames of one handshake. *)
Definition demo_codec : ProtocolCodec := {|
  codec_id := "demo";
  schema_fingerprint := "v1";
  encode_frame f :=
    match f with
    | ConstellationFrame_Handshake _ => Ok ["a"%char]
    | ConstellationFrame_HandshakeAccepted _ => Ok ["b"%char]
    | _ => Err (error ErrorKind_MalformedFrame "not a handshake")
    end;
  decode_frame bs :=
    if bool_decide (bs = ["a"%char])
    then Ok (ConstellationFrame_Handshake (demo_offer demo_client))
    else if bool_decide (bs = ["b"%char])
    then Ok (ConstellationFrame_HandshakeAccepted (mkHandshakeAccepted
               (demo_offer (CapabilitySet_intersection demo_server demo_client))))
    else Err (error ErrorKind_MalformedFrame "not a handshake")
|}.

Lemma handshake_agreement_witness :
  accept_with_capabilities (H := demo_codec) demo_server
    (mkByteStream (frame_bytes ["a"%char]) [] None None) =
  (Ok (demo_offer (CapabilitySet_from_caps [Capability_Logs])),
   mkByteStream [] (frame_bytes ["b"%char]) None None).
Proof.
  replace (CapabilitySet_from_caps [Capability_Logs])
    with (CapabilitySet_intersection demo_server demo_client) by (vm_compute; reflexivity).
  rewrite <- (app_nil_r (frame_bytes ["a"%char])).
  apply (handshake_agreement (H := demo_codec) demo_client demo_server ["a"%char] ["b"%char] [] []);
    try (vm_compute; reflexivity); vm_compute; discriminate.
Defined.

Lemma handshake_fail_closed_witness :
  CapabilitySet_is_subset_of
    (negotiated_set (hs_capabilities
       (demo_offer (CapabilitySet_intersection demo_server demo_client)))) demo_server = true.
Proof.
  apply (handshake_fail_closed (H := demo_codec) Role_Server demo_server
           (mkByteStream (frame_bytes ["a"%char]) [] None None)
           (demo_offer (CapabilitySet_intersection demo_server demo_client))
           (mkByteStream [] (frame_bytes ["b"%char]) None None)).
  vm_compute; reflexivity.
Defined.

End PeerSession.

Module MuxSession.
Import PeerSession.

Definition MAX_OPERATION_CONTEXTS : nat := 4096.

Record OperationStreamContext := mkOperationStreamContext {
  ctx_kind : OperationKind;
  ctx_correlation_id : string;
  ctx_realm : RealmPath;
  ctx_node : string;
  ctx_principal : string;
  ctx_trace : option TraceContext;
  ctx_stream_kinds : list StreamKind
}.

Record MuxSession := mkMuxSession {
  peer : ByteStream;
  negotiated : Handshake;
  mux : StreamMux.StreamMux;
  capabilities : CapabilitySet;
  operations : gmap string OperationStreamContext;
  operation_order : list string;
  last_admission_denial : option AdmissionAuditRecord
}.

Definition set_peer (p : ByteStream) (s : MuxSession) : MuxSession :=
  mkMuxSession p (negotiated s) (mux s) (capabilities s) (operations s) (operation_order s)
    (last_admission_denial s).
Definition set_mux (m : StreamMux.StreamMux) (s : MuxSession) : MuxSession :=
  mkMuxSession (peer s) (negotiated s) m (capabilities s) (operations s) (operation_order s)
    (last_admission_denial s).
Definition set_operations (ops : gmap string OperationStreamContext) (order : list string)
    (s : MuxSession) : MuxSession :=
  mkMuxSession (peer s) (negotiated s) (mux s) (capabilities s) ops order
    (last_admission_denial s).
Definition set_denial (d : option AdmissionAuditRecord) (s : MuxSession) : MuxSession :=
  mkMuxSession (peer s) (negotiated s) (mux s) (capabilities s) (operations s) (operation_order s) d.

Abbreviation session := (handler MuxSession ConstellationError) (only parsing).

(** Calls on [self.peer] and [self.mux]. *)
Definition on_peer {A} (h : handler ByteStream ConstellationError A) : session A :=
  fun s => let '(r, p) := h (peer s) in (r, set_peer p s).
Definition on_mux {A} (h : handler StreamMux.StreamMux ConstellationError A) : session A :=
  fun s => let '(r, m) := h (mux s) in (r, set_mux m s).

Definition with_mux (p : ByteStream) (h : Handshake) (m : StreamMux.StreamMux) : MuxSession :=
  mkMuxSession p h m (negotiated_set (hs_capabilities h)) ∅ [] None.

Definition new (p : ByteStream) (h : Handshake) : MuxSession := with_mux p h StreamMux.new.

(** The [while] that forgets the oldest contexts beyond the cap. *)
Fixpoint prune_operations (max : nat) (order : list string)
    (ops : gmap string OperationStreamContext) : list string * gmap string OperationStreamContext :=
  match order with
  | [] => ([], ops)
  | expired :: rest =>
      if bool_decide (max < length order) then prune_operations max rest (delete expired ops)
      else (order, ops)
  end.

Definition context_of (req : OperationRequest) (plan : Router.OperationRoutePlan) :
    OperationStreamContext :=
  mkOperationStreamContext (req_kind req) (req_correlation_id req) (req_realm req) (req_node req)
    (req_principal req) (req_trace req) (Router.plan_stream_kinds plan).

Definition correlated (kind : ErrorKind) (message correlation_id : string) : ConstellationError :=
  with_correlation_id (ConstellationError_new kind message) correlation_id.

Definition register_operation (req : OperationRequest) : session unit :=
  match Router.operation_route_plan (req_kind req) with
  | None =>
      h_throw (correlated ErrorKind_UnsupportedFeature
        ("operation kind '" +:+ OperationKind_code (req_kind req) +:+ "' is not supported")
        (req_correlation_id req))
  | Some plan =>
      h_reject (Router.plan_requires_workload plan && bool_decide (req_workload req = None))
        (correlated ErrorKind_InvalidTarget
           ("operation kind '" +:+ OperationKind_code (req_kind req)
            +:+ "' requires a workload target") (req_correlation_id req)) ?;
      let? self := h_get in
      h_reject (bool_decide (is_Some (operations self !! req_operation_id req)))
        (correlated ErrorKind_MalformedFrame
           ("operation id '" +:+ req_operation_id req
            +:+ "' is already registered on this mux session") (req_correlation_id req)) ?;
      h_modify (fun self =>
        let '(order, ops) :=
          prune_operations MAX_OPERATION_CONTEXTS (operation_order self ++ [req_operation_id req])
            (<[req_operation_id req := context_of req plan]> (operations self)) in
        set_operations ops order self)
  end.

Definition unregister_operation (operation_id : string) (self : MuxSession) : MuxSession :=
  set_operations (delete operation_id (operations self))
    (List.filter (fun id => negb (String.eqb id operation_id)) (operation_order self)) self.

Definition unregister_operations_by_correlation_id (correlation_id : string) (self : MuxSession) :
    MuxSession :=
  let ops := filter (fun kv => ctx_correlation_id kv.2 <> correlation_id) (operations self) in
  set_operations ops
    (List.filter (fun id => bool_decide (is_Some (ops !! id))) (operation_order self)) self.

(** [negotiated_principal], [connection_principal] and
    [audit_principal_for_denial]. *)
Definition negotiated_principal (self : MuxSession) : option string :=
  p ← hs_peer (negotiated self); peer_principal p.

Definition unverified_principal : string := "unverified".

Definition connection_principal (self : MuxSession) : string :=
  default unverified_principal (negotiated_principal self).

Definition ensure_stream_admitted (open : StreamOpen) (self : MuxSession) :
    result unit ConstellationError :=
  let kind := descriptor_kind (open_descriptor open) in
  let authz := open_authz open in
  if bool_decide (kind = StreamKind_Control) then
    if bool_decide (authz_principal authz <> connection_principal self)
       || bool_decide (authz_realm authz <> RealmPath_local)
    then Err (ConstellationError_new ErrorKind_Unauthorized
                "control stream authorization context does not match the peer session")
    else if negb (CapabilitySet_has (capabilities self) Capability_Lifecycle)
    then Err (capability_denied Capability_Lifecycle)
    else Ok tt
  else match operations self !! open_operation_id open with
  | None =>
      Err (ConstellationError_new ErrorKind_InvalidTarget
             ("stream kind '" +:+ StreamKind_code kind +:+ "' has no accepted operation context"))
  | Some context =>
      if bool_decide (authz_principal authz <> ctx_principal context)
         || bool_decide (authz_realm authz <> ctx_realm context)
      then Err (ConstellationError_new ErrorKind_InvalidTarget
             ("stream kind '" +:+ StreamKind_code kind +:+ "' has no accepted operation context"))
      else if negb (Router.supported_stream_kind kind)
      then Err (correlated ErrorKind_UnsupportedFeature
             ("stream kind '" +:+ StreamKind_code kind +:+ "' is not supported")
             (ctx_correlation_id context))
      else if negb (bool_decide (kind ∈ ctx_stream_kinds context))
      then Err (correlated ErrorKind_MalformedFrame
             ("stream kind '" +:+ StreamKind_code kind
              +:+ "' is not permitted for operation kind '"
              +:+ OperationKind_code (ctx_kind context) +:+ "'") (ctx_correlation_id context))
      else Ok tt
  end%string.

Definition record_stream_denial (open : StreamOpen) (err : ConstellationError)
    (self : MuxSession) : MuxSession :=
  let safe_context :=
    match err_correlation_id err with
    | Some _ => operations self !! open_operation_id open
    | None => None
    end in
  let correlation_id :=
    match err_correlation_id err with
    | Some c => c
    | None => default "stream-open-denied"%string (ctx_correlation_id <$> safe_context)
    end in
  let node := default "unknown"%string (ctx_node <$> safe_context) in
  let audit_realm := default RealmPath_local (ctx_realm <$> safe_context) in
  let record :=
    aar_with_principal
      (AdmissionAuditRecord_denied (open_operation_id open) correlation_id audit_realm node
         (AuthorizationScope_Capability (authz_capability (open_authz open))) (err_kind err))
      (connection_principal self) in
  let record :=
    match (context ← safe_context; ctx_trace context) with
    | Some trace => aar_with_trace record trace
    | None => record
    end in
  set_denial (Some record) self.

(** The [StreamOpen] arm of [apply_inbound]. *)
Definition inbound_open (open : StreamOpen) : session unit := fun self =>
  match ensure_stream_admitted open self with
  | Err err => (Err err, record_stream_denial open err self)
  | Ok _ =>
      match on_mux (StreamMux.open_with_capabilities open (capabilities self)) self with
      | (Ok _, self) => (Ok tt, self)
      | (Err err, self) =>
          let err := match operations self !! open_operation_id open with
                     | Some context => with_correlation_id err (ctx_correlation_id context)
                     | None => err
                     end in
          (Err err, record_stream_denial open err self)
      end
  end.

Definition apply_inbound (frame : ConstellationFrame) : session unit :=
  match frame with
  | ConstellationFrame_StreamOpen open => inbound_open open
  | ConstellationFrame_OperationResponse response =>
      h_modify (unregister_operation (resp_operation_id response))
  | ConstellationFrame_OperationRequest _ => h_ret tt
  | ConstellationFrame_StreamData data => on_mux (StreamMux.accept_data data)
  | ConstellationFrame_StreamFlow flow => on_mux (StreamMux.receive_flow flow)
  | ConstellationFrame_StreamClose close => on_mux (StreamMux.close close)
  | ConstellationFrame_StreamResume resume => on_mux (StreamMux.validate_resume resume)
  | ConstellationFrame_TypedError error =>
      match err_correlation_id error with
      | Some correlation_id => h_modify (unregister_operations_by_correlation_id correlation_id)
      | None => h_ret tt
      end
  | ConstellationFrame_Handshake _ | ConstellationFrame_HandshakeAccepted _
  | ConstellationFrame_HandshakeRejected _ | ConstellationFrame_AdmissionAudit _ => h_ret tt
  end.

Section codec.
Context `{ProtocolCodec}.

Definition peer_send (frame : ConstellationFrame) : session unit := on_peer (send frame).

Definition send_operation_request (req : OperationRequest) : session unit :=
  register_operation req ?;
  peer_send (ConstellationFrame_OperationRequest req).

Definition send_operation_response (response : OperationResponse) : session unit :=
  h_modify (unregister_operation (resp_operation_id response)) ?;
  peer_send (ConstellationFrame_OperationResponse response).

Definition send_typed_error (error : ConstellationError) : session unit :=
  (match err_correlation_id error with
   | Some correlation_id => h_modify (unregister_operations_by_correlation_id correlation_id)
   | None => h_ret tt
   end) ?;
  peer_send (ConstellationFrame_TypedError error).

Definition open_stream (open : StreamOpen) : session unit :=
  let? self := h_get in
  match ensure_stream_admitted open self with
  | Err err => h_modify (record_stream_denial open err) ?; h_throw err
  | Ok _ =>
      on_mux (StreamMux.open_with_capabilities open (capabilities self)) ?;
      peer_send (ConstellationFrame_StreamOpen open)
  end.

Definition send_stream_flow (flow : StreamFlow) : session unit :=
  peer_send (ConstellationFrame_StreamFlow flow).

Definition grant_inbound (stream : string) (credits : N) : session unit :=
  let? flow := on_mux (StreamMux.grant_inbound stream credits) in
  send_stream_flow flow.

Definition send_data (stream : string) (channel : StreamChannel) (data : bytes) : session unit :=
  let? sequence := on_mux (StreamMux.reserve_send stream channel) in
  peer_send (ConstellationFrame_StreamData (mkStreamData stream sequence channel None data)).

Definition send_stream_close (close : StreamClose) : session unit :=
  on_mux (StreamMux.close close) ?;
  peer_send (ConstellationFrame_StreamClose close).

Definition close_stream (stream : string) (reason : StreamCloseReason) : session unit :=
  send_stream_close (mkStreamClose stream reason).

Definition resume_stream (resume : StreamResume) : session unit :=
  on_mux (StreamMux.validate_resume resume) ?;
  peer_send (ConstellationFrame_StreamResume resume).

Definition cancel_stream (stream : string) : session bool :=
  let? first_cancel := on_mux (StreamMux.cancel stream) in
  (if first_cancel
   then peer_send (ConstellationFrame_StreamClose
                     (mkStreamClose stream StreamCloseReason_Cancelled))
   else h_ret tt) ?;
  h_ret first_cancel.

Definition send_last_admission_denial : session unit :=
  let? self := h_get in
  match last_admission_denial self with
  | None => h_ret tt
  | Some record => peer_send (ConstellationFrame_AdmissionAudit record)
  end.

(** Receive one frame; a refused [StreamOpen] is answered with the denial
    record, whose own send error is dropped. *)
Definition recv : session ConstellationFrame :=
  let? frame := on_peer PeerSession.recv in
  fun self =>
    match apply_inbound frame self with
    | (Ok _, self) => (Ok frame, self)
    | (Err err, self) =>
        match frame with
        | ConstellationFrame_StreamOpen _ => (Err err, (send_last_admission_denial self).2)
        | _ => (Err err, self)
        end
    end.

End codec.

(** ** The session invariant

    The operation table and its queue list the same operations, at most
    [MAX_OPERATION_CONTEXTS] of them; every stream of the multiplexer is of a
    kind this router implements and of a capability the peers negotiated. *)

Record table_wf (order : list string) (ops : gmap string OperationStreamContext) : Prop := {
  tw_nodup : NoDup order;
  tw_order : forall id, id ∈ order <-> is_Some (ops !! id);
  tw_ctx : forall id ctx, ops !! id = Some ctx ->
    ctx_stream_kinds ctx = OperationKind_allowed_stream_kinds (ctx_kind ctx) /\
    Router.supported_operation_kind (ctx_kind ctx) = true
}.

Definition stream_allowed (caps : CapabilitySet) (e : StreamMux.StreamEntry) : Prop :=
  Router.supported_stream_kind (StreamMux.kind e) = true /\
  CapabilitySet_has caps (StreamKind_required_capability (StreamMux.kind e)) = true.

Record session_wf (s : MuxSession) : Prop := {
  sw_mux : StreamMux.wf (mux s);
  sw_table : table_wf (operation_order s) (operations s);
  sw_cap : length (operation_order s) <= MAX_OPERATION_CONTEXTS;
  sw_streams : forall id e, StreamMux.streams (mux s) !! id = Some e ->
    stream_allowed (capabilities s) e
}.

Lemma new_wf p h a b : session_wf (with_mux p h (StreamMux.with_limits a b)).
Proof.
  split; simpl; [apply StreamMux.with_limits_wf| |lia|intros id e; by rewrite lookup_empty].
  split; [constructor| |intros id ctx; by rewrite lookup_empty].
  intros id. rewrite lookup_empty. split; [by intros ?%elem_of_nil|by intros [? ?]].
Qed.

Lemma prune_operations_wf max order ops :
  table_wf order ops ->
  table_wf (prune_operations max order ops).1 (prune_operations max order ops).2 /\
  length (prune_operations max order ops).1 <= max.
Proof.
  revert ops. induction order as [|x order IH]; intros ops Hwf; simpl; [split; [done|lia]|].
  case_bool_decide as Hlen; [|split; [done|simpl; lia]].
  apply IH. destruct Hwf as [Hnd Hin Hctx]. apply NoDup_cons in Hnd as [Hx Hnd]. split; [done|..].
  - intros id. destruct (decide (id = x)) as [->|Hne].
    + rewrite lookup_delete_eq. split; [done|by intros [? ?]].
    + rewrite lookup_delete_ne, <- Hin, elem_of_cons by done. naive_solver.
  - intros id ctx [_ Hl]%lookup_delete_Some. eauto.
Qed.

Lemma table_insert order ops id ctx :
  table_wf order ops -> ops !! id = None ->
  ctx_stream_kinds ctx = OperationKind_allowed_stream_kinds (ctx_kind ctx) ->
  Router.supported_operation_kind (ctx_kind ctx) = true ->
  table_wf (order ++ [id]) (<[id := ctx]> ops).
Proof.
  intros [Hnd Hin Hctx] Hn Hk Hs. split.
  - apply NoDup_app. split_and!; [done| |apply NoDup_singleton].
    intros x Hx ->%list_elem_of_singleton. apply Hin in Hx as [? ?]. congruence.
  - intros x. rewrite elem_of_app, list_elem_of_singleton. destruct (decide (x = id)) as [->|Hne].
    + rewrite lookup_insert_eq. naive_solver.
    + rewrite lookup_insert_ne, <- Hin by done. naive_solver.
  - intros x c. rewrite lookup_insert_Some. naive_solver.
Qed.

(** Dropping entries by a predicate on ids that the queue and the table agree on. *)
Lemma table_restrict order ops (f : string -> bool) ops' :
  table_wf order ops ->
  (forall id, ops' !! id = if f id then ops !! id else None) ->
  table_wf (List.filter f order) ops'.
Proof.
  intros [Hnd Hin Hctx] Heq. split.
  - apply NoDup_ListNoDup, List.NoDup_filter, NoDup_ListNoDup, Hnd.
  - intros id. rewrite list_elem_of_In, List.filter_In, <- list_elem_of_In, Hin, Heq.
    destruct (f id); [naive_solver|]. split; [by intros [_ ?]|by intros [? ?]].
  - intros id ctx. rewrite Heq. destruct (f id); [apply Hctx|done].
Qed.

(** A call that keeps an invariant whatever it returns. *)
Definition preserves {A} (P : MuxSession -> Prop) (h : handler MuxSession ConstellationError A) :
    Prop := forall s, P s -> P (h s).2.

Lemma preserves_bind {A B} P (m : handler MuxSession ConstellationError A)
    (k : A -> handler MuxSession ConstellationError B) :
  preserves P m -> (forall a, preserves P (k a)) -> preserves P (h_bind m k).
Proof.
  intros Hm Hk s Hs. unfold h_bind. specialize (Hm s Hs).
  destruct (m s) as [[a|e] s1]; [by apply Hk|done].
Qed.

Lemma preserves_ret {A} P (a : A) : preserves P (h_ret a).
Proof. by intros s. Qed.

Lemma preserves_throw {A} P e : preserves P (@h_throw _ _ A e).
Proof. by intros s. Qed.

Lemma preserves_modify P f : (forall s, P s -> P (f s)) -> preserves P (h_modify f).
Proof. intros Hf s Hs. by apply Hf. Qed.

Lemma preserves_reject P c e : preserves P (h_reject c e).
Proof. unfold h_reject. by destruct c; intros s. Qed.

Lemma preserves_get P : preserves P h_get.
Proof. by intros s. Qed.

Lemma session_wf_peer s p : session_wf s -> session_wf (set_peer p s).
Proof. by intros []. Qed.

Lemma preserves_peer {A} (h : handler ByteStream ConstellationError A) :
  preserves session_wf (on_peer h).
Proof.
  intros s Hs. unfold on_peer. destruct (h (peer s)). by apply session_wf_peer.
Qed.

(** Mux calls other than opening a stream. *)
Lemma preserves_mux {A} (h : handler StreamMux.StreamMux ConstellationError A) ev :
  (forall m, StreamMux.apply ev m = (let '(r, m') := h m in (is_ok r, m'))) ->
  match ev with StreamMux.EvOpen _ _ => False | _ => True end ->
  preserves session_wf (on_mux h).
Proof.
  intros Hap Hev s [Hm Ht Hc Hs]. unfold on_mux. specialize (Hap (mux s)).
  destruct (h (mux s)) as [r m']. cbn [snd].
  destruct (StreamMux.apply_cases ev (mux s)) as [Hno|(m1 & Hyes & Htr)];
    rewrite Hap in *; simplify_eq; [by split|].
  split; simpl; try done; [by eapply StreamMux.transition_wf|].
  intros id e He. destruct (StreamMux.transition_kind _ _ _ _ _ Hm Htr He)
    as [(e0 & He0 & Hk)|(op & caps & -> & _)]; [|done].
  unfold stream_allowed. rewrite Hk. by apply (Hs id).
Qed.

Lemma session_wf_unregister s id : session_wf s -> session_wf (unregister_operation id s).
Proof.
  intros [Hm Ht Hc Hs]. split; try done; simpl.
  - apply (table_restrict _ _ _ _ Ht). intros x. destruct (String.eqb_spec x id) as [->|Hne]; simpl.
    + apply lookup_delete_eq.
    + by apply lookup_delete_ne.
  - etrans; [apply List.filter_length_le|done].
Qed.

Lemma session_wf_unregister_correlation s c :
  session_wf s -> session_wf (unregister_operations_by_correlation_id c s).
Proof.
  intros [Hm Ht Hc Hs]. split; try done; simpl.
  - apply (table_restrict _ _ _ _ Ht). intros x.
    case_bool_decide as Hsome; [|by apply eq_None_not_Some].
    destruct Hsome as [ctx Hctx]. rewrite Hctx. apply map_lookup_filter_Some in Hctx as [-> _]. done.
  - etrans; [apply List.filter_length_le|done].
Qed.

Lemma session_wf_denial s d : session_wf s -> session_wf (set_denial d s).
Proof. by intros []. Qed.

Lemma session_wf_register req : preserves session_wf (register_operation req).
Proof.
  unfold register_operation.
  destruct (Router.operation_route_plan (req_kind req)) as [plan|] eqn:Hplan;
    [|apply preserves_throw].
  intros s [Hm Ht Hc Hs]. unfold_handler. destruct (_ && _); [done|].
  case_bool_decide as Hex; [done|]. cbn [snd].
  assert (Hins : table_wf (operation_order s ++ [req_operation_id req])
                   (<[req_operation_id req := context_of req plan]> (operations s))).
  { apply table_insert; simpl; [done|by apply eq_None_not_Some| |].
    - by apply Router.operation_route_plan_some in Hplan as ->.
    - unfold Router.supported_operation_kind. rewrite Hplan. by apply bool_decide_true. }
  apply (prune_operations_wf MAX_OPERATION_CONTEXTS) in Hins as [Hw Hl].
  destruct (prune_operations _ _ _) as [order ops]. by split.
Qed.

(** ** Admission of streams *)

Definition admitted (open : StreamOpen) (s : MuxSession) : Prop :=
  let kind := descriptor_kind (open_descriptor open) in
  let authz := open_authz open in
  (kind = StreamKind_Control /\ authz_principal authz = connection_principal s /\
   authz_realm authz = RealmPath_local /\
   CapabilitySet_has (capabilities s) Capability_Lifecycle = true) \/
  (kind <> StreamKind_Control /\ exists ctx, operations s !! open_operation_id open = Some ctx /\
   authz_principal authz = ctx_principal ctx /\ authz_realm authz = ctx_realm ctx /\
   Router.supported_stream_kind kind = true /\ kind ∈ ctx_stream_kinds ctx).

Lemma ensure_stream_admitted_ok open s :
  ensure_stream_admitted open s = Ok tt <-> admitted open s.
Proof.
  unfold ensure_stream_admitted, admitted.
  case_bool_decide as Hk; [|destruct (operations s !! open_operation_id open) as [ctx|]].
  - split.
    + intros H. left. repeat case_bool_decide; try done. simpl in H. by destruct (CapabilitySet_has _ _).
    + intros [(_ & -> & -> & ->)|[? _]]; [|done].
      by rewrite !bool_decide_false by (intros Hn; by apply Hn).
  - split.
    + intros H. right. split; [done|]. exists ctx. split; [done|].
      repeat case_bool_decide; try done; simpl in H;
        destruct (Router.supported_stream_kind _); done.
    + intros [[? _]|(_ & ctx' & [= <-] & -> & -> & -> & Hin)]; [done|].
      rewrite !bool_decide_false by (intros Hn; by apply Hn). by rewrite bool_decide_true.
  - split; [done|]. intros [[? _]|(_ & ctx & ? & _)]; done.
Qed.

Lemma admitted_supported open s :
  admitted open s -> Router.supported_stream_kind (descriptor_kind (open_descriptor open)) = true.
Proof. by intros [[-> _]|(_ & ctx & _ & _ & _ & ? & _)]. Qed.

(** Opening a stream on the multiplexer of a session. *)
Lemma mux_open_spec open s :
  let r := on_mux (StreamMux.open_with_capabilities open (capabilities s)) s in
  (exists err, r = (Err err, s)) \/
  (exists m', r = (Ok tt, set_mux m' s) /\
     StreamMux.transition (mux s) (StreamMux.EvOpen open (capabilities s)) m').
Proof.
  unfold on_mux. pose proof (StreamMux.apply_cases (StreamMux.EvOpen open (capabilities s)) (mux s)) as H.
  simpl in H. destruct (StreamMux.open_with_capabilities open (capabilities s) (mux s)) as [[[]|err] m'];
    simpl in *.
  - destruct H as [?|(m1 & [= ->] & Ht)]; [done|]. right. eauto.
  - destruct H as [[= ->]|(m1 & ? & _)]; [|done]. left. exists err. by destruct s.
Qed.

Lemma session_wf_opened open s m' :
  session_wf s -> admitted open s ->
  StreamMux.transition (mux s) (StreamMux.EvOpen open (capabilities s)) m' ->
  session_wf (set_mux m' s).
Proof.
  intros [Hm Ht Hc Hs] Had Htr. split; try done; [by eapply StreamMux.transition_wf|]. simpl.
  intros id e He. destruct (StreamMux.transition_kind _ _ _ _ _ Hm Htr He)
    as [(e0 & He0 & Hk)|(op & caps & [= <- <-] & -> & Hk)].
  - unfold stream_allowed. rewrite Hk. by apply (Hs id).
  - unfold stream_allowed. rewrite Hk. split; [by eapply admitted_supported|].
    inversion Htr as [? ? ? Hcon Hcap| | | | | | | | |]; subst.
    unfold StreamOpen_is_consistent, StreamAuthz_matches_kind in Hcon.
    apply bool_decide_eq_true in Hcon. by rewrite <- Hcon.
Qed.

Lemma session_wf_inbound_open open : preserves session_wf (inbound_open open).
Proof.
  intros s Hs. unfold inbound_open.
  destruct (ensure_stream_admitted open s) as [[]|err] eqn:Had; [|by apply session_wf_denial].
  apply ensure_stream_admitted_ok in Had.
  destruct (mux_open_spec open s) as [(err & ->)|(m' & -> & Htr)]; cbn [snd].
  - by apply session_wf_denial.
  - by eapply session_wf_opened.
Qed.

Lemma session_wf_apply_inbound frame : preserves session_wf (apply_inbound frame).
Proof.
  destruct frame; simpl; try apply preserves_ret.
  - apply preserves_modify. intros s. apply session_wf_unregister.
  - apply session_wf_inbound_open.
  - by apply (preserves_mux _ (StreamMux.EvData d)).
  - by apply (preserves_mux _ (StreamMux.EvFlow f)).
  - by apply (preserves_mux _ (StreamMux.EvClose c)).
  - by apply (preserves_mux _ (StreamMux.EvResume r)).
  - destruct (err_correlation_id e) as [cid|]; [|apply preserves_ret].
    apply preserves_modify. intros s. apply session_wf_unregister_correlation.
Qed.

(** ** Calls on a session *)

Inductive call :=
| CRegister (req : OperationRequest)
| CUnregister (operation_id : string)
| CSendRequest (req : OperationRequest)
| CSendResponse (response : OperationResponse)
| CSendError (error : ConstellationError)
| COpen (open : StreamOpen)
| CGrant (stream : string) (credits : N)
| CSendFlow (flow : StreamFlow)
| CSendData (stream : string) (channel : StreamChannel) (data : bytes)
| CClose (close : StreamClose)
| CResume (resume : StreamResume)
| CCancel (stream : string)
| CRecv.

Definition perform `{ProtocolCodec} (c : call) (s : MuxSession) : MuxSession :=
  match c with
  | CRegister req => (register_operation req s).2
  | CUnregister id => unregister_operation id s
  | CSendRequest req => (send_operation_request req s).2
  | CSendResponse response => (send_operation_response response s).2
  | CSendError error => (send_typed_error error s).2
  | COpen open => (open_stream open s).2
  | CGrant stream credits => (grant_inbound stream credits s).2
  | CSendFlow flow => (send_stream_flow flow s).2
  | CSendData stream channel data => (send_data stream channel data s).2
  | CClose close => (send_stream_close close s).2
  | CResume resume => (resume_stream resume s).2
  | CCancel stream => (cancel_stream stream s).2
  | CRecv => (recv s).2
  end.

Lemma preserves_mux_send {A} `{ProtocolCodec}
    (h : handler StreamMux.StreamMux ConstellationError A) ev (f : A -> ConstellationFrame) :
  (forall m, StreamMux.apply ev m = (let '(r, m') := h m in (is_ok r, m'))) ->
  match ev with StreamMux.EvOpen _ _ => False | _ => True end ->
  preserves session_wf (h_bind (on_mux h) (fun a => peer_send (f a))).
Proof.
  intros Hap Hev. apply preserves_bind; [by eapply preserves_mux|].
  intros a. apply preserves_peer.
Qed.

Lemma session_wf_open_stream `{ProtocolCodec} open : preserves session_wf (open_stream open).
Proof.
  intros s Hs. unfold open_stream. unfold h_bind at 1, h_get.
  destruct (ensure_stream_admitted open s) as [[]|err] eqn:Had.
  - apply ensure_stream_admitted_ok in Had. unfold h_bind.
    destruct (mux_open_spec open s) as [(err & ->)|(m' & -> & Htr)]; cbn [snd]; [done|].
    apply preserves_peer. by eapply session_wf_opened.
  - unfold_handler. cbn [snd]. by apply session_wf_denial.
Qed.

Lemma session_wf_recv `{ProtocolCodec} : preserves session_wf recv.
Proof.
  apply preserves_bind; [apply preserves_peer|]. intros frame s Hs.
  pose proof (session_wf_apply_inbound frame s Hs) as Hap.
  destruct (apply_inbound frame s) as [[]s1]; [done|]. destruct frame; try done.
  revert s1 Hap. change (preserves session_wf send_last_admission_denial).
  intros s1 Hs1. unfold send_last_admission_denial, h_bind, h_get.
  destruct (last_admission_denial s1); [by apply preserves_peer|done].
Qed.

Lemma perform_wf `{ProtocolCodec} c s : session_wf s -> session_wf (perform c s).
Proof.
  destruct c as [req|id|req|resp|err|open|st cr|fl|st ch d|cl|re|st|]; simpl.
  - apply session_wf_register.
  - apply session_wf_unregister.
  - apply preserves_bind; [apply session_wf_register|intros _; apply preserves_peer].
  - apply preserves_bind; [|intros _; apply preserves_peer].
    apply preserves_modify. intros s1. apply session_wf_unregister.
  - apply preserves_bind; [|intros _; apply preserves_peer].
    destruct (err_correlation_id err); [|apply preserves_ret].
    apply preserves_modify. intros s1. apply session_wf_unregister_correlation.
  - apply session_wf_open_stream.
  - by apply (preserves_mux_send _ (StreamMux.EvGrant st cr)).
  - apply preserves_peer.
  - by apply (preserves_mux_send _ (StreamMux.EvReserve st ch)).
  - by apply (preserves_mux_send _ (StreamMux.EvClose cl)).
  - by apply (preserves_mux_send _ (StreamMux.EvResume re)).
  - apply preserves_bind; [by apply (preserves_mux _ (StreamMux.EvCancel st))|].
    intros first. apply preserves_bind; [|intros _; apply preserves_ret].
    destruct first; [apply preserves_peer|apply preserves_ret].
  - apply session_wf_recv.
Qed.

Definition perform_all `{ProtocolCodec} (cs : list call) (s : MuxSession) : MuxSession :=
  fold_left (fun s c => perform c s) cs s.

(** A session never carries a stream the peers did not negotiate: after
    any calls and any received bytes, under any codec and transport errors,
    every stream of the multiplexer is of a kind this router implements and
    of a capability in the negotiated set, the multiplexer is well-formed and
    the operation table stays consistent and bounded. *)
Theorem session_invariant `{ProtocolCodec} (p : ByteStream) (h : Handshake) (cs : list call) :
  session_wf (perform_all cs (new p h)).
Proof.
  assert (Hwf : session_wf (new p h)) by apply new_wf.
  unfold perform_all. revert Hwf. generalize (new p h).
  induction cs as [|c cs IH]; intros s Hs; simpl; [done|]. by apply IH, perform_wf.
Qed.

(** An inbound stream is admitted precisely when its authorization context
    is the one accepted: a control stream names the peer's own principal and
    the local realm; any other stream names an operation that was accepted on
    this session, with that operation's principal and realm, and a kind that
    operation may open; its capability matches its kind and was negotiated,
    the id is unused and the open-stream cap is not reached. *)
Theorem inbound_open_exact (open : StreamOpen) (s : MuxSession) :
  (inbound_open open s).1 = Ok tt <->
  admitted open s /\ StreamOpen_is_consistent open = true /\
  CapabilitySet_has (capabilities s) (authz_capability (open_authz open)) = true /\
  StreamMux.streams (mux s) !! descriptor_id (open_descriptor open) = None /\
  size (StreamMux.open_streams (mux s)) < StreamMux.max_open (mux s).
Proof.
  rewrite <- ensure_stream_admitted_ok. unfold inbound_open.
  destruct (ensure_stream_admitted open s) as [[]|err]; [|by split; [|intros [? _]]].
  destruct (mux_open_spec open s) as [(err & Hr)|(m' & Hr & Htr)]; rewrite Hr; cbn [fst].
  - split; [done|]. intros (_ & Hcon & Hcap & Hn & Hsz).
    pose proof (StreamMux.transition_apply _ _ _
      (StreamMux.tr_open (mux s) open (capabilities s) Hcon Hcap Hn Hsz)) as Hap.
    unfold on_mux in Hr. simpl in Hap. by destruct (StreamMux.open_with_capabilities _ _ _) as [[]];
      simplify_eq/=.
  - split; [|done]. intros _. by inversion Htr; subst.
Qed.

(** A refused stream open changes nothing but the audit trail: operations,
    streams and capabilities are as before, and the record left behind is a
    denial with the error's kind and the session's own principal, never the
    one the peer claimed. *)
Theorem refused_open_audited (open : StreamOpen) (s : MuxSession) (err : ConstellationError) :
  (inbound_open open s).1 = Err err ->
  exists rec, (inbound_open open s).2 = set_denial (Some rec) s /\
    aar_decision rec = AuthzDecision_Deny /\ aar_reason rec = err_kind err /\
    aar_principal rec = Some (connection_principal s) /\
    aar_operation_id rec = open_operation_id open.
Proof.
  assert (Hrec : forall e, exists rec, record_stream_denial open e s = set_denial (Some rec) s /\
    aar_decision rec = AuthzDecision_Deny /\ aar_reason rec = err_kind e /\
    aar_principal rec = Some (connection_principal s) /\
    aar_operation_id rec = open_operation_id open).
  { intros e. eexists. split; [unfold record_stream_denial; reflexivity|].
    by destruct (_ ← _; ctx_trace _). }
  unfold inbound_open. destruct (ensure_stream_admitted open s) as [[]|e]; cycle 1.
  { intros [= <-]. apply Hrec. }
  destruct (mux_open_spec open s) as [(e & ->)|(m' & -> & _)]; [|done].
  intros [= <-]. apply Hrec.
Qed.

(** *** Witnesses *)

Definition demo_session : MuxSession :=
  new (mkByteStream [] [] None None) (demo_offer demo_client).

Definition demo_logs_open : StreamOpen :=
  mkStreamOpen (mkStreamDescriptor "s1" StreamKind_Logs) "op-1"
    (StreamAuthz_for_kind "mallory" ["home"%string] StreamKind_Logs).

(** A stream for an operation nobody accepted is refused and audited under the
    session's principal. *)
Lemma refused_open_audited_witness :
  exists rec, (inbound_open demo_logs_open demo_session).2 = set_denial (Some rec) demo_session /\
    aar_principal rec = Some unverified_principal.
Proof.
  destruct (refused_open_audited demo_logs_open demo_session
              (ConstellationError_new ErrorKind_InvalidTarget
                 "stream kind 'logs' has no accepted operation context"))
    as (rec & Hs & _ & _ & Hp & _).
  - vm_compute; reflexivity.
  - exists rec. split; [exact Hs|exact Hp].
Defined.

End MuxSession.

Module SessionLifecycle.

Inductive SessionPhase :=
| Allocating | TokenMinting | RelayConnecting | DisplayOpening | Running | Stopping | Stopped.

#[global] Instance SessionPhase_eq_dec : EqDecision SessionPhase.
Proof. solve_decision. Defined.

Definition is_active (self : SessionPhase) : bool :=
  match self with Stopping | Stopped => false | _ => true end.

Definition forward_next (self : SessionPhase) : option SessionPhase :=
  match self with
  | Allocating => Some TokenMinting
  | TokenMinting => Some RelayConnecting
  | RelayConnecting => Some DisplayOpening
  | DisplayOpening => Some Running
  | _ => None
  end.

Inductive LifecycleError := NotAdvanceable.

Record SessionLifecycle := mkSessionLifecycle {
  phase : SessionPhase;
  failed_in : option SessionPhase
}.

Definition new : SessionLifecycle := mkSessionLifecycle Allocating None.
Definition is_stopped (self : SessionLifecycle) : bool := bool_decide (phase self = Stopped).
Definition is_running (self : SessionLifecycle) : bool := bool_decide (phase self = Running).

Definition advance : handler SessionLifecycle LifecycleError SessionPhase := fun self =>
  match forward_next (phase self) with
  | Some next => (Ok next, mkSessionLifecycle next (failed_in self))
  | None => (Err NotAdvanceable, self)
  end.

Definition fail (self : SessionLifecycle) : SessionLifecycle :=
  mkSessionLifecycle (if is_active (phase self) then Stopping else phase self)
    (match failed_in self with Some p => Some p | None => Some (phase self) end).

Definition stop (self : SessionLifecycle) : SessionLifecycle :=
  mkSessionLifecycle (if is_active (phase self) then Stopping else phase self) (failed_in self).

Definition finish_stop (self : SessionLifecycle) : SessionLifecycle :=
  match phase self with
  | Stopping | Stopped => mkSessionLifecycle Stopped (failed_in self)
  | _ => self
  end.

(** ** The phases *)

Inductive event := EvAdvance | EvFail | EvStop | EvFinishStop.

Definition apply (s : SessionLifecycle) (ev : event) : SessionLifecycle :=
  match ev with
  | EvAdvance => (advance s).2
  | EvFail => fail s
  | EvStop => stop s
  | EvFinishStop => finish_stop s
  end.

Definition run (evs : list event) (s : SessionLifecycle) : SessionLifecycle :=
  fold_left apply evs s.

Definition rank (p : SessionPhase) : nat :=
  match p with
  | Allocating => 0 | TokenMinting => 1 | RelayConnecting => 2 | DisplayOpening => 3
  | Running => 4 | Stopping => 5 | Stopped => 6
  end.

Lemma apply_rank s ev : rank (phase s) <= rank (phase (apply s ev)).
Proof. destruct s as [[] ?], ev; simpl; lia. Qed.

Lemma run_rank evs s : rank (phase s) <= rank (phase (run evs s)).
Proof.
  revert s. induction evs as [|ev evs IH]; intros s; simpl; [done|].
  etrans; [apply (apply_rank s ev)|apply IH].
Qed.

Lemma run_failed evs s p : failed_in s = Some p -> failed_in (run evs s) = Some p.
Proof.
  revert s. induction evs as [|ev evs IH]; intros s Hs; simpl; [done|]. apply IH.
  destruct s as [ph f], ev; simpl in *; subst; try done; by destruct ph.
Qed.

(** The session lifecycle only moves forward: whatever events follow, the
    phase never goes back, so a session that is tearing down is never
    resurrected, a stopped one stays stopped, and the phase the first failure
    was seen in is kept. *)
Theorem lifecycle_forward (s : SessionLifecycle) (evs : list event) :
  rank (phase s) <= rank (phase (run evs s)) /\
  (is_active (phase s) = false -> is_active (phase (run evs s)) = false) /\
  (phase s = Stopped -> phase (run evs s) = Stopped) /\
  (forall p, failed_in s = Some p -> failed_in (run evs s) = Some p).
Proof.
  pose proof (run_rank evs s) as Hr. split_and!; [done|..].
  - destruct (phase s); try done; destruct (phase (run evs s)); simpl in *; try done; lia.
  - intros Hs. rewrite Hs in Hr. destruct (phase (run evs s)); simpl in *; try done; lia.
  - intros p. apply run_failed.
Qed.

End SessionLifecycle.
