(* ===== verification/Allocator.v ===== *)
(** * The local-root host-resource allocator

    [packages/d2b-realm-core/src/allocator.rs] holds the data: requests,
    leases, reports and their decoders.  [allocator_engine.rs] holds the
    engine over an in-memory ledger: allocation with idempotent replay, and
    reconciliation of persisted leases against observed host state.
    [Module Allocator] models both. *)

From S2P Require Import Prelude Ids Streams Frame.

Module Allocator.

Definition MAX_ALLOCATOR_REQUEST_RESOURCES : nat := 32.
Definition MAX_ALLOCATOR_CONFLICTS : nat := 16.
Definition MAX_RECONCILIATION_RECORDS : nat := 128.
Definition MAX_ALLOCATOR_EVENTS : nat := 128.

Inductive HostResourceKind :=
| HostResourceKind_Bridge
| HostResourceKind_Tap
| HostResourceKind_VethPair
| HostResourceKind_NftablesTable
| HostResourceKind_NftablesPartition
| HostResourceKind_CgroupSubtree
| HostResourceKind_HostFilePartition
| HostResourceKind_NamespaceBoundary.

#[global] Instance HostResourceKind_eq_dec : EqDecision HostResourceKind.
Proof. solve_decision. Defined.

#[global] Program Instance HostResourceKind_finite : Finite HostResourceKind :=
  {| enum := [HostResourceKind_Bridge; HostResourceKind_Tap;
     HostResourceKind_VethPair; HostResourceKind_NftablesTable;
     HostResourceKind_NftablesPartition; HostResourceKind_CgroupSubtree;
     HostResourceKind_HostFilePartition; HostResourceKind_NamespaceBoundary] |}.
Next Obligation. solve_enum_NoDup. Qed.
Next Obligation. solve_enum_elem. Qed.

#[global] Instance HostResourceKind_rust_ord : RustOrd HostResourceKind := cmp_via enum_pos.
#[global] Instance HostResourceKind_rust_ord_laws : RustOrdLaws HostResourceKind.
Proof. apply cmp_via_laws. apply enum_pos_inj. Qed.

Definition HostResourceKind_as_metric_label (self : HostResourceKind) : string :=
  match self with
  | HostResourceKind_Bridge => "bridge"
  | HostResourceKind_Tap => "tap"
  | HostResourceKind_VethPair => "veth-pair"
  | HostResourceKind_NftablesTable => "nftables-table"
  | HostResourceKind_NftablesPartition => "nftables-partition"
  | HostResourceKind_CgroupSubtree => "cgroup-subtree"
  | HostResourceKind_HostFilePartition => "host-file-partition"
  | HostResourceKind_NamespaceBoundary => "namespace-boundary"
  end.

Record LeaseOwner := mkLeaseOwner {
  owner_realm : RealmPath;
  controller_generation : string;
  owner_node : option string
}.

#[global] Instance LeaseOwner_eq_dec : EqDecision LeaseOwner.
Proof. solve_decision. Defined.

Inductive ResourceShareMode := Exclusive | SharedPartition.

#[global] Instance ResourceShareMode_eq_dec : EqDecision ResourceShareMode.
Proof. solve_decision. Defined.

Record ResourceAcquisitionOrder := mkResourceAcquisitionOrder { phase : N; ordinal : N }.

#[global] Instance ResourceAcquisitionOrder_eq_dec : EqDecision ResourceAcquisitionOrder.
Proof. solve_decision. Defined.

#[global] Instance ResourceAcquisitionOrder_rust_ord : RustOrd ResourceAcquisitionOrder :=
  cmp_via (fun o => (phase o, ordinal o)).
#[global] Instance ResourceAcquisitionOrder_rust_ord_laws : RustOrdLaws ResourceAcquisitionOrder.
Proof. apply cmp_via_laws. intros [] []. simpl. congruence. Qed.

Record LeaseResourceRequest := mkLeaseResourceRequest {
  rr_resource_id : string;
  rr_kind : HostResourceKind;
  rr_share : ResourceShareMode;
  rr_acquisition_order : ResourceAcquisitionOrder
}.

Record ResourceAcquisitionKey := mkResourceAcquisitionKey {
  ak_order : ResourceAcquisitionOrder;
  ak_kind : HostResourceKind;
  ak_resource_id : string
}.

#[global] Instance ResourceAcquisitionKey_eq_dec : EqDecision ResourceAcquisitionKey.
Proof. solve_decision. Defined.

#[global] Instance ResourceAcquisitionKey_rust_ord : RustOrd ResourceAcquisitionKey :=
  cmp_via (fun k => (ak_order k, ak_kind k, ak_resource_id k)).
#[global] Instance ResourceAcquisitionKey_rust_ord_laws : RustOrdLaws ResourceAcquisitionKey.
Proof. apply cmp_via_laws. intros [] []. simpl. congruence. Qed.

Definition acquisition_key (self : LeaseResourceRequest) : ResourceAcquisitionKey :=
  mkResourceAcquisitionKey (rr_acquisition_order self) (rr_kind self) (rr_resource_id self).

Record LeaseAllocationRequest := mkLeaseAllocationRequest {
  lar_operation_id : string;
  lar_correlation_id : string;
  lar_idempotency_key : string;
  lar_owner : LeaseOwner;
  lar_resources : list LeaseResourceRequest;
  lar_trace : option TraceContext
}.

Definition acquisition_order (self : LeaseAllocationRequest) : list ResourceAcquisitionKey :=
  rust_sort (map acquisition_key (lar_resources self)).

Inductive ResourceDelegation :=
| OpaqueName (id : string)
| FileDescriptor (id : string)
| PartitionId (id : string)
| NamespaceHandle (id : string).

#[global] Instance ResourceDelegation_eq_dec : EqDecision ResourceDelegation.
Proof. solve_decision. Defined.

Record GrantedHostResource := mkGrantedHostResource {
  gr_resource_id : string;
  gr_kind : HostResourceKind;
  gr_share : ResourceShareMode;
  gr_delegation : ResourceDelegation;
  gr_acquisition_order : ResourceAcquisitionOrder
}.

#[global] Instance GrantedHostResource_eq_dec : EqDecision GrantedHostResource.
Proof. solve_decision. Defined.

Inductive AllocatorLeaseState :=
| AllocatorLeaseState_Granted
| AllocatorLeaseState_Reconciled
| AllocatorLeaseState_Quarantined
| AllocatorLeaseState_Reclaimed
| AllocatorLeaseState_Denied.

#[global] Instance AllocatorLeaseState_eq_dec : EqDecision AllocatorLeaseState.
Proof. solve_decision. Defined.

#[global] Program Instance AllocatorLeaseState_finite : Finite AllocatorLeaseState :=
  {| enum := [AllocatorLeaseState_Granted; AllocatorLeaseState_Reconciled;
     AllocatorLeaseState_Quarantined; AllocatorLeaseState_Reclaimed;
     AllocatorLeaseState_Denied] |}.
Next Obligation. solve_enum_NoDup. Qed.
Next Obligation. solve_enum_elem. Qed.

Definition is_terminal (self : AllocatorLeaseState) : bool :=
  match self with AllocatorLeaseState_Reclaimed | AllocatorLeaseState_Denied => true | _ => false end.

Definition can_transition_to (self next : AllocatorLeaseState) : bool :=
  match self, next with
  | AllocatorLeaseState_Granted, AllocatorLeaseState_Reconciled
  | AllocatorLeaseState_Granted, AllocatorLeaseState_Quarantined
  | AllocatorLeaseState_Granted, AllocatorLeaseState_Reclaimed
  | AllocatorLeaseState_Reconciled, AllocatorLeaseState_Quarantined
  | AllocatorLeaseState_Reconciled, AllocatorLeaseState_Reclaimed
  | AllocatorLeaseState_Quarantined, AllocatorLeaseState_Reconciled
  | AllocatorLeaseState_Quarantined, AllocatorLeaseState_Reclaimed => true
  | _, _ => false
  end.

Record AllocatorLease := mkAllocatorLease {
  lease_id : string;
  lease_owner : LeaseOwner;
  lease_state : AllocatorLeaseState;
  lease_resources : list GrantedHostResource
}.

#[global] Instance AllocatorLease_eq_dec : EqDecision AllocatorLease.
Proof. solve_decision. Defined.

Inductive AllocatorReasonCode :=
| AllocatorReasonCode_ResourceConflict
| AllocatorReasonCode_OwnershipConflict
| AllocatorReasonCode_AcquisitionOrderViolation
| AllocatorReasonCode_InvalidRequest
| AllocatorReasonCode_CapacityExhausted
| AllocatorReasonCode_DriftDetected
| AllocatorReasonCode_ReconcileMismatch
| AllocatorReasonCode_OwnerNotLive
| AllocatorReasonCode_PolicyDenied
| AllocatorReasonCode_UnsupportedKind
| AllocatorReasonCode_StorageContractViolation
| AllocatorReasonCode_KernelStateUnknown.

#[global] Instance AllocatorReasonCode_eq_dec : EqDecision AllocatorReasonCode.
Proof. solve_decision. Defined.

#[global] Program Instance AllocatorReasonCode_finite : Finite AllocatorReasonCode :=
  {| enum := [AllocatorReasonCode_ResourceConflict; AllocatorReasonCode_OwnershipConflict;
     AllocatorReasonCode_AcquisitionOrderViolation; AllocatorReasonCode_InvalidRequest;
     AllocatorReasonCode_CapacityExhausted; AllocatorReasonCode_DriftDetected;
     AllocatorReasonCode_ReconcileMismatch; AllocatorReasonCode_OwnerNotLive;
     AllocatorReasonCode_PolicyDenied; AllocatorReasonCode_UnsupportedKind;
     AllocatorReasonCode_StorageContractViolation; AllocatorReasonCode_KernelStateUnknown] |}.
Next Obligation. solve_enum_NoDup. Qed.
Next Obligation. solve_enum_elem. Qed.

Definition AllocatorReasonCode_as_metric_label (self : AllocatorReasonCode) : string :=
  match self with
  | AllocatorReasonCode_ResourceConflict => "resource-conflict"
  | AllocatorReasonCode_OwnershipConflict => "ownership-conflict"
  | AllocatorReasonCode_AcquisitionOrderViolation => "acquisition-order-violation"
  | AllocatorReasonCode_InvalidRequest => "invalid-request"
  | AllocatorReasonCode_CapacityExhausted => "capacity-exhausted"
  | AllocatorReasonCode_DriftDetected => "drift-detected"
  | AllocatorReasonCode_ReconcileMismatch => "reconcile-mismatch"
  | AllocatorReasonCode_OwnerNotLive => "owner-not-live"
  | AllocatorReasonCode_PolicyDenied => "policy-denied"
  | AllocatorReasonCode_UnsupportedKind => "unsupported-kind"
  | AllocatorReasonCode_StorageContractViolation => "storage-contract-violation"
  | AllocatorReasonCode_KernelStateUnknown => "kernel-state-unknown"
  end.

Record AllocatorConflict := mkAllocatorConflict {
  conflict_resource_id : string;
  conflict_kind : HostResourceKind;
  conflict_reason : AllocatorReasonCode;
  existing_lease : option string
}.

#[global] Instance AllocatorConflict_eq_dec : EqDecision AllocatorConflict.
Proof. solve_decision. Defined.

Inductive LeaseAllocationResult :=
| Granted (lease : AllocatorLease)
| Denied (reason : AllocatorReasonCode) (conflicts : list AllocatorConflict).

#[global] Instance LeaseAllocationResult_eq_dec : EqDecision LeaseAllocationResult.
Proof. solve_decision. Defined.

Record LeaseAllocationResponse := mkLeaseAllocationResponse {
  response_operation_id : string;
  response_correlation_id : string;
  response_result : LeaseAllocationResult
}.

Inductive AllocatorEventKind :=
| AllocatorEventKind_Grant
| AllocatorEventKind_Denial
| AllocatorEventKind_Conflict
| AllocatorEventKind_Reconciliation
| AllocatorEventKind_Reclamation
| AllocatorEventKind_Quarantine.

#[global] Instance AllocatorEventKind_eq_dec : EqDecision AllocatorEventKind.
Proof. solve_decision. Defined.

#[global] Program Instance AllocatorEventKind_finite : Finite AllocatorEventKind :=
  {| enum := [AllocatorEventKind_Grant; AllocatorEventKind_Denial;
     AllocatorEventKind_Conflict; AllocatorEventKind_Reconciliation;
     AllocatorEventKind_Reclamation; AllocatorEventKind_Quarantine] |}.
Next Obligation. solve_enum_NoDup. Qed.
Next Obligation. solve_enum_elem. Qed.

Definition AllocatorEventKind_as_metric_label (self : AllocatorEventKind) : string :=
  match self with
  | AllocatorEventKind_Grant => "grant"
  | AllocatorEventKind_Denial => "denial"
  | AllocatorEventKind_Conflict => "conflict"
  | AllocatorEventKind_Reconciliation => "reconciliation"
  | AllocatorEventKind_Reclamation => "reclamation"
  | AllocatorEventKind_Quarantine => "quarantine"
  end.

Record AllocatorEventMetadata := mkAllocatorEventMetadata {
  event_operation_id : string;
  event_correlation_id : string;
  event_owner : LeaseOwner;
  event_event : AllocatorEventKind;
  event_resource_kind : option HostResourceKind;
  event_reason : option AllocatorReasonCode;
  event_trace : option TraceContext
}.

Record PersistedResourceLease := mkPersistedResourceLease {
  persisted_lease_id : string;
  persisted_owner : LeaseOwner;
  persisted_state : AllocatorLeaseState
}.

Inductive ResourceObservationSource :=
| ResourceObservationSource_KernelNetlink
| ResourceObservationSource_NftablesApi
| ResourceObservationSource_CgroupFs
| ResourceObservationSource_HostFilesystem
| ResourceObservationSource_NamespaceRegistry
| ResourceObservationSource_AllocatorLedger.

#[global] Instance ResourceObservationSource_eq_dec : EqDecision ResourceObservationSource.
Proof. solve_decision. Defined.

#[global] Program Instance ResourceObservationSource_finite : Finite ResourceObservationSource :=
  {| enum := [ResourceObservationSource_KernelNetlink; ResourceObservationSource_NftablesApi;
     ResourceObservationSource_CgroupFs; ResourceObservationSource_HostFilesystem;
     ResourceObservationSource_NamespaceRegistry; ResourceObservationSource_AllocatorLedger] |}.
Next Obligation. solve_enum_NoDup. Qed.
Next Obligation. solve_enum_elem. Qed.

Inductive ObservedResourceState :=
| ObservedResourceState_Present
| ObservedResourceState_Missing
| ObservedResourceState_ForeignOwner
| ObservedResourceState_Ambiguous
| ObservedResourceState_Inaccessible.

#[global] Instance ObservedResourceState_eq_dec : EqDecision ObservedResourceState.
Proof. solve_decision. Defined.

#[global] Program Instance ObservedResourceState_finite : Finite ObservedResourceState :=
  {| enum := [ObservedResourceState_Present; ObservedResourceState_Missing;
     ObservedResourceState_ForeignOwner; ObservedResourceState_Ambiguous;
     ObservedResourceState_Inaccessible] |}.
Next Obligation. solve_enum_NoDup. Qed.
Next Obligation. solve_enum_elem. Qed.

Record ObservedHostResource := mkObservedHostResource {
  obs_resource_id : string;
  obs_kind : HostResourceKind;
  obs_source : ResourceObservationSource;
  obs_state : ObservedResourceState
}.

Inductive ReconciliationDecision :=
| Reconciled
| Quarantine (reason : AllocatorReasonCode)
| Reclaim (reason : AllocatorReasonCode)
| Deny (reason : AllocatorReasonCode).

Definition is_fail_closed (self : ReconciliationDecision) : bool :=
  match self with Quarantine _ | Deny _ | Reclaim _ => true | Reconciled => false end.

Record ReconciliationRecord := mkReconciliationRecord {
  record_resource_id : string;
  record_kind : HostResourceKind;
  record_persisted : option PersistedResourceLease;
  record_observed : ObservedHostResource;
  record_decision : ReconciliationDecision
}.

Record ReconciliationReport := mkReconciliationReport {
  report_operation_id : string;
  report_correlation_id : string;
  report_records : list ReconciliationRecord;
  report_events : list AllocatorEventMetadata
}.

(** ** Decoders *)

Definition validate_len {A} (items : list A) (max : nat) : bool :=
  bool_decide (length items <= max).

Definition validate_len_non_empty {A} (items : list A) (max : nat) : bool :=
  match items with [] => false | _ => validate_len items max end.

Definition validate_resource_requests (resources : list LeaseResourceRequest) : bool :=
  validate_len_non_empty resources MAX_ALLOCATOR_REQUEST_RESOURCES
  && negb (has_duplicate (map rr_resource_id resources)).

Definition validate_granted_resources (resources : list GrantedHostResource) : bool :=
  validate_len_non_empty resources MAX_ALLOCATOR_REQUEST_RESOURCES
  && negb (has_duplicate (map gr_resource_id resources)).

Definition LeaseAllocationRequest_deserialize (raw : LeaseAllocationRequest) :
    option LeaseAllocationRequest :=
  if validate_resource_requests (lar_resources raw) then Some raw else None.

Definition AllocatorLease_deserialize (raw : AllocatorLease) : option AllocatorLease :=
  if validate_granted_resources (lease_resources raw) then Some raw else None.

Definition ReconciliationReport_deserialize (raw : ReconciliationReport) :
    option ReconciliationReport :=
  if validate_len (report_records raw) MAX_RECONCILIATION_RECORDS
     && validate_len (report_events raw) MAX_ALLOCATOR_EVENTS
  then Some raw else None.

(** The fields of a serialized [LeaseAllocationResult] in the order they are
    read; [None] is a JSON null and [FieldUnknown] any other key. *)
Inductive result_field :=
| FieldStatus (granted : bool)
| FieldLease (lease : option AllocatorLease)
| FieldReason (reason : option AllocatorReasonCode)
| FieldConflicts (conflicts : option (list AllocatorConflict))
| FieldUnknown.

Record result_acc := mkResultAcc {
  acc_status : option bool;
  acc_lease : option (option AllocatorLease);
  acc_reason : option (option AllocatorReasonCode);
  acc_conflicts : option (option (list AllocatorConflict))
}.

(** The [while] of [visit_map]: a repeated or unknown key is an error. *)
Fixpoint read_result_fields (fields : list result_field) (acc : result_acc) : option result_acc :=
  match fields with
  | [] => Some acc
  | FieldStatus v :: rest =>
      match acc_status acc with
      | Some _ => None
      | None => read_result_fields rest
                  (mkResultAcc (Some v) (acc_lease acc) (acc_reason acc) (acc_conflicts acc))
      end
  | FieldLease v :: rest =>
      match acc_lease acc with
      | Some _ => None
      | None => read_result_fields rest
                  (mkResultAcc (acc_status acc) (Some v) (acc_reason acc) (acc_conflicts acc))
      end
  | FieldReason v :: rest =>
      match acc_reason acc with
      | Some _ => None
      | None => read_result_fields rest
                  (mkResultAcc (acc_status acc) (acc_lease acc) (Some v) (acc_conflicts acc))
      end
  | FieldConflicts v :: rest =>
      match acc_conflicts acc with
      | Some _ => None
      | None => read_result_fields rest
                  (mkResultAcc (acc_status acc) (acc_lease acc) (acc_reason acc) (Some v))
      end
  | FieldUnknown :: _ => None
  end.

Definition LeaseAllocationResult_visit_map (fields : list result_field) :
    option LeaseAllocationResult :=
  acc ← read_result_fields fields (mkResultAcc None None None None);
  granted ← acc_status acc;
  if (granted : bool) then
    if bool_decide (is_Some (acc_reason acc)) || bool_decide (is_Some (acc_conflicts acc))
    then None
    else lease ← acc_lease acc; lease ← lease; Some (Granted lease)
  else
    if bool_decide (is_Some (acc_lease acc)) then None
    else
      reason ← acc_reason acc;
      reason ← reason;
      conflicts ← acc_conflicts acc;
      conflicts ← conflicts;
      if validate_len conflicts MAX_ALLOCATOR_CONFLICTS
      then Some (Denied reason conflicts) else None.

(** The fields of a serialized [ReconciliationDecision]: the decision tag, the
    reason (or null), or any other key. *)
Inductive decision_tag := TagReconciled | TagQuarantine | TagReclaim | TagDeny.

Inductive decision_field :=
| FieldDecision (tag : decision_tag)
| FieldDecisionReason (reason : option AllocatorReasonCode)
| FieldDecisionUnknown.

Fixpoint read_decision_fields (fields : list decision_field) (decision : option decision_tag)
    (reason : option (option AllocatorReasonCode)) :
    option (option decision_tag * option (option AllocatorReasonCode)) :=
  match fields with
  | [] => Some (decision, reason)
  | FieldDecision tag :: rest =>
      match decision with
      | Some _ => None
      | None => read_decision_fields rest (Some tag) reason
      end
  | FieldDecisionReason v :: rest =>
      match reason with
      | Some _ => None
      | None => read_decision_fields rest decision (Some v)
      end
  | FieldDecisionUnknown :: _ => None
  end.

Definition ReconciliationDecision_visit_map (fields : list decision_field) :
    option ReconciliationDecision :=
  '(decision, reason) ← read_decision_fields fields None None;
  tag ← decision;
  match tag with
  | TagReconciled => match reason with Some _ => None | None => Some Reconciled end
  | TagQuarantine => Quarantine <$> mjoin reason
  | TagReclaim => Reclaim <$> mjoin reason
  | TagDeny => Deny <$> mjoin reason
  end.

(** ** The engine *)

Inductive AllocatorEngineDecision :=
| DecisionGrant
| DecisionDenyConflict (reason : AllocatorReasonCode)
| DecisionReclaim (reason : AllocatorReasonCode)
| DecisionQuarantine (reason : AllocatorReasonCode)
| DecisionPreserve (reason : AllocatorReasonCode)
| DecisionReconcile.

Definition decision_reason (self : AllocatorEngineDecision) : option AllocatorReasonCode :=
  match self with
  | DecisionGrant | DecisionReconcile => None
  | DecisionDenyConflict reason | DecisionReclaim reason | DecisionQuarantine reason
  | DecisionPreserve reason => Some reason
  end.

Definition decision_event_kind (self : AllocatorEngineDecision) : AllocatorEventKind :=
  match self with
  | DecisionGrant => AllocatorEventKind_Grant
  | DecisionDenyConflict _ => AllocatorEventKind_Denial
  | DecisionReclaim _ => AllocatorEventKind_Reclamation
  | DecisionQuarantine _ => AllocatorEventKind_Quarantine
  | DecisionPreserve _ | DecisionReconcile => AllocatorEventKind_Reconciliation
  end.

Inductive AllocatorEngineOutcome :=
| AllocatorEngineOutcome_Granted
| AllocatorEngineOutcome_Denied
| AllocatorEngineOutcome_Reconciled
| AllocatorEngineOutcome_Reclaimed
| AllocatorEngineOutcome_Quarantined
| AllocatorEngineOutcome_Preserved
| AllocatorEngineOutcome_IdempotentReplay.

#[global] Instance AllocatorEngineOutcome_eq_dec : EqDecision AllocatorEngineOutcome.
Proof. solve_decision. Defined.

#[global] Program Instance AllocatorEngineOutcome_finite : Finite AllocatorEngineOutcome :=
  {| enum := [AllocatorEngineOutcome_Granted; AllocatorEngineOutcome_Denied;
     AllocatorEngineOutcome_Reconciled; AllocatorEngineOutcome_Reclaimed;
     AllocatorEngineOutcome_Quarantined; AllocatorEngineOutcome_Preserved;
     AllocatorEngineOutcome_IdempotentReplay] |}.
Next Obligation. solve_enum_NoDup. Qed.
Next Obligation. solve_enum_elem. Qed.

Definition AllocatorEngineOutcome_as_metric_label (self : AllocatorEngineOutcome) : string :=
  match self with
  | AllocatorEngineOutcome_Granted => "granted"
  | AllocatorEngineOutcome_Denied => "denied"
  | AllocatorEngineOutcome_Reconciled => "reconciled"
  | AllocatorEngineOutcome_Reclaimed => "reclaimed"
  | AllocatorEngineOutcome_Quarantined => "quarantined"
  | AllocatorEngineOutcome_Preserved => "preserved"
  | AllocatorEngineOutcome_IdempotentReplay => "idempotent-replay"
  end.

Definition decision_outcome (self : AllocatorEngineDecision) : AllocatorEngineOutcome :=
  match self with
  | DecisionGrant => AllocatorEngineOutcome_Granted
  | DecisionDenyConflict _ => AllocatorEngineOutcome_Denied
  | DecisionReclaim _ => AllocatorEngineOutcome_Reclaimed
  | DecisionQuarantine _ => AllocatorEngineOutcome_Quarantined
  | DecisionPreserve _ => AllocatorEngineOutcome_Preserved
  | DecisionReconcile => AllocatorEngineOutcome_Reconciled
  end.

Definition decision_reconciliation (self : AllocatorEngineDecision) : ReconciliationDecision :=
  match self with
  | DecisionReconcile => Reconciled
  | DecisionReclaim reason => Reclaim reason
  | DecisionQuarantine reason => Quarantine reason
  | DecisionPreserve reason | DecisionDenyConflict reason => Deny reason
  | DecisionGrant => Reconciled
  end.

Record AllocatorMetricEvent := mkAllocatorMetricEvent {
  metric_event : AllocatorEventKind;
  metric_outcome : AllocatorEngineOutcome;
  metric_resource_kind : option HostResourceKind;
  metric_reason : option AllocatorReasonCode;
  metric_count : N
}.

Definition AllocatorMetricEvent_new (event : AllocatorEventKind) (outcome : AllocatorEngineOutcome)
    (resource_kind : option HostResourceKind) (reason : option AllocatorReasonCode) :
    AllocatorMetricEvent :=
  mkAllocatorMetricEvent event outcome resource_kind reason 1.

(** [AllocatorMetricLabels]: a struct of four labels with the derived order. *)
Abbreviation AllocatorMetricLabels := (string * string * option string * option string)%type.

Definition labels (self : AllocatorMetricEvent) : AllocatorMetricLabels :=
  (AllocatorEventKind_as_metric_label (metric_event self),
   AllocatorEngineOutcome_as_metric_label (metric_outcome self),
   HostResourceKind_as_metric_label <$> metric_resource_kind self,
   AllocatorReasonCode_as_metric_label <$> metric_reason self).

Record AllocatorAllocationDecision := mkAllocatorAllocationDecision {
  ad_resource_id : string;
  ad_kind : HostResourceKind;
  ad_decision : AllocatorEngineDecision
}.

Record AllocatorEngineAllocation := mkAllocatorEngineAllocation {
  response : LeaseAllocationResponse;
  decisions : list AllocatorAllocationDecision;
  events : list AllocatorEventMetadata;
  metrics : list AllocatorMetricEvent;
  acquired : list ResourceAcquisitionKey
}.

Record AllocatorReconciliationAction := mkAllocatorReconciliationAction {
  action_resource_id : string;
  action_kind : HostResourceKind;
  action_persisted : option PersistedResourceLease;
  action_observed : ObservedHostResource;
  action_decision : AllocatorEngineDecision
}.

Record AllocatorEngineReconciliation := mkAllocatorEngineReconciliation {
  report : ReconciliationReport;
  actions : list AllocatorReconciliationAction;
  reconciliation_metrics : list AllocatorMetricEvent
}.

Definition share_rank (share : ResourceShareMode) : N :=
  match share with Exclusive => 0 | SharedPartition => 1 end.

Record RequestedResourceSignature := mkRequestedResourceSignature {
  sig_key : ResourceAcquisitionKey;
  sig_share : ResourceShareMode
}.

#[global] Instance RequestedResourceSignature_eq_dec : EqDecision RequestedResourceSignature.
Proof. solve_decision. Defined.

#[global] Instance RequestedResourceSignature_rust_ord : RustOrd RequestedResourceSignature :=
  cmp_via (fun s => (sig_key s, share_rank (sig_share s))).
#[global] Instance RequestedResourceSignature_rust_ord_laws : RustOrdLaws RequestedResourceSignature.
Proof. apply cmp_via_laws. intros [? []] [? []]; simpl; congruence. Qed.

Record AllocationRequestSignature := mkAllocationRequestSignature {
  sig_owner : LeaseOwner;
  sig_resources : list RequestedResourceSignature
}.

#[global] Instance AllocationRequestSignature_eq_dec : EqDecision AllocationRequestSignature.
Proof. solve_decision. Defined.

Definition resource_signature (r : LeaseResourceRequest) : RequestedResourceSignature :=
  mkRequestedResourceSignature (acquisition_key r) (rr_share r).

Definition signature_from_request (request : LeaseAllocationRequest) : AllocationRequestSignature :=
  mkAllocationRequestSignature (lar_owner request)
    (rust_sort (map resource_signature (lar_resources request))).

Record AllocatorIdempotencyRecord := mkAllocatorIdempotencyRecord {
  idem_key : string;
  idem_signature : AllocationRequestSignature;
  idem_result : LeaseAllocationResult
}.

Record FakeAllocatorLedger := mkFakeAllocatorLedger {
  leases : list AllocatorLease;
  idempotency : list AllocatorIdempotencyRecord;
  next_lease_sequence : N
}.

Definition ledger_new (leases : list AllocatorLease) : FakeAllocatorLedger :=
  mkFakeAllocatorLedger leases [] 1.

Definition remember_idempotency (key : string) (signature : AllocationRequestSignature)
    (result : LeaseAllocationResult) (self : FakeAllocatorLedger) : FakeAllocatorLedger :=
  mkFakeAllocatorLedger (leases self)
    (idempotency self ++ [mkAllocatorIdempotencyRecord key signature result])
    (next_lease_sequence self).

Definition idempotency_record (key : string) (self : FakeAllocatorLedger) :
    option AllocatorIdempotencyRecord :=
  List.find (fun record => String.eqb (idem_key record) key) (idempotency self).

Definition lease_name (sequence : N) : string := "lease-engine-" +:+ pretty sequence.

(** The [loop] of [next_lease_id]; [fuel] bounds its iterations, and [None]
    also stands for the [expect] on the generated id. *)
Fixpoint find_lease_id (fuel : nat) (existing : gset string) (sequence : N) : option (string * N) :=
  match fuel with
  | 0 => None
  | S fuel =>
      let candidate := lease_name sequence in
      let sequence := u64_wrap (sequence + 1) in
      if bool_decide (candidate ∈ existing) then find_lease_id fuel existing sequence
      else match parse_opaque candidate with
           | Ok id => Some (id, sequence)
           | Err _ => None
           end
  end.

Definition next_lease_id (self : FakeAllocatorLedger) : option (string * N) :=
  find_lease_id (S (length (leases self))) (list_to_set (map lease_id (leases self)))
    (next_lease_sequence self).

Record LocalRootAllocatorEngine := mkLocalRootAllocatorEngine {
  allocator_owner : LeaseOwner;
  ledger : FakeAllocatorLedger;
  observed : list ObservedHostResource;
  live_owners : list LeaseOwner
}.

Definition set_ledger (l : FakeAllocatorLedger) (self : LocalRootAllocatorEngine) :
    LocalRootAllocatorEngine :=
  mkLocalRootAllocatorEngine (allocator_owner self) l (observed self) (live_owners self).

Definition is_live (self : LocalRootAllocatorEngine) (owner : LeaseOwner) : bool :=
  existsb (fun candidate => bool_decide (candidate = owner)) (live_owners self).

Definition event_metadata (operation_id correlation_id : string) (owner : LeaseOwner)
    (decision : AllocatorEngineDecision) (resource_kind : option HostResourceKind)
    (trace : option TraceContext) : AllocatorEventMetadata :=
  mkAllocatorEventMetadata operation_id correlation_id owner (decision_event_kind decision)
    resource_kind (decision_reason decision) trace.

Definition metric_from_decision (decision : AllocatorEngineDecision)
    (resource_kind : option HostResourceKind) : AllocatorMetricEvent :=
  AllocatorMetricEvent_new (decision_event_kind decision) (decision_outcome decision) resource_kind
    (decision_reason decision).

Definition metric_from_replay_result (result : LeaseAllocationResult) : AllocatorMetricEvent :=
  match result with
  | Granted lease =>
      AllocatorMetricEvent_new AllocatorEventKind_Grant AllocatorEngineOutcome_IdempotentReplay
        (gr_kind <$> head (lease_resources lease)) None
  | Denied reason conflicts =>
      AllocatorMetricEvent_new AllocatorEventKind_Denial AllocatorEngineOutcome_IdempotentReplay
        (conflict_kind <$> head conflicts) (Some reason)
  end.

Definition bounded_events (events : list AllocatorEventMetadata) : list AllocatorEventMetadata :=
  take MAX_ALLOCATOR_EVENTS events.

Definition add_count (existing : AllocatorMetricEvent) (n : N) : AllocatorMetricEvent :=
  mkAllocatorMetricEvent (metric_event existing) (metric_outcome existing)
    (metric_resource_kind existing) (metric_reason existing)
    (u64_saturating_add (metric_count existing) n).

Definition aggregate_metric (aggregated : gmap AllocatorMetricLabels AllocatorMetricEvent)
    (metric : AllocatorMetricEvent) : gmap AllocatorMetricLabels AllocatorMetricEvent :=
  <[labels metric :=
      match aggregated !! labels metric with
      | Some existing => add_count existing (metric_count metric)
      | None => metric
      end]> aggregated.

Definition bounded_metrics (metrics : list AllocatorMetricEvent) : list AllocatorMetricEvent :=
  take MAX_ALLOCATOR_EVENTS (map snd (btree_entries (fold_left aggregate_metric metrics ∅))).

Definition has_duplicate_requested_resources (request : LeaseAllocationRequest) : bool :=
  has_duplicate (map rr_resource_id (lar_resources request)).

Definition delegation_for (kind : HostResourceKind) (share : ResourceShareMode)
    (resource_id : string) : ResourceDelegation :=
  match share with
  | SharedPartition => PartitionId resource_id
  | Exclusive =>
      match kind with
      | HostResourceKind_NftablesPartition | HostResourceKind_HostFilePartition =>
          PartitionId resource_id
      | HostResourceKind_NamespaceBoundary => NamespaceHandle resource_id
      | HostResourceKind_Bridge | HostResourceKind_Tap | HostResourceKind_VethPair
      | HostResourceKind_NftablesTable | HostResourceKind_CgroupSubtree => OpaqueName resource_id
      end
  end.

Definition grant_resource (r : LeaseResourceRequest) : GrantedHostResource :=
  mkGrantedHostResource (rr_resource_id r) (rr_kind r) (rr_share r)
    (delegation_for (rr_kind r) (rr_share r) (rr_resource_id r)) (rr_acquisition_order r).

(** [by_id] is collected from the requests in order: the last of two equal
    ids wins. *)
Definition grant_resources_in_order (request : LeaseAllocationRequest) : list GrantedHostResource :=
  let by_id : gmap string LeaseResourceRequest :=
    fold_left (fun m r => <[rr_resource_id r := r]> m) (lar_resources request) ∅ in
  omap (fun key => grant_resource <$> by_id !! ak_resource_id key) (acquisition_order request).

Definition holds (lease : AllocatorLease) (kind : HostResourceKind) (resource_id : string) : bool :=
  existsb (fun granted => bool_decide (gr_kind granted = kind)
                          && String.eqb (gr_resource_id granted) resource_id)
    (lease_resources lease).

Definition persisted_conflict (self : LocalRootAllocatorEngine) (owner : LeaseOwner)
    (resource : ResourceAcquisitionKey) : option AllocatorConflict :=
  lease ← List.find (fun lease => holds lease (ak_kind resource) (ak_resource_id resource))
            (List.filter (fun lease => negb (is_terminal (lease_state lease)))
               (leases (ledger self)));
  Some (mkAllocatorConflict (ak_resource_id resource) (ak_kind resource)
          (if bool_decide (lease_owner lease = owner) then AllocatorReasonCode_OwnershipConflict
           else AllocatorReasonCode_ResourceConflict)
          (Some (lease_id lease))).

Definition observed_reason (state : ObservedResourceState) : option AllocatorReasonCode :=
  match state with
  | ObservedResourceState_Missing => None
  | ObservedResourceState_Present => Some AllocatorReasonCode_ResourceConflict
  | ObservedResourceState_ForeignOwner => Some AllocatorReasonCode_OwnershipConflict
  | ObservedResourceState_Ambiguous | ObservedResourceState_Inaccessible =>
      Some AllocatorReasonCode_KernelStateUnknown
  end.

Definition observed_conflict (self : LocalRootAllocatorEngine) (resource : ResourceAcquisitionKey) :
    option AllocatorConflict :=
  obs ← List.find (fun obs => bool_decide (obs_kind obs = ak_kind resource)
                              && String.eqb (obs_resource_id obs) (ak_resource_id resource))
          (observed self);
  reason ← observed_reason (obs_state obs);
  Some (mkAllocatorConflict (ak_resource_id resource) (ak_kind resource) reason None).

(** The [for] of [allocation_conflicts], which stops once enough are found. *)
Fixpoint collect_conflicts (self : LocalRootAllocatorEngine) (owner : LeaseOwner)
    (keys : list ResourceAcquisitionKey) (conflicts : list AllocatorConflict) :
    list AllocatorConflict :=
  match keys with
  | [] => conflicts
  | key :: keys =>
      let conflicts := conflicts ++ option_list (persisted_conflict self owner key)
                                 ++ option_list (observed_conflict self key) in
      if bool_decide (MAX_ALLOCATOR_CONFLICTS <= length conflicts) then conflicts
      else collect_conflicts self owner keys conflicts
  end.

Definition allocation_conflicts (self : LocalRootAllocatorEngine)
    (request : LeaseAllocationRequest) : list AllocatorConflict :=
  collect_conflicts self (lar_owner request) (acquisition_order request) [].

Definition decision_events (request : LeaseAllocationRequest)
    (decisions : list AllocatorAllocationDecision) : list AllocatorEventMetadata :=
  bounded_events (map (fun d => event_metadata (lar_operation_id request)
      (lar_correlation_id request) (lar_owner request) (ad_decision d) (Some (ad_kind d))
      (lar_trace request)) decisions).

Definition decision_metrics (decisions : list AllocatorAllocationDecision) :
    list AllocatorMetricEvent :=
  bounded_metrics (map (fun d => metric_from_decision (ad_decision d) (Some (ad_kind d))) decisions).

Definition respond (request : LeaseAllocationRequest) (result : LeaseAllocationResult) :
    LeaseAllocationResponse :=
  mkLeaseAllocationResponse (lar_operation_id request) (lar_correlation_id request) result.

Definition deny_request (request : LeaseAllocationRequest) (acquired : list ResourceAcquisitionKey)
    (reason : AllocatorReasonCode) (conflicts : list AllocatorConflict)
    (self : LocalRootAllocatorEngine) : AllocatorEngineAllocation * LocalRootAllocatorEngine :=
  let conflicts := take MAX_ALLOCATOR_CONFLICTS conflicts in
  let decisions :=
    match conflicts with
    | [] => map (fun r => mkAllocatorAllocationDecision (rr_resource_id r) (rr_kind r)
                            (DecisionDenyConflict reason)) (lar_resources request)
    | _ => map (fun c => mkAllocatorAllocationDecision (conflict_resource_id c) (conflict_kind c)
                           (DecisionDenyConflict (conflict_reason c))) conflicts
    end in
  let result := Denied reason conflicts in
  let self :=
    match idempotency_record (lar_idempotency_key request) (ledger self) with
    | None => set_ledger (remember_idempotency (lar_idempotency_key request)
                (signature_from_request request) result (ledger self)) self
    | Some _ => self
    end in
  (mkAllocatorEngineAllocation (respond request result) decisions
     (decision_events request decisions) (decision_metrics decisions) acquired, self).

Definition grant_request (request : LeaseAllocationRequest) (acquired : list ResourceAcquisitionKey)
    (id : string) (sequence : N) (self : LocalRootAllocatorEngine) :
    AllocatorEngineAllocation * LocalRootAllocatorEngine :=
  let lease := mkAllocatorLease id (lar_owner request) AllocatorLeaseState_Granted
                 (grant_resources_in_order request) in
  let result := Granted lease in
  let l := mkFakeAllocatorLedger (leases (ledger self) ++ [lease]) (idempotency (ledger self))
             sequence in
  let self := set_ledger (remember_idempotency (lar_idempotency_key request)
                (signature_from_request request) result l) self in
  let decisions := map (fun r => mkAllocatorAllocationDecision (rr_resource_id r) (rr_kind r)
                                   DecisionGrant) (lar_resources request) in
  (mkAllocatorEngineAllocation (respond request result) decisions
     (decision_events request decisions) (decision_metrics decisions) acquired, self).

(** [None] is the panic of [next_lease_id]. *)
Definition allocate (request : LeaseAllocationRequest) (self : LocalRootAllocatorEngine) :
    option (AllocatorEngineAllocation * LocalRootAllocatorEngine) :=
  let acquired := acquisition_order request in
  let signature := signature_from_request request in
  match idempotency_record (lar_idempotency_key request) (ledger self) with
  | Some record =>
      if bool_decide (idem_signature record = signature) then
        Some (mkAllocatorEngineAllocation (respond request (idem_result record)) [] []
                [metric_from_replay_result (idem_result record)] acquired, self)
      else Some (deny_request request acquired AllocatorReasonCode_InvalidRequest [] self)
  | None =>
      if negb (is_live self (lar_owner request))
      then Some (deny_request request acquired AllocatorReasonCode_OwnerNotLive [] self)
      else if bool_decide (lar_resources request = [])
              || bool_decide (MAX_ALLOCATOR_REQUEST_RESOURCES < length (lar_resources request))
      then Some (deny_request request acquired AllocatorReasonCode_InvalidRequest [] self)
      else if has_duplicate_requested_resources request
      then Some (deny_request request acquired AllocatorReasonCode_InvalidRequest [] self)
      else match allocation_conflicts self request with
      | [] =>
          '(id, sequence) ← next_lease_id (ledger self);
          Some (grant_request request acquired id sequence self)
      | conflicts =>
          Some (deny_request request acquired AllocatorReasonCode_ResourceConflict conflicts self)
      end
  end.

(** ** Reconciliation *)

Abbreviation ResourceKey := (HostResourceKind * string)%type.

Record ResourcePair := mkResourcePair {
  pair_persisted : list PersistedResourceLease;
  pair_observed : option ObservedHostResource
}.

Definition ResourcePair_default : ResourcePair := mkResourcePair [] None.

Definition add_persisted (lease : AllocatorLease) (resources : gmap ResourceKey ResourcePair)
    (resource : GrantedHostResource) : gmap ResourceKey ResourcePair :=
  let key := (gr_kind resource, gr_resource_id resource) in
  let pair := default ResourcePair_default (resources !! key) in
  <[key := mkResourcePair
             (pair_persisted pair ++
              [mkPersistedResourceLease (lease_id lease) (lease_owner lease) (lease_state lease)])
             (pair_observed pair)]> resources.

Definition add_lease (resources : gmap ResourceKey ResourcePair) (lease : AllocatorLease) :
    gmap ResourceKey ResourcePair :=
  fold_left (add_persisted lease) (lease_resources lease) resources.

Definition add_observed (resources : gmap ResourceKey ResourcePair) (obs : ObservedHostResource) :
    gmap ResourceKey ResourcePair :=
  let key := (obs_kind obs, obs_resource_id obs) in
  let pair := default ResourcePair_default (resources !! key) in
  <[key := mkResourcePair (pair_persisted pair) (Some obs)]> resources.

Definition resource_pairs (self : LocalRootAllocatorEngine) : gmap ResourceKey ResourcePair :=
  fold_left add_observed (observed self) (fold_left add_lease (leases (ledger self)) ∅).

Definition reconciliation_decision (self : LocalRootAllocatorEngine)
    (persisted : list PersistedResourceLease) (obs : ObservedHostResource) :
    AllocatorEngineDecision :=
  if bool_decide (1 < length persisted)
  then DecisionQuarantine AllocatorReasonCode_StorageContractViolation
  else match head persisted with
  | None =>
      match obs_state obs with
      | ObservedResourceState_Missing => DecisionReconcile
      | ObservedResourceState_Present => DecisionPreserve AllocatorReasonCode_ResourceConflict
      | ObservedResourceState_ForeignOwner => DecisionPreserve AllocatorReasonCode_OwnershipConflict
      | ObservedResourceState_Ambiguous | ObservedResourceState_Inaccessible =>
          DecisionQuarantine AllocatorReasonCode_KernelStateUnknown
      end
  | Some persisted =>
      if is_terminal (persisted_state persisted) then
        match obs_state obs with
        | ObservedResourceState_Missing => DecisionReconcile
        | ObservedResourceState_Present | ObservedResourceState_ForeignOwner =>
            DecisionPreserve AllocatorReasonCode_OwnershipConflict
        | ObservedResourceState_Ambiguous | ObservedResourceState_Inaccessible =>
            DecisionQuarantine AllocatorReasonCode_KernelStateUnknown
        end
      else if negb (is_live self (persisted_owner persisted))
      then DecisionReclaim AllocatorReasonCode_OwnerNotLive
      else
        match obs_state obs with
        | ObservedResourceState_Present => DecisionReconcile
        | ObservedResourceState_Missing => DecisionReclaim AllocatorReasonCode_DriftDetected
        | ObservedResourceState_ForeignOwner => DecisionQuarantine AllocatorReasonCode_DriftDetected
        | ObservedResourceState_Ambiguous | ObservedResourceState_Inaccessible =>
            DecisionQuarantine AllocatorReasonCode_KernelStateUnknown
        end
  end.

Definition reconcile_action (self : LocalRootAllocatorEngine) (entry : ResourceKey * ResourcePair) :
    AllocatorReconciliationAction :=
  let '((kind, resource_id), rp) := entry in
  let obs := default (mkObservedHostResource resource_id kind
                        ResourceObservationSource_AllocatorLedger ObservedResourceState_Missing)
               (pair_observed rp) in
  mkAllocatorReconciliationAction resource_id kind (head (pair_persisted rp)) obs
    (reconciliation_decision self (pair_persisted rp) obs).

Definition action_record (action : AllocatorReconciliationAction) : ReconciliationRecord :=
  mkReconciliationRecord (action_resource_id action) (action_kind action)
    (action_persisted action) (action_observed action)
    (decision_reconciliation (action_decision action)).

Definition reconcile (operation_id correlation_id : string) (self : LocalRootAllocatorEngine) :
    AllocatorEngineReconciliation :=
  let actions := map (reconcile_action self) (btree_entries (resource_pairs self)) in
  let records := map action_record (take MAX_RECONCILIATION_RECORDS actions) in
  let events := bounded_events (map (fun action =>
      event_metadata operation_id correlation_id
        (default (allocator_owner self) (persisted_owner <$> action_persisted action))
        (action_decision action) (Some (action_kind action)) None) actions) in
  let metrics := bounded_metrics (map (fun action =>
      metric_from_decision (action_decision action) (Some (action_kind action))) actions) in
  mkAllocatorEngineReconciliation
    (mkReconciliationReport operation_id correlation_id records events) actions metrics.

(** ** Generated lease ids *)

(** Digits cannot complete a word that has none. *)
Lemma starts_with_digits p s d :
  forallb is_ascii_digit d = true -> forallb (fun c => negb (is_ascii_digit c)) p = true ->
  starts_with p (s ++ d) = starts_with p s.
Proof.
  intros Hd. revert s. induction p as [|c p IH]; intros s Hp; [done|].
  simpl in Hp. apply andb_true_iff in Hp as [Hc Hp]. destruct s as [|x s]; simpl.
  - destruct d as [|y d]; [done|]. simpl in Hd. apply andb_true_iff in Hd as [Hy _].
    unfold char_eqb. destruct (Ascii.eqb_spec c y) as [->|]; [|done]. by rewrite Hy in Hc.
  - by rewrite IH.
Qed.

Lemma contains_digits p s d :
  forallb is_ascii_digit d = true -> forallb (fun c => negb (is_ascii_digit c)) p = true ->
  p <> [] -> contains p (s ++ d) = contains p s.
Proof.
  intros Hd Hp Hne. induction s as [|x s IH]; cbn [app].
  - assert (forall d, forallb is_ascii_digit d = true -> contains p d = false) as H.
    { clear d Hd. intros d. induction d as [|y d IH]; intros Hd.
      - destruct p; [done|]. done.
      - cbn [contains]. rewrite IH by (by apply andb_true_iff in Hd as [_ ?]).
        pose proof (starts_with_digits p [] (y :: d) Hd Hp) as Hs. cbn [app] in Hs.
        rewrite Hs. by destruct p. }
    rewrite (H d Hd), (H []); done.
  - cbn [contains]. rewrite IH. pose proof (starts_with_digits p (x :: s) d Hd Hp) as Hs.
    cbn [app] in Hs. by rewrite Hs.
Qed.

Lemma filter_digits d :
  forallb is_ascii_digit d = true ->
  map to_lowercase (List.filter (fun c => negb (is_separator c)) d) = d.
Proof.
  induction d as [|c d IH]; simpl; [done|]. intros [Hc Hd]%andb_true_iff.
  assert (is_separator c = false /\ to_lowercase c = c) as [-> Hl].
  { revert Hc. clear. destruct c as [[] [] [] [] [] [] [] []]; by vm_compute. }
  simpl. by rewrite IH, Hl.
Qed.

Lemma lease_name_valid n : u64_fits n -> parse_opaque (lease_name n) = Ok (lease_name n).
Proof.
  intros Hn. destruct (pretty_u64 n Hn) as [Hd Hlen]. apply parse_id_ok.
  assert (Hc : chars (lease_name n) = chars "lease-engine-" ++ chars (pretty n))
    by apply chars_app.
  split_and!; [done|done| |].
  - rewrite <- length_chars, Hc, length_app, !length_chars. simpl. unfold MAX_ID_LEN. lia.
  - unfold is_opaque_token, compact. rewrite Hc. set (d := chars (pretty n)) in *.
    assert (forallb (fun c => is_ascii_alphanumeric c || is_separator c)
              (chars "lease-engine-" ++ d) = true) as ->.
    { rewrite forallb_app. apply andb_true_iff. split; [done|].
      apply forallb_elem. intros c Hin. rewrite forallb_elem in Hd. apply Hd in Hin.
      unfold is_ascii_alphanumeric. rewrite Hin. by rewrite !orb_true_r. }
    rewrite contains_digits; [|exact Hd|vm_compute; reflexivity|vm_compute; discriminate].
    rewrite List.filter_app, map_app, (filter_digits d Hd).
    change (map to_lowercase (List.filter (fun c => negb (is_separator c)) (chars "lease-engine-")))
      with (chars "leaseengine").
    assert (existsb (fun marker => contains (chars marker)
              (chars "leaseengine" ++ d)) SECRET_MARKERS = false) as ->; [|done].
    apply existsb_false. intros m Hin. unfold SECRET_MARKERS in Hin.
    rewrite contains_digits; [|exact Hd|..]; rewrite !elem_of_cons, elem_of_nil in Hin;
      repeat (destruct Hin as [->|Hin]; [by vm_compute|]); done.
Qed.

Lemma lease_name_inj n m : lease_name n = lease_name m -> n = m.
Proof.
  intros H. apply (inj pretty). apply chars_inj. apply (f_equal chars) in H.
  unfold lease_name in H. rewrite !chars_app in H. by apply app_inv_head in H.
Qed.

(** Enough iterations: each one that fails uses up one existing name. *)
Lemma find_lease_id_some fuel (existing left : gset string) n :
  (n + N.of_nat fuel <= u64_max)%N -> size left < fuel ->
  (forall m, (n <= m)%N -> lease_name m ∈ existing -> lease_name m ∈ left) ->
  exists m, (n <= m)%N /\ (m < n + N.of_nat fuel)%N /\ (lease_name m ∉ existing) /\
    find_lease_id fuel existing n = Some (lease_name m, (m + 1)%N).
Proof.
  revert left n. induction fuel as [|fuel IH]; intros left n Hn Hsz Hleft; [lia|].
  cbn [find_lease_id]. rewrite u64_wrap_small by (unfold u64_fits; lia).
  case_bool_decide as Hin.
  - assert (Hl : lease_name n ∈ left) by (apply Hleft; [lia|done]).
    destruct (IH (left ∖ {[lease_name n]}) (n + 1)%N) as (m & ? & ? & ? & ?); [lia|..].
    + assert (1 <= size left)
        by (rewrite <- (size_singleton (C := gset string) (lease_name n)); apply subseteq_size; set_solver).
      rewrite size_difference by set_solver. rewrite size_singleton. lia.
    + intros m Hm Hex. apply elem_of_difference. split; [apply Hleft; [lia|done]|].
      intros Heq%elem_of_singleton%lease_name_inj. lia.
    + exists m. split_and!; [lia|lia|done|done].
  - rewrite lease_name_valid by (unfold u64_fits; lia). exists n. split_and!; [lia|lia|done|done].
Qed.

Lemma next_lease_id_some (l : FakeAllocatorLedger) :
  (next_lease_sequence l + N.of_nat (S (length (leases l))) <= u64_max)%N ->
  exists m, (m + 1 <= u64_max)%N /\ (lease_name m ∉ map lease_id (leases l)) /\
    next_lease_id l = Some (lease_name m, (m + 1)%N).
Proof.
  intros Hn. unfold next_lease_id.
  destruct (find_lease_id_some (S (length (leases l))) (list_to_set (map lease_id (leases l)))
              (list_to_set (map lease_id (leases l))) (next_lease_sequence l))
    as (m & _ & H1 & H2 & H3); [done| |auto|].
  - rewrite <- (length_map lease_id (leases l)). apply Nat.lt_succ_r.
    apply size_list_to_set_le.
  - exists m. rewrite elem_of_list_to_set in H2. split_and!; [lia|done|done].
Qed.

Lemma next_lease_id_fresh l id n :
  next_lease_id l = Some (id, n) -> id ∉ map lease_id (leases l).
Proof.
  unfold next_lease_id. generalize (S (length (leases l))) (next_lease_sequence l).
  intros fuel. induction fuel as [|fuel IH]; intros k; [done|]. cbn [find_lease_id].
  case_bool_decide as Hin; [apply IH|]. rewrite elem_of_list_to_set in Hin.
  destruct (parse_opaque (lease_name k)) as [i|] eqn:Hp; [|done].
  apply parse_id_ok in Hp as [-> _]. by intros [= <- _].
Qed.

(** ** Conflicts *)

Lemma find_none {A} (f : A -> bool) l : List.find f l = None <-> forall x, x ∈ l -> f x = false.
Proof.
  split.
  - intros H x Hx. by apply (List.find_none f l H), list_elem_of_In.
  - intros H. destruct (List.find f l) as [x|] eqn:E; [|done].
    apply List.find_some in E as [Hx Hf]. apply list_elem_of_In in Hx. by rewrite H in Hf.
Qed.

Definition held (self : LocalRootAllocatorEngine) (kind : HostResourceKind) (id : string) : Prop :=
  exists lease, lease ∈ leases (ledger self) /\ is_terminal (lease_state lease) = false /\
    holds lease kind id = true.

Lemma persisted_conflict_none self owner key :
  persisted_conflict self owner key = None <-> ~ held self (ak_kind key) (ak_resource_id key).
Proof.
  unfold persisted_conflict, held. destruct (List.find _ _) as [lease|] eqn:Hf; simpl.
  - split; [done|]. apply List.find_some in Hf as [Hin Hh].
    apply List.filter_In in Hin as [Hin Ht]. apply list_elem_of_In in Hin.
    apply negb_true_iff in Ht. intros Hno. exfalso. apply Hno. eauto.
  - split; [|done]. intros _ (lease & Hin & Ht & Hh).
    pose proof (proj1 (find_none _ _) Hf lease) as Hx. simpl in Hx. rewrite Hx in Hh; [done|].
    apply list_elem_of_In, List.filter_In. split; [by apply list_elem_of_In|]. by rewrite Ht.
Qed.

(** The first observation of a resource says it is absent, or there is none. *)
Definition observed_free (self : LocalRootAllocatorEngine) (key : ResourceAcquisitionKey) : Prop :=
  observed_conflict self key = None.

Lemma collect_conflicts_prefix self owner keys acc :
  exists more, collect_conflicts self owner keys acc = acc ++ more.
Proof.
  revert acc. induction keys as [|key keys IH]; intros acc; simpl.
  { exists []. by rewrite app_nil_r. }
  case_bool_decide; [by eauto|].
  destruct (IH (acc ++ option_list (persisted_conflict self owner key)
                    ++ option_list (observed_conflict self key))) as [more ->].
  rewrite <- app_assoc. eauto.
Qed.

Lemma allocation_conflicts_nil self request :
  allocation_conflicts self request = [] <->
  forall r, r ∈ lar_resources request ->
    ~ held self (rr_kind r) (rr_resource_id r) /\ observed_free self (acquisition_key r).
Proof.
  unfold allocation_conflicts, observed_free.
  assert (Hkeys : forall keys, collect_conflicts self (lar_owner request) keys [] = [] <->
    forall key, key ∈ keys -> ~ held self (ak_kind key) (ak_resource_id key) /\
      observed_conflict self key = None).
  { intros keys. induction keys as [|key keys IH]; [set_solver|]. cbn [collect_conflicts app].
    setoid_rewrite elem_of_cons.
    assert (Hne : forall acc, acc <> [] ->
      (if bool_decide (MAX_ALLOCATOR_CONFLICTS <= length acc) then acc
       else collect_conflicts self (lar_owner request) keys acc) <> []).
    { intros acc Hacc. case_bool_decide; [done|].
      destruct (collect_conflicts_prefix self (lar_owner request) keys acc) as [more ->].
      by destruct acc. }
    destruct (persisted_conflict self (lar_owner request) key) as [c|] eqn:Hp;
      [|destruct (observed_conflict self key) as [c|] eqn:Ho].
    - split; [intros H; by apply Hne in H|]. intros H. destruct (H key) as [Hno _]; [by left|].
      apply persisted_conflict_none with (owner := lar_owner request) in Hno. congruence.
    - split; [intros H; by apply Hne in H|]. intros H. destruct (H key) as [_ Hno]; [by left|].
      congruence.
    - apply persisted_conflict_none in Hp. cbn [option_list app].
      rewrite bool_decide_false by (unfold MAX_ALLOCATOR_CONFLICTS; simpl; lia).
      rewrite IH. split; [intros H key' [->|Hin]; eauto|eauto]. }
  rewrite Hkeys. unfold acquisition_order. setoid_rewrite elem_of_rust_sort.
  setoid_rewrite list_elem_of_fmap. split.
  - intros H r Hr. apply (H (acquisition_key r)). eauto.
  - intros H key (r & -> & Hr). by apply (H r).
Qed.

(** ** Grants *)

Lemma by_id_lookup rs (m0 : gmap string LeaseResourceRequest) r :
  NoDup (map rr_resource_id rs) -> r ∈ rs ->
  fold_left (fun m r => <[rr_resource_id r := r]> m) rs m0 !! rr_resource_id r = Some r.
Proof.
  intros Hnd. revert m0. induction rs as [|x rs IH]; intros m0 Hr; [by apply elem_of_nil in Hr|].
  simpl in *. apply NoDup_cons in Hnd as [Hx Hnd]. apply elem_of_cons in Hr as [->|Hr]; [|by apply IH].
  assert (Hskip : forall l (m : gmap string LeaseResourceRequest), rr_resource_id x ∉ map rr_resource_id l ->
    fold_left (fun m r => <[rr_resource_id r := r]> m) l m !! rr_resource_id x
    = m !! rr_resource_id x).
  { intros l. induction l as [|y l IHl]; intros m Hy; simpl in *; [done|].
    apply not_elem_of_cons in Hy as [Hne Hy]. rewrite IHl by done. by apply lookup_insert_ne. }
  rewrite Hskip by done. apply lookup_insert_eq.
Qed.

Definition granted_key (g : GrantedHostResource) : ResourceAcquisitionKey :=
  mkResourceAcquisitionKey (gr_acquisition_order g) (gr_kind g) (gr_resource_id g).

Lemma grant_resources_elem request g :
  NoDup (map rr_resource_id (lar_resources request)) ->
  g ∈ grant_resources_in_order request <->
  exists r, r ∈ lar_resources request /\ g = grant_resource r.
Proof.
  intros Hnd. unfold grant_resources_in_order. rewrite list_elem_of_omap.
  unfold acquisition_order. setoid_rewrite elem_of_rust_sort. setoid_rewrite list_elem_of_fmap. split.
  - intros (key & (r & -> & Hr) & Hg). change (ak_resource_id (acquisition_key r)) with (rr_resource_id r) in Hg.
    rewrite by_id_lookup in Hg by done. simpl in Hg.
    injection Hg as <-. eauto.
  - intros (r & Hr & ->). exists (acquisition_key r). split; [by eauto|].
    change (ak_resource_id (acquisition_key r)) with (rr_resource_id r).
    by rewrite (by_id_lookup _ _ r).
Qed.

Lemma grant_resources_keys request :
  NoDup (map rr_resource_id (lar_resources request)) ->
  map granted_key (grant_resources_in_order request) = acquisition_order request.
Proof.
  intros Hnd. unfold grant_resources_in_order.
  assert (Hin : forall key, key ∈ acquisition_order request ->
    exists r, r ∈ lar_resources request /\ key = acquisition_key r).
  { intros key. unfold acquisition_order. rewrite elem_of_rust_sort, list_elem_of_fmap. naive_solver. }
  induction (acquisition_order request) as [|key keys IH]; simpl; [done|].
  destruct (Hin key) as (r & Hr & ->); [left|].
  change (ak_resource_id (acquisition_key r)) with (rr_resource_id r).
  rewrite (by_id_lookup _ _ r) by done. simpl. f_equal. apply IH. intros k Hk. apply Hin. by right.
Qed.

Lemma holds_elem lease kind id :
  holds lease kind id = true <->
  exists g, g ∈ lease_resources lease /\ gr_kind g = kind /\ gr_resource_id g = id.
Proof.
  unfold holds. rewrite existsb_elem. setoid_rewrite andb_true_iff.
  setoid_rewrite bool_decide_eq_true. by setoid_rewrite String.eqb_eq.
Qed.

(** ** The outcomes of [allocate] *)

(** What a request must satisfy to be granted. *)
Record grantable (request : LeaseAllocationRequest) (self : LocalRootAllocatorEngine) : Prop := {
  ga_live : is_live self (lar_owner request) = true;
  ga_len : 1 <= length (lar_resources request) <= MAX_ALLOCATOR_REQUEST_RESOURCES;
  ga_nodup : NoDup (map rr_resource_id (lar_resources request));
  ga_free : forall r, r ∈ lar_resources request ->
    ~ held self (rr_kind r) (rr_resource_id r) /\ observed_free self (acquisition_key r)
}.

Definition remembered (request : LeaseAllocationRequest) (result : LeaseAllocationResult)
    (self : LocalRootAllocatorEngine) : LocalRootAllocatorEngine :=
  set_ledger (remember_idempotency (lar_idempotency_key request)
                (signature_from_request request) result (ledger self)) self.

Definition result_of (a : AllocatorEngineAllocation) : LeaseAllocationResult :=
  response_result (response a).

Lemma deny_request_new request acquired reason conflicts self :
  idempotency_record (lar_idempotency_key request) (ledger self) = None ->
  let cs := take MAX_ALLOCATOR_CONFLICTS conflicts in
  exists a, deny_request request acquired reason conflicts self =
            (a, remembered request (Denied reason cs) self) /\ result_of a = Denied reason cs.
Proof. intros Hn. unfold deny_request. rewrite Hn. eexists. split; [reflexivity|done]. Qed.

Lemma allocate_cases request self :
  match idempotency_record (lar_idempotency_key request) (ledger self) with
  | Some record =>
      exists a, allocate request self = Some (a, self) /\
        result_of a = if decide (idem_signature record = signature_from_request request)
                      then idem_result record
                      else Denied AllocatorReasonCode_InvalidRequest []
  | None =>
      (grantable request self /\
       allocate request self =
         ('(id, sequence) ← next_lease_id (ledger self);
          Some (grant_request request (acquisition_order request) id sequence self))) \/
      (~ grantable request self /\ exists a reason cs,
       allocate request self = Some (a, remembered request (Denied reason cs) self) /\
       result_of a = Denied reason cs /\ length cs <= MAX_ALLOCATOR_CONFLICTS)
  end.
Proof.
  unfold allocate.
  destruct (idempotency_record (lar_idempotency_key request) (ledger self)) as [rec|] eqn:Hrec.
  { case_bool_decide; [rewrite decide_True by done|rewrite decide_False by done].
    - eexists. by split.
    - unfold deny_request. rewrite Hrec. eexists. by split. }
  assert (Hdeny : forall reason conflicts, exists a reason' cs,
    Some (deny_request request (acquisition_order request) reason conflicts self) =
    Some (a, remembered request (Denied reason' cs) self) /\
    result_of a = Denied reason' cs /\ length cs <= MAX_ALLOCATOR_CONFLICTS).
  { intros reason conflicts.
    destruct (deny_request_new request (acquisition_order request) reason conflicts self Hrec)
      as (a & -> & Ha). eexists a, _, _. split_and!; [done|done|]. rewrite length_take. lia. }
  destruct (is_live self (lar_owner request)) eqn:Hlive; cbn [negb]; cycle 1.
  { right. split; [|apply Hdeny]. intros []. congruence. }
  destruct (bool_decide (lar_resources request = []) || _) eqn:Hlen.
  { right. split; [|apply Hdeny]. intros [_ Hl _ _].
    apply orb_true_iff in Hlen as [H%bool_decide_eq_true|H%bool_decide_eq_true].
    - rewrite H in Hl. simpl in Hl. lia.
    - lia. }
  apply orb_false_iff in Hlen as [Hne%bool_decide_eq_false Hmax%bool_decide_eq_false].
  destruct (has_duplicate_requested_resources request) eqn:Hdup.
  { right. split; [|apply Hdeny]. intros [_ _ Hnd _]. apply has_duplicate_false in Hnd.
    unfold has_duplicate_requested_resources in Hdup. congruence. }
  apply has_duplicate_false in Hdup.
  destruct (allocation_conflicts self request) as [|c cs] eqn:Hc.
  - left. split; [|done]. split; [done| |done|by apply allocation_conflicts_nil].
    destruct (lar_resources request); simpl in *; [done|lia].
  - right. split; [|apply Hdeny]. intros [_ _ _ Hfree].
    apply allocation_conflicts_nil in Hfree. congruence.
Qed.

(** ** The ledger invariant

    Lease ids are distinct and no host resource is held by two live leases. *)
Record ledger_wf (l : FakeAllocatorLedger) : Prop := {
  lw_ids : NoDup (map lease_id (leases l));
  lw_exclusive : forall i j l1 l2 kind id,
    leases l !! i = Some l1 -> leases l !! j = Some l2 ->
    is_terminal (lease_state l1) = false -> is_terminal (lease_state l2) = false ->
    holds l1 kind id = true -> holds l2 kind id = true -> i = j
}.

Lemma allocate_ledger_wf request self a self' :
  ledger_wf (ledger self) -> allocate request self = Some (a, self') -> ledger_wf (ledger self').
Proof.
  intros Hwf Hal. pose proof (allocate_cases request self) as Hc.
  destruct (idempotency_record (lar_idempotency_key request) (ledger self)) as [rec|].
  { destruct Hc as (a' & Hal' & _). congruence. }
  destruct Hc as [[Hg Hal']|(_ & a' & reason & cs & Hal' & _)]; rewrite Hal in Hal'; cycle 1.
  { injection Hal' as -> ->. by destruct Hwf. }
  destruct (next_lease_id (ledger self)) as [[id n]|] eqn:Hid; simpl in Hal'; [|done].
  injection Hal' as -> ->. apply next_lease_id_fresh in Hid. destruct Hwf as [Hnd Hex].
  assert (Hnew : forall i l1 kind rid, leases (ledger self) !! i = Some l1 ->
    is_terminal (lease_state l1) = false -> holds l1 kind rid = true ->
    (exists g, g ∈ grant_resources_in_order request /\ gr_kind g = kind /\ gr_resource_id g = rid) ->
    False).
  { intros i l1 kind rid Hi Ht Hh (g & Hin & Hk & Hr).
    apply grant_resources_elem in Hin as (r & Hr' & ->); [|apply Hg].
    destruct (ga_free _ _ Hg r Hr') as [Hno _]. apply Hno. simpl in *. subst.
    exists l1. split_and!; [by eapply list_elem_of_lookup_2|done|done]. }
  split; simpl.
  - rewrite map_app. apply NoDup_app. split_and!; [done| |apply NoDup_singleton].
    intros x Hx ->%list_elem_of_singleton. done.
  - intros i j l1 l2 kind rid Hi Hj Ht1 Ht2 Hh1 Hh2.
    apply lookup_app_Some in Hi as [Hi|[Hi1 Hi2]], Hj as [Hj|[Hj1 Hj2]].
    + by eapply Hex.
    + exfalso. apply list_lookup_singleton_Some in Hj2 as [_ <-].
      apply (Hnew i l1 kind rid); try done. by apply holds_elem in Hh2.
    + exfalso. apply list_lookup_singleton_Some in Hi2 as [_ <-].
      apply (Hnew j l2 kind rid); try done. by apply holds_elem in Hh1.
    + apply list_lookup_singleton_Some in Hi2 as [Hi2 _], Hj2 as [Hj2 _]. lia.
Qed.

Fixpoint allocate_all (requests : list LeaseAllocationRequest) (self : LocalRootAllocatorEngine) :
    option (list AllocatorEngineAllocation * LocalRootAllocatorEngine) :=
  match requests with
  | [] => Some ([], self)
  | request :: requests =>
      '(a, self) ← allocate request self;
      '(rest, self) ← allocate_all requests self;
      Some (a :: rest, self)
  end.

Lemma allocate_all_cons request requests self as_ self' :
  allocate_all (request :: requests) self = Some (as_, self') ->
  exists a self1 rest, allocate request self = Some (a, self1) /\
    allocate_all requests self1 = Some (rest, self') /\ as_ = a :: rest.
Proof.
  simpl. destruct (allocate request self) as [[a self1]|]; simpl; [|done].
  destruct (allocate_all requests self1) as [[rest self2]|] eqn:Hr; simpl; [|done].
  intros [= <- <-]. eauto 10.
Qed.

(** C3. No host resource is ever held by two live leases, and no lease id is
    used twice: both hold after any sequence of allocation requests on a
    ledger where they hold. *)
Theorem allocations_exclusive (requests : list LeaseAllocationRequest)
    (self self' : LocalRootAllocatorEngine) (as_ : list AllocatorEngineAllocation) :
  ledger_wf (ledger self) -> allocate_all requests self = Some (as_, self') ->
  ledger_wf (ledger self').
Proof.
  revert self as_. induction requests as [|request requests IH]; intros self as_ Hwf.
  - intros [= _ <-]. done.
  - intros (a & self1 & rest & Ha & Hr & _)%allocate_all_cons.
    eapply IH; [|exact Hr]. by eapply allocate_ledger_wf.
Qed.

Lemma idempotency_record_app key l r :
  List.find (fun record => String.eqb (idem_key record) key) (l ++ [r]) =
  match List.find (fun record => String.eqb (idem_key record) key) l with
  | Some rec => Some rec
  | None => if String.eqb (idem_key r) key then Some r else None
  end.
Proof. induction l as [|x l IH]; simpl; [done|]. by destruct (String.eqb (idem_key x) key). Qed.

(** A record, once made, answers for its key forever. *)
Lemma allocate_keeps_record request self a self' key rec :
  allocate request self = Some (a, self') ->
  idempotency_record key (ledger self) = Some rec ->
  idempotency_record key (ledger self') = Some rec.
Proof.
  intros Hal Hrec. pose proof (allocate_cases request self) as Hc.
  destruct (idempotency_record (lar_idempotency_key request) (ledger self)) as [r|].
  { destruct Hc as (a' & Hal' & _). congruence. }
  destruct Hc as [[Hg Hal']|(_ & a' & reason & cs & Hal' & _)]; rewrite Hal in Hal'.
  - destruct (next_lease_id (ledger self)) as [[id n]|]; simpl in Hal'; [|done].
    injection Hal' as -> ->. unfold idempotency_record in *. simpl.
    by rewrite idempotency_record_app, Hrec.
  - injection Hal' as -> ->. unfold idempotency_record in *. simpl.
    by rewrite idempotency_record_app, Hrec.
Qed.

(** After a request was answered, its key has a record that gives its answer. *)
Lemma allocate_records request self a self' :
  allocate request self = Some (a, self') ->
  exists rec, idempotency_record (lar_idempotency_key request) (ledger self') = Some rec /\
    result_of a = if decide (idem_signature rec = signature_from_request request)
                  then idem_result rec else Denied AllocatorReasonCode_InvalidRequest [].
Proof.
  intros Hal. pose proof (allocate_cases request self) as Hc.
  destruct (idempotency_record (lar_idempotency_key request) (ledger self)) as [r|] eqn:Hrec.
  { destruct Hc as (a' & Hal' & Ha'). exists r. split; congruence. }
  assert (Hnew : forall result l, idempotency l = idempotency (ledger self) ->
    idempotency_record (lar_idempotency_key request)
      (remember_idempotency (lar_idempotency_key request) (signature_from_request request) result l)
    = Some (mkAllocatorIdempotencyRecord (lar_idempotency_key request)
              (signature_from_request request) result)).
  { intros result l Hl. unfold idempotency_record in *. simpl. rewrite Hl, idempotency_record_app, Hrec.
    simpl. by rewrite String.eqb_refl. }
  destruct Hc as [[Hg Hal']|(_ & a' & reason & cs & Hal' & Ha' & _)]; rewrite Hal in Hal'.
  - destruct (next_lease_id (ledger self)) as [[id n]|]; simpl in Hal'; [|done].
    injection Hal' as -> ->. eexists. split; [by apply Hnew|]. simpl. by rewrite decide_True.
  - injection Hal' as -> ->. eexists. split; [by apply Hnew|]. simpl. by rewrite decide_True.
Qed.

(** Allocation is idempotent: once a request was answered, sending it again
    under the same key, for the same owner and resources in any order, however
    many other requests came in between, gives the same answer and changes
    nothing. *)
Theorem allocate_idempotent (request again : LeaseAllocationRequest)
    (between : list LeaseAllocationRequest) (self self1 self2 : LocalRootAllocatorEngine)
    (a : AllocatorEngineAllocation) (as_ : list AllocatorEngineAllocation) :
  allocate request self = Some (a, self1) -> allocate_all between self1 = Some (as_, self2) ->
  lar_idempotency_key again = lar_idempotency_key request ->
  lar_owner again = lar_owner request -> lar_resources again ≡ₚ lar_resources request ->
  exists a', allocate again self2 = Some (a', self2) /\ result_of a' = result_of a.
Proof.
  intros Hal Hbetween Hkey Howner Hres.
  destruct (allocate_records _ _ _ _ Hal) as (rec & Hrec & Hres_a).
  assert (Hrec2 : idempotency_record (lar_idempotency_key request) (ledger self2) = Some rec).
  { clear Hal Hres_a. revert self1 as_ Hrec Hbetween.
    induction between as [|q between IH]; intros self1 as_ Hrec.
    - by intros [= _ <-].
    - intros (b & self3 & rest & Hb & Hr & _)%allocate_all_cons.
      eapply IH; [|exact Hr]. by eapply allocate_keeps_record. }
  assert (Hsig : signature_from_request again = signature_from_request request).
  { unfold signature_from_request. rewrite Howner. f_equal. apply rust_sort_perm_eq.
    by rewrite Hres. }
  pose proof (allocate_cases again self2) as Hc. rewrite Hkey, Hrec2 in Hc.
  destruct Hc as (a' & Ha' & Hres'). exists a'. split; [done|]. by rewrite Hres', Hsig.
Qed.

(** A lease is granted exactly when the key is new, the owner is live, the
    request names between one and [MAX_ALLOCATOR_REQUEST_RESOURCES] distinct
    resources, none of them is held by a live lease and none is observed on
    the host; the lease then names those resources, in acquisition order. *)
Theorem grant_exact (request : LeaseAllocationRequest) (self self' : LocalRootAllocatorEngine)
    (a : AllocatorEngineAllocation) :
  idempotency_record (lar_idempotency_key request) (ledger self) = None ->
  allocate request self = Some (a, self') ->
  ((exists lease, result_of a = Granted lease) <-> grantable request self) /\
  (forall lease, result_of a = Granted lease ->
     lease_owner lease = lar_owner request /\
     map granted_key (lease_resources lease) = acquisition_order request /\
     leases (ledger self') = leases (ledger self) ++ [lease]) /\
  (~ grantable request self -> leases (ledger self') = leases (ledger self)).
Proof.
  intros Hrec Hal. pose proof (allocate_cases request self) as Hc. rewrite Hrec in Hc.
  destruct Hc as [[Hg Hal']|(Hng & a' & reason & cs & Hal' & Ha' & _)]; rewrite Hal in Hal'.
  - destruct (next_lease_id (ledger self)) as [[id n]|]; simpl in Hal'; [|done].
    injection Hal' as -> ->. split_and!.
    + split; [done|]. intros _. by eexists.
    + intros lease [= <-]. split_and!; [done| |done]. apply grant_resources_keys, Hg.
    + done.
  - injection Hal' as -> ->. split_and!.
    + split; [|done]. intros [lease Hl]. congruence.
    + intros lease Hl. congruence.
    + done.
Qed.

(** [allocate] never panics: while the sequence counter has room, the search
    for a lease id terminates within one step per existing lease and the id
    it generates is a valid, unused opaque token. *)
Theorem allocate_total (request : LeaseAllocationRequest) (self : LocalRootAllocatorEngine) :
  (next_lease_sequence (ledger self) + N.of_nat (S (length (leases (ledger self)))) <= u64_max)%N ->
  is_Some (allocate request self) /\
  exists id n, next_lease_id (ledger self) = Some (id, n) /\ valid_opaque id /\
    (id ∉ map lease_id (leases (ledger self))) /\ u64_fits n.
Proof.
  intros Hn. destruct (next_lease_id_some _ Hn) as (m & Hm & Hfresh & Hid). split.
  - pose proof (allocate_cases request self) as Hc.
    destruct (idempotency_record _ _) as [rec|]; [destruct Hc as (? & -> & _); by eexists|].
    destruct Hc as [[_ ->]|(_ & ? & ? & ? & -> & _)]; [|by eexists].
    rewrite Hid. by eexists.
  - exists (lease_name m), (m + 1)%N.
    split_and!; [done|apply lease_name_valid; unfold u64_fits; lia|done|unfold u64_fits; lia].
Qed.

(** ** Reconciliation

    What the ledger and the observation say of one resource, read off the
    lists. *)
Definition persisted_as (lease : AllocatorLease) : PersistedResourceLease :=
  mkPersistedResourceLease (lease_id lease) (lease_owner lease) (lease_state lease).

Definition is_key (key : ResourceKey) (g : GrantedHostResource) : bool :=
  bool_decide ((gr_kind g, gr_resource_id g) = key).

Definition entries_of (key : ResourceKey) (lease : AllocatorLease) : list PersistedResourceLease :=
  map (fun _ => persisted_as lease) (List.filter (is_key key) (lease_resources lease)).

Definition persisted_for (self : LocalRootAllocatorEngine) (key : ResourceKey) :
    list PersistedResourceLease :=
  flat_map (entries_of key) (leases (ledger self)).

(** The last observation of a resource counts. *)
Definition observed_for (self : LocalRootAllocatorEngine) (key : ResourceKey) :
    option ObservedHostResource :=
  last (List.filter (fun obs => bool_decide ((obs_kind obs, obs_resource_id obs) = key))
          (observed self)).

Definition state_for (self : LocalRootAllocatorEngine) (key : ResourceKey) : ObservedResourceState :=
  from_option obs_state ObservedResourceState_Missing (observed_for self key).

Definition get_pair (m : gmap ResourceKey ResourcePair) (key : ResourceKey) : ResourcePair :=
  default ResourcePair_default (m !! key).

Lemma add_persisted_get lease m g key :
  get_pair (add_persisted lease m g) key =
  if is_key key g
  then mkResourcePair (pair_persisted (get_pair m key) ++ [persisted_as lease])
         (pair_observed (get_pair m key))
  else get_pair m key.
Proof.
  unfold add_persisted, get_pair, is_key. case_bool_decide as Heq; simpl.
  - by rewrite <- Heq, lookup_insert_eq.
  - by rewrite lookup_insert_ne.
Qed.

Lemma add_lease_get m lease key :
  pair_persisted (get_pair (add_lease m lease) key)
    = pair_persisted (get_pair m key) ++ entries_of key lease /\
  pair_observed (get_pair (add_lease m lease) key) = pair_observed (get_pair m key).
Proof.
  unfold add_lease, entries_of. revert m.
  induction (lease_resources lease) as [|g gs IH]; intros m; simpl; [by rewrite app_nil_r|].
  destruct (IH (add_persisted lease m g)) as [-> ->]. rewrite add_persisted_get.
  destruct (is_key key g); simpl; [|done]. by rewrite <- app_assoc.
Qed.

Lemma fold_leases_get ls m key :
  pair_persisted (get_pair (fold_left add_lease ls m) key)
    = pair_persisted (get_pair m key) ++ flat_map (entries_of key) ls /\
  pair_observed (get_pair (fold_left add_lease ls m) key) = pair_observed (get_pair m key).
Proof.
  revert m. induction ls as [|l ls IH]; intros m; simpl; [by rewrite app_nil_r|].
  destruct (IH (add_lease m l)) as [-> ->]. destruct (add_lease_get m l key) as [-> ->].
  by rewrite <- app_assoc.
Qed.

Lemma add_observed_get m obs key :
  get_pair (add_observed m obs) key =
  if bool_decide ((obs_kind obs, obs_resource_id obs) = key)
  then mkResourcePair (pair_persisted (get_pair m key)) (Some obs) else get_pair m key.
Proof.
  unfold add_observed, get_pair. case_bool_decide as Heq.
  - by rewrite <- Heq, lookup_insert_eq.
  - by rewrite lookup_insert_ne.
Qed.

Lemma fold_observed_get os m key :
  pair_persisted (get_pair (fold_left add_observed os m) key) = pair_persisted (get_pair m key) /\
  pair_observed (get_pair (fold_left add_observed os m) key)
    = match last (List.filter (fun obs => bool_decide ((obs_kind obs, obs_resource_id obs) = key)) os) with
      | Some obs => Some obs
      | None => pair_observed (get_pair m key)
      end.
Proof.
  revert m. induction os as [|o os IH]; intros m; simpl; [done|].
  destruct (IH (add_observed m o)) as [-> ->]. rewrite add_observed_get.
  case_bool_decide as Heq; [|done]. rewrite last_cons. split; [done|]. by destruct (last _).
Qed.

(** The map [reconcile] builds says of each key what the lists say. *)
Lemma resource_pairs_get self key :
  get_pair (resource_pairs self) key = mkResourcePair (persisted_for self key) (observed_for self key).
Proof.
  unfold resource_pairs.
  destruct (fold_observed_get (observed self) (fold_left add_lease (leases (ledger self)) ∅) key)
    as [H1 H2].
  destruct (fold_leases_get (leases (ledger self)) ∅ key) as [H3 H4].
  rewrite H3 in H1. rewrite H4 in H2.
  destruct (get_pair (fold_left add_observed _ _) key) as [ps o]; simpl in *. subst.
  unfold observed_for. f_equal. by destruct (last _).
Qed.

(** No key is added without a lease or an observation. *)
Lemma fold_in_dom {A} (f : gmap ResourceKey ResourcePair -> A -> gmap ResourceKey ResourcePair)
    (P : A -> ResourceKey -> Prop) (l : list A) m key :
  (forall m a, is_Some (f m a !! key) <-> is_Some (m !! key) \/ P a key) ->
  is_Some (fold_left f l m !! key) <-> is_Some (m !! key) \/ exists a, a ∈ l /\ P a key.
Proof.
  intros Hf. revert m. induction l as [|a l IH]; intros m; simpl.
  - split; [by left|]. intros [H|(a & H & _)]; [done|]. by apply elem_of_nil in H.
  - rewrite IH, Hf. setoid_rewrite elem_of_cons. naive_solver.
Qed.

Lemma insert_in_dom (m : gmap ResourceKey ResourcePair) k v key :
  is_Some (<[k := v]> m !! key) <-> is_Some (m !! key) \/ k = key.
Proof. rewrite lookup_insert_is_Some. destruct (decide (k = key)); naive_solver. Qed.

Lemma resource_pairs_dom self key :
  is_Some (resource_pairs self !! key) <->
  (exists lease, lease ∈ leases (ledger self) /\ holds lease key.1 key.2 = true) \/
  (exists obs, obs ∈ observed self /\ (obs_kind obs, obs_resource_id obs) = key).
Proof.
  unfold resource_pairs.
  rewrite (fold_in_dom add_observed (fun obs key => (obs_kind obs, obs_resource_id obs) = key))
    by (intros; apply insert_in_dom).
  rewrite (fold_in_dom add_lease (fun lease key => holds lease key.1 key.2 = true)).
  - rewrite lookup_empty. setoid_rewrite is_Some_alt at 1. naive_solver.
  - intros m lease. unfold add_lease.
    rewrite (fold_in_dom (add_persisted lease) (fun g key => (gr_kind g, gr_resource_id g) = key))
      by (intros; apply insert_in_dom).
    rewrite holds_elem. destruct key. simpl. naive_solver.
Qed.

Definition action_key (a : AllocatorReconciliationAction) : ResourceKey :=
  (action_kind a, action_resource_id a).

Lemma map_reconcile_keys (self : LocalRootAllocatorEngine) (m : gmap ResourceKey ResourcePair) :
  map action_key (map (reconcile_action self) (btree_entries m)) = btree_keys m.
Proof.
  unfold btree_entries. assert (Hall : forall k, k ∈ btree_keys m -> is_Some (m !! k)).
  { intros k Hk%elem_of_btree_iter. by apply elem_of_dom. }
  induction (btree_keys m) as [|k ks IH]; simpl; [done|].
  destruct (Hall k) as [v Hv]; [left|]. rewrite Hv. simpl. destruct k. simpl. f_equal.
  apply IH. intros k Hk. apply Hall. by right.
Qed.

(** The ledger and the host agree on a resource. *)
Definition consistent (self : LocalRootAllocatorEngine) (key : ResourceKey) : Prop :=
  match persisted_for self key with
  | [] => state_for self key = ObservedResourceState_Missing
  | [p] => if is_terminal (persisted_state p)
           then state_for self key = ObservedResourceState_Missing
           else is_live self (persisted_owner p) = true /\
                state_for self key = ObservedResourceState_Present
  | _ => False
  end.

(** A resource may be torn down: one live lease holds it, whose owner is gone or
    which the host no longer has. *)
Definition reclaimable (self : LocalRootAllocatorEngine) (key : ResourceKey) : Prop :=
  exists p, persisted_for self key = [p] /\ is_terminal (persisted_state p) = false /\
    (is_live self (persisted_owner p) = false \/
     state_for self key = ObservedResourceState_Missing).

Ltac solve_decision_table :=
  split; split; intros;
  repeat match goal with
         | H : exists _, _ |- _ => destruct H
         | H : _ /\ _ |- _ => destruct H
         | H : _ \/ _ |- _ => destruct H
         end; simplify_eq; try congruence; try done; eauto 8.

Lemma reconcile_action_spec self key rp :
  resource_pairs self !! key = Some rp ->
  let a := reconcile_action self (key, rp) in
  (action_decision a = DecisionReconcile <-> consistent self key) /\
  ((exists reason, action_decision a = DecisionReclaim reason) <-> reclaimable self key).
Proof.
  intros Hrp. pose proof (resource_pairs_get self key) as Hg. unfold get_pair in Hg.
  rewrite Hrp in Hg. simpl in Hg. subst rp. destruct key as [kind id]. cbn [reconcile_action].
  cbv zeta. cbn [action_decision pair_persisted pair_observed]. unfold consistent, reclaimable, state_for.
  set (obs := default _ (observed_for self (kind, id))).
  replace (from_option obs_state ObservedResourceState_Missing (observed_for self (kind, id)))
    with (obs_state obs) by (unfold obs; by destruct (observed_for self (kind, id))).
  unfold reconciliation_decision. destruct (persisted_for self (kind, id)) as [|p [|p' ps]]; simpl.
  - destruct (obs_state obs); solve_decision_table.
  - destruct (is_terminal (persisted_state p)) eqn:Ht; [|destruct (is_live self (persisted_owner p)) eqn:Hl];
      simpl; destruct (obs_state obs); solve_decision_table.
  - solve_decision_table.
Qed.

(** Reconciliation decides about every resource a lease names or the host
    shows, each exactly once and in key order.  It calls a resource
    reconciled exactly when ledger and host agree on it, and reclaims it
    exactly when a single live lease holds it whose owner is gone or which
    the host has lost: it never tears down anything it does not own. *)
Theorem reconcile_exact (self : LocalRootAllocatorEngine) (operation_id correlation_id : string) :
  let acts := actions (reconcile operation_id correlation_id self) in
  StronglySorted ord_lt (map action_key acts) /\
  (forall key, key ∈ map action_key acts <->
     (exists lease, lease ∈ leases (ledger self) /\ holds lease key.1 key.2 = true) \/
     (exists obs, obs ∈ observed self /\ (obs_kind obs, obs_resource_id obs) = key)) /\
  (forall a, a ∈ acts ->
     (action_decision a = DecisionReconcile <-> consistent self (action_key a)) /\
     ((exists reason, action_decision a = DecisionReclaim reason) <->
      reclaimable self (action_key a))) /\
  report_records (report (reconcile operation_id correlation_id self))
    = map action_record (take MAX_RECONCILIATION_RECORDS acts).
Proof.
  cbv zeta. unfold reconcile. cbn [actions report report_records]. split_and!.
  - rewrite map_reconcile_keys. apply btree_iter_sorted.
  - intros key. rewrite map_reconcile_keys. unfold btree_keys.
    rewrite elem_of_btree_iter, elem_of_dom. apply resource_pairs_dom.
  - intros a Ha. apply list_elem_of_fmap in Ha as ([key rp] & -> & Hin).
    apply elem_of_btree_entries in Hin. pose proof (reconcile_action_spec self key rp Hin) as Hs.
    by destruct key.
  - done.
Qed.

(** A resource named by several entries is quarantined. *)
Lemma reconcile_action_shared self key rp :
  resource_pairs self !! key = Some rp -> 1 < length (persisted_for self key) ->
  action_decision (reconcile_action self (key, rp))
    = DecisionQuarantine AllocatorReasonCode_StorageContractViolation.
Proof.
  intros Hrp Hlen. pose proof (resource_pairs_get self key) as Hg. unfold get_pair in Hg.
  rewrite Hrp in Hg. simpl in Hg. subst rp. destruct key. simpl.
  unfold reconciliation_decision. simpl. by rewrite bool_decide_true.
Qed.

Lemma entries_of_holds lease key : holds lease key.1 key.2 = true -> entries_of key lease <> [].
Proof.
  intros (g & Hg & Hk & Hid)%holds_elem Hnil. unfold entries_of in Hnil.
  apply map_eq_nil in Hnil. apply list_elem_of_In in Hg.
  assert (Hin : In g (List.filter (is_key key) (lease_resources lease))).
  { apply List.filter_In. split; [done|]. apply bool_decide_eq_true. destruct key. by simplify_eq/=. }
  by rewrite Hnil in Hin.
Qed.

(** A resource whose old lease is terminal may be granted again, but
    reconciliation counts the terminal lease too: the newly granted
    resource, healthy and observed as present or not, is quarantined as a
    storage contract violation. *)
Theorem regrant_quarantined (request : LeaseAllocationRequest)
    (self self' : LocalRootAllocatorEngine) (a : AllocatorEngineAllocation)
    (lease old : AllocatorLease) (r : LeaseResourceRequest)
    (observation : list ObservedHostResource) (operation_id correlation_id : string) :
  idempotency_record (lar_idempotency_key request) (ledger self) = None ->
  allocate request self = Some (a, self') -> result_of a = Granted lease ->
  r ∈ lar_resources request -> old ∈ leases (ledger self) ->
  is_terminal (lease_state old) = true -> holds old (rr_kind r) (rr_resource_id r) = true ->
  let after := mkLocalRootAllocatorEngine (allocator_owner self') (ledger self') observation
                 (live_owners self') in
  exists act, act ∈ actions (reconcile operation_id correlation_id after) /\
    action_key act = (rr_kind r, rr_resource_id r) /\
    action_decision act = DecisionQuarantine AllocatorReasonCode_StorageContractViolation.
Proof.
  intros Hrec Hal Hgr Hr Hold _ Hh after.
  assert (leases (ledger after) = leases (ledger self) ++ [lease] /\
                holds lease (rr_kind r) (rr_resource_id r) = true) as [Hls Hnew].
  { pose proof (allocate_cases request self) as Hc. rewrite Hrec, Hal in Hc.
    destruct Hc as [[Hg Hal']|(_ & a' & ? & ? & Hal' & Ha' & _)]; [|simplify_eq; congruence].
    destruct (next_lease_id (ledger self)) as [[id n]|]; simpl in Hal'; [|done]. injection Hal' as -> ->. injection Hgr as <-.
    split; [done|]. apply holds_elem. exists (grant_resource r).
    split; [|done]. apply grant_resources_elem; [apply Hg|]. eauto. }
  set (key := (rr_kind r, rr_resource_id r)).
  assert (Hsome : is_Some (resource_pairs after !! key)).
  { apply resource_pairs_dom. left. exists lease. rewrite Hls. split; [|done].
    apply elem_of_app. right. by apply list_elem_of_singleton. }
  destruct Hsome as [rp Hrp]. exists (reconcile_action after (key, rp)). split_and!; [|done|].
  - apply list_elem_of_fmap. exists (key, rp). split; [done|]. by apply elem_of_btree_entries.
  - apply reconcile_action_shared; [done|]. unfold persisted_for. rewrite Hls, flat_map_app, length_app.
    simpl. rewrite app_nil_r. apply (entries_of_holds _ key) in Hnew. apply (entries_of_holds _ key) in Hh.
    apply list_elem_of_In in Hold. apply in_split in Hold as (l1 & l2 & ->).
    rewrite flat_map_app, length_app. simpl. rewrite length_app.
    destruct (entries_of key lease), (entries_of key old); simpl; first [done|lia].
Qed.

(** ** Decoding of allocation results *)

(** The fields an allocation result is serialized with. *)
Definition result_fields (result : LeaseAllocationResult) : list result_field :=
  match result with
  | Granted lease => [FieldStatus true; FieldLease (Some lease)]
  | Denied reason conflicts =>
      [FieldStatus false; FieldReason (Some reason); FieldConflicts (Some conflicts)]
  end.

Definition acc_fields (acc : result_acc) : list result_field :=
  option_list (FieldStatus <$> acc_status acc) ++ option_list (FieldLease <$> acc_lease acc) ++
  option_list (FieldReason <$> acc_reason acc) ++ option_list (FieldConflicts <$> acc_conflicts acc).

Lemma read_result_fields_some fields acc acc' :
  read_result_fields fields acc = Some acc' -> acc_fields acc' ≡ₚ fields ++ acc_fields acc.
Proof.
  revert acc. induction fields as [|f fields IH]; intros acc; simpl; [by intros [= ->]|].
  assert (Hstep : forall acc1, acc_fields acc1 ≡ₚ f :: acc_fields acc ->
    read_result_fields fields acc1 = Some acc' -> acc_fields acc' ≡ₚ f :: fields ++ acc_fields acc).
  { intros acc1 Hp Hr. rewrite (IH _ Hr), Hp. by rewrite Permutation_middle. }
  destruct acc as [st le re co], f; simpl; [destruct st|destruct le|destruct re|destruct co|]; try done;
    apply Hstep; unfold acc_fields; simpl;
    by rewrite <- ?Permutation_middle, ?app_assoc, <- ?Permutation_middle.
Qed.

Lemma read_result_fields_perm fields fields' acc :
  fields ≡ₚ fields' -> read_result_fields fields acc = read_result_fields fields' acc.
Proof.
  intros Hp. revert acc. induction Hp as [|f l l' _ IH|f g l|l1 l2 l3 _ IH1 _ IH2]; intros acc.
  - done.
  - destruct f; simpl; repeat case_match; auto.
  - destruct acc as [[] [] [] []], f, g; done.
  - by rewrite IH1.
Qed.

(** A serialized allocation result is accepted exactly when its fields are,
    in any order, those of a granted result with its lease or of a denied
    result with its reason and a bounded list of conflicts: a missing,
    repeated, unknown, null or foreign field is an error. *)
Theorem result_decode_exact (fields : list result_field) (result : LeaseAllocationResult) :
  LeaseAllocationResult_visit_map fields = Some result <->
  fields ≡ₚ result_fields result /\
  match result with
  | Granted _ => True
  | Denied _ conflicts => length conflicts <= MAX_ALLOCATOR_CONFLICTS
  end.
Proof.
  unfold LeaseAllocationResult_visit_map. split.
  - destruct (read_result_fields fields _) as [[st le re co]|] eqn:Hr; simpl; [|done].
    apply read_result_fields_some in Hr. unfold acc_fields in Hr. simpl in Hr.
    rewrite app_nil_r in Hr.
    destruct st as [[]|]; simpl; [| |done].
    + destruct re, co; simpl; try done. destruct le as [[lease|]|]; simpl; try done.
      intros [= <-]. by rewrite <- Hr.
    + destruct le; simpl; [done|]. destruct re as [[reason|]|]; simpl; try done.
      destruct co as [[conflicts|]|]; simpl; try done. unfold validate_len.
      case_bool_decide; [|done]. intros [= <-]. by rewrite <- Hr.
  - intros [Hp Hlen]. rewrite (read_result_fields_perm _ _ _ Hp).
    destruct result as [lease|reason conflicts]; simpl; [done|].
    unfold validate_len. by rewrite bool_decide_true.
Qed.

(** The fields a reconciliation decision is serialized with. *)
Definition decision_fields (decision : ReconciliationDecision) : list decision_field :=
  match decision with
  | Reconciled => [FieldDecision TagReconciled]
  | Quarantine reason => [FieldDecision TagQuarantine; FieldDecisionReason (Some reason)]
  | Reclaim reason => [FieldDecision TagReclaim; FieldDecisionReason (Some reason)]
  | Deny reason => [FieldDecision TagDeny; FieldDecisionReason (Some reason)]
  end.

Lemma read_decision_fields_some fields decision reason decision' reason' :
  read_decision_fields fields decision reason = Some (decision', reason') ->
  option_list (FieldDecision <$> decision') ++ option_list (FieldDecisionReason <$> reason') ≡ₚ
  fields ++ option_list (FieldDecision <$> decision) ++ option_list (FieldDecisionReason <$> reason).
Proof.
  revert decision reason. induction fields as [|f fields IH]; intros decision reason; simpl.
  { by intros [= -> ->]. }
  destruct f; simpl; [destruct decision|destruct reason|]; try done;
    intros ->%IH; simpl; by rewrite <- ?Permutation_middle, ?app_nil_r, <- ?Permutation_middle,
      <- ?Permutation_cons_append.
Qed.

Lemma read_decision_fields_perm fields fields' decision reason :
  fields ≡ₚ fields' ->
  read_decision_fields fields decision reason = read_decision_fields fields' decision reason.
Proof.
  intros Hp. revert decision reason.
  induction Hp as [|f l l' _ IH|f g l|l1 l2 l3 _ IH1 _ IH2]; intros decision reason.
  - done.
  - destruct f; simpl; repeat case_match; auto.
  - destruct decision, reason, f, g; done.
  - by rewrite IH1.
Qed.

(** A serialized reconciliation decision is accepted exactly when its fields
    are, in any order, those of a decision. *)
Lemma decision_decode_exact fields decision :
  ReconciliationDecision_visit_map fields = Some decision <-> fields ≡ₚ decision_fields decision.
Proof.
  unfold ReconciliationDecision_visit_map. split.
  - destruct (read_decision_fields fields None None) as [[tag reason]|] eqn:Hr; simpl; [|done].
    apply read_decision_fields_some in Hr. simpl in Hr. rewrite app_nil_r in Hr.
    destruct tag as [[]|], reason as [[reason|]|]; simpl; try done;
      intros [= <-]; by rewrite <- Hr.
  - intros Hp. rewrite (read_decision_fields_perm _ _ _ _ Hp). by destruct decision.
Qed.

(** ** A concrete run *)

Definition demo_owner : LeaseOwner := mkLeaseOwner ["work"] "gen-1" None.

Definition demo_resource (id : string) (ordinal : N) : LeaseResourceRequest :=
  mkLeaseResourceRequest id HostResourceKind_Bridge Exclusive (mkResourceAcquisitionOrder 1 ordinal).

Definition demo_request (key : string) (ids : list (string * N)) : LeaseAllocationRequest :=
  mkLeaseAllocationRequest "op-1" "corr-1" key demo_owner
    (map (fun '(id, n) => demo_resource id n) ids) None.

(** A lease of the bridge "br-a" that was already reclaimed. *)
Definition demo_old : AllocatorLease :=
  mkAllocatorLease "lease-old" demo_owner AllocatorLeaseState_Reclaimed
    [grant_resource (demo_resource "br-a" 0)].

Definition demo_engine : LocalRootAllocatorEngine :=
  mkLocalRootAllocatorEngine demo_owner (ledger_new [demo_old]) [] [demo_owner].

Lemma demo_ledger_wf : ledger_wf (ledger demo_engine).
Proof.
  split; [apply NoDup_singleton|]. intros [|i] [|j] l1 l2 kind id Hi Hj; [done|..]; done.
Qed.

Lemma allocations_exclusive_witness :
  exists as_ self', allocate_all [demo_request "key-1" [("br-a", 0%N); ("br-b", 1%N)];
                                  demo_request "key-2" [("br-b", 0%N)]] demo_engine = Some (as_, self') /\
    length (leases (ledger self')) = 2 /\ ledger_wf (ledger self').
Proof.
  destruct (allocate_all _ demo_engine) as [[as_ self']|] eqn:H; [|vm_compute in H; discriminate H].
  exists as_, self'. split; [done|].
  split; [|exact (allocations_exclusive _ _ _ _ demo_ledger_wf H)].
  vm_compute in H. by injection H as _ <-.
Defined.

Lemma allocate_idempotent_witness :
  exists a self1 as_ self2 a',
    allocate (demo_request "key-1" [("br-a", 0%N); ("br-b", 1%N)]) demo_engine = Some (a, self1) /\
    allocate_all [demo_request "key-2" [("br-c", 0%N)]] self1 = Some (as_, self2) /\
    allocate (demo_request "key-1" [("br-b", 1%N); ("br-a", 0%N)]) self2 = Some (a', self2) /\
    result_of a' = result_of a.
Proof.
  destruct (allocate _ demo_engine) as [[a self1]|] eqn:H1; [|vm_compute in H1; discriminate H1].
  destruct (allocate_all [demo_request "key-2" [("br-c", 0%N)]] self1) as [[as_ self2]|] eqn:H2.
  - edestruct (allocate_idempotent _ (demo_request "key-1" [("br-b", 1%N); ("br-a", 0%N)])
                 _ _ _ _ _ _ H1 H2) as (a' & Ha' & Hr); [done|done|apply Permutation_swap|].
    exists a, self1, as_, self2, a'. done.
  - exfalso. vm_compute in H1. injection H1 as _ <-. vm_compute in H2. discriminate H2.
Defined.

Lemma grant_exact_witness :
  exists a self', allocate (demo_request "key-1" [("br-b", 1%N); ("br-a", 0%N)]) demo_engine
                    = Some (a, self') /\
    (exists lease, result_of a = Granted lease /\
       map granted_key (lease_resources lease)
       = map acquisition_key [demo_resource "br-a" 0; demo_resource "br-b" 1]) /\
    grantable (demo_request "key-1" [("br-b", 1%N); ("br-a", 0%N)]) demo_engine.
Proof.
  destruct (allocate _ demo_engine) as [[a self']|] eqn:H; [|vm_compute in H; discriminate H].
  destruct (grant_exact (demo_request "key-1" [("br-b", 1%N); ("br-a", 0%N)]) demo_engine _ _ eq_refl H) as (Hiff & Hlease & _).
  assert (exists lease, result_of a = Granted lease) as [lease Hl].
  { vm_compute in H. injection H as <- _. by eexists. }
  exists a, self'. split; [done|]. split; [|by apply Hiff; exists lease].
  exists lease. split; [done|]. destruct (Hlease lease Hl) as (_ & -> & _). by vm_compute.
Defined.

Lemma allocate_total_witness :
  is_Some (allocate (demo_request "key-1" [("br-a", 0%N)]) demo_engine).
Proof. refine (proj1 (allocate_total _ _ _)). by vm_compute. Defined.

Lemma regrant_quarantined_witness :
  exists after act, act ∈ actions (reconcile "op-2" "corr-2" after) /\
    action_key act = (HostResourceKind_Bridge, "br-a") /\
    action_decision act = DecisionQuarantine AllocatorReasonCode_StorageContractViolation /\
    obs_state (action_observed act) = ObservedResourceState_Present.
Proof.
  destruct (allocate (demo_request "key-1" [("br-a", 0%N)]) demo_engine) as [[a self']|] eqn:H;
    [|vm_compute in H; discriminate H].
  assert (exists lease, result_of a = Granted lease) as [lease Hl].
  { vm_compute in H. injection H as <- _. by eexists. }
  destruct (regrant_quarantined (demo_request "key-1" [("br-a", 0%N)]) demo_engine _ _ _ demo_old (demo_resource "br-a" 0)
    [mkObservedHostResource "br-a" HostResourceKind_Bridge ResourceObservationSource_KernelNetlink
       ObservedResourceState_Present] "op-2" "corr-2" eq_refl H Hl) as (act & Hin & Hk & Hd);
    [by left|by left|done|done|].
  eexists _, act. split; [exact Hin|]. split; [done|]. split; [done|].
  apply list_elem_of_fmap in Hin as ([key rp] & -> & Hin). destruct key as [kind id].
  apply elem_of_btree_entries in Hin. injection Hk as -> ->.
  match type of Hin with resource_pairs ?e !! ?k = _ => pose proof (resource_pairs_get e k) as Hg end.
  unfold get_pair in Hg. rewrite Hin in Hg. simpl in Hg. by rewrite Hg.
Defined.

End Allocator.
