(* ===== verification/Routing.v ===== *)
(** * Route metadata of the realm tree

    [packages/d2b-realm-core/src/routing.rs]: the bounded records that
    discovery, admission and routing exchange, with their validating
    constructors ([X::new] is [X_new], [None] where it returns [None]) and the
    checks their decoders add ([X_deserialize]).  A reference newtype is the
    string it holds; [SignatureRef], [RouteId] and the like are strings. *)

From S2P Require Import Prelude Ids Streams Frame.

Definition MAX_ADVERTISED_ROUTES : nat := 64.
Definition MAX_SIGNATURE_REF_LEN : nat := 128.
Definition MAX_ROUTE_METADATA_REF_LEN : nat := 128.
Definition MAX_ROUTE_NAMESPACE_PREFIXES : nat := 16.
Definition MAX_ROUTE_PATH_HOPS : nat := 32.
Definition MAX_DISCOVERY_QUEUE_DEPTH : N := 4096.
Definition MAX_UNVERIFIED_PEERS : N := 1024.
Definition MAX_PREAUTH_RATE_LIMIT_PER_MINUTE : N := 60000.
Definition MAX_REPLAY_WINDOW_ENTRIES : N := 1000000.
Definition MAX_REPLAY_WINDOW_TTL_SECONDS : N := 86400.
Definition MAX_ROUTE_TELEMETRY_SAMPLES : nat := 64.

Definition deserialize_bounded_vec {A} (max : nat) (values : list A) : option (list A) :=
  if bool_decide (max < length values) then None else Some values.

(** ** References *)

Definition is_ref_separator (c : Ascii.ascii) : bool :=
  char_eqb c ":" || char_eqb c "-" || char_eqb c "_" || char_eqb c ".".

(** The shape shared by metadata and signature references. *)
Definition ref_shape (max : nat) (raw : string) : bool :=
  match chars raw with
  | [] => false
  | first :: _ =>
      bool_decide (String.length raw <= max) && is_ascii_alphanumeric first
      && forallb (fun c => is_ascii_alphanumeric c || is_ref_separator c) (chars raw)
  end.

Definition METADATA_MARKERS : list string :=
  ["secret"; "password"; "passwd"; "bearer"; "credential"; "privatekey"; "token"; "endpoint";
   "socketpath"].

Definition valid_metadata_ref (raw : string) : bool :=
  ref_shape MAX_ROUTE_METADATA_REF_LEN raw && negb (contains (chars "..") (chars raw))
  && let compact := map to_lowercase (List.filter (fun c => negb (is_ref_separator c)) (chars raw)) in
     negb (existsb (fun marker => contains (chars marker) compact) METADATA_MARKERS).

(** [parse] of the reference newtypes. *)
Definition metadata_ref_parse (raw : string) : option string :=
  if valid_metadata_ref raw then Some raw else None.

Definition SignatureRef_parse (raw : string) : option string :=
  if ref_shape MAX_SIGNATURE_REF_LEN raw then Some raw else None.

(** ** Reasons and outcomes *)

Inductive RouteFailClosedReason :=
| RouteFailClosedReason_MalformedAdvert
| RouteFailClosedReason_UnknownParent
| RouteFailClosedReason_NamespaceViolation
| RouteFailClosedReason_SiblingOrParentRouteAdvert
| RouteFailClosedReason_Loop
| RouteFailClosedReason_MultiParent
| RouteFailClosedReason_Expired
| RouteFailClosedReason_Replay
| RouteFailClosedReason_RateLimited
| RouteFailClosedReason_QueueFullDropNew
| RouteFailClosedReason_MissingCapability
| RouteFailClosedReason_PolicyDenial.

#[global] Instance RouteFailClosedReason_eq_dec : EqDecision RouteFailClosedReason.
Proof. solve_decision. Defined.

Definition RouteFailClosedReason_label (self : RouteFailClosedReason) : string :=
  match self with
  | RouteFailClosedReason_MalformedAdvert => "malformed-advert"
  | RouteFailClosedReason_UnknownParent => "unknown-parent"
  | RouteFailClosedReason_NamespaceViolation => "namespace-violation"
  | RouteFailClosedReason_SiblingOrParentRouteAdvert => "sibling-or-parent-route-advert"
  | RouteFailClosedReason_Loop => "loop"
  | RouteFailClosedReason_MultiParent => "multi-parent"
  | RouteFailClosedReason_Expired => "expired"
  | RouteFailClosedReason_Replay => "replay"
  | RouteFailClosedReason_RateLimited => "rate-limited"
  | RouteFailClosedReason_QueueFullDropNew => "queue-full-drop-new"
  | RouteFailClosedReason_MissingCapability => "missing-capability"
  | RouteFailClosedReason_PolicyDenial => "policy-denial"
  end.

Inductive PreAuthAdmissionOutcome :=
| PreAuth_Queued
| PreAuth_Dropped (reason : RouteFailClosedReason).

Inductive SessionAdmissionOutcome :=
| SessionAdmission_Admitted
| SessionAdmission_Denied (reason : RouteFailClosedReason).

(** ** Discovery *)

Inductive DiscoveryQueueDropPolicy := DropNew.

Record DiscoveryQueuePolicy := mkDiscoveryQueuePolicy {
  max_depth : N;
  max_unverified_peers : N;
  per_relay_rate_limit_per_minute : N;
  per_unverified_peer_rate_limit_per_minute : N;
  drop_policy : DiscoveryQueueDropPolicy
}.

(** [x == 0 || x > max], the bound of every limit of a policy. *)
Definition out_of_limit (x max : N) : bool :=
  bool_decide (x = 0%N) || bool_decide (max < x)%N.

Definition DiscoveryQueuePolicy_new (max_depth max_unverified_peers per_relay per_peer : N)
    (drop_policy : DiscoveryQueueDropPolicy) : option DiscoveryQueuePolicy :=
  if out_of_limit max_depth MAX_DISCOVERY_QUEUE_DEPTH
     || out_of_limit max_unverified_peers MAX_UNVERIFIED_PEERS
     || out_of_limit per_relay MAX_PREAUTH_RATE_LIMIT_PER_MINUTE
     || out_of_limit per_peer MAX_PREAUTH_RATE_LIMIT_PER_MINUTE
  then None
  else Some (mkDiscoveryQueuePolicy max_depth max_unverified_peers per_relay per_peer drop_policy).

Definition DiscoveryQueuePolicy_deserialize (raw : DiscoveryQueuePolicy) :
    option DiscoveryQueuePolicy :=
  DiscoveryQueuePolicy_new (max_depth raw) (max_unverified_peers raw)
    (per_relay_rate_limit_per_minute raw) (per_unverified_peer_rate_limit_per_minute raw)
    (drop_policy raw).

Inductive DiscoveryIngressClass :=
| DiscoveryIngressClass_LocalRoot
| DiscoveryIngressClass_ParentRelay
| DiscoveryIngressClass_ChildRelay
| DiscoveryIngressClass_ProviderRelay
| DiscoveryIngressClass_StaticConfig
| DiscoveryIngressClass_Unknown.

Definition DiscoveryIngressClass_label (self : DiscoveryIngressClass) : string :=
  match self with
  | DiscoveryIngressClass_LocalRoot => "local-root"
  | DiscoveryIngressClass_ParentRelay => "parent-relay"
  | DiscoveryIngressClass_ChildRelay => "child-relay"
  | DiscoveryIngressClass_ProviderRelay => "provider-relay"
  | DiscoveryIngressClass_StaticConfig => "static-config"
  | DiscoveryIngressClass_Unknown => "unknown"
  end.

Record UnverifiedPeerAdmissionAttemptMetadata := mkUnverifiedPeerAdmissionAttemptMetadata {
  ua_attempt_id : string;
  ua_correlation_id : string;
  ua_trace : option TraceContext;
  ua_unverified_peer_ref : string;
  ua_ingress_class : DiscoveryIngressClass;
  ua_claimed_realm : option RealmPath;
  ua_queue_depth : N;
  ua_outcome : PreAuthAdmissionOutcome
}.

Definition UnverifiedPeerAdmissionAttemptMetadata_new (raw : UnverifiedPeerAdmissionAttemptMetadata) :
    option UnverifiedPeerAdmissionAttemptMetadata :=
  if bool_decide (MAX_DISCOVERY_QUEUE_DEPTH < ua_queue_depth raw)%N then None else Some raw.

Definition UnverifiedPeerAdmissionAttemptMetadata_deserialize
    (raw : UnverifiedPeerAdmissionAttemptMetadata) : option UnverifiedPeerAdmissionAttemptMetadata :=
  UnverifiedPeerAdmissionAttemptMetadata_new raw.

Record ReplayWindowMetadata := mkReplayWindowMetadata {
  replay_window_id : string;
  max_entries : N;
  current_entries : N;
  ttl_seconds : N;
  observed_replay_count : N;
  opened_at_unix_seconds : N
}.

Definition ReplayWindowMetadata_new (raw : ReplayWindowMetadata) : option ReplayWindowMetadata :=
  if out_of_limit (max_entries raw) MAX_REPLAY_WINDOW_ENTRIES
     || bool_decide (max_entries raw < current_entries raw)%N
     || out_of_limit (ttl_seconds raw) MAX_REPLAY_WINDOW_TTL_SECONDS
     || bool_decide (MAX_REPLAY_WINDOW_ENTRIES < observed_replay_count raw)%N
  then None else Some raw.

Definition ReplayWindowMetadata_deserialize (raw : ReplayWindowMetadata) : option ReplayWindowMetadata :=
  ReplayWindowMetadata_new raw.

Record SessionAdmissionAttemptMetadata := mkSessionAdmissionAttemptMetadata {
  sa_attempt_id : string;
  sa_correlation_id : string;
  sa_trace : option TraceContext;
  sa_local_realm : RealmPath;
  sa_remote_realm : RealmPath;
  sa_operation_kind : OperationKind;
  sa_required_capability : option Capability;
  sa_replay_window : ReplayWindowMetadata;
  sa_outcome : SessionAdmissionOutcome
}.

(** ** The realm tree *)

Record RealmTreeEdge := mkRealmTreeEdge { edge_parent : RealmPath; edge_child : RealmPath }.

#[global] Instance RealmTreeEdge_eq_dec : EqDecision RealmTreeEdge.
Proof. solve_decision. Defined.

Definition RealmTreeEdge_new (parent child : RealmPath) : option RealmTreeEdge :=
  if is_direct_child_of child parent then Some (mkRealmTreeEdge parent child) else None.

Definition RealmTreeEdge_deserialize (raw : RealmTreeEdge) : option RealmTreeEdge :=
  RealmTreeEdge_new (edge_parent raw) (edge_child raw).

Record DescendantRoute := mkDescendantRoute {
  dr_route_id : string;
  dr_descendant : RealmPath;
  dr_next_hop_child : string;
  dr_capabilities : CapabilitySet
}.

Inductive RealmKeyRole := RealmIdentity | ParentTrustAnchor | ChildIdentity | ControllerGeneration.

Record RouteSignature := mkRouteSignature {
  sig_algorithm : string;
  sig_key_role : RealmKeyRole;
  sig_signing_key_fingerprint : string;
  signature_ref : string
}.

Record RouteAdvertisement := mkRouteAdvertisement {
  ad_advertising_realm : RealmPath;
  ad_tree_edge : RealmTreeEdge;
  ad_controller_generation : string;
  ad_routes : list DescendantRoute;
  ad_issued_at : N;
  ad_expires_at : N;
  ad_signature : RouteSignature
}.

Definition next_hop_child (descendant advertiser : RealmPath) : option string :=
  if bool_decide (length descendant < length advertiser + 1) then None
  else descendant !! (length descendant - (length advertiser + 1)).

Definition RouteAdvertisement_new (raw : RouteAdvertisement) : option RouteAdvertisement :=
  if bool_decide (edge_child (ad_tree_edge raw) <> ad_advertising_realm raw)
     || bool_decide (ad_routes raw = [])
     || bool_decide (MAX_ADVERTISED_ROUTES < length (ad_routes raw))
     || bool_decide (ad_expires_at raw <= ad_issued_at raw)%N
     || existsb (fun route =>
          negb (is_descendant_of (dr_descendant route) (ad_advertising_realm raw))
          || bool_decide (next_hop_child (dr_descendant route) (ad_advertising_realm raw)
                          <> Some (dr_next_hop_child route))) (ad_routes raw)
  then None else Some raw.

Definition RouteAdvertisement_deserialize (raw : RouteAdvertisement) : option RouteAdvertisement :=
  RouteAdvertisement_new raw.

Record RouteAdvertisementEnvelope := mkRouteAdvertisementEnvelope {
  env_admission : UnverifiedPeerAdmissionAttemptMetadata;
  env_replay_window : ReplayWindowMetadata;
  env_correlation_id : string;
  env_trace : option TraceContext;
  env_advertisement : RouteAdvertisement;
  env_received_at : N
}.

Record RouteNamespaceAllocation := mkRouteNamespaceAllocation {
  na_tree_edge : RealmTreeEdge;
  na_allocated_to_generation : string;
  na_allowed_prefixes : list RealmPath;
  na_max_routes : N;
  na_capability_ceiling : CapabilitySet
}.

Definition RouteNamespaceAllocation_new (raw : RouteNamespaceAllocation) :
    option RouteNamespaceAllocation :=
  let child := edge_child (na_tree_edge raw) in
  if bool_decide (na_allowed_prefixes raw = [])
     || bool_decide (MAX_ROUTE_NAMESPACE_PREFIXES < length (na_allowed_prefixes raw))
     || out_of_limit (na_max_routes raw) (N.of_nat MAX_ADVERTISED_ROUTES)
     || existsb (fun prefix => bool_decide (prefix <> child) && negb (is_descendant_of prefix child))
          (na_allowed_prefixes raw)
  then None else Some raw.

Definition RouteNamespaceAllocation_deserialize (raw : RouteNamespaceAllocation) :
    option RouteNamespaceAllocation :=
  prefixes ← deserialize_bounded_vec MAX_ROUTE_NAMESPACE_PREFIXES (na_allowed_prefixes raw);
  RouteNamespaceAllocation_new
    (mkRouteNamespaceAllocation (na_tree_edge raw) (na_allocated_to_generation raw) prefixes
       (na_max_routes raw) (na_capability_ceiling raw)).

(** ** Routes *)

Inductive TreeRouteHopDirection := UpToParent | DownToChild.

#[global] Instance TreeRouteHopDirection_eq_dec : EqDecision TreeRouteHopDirection.
Proof. solve_decision. Defined.

Record TreeRouteHop := mkTreeRouteHop {
  hop_from : RealmPath;
  hop_to : RealmPath;
  hop_edge : RealmTreeEdge;
  hop_direction : TreeRouteHopDirection;
  hop_route_id : option string
}.

#[global] Instance TreeRouteHop_eq_dec : EqDecision TreeRouteHop.
Proof. solve_decision. Defined.

Definition TreeRouteHop_new (from to : RealmPath) (edge : RealmTreeEdge)
    (direction : TreeRouteHopDirection) (route_id : option string) : option TreeRouteHop :=
  let valid := match direction with
               | UpToParent => bool_decide (from = edge_child edge) && bool_decide (to = edge_parent edge)
               | DownToChild => bool_decide (from = edge_parent edge) && bool_decide (to = edge_child edge)
               end in
  if (valid : bool) then Some (mkTreeRouteHop from to edge direction route_id) else None.

Definition TreeRouteHop_deserialize (raw : TreeRouteHop) : option TreeRouteHop :=
  TreeRouteHop_new (hop_from raw) (hop_to raw) (hop_edge raw) (hop_direction raw) (hop_route_id raw).

Record TreeRoutePath := mkTreeRoutePath {
  path_source_realm : RealmPath;
  path_target_realm : RealmPath;
  path_nearest_common_ancestor : RealmPath;
  path_hops : list TreeRouteHop
}.

#[global] Instance TreeRoutePath_eq_dec : EqDecision TreeRoutePath.
Proof. solve_decision. Defined.

(** [hops.windows(2)]: some two neighbours do not meet. *)
Fixpoint disconnected (hops : list TreeRouteHop) : bool :=
  match hops with
  | a :: ((b :: _) as rest) => bool_decide (hop_to a <> hop_from b) || disconnected rest
  | _ => false
  end.

Definition under_or_at (realm ancestor : RealmPath) : bool :=
  is_descendant_of realm ancestor || bool_decide (realm = ancestor).

Definition TreeRoutePath_new (source target ancestor : RealmPath) (hops : list TreeRouteHop) :
    option TreeRoutePath :=
  if bool_decide (MAX_ROUTE_PATH_HOPS < length hops) then None
  else if from_option (fun first => bool_decide (hop_from first <> source)) false (head hops) then None
  else if from_option (fun last => bool_decide (hop_to last <> target)) false (last hops) then None
  else if disconnected hops then None
  else if negb (under_or_at source ancestor) then None
  else if negb (under_or_at target ancestor) then None
  else Some (mkTreeRoutePath source target ancestor hops).

Definition TreeRoutePath_deserialize (raw : TreeRoutePath) : option TreeRoutePath :=
  hops ← deserialize_bounded_vec MAX_ROUTE_PATH_HOPS (path_hops raw);
  TreeRoutePath_new (path_source_realm raw) (path_target_realm raw)
    (path_nearest_common_ancestor raw) hops.

Inductive TreeRouteDecisionOutcome :=
| Route_Allowed (path : TreeRoutePath)
| Route_Denied (reason : RouteFailClosedReason).

Record TreeRouteDecision := mkTreeRouteDecision {
  trd_decision_id : string;
  trd_correlation_id : string;
  trd_trace : option TraceContext;
  trd_source_realm : RealmPath;
  trd_target_realm : RealmPath;
  trd_operation_kind : OperationKind;
  trd_required_capability : option Capability;
  trd_policy_rule_id : option string;
  trd_outcome : TreeRouteDecisionOutcome
}.

(** ** Direct shortcuts *)

Inductive DirectShortcutState :=
| Shortcut_Authorized | Shortcut_Established | Shortcut_TeardownRequested | Shortcut_TornDown
| Shortcut_Denied.

Record DirectShortcutAuthorizationMetadata := mkDirectShortcutAuthorizationMetadata {
  ds_shortcut_id : string;
  ds_correlation_id : string;
  ds_trace : option TraceContext;
  ds_authorizing_ancestor : RealmPath;
  ds_source_realm : RealmPath;
  ds_target_realm : RealmPath;
  ds_operation_kind : OperationKind;
  ds_required_capability : option Capability;
  ds_authorized_tree_path : TreeRoutePath;
  ds_policy_rule_id : option string;
  ds_state : DirectShortcutState;
  ds_issued_at : N;
  ds_expires_at : N
}.

Definition DirectShortcutAuthorizationMetadata_new (raw : DirectShortcutAuthorizationMetadata) :
    option DirectShortcutAuthorizationMetadata :=
  let path := ds_authorized_tree_path raw in
  if bool_decide (ds_expires_at raw <= ds_issued_at raw)%N
     || bool_decide (path_source_realm path <> ds_source_realm raw)
     || bool_decide (path_target_realm path <> ds_target_realm raw)
     || bool_decide (path_nearest_common_ancestor path <> ds_authorizing_ancestor raw)
  then None else Some raw.

Definition DirectShortcutAuthorizationMetadata_deserialize (raw : DirectShortcutAuthorizationMetadata) :
    option DirectShortcutAuthorizationMetadata :=
  path ← TreeRoutePath_deserialize (ds_authorized_tree_path raw);
  DirectShortcutAuthorizationMetadata_new
    (mkDirectShortcutAuthorizationMetadata (ds_shortcut_id raw) (ds_correlation_id raw) (ds_trace raw)
       (ds_authorizing_ancestor raw) (ds_source_realm raw) (ds_target_realm raw)
       (ds_operation_kind raw) (ds_required_capability raw) path (ds_policy_rule_id raw)
       (ds_state raw) (ds_issued_at raw) (ds_expires_at raw)).

Inductive DirectShortcutTeardownReason :=
| Teardown_Completed | Teardown_Expired | Teardown_PolicyRevoked | Teardown_RouteRevoked
| Teardown_TransportUnavailable | Teardown_PeerDisconnected.

Record DirectShortcutTeardownMetadata := mkDirectShortcutTeardownMetadata {
  dt_shortcut_id : string;
  dt_correlation_id : string;
  dt_trace : option TraceContext;
  dt_source_realm : RealmPath;
  dt_target_realm : RealmPath;
  dt_reason : DirectShortcutTeardownReason;
  dt_torn_down_at : N
}.

(** ** Audit and telemetry *)

Inductive RouteAuditEventKind :=
| RouteAudit_DiscoveryQueued | RouteAudit_DiscoveryDropped | RouteAudit_SessionAdmitted
| RouteAudit_SessionDenied | RouteAudit_AdvertisementAccepted | RouteAudit_AdvertisementDenied
| RouteAudit_RouteAllowed | RouteAudit_RouteDenied | RouteAudit_ShortcutAuthorized
| RouteAudit_ShortcutDenied | RouteAudit_ShortcutTornDown.

Inductive RouteRealmClass :=
| RouteRealmClass_LocalRoot | RouteRealmClass_StaticConfigured | RouteRealmClass_HostLocalPeer
| RouteRealmClass_GatewayBacked | RouteRealmClass_CloudFullHost | RouteRealmClass_ProviderManaged
| RouteRealmClass_EphemeralDiscovered | RouteRealmClass_Unknown.

Definition RouteRealmClass_label (self : RouteRealmClass) : string :=
  match self with
  | RouteRealmClass_LocalRoot => "local-root"
  | RouteRealmClass_StaticConfigured => "static-configured"
  | RouteRealmClass_HostLocalPeer => "host-local-peer"
  | RouteRealmClass_GatewayBacked => "gateway-backed"
  | RouteRealmClass_CloudFullHost => "cloud-full-host"
  | RouteRealmClass_ProviderManaged => "provider-managed"
  | RouteRealmClass_EphemeralDiscovered => "ephemeral-discovered"
  | RouteRealmClass_Unknown => "unknown"
  end.

(** [realm.rs]: where a realm controller is placed. *)
Inductive RealmControllerPlacement :=
| Placement_HostLocal
| Placement_GatewayVm
| Placement_CloudFullHost
| Placement_ProviderController (provider : string)
| Placement_ProviderAgent (provider : string)
| Placement_ProviderSpecific (provider placement : string).

Inductive RoutePlacementClass :=
| RoutePlacementClass_HostLocal | RoutePlacementClass_GatewayVm | RoutePlacementClass_CloudFullHost
| RoutePlacementClass_ProviderController | RoutePlacementClass_ProviderAgent
| RoutePlacementClass_ProviderSpecific | RoutePlacementClass_Unknown.

Definition RoutePlacementClass_from (value : RealmControllerPlacement) : RoutePlacementClass :=
  match value with
  | Placement_HostLocal => RoutePlacementClass_HostLocal
  | Placement_GatewayVm => RoutePlacementClass_GatewayVm
  | Placement_CloudFullHost => RoutePlacementClass_CloudFullHost
  | Placement_ProviderController _ => RoutePlacementClass_ProviderController
  | Placement_ProviderAgent _ => RoutePlacementClass_ProviderAgent
  | Placement_ProviderSpecific _ _ => RoutePlacementClass_ProviderSpecific
  end.

Definition RoutePlacementClass_label (self : RoutePlacementClass) : string :=
  match self with
  | RoutePlacementClass_HostLocal => "host-local"
  | RoutePlacementClass_GatewayVm => "gateway-vm"
  | RoutePlacementClass_CloudFullHost => "cloud-full-host"
  | RoutePlacementClass_ProviderController => "provider-controller"
  | RoutePlacementClass_ProviderAgent => "provider-agent"
  | RoutePlacementClass_ProviderSpecific => "provider-specific"
  | RoutePlacementClass_Unknown => "unknown"
  end.

Record RouteAuditLabels := mkRouteAuditLabels {
  ral_event : RouteAuditEventKind;
  ral_source_realm_class : RouteRealmClass;
  ral_target_realm_class : RouteRealmClass;
  ral_placement : RoutePlacementClass;
  ral_operation_kind : OperationKind;
  ral_reason : option RouteFailClosedReason;
  ral_policy_rule_id : option string
}.

Inductive RouteTelemetryCounterKind :=
| Counter_ApiLatencyCount | Counter_ApiErrorCount | Counter_DiscoveryQueueDepth
| Counter_DiscoveryDropNewCount | Counter_PreAuthRateLimitHitCount
| Counter_RouteAdvertisementAcceptedCount | Counter_RouteAdvertisementDeniedCount
| Counter_RouteDecisionAllowedCount | Counter_RouteDecisionDeniedCount
| Counter_ShortcutAuthorizedCount | Counter_ShortcutDeniedCount
| Counter_RevocationTeardownCount | Counter_SessionTeardownCount.

Definition RouteTelemetryCounterKind_label (self : RouteTelemetryCounterKind) : string :=
  match self with
  | Counter_ApiLatencyCount => "api-latency-count"
  | Counter_ApiErrorCount => "api-error-count"
  | Counter_DiscoveryQueueDepth => "discovery-queue-depth"
  | Counter_DiscoveryDropNewCount => "discovery-drop-new-count"
  | Counter_PreAuthRateLimitHitCount => "pre-auth-rate-limit-hit-count"
  | Counter_RouteAdvertisementAcceptedCount => "route-advertisement-accepted-count"
  | Counter_RouteAdvertisementDeniedCount => "route-advertisement-denied-count"
  | Counter_RouteDecisionAllowedCount => "route-decision-allowed-count"
  | Counter_RouteDecisionDeniedCount => "route-decision-denied-count"
  | Counter_ShortcutAuthorizedCount => "shortcut-authorized-count"
  | Counter_ShortcutDeniedCount => "shortcut-denied-count"
  | Counter_RevocationTeardownCount => "revocation-teardown-count"
  | Counter_SessionTeardownCount => "session-teardown-count"
  end.

Record RouteTelemetryLabels := mkRouteTelemetryLabels {
  rtl_source_realm_class : RouteRealmClass;
  rtl_target_realm_class : RouteRealmClass;
  rtl_placement : RoutePlacementClass;
  rtl_operation_kind : option OperationKind;
  rtl_reason : option RouteFailClosedReason
}.

Record RouteTelemetrySample := mkRouteTelemetrySample {
  sample_counter : RouteTelemetryCounterKind;
  sample_labels : RouteTelemetryLabels;
  sample_value : N
}.

Definition RouteTelemetryBatch_deserialize (samples : list RouteTelemetrySample) :
    option (list RouteTelemetrySample) :=
  deserialize_bounded_vec MAX_ROUTE_TELEMETRY_SAMPLES samples.

(** ** Lemmas *)

Lemma RealmTreeEdge_new_some parent child e :
  RealmTreeEdge_new parent child = Some e <->
  e = mkRealmTreeEdge parent child /\ exists label, child = label :: parent.
Proof.
  unfold RealmTreeEdge_new. rewrite <- is_direct_child_of_spec.
  destruct (is_direct_child_of child parent); naive_solver.
Qed.

(** Every edge of a decoded record joins a realm to a direct child. *)
Definition edge_ok (e : RealmTreeEdge) : Prop := exists label, edge_child e = label :: edge_parent e.

Lemma under_or_at_spec realm ancestor :
  under_or_at realm ancestor = true <-> ancestor `suffix_of` realm.
Proof.
  unfold under_or_at. rewrite orb_true_iff, is_descendant_of_spec, bool_decide_eq_true. split.
  - intros [(pre & _ & ->)| ->]; [by exists pre|done].
  - intros [[|x pre] ->]; [by right|]. left. by exists (x :: pre).
Qed.

Lemma next_hop_child_spec pre label advertiser :
  next_hop_child (pre ++ label :: advertiser) advertiser = Some label.
Proof.
  unfold next_hop_child. rewrite length_app. simpl. rewrite bool_decide_false by lia.
  replace (length pre + S (length advertiser) - (length advertiser + 1)) with (length pre + 0) by lia.
  by rewrite lookup_app_r, Nat.add_0_r, Nat.sub_diag by lia.
Qed.
