(* ===== verification/RouteEngine.v ===== *)
(** * The tree-route engine

    [packages/d2b-realm-core/src/route_engine.rs]: admission of route
    advertisements into an in-memory tree view with a replay set, route
    decisions along the tree, direct shortcuts and the discovery queue.
    [Module RouteTreeEngine] models the engine; times are Unix seconds. *)

From S2P Require Import Prelude Ids Streams Frame Routing.

Module RouteTreeEngine.

Definition MAX_PARENT_ENTRIES : N := 4096.
Definition MAX_ROUTE_ENTRIES : N := 4096.
Definition MAX_REPLAY_KEYS : N := (MAX_PARENT_ENTRIES + MAX_ROUTE_ENTRIES) * 4.

Record RouteEngineEvent := mkRouteEngineEvent {
  audit : RouteAuditLabels;
  telemetry : RouteTelemetrySample
}.

Inductive RouteAdvertisementAdmissionOutcome :=
| Accepted (accepted_routes : list string)
| Denied (reason : RouteFailClosedReason).

Record RouteAdvertisementAdmission := mkRouteAdvertisementAdmission {
  admission_outcome : RouteAdvertisementAdmissionOutcome;
  admission_event : RouteEngineEvent
}.

Record DiscoveryQueueDecision := mkDiscoveryQueueDecision {
  dq_outcome : PreAuthAdmissionOutcome;
  queue_depth_after : N;
  dq_event : RouteEngineEvent
}.

Record RouteInventoryEntry := mkRouteInventoryEntry {
  inv_descendant : RealmPath;
  inv_advertising_realm : RealmPath;
  inv_next_hop_child : string;
  inv_route_id : string;
  inv_capabilities : CapabilitySet
}.

Record RoutePruneReport := mkRoutePruneReport {
  parent_entries : nat;
  route_entries : nat;
  replay_keys : nat
}.

Record DirectShortcutAuthorizationRequest := mkDirectShortcutAuthorizationRequest {
  sr_shortcut_id : string;
  sr_decision_id : string;
  sr_correlation_id : string;
  sr_trace : option TraceContext;
  sr_source_realm : RealmPath;
  sr_target_realm : RealmPath;
  sr_operation_kind : OperationKind;
  sr_policy_rule_id : option string;
  sr_issued_at : N;
  sr_expires_at : N;
  sr_allow_direct_shortcut : bool
}.

Inductive DirectShortcutAuthorizationDecision :=
| ShortcutAuthorized (metadata : DirectShortcutAuthorizationMetadata)
    (route_decision : TreeRouteDecision) (event : RouteEngineEvent)
| ShortcutDenied (reason : RouteFailClosedReason) (route_decision : TreeRouteDecision)
    (event : RouteEngineEvent).

Record DirectShortcutTeardownDecision := mkDirectShortcutTeardownDecision {
  teardown_metadata : DirectShortcutTeardownMetadata;
  teardown_event : RouteEngineEvent
}.

Record ParentEntry := mkParentEntry {
  pe_parent : RealmPath;
  pe_route_id : option string;
  pe_capabilities : CapabilitySet;
  pe_issued_at : N;
  pe_expires_at : N
}.

Record RouteEntry := mkRouteEntry {
  re_advertising_realm : RealmPath;
  re_next_hop_child : string;
  re_route_id : string;
  re_capabilities : CapabilitySet;
  re_issued_at : N;
  re_expires_at : N
}.

Record ReplayKey := mkReplayKey {
  rk_advertising_realm : RealmPath;
  rk_controller_generation : string;
  rk_issued_at : N;
  rk_signature_ref : string
}.

#[global] Instance ReplayKey_eq_dec : EqDecision ReplayKey.
Proof. solve_decision. Defined.

#[global] Program Instance ReplayKey_countable : Countable ReplayKey :=
  inj_countable'
    (fun k => (rk_advertising_realm k, rk_controller_generation k, rk_issued_at k, rk_signature_ref k))
    (fun '(r, g, i, s) => mkReplayKey r g i s) _.
Next Obligation. by intros []. Qed.

Record RouteCapacityLimits := mkRouteCapacityLimits {
  max_parent_entries : N;
  max_route_entries : N;
  max_replay_keys : N
}.

Record RouteTreeEngine := mkRouteTreeEngine {
  local_root : RealmPath;
  placement : RoutePlacementClass;
  parents : gmap RealmPath ParentEntry;
  routes : gmap RealmPath RouteEntry;
  replayed_adverts : gmap ReplayKey N;
  capacity_limits : RouteCapacityLimits
}.

Definition with_capacity_limits (local_root : RealmPath) (placement : RealmControllerPlacement)
    (max_parent_entries max_route_entries max_replay_keys : N) : RouteTreeEngine :=
  mkRouteTreeEngine local_root (RoutePlacementClass_from placement) ∅ ∅ ∅
    (mkRouteCapacityLimits max_parent_entries max_route_entries max_replay_keys).

Definition new (local_root : RealmPath) (placement : RealmControllerPlacement) : RouteTreeEngine :=
  with_capacity_limits local_root placement MAX_PARENT_ENTRIES MAX_ROUTE_ENTRIES MAX_REPLAY_KEYS.

(** ** Helpers *)

Definition route_event (event : RouteAuditEventKind) (counter : RouteTelemetryCounterKind)
    (operation_kind : OperationKind) (reason : option RouteFailClosedReason)
    (policy_rule_id : option string) (placement : RoutePlacementClass)
    (source_class target_class : RouteRealmClass) (value : N) : RouteEngineEvent :=
  mkRouteEngineEvent
    (mkRouteAuditLabels event source_class target_class placement operation_kind reason policy_rule_id)
    (mkRouteTelemetrySample counter
       (mkRouteTelemetryLabels source_class target_class placement (Some operation_kind) reason) value).

Definition is_expired (expires_at now : N) : bool := bool_decide (expires_at <= now)%N.

Definition bound_capabilities (capabilities : CapabilitySet) (ceiling : option CapabilitySet) :
    CapabilitySet :=
  from_option (CapabilitySet_intersection capabilities) capabilities ceiling.

Definition prefix_allowed (descendant : RealmPath) (prefixes : list RealmPath) : bool :=
  existsb (fun prefix => bool_decide (descendant = prefix) || is_descendant_of descendant prefix)
    prefixes.

Definition child_with_label (parent : RealmPath) (label : string) : option RealmPath :=
  RealmPath_new (label :: parent).

Definition direct_child_below (descendant ancestor : RealmPath) : option RealmPath :=
  if bool_decide (length descendant < length ancestor + 1) then None
  else label ← descendant !! (length descendant - (length ancestor + 1));
       child_with_label ancestor label.

(** The labels both paths end with, from the root down. *)
Fixpoint common_prefix (l k : list string) : list string :=
  match l, k with
  | a :: l, b :: k => if String.eqb a b then a :: common_prefix l k else []
  | _, _ => []
  end.

Definition nearest_common_ancestor (left right : RealmPath) : option RealmPath :=
  match common_prefix (reverse left) (reverse right) with
  | [] => None
  | common => RealmPath_new (reverse common)
  end.

Definition parent_entry_at (self : RouteTreeEngine) (realm : RealmPath) (now : N) : option ParentEntry :=
  entry ← parents self !! realm;
  if is_expired (pe_expires_at entry) now then None else Some entry.

Definition route_entry_at (self : RouteTreeEngine) (realm : RealmPath) (now : N) : option RouteEntry :=
  entry ← routes self !! realm;
  if is_expired (re_expires_at entry) now then None else Some entry.

Definition is_known_realm_at (self : RouteTreeEngine) (realm : RealmPath) (now : N) : bool :=
  bool_decide (realm = local_root self) || bool_decide (is_Some (parent_entry_at self realm now))
  || bool_decide (is_Some (route_entry_at self realm now)).

Definition target_has_capability_at (self : RouteTreeEngine) (target : RealmPath)
    (capability : Capability) (now : N) : bool :=
  if bool_decide (target = local_root self) then true
  else match route_entry_at self target now with
       | Some route => CapabilitySet_has (re_capabilities route) capability
       | None =>
           match parent_entry_at self target now with
           | Some entry => CapabilitySet_has (pe_capabilities entry) capability
           | None => false
           end
       end.

Definition class_for_at (self : RouteTreeEngine) (realm : RealmPath) (now : N) : RouteRealmClass :=
  if bool_decide (realm = local_root self) then RouteRealmClass_LocalRoot
  else if is_known_realm_at self realm now then RouteRealmClass_EphemeralDiscovered
  else RouteRealmClass_Unknown.

(** ** Staging of an advertisement *)

Abbreviation ParentMap := (gmap RealmPath ParentEntry).
Abbreviation RouteMap := (gmap RealmPath RouteEntry).

Definition parent_entry_with_updates_at (parents updates : ParentMap) (realm : RealmPath) (now : N) :
    option ParentEntry :=
  match updates !! realm with
  | Some entry => Some entry
  | None => entry ← parents !! realm;
            if is_expired (pe_expires_at entry) now then None else Some entry
  end.

(** The [while let] of [would_form_loop_with_updates]; each round puts a new
    key of one of the maps into [seen], which bounds the rounds. *)
Fixpoint loop_walk (fuel : nat) (parents updates : ParentMap) (child : RealmPath) (now : N)
    (current : RealmPath) (seen : gset RealmPath) : bool :=
  match fuel with
  | O => true
  | S fuel =>
      match parent_entry_with_updates_at parents updates current now with
      | Some entry =>
          if bool_decide (current = child) || bool_decide (current ∈ seen) then true
          else loop_walk fuel parents updates child now (pe_parent entry) ({[current]} ∪ seen)
      | None => bool_decide (current = child)
      end
  end.

Definition would_form_loop_with_updates (parents updates : ParentMap) (parent child : RealmPath)
    (now : N) : bool :=
  loop_walk (2 + size parents + size updates) parents updates child now parent ∅.

Definition set_staged (existing : ParentEntry) (route_id : option string)
    (capabilities : option CapabilitySet) (ceiling : option CapabilitySet) (expires_at : N) :
    ParentEntry :=
  mkParentEntry (pe_parent existing)
    (match route_id with Some candidate => Some candidate | None => pe_route_id existing end)
    (match capabilities with
     | Some capabilities => bound_capabilities capabilities ceiling
     | None => bound_capabilities (pe_capabilities existing) ceiling
     end)
    (pe_issued_at existing) expires_at.

Definition stage_parent_edge (parents : ParentMap) (now issued_at : N) (parent child : RealmPath)
    (route_id : option string) (capabilities : option CapabilitySet)
    (ceiling : option CapabilitySet) (expires_at : N) (updates : ParentMap) :
    result ParentMap RouteFailClosedReason :=
  if bool_decide (child = parent) || would_form_loop_with_updates parents updates parent child now
  then Err RouteFailClosedReason_Loop
  else match updates !! child with
  | Some existing =>
      if bool_decide (pe_parent existing <> parent) then Err RouteFailClosedReason_MultiParent
      else Ok (<[child := set_staged existing route_id capabilities ceiling expires_at]> updates)
  | None =>
      let insert route_id capabilities :=
        Ok (<[child := mkParentEntry parent route_id
                         (from_option (fun caps => bound_capabilities caps ceiling)
                            CapabilitySet_empty capabilities)
                         issued_at expires_at]> updates) in
      match parents !! child with
      | Some existing =>
          if is_expired (pe_expires_at existing) now then insert route_id capabilities
          else if bool_decide (issued_at <= pe_issued_at existing)%N then Err RouteFailClosedReason_Replay
          else if bool_decide (pe_parent existing <> parent) then Err RouteFailClosedReason_MultiParent
          else insert (match route_id with Some id => Some id | None => pe_route_id existing end)
                      (match capabilities with Some caps => Some caps
                       | None => Some (pe_capabilities existing) end)
      | None => insert route_id capabilities
      end
  end.

Definition same_route (existing : RouteEntry) (advertising_realm : RealmPath) (next_hop : string) : bool :=
  bool_decide (re_advertising_realm existing = advertising_realm)
  && bool_decide (re_next_hop_child existing = next_hop).

Definition stage_route_entry (routes : RouteMap) (now issued_at : N) (advertising_realm : RealmPath)
    (route : DescendantRoute) (expires_at : N) (updates : RouteMap) :
    result RouteMap RouteFailClosedReason :=
  let descendant := dr_descendant route in
  let inserted := <[descendant := mkRouteEntry advertising_realm (dr_next_hop_child route)
                      (dr_route_id route) (dr_capabilities route) issued_at expires_at]> updates in
  match updates !! descendant with
  | Some existing =>
      if same_route existing advertising_realm (dr_next_hop_child route) then Ok updates
      else Err RouteFailClosedReason_MultiParent
  | None =>
      match routes !! descendant with
      | Some existing =>
          if is_expired (re_expires_at existing) now then Ok inserted
          else if bool_decide (issued_at <= re_issued_at existing)%N then Err RouteFailClosedReason_Replay
          else if same_route existing advertising_realm (dr_next_hop_child route) then Ok inserted
          else Err RouteFailClosedReason_MultiParent
      | None => Ok inserted
      end
  end.

(** What the loop over the advertised routes carries. *)
Record staging := mkStaging {
  parent_updates : ParentMap;
  route_updates : RouteMap;
  seen_descendants : gset RealmPath;
  accepted_ids : list string
}.

Definition stage_route (self : RouteTreeEngine) (advertisement : RouteAdvertisement)
    (allocation : RouteNamespaceAllocation) (now : N) (route : DescendantRoute) (st : staging) :
    result staging RouteFailClosedReason :=
  let realm := ad_advertising_realm advertisement in
  if bool_decide (dr_descendant route ∈ seen_descendants st)
  then Err RouteFailClosedReason_MalformedAdvert
  else if negb (is_descendant_of (dr_descendant route) realm)
          || bool_decide ((child ← direct_child_below (dr_descendant route) realm; head child)
                          <> Some (dr_next_hop_child route))
  then Err RouteFailClosedReason_SiblingOrParentRouteAdvert
  else if negb (prefix_allowed (dr_descendant route) (na_allowed_prefixes allocation))
          || negb (CapabilitySet_is_subset_of (dr_capabilities route) (na_capability_ceiling allocation))
  then Err RouteFailClosedReason_NamespaceViolation
  else match direct_child_below (dr_descendant route) realm with
  | None => Err RouteFailClosedReason_MalformedAdvert
  | Some next_child =>
      let direct := bool_decide (next_child = dr_descendant route) in
      match stage_parent_edge (parents self) now (ad_issued_at advertisement) realm next_child
              (if direct then Some (dr_route_id route) else None)
              (if direct then Some (dr_capabilities route) else None)
              None (ad_expires_at advertisement) (parent_updates st) with
      | Err reason => Err reason
      | Ok parent_updates =>
          match stage_route_entry (routes self) now (ad_issued_at advertisement) realm route
                  (ad_expires_at advertisement) (route_updates st) with
          | Err reason => Err reason
          | Ok route_updates =>
              Ok (mkStaging parent_updates route_updates
                    ({[dr_descendant route]} ∪ seen_descendants st)
                    (accepted_ids st ++ [dr_route_id route]))
          end
      end
  end.

Fixpoint stage_routes (self : RouteTreeEngine) (advertisement : RouteAdvertisement)
    (allocation : RouteNamespaceAllocation) (now : N) (advertised : list DescendantRoute)
    (st : staging) : result staging RouteFailClosedReason :=
  match advertised with
  | [] => Ok st
  | route :: advertised =>
      match stage_route self advertisement allocation now route st with
      | Err reason => Err reason
      | Ok st => stage_routes self advertisement allocation now advertised st
      end
  end.

(** ** Replay keys and capacity *)

Definition replay_key_of (advertisement : RouteAdvertisement) : ReplayKey :=
  mkReplayKey (ad_advertising_realm advertisement) (ad_controller_generation advertisement)
    (ad_issued_at advertisement) (signature_ref (ad_signature advertisement)).

Definition replay_key_matches (key : ReplayKey) (envelope : RouteAdvertisementEnvelope) : bool :=
  let advertisement := env_advertisement envelope in
  bool_decide (rk_advertising_realm key = ad_advertising_realm advertisement)
  && bool_decide (rk_controller_generation key = ad_controller_generation advertisement)
  && bool_decide (rk_issued_at key = ad_issued_at advertisement)
  && bool_decide (rk_signature_ref key = signature_ref (ad_signature advertisement)).

Definition is_superseded_replay_key (key : ReplayKey) (expires_at : N)
    (advertisement : RouteAdvertisement) : bool :=
  bool_decide (rk_advertising_realm key = ad_advertising_realm advertisement)
  && bool_decide (rk_controller_generation key = ad_controller_generation advertisement)
  && bool_decide (rk_issued_at key < ad_issued_at advertisement)%N
  && bool_decide (expires_at <= ad_expires_at advertisement)%N.

(** [replayed_adverts.iter().any(..)] *)
Definition replay_any (f : ReplayKey -> N -> bool) (replayed : gmap ReplayKey N) : bool :=
  existsb (fun '(key, expires_at) => f key expires_at) (map_to_list replayed).

Definition prune_superseded_replay_keys (advertisement : RouteAdvertisement)
    (replayed : gmap ReplayKey N) : gmap ReplayKey N :=
  filter (fun kv => is_superseded_replay_key kv.1 kv.2 advertisement = false) replayed.

Definition projected_physical_len {A B : Type} (entries : gmap RealmPath A) (updates : gmap RealmPath B) : nat :=
  size entries + size (filter (fun kv => bool_decide (is_Some (entries !! kv.1)) = false) updates).

Definition live_count {A : Type} (expires : A -> N) (now : N) (entries : gmap RealmPath A) : nat :=
  size (filter (fun kv => is_expired (expires kv.2) now = false) entries).

Definition live_updates {A : Type} (expires : A -> N) (now : N) (entries updates : gmap RealmPath A) : nat :=
  size (filter (fun kv => from_option (fun entry => negb (is_expired (expires entry) now)) false
                            (entries !! kv.1) = true) updates).

Definition projected_parent_len_after_prune (entries updates : ParentMap) (now : N) : nat :=
  live_count pe_expires_at now entries + size updates - live_updates pe_expires_at now entries updates.

Definition projected_route_len_after_prune (entries updates : RouteMap) (now : N) : nat :=
  live_count re_expires_at now entries + size updates - live_updates re_expires_at now entries updates.

Definition projected_replay_len_after_prune (replayed : gmap ReplayKey N)
    (envelope : RouteAdvertisementEnvelope) (now : N) : nat :=
  let advertisement := env_advertisement envelope in
  let retained key expires_at :=
    negb (is_expired expires_at now) && negb (is_superseded_replay_key key expires_at advertisement) in
  size (filter (fun kv => retained kv.1 kv.2 = true) replayed)
  + (if replay_any (fun key expires_at => replay_key_matches key envelope && retained key expires_at)
          replayed then 0 else 1).

Definition prune_expired (now : N) (self : RouteTreeEngine) : RoutePruneReport * RouteTreeEngine :=
  let parents' := filter (fun kv => is_expired (pe_expires_at kv.2) now = false) (parents self) in
  let routes' := filter (fun kv => is_expired (re_expires_at kv.2) now = false) (routes self) in
  let replayed' := filter (fun kv => is_expired kv.2 now = false) (replayed_adverts self) in
  (mkRoutePruneReport (size (parents self) - size parents') (size (routes self) - size routes')
     (size (replayed_adverts self) - size replayed'),
   mkRouteTreeEngine (local_root self) (placement self) parents' routes' replayed'
     (capacity_limits self)).

Definition exceeds (len : nat) (max : N) : bool := bool_decide (max < N.of_nat len)%N.

(** Some map would outgrow its limit without pruning. *)
Definition capacity_pressure (self : RouteTreeEngine) (envelope : RouteAdvertisementEnvelope)
    (st : staging) : bool :=
  let limits := capacity_limits self in
  exceeds (projected_physical_len (parents self) (parent_updates st)) (max_parent_entries limits)
  || exceeds (projected_physical_len (routes self) (route_updates st)) (max_route_entries limits)
  || exceeds (size (replayed_adverts self)
              + if replay_any (fun key _ => replay_key_matches key envelope) (replayed_adverts self)
                then 0 else 1) (max_replay_keys limits).

(** Some map would outgrow its limit even after pruning. *)
Definition over_capacity (self : RouteTreeEngine) (envelope : RouteAdvertisementEnvelope)
    (st : staging) (now : N) : bool :=
  let limits := capacity_limits self in
  exceeds (projected_parent_len_after_prune (parents self) (parent_updates st) now)
    (max_parent_entries limits)
  || exceeds (projected_route_len_after_prune (routes self) (route_updates st) now)
       (max_route_entries limits)
  || exceeds (projected_replay_len_after_prune (replayed_adverts self) envelope now)
       (max_replay_keys limits).

(** ** Admission *)

(** The state change of an accepted advertisement. *)
Definition commit (envelope : RouteAdvertisementEnvelope) (st : staging) (self : RouteTreeEngine) :
    RouteTreeEngine :=
  let advertisement := env_advertisement envelope in
  let self :=
    if capacity_pressure self envelope st then
      let self := (prune_expired (env_received_at envelope) self).2 in
      mkRouteTreeEngine (local_root self) (placement self) (parents self) (routes self)
        (prune_superseded_replay_keys advertisement (replayed_adverts self)) (capacity_limits self)
    else self in
  mkRouteTreeEngine (local_root self) (placement self) (parent_updates st ∪ parents self)
    (route_updates st ∪ routes self)
    (<[replay_key_of advertisement := ad_expires_at advertisement]> (replayed_adverts self))
    (capacity_limits self).

(** The checks of [admit_advertisement] up to the first state change. *)
Definition screen (envelope : RouteAdvertisementEnvelope) (allocation : RouteNamespaceAllocation)
    (self : RouteTreeEngine) : result staging RouteFailClosedReason :=
  let now := env_received_at envelope in
  let advertisement := env_advertisement envelope in
  let edge := ad_tree_edge advertisement in
  if bool_decide (edge_child edge <> ad_advertising_realm advertisement)
     || bool_decide (ad_routes advertisement = [])
     || bool_decide (ad_expires_at advertisement <= ad_issued_at advertisement)%N
     || bool_decide (now < ad_issued_at advertisement)%N
  then Err RouteFailClosedReason_MalformedAdvert
  else if bool_decide (ad_expires_at advertisement <= now)%N then Err RouteFailClosedReason_Expired
  else if bool_decide (edge_parent edge <> local_root self)
          && bool_decide (parent_entry_at self (edge_parent edge) now = None)
  then Err RouteFailClosedReason_UnknownParent
  else if replay_any (fun key expires_at => replay_key_matches key envelope
                                            && negb (is_expired expires_at now)) (replayed_adverts self)
  then Err RouteFailClosedReason_Replay
  else if bool_decide (na_tree_edge allocation <> edge)
          || bool_decide (na_allocated_to_generation allocation <> ad_controller_generation advertisement)
          || bool_decide (na_max_routes allocation < N.of_nat (length (ad_routes advertisement)))%N
  then Err RouteFailClosedReason_NamespaceViolation
  else match stage_parent_edge (parents self) now (ad_issued_at advertisement) (edge_parent edge)
               (edge_child edge) None (Some (na_capability_ceiling allocation))
               (Some (na_capability_ceiling allocation)) (ad_expires_at advertisement) ∅ with
  | Err reason => Err reason
  | Ok updates =>
      match stage_routes self advertisement allocation now (ad_routes advertisement)
              (mkStaging updates ∅ ∅ []) with
      | Err reason => Err reason
      | Ok st =>
          if capacity_pressure self envelope st && over_capacity self envelope st now
          then Err RouteFailClosedReason_QueueFullDropNew
          else Ok st
      end
  end.

Definition advertisement_event (self : RouteTreeEngine) (reason : option RouteFailClosedReason) :
    RouteEngineEvent :=
  route_event
    (match reason with Some _ => RouteAudit_AdvertisementDenied | None => RouteAudit_AdvertisementAccepted end)
    (match reason with Some _ => Counter_RouteAdvertisementDeniedCount
     | None => Counter_RouteAdvertisementAcceptedCount end)
    OperationKind_NodeCapabilities reason None (placement self)
    RouteRealmClass_EphemeralDiscovered RouteRealmClass_EphemeralDiscovered 1.

Definition admit_advertisement (envelope : RouteAdvertisementEnvelope)
    (allocation : RouteNamespaceAllocation) (self : RouteTreeEngine) :
    RouteAdvertisementAdmission * RouteTreeEngine :=
  match screen envelope allocation self with
  | Err reason =>
      (mkRouteAdvertisementAdmission (Denied reason) (advertisement_event self (Some reason)), self)
  | Ok st =>
      (mkRouteAdvertisementAdmission (Accepted (rust_sort (accepted_ids st)))
         (advertisement_event self None), commit envelope st self)
  end.

(** ** Route decisions *)

(** The hop of [build_path_at] from a realm up to its parent, or down. *)
Definition make_hop (from to parent child : RealmPath) (direction : TreeRouteHopDirection)
    (route_id : option string) : option TreeRouteHop :=
  edge ← RealmTreeEdge_new parent child;
  TreeRouteHop_new from to edge direction route_id.

(** The [while current != ancestor] loop; each round puts a new key of
    [parents] into [seen], which bounds the rounds. *)
Fixpoint walk_up (fuel : nat) (self : RouteTreeEngine) (now : N) (ancestor current : RealmPath)
    (seen : gset RealmPath) (hops : list TreeRouteHop) : result (list TreeRouteHop) RouteFailClosedReason :=
  match fuel with
  | O => Err RouteFailClosedReason_Loop
  | S fuel =>
      if bool_decide (current = ancestor) then Ok hops
      else if bool_decide (current ∈ seen) then Err RouteFailClosedReason_Loop
      else match parent_entry_at self current now with
      | None => Err RouteFailClosedReason_UnknownParent
      | Some entry =>
          if bool_decide (pe_parent entry ∈ ({[current]} ∪ seen : gset RealmPath))
          then Err RouteFailClosedReason_Loop
          else match make_hop current (pe_parent entry) (pe_parent entry) current UpToParent
                       (pe_route_id entry) with
               | None => Err RouteFailClosedReason_MalformedAdvert
               | Some hop =>
                   walk_up fuel self now ancestor (pe_parent entry) ({[current]} ∪ seen) (hops ++ [hop])
               end
      end
  end.

(** The [for label in branch_labels.iter().rev()] loop. *)
Fixpoint walk_down (self : RouteTreeEngine) (now : N) (labels : list string) (current : RealmPath)
    (down : list TreeRouteHop) : result (list TreeRouteHop) RouteFailClosedReason :=
  match labels with
  | [] => Ok down
  | label :: labels =>
      match child_with_label current label with
      | None => Err RouteFailClosedReason_MalformedAdvert
      | Some child =>
          match parent_entry_at self child now with
          | None => Err RouteFailClosedReason_UnknownParent
          | Some entry =>
              if bool_decide (pe_parent entry <> current) then Err RouteFailClosedReason_MultiParent
              else match make_hop current child current child DownToChild (pe_route_id entry) with
                   | None => Err RouteFailClosedReason_MalformedAdvert
                   | Some hop => walk_down self now labels child (down ++ [hop])
                   end
          end
      end
  end.

Definition build_path_at (self : RouteTreeEngine) (source target : RealmPath) (now : N) :
    result TreeRoutePath RouteFailClosedReason :=
  if negb (is_known_realm_at self source now) || negb (is_known_realm_at self target now)
  then Err RouteFailClosedReason_UnknownParent
  else match nearest_common_ancestor source target with
  | None => Err RouteFailClosedReason_UnknownParent
  | Some ancestor =>
      match walk_up (S (size (parents self))) self now ancestor source ∅ [] with
      | Err reason => Err reason
      | Ok hops =>
          match walk_down self now (reverse (take (length target - length ancestor) target)) ancestor [] with
          | Err reason => Err reason
          | Ok down =>
              match TreeRoutePath_new source target ancestor (hops ++ down) with
              | Some path => Ok path
              | None => Err RouteFailClosedReason_MalformedAdvert
              end
          end
      end
  end.

Definition decide_outcome_at (self : RouteTreeEngine) (now : N) (source target : RealmPath)
    (operation_kind : OperationKind) : TreeRouteDecisionOutcome :=
  match build_path_at self source target now with
  | Err reason => Route_Denied reason
  | Ok path =>
      match OperationKind_required_capability operation_kind with
      | Some capability =>
          if negb (target_has_capability_at self target capability now)
          then Route_Denied RouteFailClosedReason_MissingCapability
          else Route_Allowed path
      | None => Route_Allowed path
      end
  end.

Definition outcome_reason (outcome : TreeRouteDecisionOutcome) : option RouteFailClosedReason :=
  match outcome with Route_Allowed _ => None | Route_Denied reason => Some reason end.

Definition decide_route_at (self : RouteTreeEngine) (now : N) (decision_id correlation_id : string)
    (trace : option TraceContext) (source target : RealmPath) (operation_kind : OperationKind)
    (policy_rule_id : option string) : TreeRouteDecision * RouteEngineEvent :=
  let outcome := decide_outcome_at self now source target operation_kind in
  let reason := outcome_reason outcome in
  (mkTreeRouteDecision decision_id correlation_id trace source target operation_kind
     (OperationKind_required_capability operation_kind) policy_rule_id outcome,
   route_event (match reason with Some _ => RouteAudit_RouteDenied | None => RouteAudit_RouteAllowed end)
     (match reason with Some _ => Counter_RouteDecisionDeniedCount
      | None => Counter_RouteDecisionAllowedCount end)
     operation_kind reason policy_rule_id (placement self)
     (class_for_at self source now) (class_for_at self target now) 1).

Definition envelope_never_expires_time : N := 0.

Definition decide_route (self : RouteTreeEngine) (decision_id correlation_id : string)
    (trace : option TraceContext) (source target : RealmPath) (operation_kind : OperationKind)
    (policy_rule_id : option string) : TreeRouteDecision * RouteEngineEvent :=
  decide_route_at self envelope_never_expires_time decision_id correlation_id trace source target
    operation_kind policy_rule_id.

(** ** Direct shortcuts *)

Definition shortcut_time_reason (now : N) (request : DirectShortcutAuthorizationRequest) :
    option RouteFailClosedReason :=
  if bool_decide (now < sr_issued_at request)%N then Some RouteFailClosedReason_PolicyDenial
  else if bool_decide (sr_expires_at request <= now)%N then Some RouteFailClosedReason_Expired
  else None.

Definition decide_direct_shortcut (self : RouteTreeEngine) (now : N)
    (request : DirectShortcutAuthorizationRequest) : DirectShortcutAuthorizationDecision :=
  let route_decision :=
    (decide_route_at self now (sr_decision_id request) (sr_correlation_id request) (sr_trace request)
       (sr_source_realm request) (sr_target_realm request) (sr_operation_kind request)
       (sr_policy_rule_id request)).1 in
  let event kind counter reason :=
    route_event kind counter (sr_operation_kind request) reason (sr_policy_rule_id request)
      (placement self) (class_for_at self (sr_source_realm request) now)
      (class_for_at self (sr_target_realm request) now) 1 in
  let denied reason :=
    ShortcutDenied reason route_decision
      (event RouteAudit_ShortcutDenied Counter_ShortcutDeniedCount (Some reason)) in
  match shortcut_time_reason now request with
  | Some reason => denied reason
  | None =>
      match trd_outcome route_decision with
      | Route_Denied reason => denied reason
      | Route_Allowed path =>
          if negb (sr_allow_direct_shortcut request) then denied RouteFailClosedReason_PolicyDenial
          else match DirectShortcutAuthorizationMetadata_new
                 (mkDirectShortcutAuthorizationMetadata (sr_shortcut_id request)
                    (sr_correlation_id request) (sr_trace request)
                    (path_nearest_common_ancestor path) (sr_source_realm request)
                    (sr_target_realm request) (sr_operation_kind request)
                    (OperationKind_required_capability (sr_operation_kind request)) path
                    (sr_policy_rule_id request) Shortcut_Authorized (sr_issued_at request)
                    (sr_expires_at request)) with
               | None => denied RouteFailClosedReason_PolicyDenial
               | Some metadata =>
                   ShortcutAuthorized metadata route_decision
                     (event RouteAudit_ShortcutAuthorized Counter_ShortcutAuthorizedCount None)
               end
      end
  end.

Definition decide_direct_shortcut_teardown (self : RouteTreeEngine)
    (metadata : DirectShortcutAuthorizationMetadata) (reason : DirectShortcutTeardownReason)
    (torn_down_at : N) : DirectShortcutTeardownDecision :=
  mkDirectShortcutTeardownDecision
    (mkDirectShortcutTeardownMetadata (ds_shortcut_id metadata) (ds_correlation_id metadata)
       (ds_trace metadata) (ds_source_realm metadata) (ds_target_realm metadata) reason torn_down_at)
    (route_event RouteAudit_ShortcutTornDown Counter_RevocationTeardownCount
       (ds_operation_kind metadata) None (ds_policy_rule_id metadata) (placement self)
       (class_for_at self (ds_source_realm metadata) torn_down_at)
       (class_for_at self (ds_target_realm metadata) torn_down_at) 1).

Definition route_inventory (self : RouteTreeEngine) : list RouteInventoryEntry :=
  map (fun '(descendant, route) =>
         mkRouteInventoryEntry descendant (re_advertising_realm route) (re_next_hop_child route)
           (re_route_id route) (re_capabilities route))
    (btree_entries (routes self)).

(** ** The discovery queue *)

Definition decide_discovery_queue (policy : DiscoveryQueuePolicy)
    (current_depth relay_events peer_events : N) : DiscoveryQueueDecision :=
  let '(outcome, depth, counter, reason) :=
    if bool_decide (max_depth policy <= current_depth)%N then
      match drop_policy policy with
      | DropNew => (PreAuth_Dropped RouteFailClosedReason_QueueFullDropNew, current_depth,
                    Counter_DiscoveryDropNewCount, Some RouteFailClosedReason_QueueFullDropNew)
      end
    else if bool_decide (per_relay_rate_limit_per_minute policy <= relay_events)%N
            || bool_decide (per_unverified_peer_rate_limit_per_minute policy <= peer_events)%N
    then (PreAuth_Dropped RouteFailClosedReason_RateLimited, current_depth,
          Counter_PreAuthRateLimitHitCount, Some RouteFailClosedReason_RateLimited)
    else (PreAuth_Queued, (current_depth + 1)%N, Counter_DiscoveryQueueDepth, None) in
  mkDiscoveryQueueDecision outcome depth
    (route_event (match reason with Some _ => RouteAudit_DiscoveryDropped
                  | None => RouteAudit_DiscoveryQueued end)
       counter OperationKind_NodeCapabilities reason None RoutePlacementClass_Unknown
       RouteRealmClass_Unknown RouteRealmClass_Unknown depth).

(** ** Realm paths *)

Definition valid_path (p : RealmPath) : Prop := RealmPath_new p = Some p.

Lemma valid_path_spec p :
  valid_path p <-> p <> [] /\ length p <= MAX_REALM_LABELS /\ path_bytes p <= MAX_REALM_PATH_BYTES.
Proof. unfold valid_path. rewrite RealmPath_new_some. naive_solver. Qed.

Lemma valid_path_suffix pre p : p <> [] -> valid_path (pre ++ p) -> valid_path p.
Proof.
  rewrite !valid_path_spec. intros Hne (_ & Hlen & Hb). split_and!; [done|..].
  - rewrite length_app in Hlen. lia.
  - unfold path_bytes in *. rewrite fmap_app, sum_list_with_app, length_app in Hb. lia.
Qed.

Lemma child_with_label_some parent label child :
  child_with_label parent label = Some child <-> child = label :: parent /\ valid_path child.
Proof.
  unfold child_with_label. rewrite RealmPath_new_some. rewrite valid_path_spec. naive_solver.
Qed.

Lemma direct_child_below_spec pre label ancestor :
  direct_child_below (pre ++ label :: ancestor) ancestor = child_with_label ancestor label.
Proof.
  unfold direct_child_below. rewrite length_app. simpl. rewrite bool_decide_false by lia.
  replace (length pre + S (length ancestor) - (length ancestor + 1)) with (length pre) by lia.
  by rewrite lookup_app_r, Nat.sub_diag by lia.
Qed.

Lemma direct_child_below_some descendant ancestor child :
  direct_child_below descendant ancestor = Some child ->
  exists label, child = label :: ancestor /\ valid_path child.
Proof.
  unfold direct_child_below. case_bool_decide; [done|].
  destruct (descendant !! _) as [label|]; simpl; [|done].
  intros [-> Hv]%child_with_label_some. eauto.
Qed.

Lemma common_prefix_spec l k :
  exists l' k', l = common_prefix l k ++ l' /\ k = common_prefix l k ++ k' /\
    (forall x y, head l' = Some x -> head k' = Some y -> x <> y).
Proof.
  revert k. induction l as [|a l IH]; intros [|b k]; simpl.
  - exists [], []. done.
  - exists [], (b :: k). done.
  - exists (a :: l), []. done.
  - destruct (String.eqb_spec a b) as [->|Hne].
    + destruct (IH k) as (l' & k' & Hl & Hk & Hd). exists l', k'. simpl.
      split_and!; [by f_equal|by f_equal|done].
    + exists (a :: l), (b :: k). simpl. split_and!; [done|done|]. by intros x y [= <-] [= <-].
Qed.

(** Where two paths part: they end with the same labels and no longer with
    more of them. *)
Definition fork (source target spre tpre ancestor : list string) : Prop :=
  source = spre ++ ancestor /\ target = tpre ++ ancestor /\
  (forall x y, last spre = Some x -> last tpre = Some y -> x <> y).

Lemma fork_exists source target :
  exists spre tpre, fork source target spre tpre (reverse (common_prefix (reverse source) (reverse target))).
Proof.
  destruct (common_prefix_spec (reverse source) (reverse target)) as (l' & k' & Hl & Hk & Hd).
  exists (reverse l'), (reverse k'). split_and!.
  - rewrite <- reverse_app, <- Hl. by rewrite reverse_involutive.
  - rewrite <- reverse_app, <- Hk. by rewrite reverse_involutive.
  - intros x y. rewrite !last_reverse. apply Hd.
Qed.

(** Two ways to part two paths are the same. *)
Lemma fork_unique source target s1 t1 a1 s2 t2 a2 :
  fork source target s1 t1 a1 -> fork source target s2 t2 a2 -> s1 = s2 /\ t1 = t2 /\ a1 = a2.
Proof.
  assert (Hle : forall s1 t1 a1 s2 t2 a2, fork source target s1 t1 a1 -> fork source target s2 t2 a2 ->
    length a1 <= length a2 -> length a2 <= length a1).
  { clear. intros s1 t1 a1 s2 t2 a2 (Hs1 & Ht1 & Hd) (Hs2 & Ht2 & _) Hle.
    destruct (decide (length a2 <= length a1)) as [|Hgt]; [done|]. exfalso.
    assert (exists pre, a2 = pre ++ a1) as [pre ->].
    { pose proof Hs2 as Heq. rewrite Hs1 in Heq.
      apply app_eq_inv in Heq as [(q & _ & ->)|(q & _ & ->)]; [by exists q|].
      rewrite length_app in Hgt. lia. }
    destruct pre as [|z pre _] using rev_ind; [simpl in Hgt; lia|].
    assert (s1 = s2 ++ pre ++ [z]) as ->
      by (apply (app_inv_tail a1); rewrite <- Hs1, Hs2; by rewrite <- !app_assoc).
    assert (t1 = t2 ++ pre ++ [z]) as ->
      by (apply (app_inv_tail a1); rewrite <- Ht1, Ht2; by rewrite <- !app_assoc).
    apply (Hd z z); [by rewrite app_assoc, last_snoc..|done]. }
  intros H1 H2.
  assert (length a1 = length a2) as Hlen.
  { destruct (Nat.le_ge_cases (length a1) (length a2)) as [Hc|Hc].
    - pose proof (Hle _ _ _ _ _ _ H1 H2 Hc). lia.
    - pose proof (Hle _ _ _ _ _ _ H2 H1 Hc). lia. }
  destruct H1 as (Hs1 & Ht1 & _), H2 as (Hs2 & Ht2 & _).
  rewrite Hs1 in Hs2. rewrite Ht1 in Ht2.
  apply app_inj_2 in Hs2 as [-> ->]; [|done]. apply app_inj_2 in Ht2 as [-> _]; [|done]. done.
Qed.

Lemma nearest_common_ancestor_spec source target ancestor :
  valid_path source ->
  nearest_common_ancestor source target = Some ancestor <->
  ancestor <> [] /\ exists spre tpre, fork source target spre tpre ancestor.
Proof.
  intros Hv. unfold nearest_common_ancestor.
  destruct (fork_exists source target) as (spre & tpre & Hf).
  set (common := common_prefix (reverse source) (reverse target)) in *. clearbody common.
  assert (Hc : forall a, a <> [] /\ (exists spre tpre, fork source target spre tpre a) <->
               common <> [] /\ a = reverse common).
  { intros a. split.
    - intros (Hne & s & t & Hf'). destruct (fork_unique _ _ _ _ _ _ _ _ Hf Hf') as (_ & _ & <-).
      split; [|done]. intros ->. done.
    - intros (Hne & ->). split; [|eauto]. intros Hr. apply Hne.
      by rewrite <- (reverse_involutive common), Hr. }
  rewrite Hc. destruct common as [|c common]; [naive_solver|].
  assert (Hvalid : valid_path (reverse (c :: common))).
  { destruct Hf as (Hs & _ & _). subst source. apply (valid_path_suffix spre); [|done].
    intros Hr. apply (f_equal length) in Hr. by rewrite length_reverse in Hr. }
  rewrite Hvalid. split; [by intros [= <-]|by intros [_ ->]].
Qed.

(** ** Paths along the tree *)

(** The hops that lead from [pre ++ ancestor] up to [ancestor] and from a realm
    down along labels, with the route ids the engine holds. *)
Definition route_id_at (self : RouteTreeEngine) (now : N) (realm : RealmPath) : option string :=
  entry ← parent_entry_at self realm now; pe_route_id entry.

Definition linked (self : RouteTreeEngine) (now : N) (realm : RealmPath) : Prop :=
  is_Some (parent_entry_at self realm now).

Fixpoint up_hops (self : RouteTreeEngine) (now : N) (pre : list string) (ancestor : RealmPath) :
    list TreeRouteHop :=
  match pre with
  | [] => []
  | label :: pre =>
      mkTreeRouteHop (label :: pre ++ ancestor) (pre ++ ancestor)
        (mkRealmTreeEdge (pre ++ ancestor) (label :: pre ++ ancestor)) UpToParent
        (route_id_at self now (label :: pre ++ ancestor)) :: up_hops self now pre ancestor
  end.

Fixpoint down_hops (self : RouteTreeEngine) (now : N) (labels : list string) (current : RealmPath) :
    list TreeRouteHop :=
  match labels with
  | [] => []
  | label :: labels =>
      mkTreeRouteHop current (label :: current) (mkRealmTreeEdge current (label :: current))
        DownToChild (route_id_at self now (label :: current))
      :: down_hops self now labels (label :: current)
  end.

(** Every realm strictly below [ancestor] on the way to [pre ++ ancestor] is linked. *)
Fixpoint branch_linked (self : RouteTreeEngine) (now : N) (pre : list string) (ancestor : RealmPath) :
    Prop :=
  match pre with
  | [] => True
  | label :: pre =>
      linked self now (label :: pre ++ ancestor) /\ branch_linked self now pre ancestor
  end.

Fixpoint down_linked (self : RouteTreeEngine) (now : N) (labels : list string) (current : RealmPath) :
    Prop :=
  match labels with
  | [] => True
  | label :: labels => linked self now (label :: current) /\ down_linked self now labels (label :: current)
  end.

Lemma down_linked_snoc self now labels label current :
  down_linked self now (labels ++ [label]) current <->
  down_linked self now labels current /\ linked self now (label :: reverse labels ++ current).
Proof.
  revert current. induction labels as [|l labels IH]; intros current; simpl; [naive_solver|].
  rewrite IH, reverse_cons, <- app_assoc. simpl. tauto.
Qed.

(** The two ways to walk a branch meet the same realms. *)
Lemma down_linked_branch self now pre ancestor :
  down_linked self now (reverse pre) ancestor <-> branch_linked self now pre ancestor.
Proof.
  induction pre as [|label pre IH]; simpl; [done|].
  rewrite reverse_cons, down_linked_snoc, IH, reverse_involutive. tauto.
Qed.

(** Consecutive hops from one realm to another. *)
Fixpoint chain (source : RealmPath) (hops : list TreeRouteHop) (target : RealmPath) : Prop :=
  match hops with
  | [] => source = target
  | hop :: hops => hop_from hop = source /\ chain (hop_to hop) hops target
  end.

Lemma chain_app source h1 middle h2 target :
  chain source h1 middle -> chain middle h2 target -> chain source (h1 ++ h2) target.
Proof.
  revert source. induction h1 as [|h h1 IH]; simpl; intros source; [by intros ->|].
  intros [-> H1] H2. eauto.
Qed.

Lemma chain_up self now pre ancestor :
  chain (pre ++ ancestor) (up_hops self now pre ancestor) ancestor.
Proof. induction pre as [|label pre IH]; simpl; [done|]. by split. Qed.

Lemma chain_down self now labels current :
  chain current (down_hops self now labels current) (reverse labels ++ current).
Proof.
  revert current. induction labels as [|label labels IH]; intros current; simpl; [done|].
  split; [done|]. rewrite reverse_cons, <- app_assoc. apply IH.
Qed.

Lemma chain_connected source hops target :
  chain source hops target ->
  from_option (fun first => bool_decide (hop_from first <> source)) false (head hops) = false /\
  from_option (fun last => bool_decide (hop_to last <> target)) false (last hops) = false /\
  disconnected hops = false.
Proof.
  revert source. induction hops as [|h hops IH]; intros source; [done|]. intros [Hf Hc].
  destruct (IH _ Hc) as (Hh & Hl & Hd). split_and!.
  - apply bool_decide_eq_false. naive_solver.
  - rewrite last_cons. destruct (last hops) as [l|] eqn:Hlast; [done|].
    apply last_None in Hlast as ->. simpl in *. apply bool_decide_eq_false. naive_solver.
  - destruct hops as [|h2 hops]; [done|]. cbn [disconnected]. cbn [head from_option] in Hh.
    apply bool_decide_eq_false in Hh. apply orb_false_iff. split; [|done].
    apply bool_decide_eq_false. intros Hn. apply Hh. intros Heq. by apply Hn.
Qed.

Lemma TreeRoutePath_new_chain source target ancestor hops :
  chain source hops target -> length hops <= MAX_ROUTE_PATH_HOPS ->
  ancestor `suffix_of` source -> ancestor `suffix_of` target ->
  TreeRoutePath_new source target ancestor hops = Some (mkTreeRoutePath source target ancestor hops).
Proof.
  intros Hc Hlen Hs Ht. destruct (chain_connected _ _ _ Hc) as (Hh & Hl & Hd).
  unfold TreeRoutePath_new. rewrite bool_decide_false by lia. rewrite Hh, Hl, Hd.
  apply under_or_at_spec in Hs, Ht. by rewrite Hs, Ht.
Qed.

Lemma length_up_hops self now pre ancestor : length (up_hops self now pre ancestor) = length pre.
Proof. induction pre; simpl; [done|]. by f_equal. Qed.

Lemma length_down_hops self now labels current :
  length (down_hops self now labels current) = length labels.
Proof. revert current. induction labels; intros; simpl; [done|]. by f_equal. Qed.

(** The tree shape of the engine's table: each entry's key is a valid path one
    label below its parent. *)
Definition parents_ok (m : gmap RealmPath ParentEntry) : Prop :=
  map_Forall (fun child entry => (exists label, child = label :: pe_parent entry) /\ valid_path child) m.

Lemma parent_entry_at_lookup self realm now entry :
  parent_entry_at self realm now = Some entry ->
  parents self !! realm = Some entry /\ is_expired (pe_expires_at entry) now = false.
Proof.
  unfold parent_entry_at. destruct (parents self !! realm) as [e|]; simpl; [|done].
  destruct (is_expired (pe_expires_at e) now) eqn:He; [done|]. by intros [= <-].
Qed.

Lemma parent_entry_at_parent self now label realm entry :
  parents_ok (parents self) -> parent_entry_at self (label :: realm) now = Some entry ->
  pe_parent entry = realm.
Proof.
  intros Hok [Hl _]%parent_entry_at_lookup. apply Hok in Hl as [[l Hl] _]. congruence.
Qed.

Lemma make_hop_up label realm id :
  make_hop (label :: realm) realm realm (label :: realm) UpToParent id
  = Some (mkTreeRouteHop (label :: realm) realm (mkRealmTreeEdge realm (label :: realm)) UpToParent id).
Proof.
  unfold make_hop.
  assert (RealmTreeEdge_new realm (label :: realm) = Some (mkRealmTreeEdge realm (label :: realm))) as ->
    by (apply RealmTreeEdge_new_some; eauto).
  simpl. unfold TreeRouteHop_new. simpl. by rewrite !bool_decide_true.
Qed.

Lemma make_hop_down label realm id :
  make_hop realm (label :: realm) realm (label :: realm) DownToChild id
  = Some (mkTreeRouteHop realm (label :: realm) (mkRealmTreeEdge realm (label :: realm)) DownToChild id).
Proof.
  unfold make_hop.
  assert (RealmTreeEdge_new realm (label :: realm) = Some (mkRealmTreeEdge realm (label :: realm))) as ->
    by (apply RealmTreeEdge_new_some; eauto).
  simpl. unfold TreeRouteHop_new. simpl. by rewrite !bool_decide_true.
Qed.

(** More rounds than table entries change nothing. *)
Lemma walk_up_fuel self now ancestor fuel more current seen hops :
  seen ⊆ dom (parents self) -> size (parents self) < fuel + size seen ->
  walk_up (fuel + more) self now ancestor current seen hops
  = walk_up fuel self now ancestor current seen hops.
Proof.
  revert current seen hops. induction fuel as [|fuel IH]; intros current seen hops Hsub Hlt.
  { apply subseteq_size in Hsub. rewrite size_dom in Hsub. simpl in Hlt. lia. }
  simpl. case_bool_decide; [done|]. case_bool_decide as Hin; [done|].
  destruct (parent_entry_at self current now) as [entry|] eqn:He; [|done].
  case_bool_decide; [done|]. destruct (make_hop _ _ _ _ _ _); [|done]. apply IH.
  - apply parent_entry_at_lookup in He as [Hl _]. apply elem_of_dom_2 in Hl. set_solver.
  - rewrite size_union by set_solver. rewrite size_singleton. lia.
Qed.

Lemma walk_up_spec self now ancestor fuel pre seen hops :
  parents_ok (parents self) -> length pre < fuel ->
  (forall realm, realm ∈ seen -> length (pre ++ ancestor) < length realm) ->
  (branch_linked self now pre ancestor /\
   walk_up fuel self now ancestor (pre ++ ancestor) seen hops = Ok (hops ++ up_hops self now pre ancestor)) \/
  (~ branch_linked self now pre ancestor /\
   walk_up fuel self now ancestor (pre ++ ancestor) seen hops = Err RouteFailClosedReason_UnknownParent).
Proof.
  intros Hok. revert fuel seen hops.
  induction pre as [|label pre IH]; intros [|fuel] seen hops Hf Hseen; simpl in Hf; try lia.
  { left. simpl. split; [done|]. by rewrite bool_decide_true, app_nil_r. }
  cbn [walk_up app branch_linked up_hops]. set (realm := pre ++ ancestor) in *.
  rewrite bool_decide_false; cycle 1.
  { intros Heq. apply (f_equal length) in Heq. unfold realm in Heq. simpl in Heq.
    rewrite length_app in Heq. lia. }
  rewrite bool_decide_false by (intros Hin; apply Hseen in Hin; unfold realm in Hin; simpl in Hin; lia).
  unfold linked, route_id_at. destruct (parent_entry_at self (label :: realm) now) as [entry|] eqn:He; cycle 1.
  { right. split; [|done]. intros [[e Hsome] _]. discriminate Hsome. }
  rewrite (parent_entry_at_parent self now label realm entry Hok He).
  rewrite bool_decide_false; cycle 1.
  { intros [Heq%elem_of_singleton|Hin]%elem_of_union.
    - apply (f_equal length) in Heq. simpl in Heq. lia.
    - apply Hseen in Hin. unfold realm in Hin. simpl in Hin. lia. }
  rewrite make_hop_up.
  destruct (IH fuel ({[label :: realm]} ∪ seen)
              (hops ++ [mkTreeRouteHop (label :: realm) realm (mkRealmTreeEdge realm (label :: realm))
                          UpToParent (pe_route_id entry)])) as [[Hb Hw]|[Hb Hw]]; [lia|..].
  - intros r [->%elem_of_singleton|Hin]%elem_of_union; [simpl; unfold realm; lia|].
    apply Hseen in Hin. unfold realm in *. simpl in Hin. lia.
  - left. split; [split; [by eexists|done]|]. rewrite Hw, <- app_assoc. done.
  - right. split; [tauto|]. by rewrite Hw.
Qed.

Lemma walk_down_spec self now labels current down :
  parents_ok (parents self) -> valid_path (reverse labels ++ current) ->
  (down_linked self now labels current /\
   walk_down self now labels current down = Ok (down ++ down_hops self now labels current)) \/
  (~ down_linked self now labels current /\
   walk_down self now labels current down = Err RouteFailClosedReason_UnknownParent).
Proof.
  intros Hok. revert current down. induction labels as [|label labels IH]; intros current down Hv.
  { left. simpl. by rewrite app_nil_r. }
  cbn [walk_down down_linked down_hops]. rewrite reverse_cons, <- app_assoc in Hv. simpl in Hv.
  assert (child_with_label current label = Some (label :: current)) as ->.
  { apply child_with_label_some. split; [done|]. by eapply valid_path_suffix. }
  unfold linked, route_id_at. destruct (parent_entry_at self (label :: current) now) as [entry|] eqn:He; cycle 1.
  { right. split; [|done]. intros [[e Hsome] _]. discriminate Hsome. }
  rewrite (parent_entry_at_parent self now label current entry Hok He).
  rewrite bool_decide_false by naive_solver. rewrite make_hop_down.
  destruct (IH (label :: current)
              (down ++ [mkTreeRouteHop current (label :: current)
                          (mkRealmTreeEdge current (label :: current)) DownToChild (pe_route_id entry)])
              Hv) as [[Hb Hw]|[Hb Hw]].
  - left. split; [split; [by eexists|done]|]. rewrite Hw, <- app_assoc. done.
  - right. split; [tauto|]. by rewrite Hw.
Qed.

(** More rounds than table entries change nothing in the loop search either. *)
Lemma loop_walk_fuel (parents updates : ParentMap) child now fuel more current seen :
  seen ⊆ dom parents ∪ dom updates -> size parents + size updates < fuel + size seen ->
  loop_walk (fuel + more) parents updates child now current seen
  = loop_walk fuel parents updates child now current seen.
Proof.
  revert current seen. induction fuel as [|fuel IH]; intros current seen Hsub Hlt.
  { apply subseteq_size in Hsub. rewrite size_union_alt in Hsub.
    pose proof (subseteq_size (dom updates ∖ dom parents) (dom updates) ltac:(set_solver)).
    rewrite !size_dom in *. simpl in Hlt. lia. }
  simpl. destruct (parent_entry_with_updates_at parents updates current now) as [entry|] eqn:He; [|done].
  case_bool_decide; [done|]. case_bool_decide as Hin; [done|]. simpl. apply IH.
  - unfold parent_entry_with_updates_at in He.
    destruct (updates !! current) as [e|] eqn:Hu; [apply elem_of_dom_2 in Hu; set_solver|].
    destruct (parents !! current) as [e|] eqn:Hp; simpl in He; [apply elem_of_dom_2 in Hp; set_solver|done].
  - rewrite size_union by set_solver. rewrite size_singleton. lia.
Qed.

(** The path the tree gives between two realms that part below [ancestor]. *)
Definition tree_path (self : RouteTreeEngine) (now : N) (spre tpre : list string) (ancestor : RealmPath) :
    TreeRoutePath :=
  mkTreeRoutePath (spre ++ ancestor) (tpre ++ ancestor) ancestor
    (up_hops self now spre ancestor ++ down_hops self now (reverse tpre) ancestor).

(** When the tree connects two realms. *)
Record connected (self : RouteTreeEngine) (now : N) (source target : RealmPath)
    (spre tpre : list string) (ancestor : RealmPath) : Prop := {
  cn_source : is_known_realm_at self source now = true;
  cn_target : is_known_realm_at self target now = true;
  cn_ancestor : ancestor <> [];
  cn_fork : fork source target spre tpre ancestor;
  cn_up : branch_linked self now spre ancestor;
  cn_down : branch_linked self now tpre ancestor
}.

Lemma tree_path_new self now source target spre tpre ancestor :
  valid_path source -> valid_path target -> ancestor <> [] -> fork source target spre tpre ancestor ->
  TreeRoutePath_new source target ancestor
    (up_hops self now spre ancestor ++ down_hops self now (reverse tpre) ancestor)
  = Some (tree_path self now spre tpre ancestor).
Proof.
  intros Hs Ht Hne (-> & -> & _). apply TreeRoutePath_new_chain.
  - eapply chain_app; [apply chain_up|]. pose proof (chain_down self now (reverse tpre) ancestor) as Hc.
    by rewrite reverse_involutive in Hc.
  - apply valid_path_spec in Hs as (_ & Hs & _), Ht as (_ & Ht & _).
    rewrite length_app, length_up_hops, length_down_hops, length_reverse.
    rewrite !length_app in *. destruct ancestor; [done|]. simpl in *.
    unfold MAX_REALM_LABELS, MAX_ROUTE_PATH_HOPS in *. lia.
  - by exists spre.
  - by exists tpre.
Qed.

Lemma build_path_cases self source target now :
  parents_ok (parents self) -> valid_path source -> valid_path target ->
  (exists spre tpre ancestor, connected self now source target spre tpre ancestor /\
     build_path_at self source target now = Ok (tree_path self now spre tpre ancestor)) \/
  ((forall spre tpre ancestor, ~ connected self now source target spre tpre ancestor) /\
   build_path_at self source target now = Err RouteFailClosedReason_UnknownParent).
Proof.
  intros Hok Hs Ht. unfold build_path_at.
  destruct (is_known_realm_at self source now) eqn:Hks; cbn [negb orb];
    [|right; split; [intros ??? []; congruence|done]].
  destruct (is_known_realm_at self target now) eqn:Hkt; cbn [negb orb];
    [|right; split; [intros ??? []; congruence|done]].
  destruct (nearest_common_ancestor source target) as [ancestor|] eqn:Hn; cycle 1.
  { right. split; [|done]. intros spre tpre ancestor [_ _ Hne Hf _ _].
    assert (nearest_common_ancestor source target = Some ancestor) as Hn'
      by (apply nearest_common_ancestor_spec; eauto). congruence. }
  apply nearest_common_ancestor_spec in Hn as (Hne & spre & tpre & Hf); [|done].
  pose proof Hf as (Hse & Hte & _).
  assert (Huniq : forall s t a, connected self now source target s t a ->
    s = spre /\ t = tpre /\ a = ancestor).
  { intros s t a Hc. eapply fork_unique; [apply Hc|exact Hf]. }
  replace (length target - length ancestor) with (length tpre) by (subst target; rewrite length_app; lia).
  assert (take (length tpre) target = tpre) as -> by (rewrite Hte; apply take_app_length).
  assert (Hfuel : forall n, walk_up (S (size (parents self)) + n) self now ancestor source ∅ []
                            = walk_up (S (size (parents self))) self now ancestor source ∅ []).
  { intros n. apply walk_up_fuel; [set_solver|]. rewrite size_empty. lia. }
  rewrite <- (Hfuel (length spre)). clear Hfuel.
  pose proof (walk_up_spec self now ancestor (S (size (parents self)) + length spre) spre ∅ [] Hok)
    as Hup. rewrite <- Hse in Hup. destruct Hup as [[Hb ->]|[Hb ->]]; [lia|set_solver|..]; cycle 1.
  { right. split; [|done]. intros s t a Hc. destruct (Huniq _ _ _ Hc) as (-> & -> & ->). by destruct Hc. }
  destruct (walk_down_spec self now (reverse tpre) ancestor []) as [[Hd ->]|[Hd ->]];
    [done|rewrite reverse_involutive; congruence|..]; rewrite down_linked_branch in Hd; cycle 1.
  { right. split; [|done]. intros s t a Hc. destruct (Huniq _ _ _ Hc) as (-> & -> & ->). by destruct Hc. }
  left. exists spre, tpre, ancestor. split; [by split|]. simpl.
  by rewrite (tree_path_new self now source target).
Qed.

(** C14. A route is allowed exactly along the tree: source and target are known,
    every realm strictly below their nearest common ancestor on either branch
    has a live edge to its parent, and the target offers the capability the
    operation needs.  The path is then the hops up to that ancestor and down
    to the target, and a refusal is never anything but an unknown parent or
    a missing capability. *)
Theorem decide_route_exact (self : RouteTreeEngine) (now : N) (source target : RealmPath)
    (kind : OperationKind) :
  parents_ok (parents self) -> valid_path source -> valid_path target ->
  let capable := forall capability, OperationKind_required_capability kind = Some capability ->
                   target_has_capability_at self target capability now = true in
  (forall path, decide_outcome_at self now source target kind = Route_Allowed path <->
     capable /\ exists spre tpre ancestor, connected self now source target spre tpre ancestor /\
                  path = tree_path self now spre tpre ancestor) /\
  (forall reason, decide_outcome_at self now source target kind = Route_Denied reason ->
     reason = RouteFailClosedReason_UnknownParent \/ reason = RouteFailClosedReason_MissingCapability).
Proof.
  intros Hok Hs Ht capable. unfold decide_outcome_at.
  destruct (build_path_cases self source target now Hok Hs Ht)
    as [(spre & tpre & ancestor & Hc & ->)|[Hno ->]].
  - assert (Hiff : forall path, Route_Allowed (tree_path self now spre tpre ancestor) = Route_Allowed path
      <-> exists s t a, connected self now source target s t a /\ path = tree_path self now s t a).
    { intros path. split; [intros [= <-]; eauto 6|]. intros (s & t & a & Hc' & ->).
      by destruct (fork_unique _ _ _ _ _ _ _ _ (cn_fork _ _ _ _ _ _ _ Hc)
                     (cn_fork _ _ _ _ _ _ _ Hc')) as (-> & -> & ->). }
    unfold capable. destruct (OperationKind_required_capability kind) as [c|].
    + destruct (target_has_capability_at self target c now) eqn:Hcap; cbn [negb].
      * split; [|done]. intros path. rewrite Hiff. split; [|tauto]. intros He. split; [|done].
        by intros c' [= <-].
      * split; [|by intros reason [= <-]; right]. intros path. split; [done|].
        intros [Hc' _]. specialize (Hc' c eq_refl). congruence.
    + split; [|done]. intros path. rewrite Hiff. split; [|tauto]. by intros He.
  - split; [|by intros reason [= <-]; left]. intros path. split; [done|].
    intros (_ & s & t & a & Hc & _). by destruct (Hno s t a).
Qed.

(** ** What an accepted advertisement stages *)

Definition entry_of (adv : RouteAdvertisement) (route : DescendantRoute) : RouteEntry :=
  mkRouteEntry (ad_advertising_realm adv) (dr_next_hop_child route) (dr_route_id route)
    (dr_capabilities route) (ad_issued_at adv) (ad_expires_at adv).

(** A route its advertiser may announce under an allocation. *)
Record route_ok (adv : RouteAdvertisement) (allocation : RouteNamespaceAllocation)
    (route : DescendantRoute) : Prop := {
  ro_below : is_descendant_of (dr_descendant route) (ad_advertising_realm adv) = true;
  ro_next : next_hop_child (dr_descendant route) (ad_advertising_realm adv)
            = Some (dr_next_hop_child route);
  ro_prefix : prefix_allowed (dr_descendant route) (na_allowed_prefixes allocation) = true;
  ro_caps : CapabilitySet_is_subset_of (dr_capabilities route) (na_capability_ceiling allocation) = true
}.

(** An edge an advertisement may stage: its own tree edge or one to a direct
    child of the advertiser. *)
Definition edge_from (adv : RouteAdvertisement) (child : RealmPath) (entry : ParentEntry) : Prop :=
  ((child = edge_child (ad_tree_edge adv) /\ pe_parent entry = edge_parent (ad_tree_edge adv)) \/
   (exists label, child = label :: ad_advertising_realm adv /\ valid_path child /\
                  pe_parent entry = ad_advertising_realm adv)) /\
  pe_issued_at entry = ad_issued_at adv /\ pe_expires_at entry = ad_expires_at adv.

(** The realms whose edge an advertisement writes: the advertiser, and the
    child each route goes through. *)
Definition own_edge (adv : RouteAdvertisement) (advertised : list DescendantRoute)
    (child : RealmPath) : Prop :=
  child = edge_child (ad_tree_edge adv)
  \/ exists route, route ∈ advertised /\ child = dr_next_hop_child route :: ad_advertising_realm adv.

Record staged (adv : RouteAdvertisement) (allocation : RouteNamespaceAllocation)
    (routes_done : list DescendantRoute) (st : staging) : Prop := {
  sg_parents : map_Forall (edge_from adv) (parent_updates st);
  sg_edge : is_Some (parent_updates st !! edge_child (ad_tree_edge adv));
  sg_edges : forall child, is_Some (parent_updates st !! child) <-> own_edge adv routes_done child;
  sg_routes : forall realm entry, route_updates st !! realm = Some entry <->
    exists route, route ∈ routes_done /\ dr_descendant route = realm /\ entry = entry_of adv route;
  sg_seen : seen_descendants st = dom (route_updates st);
  sg_ok : forall route, route ∈ routes_done -> route_ok adv allocation route;
  sg_ids : accepted_ids st = map dr_route_id routes_done
}.

Lemma stage_parent_edge_ok parents now issued_at parent child route_id capabilities ceiling expires_at
    updates updates' :
  stage_parent_edge parents now issued_at parent child route_id capabilities ceiling expires_at updates
  = Ok updates' ->
  exists entry, updates' = <[child := entry]> updates /\ pe_parent entry = parent /\
    pe_expires_at entry = expires_at /\
    pe_issued_at entry = from_option pe_issued_at issued_at (updates !! child).
Proof.
  unfold stage_parent_edge. destruct (_ || _); [done|].
  destruct (updates !! child) as [existing|] eqn:Hu.
  { case_bool_decide as Hp; [done|]. intros [= <-]. eexists. split_and!; [done| |done|done].
    done. }
  destruct (parents !! child) as [existing|]; [|by intros [= <-]; eexists].
  destruct (is_expired _ _); [by intros [= <-]; eexists|].
  repeat case_bool_decide; try done. intros [= <-]. by eexists.
Qed.

Lemma stage_route_entry_ok routes now issued_at realm route expires_at updates updates' :
  updates !! dr_descendant route = None ->
  stage_route_entry routes now issued_at realm route expires_at updates = Ok updates' ->
  updates' = <[dr_descendant route := mkRouteEntry realm (dr_next_hop_child route) (dr_route_id route)
                 (dr_capabilities route) issued_at expires_at]> updates.
Proof.
  intros Hu. unfold stage_route_entry. rewrite Hu.
  destruct (routes !! dr_descendant route) as [existing|]; [|by intros [= <-]].
  destruct (is_expired _ _); [by intros [= <-]|]. case_bool_decide; [done|].
  destruct (same_route _ _ _); [by intros [= <-]|done].
Qed.

Lemma next_hop_of_child descendant realm label :
  is_descendant_of descendant realm = true ->
  (child ← direct_child_below descendant realm; head child) = Some label ->
  next_hop_child descendant realm = Some label.
Proof.
  intros (pre & Hne & ->)%is_descendant_of_spec.
  destruct pre as [|x pre _] using rev_ind; [done|]. rewrite <- app_assoc. simpl.
  rewrite direct_child_below_spec, next_hop_child_spec.
  destruct (child_with_label realm x) as [child|] eqn:Hc; simpl; [|done].
  apply child_with_label_some in Hc as [-> _]. done.
Qed.

Lemma stage_route_staged self adv allocation now route routes_done st st' :
  staged adv allocation routes_done st -> stage_route self adv allocation now route st = Ok st' ->
  staged adv allocation (routes_done ++ [route]) st'.
Proof.
  intros Hst. unfold stage_route. case_bool_decide as Hseen; [done|].
  destruct (is_descendant_of _ _) eqn:Hdesc; cbn [negb orb]; [|done].
  case_bool_decide as Hnext; [done|].
  destruct (prefix_allowed _ _) eqn:Hpre; cbn [negb orb]; [|done].
  destruct (CapabilitySet_is_subset_of _ _) eqn:Hcap; cbn [negb orb]; [|done].
  destruct (direct_child_below _ _) as [child|] eqn:Hchild; [|done].
  destruct (stage_parent_edge _ _ _ _ _ _ _ _ _ _) as [pu|] eqn:Hp; [|done].
  destruct (stage_route_entry _ _ _ _ _ _ _) as [ru|] eqn:Hr; [|done]. intros [= <-].
  apply stage_parent_edge_ok in Hp as (entry & -> & Hpar & Hexp & Hiss).
  rewrite (sg_seen _ _ _ _ Hst) in Hseen. apply not_elem_of_dom in Hseen.
  apply stage_route_entry_ok in Hr as ->; [|done].
  pose proof (direct_child_below_some _ _ _ Hchild) as (label & Hlab & Hvalid).
  split; cbn [parent_updates route_updates seen_descendants accepted_ids].
  - apply map_Forall_insert_2; [|apply Hst]. split; [right; by exists label|]. split; [|done].
    rewrite Hiss. destruct (parent_updates st !! child) as [e|] eqn:He; [|done].
    by apply (sg_parents _ _ _ _ Hst) in He as (_ & ? & _).
  - apply lookup_insert_is_Some'. right. apply Hst.
  - assert (child = dr_next_hop_child route :: ad_advertising_realm adv) as Hc.
    { rewrite Hlab in Hnext |- *. simpl in Hnext. by simplify_eq. }
    intros x. rewrite lookup_insert_is_Some', (sg_edges _ _ _ _ Hst x). unfold own_edge.
    setoid_rewrite elem_of_app. setoid_rewrite list_elem_of_singleton. naive_solver.
  - intros realm e. setoid_rewrite elem_of_app. setoid_rewrite list_elem_of_singleton.
    destruct (decide (dr_descendant route = realm)) as [<-|Hne].
    + rewrite lookup_insert_eq. split.
      * intros [= <-]. exists route. eauto.
      * intros (r & [Hin| ->] & Hd & ->); [|done]. exfalso.
        assert (Hl : route_updates st !! dr_descendant route = Some (entry_of adv r))
          by (apply (sg_routes _ _ _ _ Hst); eauto). congruence.
    + rewrite lookup_insert_ne by done. rewrite (sg_routes _ _ _ _ Hst). naive_solver.
  - rewrite dom_insert_L, (sg_seen _ _ _ _ Hst). done.
  - intros r [Hin| ->%list_elem_of_singleton]%elem_of_app; [by apply Hst|].
    split; [done| |done|done]. apply next_hop_of_child; [done|]. by rewrite Hchild.
  - rewrite (sg_ids _ _ _ _ Hst), map_app. done.
Qed.

Lemma stage_routes_staged self adv allocation now advertised routes_done st st' :
  staged adv allocation routes_done st ->
  stage_routes self adv allocation now advertised st = Ok st' ->
  staged adv allocation (routes_done ++ advertised) st'.
Proof.
  revert routes_done st. induction advertised as [|r rs IH]; intros routes_done st Hst; simpl.
  - intros [= <-]. by rewrite app_nil_r.
  - destruct (stage_route _ _ _ _ _ _) as [st1|] eqn:Hr; [|done]. intros Hs.
    apply stage_route_staged with (routes_done := routes_done) in Hr; [|done].
    apply (IH _ _ Hr) in Hs. by rewrite <- app_assoc in Hs.
Qed.

(** The conditions an accepted advertisement met. *)
Record screened (envelope : RouteAdvertisementEnvelope) (allocation : RouteNamespaceAllocation)
    (self : RouteTreeEngine) (st : staging) : Prop := {
  sc_child : edge_child (ad_tree_edge (env_advertisement envelope))
             = ad_advertising_realm (env_advertisement envelope);
  sc_issued : (ad_issued_at (env_advertisement envelope) <= env_received_at envelope)%N;
  sc_fresh : (env_received_at envelope < ad_expires_at (env_advertisement envelope))%N;
  sc_parent : edge_parent (ad_tree_edge (env_advertisement envelope)) = local_root self \/
              linked self (env_received_at envelope)
                (edge_parent (ad_tree_edge (env_advertisement envelope)));
  sc_replay : replay_any (fun key expires_at => replay_key_matches key envelope
                && negb (is_expired expires_at (env_received_at envelope))) (replayed_adverts self) = false;
  sc_edge : na_tree_edge allocation = ad_tree_edge (env_advertisement envelope);
  sc_generation : na_allocated_to_generation allocation
                  = ad_controller_generation (env_advertisement envelope);
  sc_count : (N.of_nat (length (ad_routes (env_advertisement envelope))) <= na_max_routes allocation)%N;
  sc_staged : staged (env_advertisement envelope) allocation (ad_routes (env_advertisement envelope)) st;
  sc_capacity : capacity_pressure self envelope st = true ->
                over_capacity self envelope st (env_received_at envelope) = false
}.

Lemma screen_ok envelope allocation self st :
  screen envelope allocation self = Ok st -> screened envelope allocation self st.
Proof.
  unfold screen. set (adv := env_advertisement envelope). set (now := env_received_at envelope).
  destruct (_ || _ || _ || _) eqn:Hmal; [done|].
  apply orb_false_iff in Hmal as [Hmal H4%bool_decide_eq_false].
  apply orb_false_iff in Hmal as [Hmal H3%bool_decide_eq_false].
  apply orb_false_iff in Hmal as [H1%bool_decide_eq_false H2%bool_decide_eq_false].
  apply dec_stable in H1. case_bool_decide as Hexp; [done|].
  destruct (bool_decide (edge_parent (ad_tree_edge adv) <> local_root self) && _) eqn:Hpar; [done|].
  destruct (replay_any _ _) eqn:Hrep; [done|].
  destruct (_ || _ || _) eqn:Hns; [done|].
  apply orb_false_iff in Hns as [Hns H7%bool_decide_eq_false].
  apply orb_false_iff in Hns as [H5%bool_decide_eq_false H6%bool_decide_eq_false].
  apply dec_stable in H5, H6.
  destruct (stage_parent_edge _ _ _ _ _ _ _ _ _ _) as [pu|] eqn:Hp; [|done].
  destruct (stage_routes _ _ _ _ _ _) as [st1|] eqn:Hs; [|done].
  destruct (capacity_pressure _ _ _ && _) eqn:Hcap; [done|]. intros [= ->].
  apply stage_parent_edge_ok in Hp as (entry & -> & Hparent & Hexpires & Hissued).
  rewrite lookup_empty in Hissued. simpl in Hissued.
  split; fold adv; fold now; try done; try lia.
  - apply andb_false_iff in Hpar as [H%bool_decide_eq_false|H%bool_decide_eq_false].
    + left. by apply dec_stable.
    + right. unfold linked. by destruct (parent_entry_at _ _ _).
  - apply stage_routes_staged with (routes_done := []) in Hs; [done|]. split; simpl.
    + apply map_Forall_insert_2; [|apply map_Forall_empty]. by split; [left|].
    + by rewrite lookup_insert_eq.
    + intros x. rewrite lookup_insert_is_Some', lookup_empty. unfold own_edge.
      split; [intros [<-|[? ?]]; [by left|done]|].
      intros [->|(r & Hin & _)]; [by left|]. by apply elem_of_nil in Hin.
    + intros realm e. rewrite lookup_empty. split; [done|]. intros (r & Hin & _). by apply elem_of_nil in Hin.
    + by rewrite dom_empty_L.
    + intros r Hin. by apply elem_of_nil in Hin.
    + done.
  - intros Hpress. rewrite Hpress in Hcap. done.
Qed.

(** ** The engine's invariant *)

Lemma size_union_updates {A : Type} (updates entries : gmap RealmPath A) :
  size (updates ∪ entries)
  = size entries + size (filter (fun kv => bool_decide (is_Some (entries !! kv.1)) = false) updates).
Proof.
  rewrite <- !size_dom, dom_union_L, union_comm_L, size_union_alt. f_equal.
  rewrite size_dom. rewrite <- (size_dom (filter _ updates)). f_equal.
  apply set_eq. intros k. rewrite elem_of_difference, !elem_of_dom. split.
  - intros [[v Hv] Hk]. exists v. apply map_lookup_filter_Some. split; [done|].
    by apply bool_decide_eq_false.
  - intros [v [Hv Hk%bool_decide_eq_false]%map_lookup_filter_Some]. split; [by exists v|done].
Qed.

(** The lengths projected after pruning are those the pruned maps reach. *)
Lemma size_union_pruned {A : Type} (expires : A -> N) (now : N) (updates entries : gmap RealmPath A) :
  size (updates ∪ filter (fun kv => is_expired (expires kv.2) now = false) entries)
  = live_count expires now entries + size updates - live_updates expires now entries updates.
Proof.
  rewrite size_union_updates. unfold live_count, live_updates.
  set (live := filter (fun kv => is_expired (expires kv.2) now = false) entries).
  assert (Hlive : forall k, is_Some (live !! k) <->
    from_option (fun entry => negb (is_expired (expires entry) now)) false (entries !! k) = true).
  { intros k. unfold live. split.
    - intros [v [Hv He]%map_lookup_filter_Some]. rewrite Hv. simpl in *. by rewrite He.
    - destruct (entries !! k) as [v|] eqn:Hv; simpl; [|done]. intros He%negb_true_iff.
      exists v. by apply map_lookup_filter_Some. }
  assert (Hsplit : size updates
    = size (filter (fun kv => bool_decide (is_Some (live !! kv.1)) = false) updates)
      + size (filter (fun kv => from_option (fun entry => negb (is_expired (expires entry) now)) false
                                  (entries !! kv.1) = true) updates)).
  { rewrite <- (map_filter_union_complement
      (fun kv => bool_decide (is_Some (live !! kv.1)) = false) updates) at 1.
    rewrite map_size_disj_union by apply map_disjoint_filter_complement. f_equal. f_equal.
    apply map_filter_ext. intros k v _. simpl. rewrite <- Hlive. split.
    - intros Hn%not_false_iff_true%bool_decide_eq_true. done.
    - intros Hs Hf%bool_decide_eq_false. done. }
  lia.
Qed.

Lemma replay_any_true f replayed :
  replay_any f replayed = true <-> exists key expires_at, replayed !! key = Some expires_at /\
                                     f key expires_at = true.
Proof.
  unfold replay_any. rewrite existsb_elem. split.
  - intros ([key e] & Hin%elem_of_map_to_list & Hf). eauto.
  - intros (key & e & Hl & Hf). exists (key, e). by rewrite elem_of_map_to_list.
Qed.

Lemma replay_key_matches_spec key envelope :
  replay_key_matches key envelope = true <-> key = replay_key_of (env_advertisement envelope).
Proof.
  unfold replay_key_matches, replay_key_of. rewrite !andb_true_iff, !bool_decide_eq_true.
  destruct key. simpl. naive_solver.
Qed.

(** Inserting the advertisement's key into a map that keeps some of the keys. *)
Lemma size_replay_insert envelope (f : ReplayKey -> N -> bool) (kept : gmap ReplayKey N) v :
  (forall key e, kept !! key = Some e -> f key e = true) ->
  size (<[replay_key_of (env_advertisement envelope) := v]> kept)
  <= size kept
     + (if replay_any (fun key e => replay_key_matches key envelope && f key e) kept then 0 else 1).
Proof.
  intros Hkept. destruct (replay_any _ _) eqn:Hany.
  - apply replay_any_true in Hany as (key & e & Hl & Hm%andb_true_iff).
    destruct Hm as [->%replay_key_matches_spec _].
    rewrite map_size_insert_Some by (by rewrite Hl). lia.
  - destruct (kept !! replay_key_of (env_advertisement envelope)) as [e|] eqn:Hl.
    + rewrite map_size_insert_Some by (by rewrite Hl). lia.
    + rewrite map_size_insert_None by done. lia.
Qed.

Record engine_wf (self : RouteTreeEngine) : Prop := {
  ew_parents : parents_ok (parents self);
  ew_routes : map_Forall (fun realm entry =>
      is_descendant_of realm (re_advertising_realm entry) = true /\
      next_hop_child realm (re_advertising_realm entry) = Some (re_next_hop_child entry))
    (routes self);
  ew_parents_len : (N.of_nat (size (parents self)) <= max_parent_entries (capacity_limits self))%N;
  ew_routes_len : (N.of_nat (size (routes self)) <= max_route_entries (capacity_limits self))%N;
  ew_replay_len : (N.of_nat (size (replayed_adverts self)) <= max_replay_keys (capacity_limits self))%N
}.

Lemma with_capacity_limits_wf root p a b c : engine_wf (with_capacity_limits root p a b c).
Proof.
  split; simpl; try (rewrite map_size_empty; lia); apply map_Forall_empty.
Qed.

Lemma map_Forall_filter {A : Type} (P : RealmPath -> A -> Prop) (Q : RealmPath * A -> Prop)
    `{forall kv, Decision (Q kv)} (m : gmap RealmPath A) :
  map_Forall P m -> map_Forall P (filter Q m).
Proof. intros Hm k v [Hl _]%map_lookup_filter_Some. by apply Hm. Qed.

Lemma size_filter_le {K A : Type} `{Countable K} (Q : K * A -> Prop)
    `{forall kv, Decision (Q kv)} (m : gmap K A) (max : N) :
  (N.of_nat (size m) <= max)%N -> (N.of_nat (size (filter Q m)) <= max)%N.
Proof.
  intros Hm. pose proof (map_subseteq_size _ _ (map_filter_subseteq Q m)). lia.
Qed.

Lemma prune_expired_wf now self : engine_wf self -> engine_wf (prune_expired now self).2.
Proof.
  intros [Hp Hr H1 H2 H3]. unfold prune_expired.
  split; simpl; [by apply map_Forall_filter..|by apply size_filter_le|by apply size_filter_le|].
  by apply size_filter_le.
Qed.

Definition envelope_ok (envelope : RouteAdvertisementEnvelope) : Prop :=
  edge_ok (ad_tree_edge (env_advertisement envelope)) /\
  valid_path (edge_child (ad_tree_edge (env_advertisement envelope))).

Lemma staged_parents_ok adv allocation routes_done st :
  edge_ok (ad_tree_edge adv) -> valid_path (edge_child (ad_tree_edge adv)) ->
  staged adv allocation routes_done st -> parents_ok (parent_updates st).
Proof.
  intros [label Hedge] Hvalid Hst child entry Hl.
  apply (sg_parents _ _ _ _ Hst) in Hl as ([[-> Hp]|(l & -> & Hv & Hp)] & _).
  - split; [|done]. exists label. by rewrite Hp.
  - split; [|done]. exists l. by rewrite Hp.
Qed.

Lemma map_Forall_union_2 {A : Type} (P : RealmPath -> A -> Prop) (m1 m2 : gmap RealmPath A) :
  map_Forall P m1 -> map_Forall P m2 -> map_Forall P (m1 ∪ m2).
Proof. intros H1 H2 k v [Hl|[_ Hl]]%lookup_union_Some_raw; [by apply H1|by apply H2]. Qed.

Lemma size_replay_pruned envelope (replayed : gmap ReplayKey N) (now v : N) :
  let adv := env_advertisement envelope in
  size (<[replay_key_of adv := v]>
          (prune_superseded_replay_keys adv (filter (fun kv => is_expired kv.2 now = false) replayed)))
  <= projected_replay_len_after_prune replayed envelope now.
Proof.
  intros adv. unfold projected_replay_len_after_prune. fold adv.
  set (retained := fun key e => negb (is_expired e now) && negb (is_superseded_replay_key key e adv)).
  set (kept := prune_superseded_replay_keys adv _).
  change (size (<[replay_key_of adv := v]> kept)
          <= size (filter (fun kv => retained kv.1 kv.2 = true) replayed)
             + (if replay_any (fun key e => replay_key_matches key envelope && retained key e) replayed
                then 0 else 1)).
  assert (Hkept : kept = filter (fun kv => retained kv.1 kv.2 = true) replayed).
  { unfold kept, prune_superseded_replay_keys. rewrite map_filter_filter.
    apply map_filter_ext. intros k e _. unfold retained. simpl.
    rewrite andb_true_iff, !negb_true_iff. tauto. }
  assert (Hany : replay_any (fun key e => replay_key_matches key envelope && retained key e) replayed
                 = replay_any (fun key e => replay_key_matches key envelope && retained key e) kept).
  { apply eq_true_iff_eq. rewrite !replay_any_true. rewrite Hkept.
    setoid_rewrite map_lookup_filter_Some. simpl. setoid_rewrite andb_true_iff. naive_solver. }
  rewrite <- Hkept, Hany. apply size_replay_insert. intros key e.
  rewrite Hkept, map_lookup_filter_Some. by intros [_ ?].
Qed.

Lemma commit_lengths envelope allocation self st :
  screened envelope allocation self st ->
  let self' := commit envelope st self in
  (N.of_nat (size (parents self')) <= max_parent_entries (capacity_limits self))%N /\
  (N.of_nat (size (routes self')) <= max_route_entries (capacity_limits self))%N /\
  (N.of_nat (size (replayed_adverts self')) <= max_replay_keys (capacity_limits self))%N.
Proof.
  intros Hsc. unfold commit. destruct (capacity_pressure self envelope st) eqn:Hp; simpl.
  - apply (sc_capacity _ _ _ _ Hsc) in Hp. unfold over_capacity, exceeds in Hp.
    apply orb_false_iff in Hp as [Hp H3%bool_decide_eq_false].
    apply orb_false_iff in Hp as [H1%bool_decide_eq_false H2%bool_decide_eq_false].
    rewrite !size_union_pruned. unfold projected_parent_len_after_prune, projected_route_len_after_prune in *.
    split_and!; [lia|lia|].
    pose proof (size_replay_pruned envelope (replayed_adverts self) (env_received_at envelope)
                  (ad_expires_at (env_advertisement envelope))) as Hsz.
    apply N.nlt_ge in H3. etrans; [|exact H3]. clear -Hsz.
    apply N2Z.inj_le. rewrite !nat_N_Z. by apply Nat2Z.inj_le.
  - unfold capacity_pressure, exceeds in Hp.
    apply orb_false_iff in Hp as [Hp H3%bool_decide_eq_false].
    apply orb_false_iff in Hp as [H1%bool_decide_eq_false H2%bool_decide_eq_false].
    rewrite !size_union_updates. unfold projected_physical_len in *. split_and!; [lia|lia|].
    pose proof (size_replay_insert envelope (fun _ _ => true) (replayed_adverts self)
                  (ad_expires_at (env_advertisement envelope))) as Hsz.
    assert (Hany : replay_any (fun key _ => replay_key_matches key envelope) (replayed_adverts self)
                   = replay_any (fun key _ => replay_key_matches key envelope && true) (replayed_adverts self)).
    { apply eq_true_iff_eq. rewrite !replay_any_true. by setoid_rewrite andb_true_r. }
    rewrite Hany in H3. specialize (Hsz (fun _ _ _ => eq_refl)). lia.
Qed.

Lemma commit_wf envelope allocation self st :
  envelope_ok envelope -> screened envelope allocation self st -> engine_wf self ->
  engine_wf (commit envelope st self).
Proof.
  intros [He Hv] Hsc Hwf. pose proof (commit_lengths _ _ _ _ Hsc) as (H1 & H2 & H3).
  assert (Hlimits : capacity_limits (commit envelope st self) = capacity_limits self)
    by (unfold commit; by destruct (capacity_pressure _ _ _)).
  split; [..|by rewrite Hlimits|by rewrite Hlimits|by rewrite Hlimits].
  - unfold commit. destruct (capacity_pressure _ _ _); simpl; apply map_Forall_union_2;
      try (eapply staged_parents_ok; [done|done|apply Hsc]);
      first [apply map_Forall_filter, Hwf|apply Hwf].
  - assert (Hnew : map_Forall (fun realm entry =>
        is_descendant_of realm (re_advertising_realm entry) = true /\
        next_hop_child realm (re_advertising_realm entry) = Some (re_next_hop_child entry))
        (route_updates st)).
    { intros realm e (r & Hr & <- & ->)%(sg_routes _ _ _ _ (sc_staged _ _ _ _ Hsc)).
      apply (sg_ok _ _ _ _ (sc_staged _ _ _ _ Hsc)) in Hr as []. done. }
    unfold commit. destruct (capacity_pressure _ _ _); simpl; apply map_Forall_union_2; try done;
      first [apply map_Forall_filter, Hwf|apply Hwf].
Qed.

(** The engine's calls that change its state. *)
Inductive engine_event :=
| EvAdmit (envelope : RouteAdvertisementEnvelope) (allocation : RouteNamespaceAllocation)
| EvPrune (now : N).

Definition apply_event (e : engine_event) (self : RouteTreeEngine) : RouteTreeEngine :=
  match e with
  | EvAdmit envelope allocation => (admit_advertisement envelope allocation self).2
  | EvPrune now => (prune_expired now self).2
  end.

Definition apply_events (es : list engine_event) (self : RouteTreeEngine) : RouteTreeEngine :=
  fold_left (fun self e => apply_event e self) es self.

Definition event_ok (e : engine_event) : Prop :=
  match e with EvAdmit envelope _ => envelope_ok envelope | EvPrune _ => True end.

Lemma apply_event_wf e self : event_ok e -> engine_wf self -> engine_wf (apply_event e self).
Proof.
  destruct e as [envelope allocation|now]; simpl; intros He Hwf; [|by apply prune_expired_wf].
  unfold admit_advertisement. destruct (screen _ _ _) as [st|] eqn:Hs; simpl; [|done].
  apply screen_ok in Hs. by eapply commit_wf.
Qed.

(** Whatever advertisements a new engine receives, its tables stay a tree:
    every parent entry sits one label below its parent, every route below
    its advertiser with the next hop on the way, and no table outgrows its
    capacity limit. *)
Theorem engine_invariant (root : RealmPath) (p : RealmControllerPlacement) (a b c : N)
    (es : list engine_event) :
  Forall event_ok es -> engine_wf (apply_events es (with_capacity_limits root p a b c)).
Proof.
  pose proof (with_capacity_limits_wf root p a b c) as Hwf. revert Hwf.
  generalize (with_capacity_limits root p a b c). unfold apply_events.
  induction es as [|e es IH]; intros self Hwf Hok; simpl; [done|].
  apply Forall_cons in Hok as [He Hok]. apply IH; [|done]. by apply apply_event_wf.
Qed.

(** ** Confinement *)

Lemma live_entry_kept {A : Type} (expires : A -> N) (now : N) (m : gmap RealmPath A) realm entry :
  m !! realm = Some entry -> is_expired (expires entry) now = false ->
  filter (fun kv => is_expired (expires kv.2) now = false) m !! realm = Some entry.
Proof. intros Hl He. by apply map_lookup_filter_Some. Qed.

Lemma commit_parents envelope st self realm entry :
  (parents (commit envelope st self) !! realm = Some entry ->
   parent_updates st !! realm = Some entry \/ parents self !! realm = Some entry) /\
  (parent_updates st !! realm = None -> parents self !! realm = Some entry ->
   is_expired (pe_expires_at entry) (env_received_at envelope) = false ->
   parents (commit envelope st self) !! realm = Some entry).
Proof.
  unfold commit. destruct (capacity_pressure self envelope st); simpl; split.
  - intros [Hl|[_ [Hl _]%map_lookup_filter_Some]]%lookup_union_Some_raw; auto.
  - intros Hn Hl He. apply lookup_union_Some_raw. right. split; [done|]. by apply live_entry_kept.
  - intros [Hl|[_ Hl]]%lookup_union_Some_raw; auto.
  - intros Hn Hl He. apply lookup_union_Some_raw. by right.
Qed.

Lemma commit_routes envelope st self realm entry :
  (routes (commit envelope st self) !! realm = Some entry ->
   route_updates st !! realm = Some entry \/ routes self !! realm = Some entry) /\
  (route_updates st !! realm = Some entry -> routes (commit envelope st self) !! realm = Some entry) /\
  (route_updates st !! realm = None -> routes self !! realm = Some entry ->
   is_expired (re_expires_at entry) (env_received_at envelope) = false ->
   routes (commit envelope st self) !! realm = Some entry).
Proof.
  unfold commit. destruct (capacity_pressure self envelope st); simpl; split_and!.
  - intros [Hl|[_ [Hl _]%map_lookup_filter_Some]]%lookup_union_Some_raw; auto.
  - intros Hl. apply lookup_union_Some_raw. by left.
  - intros Hn Hl He. apply lookup_union_Some_raw. right. split; [done|]. by apply live_entry_kept.
  - intros [Hl|[_ Hl]]%lookup_union_Some_raw; auto.
  - intros Hl. apply lookup_union_Some_raw. by left.
  - intros Hn Hl He. apply lookup_union_Some_raw. by right.
Qed.

Lemma commit_remembers envelope allocation self st :
  screened envelope allocation self st ->
  replayed_adverts (commit envelope st self) !! replay_key_of (env_advertisement envelope)
  = Some (ad_expires_at (env_advertisement envelope)).
Proof. intros _. unfold commit. simpl. apply lookup_insert_eq. Qed.

Lemma commit_edge envelope st self realm entry :
  parent_updates st !! realm = Some entry -> parents (commit envelope st self) !! realm = Some entry.
Proof. intros Hl. unfold commit. simpl. apply lookup_union_Some_raw. by left. Qed.

Lemma commit_frame envelope st self :
  local_root (commit envelope st self) = local_root self
  /\ placement (commit envelope st self) = placement self
  /\ capacity_limits (commit envelope st self) = capacity_limits self.
Proof. unfold commit. by destruct (capacity_pressure self envelope st). Qed.

Lemma commit_replayed envelope st self key expires_at :
  key <> replay_key_of (env_advertisement envelope) ->
  (replayed_adverts (commit envelope st self) !! key = Some expires_at ->
   replayed_adverts self !! key = Some expires_at) /\
  (replayed_adverts self !! key = Some expires_at ->
   is_expired expires_at (env_received_at envelope) = false ->
   is_superseded_replay_key key expires_at (env_advertisement envelope) = false ->
   replayed_adverts (commit envelope st self) !! key = Some expires_at).
Proof.
  intros Hne. unfold commit. destruct (capacity_pressure self envelope st); simpl;
    rewrite lookup_insert_ne by done; [|done]. unfold prune_superseded_replay_keys. split.
  - by intros [[Hl _]%map_lookup_filter_Some _]%map_lookup_filter_Some.
  - intros Hl He Hs. apply map_lookup_filter_Some. split; [|done].
    by apply map_lookup_filter_Some.
Qed.

(** C31. An accepted advertisement changes exactly what is its own.  It installs
    its routes, each below the advertiser, within the prefixes and under the
    capability ceiling its parent allocated.  It writes the edge of the
    advertiser and of each child its routes go through, dated as the
    advertisement is, and remembers the advertisement.  Every other route and
    edge that has not expired is still there as it was, nothing else appears,
    of the other remembered advertisements only expired and superseded ones may
    go, and the root, the placement and the limits stay.  A refused
    advertisement changes nothing. *)
Theorem admission_confined (envelope : RouteAdvertisementEnvelope)
    (allocation : RouteNamespaceAllocation) (self : RouteTreeEngine) :
  let adv := env_advertisement envelope in
  let now := env_received_at envelope in
  let '(admission, self') := admit_advertisement envelope allocation self in
  match admission_outcome admission with
  | Denied _ => self' = self
  | Accepted ids =>
      ids = rust_sort (map dr_route_id (ad_routes adv)) /\
      (forall route, route ∈ ad_routes adv -> route_ok adv allocation route /\
         routes self' !! dr_descendant route = Some (entry_of adv route)) /\
      (forall realm entry, realm ∉ map dr_descendant (ad_routes adv) ->
         (routes self' !! realm = Some entry -> routes self !! realm = Some entry) /\
         (routes self !! realm = Some entry -> is_expired (re_expires_at entry) now = false ->
          routes self' !! realm = Some entry)) /\
      (forall child, own_edge adv (ad_routes adv) child ->
         exists entry, parents self' !! child = Some entry /\ edge_from adv child entry) /\
      (forall child entry, ~ own_edge adv (ad_routes adv) child ->
         (parents self' !! child = Some entry -> parents self !! child = Some entry) /\
         (parents self !! child = Some entry -> is_expired (pe_expires_at entry) now = false ->
          parents self' !! child = Some entry)) /\
      replayed_adverts self' !! replay_key_of adv = Some (ad_expires_at adv) /\
      (forall key expires_at, key <> replay_key_of adv ->
         (replayed_adverts self' !! key = Some expires_at ->
          replayed_adverts self !! key = Some expires_at) /\
         (replayed_adverts self !! key = Some expires_at -> is_expired expires_at now = false ->
          is_superseded_replay_key key expires_at adv = false ->
          replayed_adverts self' !! key = Some expires_at)) /\
      local_root self' = local_root self /\ placement self' = placement self /\
      capacity_limits self' = capacity_limits self
  end.
Proof.
  intros adv now. unfold admit_advertisement.
  destruct (screen envelope allocation self) as [st|reason] eqn:Hs; simpl; [|done].
  apply screen_ok in Hs. pose proof (sc_staged _ _ _ _ Hs) as Hst. fold adv in Hst.
  split; [by rewrite (sg_ids _ _ _ _ Hst)|].
  assert (forall realm, realm ∉ map dr_descendant (ad_routes adv) -> route_updates st !! realm = None)
    as Hnone.
  { intros realm Hnot. destruct (route_updates st !! realm) as [e|] eqn:Hu; [|done].
    exfalso. apply Hnot. apply (sg_routes _ _ _ _ Hst) in Hu as (r & Hr & <- & _).
    by apply list_elem_of_fmap_2. }
  split_and!.
  - intros route Hr. split; [by apply Hst|].
    destruct (commit_routes envelope st self (dr_descendant route) (entry_of adv route)) as (_ & H & _).
    apply H, (sg_routes _ _ _ _ Hst). eauto.
  - intros realm entry Hnot%Hnone.
    destruct (commit_routes envelope st self realm entry) as (H1 & _ & H2).
    split; [|by apply H2]. intros Hl. destruct (H1 Hl); [congruence|done].
  - intros child Hown. apply (sg_edges _ _ _ _ Hst) in Hown as [entry He].
    exists entry. split; [by apply commit_edge|]. by apply (sg_parents _ _ _ _ Hst).
  - intros child entry Hown. rewrite <- (sg_edges _ _ _ _ Hst), <- eq_None_not_Some in Hown.
    destruct (commit_parents envelope st self child entry) as [H1 H2].
    split; [|by apply H2]. intros Hl. destruct (H1 Hl); [congruence|done].
  - by apply (commit_remembers envelope allocation self st).
  - intros key expires_at Hne. by apply commit_replayed.
  - apply commit_frame.
  - apply commit_frame.
  - apply commit_frame.
Qed.

(** ** Replay *)

Definition event_time (e : engine_event) : N :=
  match e with EvAdmit envelope _ => env_received_at envelope | EvPrune now => now end.

Fixpoint times_from (now : N) (es : list engine_event) : Prop :=
  match es with [] => True | e :: es => (now <= event_time e)%N /\ times_from (event_time e) es end.

Fixpoint last_time (now : N) (es : list engine_event) : N :=
  match es with [] => now | e :: es => last_time (event_time e) es end.

(** A newer advertisement of the same controller that lasts at least as long. *)
Definition supersedes (adv : RouteAdvertisement) (e : engine_event) : Prop :=
  match e with
  | EvAdmit envelope _ =>
      is_superseded_replay_key (replay_key_of adv) (ad_expires_at adv) (env_advertisement envelope) = true
  | EvPrune _ => False
  end.

(** The advertisement is remembered, or it has expired. *)
Definition remembered (adv : RouteAdvertisement) (now : N) (self : RouteTreeEngine) : Prop :=
  replayed_adverts self !! replay_key_of adv = Some (ad_expires_at adv) \/ (ad_expires_at adv <= now)%N.

Definition is_accepted (envelope : RouteAdvertisementEnvelope) (allocation : RouteNamespaceAllocation)
    (self : RouteTreeEngine) : bool :=
  is_ok (screen envelope allocation self).

Lemma is_expired_false expires_at now : is_expired expires_at now = false <-> (now < expires_at)%N.
Proof. unfold is_expired. rewrite bool_decide_eq_false. lia. Qed.

Lemma remembered_refused envelope allocation self :
  remembered (env_advertisement envelope) (env_received_at envelope) self ->
  is_accepted envelope allocation self = false.
Proof.
  intros Hrem. unfold is_accepted. destruct (screen envelope allocation self) as [st|] eqn:Hs; [|done].
  exfalso. apply screen_ok in Hs. pose proof (sc_fresh _ _ _ _ Hs). destruct Hrem as [Hl|Hexp]; [|lia].
  pose proof (sc_replay _ _ _ _ Hs) as Hany. apply not_true_iff_false in Hany. apply Hany.
  apply replay_any_true. eexists _, _. split; [exact Hl|].
  apply andb_true_iff. split; [by apply replay_key_matches_spec|].
  apply negb_true_iff, is_expired_false. done.
Qed.

Lemma remembered_event adv e now self :
  (now <= event_time e)%N -> ~ supersedes adv e -> remembered adv now self ->
  remembered adv (event_time e) (apply_event e self).
Proof.
  intros Ht Hns [Hl|Hexp]; [|right; lia].
  destruct (decide (ad_expires_at adv <= event_time e)%N) as [|Hlive]; [by right|]. left.
  assert (Hkept : filter (fun kv : ReplayKey * N => is_expired kv.2 (event_time e) = false)
                    (replayed_adverts self) !! replay_key_of adv = Some (ad_expires_at adv)).
  { apply map_lookup_filter_Some. split; [done|]. apply is_expired_false. simpl. lia. }
  destruct e as [envelope allocation|t]; simpl in *; [|done].
  unfold admit_advertisement. destruct (screen envelope allocation self) as [st|] eqn:Hs; simpl; [|done].
  destruct (decide (replay_key_of (env_advertisement envelope) = replay_key_of adv)) as [Heq|Hne].
  { exfalso. assert (is_accepted envelope allocation self = true) as Hacc by (unfold is_accepted; by rewrite Hs).
    apply screen_ok in Hs. pose proof (sc_replay _ _ _ _ Hs) as Hany.
    apply not_true_iff_false in Hany. apply Hany. apply replay_any_true. eexists _, _. split; [exact Hl|].
    apply andb_true_iff. split; [by apply replay_key_matches_spec|].
    apply negb_true_iff, is_expired_false. lia. }
  unfold commit. destruct (capacity_pressure self envelope st); simpl; rewrite lookup_insert_ne by done.
  - unfold prune_superseded_replay_keys. apply map_lookup_filter_Some. split; [done|]. simpl.
    by apply not_true_iff_false.
  - done.
Qed.

(** C32. Replay protection: an advertisement once accepted is never accepted
    again, however many other advertisements and prunings come in between at
    later times, as long as no newer one of the same controller supersedes
    its replay key. *)
Theorem replay_refused (envelope again : RouteAdvertisementEnvelope)
    (allocation allocation' : RouteNamespaceAllocation) (self : RouteTreeEngine)
    (es : list engine_event) :
  is_accepted envelope allocation self = true ->
  times_from (env_received_at envelope) es ->
  Forall (fun e => ~ supersedes (env_advertisement envelope) e) es ->
  env_advertisement again = env_advertisement envelope ->
  (last_time (env_received_at envelope) es <= env_received_at again)%N ->
  is_accepted again allocation'
    (apply_events es (admit_advertisement envelope allocation self).2) = false.
Proof.
  intros Hacc Htimes Hns Hsame Hlast. apply remembered_refused. rewrite Hsame.
  set (adv := env_advertisement envelope) in *.
  assert (Hgen : forall now self, remembered adv now self -> times_from now es ->
    (last_time now es <= env_received_at again)%N ->
    remembered adv (env_received_at again) (apply_events es self)).
  { clear -Hns. induction es as [|e es IH]; intros now self Hr Ht Hl; simpl in *.
    - destruct Hr as [Hr|Hr]; [by left|]. right. lia.
    - apply Forall_cons in Hns as [He Hns]. destruct Ht as [Ht1 Ht2].
      apply (IH Hns (event_time e)); [by apply (remembered_event adv e now)|done|done]. }
  apply (Hgen (env_received_at envelope)); [|done|done]. left.
  unfold is_accepted in Hacc. unfold admit_advertisement.
  destruct (screen envelope allocation self) as [st|] eqn:Hs; [|done]. simpl.
  apply screen_ok in Hs. by eapply commit_remembers.
Qed.

(** ** Shortcuts and the discovery queue *)

Lemma build_path_ends self source target now path :
  build_path_at self source target now = Ok path ->
  path_source_realm path = source /\ path_target_realm path = target.
Proof.
  unfold build_path_at. destruct (_ || _); [done|].
  destruct (nearest_common_ancestor _ _); [|done]. destruct (walk_up _ _ _ _ _ _ _); [|done].
  destruct (walk_down _ _ _ _ _); [|done].
  destruct (TreeRoutePath_new _ _ _ _) eqn:H; [|done]. intros [= <-]. unfold TreeRoutePath_new in H.
  repeat match type of H with (if ?b then _ else _) = _ => destruct b; [done|] end. by injection H as <-.
Qed.

(** A direct shortcut is authorized exactly when it is requested within its
    own validity window, policy allows it and the tree route itself is
    allowed; the authorization then carries that very tree path. *)
Theorem shortcut_exact (self : RouteTreeEngine) (now : N)
    (request : DirectShortcutAuthorizationRequest) :
  let outcome := decide_outcome_at self now (sr_source_realm request) (sr_target_realm request)
                   (sr_operation_kind request) in
  ((exists metadata decision event,
      decide_direct_shortcut self now request = ShortcutAuthorized metadata decision event) <->
   (sr_issued_at request <= now < sr_expires_at request)%N /\ sr_allow_direct_shortcut request = true /\
   exists path, outcome = Route_Allowed path) /\
  (forall metadata decision event,
     decide_direct_shortcut self now request = ShortcutAuthorized metadata decision event ->
     outcome = Route_Allowed (ds_authorized_tree_path metadata) /\
     ds_source_realm metadata = sr_source_realm request /\
     ds_target_realm metadata = sr_target_realm request /\
     DirectShortcutAuthorizationMetadata_new metadata = Some metadata).
Proof.
  intros outcome.
  assert (Hpath : forall path, outcome = Route_Allowed path ->
    path_source_realm path = sr_source_realm request /\ path_target_realm path = sr_target_realm request).
  { intros path. unfold outcome, decide_outcome_at.
    destruct (build_path_at _ _ _ _) as [p|] eqn:Hb; [|done]. apply build_path_ends in Hb.
    destruct (OperationKind_required_capability _); [destruct (negb _); [done|]|]; by intros [= <-]. }
  unfold decide_direct_shortcut, shortcut_time_reason. cbn [decide_route_at fst trd_outcome]. fold outcome.
  repeat case_bool_decide; try (split; [split; [naive_solver|intros (? & _); lia]|done]).
  destruct outcome as [path|reason] eqn:Ho; [|split; [split; naive_solver|done]].
  destruct (sr_allow_direct_shortcut request); cbn [negb]; [|split; [split; naive_solver|done]].
  destruct (Hpath path eq_refl) as [Hsrc Htgt].
  unfold DirectShortcutAuthorizationMetadata_new at 1 2 3. cbn. rewrite Hsrc, Htgt.
  rewrite !bool_decide_false by first [lia|naive_solver]. cbn. split.
  - split; [|eauto]. intros _. split_and!; [lia|lia|done|by exists path].
  - intros metadata decision event [= <- <- <-]. cbn. split_and!; [done..|].
    unfold DirectShortcutAuthorizationMetadata_new. cbn. rewrite Hsrc, Htgt.
    by rewrite !bool_decide_false by first [lia|naive_solver].
Qed.

(** The queue never grows past its limit, and an item is queued exactly when
    there is room and neither rate limit is reached. *)
Lemma discovery_queue_bounded policy depth relay peer :
  (depth <= max_depth policy)%N ->
  let decision := decide_discovery_queue policy depth relay peer in
  (queue_depth_after decision <= max_depth policy)%N /\
  (dq_outcome decision = PreAuth_Queued <->
   (depth < max_depth policy)%N /\ (relay < per_relay_rate_limit_per_minute policy)%N /\
   (peer < per_unverified_peer_rate_limit_per_minute policy)%N) /\
  (dq_outcome decision = PreAuth_Queued -> queue_depth_after decision = (depth + 1)%N) /\
  (dq_outcome decision <> PreAuth_Queued -> queue_depth_after decision = depth).
Proof.
  intros Hd. unfold decide_discovery_queue. destruct (drop_policy policy).
  repeat case_bool_decide; cbn; split_and!; try done; try lia; split; try done; lia.
Qed.

(** ** Concrete runs *)

Definition demo_root : RealmPath := ["root"].
Definition demo_child : RealmPath := ["a"; "root"].
Definition demo_leaf : RealmPath := ["b"; "a"; "root"].
Definition demo_deep : RealmPath := ["c"; "b"; "a"; "root"].
Definition demo_edge : RealmTreeEdge := mkRealmTreeEdge demo_root demo_child.

Definition demo_allocation (ceiling : list Capability) : RouteNamespaceAllocation :=
  mkRouteNamespaceAllocation demo_edge "gen-1" [demo_child] 8 (CapabilitySet_from_caps ceiling).

Definition demo_advertisement (descendant : RealmPath) (caps : list Capability) (issued expires : N)
    (signature : string) : RouteAdvertisement :=
  mkRouteAdvertisement demo_child demo_edge "gen-1"
    [mkDescendantRoute "route-1" descendant "b" (CapabilitySet_from_caps caps)] issued expires
    (mkRouteSignature "ed25519" ControllerGeneration "sha256" signature).

Definition demo_envelope (advertisement : RouteAdvertisement) (received : N) :
    RouteAdvertisementEnvelope :=
  mkRouteAdvertisementEnvelope
    (mkUnverifiedPeerAdmissionAttemptMetadata "op-1" "corr-1" None "peer-1"
       DiscoveryIngressClass_ChildRelay None 1 PreAuth_Queued)
    (mkReplayWindowMetadata "window-1" 10 0 60 0 0) "corr-1" None advertisement received.

Definition demo_engine (max_replay : N) : RouteTreeEngine :=
  with_capacity_limits demo_root Placement_HostLocal 8 8 max_replay.

Definition demo_admit (descendant : RealmPath) (caps ceiling : list Capability) (issued expires : N)
    (signature : string) (received : N) : engine_event :=
  EvAdmit (demo_envelope (demo_advertisement descendant caps issued expires signature) received)
    (demo_allocation ceiling).

Lemma demo_envelope_ok descendant caps issued expires signature received :
  envelope_ok (demo_envelope (demo_advertisement descendant caps issued expires signature) received).
Proof. split; [by exists "a"|]. by vm_compute. Qed.

(** The advertisement the run below replays. *)
Definition demo_first : RouteAdvertisement :=
  demo_advertisement demo_leaf [Capability_Exec] 1 100 "sig-1".

(** Three newer advertisements of the same controller: under pressure the third
    drops the replay key of the first, and the fourth shortens the edge. *)
Definition demo_between : list engine_event :=
  [demo_admit demo_leaf [] [] 2 100 "sig-2" 2;
   demo_admit demo_leaf [] [] 3 100 "sig-3" 3;
   demo_admit demo_leaf [] [] 4 10 "sig-4" 4].

(** Superseding a replay key loses replay protection: with room for two
    replay keys, the first advertisement of a controller is accepted, three
    newer ones follow, and once the last of them has expired the first is
    accepted again and its capability is back in the route table. *)
Theorem superseded_replay_accepted :
  let env := demo_envelope demo_first 1 in
  let alloc := demo_allocation [Capability_Exec] in
  let later := apply_events demo_between (admit_advertisement env alloc (demo_engine 2)).2 in
  let again := demo_envelope demo_first 20 in
  is_accepted env alloc (demo_engine 2) = true /\
  times_from (env_received_at env) demo_between /\
  (last_time (env_received_at env) demo_between <= env_received_at again)%N /\
  target_has_capability_at later demo_leaf Capability_Exec 5 = false /\
  is_accepted again alloc later = true /\
  target_has_capability_at (admit_advertisement again alloc later).2 demo_leaf Capability_Exec 20 = true.
Proof. vm_compute. repeat split; discriminate. Qed.

(** The capability ceiling of a renewed allocation does not reach an edge the
    advertiser only passes through: a leaf advertised with the exec
    capability keeps it, past the expiry of that route and under a ceiling
    without exec, because a newer advertisement of a realm below the leaf
    renews the leaf's edge with its old capabilities. *)
Theorem stale_capability_kept :
  let es := [demo_admit demo_leaf [Capability_Exec] [Capability_Exec] 1 10 "sig-1" 1;
             demo_admit demo_deep [] [] 2 100 "sig-2" 2] in
  let self := apply_events es (demo_engine 8) in
  CapabilitySet_has (na_capability_ceiling (demo_allocation [])) Capability_Exec = false /\
  route_entry_at self demo_leaf 20 = None /\
  exists path, decide_outcome_at self 20 demo_root demo_leaf OperationKind_ExecStart = Route_Allowed path.
Proof. vm_compute. split; [done|]. split; [done|]. by eexists. Qed.

Lemma decide_route_exact_witness :
  let self := apply_events [demo_admit demo_leaf [Capability_Exec] [Capability_Exec] 1 10 "sig-1" 1]
                (demo_engine 8) in
  decide_outcome_at self 5 demo_root demo_leaf OperationKind_ExecStart
  = Route_Allowed (tree_path self 5 [] ["b"; "a"] demo_root).
Proof.
  intros self.
  assert (Hok : parents_ok (parents self)).
  { apply ew_parents. apply apply_event_wf; [apply demo_envelope_ok|apply with_capacity_limits_wf]. }
  destruct (decide_route_exact self 5 demo_root demo_leaf OperationKind_ExecStart Hok) as [Hiff _];
    [by vm_compute|by vm_compute|]. apply Hiff. split.
  - intros c Hc. vm_compute in Hc. injection Hc as <-. by vm_compute.
  - exists [], ["b"; "a"], demo_root. split; [|done]. split.
    + by vm_compute.
    + by vm_compute.
    + done.
    + by split_and!.
    + done.
    + vm_compute. eauto.
Defined.

Lemma engine_invariant_witness :
  engine_wf (apply_events [demo_admit demo_leaf [Capability_Exec] [Capability_Exec] 1 10 "sig-1" 1;
                           EvPrune 5] (demo_engine 8)).
Proof.
  apply engine_invariant. apply Forall_cons. split; [apply demo_envelope_ok|]. by apply Forall_cons.
Defined.

Lemma replay_refused_witness :
  is_accepted (demo_envelope demo_first 20) (demo_allocation [Capability_Exec])
    (apply_events [EvPrune 10] (admit_advertisement (demo_envelope demo_first 1)
                                  (demo_allocation [Capability_Exec]) (demo_engine 2)).2) = false.
Proof.
  apply (replay_refused (demo_envelope demo_first 1)).
  - by vm_compute.
  - by vm_compute.
  - apply Forall_singleton. by intros H.
  - done.
  - by vm_compute.
Defined.

End RouteTreeEngine.
