(* ===== verification/Dag.v ===== *)
(** * The per-VM process DAG

    [packages/d2bd/src/supervisor/dag.rs]: topological sort of a VM's process
    DAG and the executor that drives it through a node runner.  The runner is
    an interface ([Class NodeRunner]) over a state of its own: the broker, the
    pidfd table and the readiness probes are behind it, and the theorems hold
    for every runner.  The DAG's types are those of
    [packages/d2b-core/src/processes.rs]; the fields of a node the executor
    only hands on to the runner are one parameter. *)

From S2P Require Import Prelude.

Module Dag.

(** ** Data *)

Abbreviation NodeId := string (only parsing).

Inductive ReadinessPredicate :=
| ApiSocketInfo (path : string)
| VsockNotify (name : string)
| UnixSocketExists (path : string)
| UnixSocketListening (path : string)
| TcpPort (host : string) (port : N)
| Command (argv : list string)
| ComponentSpecific (name : string)
| GuestControlHealth (vm : string).

Record ProcessNode (R : Type) := mkProcessNode {
  node_id : NodeId;
  node_rest : R;
  node_readiness : list ReadinessPredicate
}.
Arguments mkProcessNode {R}.
Arguments node_id {R}.
Arguments node_rest {R}.
Arguments node_readiness {R}.

Record DagEdge := mkDagEdge { edge_from : NodeId; edge_to : NodeId; edge_reason : string }.

#[global] Instance DagEdge_eq_dec : EqDecision DagEdge.
Proof. solve_decision. Defined.

Record VmProcessDag (R : Type) := mkVmProcessDag {
  dag_vm : string;
  dag_nodes : list (ProcessNode R);
  dag_edges : list DagEdge
}.
Arguments mkVmProcessDag {R}.
Arguments dag_vm {R}.
Arguments dag_nodes {R}.
Arguments dag_edges {R}.

Inductive NodeOutcome :=
| Ready
| Failed (reason : string)
| Skipped (predecessor : NodeId).

Record NodeHistory := mkNodeHistory { nh_node_id : NodeId; nh_outcome : NodeOutcome }.

Inductive ApiReadyState :=
| ApiReady_Yes
| ApiReady_Pending
| ApiReady_Timeout
| ApiReady_Error (reason : string).

(** The serialized forms of [ApiReadyState]: a string or [{"error": reason}]. *)
Inductive api_ready_json := JsonUnit (value : string) | JsonError (reason : string).

Definition ApiReadyState_serialize (self : ApiReadyState) : api_ready_json :=
  match self with
  | ApiReady_Yes => JsonUnit "yes"
  | ApiReady_Pending => JsonUnit "pending"
  | ApiReady_Timeout => JsonUnit "timeout"
  | ApiReady_Error reason => JsonError reason
  end.

Definition ApiReadyState_deserialize (json : api_ready_json) : option ApiReadyState :=
  match json with
  | JsonUnit value =>
      if String.eqb value "yes" then Some ApiReady_Yes
      else if String.eqb value "pending" then Some ApiReady_Pending
      else if String.eqb value "timeout" then Some ApiReady_Timeout
      else None
  | JsonError reason => Some (ApiReady_Error reason)
  end.

Record DagRunReport := mkDagRunReport {
  report_vm : string;
  history : list NodeHistory;
  overall_ok : bool;
  api_ready : option ApiReadyState
}.

Inductive DagError :=
| Cycle (residual_nodes : list NodeId)
| UnknownNode (edge : DagEdge)
| DuplicateNode (id : NodeId).

Record NodeBudget := mkNodeBudget { spawn_ms : N; readiness_ms : N }.

Definition NodeBudget_default : NodeBudget := mkNodeBudget 10000 30000.

Inductive SplitReadinessMode := Strict | NoWaitApi.

(** ** Topological sort *)

(** Step 1: the node ids, or the first id that occurs twice. *)
Fixpoint collect_ids (ids : list NodeId) (id_set : gset NodeId) : result (gset NodeId) DagError :=
  match ids with
  | [] => Ok id_set
  | id :: ids =>
      if bool_decide (id ∈ id_set) then Err (DuplicateNode id)
      else collect_ids ids ({[id]} ∪ id_set)
  end.

(** Step 2: adjacency lists and in-degrees. *)
Fixpoint add_edges (edges : list DagEdge) (id_set : gset NodeId) (in_degree : gmap NodeId nat)
    (adjacency : gmap NodeId (list NodeId)) :
    result (gmap NodeId nat * gmap NodeId (list NodeId)) DagError :=
  match edges with
  | [] => Ok (in_degree, adjacency)
  | edge :: edges =>
      if bool_decide (edge_from edge ∉ id_set) then Err (UnknownNode edge)
      else if bool_decide (edge_to edge ∉ id_set) then Err (UnknownNode edge)
      else add_edges edges id_set
             (<[edge_to edge := default 0 (in_degree !! edge_to edge) + 1]> in_degree)
             (<[edge_from edge := default [] (adjacency !! edge_from edge) ++ [edge_to edge]]> adjacency)
  end.

(** The [for n in next] loop over the successors of an emitted node. *)
Fixpoint relax (next : list NodeId) (sorted queue : list NodeId) (in_degree : gmap NodeId nat) :
    list NodeId * gmap NodeId nat :=
  match next with
  | [] => (queue, in_degree)
  | n :: next =>
      let entry := default 0 (in_degree !! n) in
      let entry := if bool_decide (0 < entry) then entry - 1 else entry in
      let queue := if bool_decide (entry = 0) && bool_decide (n ∉ sorted) && bool_decide (n ∉ queue)
                   then queue ++ [n] else queue in
      relax next sorted queue (<[n := entry]> in_degree)
  end.

(** Step 3, the [while let Some(id) = queue.pop_front()] loop: every round emits
    a node that was not emitted before, which bounds the rounds. *)
Fixpoint kahn (fuel : nat) (adjacency : gmap NodeId (list NodeId)) (queue sorted : list NodeId)
    (in_degree : gmap NodeId nat) : list NodeId :=
  match fuel with
  | O => sorted
  | S fuel =>
      match queue with
      | [] => sorted
      | id :: queue =>
          let sorted := sorted ++ [id] in
          match adjacency !! id with
          | None => kahn fuel adjacency queue sorted in_degree
          | Some neighbours =>
              let '(queue, in_degree) := relax (rust_sort neighbours) sorted queue in_degree in
              kahn fuel adjacency queue sorted in_degree
          end
      end
  end.

Definition zero_degrees (ids : list NodeId) : gmap NodeId nat := list_to_map (map (fun id => (id, 0)) ids).

Definition topo_sort {R} (dag : VmProcessDag R) : result (list NodeId) DagError :=
  let ids := map node_id (dag_nodes dag) in
  match collect_ids ids ∅ with
  | Err e => Err e
  | Ok id_set =>
      match add_edges (dag_edges dag) id_set (zero_degrees ids) ∅ with
      | Err e => Err e
      | Ok (in_degree, adjacency) =>
          let queue := btree_keys (filter (fun kv => kv.2 = 0) in_degree) in
          let sorted := kahn (S (length ids)) adjacency queue [] in_degree in
          if bool_decide (length sorted <> length ids)
          then Err (Cycle (List.filter (fun id => bool_decide (id ∉ sorted)) ids))
          else Ok sorted
      end
  end.

(** ** The executor *)

(** What the executor asks of a runner, over the runner's own state. *)
Class NodeRunner (R S : Type) := {
  spawn_and_wait_ready :
    string -> ProcessNode R -> list ReadinessPredicate -> NodeBudget -> handler S string unit;
  spawn_and_check_process_alive :
    string -> ProcessNode R -> NodeBudget -> handler S string unit;
  probe_api_ready :
    string -> ProcessNode R -> list ReadinessPredicate -> N -> S -> ApiReadyState * S
}.

Definition is_api_socket_info (predicate : ReadinessPredicate) : bool :=
  match predicate with ApiSocketInfo _ => true | _ => false end.

Definition uses_split_readiness (readiness : list ReadinessPredicate) : bool :=
  existsb is_api_socket_info readiness.

Section executor.
Context {R S : Type} `{NodeRunner R S}.
Variable budget : NodeBudget.

(** The history, the failed node and the overall flag the loops carry. *)
Record progress := mkProgress {
  pr_history : list NodeHistory;
  pr_failed : option NodeId;
  pr_ok : bool;
  pr_api_ready : option ApiReadyState;
  pr_no_wait_completed : bool
}.

Definition start : progress := mkProgress [] None true None false.

Definition push_history (id : NodeId) (outcome : NodeOutcome) (p : progress) : progress :=
  mkProgress (pr_history p ++ [mkNodeHistory id outcome]) (pr_failed p) (pr_ok p) (pr_api_ready p)
    (pr_no_wait_completed p).

Definition record_result (id : NodeId) (r : result unit string) (p : progress) : progress :=
  match r with
  | Ok _ => push_history id Ready p
  | Err reason =>
      push_history id (Failed reason)
        (mkProgress (pr_history p) (Some id) false (pr_api_ready p) (pr_no_wait_completed p))
  end.

(** [nodes_by_id]: a later node of the same id would replace an earlier one. *)
Definition nodes_by_id (dag : VmProcessDag R) : gmap NodeId (ProcessNode R) :=
  fold_left (fun m n => <[node_id n := n]> m) (dag_nodes dag) ∅.

(** The loop of [run]; [None] is the panic of the [expect]. *)
Fixpoint run_nodes (vm : string) (nodes : gmap NodeId (ProcessNode R)) (order : list NodeId)
    (p : progress) (s : S) : option (progress * S) :=
  match order with
  | [] => Some (p, s)
  | id :: order =>
      match pr_failed p with
      | Some failed => run_nodes vm nodes order (push_history id (Skipped failed) p) s
      | None =>
          node ← nodes !! id;
          let '(r, s) := spawn_and_wait_ready vm node (node_readiness node) budget s in
          run_nodes vm nodes order (record_result id r p) s
      end
  end.

Definition run (dag : VmProcessDag R) (s : S) : option (result DagRunReport DagError * S) :=
  match topo_sort dag with
  | Err e => Some (Err e, s)
  | Ok order =>
      '(p, s) ← run_nodes (dag_vm dag) (nodes_by_id dag) order start s;
      Some (Ok (mkDagRunReport (dag_vm dag) (pr_history p) (pr_ok p) None), s)
  end.

(** What the strict mode makes of the probed state. *)
Definition api_state_result (state : ApiReadyState) : result unit string :=
  match state with
  | ApiReady_Yes => Ok tt
  | ApiReady_Pending => Err "api-ready pending"
  | ApiReady_Timeout => Err "api-ready timeout"
  | ApiReady_Error reason => Err ("api-ready error: " +:+ reason)
  end.

(** One node of [run_split]: the result, the api-ready state it sets, whether
    it ends the run without waiting, and the runner's state. *)
Definition run_split_node (vm : string) (node : ProcessNode R) (mode : SplitReadinessMode)
    (api_timeout : N) (s : S) : result unit string * option ApiReadyState * bool * S :=
  if uses_split_readiness (node_readiness node) then
    match spawn_and_check_process_alive vm node budget s with
    | (Err reason, s) => (Err reason, None, false, s)
    | (Ok _, s) =>
        match mode with
        | NoWaitApi => (Ok tt, Some ApiReady_Pending, true, s)
        | Strict =>
            let '(state, s) := probe_api_ready vm node (node_readiness node) api_timeout s in
            (api_state_result state, Some state, false, s)
        end
    end
  else
    let '(r, s) := spawn_and_wait_ready vm node (node_readiness node) budget s in
    (r, None, false, s).

Fixpoint run_split_nodes (vm : string) (nodes : gmap NodeId (ProcessNode R)) (mode : SplitReadinessMode)
    (api_timeout : N) (order : list NodeId) (p : progress) (s : S) : option (progress * S) :=
  match order with
  | [] => Some (p, s)
  | id :: order =>
      if pr_no_wait_completed p then run_split_nodes vm nodes mode api_timeout order p s
      else match pr_failed p with
      | Some failed =>
          run_split_nodes vm nodes mode api_timeout order (push_history id (Skipped failed) p) s
      | None =>
          node ← nodes !! id;
          let '(r, state, done, s) := run_split_node vm node mode api_timeout s in
          let p := mkProgress (pr_history p) (pr_failed p) (pr_ok p)
                     (match state with Some _ => state | None => pr_api_ready p end) done in
          run_split_nodes vm nodes mode api_timeout order (record_result id r p) s
      end
  end.

Definition run_split (dag : VmProcessDag R) (mode : SplitReadinessMode) (api_timeout : N) (s : S) :
    option (result DagRunReport DagError * S) :=
  match topo_sort dag with
  | Err e => Some (Err e, s)
  | Ok order =>
      '(p, s) ← run_split_nodes (dag_vm dag) (nodes_by_id dag) mode api_timeout order start s;
      Some (Ok (mkDagRunReport (dag_vm dag) (pr_history p) (pr_ok p) (pr_api_ready p)), s)
  end.

End executor.

(** ** Counting edges *)

Definition occ (n : NodeId) (l : list NodeId) : nat :=
  length (List.filter (fun x => bool_decide (x = n)) l).

Lemma occ_cons n x l : occ n (x :: l) = (if bool_decide (x = n) then 1 else 0) + occ n l.
Proof. unfold occ. simpl. by case_bool_decide. Qed.

Lemma occ_perm n l k : l ≡ₚ k -> occ n l = occ n k.
Proof. intros Hp. induction Hp; rewrite ?occ_cons in *; lia. Qed.

Lemma occ_pos n l : 0 < occ n l <-> n ∈ l.
Proof.
  induction l as [|x l IH]; [unfold occ; simpl; rewrite elem_of_nil; lia|].
  rewrite occ_cons, elem_of_cons, <- IH. case_bool_decide; split; intros; try lia; naive_solver.
Qed.

Definition degree (in_degree : gmap NodeId nat) (n : NodeId) : nat := default 0 (in_degree !! n).

(** The edges into [n] whose source was not emitted. *)
Definition pending (edges : list DagEdge) (sorted : list NodeId) (n : NodeId) : nat :=
  length (List.filter (fun e => bool_decide (edge_to e = n) && bool_decide (edge_from e ∉ sorted)) edges).

Definition successors (edges : list DagEdge) (id : NodeId) : list NodeId :=
  map edge_to (List.filter (fun e => bool_decide (edge_from e = id)) edges).

Lemma pending_pos edges sorted n :
  pending edges sorted n <> 0 ->
  exists e, e ∈ edges /\ edge_to e = n /\ edge_from e ∉ sorted.
Proof.
  unfold pending. destruct (List.filter _ edges) as [|e l] eqn:Hf; [done|]. intros _.
  assert (Hin : In e (e :: l)) by by left. rewrite <- Hf in Hin.
  apply List.filter_In in Hin as [Hin [Hto%bool_decide_eq_true Hn%bool_decide_eq_true]%andb_true_iff].
  exists e. split; [by apply list_elem_of_In|done].
Qed.

Lemma pending_zero edges sorted n :
  pending edges sorted n = 0 <-> forall e, e ∈ edges -> edge_to e = n -> edge_from e ∈ sorted.
Proof.
  split.
  - unfold pending. intros Hnil%length_zero_iff_nil e He Hto.
    destruct (decide (edge_from e ∈ sorted)) as [|Hn]; [done|]. exfalso. apply list_elem_of_In in He.
    assert (Hin : In e (List.filter (fun e => bool_decide (edge_to e = n)
                          && bool_decide (edge_from e ∉ sorted)) edges)).
    { apply List.filter_In. split; [done|]. by rewrite !bool_decide_true. }
    by rewrite Hnil in Hin.
  - intros Hall. destruct (decide (pending edges sorted n = 0)) as [|Hp]; [done|]. exfalso.
    apply pending_pos in Hp as (e & He & Hto & Hn). by apply Hn, Hall.
Qed.

Lemma pending_snoc edges sorted id n :
  id ∉ sorted -> pending edges sorted n = pending edges (sorted ++ [id]) n + occ n (successors edges id).
Proof.
  intros Hid. unfold pending, successors. induction edges as [|e edges IH]; [done|]. simpl.
  destruct (decide (edge_to e = n)) as [Hto|Hto].
  - rewrite (bool_decide_true (edge_to e = n)) by done. cbn [andb].
    destruct (decide (edge_from e = id)) as [Hfrom|Hfrom].
    + rewrite (bool_decide_true (edge_from e = id)) by done. cbn [map]. rewrite occ_cons.
      rewrite (bool_decide_true (edge_to e = n)) by done.
      rewrite bool_decide_true by congruence. rewrite (bool_decide_false (edge_from e ∉ _)) by set_solver.
      simpl. lia.
    + rewrite (bool_decide_false (edge_from e = id)) by done.
      rewrite (bool_decide_ext (edge_from e ∉ sorted ++ [id]) (edge_from e ∉ sorted)) by set_solver.
      case_bool_decide; simpl; lia.
  - rewrite !(bool_decide_false (edge_to e = n)) by done. cbn [andb].
    destruct (decide (edge_from e = id)) as [Hfrom|Hfrom].
    + rewrite (bool_decide_true (edge_from e = id)) by done. cbn [map]. rewrite occ_cons.
      rewrite (bool_decide_false (edge_to e = n)) by done. simpl. lia.
    + by rewrite (bool_decide_false (edge_from e = id)) by done.
Qed.

Lemma pending_nil edges n : pending edges [] n = length (List.filter (fun e => bool_decide (edge_to e = n)) edges).
Proof.
  unfold pending. f_equal. apply List.filter_ext. intros e.
  rewrite (bool_decide_true (_ ∉ [])) by apply not_elem_of_nil. by rewrite andb_true_r.
Qed.

(** ** The loops of the sort *)

Lemma collect_ids_spec ids seen :
  match collect_ids ids seen with
  | Ok id_set => NoDup ids /\ (forall id, id ∈ ids -> id ∉ seen) /\ id_set = list_to_set ids ∪ seen
  | Err e => exists pre id post, ids = pre ++ id :: post /\ e = DuplicateNode id /\
               (id ∈ pre \/ id ∈ seen)
  end.
Proof.
  revert seen. induction ids as [|id ids IH]; intros seen; simpl.
  - split_and!; [apply NoDup_nil_2|set_solver|set_solver].
  - case_bool_decide as Hin.
    + exists [], id, ids. auto.
    + specialize (IH ({[id]} ∪ seen)). destruct (collect_ids ids ({[id]} ∪ seen)) as [id_set|e].
      * destruct IH as (Hnd & Hnot & ->). split_and!.
        -- apply NoDup_cons. split; [|done]. intros H. apply Hnot in H. set_solver.
        -- set_solver.
        -- set_solver.
      * destruct IH as (pre & id' & post & -> & -> & Hor). exists (id :: pre), id', post.
        split_and!; [done|done|]. set_solver.
Qed.

Lemma add_edges_spec edges id_set deg0 adj0 :
  match add_edges edges id_set deg0 adj0 with
  | Ok (deg, adj) =>
      (forall e, e ∈ edges -> edge_from e ∈ id_set /\ edge_to e ∈ id_set) /\
      (forall n, degree deg n = degree deg0 n
         + length (List.filter (fun e => bool_decide (edge_to e = n)) edges)) /\
      (forall id, default [] (adj !! id) = default [] (adj0 !! id) ++ successors edges id) /\
      dom deg = dom deg0 ∪ list_to_set (map edge_to edges)
  | Err e => exists edge, e = UnknownNode edge /\ edge ∈ edges /\
               (edge_from edge ∉ id_set \/ edge_to edge ∉ id_set)
  end.
Proof.
  revert deg0 adj0. induction edges as [|edge edges IH]; intros deg0 adj0; simpl.
  { split_and!; [set_solver|intros; lia|intros; by rewrite app_nil_r|set_solver]. }
  case_bool_decide as Hf; [exists edge; set_solver|].
  case_bool_decide as Ht; [exists edge; set_solver|].
  match goal with |- context[add_edges edges id_set ?d ?a] => specialize (IH d a);
    destruct (add_edges edges id_set d a) as [[deg adj]|e] end.
  - destruct IH as (Hin & Hdeg & Hadj & Hdom). split_and!.
    + set_solver.
    + intros n. rewrite Hdeg. unfold degree. destruct (decide (edge_to edge = n)) as [<-|Hne].
      * rewrite lookup_insert_eq, bool_decide_true by done. simpl. lia.
      * by rewrite lookup_insert_ne, bool_decide_false by done.
    + intros id. rewrite Hadj. unfold successors. simpl.
      destruct (decide (edge_from edge = id)) as [<-|Hne].
      * rewrite lookup_insert_eq, bool_decide_true by done. simpl. by rewrite <- app_assoc.
      * by rewrite lookup_insert_ne, bool_decide_false by done.
    + rewrite Hdom. set_solver.
  - destruct IH as (e' & -> & Hin & Hor). exists e'. set_solver.
Qed.

Lemma relax_spec next sorted queue deg queue' deg' :
  relax next sorted queue deg = (queue', deg') -> (forall n, occ n next <= degree deg n) ->
  (forall n, degree deg' n = degree deg n - occ n next) /\
  exists new, queue' = queue ++ new /\ NoDup new /\
    forall n, n ∈ new <-> n ∈ next /\ degree deg' n = 0 /\ (n ∉ sorted) /\ n ∉ queue.
Proof.
  revert queue deg. induction next as [|m next IH]; intros queue deg; simpl.
  { intros [= <- <-] _. split; [intros n; unfold occ; simpl; lia|]. exists [].
    rewrite app_nil_r. split_and!; [done|apply NoDup_nil_2|]. set_solver. }
  intros Hr Hocc.
  assert (Hm : 1 + occ m next <= degree deg m)
    by (specialize (Hocc m); by rewrite occ_cons, bool_decide_true in Hocc).
  fold (degree deg m) in Hr. rewrite (bool_decide_true (0 < degree deg m)) in Hr by lia.
  set (deg1 := <[m := degree deg m - 1]> deg) in *.
  assert (Hd1 : forall n, degree deg1 n = degree deg n - (if bool_decide (m = n) then 1 else 0)).
  { intros n. change (degree deg1 n) with (default 0 (<[m := degree deg m - 1]> deg !! n)).
    destruct (decide (m = n)) as [Heq|Hne].
    - rewrite bool_decide_true by done. by rewrite Heq, lookup_insert_eq.
    - rewrite bool_decide_false, lookup_insert_ne by done. unfold degree. lia. }
  assert (Hocc1 : forall n, occ n next <= degree deg1 n).
  { intros n. rewrite Hd1. specialize (Hocc n). rewrite occ_cons in Hocc.
    destruct (bool_decide (m = n)); lia. }
  match type of Hr with relax _ _ ?q _ = _ => set (queue1 := q) in Hr end.
  destruct (IH queue1 deg1 Hr Hocc1) as (Hdeg & new & -> & Hnd & Hnew).
  split; [intros n; rewrite Hdeg, Hd1, occ_cons; lia|].
  destruct (bool_decide (degree deg m - 1 = 0) && bool_decide (m ∉ sorted) && bool_decide (m ∉ queue))
    eqn:Hpush; subst queue1.
  - apply andb_true_iff in Hpush as [Hpush Hq%bool_decide_eq_true].
    apply andb_true_iff in Hpush as [Hz%bool_decide_eq_true Hs%bool_decide_eq_true].
    exists (m :: new). rewrite <- app_assoc. split_and!; [done|..].
    + apply NoDup_cons. split; [|done]. rewrite Hnew. set_solver.
    + intros n. rewrite !elem_of_cons, Hnew. destruct (decide (n = m)) as [->|Hne]; [|set_solver].
      split; [|auto]. intros _. split_and!; [auto| |done|done].
      rewrite Hdeg, Hd1, bool_decide_true by done. lia.
  - exists new. split_and!; [done|done|]. intros n. rewrite Hnew, elem_of_cons. split; [tauto|].
    intros ([-> |Hin] & Hz & Hs & Hq); [|done]. split_and!; [|done|done|done].
    destruct (decide (m ∈ next)) as [|Hnot]; [done|]. exfalso.
    assert (Hocc0 : occ m next = 0) by (destruct (occ m next) eqn:Ho; [done|]; exfalso; apply Hnot, occ_pos; lia).
    rewrite Hdeg, Hd1, bool_decide_true, Hocc0 in Hz by done.
    rewrite !bool_decide_true in Hpush by (done || lia). done.
Qed.

(** ** The invariant of the sort *)

Record kahn_inv (ids : list NodeId) (edges : list DagEdge) (queue sorted : list NodeId)
    (deg : gmap NodeId nat) : Prop := {
  ki_nodup : NoDup (sorted ++ queue);
  ki_ids : forall n, n ∈ sorted ++ queue -> n ∈ ids;
  ki_degree : forall n, degree deg n = pending edges sorted n;
  ki_zero : forall n, n ∈ ids -> (pending edges sorted n = 0 <-> n ∈ sorted ++ queue);
  ki_order : forall i n e, sorted !! i = Some n -> e ∈ edges -> edge_to e = n ->
               edge_from e ∈ take i sorted
}.

Section kahn.
Context (ids : list NodeId) (edges : list DagEdge) (adjacency : gmap NodeId (list NodeId)).
Hypothesis edges_known : forall e, e ∈ edges -> edge_from e ∈ ids /\ edge_to e ∈ ids.
Hypothesis adjacency_ok : forall id, default [] (adjacency !! id) = successors edges id.

Lemma kahn_inv_emit id queue sorted deg new deg' :
  kahn_inv ids edges (id :: queue) sorted deg ->
  (forall n, degree deg' n = degree deg n - occ n (successors edges id)) ->
  NoDup new ->
  (forall n, n ∈ new <-> n ∈ successors edges id /\ degree deg' n = 0 /\ (n ∉ sorted ++ [id]) /\
                         n ∉ queue) ->
  kahn_inv ids edges (queue ++ new) (sorted ++ [id]) deg'.
Proof.
  intros [Hnd Hids Hdeg Hzero Hord] Hdeg' Hnew_nd Hnew.
  assert (Hid : id ∉ sorted).
  { apply NoDup_app in Hnd as (_ & Hd & _). intros Hin. apply (Hd id Hin). left. }
  assert (Hpend : forall n, pending edges (sorted ++ [id]) n = degree deg' n).
  { intros n. rewrite Hdeg', Hdeg, (pending_snoc edges sorted id n) by done. lia. }
  assert (Hassoc : (sorted ++ [id]) ++ queue ++ new = (sorted ++ id :: queue) ++ new)
    by (rewrite <- !app_assoc; done).
  split.
  - rewrite Hassoc. apply NoDup_app. split_and!; [done| |done].
    intros n Hn Hnn. apply Hnew in Hnn as (_ & _ & H1 & H2). set_solver.
  - intros n. rewrite Hassoc, elem_of_app, Hnew. intros [Hn|[Hn _]]; [by apply Hids|].
    unfold successors in Hn. apply list_elem_of_fmap in Hn as (e & -> & He).
    apply list_elem_of_In, List.filter_In in He as [He _]. by apply edges_known, list_elem_of_In.
  - intros n. by rewrite Hpend.
  - intros n Hn. rewrite Hassoc, elem_of_app, Hnew, Hpend, <- Hzero by done. split.
    + intros Hz. destruct (decide (pending edges sorted n = 0)) as [|Hp]; [by left|]. right.
      assert (n ∉ sorted ++ id :: queue) by (by rewrite <- Hzero). split_and!; [|done|set_solver|set_solver].
      apply occ_pos. specialize (Hdeg' n). rewrite Hz, Hdeg in Hdeg'. lia.
    + intros [Hz|(_ & Hz & _)]; [|done]. rewrite Hdeg', Hdeg. lia.
  - intros i n e Hi He Hto. apply lookup_app_Some in Hi as [Hi|[Hlen Hi]].
    + rewrite take_app_le by (apply lookup_lt_Some in Hi; lia). by apply (Hord i n e).
    + apply list_lookup_singleton_Some in Hi as [Hi <-].
      replace i with (length sorted) by lia. rewrite take_app_length.
      apply (pending_zero edges sorted id); [|done|done]. apply Hzero; [|set_solver].
      apply Hids. set_solver.
Qed.

(** Enough rounds end with an empty queue. *)
Lemma kahn_done fuel queue sorted deg :
  kahn_inv ids edges queue sorted deg -> length ids < fuel + length sorted ->
  exists deg', kahn_inv ids edges [] (kahn fuel adjacency queue sorted deg) deg'.
Proof.
  revert queue sorted deg. induction fuel as [|fuel IH]; intros queue sorted deg Hinv Hlt.
  { exfalso. destruct Hinv as [Hnd Hids _ _ _]. simpl in Hlt.
    apply NoDup_app in Hnd as [Hnd _].
    assert (length sorted <= length ids); [|lia].
    apply submseteq_length, NoDup_submseteq; [done|]. set_solver. }
  destruct queue as [|id queue]; simpl; [by exists deg|].
  pose proof (adjacency_ok id) as Hadj.
  assert (Hle : length ids < fuel + length (sorted ++ [id])) by (rewrite length_app; simpl; lia).
  destruct (adjacency !! id) as [neighbours|]; simpl in Hadj.
  - destruct (relax (rust_sort neighbours) (sorted ++ [id]) queue deg) as [queue' deg'] eqn:Hr.
    assert (Hocc : forall n, occ n (rust_sort neighbours) = occ n (successors edges id))
      by (intros n; rewrite <- Hadj; apply occ_perm, rust_sort_perm).
    assert (Hid : id ∉ sorted).
    { destruct Hinv as [Hnd _ _ _ _]. apply NoDup_app in Hnd as (_ & Hd & _).
      intros Hin. apply (Hd id Hin). left. }
    apply relax_spec in Hr as (Hdeg & new & -> & Hnew_nd & Hnew).
    + apply (IH (queue ++ new) (sorted ++ [id]) deg'); [|done].
      apply (kahn_inv_emit id queue sorted deg); [done| |done|].
      * intros n. by rewrite Hdeg, Hocc.
      * intros n. by rewrite Hnew, elem_of_rust_sort, Hadj.
    + intros n. rewrite Hocc, (ki_degree _ _ _ _ _ Hinv), (pending_snoc edges sorted id n) by done. lia.
  - apply (IH queue (sorted ++ [id]) deg); [|done]. rewrite <- (app_nil_r queue).
    apply (kahn_inv_emit id queue sorted deg); [done| |apply NoDup_nil_2|].
    + intros n. rewrite <- Hadj. unfold occ. simpl. lia.
    + intros n. rewrite <- Hadj. set_solver.
Qed.
End kahn.

(** ** What a topological order is *)

Record valid_order {R} (dag : VmProcessDag R) (order : list NodeId) : Prop := {
  vo_nodup : NoDup order;
  vo_nodes : order ≡ₚ map node_id (dag_nodes dag);
  vo_edges : forall e, e ∈ dag_edges dag -> exists i j,
    order !! i = Some (edge_from e) /\ order !! j = Some (edge_to e) /\ i < j
}.

Lemma zero_degrees_spec ids n : degree (zero_degrees ids) n = 0.
Proof.
  unfold degree, zero_degrees. destruct (list_to_map _ !! n) as [k|] eqn:Hk; [|done].
  apply elem_of_list_to_map_2 in Hk. apply list_elem_of_fmap in Hk as (id & [= -> ->] & _). done.
Qed.

Lemma zero_degrees_dom ids : dom (zero_degrees ids) = list_to_set ids.
Proof.
  unfold zero_degrees. rewrite dom_list_to_map_L. f_equal. rewrite <- list_fmap_compose.
  induction ids; simpl; [done|]. by f_equal.
Qed.

(** The state before the first round satisfies the invariant. *)
Lemma kahn_inv_start ids edges (deg : gmap NodeId nat) :
  NoDup ids -> (forall e, e ∈ edges -> edge_from e ∈ ids /\ edge_to e ∈ ids) ->
  (forall n, degree deg n = length (List.filter (fun e => bool_decide (edge_to e = n)) edges)) ->
  dom deg = list_to_set ids ->
  kahn_inv ids edges (btree_keys (filter (fun kv => kv.2 = 0) deg)) [] deg.
Proof.
  intros Hnd Hknown Hdeg Hdom.
  assert (Hin : forall n, n ∈ btree_keys (filter (fun kv => kv.2 = 0) deg) <-> n ∈ ids /\ degree deg n = 0).
  { intros n. unfold btree_keys. rewrite elem_of_btree_iter, elem_of_dom.
    rewrite <- (elem_of_list_to_set (C := gset NodeId)), <- Hdom, elem_of_dom. unfold degree. split.
    - intros [k [Hk Hz]%map_lookup_filter_Some]. simpl in Hz. rewrite Hk. split; [by eexists|done].
    - intros [[k Hk] Hz]. rewrite Hk in Hz. exists k. by apply map_lookup_filter_Some. }
  split; simpl.
  - apply btree_iter_NoDup.
  - intros n [Hn _]%Hin. done.
  - intros n. by rewrite Hdeg, pending_nil.
  - intros n Hn. rewrite Hin, pending_nil, <- Hdeg. tauto.
  - intros i n e Hi. by rewrite lookup_nil in Hi.
Qed.

Lemma topo_sort_cases {R} (dag : VmProcessDag R) :
  let ids := map node_id (dag_nodes dag) in
  match topo_sort dag with
  | Ok order => valid_order dag order
  | Err (DuplicateNode id) => exists pre post, ids = pre ++ id :: post /\ id ∈ pre
  | Err (UnknownNode e) => e ∈ dag_edges dag /\ (edge_from e ∉ ids \/ edge_to e ∉ ids)
  | Err (Cycle residual) =>
      residual <> [] /\ (forall n, n ∈ residual -> n ∈ ids) /\
      forall n, n ∈ residual -> exists e, e ∈ dag_edges dag /\ edge_to e = n /\ edge_from e ∈ residual
  end.
Proof.
  intros ids. unfold topo_sort. fold ids. pose proof (collect_ids_spec ids ∅) as Hc.
  destruct (collect_ids ids ∅) as [id_set|e]; cycle 1.
  { destruct Hc as (pre & id & post & Hids & -> & [Hin|Hin]); [eauto|set_solver]. }
  destruct Hc as (Hnd & _ & ->). rewrite union_empty_r_L.
  pose proof (add_edges_spec (dag_edges dag) (list_to_set ids) (zero_degrees ids) ∅) as Ha.
  destruct (add_edges _ _ _ _) as [[deg adj]|e]; cycle 1.
  { destruct Ha as (edge & -> & Hin & Hor). split; [done|].
    by rewrite !elem_of_list_to_set in Hor. }
  destruct Ha as (Hknown & Hdeg & Hadj & Hdom). setoid_rewrite elem_of_list_to_set in Hknown.
  setoid_rewrite zero_degrees_spec in Hdeg. setoid_rewrite lookup_empty in Hadj.
  rewrite zero_degrees_dom in Hdom.
  assert (Hdom' : dom deg = list_to_set ids).
  { rewrite Hdom. apply set_eq. intros n. rewrite elem_of_union, !elem_of_list_to_set. split; [|auto].
    intros [|(e & -> & He)%list_elem_of_fmap]; [done|]. by apply Hknown. }
  pose proof (kahn_inv_start ids (dag_edges dag) deg Hnd Hknown Hdeg Hdom') as Hstart.
  destruct (kahn_done ids (dag_edges dag) adj Hknown Hadj (S (length ids)) _ _ _ Hstart)
    as [deg' Hinv]; [simpl; lia|].
  set (sorted := kahn _ _ _ _ _) in *. clearbody sorted. destruct Hinv as [Hsnd Hsids _ Hzero Hord].
  rewrite app_nil_r in *. assert (Hsub : sorted ⊆+ ids) by by apply NoDup_submseteq.
  case_bool_decide as Hlen.
  - assert (Hres : forall n, n ∈ List.filter (fun id => bool_decide (id ∉ sorted)) ids <->
                     n ∈ ids /\ n ∉ sorted).
    { intros n. rewrite list_elem_of_In, List.filter_In, <- list_elem_of_In. by rewrite bool_decide_eq_true. }
    split_and!.
    + intros Hnil. apply Hlen. apply Nat.le_antisymm; [by apply submseteq_length|].
      apply submseteq_length, NoDup_submseteq; [done|]. intros n Hn.
      destruct (decide (n ∈ sorted)) as [|Hns]; [done|]. exfalso.
      assert (Hin : n ∈ List.filter (fun id => bool_decide (id ∉ sorted)) ids) by by apply Hres.
      rewrite Hnil in Hin. by apply elem_of_nil in Hin.
    + intros n [Hn _]%Hres. done.
    + intros n [Hn Hns]%Hres. destruct (decide (pending (dag_edges dag) sorted n = 0)) as [Hz|Hz].
      { by apply Hzero in Hz. }
      apply pending_pos in Hz as (e & He & Hto & Hfrom). exists e. split_and!; [done|done|].
      apply Hres. split; [by apply Hknown|done].
  - assert (Hperm : sorted ≡ₚ ids) by (apply submseteq_length_Permutation; [done|lia]).
    split; [done|done|]. intros e He. destruct (Hknown e He) as [Hf Ht].
    rewrite <- Hperm in Ht. apply list_elem_of_lookup in Ht as [j Hj].
    pose proof (Hord j _ e Hj He eq_refl) as Hin. apply list_elem_of_lookup in Hin as [i Hi].
    apply lookup_take_Some in Hi as [Hi Hij]. exists i, j. done.
Qed.

(** C24. The topological sort is correct and complete: it returns an order that
    lists every node once with each edge's source before its target, and it
    fails only where no such order exists.  A cycle report names nodes that
    each wait for another of them. *)
Theorem topo_sort_exact {R} (dag : VmProcessDag R) :
  (forall order, topo_sort dag = Ok order -> valid_order dag order) /\
  (forall order, valid_order dag order -> exists order', topo_sort dag = Ok order') /\
  (forall residual, topo_sort dag = Err (Cycle residual) ->
     residual <> [] /\
     forall n, n ∈ residual -> exists e, e ∈ dag_edges dag /\ edge_to e = n /\ edge_from e ∈ residual).
Proof.
  pose proof (topo_sort_cases dag) as Hc. cbv zeta in Hc. split_and!.
  - intros order Ho. by rewrite Ho in Hc.
  - intros order [Hnd Hperm Hedges]. destruct (topo_sort dag) as [o|[residual|e|id]]; [by eexists|..].
    + exfalso. destruct Hc as (Hne & Hids & Hpred).
      assert (Hno : forall i n, order !! i = Some n -> n ∉ residual).
      { intros i. induction (lt_wf i) as [i _ IH]. intros n Hi Hn.
        destruct (Hpred n Hn) as (e & He & Hto & Hfrom).
        destruct (Hedges e He) as (k & j & Hk & Hj & Hkj). rewrite Hto in Hj.
        assert (j = i) as -> by (by eapply NoDup_lookup). by apply (IH k Hkj (edge_from e)). }
      destruct residual as [|n residual]; [done|].
      assert (n ∈ order) as [i Hi]%list_elem_of_lookup by (rewrite Hperm; apply Hids; left).
      apply (Hno i n Hi). left.
    + exfalso. destruct Hc as [He Hor]. destruct (Hedges e He) as (i & j & Hi & Hj & _).
      apply list_elem_of_lookup_2 in Hi, Hj. rewrite Hperm in Hi, Hj. tauto.
    + exfalso. destruct Hc as (pre & post & Hids & Hin). rewrite Hperm, Hids in Hnd.
      apply NoDup_app in Hnd as (_ & Hd & _). apply (Hd id Hin). left.
  - intros residual Ho. rewrite Ho in Hc. naive_solver.
Qed.

(** ** Runs of the executor *)

Lemma nodes_by_id_lookup {R} (dag : VmProcessDag R) id :
  is_Some (nodes_by_id dag !! id) <-> id ∈ map node_id (dag_nodes dag).
Proof.
  unfold nodes_by_id.
  assert (Hgen : forall (ns : list (ProcessNode R)) (m : gmap NodeId (ProcessNode R)),
    is_Some (fold_left (fun m n => <[node_id n := n]> m) ns m !! id) <->
    is_Some (m !! id) \/ id ∈ map node_id ns).
  { intros ns. induction ns as [|n ns IH]; intros m; simpl; [set_solver|].
    rewrite IH, lookup_insert_is_Some, elem_of_cons.
    destruct (decide (node_id n = id)); naive_solver. }
  rewrite Hgen, lookup_empty. split; [|auto]. by intros [[? ?]|].
Qed.

(** In a valid order, a node's dependencies come before it. *)
Lemma valid_order_before {R} (dag : VmProcessDag R) order k e :
  valid_order dag order -> e ∈ dag_edges dag -> order !! k = Some (edge_to e) ->
  edge_from e ∈ take k order.
Proof.
  intros [Hnd _ Hedges] He Hk. destruct (Hedges e He) as (i & j & Hi & Hj & Hij).
  assert (j = k) as -> by (by eapply NoDup_lookup). apply list_elem_of_lookup. exists i.
  by apply lookup_take_Some.
Qed.

Section runs.
Context {R S : Type} `{NodeRunner R S}.
Variable budget : NodeBudget.

(** The runner brought up these nodes one after another. *)
Fixpoint all_ready (vm : string) (nodes : gmap NodeId (ProcessNode R)) (ids : list NodeId) (s s' : S) :
    Prop :=
  match ids with
  | [] => s = s'
  | id :: ids => exists node s1, nodes !! id = Some node /\
      spawn_and_wait_ready vm node (node_readiness node) budget s = (Ok tt, s1) /\
      all_ready vm nodes ids s1 s'
  end.

Definition outcomes (outcome : NodeOutcome) (ids : list NodeId) : list NodeHistory :=
  map (fun id => mkNodeHistory id outcome) ids.

Lemma run_nodes_skip vm nodes order p failed (s : S) :
  pr_failed p = Some failed ->
  run_nodes budget vm nodes order p s
  = Some (mkProgress (pr_history p ++ outcomes (Skipped failed) order) (Some failed) (pr_ok p)
            (pr_api_ready p) (pr_no_wait_completed p), s).
Proof.
  revert p. induction order as [|id order IH]; intros p Hf; simpl.
  - rewrite app_nil_r. destruct p; simpl in *. by subst.
  - rewrite Hf, IH by done. simpl. by rewrite <- app_assoc.
Qed.

(** How a run ended: the nodes brought up, and the one that failed with those
    skipped for it. *)
Record run_result (vm : string) (nodes : gmap NodeId (ProcessNode R)) (order : list NodeId) (s : S)
    (hist : list NodeHistory) (ok : bool) (s' : S) (ready rest : list NodeId) : Prop := {
  rr_order : order = ready ++ rest;
  rr_end : exists s1, all_ready vm nodes ready s s1 /\
    match rest with
    | [] => ok = true /\ s' = s1 /\ hist = outcomes Ready ready
    | failed :: skipped => ok = false /\ exists node reason, nodes !! failed = Some node /\
        spawn_and_wait_ready vm node (node_readiness node) budget s1 = (Err reason, s') /\
        hist = outcomes Ready ready ++ [mkNodeHistory failed (Failed reason)]
                 ++ outcomes (Skipped failed) skipped
    end
}.

Lemma run_nodes_spec vm nodes order h (s : S) :
  (forall id, id ∈ order -> is_Some (nodes !! id)) ->
  exists p' s' ready rest hist,
    run_nodes budget vm nodes order (mkProgress h None true None false) s = Some (p', s') /\
    pr_history p' = h ++ hist /\
    run_result vm nodes order s hist (pr_ok p') s' ready rest.
Proof.
  revert h s. induction order as [|id order IH]; intros h s Hall.
  { eexists _, s, [], [], []. split; [done|]. split; [by rewrite app_nil_r|].
    split; [done|]. by exists s. }
  destruct (Hall id) as [node Hnode]; [left|]. cbn [run_nodes pr_failed]. rewrite Hnode. simpl.
  destruct (spawn_and_wait_ready vm node (node_readiness node) budget s) as [[[]|reason] s1] eqn:Hs.
  - unfold record_result, push_history. cbn [pr_history pr_failed pr_ok pr_api_ready pr_no_wait_completed].
    destruct (IH (h ++ [mkNodeHistory id Ready]) s1) as (p' & s' & ready & rest & hist & Hrun & Hh & Hres).
    { intros i Hi. apply Hall. by right. }
    exists p', s', (id :: ready), rest, (mkNodeHistory id Ready :: hist).
    split; [done|]. split; [by rewrite Hh, <- app_assoc|].
    destruct Hres as [-> (s2 & Har & Hm)]. split; [done|]. exists s2. split; [by exists node, s1|].
    destruct rest as [|failed skipped]; [naive_solver|].
    destruct Hm as (? & n & r & ? & ? & ->). split; [done|]. by exists n, r.
  - unfold record_result. rewrite (run_nodes_skip _ _ _ _ id) by done.
    eexists _, s1, [], (id :: order), _. split; [done|]. cbn.
    split; [by rewrite <- app_assoc|]. split; [done|]. exists s. split; [done|]. split; [done|].
    by exists node, reason.
Qed.

(** The executor is fail-fast along the dependencies: it brings nodes up one
    after another in topological order, each only after all it depends on is
    ready; at the first failure it spawns nothing more and reports the
    remaining nodes as skipped for it.  The report lists every node, and is
    ok exactly when all came up.  An invalid DAG spawns nothing. *)
Theorem run_fail_fast (dag : VmProcessDag R) (s : S) :
  match topo_sort dag with
  | Err e => run budget dag s = Some (Err e, s)
  | Ok order => exists report s' ready rest,
      run budget dag s = Some (Ok report, s') /\
      run_result (dag_vm dag) (nodes_by_id dag) order s (history report) (overall_ok report) s'
        ready rest /\
      map nh_node_id (history report) = order /\
      (forall k e, e ∈ dag_edges dag -> (ready ++ take 1 rest) !! k = Some (edge_to e) ->
         edge_from e ∈ take k ready)
  end.
Proof.
  unfold run. pose proof (topo_sort_cases dag) as Hc. destruct (topo_sort dag) as [order|e]; [|done].
  simpl in Hc.
  destruct (run_nodes_spec (dag_vm dag) (nodes_by_id dag) order [] s)
    as (p' & s' & ready & rest & hist & Hrun & Hh & Hres).
  { intros id Hid. apply nodes_by_id_lookup. by rewrite <- (vo_nodes _ _ Hc). }
  unfold start. rewrite Hrun. simpl. eexists _, s', ready, rest. split; [done|]. simpl in *. subst hist.
  split; [done|]. destruct Hres as [Ho (s1 & _ & Hm)]. split.
  - assert (Hids : forall o l, map nh_node_id (outcomes o l) = l)
      by (intros o l; induction l; simpl; [done|]; by f_equal).
    destruct rest as [|failed skipped].
    + destruct Hm as (_ & _ & ->). by rewrite Hids, Ho, app_nil_r.
    + destruct Hm as (_ & n & r & _ & _ & ->). rewrite !map_app, !Hids, Ho. done.
  - intros k e He Hk. assert (Hord : order !! k = Some (edge_to e)).
    { rewrite Ho. rewrite <- (take_drop 1 rest), app_assoc. by apply lookup_app_l_Some. }
    pose proof (valid_order_before dag order k e Hc He Hord) as Hin. rewrite Ho, take_app in Hin.
    apply elem_of_app in Hin as [|Hin]; [done|]. exfalso.
    apply lookup_lt_Some in Hk. rewrite length_app in Hk.
    assert (k - length ready = 0) as Hz by (destruct rest; simpl in Hk; lia).
    rewrite Hz in Hin. by apply elem_of_nil in Hin.
Qed.

Definition all_outcomes_ready (hist : list NodeHistory) : Prop :=
  Forall (fun h => nh_outcome h = Ready) hist.

(** The ids a split run has recorded and its flag agree with its outcomes. *)
Lemma run_split_nodes_spec vm nodes mode api_timeout order p (s : S) :
  (forall id, id ∈ order -> is_Some (nodes !! id)) ->
  (pr_ok p = true <-> all_outcomes_ready (pr_history p)) ->
  (pr_failed p <> None <-> pr_ok p = false) ->
  (pr_no_wait_completed p = true -> mode = NoWaitApi) ->
  exists p' s' recorded, run_split_nodes budget vm nodes mode api_timeout order p s = Some (p', s') /\
    map nh_node_id (pr_history p') = map nh_node_id (pr_history p) ++ recorded /\
    recorded `prefix_of` order /\
    (mode = Strict -> recorded = order) /\
    (pr_ok p' = true <-> all_outcomes_ready (pr_history p')).
Proof.
  revert p s. induction order as [|id order IH]; intros p s Hall Hok Hfail Hnw.
  { exists p, s, []. rewrite app_nil_r. split_and!; done. }
  assert (Hall' : forall i, i ∈ order -> is_Some (nodes !! i)) by (intros i Hi; apply Hall; by right).
  cbn [run_split_nodes]. destruct (pr_no_wait_completed p) eqn:Hdone.
  { specialize (Hnw eq_refl). subst mode.
    assert (Hstay : forall o, run_split_nodes budget vm nodes NoWaitApi api_timeout o p s = Some (p, s))
      by (intros o; induction o as [|i o IHo]; simpl; [done|]; by rewrite Hdone).
    rewrite Hstay. exists p, s, []. rewrite app_nil_r. split_and!; [done|done|apply prefix_nil|done|apply Hok..]. }
  assert (Hpush : forall outcome p1 s1,
    pr_history p1 = pr_history p ++ [mkNodeHistory id outcome] ->
    (pr_ok p1 = true <-> pr_ok p = true /\ outcome = Ready) ->
    (pr_failed p1 <> None <-> pr_ok p1 = false) ->
    (pr_no_wait_completed p1 = true -> mode = NoWaitApi) ->
    exists p' s' recorded, run_split_nodes budget vm nodes mode api_timeout order p1 s1 = Some (p', s') /\
      map nh_node_id (pr_history p') = map nh_node_id (pr_history p) ++ recorded /\
      recorded `prefix_of` (id :: order) /\ (mode = Strict -> recorded = id :: order) /\
      (pr_ok p' = true <-> all_outcomes_ready (pr_history p'))).
  { intros outcome p1 s1 Hh Hok1 Hf1 Hn1.
    destruct (IH p1 s1 Hall') as (p' & s' & recorded & Hrun & Hids & Hpre & Hstrict & Hok'); [|done|done|].
    - rewrite Hok1, Hok, Hh. unfold all_outcomes_ready. rewrite Forall_app, Forall_singleton. done.
    - exists p', s', (id :: recorded). rewrite Hids, Hh, map_app, <- app_assoc.
      split_and!; [done|done|by apply prefix_cons|intros Hs; by rewrite Hstrict|apply Hok'..]. }
  destruct (pr_failed p) as [failed|] eqn:Hpf.
  { apply (Hpush (Skipped failed)); simpl; [done| |by rewrite Hpf|by rewrite Hdone].
    assert (pr_ok p = false) as -> by by apply Hfail. naive_solver. }
  assert (pr_ok p = true) as Hpok.
  { apply not_false_iff_true. intros Hf. apply Hfail in Hf. done. }
  destruct (Hall id) as [node Hnode]; [left|]. rewrite Hnode. simpl.
  destruct (run_split_node budget vm node mode api_timeout s) as [[[r state] fin] s1] eqn:Hn.
  assert (Hfin : fin = true -> mode = NoWaitApi).
  { revert Hn. unfold run_split_node. repeat case_match; intros [= <- <- <- <-]; done. }
  destruct r as [[]|reason]; simpl.
  - apply (Hpush Ready); simpl; [done|by rewrite Hpok|rewrite Hpok; naive_solver|done].
  - apply (Hpush (Failed reason)); simpl; [done|naive_solver|naive_solver|done].
Qed.

(** A split-readiness run records nodes in topological order and is ok exactly
    when every recorded node came up; in strict mode it records every node. *)
Theorem run_split_report (dag : VmProcessDag R) (mode : SplitReadinessMode) (api_timeout : N) (s : S) :
  match topo_sort dag with
  | Err e => run_split budget dag mode api_timeout s = Some (Err e, s)
  | Ok order => exists report s',
      run_split budget dag mode api_timeout s = Some (Ok report, s') /\
      map nh_node_id (history report) `prefix_of` order /\
      (mode = Strict -> map nh_node_id (history report) = order) /\
      (overall_ok report = true <-> all_outcomes_ready (history report))
  end.
Proof.
  unfold run_split. pose proof (topo_sort_cases dag) as Hc. destruct (topo_sort dag) as [order|e]; [|done].
  simpl in Hc.
  destruct (run_split_nodes_spec (dag_vm dag) (nodes_by_id dag) mode api_timeout order start s)
    as (p' & s' & recorded & Hrun & Hids & Hpre & Hstrict & Hok).
  - intros id Hid. apply nodes_by_id_lookup. by rewrite <- (vo_nodes _ _ Hc).
  - split; [|done]. intros _. apply Forall_nil_2.
  - done.
  - done.
  - rewrite Hrun. simpl. eexists _, s'. split; [done|]. simpl in *. by rewrite Hids.
Qed.
End runs.

(** ** A concrete run *)

(** A runner that brings everything up. *)
#[local] Instance ready_runner : NodeRunner unit unit := {
  spawn_and_wait_ready := fun _ _ _ _ s => (Ok tt, s);
  spawn_and_check_process_alive := fun _ _ _ s => (Ok tt, s);
  probe_api_ready := fun _ _ _ _ s => (ApiReady_Yes, s)
}.

Definition demo_dag : VmProcessDag unit :=
  mkVmProcessDag "vm"
    [mkProcessNode "guest" tt [GuestControlHealth "vm"]; mkProcessNode "ch" tt [ApiSocketInfo "api"]]
    [mkDagEdge "ch" "guest" "boot"].

(** Without waiting for the API the report is not complete: the nodes after
    the hypervisor node are neither run nor listed, though the run is ok. *)
Theorem no_wait_omits_nodes :
  topo_sort demo_dag = Ok ["ch"; "guest"] /\
  run_split NodeBudget_default demo_dag NoWaitApi 60 tt
  = Some (Ok (mkDagRunReport "vm" [mkNodeHistory "ch" Ready] true (Some ApiReady_Pending)), tt).
Proof. by vm_compute. Qed.

End Dag.
