(* ===== verification/StopDag.v ===== *)
(** * The restart-time reconcile planner

    [packages/d2bd/src/supervisor/stop_dag.rs]: compares the nftables and USBIP
    intents of the bundle with a snapshot of the host and lists the broker
    operations that bring the host to the declared state.  Of the bundle
    resolver ([packages/d2b-core/src/bundle_resolver.rs]) the planner reads the
    two intent tables through their accessors. *)

From S2P Require Import Prelude.

Module StopDag.

Record ResolvedNftIntent := mkResolvedNftIntent {
  nft_intent_id : string;
  nft_scope_label : string;
  nft_script_body : string;
  nft_desired_hash : string;
  nft_ownership_id : string
}.

(** The fields of a bind intent the planner reads. *)
Record ResolvedUsbipBindIntent := mkResolvedUsbipBindIntent {
  usbip_intent_id : string;
  usbip_bus_id : string;
  usbip_vm_name : string;
  usbip_env : string
}.

Record BundleResolver := mkBundleResolver {
  nft_intents : gmap string ResolvedNftIntent;
  usbip_bind_intents : gmap string ResolvedUsbipBindIntent
}.

Definition nft_intent_ids (self : BundleResolver) : list string := btree_keys (nft_intents self).
Definition find_nft_intent (self : BundleResolver) (id : string) : option ResolvedNftIntent :=
  nft_intents self !! id.
Definition usbip_bind_intent_ids (self : BundleResolver) : list string :=
  btree_keys (usbip_bind_intents self).
Definition find_usbip_bind_intent (self : BundleResolver) (id : string) :
    option ResolvedUsbipBindIntent :=
  usbip_bind_intents self !! id.

Record ObservedHostState := mkObservedHostState {
  nft_applied_hashes : gmap string string;
  usbip_bound_busids : gset string;
  active_vms : gset string
}.

Definition ObservedHostState_empty : ObservedHostState := mkObservedHostState ∅ ∅ ∅.

Inductive NftablesDriftReason :=
| NeverApplied
| HashMismatch (observed desired : string).

Record NftablesReconcileAction := mkNftablesReconcileAction {
  nra_intent_id : string;
  nra_scope_label : string;
  nra_ownership_id : string;
  nra_desired_hash : string;
  nra_reason : NftablesDriftReason
}.

Inductive UsbipDriftReason :=
| CarrierMissing (vm env : string)
| OwnerInactive (last_owner : option string)
| Undeclared.

Record UsbipReconcileAction := mkUsbipReconcileAction {
  ura_busid : string;
  ura_reason : UsbipDriftReason
}.

Record ReconcileReport := mkReconcileReport {
  nftables_actions : list NftablesReconcileAction;
  usbip_actions : list UsbipReconcileAction
}.

Definition is_noop (self : ReconcileReport) : bool :=
  match nftables_actions self, usbip_actions self with [], [] => true | _, _ => false end.

(** One round of the loop of [plan_nftables]. *)
Definition nft_action (resolver : BundleResolver) (observed : ObservedHostState) (intent_id : string) :
    option NftablesReconcileAction :=
  intent ← find_nft_intent resolver intent_id;
  reason ← match nft_applied_hashes observed !! intent_id with
           | None => Some NeverApplied
           | Some applied =>
               if String.eqb applied (nft_desired_hash intent) then None
               else Some (HashMismatch applied (nft_desired_hash intent))
           end;
  Some (mkNftablesReconcileAction (nft_intent_id intent) (nft_scope_label intent)
          (nft_ownership_id intent) (nft_desired_hash intent) reason).

Definition plan_nftables (resolver : BundleResolver) (observed : ObservedHostState) :
    list NftablesReconcileAction :=
  omap (nft_action resolver observed) (nft_intent_ids resolver).

(** busid to owning VM and environment; a later intent replaces an earlier one. *)
Definition declared (resolver : BundleResolver) : gmap string (string * string) :=
  fold_left (fun m id =>
      match find_usbip_bind_intent resolver id with
      | Some intent => <[usbip_bus_id intent := (usbip_vm_name intent, usbip_env intent)]> m
      | None => m
      end) (usbip_bind_intent_ids resolver) ∅.

Definition bind_action (observed : ObservedHostState) (entry : string * (string * string)) :
    option UsbipReconcileAction :=
  let '(busid, (vm, env)) := entry in
  if bool_decide (vm ∉ active_vms observed) then None
  else if bool_decide (busid ∉ usbip_bound_busids observed)
  then Some (mkUsbipReconcileAction busid (CarrierMissing vm env))
  else None.

Definition unbind_action (decl : gmap string (string * string)) (observed : ObservedHostState)
    (busid : string) : option UsbipReconcileAction :=
  match decl !! busid with
  | None => Some (mkUsbipReconcileAction busid Undeclared)
  | Some (vm, _) =>
      if bool_decide (vm ∉ active_vms observed)
      then Some (mkUsbipReconcileAction busid (OwnerInactive (Some vm)))
      else None
  end.

Definition plan_usbip (resolver : BundleResolver) (observed : ObservedHostState) :
    list UsbipReconcileAction :=
  omap (bind_action observed) (btree_entries (declared resolver))
  ++ omap (unbind_action (declared resolver) observed) (btree_iter (usbip_bound_busids observed)).

Definition reconcile (resolver : BundleResolver) (observed : ObservedHostState) : ReconcileReport :=
  mkReconcileReport (plan_nftables resolver observed) (plan_usbip resolver observed).

Definition reconcile_on_restart (resolver : BundleResolver) : ReconcileReport :=
  reconcile resolver ObservedHostState_empty.

(** ** What the actions do

    The broker operations the actions stand for, on the observed state: an
    apply records the hash, a bind adds a carrier and an unbind removes one. *)
Definition apply_nft (hashes : gmap string string) (a : NftablesReconcileAction) : gmap string string :=
  <[nra_intent_id a := nra_desired_hash a]> hashes.

Definition apply_usbip (bound : gset string) (a : UsbipReconcileAction) : gset string :=
  match ura_reason a with
  | CarrierMissing _ _ => {[ura_busid a]} ∪ bound
  | OwnerInactive _ | Undeclared => bound ∖ {[ura_busid a]}
  end.

Definition dispatch (report : ReconcileReport) (observed : ObservedHostState) : ObservedHostState :=
  mkObservedHostState (fold_left apply_nft (nftables_actions report) (nft_applied_hashes observed))
    (fold_left apply_usbip (usbip_actions report) (usbip_bound_busids observed))
    (active_vms observed).

(** The table is keyed by the intents' own ids. *)
Definition resolver_ok (resolver : BundleResolver) : Prop :=
  map_Forall (fun id intent => nft_intent_id intent = id) (nft_intents resolver).

(** The carriers the declared state asks for. *)
Definition wanted (resolver : BundleResolver) (observed : ObservedHostState) (busid : string) : Prop :=
  exists vm env, declared resolver !! busid = Some (vm, env) /\ vm ∈ active_vms observed.

Lemma plan_usbip_elem resolver observed a :
  a ∈ plan_usbip resolver observed <->
  (exists vm env, declared resolver !! ura_busid a = Some (vm, env) /\ vm ∈ active_vms observed /\
     (ura_busid a ∉ usbip_bound_busids observed) /\ ura_reason a = CarrierMissing vm env) \/
  (ura_busid a ∈ usbip_bound_busids observed /\
   match declared resolver !! ura_busid a with
   | None => ura_reason a = Undeclared
   | Some (vm, _) => (vm ∉ active_vms observed) /\ ura_reason a = OwnerInactive (Some vm)
   end).
Proof.
  unfold plan_usbip. rewrite elem_of_app, !list_elem_of_omap. f_equiv.
  - split.
    + intros ([busid [vm env]] & Hin%elem_of_btree_entries & Hb). unfold bind_action in Hb.
      repeat case_bool_decide; simplify_eq/=. exists vm, env. done.
    + intros (vm & env & Hd & Hvm & Hnot & Hr). exists (ura_busid a, (vm, env)).
      rewrite elem_of_btree_entries. split; [done|]. simpl.
      rewrite bool_decide_false by tauto. rewrite bool_decide_true by done. destruct a. simpl in *. by subst.
  - split.
    + intros (busid & Hin%elem_of_btree_iter & Hu). unfold unbind_action in Hu.
      destruct (declared resolver !! busid) as [[vm env]|] eqn:Hd; [case_bool_decide|]; simplify_eq/=;
        by rewrite Hd.
    + intros (Hin & Hm). exists (ura_busid a). rewrite elem_of_btree_iter. split; [done|].
      unfold unbind_action. destruct (declared resolver !! ura_busid a) as [[vm env]|].
      * destruct Hm as [Hn Hr]. rewrite bool_decide_true by done. destruct a. simpl in *. by subst.
      * destruct a. simpl in *. by subst.
Qed.

Lemma fold_bind acts bound :
  Forall (fun a => exists vm env, ura_reason a = CarrierMissing vm env) acts ->
  fold_left apply_usbip acts bound = list_to_set (map ura_busid acts) ∪ bound.
Proof.
  revert bound. induction acts as [|a acts IH]; intros bound Hall; simpl; [set_solver|].
  apply Forall_cons in Hall as [(vm & env & Hr) Hall]. rewrite IH by done.
  unfold apply_usbip. rewrite Hr. set_solver.
Qed.

Lemma fold_unbind acts bound :
  Forall (fun a => forall vm env, ura_reason a <> CarrierMissing vm env) acts ->
  fold_left apply_usbip acts bound = bound ∖ list_to_set (map ura_busid acts).
Proof.
  revert bound. induction acts as [|a acts IH]; intros bound Hall; simpl; [set_solver|].
  apply Forall_cons in Hall as [Hr Hall]. rewrite IH by done.
  unfold apply_usbip. destruct (ura_reason a) as [vm env|o|]; [by destruct (Hr vm env)|set_solver..].
Qed.

(** After the dispatch exactly the wanted carriers are bound. *)
Lemma dispatch_carriers resolver observed busid :
  busid ∈ usbip_bound_busids (dispatch (reconcile resolver observed) observed) <->
  wanted resolver observed busid.
Proof.
  cbn [dispatch usbip_bound_busids reconcile usbip_actions]. unfold plan_usbip.
  rewrite fold_left_app, (fold_bind (omap (bind_action observed) _)), fold_unbind.
  - rewrite elem_of_difference, elem_of_union, !elem_of_list_to_set, !list_elem_of_fmap.
    setoid_rewrite list_elem_of_omap. unfold wanted. split.
    + intros [[(a & -> & [x [vm env]] & Hin%elem_of_btree_entries & Hb)|Hbound] Hnot].
      * unfold bind_action in Hb. repeat case_bool_decide; simplify_eq/=. eauto.
      * destruct (declared resolver !! busid) as [[vm env]|] eqn:Hd.
        -- exists vm, env. split; [done|].
           destruct (decide (vm ∈ active_vms observed)) as [|Hvm]; [done|]. exfalso. apply Hnot.
           eexists. split; [|exists busid; rewrite elem_of_btree_iter; split; [done|]]; cycle 1.
           { unfold unbind_action. by rewrite Hd, bool_decide_true. }
           done.
        -- exfalso. apply Hnot.
           eexists. split; [|exists busid; rewrite elem_of_btree_iter; split; [done|]]; cycle 1.
           { unfold unbind_action. by rewrite Hd. }
           done.
    + intros (vm & env & Hd & Hvm). split.
      * destruct (decide (busid ∈ usbip_bound_busids observed)) as [|Hnot]; [by right|]. left.
        eexists. split; [|exists (busid, (vm, env)); rewrite elem_of_btree_entries; split; [done|]];
          cycle 1.
        { simpl. by rewrite bool_decide_false, bool_decide_true by tauto. }
        done.
      * intros (a & -> & x & _ & Hu). unfold unbind_action in Hu.
        destruct (declared resolver !! x) as [[vm' env']|] eqn:Hd'; [case_bool_decide|]; simplify_eq/=;
          congruence.
  - rewrite Forall_forall. intros a (x & _ & Hu)%list_elem_of_omap. unfold unbind_action in Hu.
    repeat case_match; simplify_eq/=; done.
  - rewrite Forall_forall. intros a ([x [vm env]] & _ & Hb)%list_elem_of_omap. unfold bind_action in Hb.
    repeat case_bool_decide; simplify_eq/=. eauto.
Qed.

Lemma fold_apply_nft acts hashes id hash :
  (forall a, a ∈ acts -> nra_intent_id a = id -> nra_desired_hash a = hash) ->
  (hashes !! id = Some hash \/ exists a, a ∈ acts /\ nra_intent_id a = id) ->
  fold_left apply_nft acts hashes !! id = Some hash.
Proof.
  revert hashes. induction acts as [|a acts IH]; intros hashes Hall Hor; simpl.
  { destruct Hor as [|(a & Ha & _)]; [done|by apply elem_of_nil in Ha]. }
  apply IH; [intros x Hx; apply Hall; by right|]. unfold apply_nft.
  destruct (decide (nra_intent_id a = id)) as [Heq|Hne].
  - left. rewrite Heq, lookup_insert_eq. f_equal. apply Hall; [left|done].
  - rewrite lookup_insert_ne by done. destruct Hor as [|(x & [->|Hx]%elem_of_cons & Hid)]; [by left|done|].
    right. eauto.
Qed.

(** After the dispatch every intent's recorded hash is the desired one. *)
Lemma dispatch_hashes resolver observed id intent :
  resolver_ok resolver -> nft_intents resolver !! id = Some intent ->
  nft_applied_hashes (dispatch (reconcile resolver observed) observed) !! id
  = Some (nft_desired_hash intent).
Proof.
  intros Hok Hl. simpl. unfold plan_nftables. apply fold_apply_nft.
  - intros a (x & _ & Ha)%list_elem_of_omap Hid. unfold nft_action, find_nft_intent in Ha.
    destruct (nft_intents resolver !! x) as [i|] eqn:Hx; simpl in Ha; [|done].
    assert (Hkey := Hok x i Hx). simpl in Hkey.
    destruct (match nft_applied_hashes observed !! x with None => _ | Some _ => _ end); simpl in Ha; [|done].
    simplify_eq/=. by simplify_eq.
  - destruct (nft_action resolver observed id) as [a|] eqn:Ha.
    + right. exists a. split.
      * apply list_elem_of_omap. exists id. split; [|done]. unfold nft_intent_ids, btree_keys.
        rewrite elem_of_btree_iter. by apply elem_of_dom_2 in Hl.
      * unfold nft_action, find_nft_intent in Ha. rewrite Hl in Ha. simpl in Ha.
        assert (Hkey := Hok id intent Hl). simpl in Hkey.
        destruct (match nft_applied_hashes observed !! id with None => _ | Some _ => _ end);
          simpl in Ha; [|done]. by simplify_eq/=.
    + left. unfold nft_action, find_nft_intent in Ha. rewrite Hl in Ha. simpl in Ha.
      destruct (nft_applied_hashes observed !! id) as [applied|]; simpl in Ha; [|done].
      destruct (String.eqb_spec applied (nft_desired_hash intent)) as [Heq|Hne]; simpl in Ha; [|done].
      by rewrite Heq.
Qed.

(** The planned actions bring the host to the declared state in one pass:
    after they are dispatched exactly the carriers of active VMs the bundle
    declares are bound, every nftables fragment has its desired hash, and
    planning again finds nothing to do. *)
Theorem reconcile_converges (resolver : BundleResolver) (observed : ObservedHostState) :
  resolver_ok resolver ->
  let observed' := dispatch (reconcile resolver observed) observed in
  (forall busid, busid ∈ usbip_bound_busids observed' <-> wanted resolver observed busid) /\
  (forall id intent, nft_intents resolver !! id = Some intent ->
     nft_applied_hashes observed' !! id = Some (nft_desired_hash intent)) /\
  is_noop (reconcile resolver observed') = true.
Proof.
  intros Hok observed'. split; [intros busid; apply dispatch_carriers|].
  split; [intros id intent; by apply dispatch_hashes|].
  assert (Hnft : plan_nftables resolver observed' = []).
  { destruct (plan_nftables resolver observed') as [|a l] eqn:Hp; [done|]. exfalso.
    assert (Ha : a ∈ plan_nftables resolver observed') by (rewrite Hp; left).
    apply list_elem_of_omap in Ha as (id & _ & Ha). unfold nft_action, find_nft_intent in Ha.
    destruct (nft_intents resolver !! id) as [intent|] eqn:Hl; [|done].
    pose proof (dispatch_hashes resolver observed id intent Hok Hl) as Hh. fold observed' in Hh.
    rewrite Hh in Ha. cbn in Ha. by rewrite String.eqb_refl in Ha. }
  assert (Husb : plan_usbip resolver observed' = []).
  { destruct (plan_usbip resolver observed') as [|a l] eqn:Hp; [done|]. exfalso.
    assert (Ha : a ∈ plan_usbip resolver observed') by (rewrite Hp; left).
    apply plan_usbip_elem in Ha. pose proof (dispatch_carriers resolver observed (ura_busid a)) as Hc.
    fold observed' in Hc. unfold wanted in Hc. simpl active_vms in Ha.
    destruct Ha as [(vm & env & Hd & Hvm & Hnot & _)|(Hin & Hm)].
    - apply Hnot, Hc. eauto.
    - apply Hc in Hin as (vm & env & Hd & Hvm). rewrite Hd in Hm. by destruct Hm. }
  unfold is_noop, reconcile. simpl. by rewrite Hnft, Husb.
Qed.

Definition demo_resolver : BundleResolver :=
  mkBundleResolver {["nft-1" := mkResolvedNftIntent "nft-1" "host" "body" "hash-2" "own"]}
    {["bind-1" := mkResolvedUsbipBindIntent "bind-1" "1-1" "vm-a" "env"]}.

Lemma reconcile_converges_witness :
  let observed := mkObservedHostState {["nft-1" := "hash-1"]} {["2-2"]} {["vm-a"]} in
  is_noop (reconcile demo_resolver observed) = false /\
  is_noop (reconcile demo_resolver (dispatch (reconcile demo_resolver observed) observed)) = true.
Proof.
  intros observed. split; [by vm_compute|].
  refine (proj2 (proj2 (reconcile_converges demo_resolver observed _))).
  by apply map_Forall_singleton.
Defined.

End StopDag.
