(* ===== verification/Base64.v ===== *)
(** * The base64 codec of [d2b-core] ([base64_codec.rs])

    Guest configuration bytes travel to clients as padded base64 text.
    [encode] maps bytes to text chunk by chunk; indexing the alphabet and
    the chunk panics out of range, so it returns an [option].  [decode] is the
    strict decoder.  The round trip is exact in both directions: every byte
    string has one encoding, and no other text decodes. *)

From S2P Require Import Prelude.

Module Base64.

(** ** Definitions *)

Definition ENCODE_TABLE : string :=
  "ABCDEFGHIJKLMNOPQRSTUVWXYZabcdefghijklmnopqrstuvwxyz0123456789+/".

Definition PAD : ascii := "=".

Inductive DecodeError : Set := mkDecodeError.

#[global] Instance DecodeError_eq_dec : EqDecision DecodeError.
Proof. solve_decision. Defined.

(** [slice::chunks(3)] and [slice::chunks(4)]: only the last chunk can be
    short. *)
Fixpoint chunks3 {A} (l : list A) : list (list A) :=
  match l with
  | [] => []
  | a :: b :: c :: rest => [a; b; c] :: chunks3 rest
  | _ => [l]
  end.

Fixpoint chunks4 {A} (l : list A) : list (list A) :=
  match l with
  | [] => []
  | a :: b :: c :: d :: rest => [a; b; c; d] :: chunks4 rest
  | _ => [l]
  end.

(** [ENCODE_TABLE[(index & 0x3f) as usize] as char] *)
Definition encode_symbol (index : N) : option ascii :=
  String.get (N.to_nat (N.land index 63)) ENCODE_TABLE.

Definition encode_chunk (chunk : list ascii) : option (list ascii) :=
  b0 ← N_of_ascii <$> chunk !! 0;
  let b1 := default 0%N (N_of_ascii <$> chunk !! 1) in
  let b2 := default 0%N (N_of_ascii <$> chunk !! 2) in
  let triple := N.lor (N.lor (N.shiftl b0 16) (N.shiftl b1 8)) b2 in
  c0 ← encode_symbol (N.shiftr triple 18);
  c1 ← encode_symbol (N.shiftr triple 12);
  c2 ← (if decide (1 < length chunk) then encode_symbol (N.shiftr triple 6)
        else Some PAD);
  c3 ← (if decide (2 < length chunk) then encode_symbol triple else Some PAD);
  Some [c0; c1; c2; c3].

(** The text as the list of its bytes. *)
Definition encode (input : list ascii) : option (list ascii) :=
  mjoin <$> mapM encode_chunk (chunks3 input).

Definition in_range (lo hi c : ascii) : bool :=
  (N_of_ascii lo <=? N_of_ascii c)%N && (N_of_ascii c <=? N_of_ascii hi)%N.

Definition decode_symbol (byte : ascii) : result N DecodeError :=
  if in_range "A" "Z" byte then Ok (N_of_ascii byte - N_of_ascii "A")%N
  else if in_range "a" "z" byte then Ok (N_of_ascii byte - N_of_ascii "a" + 26)%N
  else if in_range "0" "9" byte then Ok (N_of_ascii byte - N_of_ascii "0" + 52)%N
  else if bool_decide (byte = "+"%char) then Ok 62%N
  else if bool_decide (byte = "/"%char) then Ok 63%N
  else Err mkDecodeError.

(** The loop over one quad, with its buffer and pad count. *)
Fixpoint read_quad (is_last : bool) (i : nat) (quad : list ascii) (buf : list N)
    (pad : nat) : result (list N * nat) DecodeError :=
  match quad with
  | [] => Ok (buf, pad)
  | b :: quad =>
      if bool_decide (b = PAD) then
        if bool_decide (i < 2) || negb is_last then Err mkDecodeError
        else read_quad is_last (S i) quad (<[i := 0%N]> buf) (S pad)
      else if bool_decide (0 < pad) then Err mkDecodeError
      else
        match decode_symbol b with
        | Err e => Err e
        | Ok v => read_quad is_last (S i) quad (<[i := v]> buf) pad
        end
  end.

(** [value as u8] *)
Definition as_u8 (n : N) : ascii := ascii_of_N (n mod 256).

(** One round of the decoding loop: the bytes pushed for a quad. *)
Definition decode_quad (is_last : bool) (quad : list ascii) : result (list ascii) DecodeError :=
  match read_quad is_last 0 quad [0; 0; 0; 0]%N 0 with
  | Err e => Err e
  | Ok (buf, pad) =>
      let at_ k := nth k buf 0%N in
      let triple :=
        N.lor (N.lor (N.lor (N.shiftl (at_ 0) 18) (N.shiftl (at_ 1) 12))
                 (N.shiftl (at_ 2) 6)) (at_ 3) in
      if (bool_decide (pad = 1) && negb (N.land triple 255 =? 0)%N)
         || (bool_decide (pad = 2) && negb (N.land triple 65535 =? 0)%N)
      then Err mkDecodeError
      else Ok (as_u8 (N.shiftr triple 16)
                 :: (if bool_decide (pad < 2) then [as_u8 (N.shiftr triple 8)] else [])
                 ++ (if bool_decide (pad < 1) then [as_u8 triple] else []))
  end.

Fixpoint decode_quads (quad_count quad_idx : nat) (quads : list (list ascii))
    : result (list ascii) DecodeError :=
  match quads with
  | [] => Ok []
  | quad :: quads =>
      match decode_quad (bool_decide (quad_idx + 1 = quad_count)) quad with
      | Err e => Err e
      | Ok bytes =>
          match decode_quads quad_count (S quad_idx) quads with
          | Err e => Err e
          | Ok rest => Ok (bytes ++ rest)
          end
      end
  end.

Definition decode (bytes : list ascii) : result (list ascii) DecodeError :=
  if negb (bool_decide (length bytes mod 4 = 0)) then Err mkDecodeError
  else decode_quads (length bytes / 4) 0 (chunks4 bytes).

(** ** Chunks *)

Lemma chunks3_ind {A} (P : list A -> Prop) :
  P [] -> (forall a, P [a]) -> (forall a b, P [a; b]) ->
  (forall a b c l, P l -> P (a :: b :: c :: l)) -> forall l, P l.
Proof.
  intros H0 H1 H2 H3. fix IH 1.
  intros [|a [|b [|c l]]]; [exact H0|apply H1|apply H2|apply H3, IH].
Qed.

Lemma chunks4_ind {A} (P : list A -> Prop) :
  P [] -> (forall a b c d l, P l -> P (a :: b :: c :: d :: l)) ->
  forall l, length l mod 4 = 0 -> P l.
Proof.
  intros H0 H4. fix IH 1. intros [|a [|b [|c [|d l]]]]; intros Hl; try done.
  apply H4, IH. cbn [length] in Hl.
  replace (S (S (S (S (length l))))) with (length l + 1 * 4) in Hl by lia.
  by rewrite Nat.Div0.mod_add in Hl.
Qed.

(** ** Bit fields as arithmetic *)

Lemma lor_shift (a b k : N) : (b < 2 ^ k)%N -> N.lor (N.shiftl a k) b = (a * 2 ^ k + b)%N.
Proof.
  intros Hb. rewrite <- N.shiftl_mul_pow2.
  assert (N.land (N.shiftl a k) b = 0%N) as Hd.
  { apply N.bits_inj. intros i. rewrite N.land_spec, N.bits_0.
    destruct (N.lt_ge_cases i k).
    - by rewrite N.shiftl_spec_low.
    - rewrite <- (N.mod_small b (2 ^ k)) by done.
      rewrite N.mod_pow2_bits_high by done. apply andb_false_r. }
  by rewrite N.add_nocarry_lxor, N.lxor_lor.
Qed.

Lemma land_ones (a k : N) : N.land a (2 ^ k - 1) = (a mod 2 ^ k)%N.
Proof. rewrite <- N.land_ones. by rewrite N.ones_equiv, N.pred_sub. Qed.

Lemma triple3 (b0 b1 b2 : N) : (b1 < 256 -> b2 < 256 ->
  N.lor (N.lor (N.shiftl b0 16) (N.shiftl b1 8)) b2 = b0 * 65536 + b1 * 256 + b2)%N.
Proof.
  intros H1 H2. replace (N.shiftl b0 16) with (N.shiftl (N.shiftl b0 8) 8)
    by (by rewrite N.shiftl_shiftl).
  rewrite <- N.shiftl_lor, (lor_shift _ b2 8), (lor_shift b0 b1 8) by done. lia.
Qed.

Lemma triple4 (s0 s1 s2 s3 : N) : (s1 < 64 -> s2 < 64 -> s3 < 64 ->
  N.lor (N.lor (N.lor (N.shiftl s0 18) (N.shiftl s1 12)) (N.shiftl s2 6)) s3
  = s0 * 262144 + s1 * 4096 + s2 * 64 + s3)%N.
Proof.
  intros H1 H2 H3.
  replace (N.shiftl s0 18) with (N.shiftl (N.shiftl (N.shiftl s0 6) 6) 6)
    by (by rewrite !N.shiftl_shiftl).
  replace (N.shiftl s1 12) with (N.shiftl (N.shiftl s1 6) 6) by (by rewrite N.shiftl_shiftl).
  rewrite <- !N.shiftl_lor, (lor_shift _ s3 6), (lor_shift _ s2 6), (lor_shift s0 s1 6) by done.
  lia.
Qed.

Lemma N_of_ascii_lt (a : ascii) : (N_of_ascii a < 256)%N.
Proof. apply N_ascii_bounded. Qed.

Lemma as_u8_spec (n : N) (a : ascii) : (n mod 256 = N_of_ascii a)%N -> as_u8 n = a.
Proof. unfold as_u8. intros ->. apply ascii_N_embedding. Qed.

(** ** Symbols *)

Lemma symbol_encode (c : ascii) (i : N) :
  decode_symbol c = Ok i -> (i < 64)%N /\ encode_symbol i = Some c /\ c <> PAD.
Proof.
  destruct c as [[] [] [] [] [] [] [] []]; vm_compute; intros [= <-]; repeat split; discriminate.
Qed.

Definition symbol_agrees (n : nat) : bool :=
  match String.get n ENCODE_TABLE with
  | Some c => bool_decide (decode_symbol c = Ok (N.of_nat n)) && negb (bool_decide (c = PAD))
  | None => false
  end.

Lemma symbols_agree : forallb symbol_agrees (seq 0 64) = true.
Proof. vm_compute. reflexivity. Qed.

Lemma symbol_decode (i : N) :
  exists c, encode_symbol i = Some c /\ decode_symbol c = Ok (i mod 64)%N /\ c <> PAD.
Proof.
  unfold encode_symbol. change 63%N with (2 ^ 6 - 1)%N. rewrite land_ones.
  change (2 ^ 6)%N with 64%N. assert (i mod 64 < 64)%N as Hlt by (by apply N.mod_lt).
  revert Hlt. generalize (i mod 64)%N as j. intros j Hj.
  pose proof symbols_agree as Hall. rewrite forallb_elem in Hall.
  specialize (Hall (N.to_nat j)). rewrite elem_of_seq in Hall.
  unfold symbol_agrees in Hall.
  destruct (String.get _ _) as [c|]; [|by assert (false = true) by (apply Hall; lia)].
  exists c. apply andb_prop in Hall as [Hd Hp]; [|lia].
  apply bool_decide_eq_true in Hd. rewrite N2Nat.id in Hd.
  apply negb_true_iff, bool_decide_eq_false in Hp. auto.
Qed.

(** ** The digits of a 24-bit group

    A group is three base-256 digits and four base-64 digits. *)

Ltac euclid := zify; Z.to_euclidean_division_equations; lia.

Lemma byte_digits (b0 b1 b2 : N) (t := (b0 * 65536 + b1 * 256 + b2)%N) :
  (b0 < 256 -> b1 < 256 -> b2 < 256 ->
   t / 65536 mod 256 = b0 /\ t / 256 mod 256 = b1 /\ t mod 256 = b2 /\ t < 16777216)%N.
Proof. intros H0 H1 H2. subst t. repeat split; euclid. Qed.

Lemma symbol_digits (s0 s1 s2 s3 : N) (t := (s0 * 262144 + s1 * 4096 + s2 * 64 + s3)%N) :
  (s0 < 64 -> s1 < 64 -> s2 < 64 -> s3 < 64 ->
   t / 262144 mod 64 = s0 /\ t / 4096 mod 64 = s1 /\ t / 64 mod 64 = s2 /\ t mod 64 = s3
   /\ t < 16777216)%N.
Proof. intros H0 H1 H2 H3. subst t. repeat split; euclid. Qed.

Lemma bytes_join (t : N) : (t < 16777216 ->
  t / 65536 mod 256 * 65536 + t / 256 mod 256 * 256 + t mod 256 = t)%N.
Proof.
  intros Ht. rewrite (N.mod_small (t / 65536)) by euclid.
  replace (t / 65536)%N with (t / 256 / 256)%N by (by rewrite N.Div0.div_div).
  pose proof (N.Div0.div_mod t 256). pose proof (N.Div0.div_mod (t / 256) 256). lia.
Qed.

Lemma symbols_join (t : N) : (t < 16777216 ->
  t / 262144 mod 64 * 262144 + t / 4096 mod 64 * 4096 + t / 64 mod 64 * 64 + t mod 64 = t)%N.
Proof.
  intros Ht. rewrite (N.mod_small (t / 262144)) by euclid.
  replace (t / 262144)%N with (t / 64 / 64 / 64)%N by (by rewrite !N.Div0.div_div).
  replace (t / 4096)%N with (t / 64 / 64)%N by (by rewrite N.Div0.div_div).
  pose proof (N.Div0.div_mod t 64). pose proof (N.Div0.div_mod (t / 64) 64).
  pose proof (N.Div0.div_mod (t / 64 / 64) 64). lia.
Qed.

(** ** One quad

    [quad_of pad chunk quad]: the bytes and the symbols are the digits of one
    24-bit group [t] whose [pad] last bytes are zero and left out. *)
Inductive quad_of : nat -> list ascii -> list ascii -> Prop :=
| quad_full t a0 a1 a2 c0 c1 c2 c3 :
    (t < 16777216)%N ->
    (t / 65536 mod 256 = N_of_ascii a0)%N -> (t / 256 mod 256 = N_of_ascii a1)%N ->
    (t mod 256 = N_of_ascii a2)%N ->
    decode_symbol c0 = Ok (t / 262144 mod 64)%N -> decode_symbol c1 = Ok (t / 4096 mod 64)%N ->
    decode_symbol c2 = Ok (t / 64 mod 64)%N -> decode_symbol c3 = Ok (t mod 64)%N ->
    quad_of 0 [a0; a1; a2] [c0; c1; c2; c3]
| quad_pad1 t a0 a1 c0 c1 c2 :
    (t < 16777216)%N ->
    (t / 65536 mod 256 = N_of_ascii a0)%N -> (t / 256 mod 256 = N_of_ascii a1)%N ->
    (t mod 256 = 0)%N ->
    decode_symbol c0 = Ok (t / 262144 mod 64)%N -> decode_symbol c1 = Ok (t / 4096 mod 64)%N ->
    decode_symbol c2 = Ok (t / 64 mod 64)%N ->
    quad_of 1 [a0; a1] [c0; c1; c2; PAD]
| quad_pad2 t a0 c0 c1 :
    (t < 16777216)%N -> (t / 65536 mod 256 = N_of_ascii a0)%N -> (t mod 65536 = 0)%N ->
    decode_symbol c0 = Ok (t / 262144 mod 64)%N -> decode_symbol c1 = Ok (t / 4096 mod 64)%N ->
    quad_of 2 [a0] [c0; c1; PAD; PAD].

(** The group of a chunk, missing bytes read as zero. *)
Definition group_of (chunk : list ascii) : N :=
  let b (k : nat) := default 0%N (N_of_ascii <$> chunk !! k) in
  (b 0%nat * 65536 + b 1%nat * 256 + b 2%nat)%N.

Lemma encode_chunk_group chunk :
  1 <= length chunk ->
  encode_chunk chunk =
    (let t := group_of chunk in
     c0 ← encode_symbol (t / 262144);
     c1 ← encode_symbol (t / 4096);
     c2 ← (if decide (1 < length chunk) then encode_symbol (t / 64) else Some PAD);
     c3 ← (if decide (2 < length chunk) then encode_symbol t else Some PAD);
     Some [c0; c1; c2; c3]).
Proof.
  intros Hlen. unfold encode_chunk, group_of.
  destruct (chunk !! 0) as [a0|] eqn:H0; [|apply lookup_ge_None in H0; lia].
  cbn [fmap option_fmap option_map mbind option_bind default from_option id].
  rewrite triple3, !N.shiftr_div_pow2; [done|..];
    [destruct (chunk !! 1)|destruct (chunk !! 2)]; first [apply N_of_ascii_lt|done].
Qed.

Lemma encode_symbol_mod (t : N) (c : ascii) :
  decode_symbol c = Ok (t mod 64)%N -> encode_symbol t = Some c.
Proof.
  intros Hc. destruct (symbol_encode _ _ Hc) as (_ & <- & _).
  unfold encode_symbol. change 63%N with (2 ^ 6 - 1)%N. rewrite !land_ones.
  change (2 ^ 6)%N with 64%N. by rewrite N.Div0.mod_mod.
Qed.

(** A chunk's quad encodes it, and there is one for every chunk. *)
Lemma quad_encode pad chunk quad :
  quad_of pad chunk quad -> encode_chunk chunk = Some quad.
Proof.
  intros Hq. rewrite encode_chunk_group by (destruct Hq; simpl; lia).
  destruct Hq as [t a0 a1 a2 c0 c1 c2 c3 Ht H0 H1 H2 K0 K1 K2 K3
                 |t a0 a1 c0 c1 c2 Ht H0 H1 H2 K0 K1 K2|t a0 c0 c1 Ht H0 H2 K0 K1].
  - replace (group_of _) with t
      by (rewrite <- (bytes_join t Ht), H0, H1, H2; reflexivity).
    cbn zeta. by rewrite (encode_symbol_mod _ _ K0), (encode_symbol_mod _ _ K1), (encode_symbol_mod _ _ K2), (encode_symbol_mod _ _ K3).
  - replace (group_of _) with t
      by (rewrite <- (bytes_join t Ht), H0, H1, H2; reflexivity).
    cbn zeta. by rewrite (encode_symbol_mod _ _ K0), (encode_symbol_mod _ _ K1), (encode_symbol_mod _ _ K2).
  - replace (group_of _) with t.
    { cbn zeta. by rewrite (encode_symbol_mod _ _ K0), (encode_symbol_mod _ _ K1). }
    assert (t / 256 mod 256 = 0 /\ t mod 256 = 0)%N as [H1 H3] by (clear -H2; split; euclid).
    rewrite <- (bytes_join t Ht), H0, H1, H3. reflexivity.
Qed.

Lemma chunk_quad chunk :
  1 <= length chunk <= 3 -> exists quad, quad_of (3 - length chunk) chunk quad.
Proof.
  intros Hlen. destruct chunk as [|a0 [|a1 [|a2 [|? ?]]]]; cbn [length] in Hlen; try lia.
  - pose proof (N_of_ascii_lt a0) as B0.
    destruct (byte_digits _ 0 0 B0) as (H0 & H1 & H2 & Ht); [done..|].
    destruct (symbol_decode ((N_of_ascii a0 * 65536 + 0 * 256 + 0) / 262144)) as (c0 & _ & K0 & _).
    destruct (symbol_decode ((N_of_ascii a0 * 65536 + 0 * 256 + 0) / 4096)) as (c1 & _ & K1 & _).
    exists [c0; c1; PAD; PAD]. apply (quad_pad2 _ _ _ _ Ht H0); [clear; euclid|done..].
  - pose proof (N_of_ascii_lt a0) as B0. pose proof (N_of_ascii_lt a1) as B1.
    destruct (byte_digits _ _ 0 B0 B1) as (H0 & H1 & H2 & Ht); [done|].
    set (t := (N_of_ascii a0 * 65536 + N_of_ascii a1 * 256 + 0)%N) in *.
    destruct (symbol_decode (t / 262144)) as (c0 & _ & K0 & _).
    destruct (symbol_decode (t / 4096)) as (c1 & _ & K1 & _).
    destruct (symbol_decode (t / 64)) as (c2 & _ & K2 & _).
    eexists. by apply (quad_pad1 t).
  - destruct (byte_digits _ _ _ (N_of_ascii_lt a0) (N_of_ascii_lt a1) (N_of_ascii_lt a2))
      as (H0 & H1 & H2 & Ht).
    set (t := (N_of_ascii a0 * 65536 + N_of_ascii a1 * 256 + N_of_ascii a2)%N) in *.
    destruct (symbol_decode (t / 262144)) as (c0 & _ & K0 & _).
    destruct (symbol_decode (t / 4096)) as (c1 & _ & K1 & _).
    destruct (symbol_decode (t / 64)) as (c2 & _ & K2 & _).
    destruct (symbol_decode t) as (c3 & _ & K3 & _).
    eexists. by apply (quad_full t).
Qed.

(** What the inner loop reads. *)
Definition quad_value (is_last : bool) (s0 s1 s2 s3 : N) (pad : nat) :
    result (list ascii) DecodeError :=
  let t := (s0 * 262144 + s1 * 4096 + s2 * 64 + s3)%N in
  if (bool_decide (pad = 1) && negb (t mod 256 =? 0)%N)
     || (bool_decide (pad = 2) && negb (t mod 65536 =? 0)%N) then Err mkDecodeError
  else Ok (as_u8 (t / 65536) :: (if bool_decide (pad < 2) then [as_u8 (t / 256)] else [])
             ++ (if bool_decide (pad < 1) then [as_u8 t] else [])).

Lemma read_symbol is_last i c v quad buf :
  decode_symbol c = Ok v ->
  read_quad is_last i (c :: quad) buf 0 = read_quad is_last (S i) quad (<[i := v]> buf) 0.
Proof.
  intros Hc. destruct (symbol_encode _ _ Hc) as (_ & _ & Hp). cbn [read_quad].
  rewrite bool_decide_false by done. by rewrite Hc.
Qed.

Lemma decode_quad_value is_last quad s0 s1 s2 s3 pad :
  read_quad is_last 0 quad [0; 0; 0; 0]%N 0 = Ok ([s0; s1; s2; s3], pad) ->
  (s1 < 64)%N -> (s2 < 64)%N -> (s3 < 64)%N ->
  decode_quad is_last quad = quad_value is_last s0 s1 s2 s3 pad.
Proof.
  intros Hr H1 H2 H3. unfold decode_quad, quad_value. rewrite Hr. cbn [nth].
  rewrite triple4 by done. change 255%N with (2 ^ 8 - 1)%N. change 65535%N with (2 ^ 16 - 1)%N.
  by rewrite !land_ones, !N.shiftr_div_pow2.
Qed.

Lemma quad_decode is_last pad chunk quad :
  quad_of pad chunk quad -> pad = 0 \/ is_last = true -> decode_quad is_last quad = Ok chunk.
Proof.
  intros Hq Hl.
  destruct Hq as [t a0 a1 a2 c0 c1 c2 c3 Ht H0 H1 H2 K0 K1 K2 K3
                 |t a0 a1 c0 c1 c2 Ht H0 H1 H2 K0 K1 K2|t a0 c0 c1 Ht H0 H2 K0 K1].
  - erewrite decode_quad_value;
      [|by rewrite (read_symbol _ _ _ _ _ _ K0), (read_symbol _ _ _ _ _ _ K1),
             (read_symbol _ _ _ _ _ _ K2), (read_symbol _ _ _ _ _ _ K3)|by apply N.mod_lt..].
    unfold quad_value. rewrite symbols_join by done. simpl.
    by rewrite (as_u8_spec _ _ H0), (as_u8_spec _ _ H1), (as_u8_spec _ _ H2).
  - destruct Hl as [?| ->]; [done|].
    erewrite decode_quad_value;
      [|by rewrite (read_symbol _ _ _ _ _ _ K0), (read_symbol _ _ _ _ _ _ K1),
             (read_symbol _ _ _ _ _ _ K2)|by first [apply N.mod_lt|done]..].
    assert (t mod 64 = 0)%N as H3 by (clear -H2; euclid).
    pose proof (symbols_join t Ht) as Hj. rewrite H3 in Hj.
    unfold quad_value. rewrite Hj, H2. simpl.
    by rewrite (as_u8_spec _ _ H0), (as_u8_spec _ _ H1).
  - destruct Hl as [?| ->]; [done|].
    erewrite decode_quad_value;
      [|by rewrite (read_symbol _ _ _ _ _ _ K0), (read_symbol _ _ _ _ _ _ K1)
       |by first [apply N.mod_lt|done]..].
    assert (t mod 64 = 0 /\ t / 64 mod 64 = 0)%N as [H3 H4] by (clear -H2; split; euclid).
    pose proof (symbols_join t Ht) as Hj. rewrite H3, H4 in Hj.
    unfold quad_value. rewrite Hj, H2. simpl.
    by rewrite (as_u8_spec _ _ H0).
Qed.

Lemma read_quad_some is_last c0 c1 c2 c3 buf pad :
  read_quad is_last 0 [c0; c1; c2; c3] [0; 0; 0; 0]%N 0 = Ok (buf, pad) ->
  exists s0 s1 s2 s3, buf = [s0; s1; s2; s3]
    /\ decode_symbol c0 = Ok s0 /\ decode_symbol c1 = Ok s1
    /\ (pad = 0 /\ decode_symbol c2 = Ok s2 /\ decode_symbol c3 = Ok s3
        \/ pad = 1 /\ is_last = true /\ decode_symbol c2 = Ok s2 /\ c3 = PAD /\ s3 = 0%N
        \/ pad = 2 /\ is_last = true /\ c2 = PAD /\ c3 = PAD /\ s2 = 0%N /\ s3 = 0%N).
Proof.
  intros Hr. cbn [read_quad] in Hr.
  repeat (case_match; simplify_eq/=); repeat (case_bool_decide; simplify_eq/=; try lia);
    destruct is_last; simplify_eq/=; naive_solver.
Qed.

Lemma as_u8_mod (n : N) : N_of_ascii (as_u8 n) = (n mod 256)%N.
Proof. unfold as_u8. rewrite N_ascii_embedding; [done|by apply N.mod_lt]. Qed.

Lemma decode_quad_of is_last quad chunk :
  length quad = 4 -> decode_quad is_last quad = Ok chunk ->
  exists pad, quad_of pad chunk quad /\ (pad = 0 \/ is_last = true).
Proof.
  intros Hlen Hd. destruct quad as [|c0 [|c1 [|c2 [|c3 [|? ?]]]]]; try discriminate Hlen.
  destruct (read_quad is_last 0 [c0; c1; c2; c3] [0; 0; 0; 0]%N 0) as [[buf pad]|e] eqn:Hr;
    [|unfold decode_quad in Hd; by rewrite Hr in Hd].
  destruct (read_quad_some _ _ _ _ _ _ _ Hr) as (s0 & s1 & s2 & s3 & -> & K0 & K1 & Hpad).
  destruct (symbol_encode _ _ K0) as (B0 & _). destruct (symbol_encode _ _ K1) as (B1 & _).
  assert (s2 < 64 /\ s3 < 64)%N as [B2 B3].
  { destruct Hpad as [(_ & K2 & K3)|[(_ & _ & K2 & _ & ->)|(_ & _ & _ & _ & -> & ->)]];
      [|by destruct (symbol_encode _ _ K2)|done].
    by destruct (symbol_encode _ _ K2), (symbol_encode _ _ K3). }
  rewrite (decode_quad_value _ _ _ _ _ _ _ Hr B1 B2 B3) in Hd. unfold quad_value in Hd.
  destruct (symbol_digits _ _ _ _ B0 B1 B2 B3) as (D0 & D1 & D2 & D3 & Ht).
  set (t := (s0 * 262144 + s1 * 4096 + s2 * 64 + s3)%N) in *.
  destruct Hpad as [(-> & K2 & K3)|[(-> & -> & K2 & -> & ->)|(-> & -> & -> & -> & -> & ->)]];
    simpl in Hd.
  - simplify_eq. exists 0. split; [|by left].
    apply (quad_full t); rewrite ?as_u8_mod, ?D0, ?D1, ?D2, ?D3; done.
  - destruct (t mod 256 =? 0)%N eqn:E; simplify_eq/=. apply N.eqb_eq in E.
    exists 1. split; [|by right]. apply (quad_pad1 t); rewrite ?as_u8_mod, ?D0, ?D1, ?D2; done.
  - destruct (t mod 65536 =? 0)%N eqn:E; simplify_eq/=. apply N.eqb_eq in E.
    exists 2. split; [|by right]. apply (quad_pad2 t); rewrite ?as_u8_mod, ?D0, ?D1; done.
Qed.

(** ** Whole texts *)

Inductive text_of : list ascii -> list ascii -> Prop :=
| text_nil : text_of [] []
| text_last pad chunk quad :
    quad_of pad chunk quad -> pad <> 0 -> text_of chunk quad
| text_cons chunk quad bytes text :
    quad_of 0 chunk quad -> text_of bytes text -> text_of (chunk ++ bytes) (quad ++ text).

Lemma quad_lengths pad chunk quad :
  quad_of pad chunk quad -> length quad = 4 /\ length chunk + pad = 3 /\ 1 <= length chunk.
Proof. intros []; simpl; lia. Qed.

Lemma text_encode bytes text : text_of bytes text -> encode bytes = Some text.
Proof.
  induction 1 as [|pad chunk quad Hq Hp|chunk quad bytes text Hq _ IH]; [done|..].
  - pose proof (quad_encode _ _ _ Hq) as He. unfold encode.
    destruct Hq; try done; cbn [chunks3 mapM]; rewrite He; done.
  - pose proof (quad_encode _ _ _ Hq) as He. unfold encode in *.
    inversion Hq; subst. cbn [app chunks3 mapM]. rewrite He. cbn [mbind option_bind].
    destruct (mapM encode_chunk (chunks3 bytes)); simplify_eq/=. done.
Qed.

Lemma text_exists bytes : exists text, text_of bytes text.
Proof.
  induction bytes as [|a|a b|a b c bytes [text IH]] using chunks3_ind.
  - exists []. constructor.
  - destruct (chunk_quad [a]) as [quad Hq]; [simpl; lia|]. exists quad. by apply (text_last 2).
  - destruct (chunk_quad [a; b]) as [quad Hq]; [simpl; lia|]. exists quad. by apply (text_last 1).
  - destruct (chunk_quad [a; b; c]) as [quad Hq]; [simpl; lia|].
    exists (quad ++ text). by apply (text_cons [a; b; c]).
Qed.

Lemma text_length bytes text :
  text_of bytes text -> length text = 4 * ((length bytes + 2) / 3).
Proof.
  induction 1 as [|pad chunk quad Hq Hp|chunk quad bytes text Hq _ IH]; [done|..].
  - destruct Hq; done.
  - apply quad_lengths in Hq as (Hq & Hc & _). rewrite !length_app, Hq, IH.
    replace (length chunk) with 3 by lia.
    replace (3 + length bytes + 2) with (length bytes + 2 + 1 * 3) by lia.
    rewrite Nat.div_add by done. lia.
Qed.

(** The loop from round [k] on, of [k + length quads] rounds. *)
Lemma text_decode bytes text k :
  text_of bytes text ->
  decode_quads (k + length (chunks4 text)) k (chunks4 text) = Ok bytes.
Proof.
  intros Ht. revert k.
  induction Ht as [|pad chunk quad Hq Hp|chunk quad bytes text Hq _ IH]; intros k; [done|..].
  - pose proof (quad_decode true _ _ _ Hq (or_intror eq_refl)) as Hd.
    destruct Hq; try done; cbn [chunks4 decode_quads length];
      rewrite bool_decide_true by done; rewrite Hd; by rewrite app_nil_r.
  - inversion Hq; subst. cbn [app chunks4 decode_quads length].
    rewrite (quad_decode _ _ _ _ Hq) by (by left).
    replace (k + S (length (chunks4 text))) with (S k + length (chunks4 text)) by lia.
    by rewrite IH.
Qed.

Lemma decode_text text k bytes :
  length text mod 4 = 0 ->
  decode_quads (k + length (chunks4 text)) k (chunks4 text) = Ok bytes -> text_of bytes text.
Proof.
  intros Hm. revert k bytes. pattern text. apply chunks4_ind; [..|done]; clear text Hm.
  { intros k bytes [= <-]. constructor. }
  intros c0 c1 c2 c3 text IH k bytes Hd. cbn [chunks4 decode_quads length] in Hd.
  destruct (decode_quad _ _) as [chunk|] eqn:Hq; [|done].
  replace (k + S (length (chunks4 text))) with (S k + length (chunks4 text)) in Hd, Hq by lia.
  destruct (decode_quads _ _ _) as [rest|] eqn:Hrest; simplify_eq/=.
  apply decode_quad_of in Hq as (pad & Hq & Hpad); [|done].
  destruct (decide (pad = 0)) as [->|Hp].
  - apply (text_cons chunk [c0; c1; c2; c3]); [done|]. by apply (IH (S k)).
  - destruct Hpad as [?|Hl]; [done|]. apply bool_decide_eq_true in Hl.
    destruct (chunks4 text) eqn:Ec; [|simpl in Hl; lia]. simplify_eq/=.
    rewrite app_nil_r. assert (text = []) as -> by (by destruct text as [|? [|? [|? [|? ?]]]]).
    by apply (text_last pad).
Qed.

Lemma chunks4_length (text : list ascii) :
  length text mod 4 = 0 -> length (chunks4 text) = length text / 4.
Proof.
  intros Hm. pattern text. apply chunks4_ind; [done| |done].
  intros a b c d l IH. cbn [chunks4 length]. rewrite IH.
  replace (S (S (S (S (length l))))) with (length l + 1 * 4) by lia.
  rewrite Nat.div_add by done. lia.
Qed.

(** Base64 is an exact round trip: every byte string encodes (no index
    is out of range) to a text of four characters per started group of three
    bytes, and a text decodes to the bytes exactly when it is their encoding,
    so stray padding, foreign characters and non-canonical trailing bits are
    all refused. *)
Theorem base64_exact (bytes : list ascii) :
  (exists text, encode bytes = Some text /\ length text = 4 * ((length bytes + 2) / 3))
  /\ (forall text, decode text = Ok bytes <-> encode bytes = Some text).
Proof.
  destruct (text_exists bytes) as [t Ht]. pose proof (text_encode _ _ Ht) as He.
  split; [exists t; eauto using text_length|]. intros text. unfold decode. split.
  - destruct (decide (length text mod 4 = 0)) as [Hm|Hm];
      [rewrite bool_decide_true by done|by rewrite bool_decide_false]. cbn [negb].
    rewrite <- chunks4_length by done. intros Hd.
    by apply text_encode, (decode_text _ 0).
  - rewrite He. intros [= <-]. rewrite bool_decide_true
      by (rewrite (text_length _ _ Ht), Nat.mul_comm; apply Nat.Div0.mod_mul). cbn [negb].
    rewrite <- chunks4_length by (rewrite (text_length _ _ Ht), Nat.mul_comm; apply Nat.Div0.mod_mul).
    apply (text_decode _ _ 0 Ht).
Qed.

(** The test vectors of RFC 4648. *)
Example encode_vectors :
  encode (list_ascii_of_string "foobar") = Some (list_ascii_of_string "Zm9vYmFy")
  /\ encode (list_ascii_of_string "fo") = Some (list_ascii_of_string "Zm8=")
  /\ decode (list_ascii_of_string "Zg==AAAA") = Err mkDecodeError
  /\ decode (list_ascii_of_string "Zh==") = Err mkDecodeError.
Proof. vm_compute. done. Qed.

End Base64.
