(* ===== verification/Rings.v ===== *)
(** * Bounded output rings

    Console and command output is kept in rings that drop the oldest bytes.
    Three of them live in memory: [Module ConsoleRing] is the physical
    circular buffer of [d2b-core] ([console_ring.rs]); [Module HelperRing] is
    the cursor ring of [d2b-unsafe-local-helper] ([output_ring.rs]);
    [Module ExecRing] is the ring of [d2b-guestd] ([exec.rs]).

    [Class Ring] is what the three have in common, and [Class RingLaws] what
    each promises: it represents a history of written bytes, of which it keeps
    the last [capacity].  The theorems of each ring compare its read with a
    slice of that history. *)

From S2P Require Import Prelude.

(** ** The reference: a window of the written bytes *)

(** Offset of the oldest byte a ring of capacity [cap] still holds. *)
Definition window_start (cap : nat) (history : list ascii) : N :=
  N.of_nat (length history - cap).

Definition written (history : list ascii) : N := N.of_nat (length history).

(** At most [n] bytes of the stream from logical offset [offset] on. *)
Definition stream_slice (history : list ascii) (offset n : N) : list ascii :=
  take (N.to_nat n) (drop (N.to_nat offset) history).

(** ** The interface *)

Inductive ring_op : Type :=
| Append (bytes : list ascii)
| Close.

Class Ring (R : Type) := {
  ring_new : nat -> option R;
  ring_append : list ascii -> R -> option R;
  ring_close : R -> R
}.

Definition ring_step {R} `{Ring R} (r : R) (op : ring_op) : option R :=
  match op with
  | Append bytes => ring_append bytes r
  | Close => Some (ring_close r)
  end.

Fixpoint ring_run {R} `{Ring R} (r : R) (ops : list ring_op) : option R :=
  match ops with
  | [] => Some r
  | op :: ops => r' ← ring_step r op; ring_run r' ops
  end.

(** All bytes of a run, and whether it closed the ring. *)
Fixpoint history_of (ops : list ring_op) : list ascii :=
  match ops with
  | [] => []
  | Append bytes :: ops => bytes ++ history_of ops
  | Close :: ops => history_of ops
  end.

Definition closed_by (ops : list ring_op) : bool :=
  existsb (fun op => match op with Close => true | Append _ => false end) ops.

Class RingLaws (R : Type) `{Ring R} := {
  ring_repr : nat -> list ascii -> bool -> R -> Prop;
  new_repr cap : 0 < cap -> exists r, ring_new cap = Some r /\ ring_repr cap [] false r;
  append_repr cap history eof r bytes :
    ring_repr cap history eof r -> u64_fits (written (history ++ bytes)) ->
    exists r', ring_append bytes r = Some r' /\ ring_repr cap (history ++ bytes) eof r';
  close_repr cap history eof r :
    ring_repr cap history eof r -> ring_repr cap history true (ring_close r)
}.

Lemma run_repr {R} `{RingLaws R} cap history eof (r : R) ops :
  ring_repr cap history eof r -> u64_fits (written (history ++ history_of ops)) ->
  exists r', ring_run r ops = Some r'
    /\ ring_repr cap (history ++ history_of ops) (eof || closed_by ops) r'.
Proof.
  revert history eof r. induction ops as [|[bytes|] ops IH]; intros history eof r Hr Hfit; simpl.
  - exists r. by rewrite app_nil_r, orb_false_r.
  - destruct (append_repr cap history eof r bytes Hr) as (r1 & -> & Hr1).
    { unfold u64_fits, written in *. simpl in Hfit. rewrite !length_app in *. lia. }
    simpl in *. rewrite app_assoc in Hfit |- *. by apply IH.
  - rewrite orb_true_r. destruct (IH history true (ring_close r)) as (r' & -> & Hr');
      [by eapply close_repr|done|]. eauto.
Qed.

(** Every run from a fresh ring succeeds and represents its history. *)
Lemma fresh_run {R} `{RingLaws R} cap ops :
  0 < cap -> u64_fits (written (history_of ops)) ->
  exists r0 r : R, ring_new cap = Some r0 /\ ring_run r0 ops = Some r
    /\ ring_repr cap (history_of ops) (closed_by ops) r.
Proof.
  intros Hc Hfit. destruct (new_repr cap Hc) as (r0 & Hn & Hr0).
  destruct (run_repr cap [] false r0 ops Hr0 Hfit) as (r & Hr & Hrepr). eauto 6.
Qed.

(** ** Slices and machine sizes *)

(** [usize] subtraction; underflow panics. *)
Definition usize_sub (a b : nat) : option nat :=
  if decide (b <= a) then Some (a - b) else None.

Definition u64_sub (a b : N) : option N :=
  if decide (b <= a)%N then Some (a - b)%N else None.

Lemma usize_sub_ok a b : b <= a -> usize_sub a b = Some (a - b).
Proof. intros. unfold usize_sub. by rewrite decide_True. Qed.

Lemma u64_sub_ok a b : (b <= a)%N -> u64_sub a b = Some (a - b)%N.
Proof. intros. unfold u64_sub. by rewrite decide_True. Qed.

(** [&l[a..b]]: out of range panics. *)
Definition slice {A} (l : list A) (a b : nat) : option (list A) :=
  if decide (a <= b <= length l) then Some (take (b - a) (drop a l)) else None.

(** [l[a..b].copy_from_slice(src)] with [b = a + src.len()]. *)
Definition copy_into {A} (l : list A) (a : nat) (src : list A) : option (list A) :=
  if decide (a + length src <= length l)
  then Some (take a l ++ src ++ drop (a + length src) l) else None.

Lemma slice_ok {A} (l : list A) a b :
  a <= b <= length l -> slice l a b = Some (take (b - a) (drop a l)).
Proof. intros. unfold slice. by rewrite decide_True. Qed.

Lemma copy_into_ok {A} (l : list A) a src :
  a + length src <= length l ->
  exists l', copy_into l a src = Some l' /\ length l' = length l
    /\ forall i, l' !! i = if decide (a <= i < a + length src) then src !! (i - a) else l !! i.
Proof.
  intros Hle. unfold copy_into. rewrite decide_True by done. eexists. split; [done|].
  split; [rewrite !length_app, length_take, length_drop; lia|].
  intros i. case_decide as Hi.
  - rewrite lookup_app_r by (rewrite length_take; lia).
    rewrite lookup_app_l by (rewrite length_take; lia). f_equal. rewrite length_take. lia.
  - destruct (decide (i < a)).
    + rewrite lookup_app_l by (rewrite length_take; lia). by rewrite lookup_take_lt.
    + rewrite lookup_app_r by (rewrite length_take; lia).
      rewrite lookup_app_r by (rewrite length_take; lia).
      rewrite lookup_drop. f_equal. rewrite length_take. lia.
Qed.

Lemma tail_drop {A} (l : list A) n : tail (drop n l) = drop (S n) l.
Proof. revert l. induction n as [|n IH]; intros [|x l]; try done. apply IH. Qed.

(** A remainder whose operand is below twice the modulus. *)
Lemma mod_once x c : x < 2 * c -> x mod c = if decide (x < c) then x else x - c.
Proof.
  intros Hx. case_decide as Hc; [by apply Nat.mod_small|].
  replace x with (x - c + 1 * c) at 1 by lia.
  rewrite Nat.Div0.mod_add. apply Nat.mod_small. lia.
Qed.

Module ConsoleRing.

(** ** The console ring *)

Record RingBuffer := mkRingBuffer {
  data : list ascii;
  capacity : nat;
  head : nat;
  len : nat;
  base_offset : N;
  total_written : N;
  is_eof : bool
}.

(** [assert!(capacity > 0)] panics on zero. *)
Definition new (capacity : nat) : option RingBuffer :=
  if decide (0 < capacity)
  then Some (mkRingBuffer (replicate capacity Ascii.zero) capacity 0 0 0 0 false)
  else None.

Definition push_bytes (bytes : list ascii) (self : RingBuffer) : option RingBuffer :=
  if bool_decide (bytes = []) then Some self
  else
    let incoming := length bytes in
    '(skip, effective) ← (if decide (capacity self <= incoming)
      then tail ← slice bytes (incoming - capacity self) incoming;
           Some (incoming - capacity self, tail)
      else Some (0, bytes));
    let evict := len self + length effective - capacity self in
    len1 ← usize_sub (len self) evict;
    let total_dropped := skip + evict in
    let base := u64_saturating_add (base_offset self) (N.of_nat total_dropped) in
    room ← usize_sub (capacity self) (head self);
    let first_chunk_len := room `min` length effective in
    first ← slice effective 0 first_chunk_len;
    data1 ← copy_into (data self) (head self) first;
    data2 ← (if decide (first_chunk_len < length effective)
      then rest ← slice effective first_chunk_len (length effective); copy_into data1 0 rest
      else Some data1);
    Some (mkRingBuffer data2 (capacity self)
            ((head self + length effective) mod capacity self)
            (len1 + length effective) base
            (u64_saturating_add (total_written self) (N.of_nat incoming)) (is_eof self)).

Record RingReadResult := mkRingReadResult {
  rr_actual_offset : N;
  rr_data : list ascii;
  rr_base_offset : N;
  rr_dropped_bytes : N;
  rr_is_eof : bool
}.

(** The outer option is a panic, the inner one the function's [None]. *)
Definition read_at (offset max_len : N) (self : RingBuffer) : option (option RingReadResult) :=
  let ended :=
    if is_eof self
    then Some (Some (mkRingReadResult (total_written self) [] (base_offset self)
                       (base_offset self) true))
    else Some None in
  if bool_decide (len self = 0) then ended
  else
    let actual_offset := N.max offset (base_offset self) in
    if bool_decide (total_written self <= actual_offset)%N then ended
    else
      available ← u64_sub (total_written self) actual_offset;
      let read_len := N.to_nat (N.min available max_len) in
      if bool_decide (read_len = 0)
      then Some (Some (mkRingReadResult actual_offset [] (base_offset self)
                         (base_offset self) (is_eof self)))
      else
        before ← u64_sub (total_written self) (N.of_nat (len self));
        gap ← u64_sub before (base_offset self);
        ahead ← u64_sub actual_offset (base_offset self);
        let start_in_ring := N.to_nat gap + N.to_nat ahead in
        back ← usize_sub (head self + capacity self) (len self);
        let tail_start := back mod capacity self in
        let phys_start := (tail_start + start_in_ring) mod capacity self in
        let first_len := (capacity self - phys_start) `min` read_len in
        first ← slice (data self) phys_start (phys_start + first_len);
        rest ← (if decide (first_len < read_len)
                then slice (data self) 0 (read_len - first_len) else Some []);
        Some (Some (mkRingReadResult actual_offset (first ++ rest) (base_offset self)
                      (base_offset self) (is_eof self))).

Definition close (self : RingBuffer) : RingBuffer :=
  mkRingBuffer (data self) (capacity self) (head self) (len self) (base_offset self)
    (total_written self) true.

#[global] Instance console_ring : Ring RingBuffer := {
  ring_new := new;
  ring_append := push_bytes;
  ring_close := close
}.

(** What a read returns, in terms of the written bytes. *)
Definition read_spec (cap : nat) (history : list ascii) (eof : bool) (offset max_len : N) :
    option RingReadResult :=
  let start := window_start cap history in
  let from := N.max offset start in
  if decide (written history <= from)%N
  then (if eof then Some (mkRingReadResult (written history) [] start start true) else None)
  else Some (mkRingReadResult from (stream_slice history from max_len) start start eof).

(** Cell [i] of the window lies [i] places after the tail. *)
Definition cell (self : RingBuffer) (i : nat) : nat :=
  (head self + capacity self - len self + i) mod capacity self.

Record repr (cap : nat) (history : list ascii) (eof : bool) (self : RingBuffer) : Prop := {
  repr_cap : capacity self = cap;
  repr_pos : 0 < cap;
  repr_data : length (data self) = cap;
  repr_head : head self < cap;
  repr_len : len self = length history `min` cap;
  repr_base : base_offset self = window_start cap history;
  repr_total : total_written self = written history;
  repr_eof : is_eof self = eof;
  repr_cells : forall i, i < len self ->
    data self !! cell self i = history !! (length history - len self + i)
}.

Lemma repr_new cap : 0 < cap -> exists r, new cap = Some r /\ repr cap [] false r.
Proof.
  intros Hc. unfold new. rewrite decide_True by done. eexists. split; [done|].
  split; simpl; try done; [by rewrite length_replicate|intros; lia].
Qed.

Lemma repr_close cap history eof r : repr cap history eof r -> repr cap history true (close r).
Proof. intros []. split; done. Qed.

(** Two-segment copies write cell [(head + j) mod capacity] for byte [j]. *)
Lemma write_segments (d : list ascii) cap hd (eff : list ascii) :
  length d = cap -> hd < cap -> length eff <= cap ->
  exists d1 d2,
    copy_into d hd (take ((cap - hd) `min` length eff) eff) = Some d1
    /\ (if decide ((cap - hd) `min` length eff < length eff)
        then copy_into d1 0 (drop ((cap - hd) `min` length eff) eff)
        else Some d1) = Some d2
    /\ length d2 = cap
    /\ forall p, p < cap ->
         let off := (p + cap - hd) mod cap in
         d2 !! p = if decide (off < length eff) then eff !! off else d !! p.
Proof.
  intros Hd Hh He.
  destruct (copy_into_ok d hd (take ((cap - hd) `min` length eff) eff)) as (d1 & -> & L1 & G1);
    [rewrite length_take; lia|].
  exists d1. rewrite length_take in G1. case_decide as Hw.
  - destruct (copy_into_ok d1 0 (drop ((cap - hd) `min` length eff) eff)) as (d2 & -> & L2 & G2);
      [rewrite length_drop; lia|].
    exists d2. do 3 (split; [done || congruence|]). intros p Hp off. subst off.
    rewrite G2, G1, length_drop, mod_once by lia.
    repeat case_decide; try lia; rewrite ?lookup_drop, ?lookup_take_lt by lia; f_equal; lia.
  - exists d1. do 3 (split; [done || congruence|]). intros p Hp off. subst off.
    rewrite G1, mod_once by lia.
    repeat case_decide; try lia; rewrite ?lookup_take_lt by lia; f_equal; lia.
Qed.

Lemma slice_prefix {A} (l : list A) n : n <= length l -> slice l 0 n = Some (take n l).
Proof. intros. rewrite slice_ok by lia. by rewrite drop_0, Nat.sub_0_r. Qed.

Lemma slice_suffix {A} (l : list A) n : n <= length l -> slice l n (length l) = Some (drop n l).
Proof. intros. rewrite slice_ok by lia. by rewrite take_ge by (rewrite length_drop; lia). Qed.

Lemma mod_cases x c :
  x < 2 * c -> x mod c = x /\ x < c \/ x mod c + c = x /\ x mod c < c.
Proof. intros Hx. rewrite mod_once by done. case_decide; lia. Qed.

(** Where the window lies after [n] bytes went in at [hd]: the last [n] of
    its [l] cells are the new ones, in order, the others keep their place. *)
Lemma cell_after cap hd n l i (p := ((hd + n) mod cap + cap - l + i) mod cap) :
  hd < cap -> n <= l -> l <= cap -> i < l ->
  p < cap
  /\ (l - n <= i -> (p + cap - hd) mod cap = i - (l - n))
  /\ (i < l - n -> n <= (p + cap - hd) mod cap /\ p = (hd + cap - (l - n) + i) mod cap).
Proof.
  intros Hh Hn Hl Hi. subst p.
  destruct (mod_cases (hd + n) cap) as [[]|[]]; [lia|..];
    (destruct (mod_cases ((hd + n) mod cap + cap - l + i) cap) as [[]|[]]; [lia|..]);
    (destruct (mod_cases (((hd + n) mod cap + cap - l + i) mod cap + cap - hd) cap) as [[]|[]];
       [lia|..]); (split; [lia|]); (split; [intros; lia|]); intros;
    (destruct (mod_cases (hd + cap - (l - n) + i) cap) as [[]|[]]; lia).
Qed.

(** Storing the last bytes of an append, in a ring that has made room. *)
Lemma push_effective cap history eof r bytes skip eff :
  repr cap history eof r -> u64_fits (written (history ++ bytes)) ->
  bytes <> [] -> skip = length bytes - cap -> eff = drop skip bytes ->
  exists r', push_bytes bytes r = Some r' /\ repr cap (history ++ bytes) eof r'.
Proof.
  intros [Hcap Hpos Hd Hh Hl Hb Ht He Hc] Hfit Hne Hskip Heff.
  assert (length eff = length bytes `min` cap) as Hel by (rewrite Heff, length_drop; lia).
  assert (forall j, eff !! j = bytes !! (skip + j)) as Hlk by (intros; by rewrite Heff, lookup_drop).
  unfold push_bytes. rewrite bool_decide_false by done.
  replace (if decide _ then _ else _) with (Some (skip, eff)).
  2:{ rewrite Hcap, Heff, Hskip. case_decide; [by rewrite slice_suffix by lia|].
      replace (length bytes - cap) with 0 by lia. by rewrite drop_0. }
  cbn [mbind option_bind]. rewrite Hcap, !usize_sub_ok by lia. cbn [mbind option_bind].
  rewrite slice_prefix by lia. cbn [mbind option_bind].
  destruct (write_segments (data r) cap (head r) eff) as (d1 & d2 & -> & Hd2 & L2 & G2);
    [done..|lia|]. cbn [mbind option_bind].
  rewrite slice_suffix by lia. cbn [mbind option_bind]. rewrite Hd2. clear Hd2.
  cbn [mbind option_bind].
  eexists. split; [done|]. unfold u64_fits, written, window_start in *.
  rewrite length_app in Hfit.
  split; cbn [capacity data head len base_offset total_written is_eof]; try done.
  - apply Nat.mod_upper_bound. lia.
  - rewrite length_app. lia.
  - rewrite Hb, u64_saturating_add_small; unfold u64_fits; [|lia].
    unfold window_start. rewrite length_app. lia.
  - rewrite Ht, u64_saturating_add_small; unfold u64_fits; [|lia].
    unfold written. rewrite length_app. lia.
  - intros i Hi. cbn [len] in Hi. unfold cell. cbn [capacity data head len].
    set (evict := len r + length eff - cap) in *.
    destruct (cell_after cap (head r) (length eff) (len r - evict + length eff) i)
      as (Hp & Hnew & Hold); [lia..|].
    rewrite G2 by done. cbv zeta. rewrite length_app.
    destruct (decide (len r - evict <= i)) as [Hi'|Hi'].
    + rewrite Hnew by lia. rewrite decide_True by lia.
      rewrite lookup_app_r, Hlk by lia. f_equal. lia.
    + destruct Hold as [Hge Hcell]; [lia|]. rewrite decide_False by lia. rewrite Hcell.
      rewrite lookup_app_l by lia.
      replace (length history + length bytes - _ + i)
        with (length history - len r + (evict + i)) by lia.
      rewrite <- Hc by lia. unfold cell. rewrite Hcap. do 2 f_equal. lia.
Qed.

#[global] Program Instance console_laws : RingLaws RingBuffer := {
  ring_repr := repr;
  new_repr := repr_new;
  close_repr := repr_close
}.
Next Obligation.
  intros cap history eof r bytes Hr Hfit. destruct (decide (bytes = [])) as [->|Hne].
  - exists r. rewrite app_nil_r. done.
  - by eapply push_effective.
Qed.

(** Two-segment reads return cell [(start + j) mod capacity] as byte [j]. *)
Lemma read_segments (d : list ascii) cap start n :
  length d = cap -> start < cap -> n <= cap ->
  exists first rest,
    slice d start (start + (cap - start) `min` n) = Some first
    /\ (if decide ((cap - start) `min` n < n) then slice d 0 (n - (cap - start) `min` n)
        else Some []) = Some rest
    /\ length (first ++ rest) = n
    /\ forall j, j < n -> (first ++ rest) !! j = d !! ((start + j) mod cap).
Proof.
  intros Hd Hs Hn. rewrite slice_ok by lia. eexists.
  case_decide as Hw; [rewrite slice_prefix by lia|]; eexists;
    (split; [done|]); (split; [done|]);
    (split; [rewrite length_app, ?length_take, length_drop, ?Hd; cbn [length]; lia|]);
    intros j Hj; destruct (mod_cases (start + j) cap) as [[-> ?]|[E ?]]; try lia.
  - rewrite lookup_app_l, lookup_take_lt, lookup_drop by (rewrite ?length_take, ?length_drop; lia).
    done.
  - rewrite lookup_app_r by (rewrite length_take, length_drop; lia).
    rewrite lookup_take_lt by (rewrite length_take, length_drop; lia).
    f_equal. rewrite length_take, length_drop. lia.
  - rewrite lookup_app_l, lookup_take_lt, lookup_drop by (rewrite ?length_take, ?length_drop; lia).
    done.
Qed.

Lemma window_cell cap hd l k j :
  hd < cap -> l <= cap -> k + j < l ->
  (((hd + cap - l) mod cap + k) mod cap + j) mod cap = (hd + cap - l + (k + j)) mod cap.
Proof.
  intros Hh Hl Hk.
  rewrite Nat.Div0.add_mod_idemp_l, <- Nat.add_assoc, Nat.Div0.add_mod_idemp_l. done.
Qed.

Lemma read_repr cap history eof r offset max_len :
  repr cap history eof r ->
  read_at offset max_len r = Some (read_spec cap history eof offset max_len).
Proof.
  intros [Hcap Hpos Hd Hh Hl Hb Ht He Hc]. unfold read_at, read_spec. cbv zeta.
  rewrite Hb, Ht, He. unfold window_start, written in *.
  destruct (decide (len r = 0)) as [H0|H0].
  { rewrite bool_decide_true, decide_True by lia. by destruct eof. }
  rewrite bool_decide_false by done.
  set (from := N.max offset (N.of_nat (length history - cap))).
  case_decide as Hfrom; [rewrite bool_decide_true by done; by destruct eof|].
  rewrite bool_decide_false, (u64_sub_ok _ from) by lia. cbn [mbind option_bind].
  unfold stream_slice.
  set (n := N.to_nat (N.min (N.of_nat (length history) - from) max_len)).
  assert (take (N.to_nat max_len) (drop (N.to_nat from) history)
          = take n (drop (N.to_nat from) history)) as ->.
  { destruct (decide (N.to_nat max_len <= length history - N.to_nat from)).
    - f_equal. subst n. lia.
    - rewrite !take_ge by (rewrite length_drop; subst n; lia). done. }
  destruct (decide (n = 0)) as [Hn|Hn]; [rewrite bool_decide_true by done; by rewrite Hn|].
  rewrite bool_decide_false by done. do 3 (rewrite u64_sub_ok by lia; cbn [mbind option_bind]).
  rewrite Hcap, usize_sub_ok by lia. cbn [mbind option_bind].
  set (start := ((head r + cap - len r) mod cap + _) mod cap).
  destruct (read_segments (data r) cap start n) as (first & rest & -> & Hrest & Hlen & Hget);
    [done|by apply Nat.mod_upper_bound; lia|subst n; lia|].
  cbn [mbind option_bind]. rewrite Hrest. cbn [mbind option_bind]. do 3 f_equal.
  apply list_eq_same_length with n; [rewrite length_take, length_drop; subst n; lia|done|].
  intros i x y Hi Hx Hy. rewrite Hget in Hx by done.
  rewrite lookup_take_lt, lookup_drop in Hy by done. subst start.
  rewrite window_cell in Hx by (subst n; lia).
  specialize (Hc (N.to_nat from - (length history - len r) + i)). unfold cell in Hc.
  rewrite Hcap in Hc.
  replace (_ + N.to_nat _ + i) with (N.to_nat from - (length history - len r) + i) in Hx by lia.
  rewrite Hc in Hx by (subst n; lia).
  replace (length history - len r + _) with (N.to_nat from + i) in Hx by lia. congruence.
Qed.


(** The console ring is the stream it was written: whatever is pushed,
    in whatever chunks, and whether or not the ring was closed, no index is
    out of range, and a read at any offset returns exactly the bytes the
    stream has there, starting at the oldest one retained, with the number of
    bytes dropped and the end of the stream reported as they are. *)
Theorem console_read_exact (cap : nat) (ops : list ring_op) (offset max_len : N) :
  0 < cap -> u64_fits (written (history_of ops)) ->
  exists r0 r, new cap = Some r0 /\ ring_run r0 ops = Some r
    /\ read_at offset max_len r
       = Some (read_spec cap (history_of ops) (closed_by ops) offset max_len).
Proof.
  intros Hc Hfit. destruct (fresh_run cap ops Hc Hfit) as (r0 & r & Hn & Hr & Hrepr).
  exists r0, r. by rewrite (read_repr _ _ _ _ _ _ Hrepr).
Qed.

Lemma console_read_exact_witness :
  let ops := [Append (list_ascii_of_string "12345678"); Append (list_ascii_of_string "ABCD"); Close] in
  exists r0 r, new 8 = Some r0 /\ ring_run r0 ops = Some r
    /\ read_at 0 64 r
       = Some (Some (mkRingReadResult 4 (list_ascii_of_string "5678ABCD") 4 4 true)).
Proof.
  apply (console_read_exact 8
    [Append (list_ascii_of_string "12345678"); Append (list_ascii_of_string "ABCD"); Close] 0 64);
    [lia|by vm_compute].
Defined.

End ConsoleRing.

Module HelperRing.

(** ** The cursor ring of the local helper *)

Record RingRead := mkRingRead {
  rd_data : list ascii;
  rd_next_cursor : N;
  rd_eof : bool;
  rd_dropped_bytes : N;
  rd_truncated : bool;
  rd_timed_out : bool
}.

Record RingState := mkRingState {
  bytes : list ascii;
  start_cursor : N;
  end_cursor : N;
  eof : bool
}.

(** The ring with the state its mutex protects. *)
Record OutputRing := mkOutputRing {
  capacity : nat;
  state : RingState
}.

Definition new (capacity : nat) : option OutputRing :=
  if decide (0 < capacity) then Some (mkOutputRing capacity (mkRingState [] 0 0 false)) else None.

(** The loop body of [append]. *)
Definition append_byte (capacity : nat) (state : RingState) (byte : ascii) : RingState :=
  let state :=
    if bool_decide (length (bytes state) = capacity)
    then mkRingState (tail (bytes state)) (u64_saturating_add (start_cursor state) 1)
           (end_cursor state) (eof state)
    else state in
  mkRingState (bytes state ++ [byte]) (start_cursor state)
    (u64_saturating_add (end_cursor state) 1) (eof state).

Definition append (input : list ascii) (self : OutputRing) : OutputRing :=
  mkOutputRing (capacity self) (foldl (append_byte (capacity self)) (state self) input).

Definition close (self : OutputRing) : OutputRing :=
  let s := state self in
  mkOutputRing (capacity self) (mkRingState (bytes s) (start_cursor s) (end_cursor s) true).

(** What one round of waiting meets: whether the deadline had passed before
    it, and else the state found under the lock afterwards and whether the
    wait timed out. *)
Inductive wake : Type :=
| DeadlinePassed
| Woken (found : RingState) (timed_out : bool).

(** The waiting loop; [None] while it still waits after the given rounds. *)
Fixpoint wait_loop (cursor : N) (wait : bool) (state : RingState) (wakes : list wake) :
    option (RingState * bool) :=
  let effective_cursor := N.max cursor (start_cursor state) in
  if bool_decide (effective_cursor < end_cursor state)%N || eof state || negb wait
  then Some (state, false)
  else
    match wakes with
    | [] => None
    | DeadlinePassed :: _ => Some (state, true)
    | Woken found true :: _ => Some (found, true)
    | Woken found false :: wakes => wait_loop cursor wait found wakes
    end.

(** The part of [read] after the loop. *)
Definition read_result (cursor : N) (max_len : nat) (state : RingState) (timed_out : bool) :
    RingRead :=
  let effective_cursor := N.max cursor (start_cursor state) in
  let dropped_bytes := (start_cursor state - cursor)%N in
  let available := N.to_nat (end_cursor state - effective_cursor) in
  let take_ := available `min` max_len in
  let skip := N.to_nat (effective_cursor - start_cursor state) in
  let data := take take_ (drop skip (bytes state)) in
  let next_cursor := u64_saturating_add effective_cursor (N.of_nat (length data)) in
  mkRingRead data next_cursor
    (eof state && bool_decide (end_cursor state <= next_cursor)%N)
    dropped_bytes
    (bool_decide (0 < dropped_bytes)%N || bool_decide (take_ < available))
    (timed_out && bool_decide (data = []) && negb (eof state)).

Definition read (cursor : N) (max_len : nat) (wait : bool) (wakes : list wake)
    (self : OutputRing) : option RingRead :=
  '(found, timed_out) ← wait_loop cursor wait (state self) wakes;
  Some (read_result cursor max_len found timed_out).

#[global] Instance helper_ring : Ring OutputRing := {
  ring_new := new;
  ring_append bytes r := Some (append bytes r);
  ring_close := close
}.

Record state_repr (cap : nat) (history : list ascii) (eof_ : bool) (s : RingState) : Prop := {
  sr_pos : 0 < cap;
  sr_bytes : bytes s = drop (length history - cap) history;
  sr_start : start_cursor s = window_start cap history;
  sr_end : end_cursor s = written history;
  sr_eof : eof s = eof_
}.

Definition repr (cap : nat) (history : list ascii) (eof_ : bool) (self : OutputRing) : Prop :=
  capacity self = cap /\ state_repr cap history eof_ (state self).

Lemma append_byte_repr cap history eof_ s byte :
  state_repr cap history eof_ s -> u64_fits (written (history ++ [byte])) ->
  state_repr cap (history ++ [byte]) eof_ (append_byte cap s byte).
Proof.
  intros [Hp Hb Hs He Hf] Hfit. unfold append_byte. rewrite Hb, length_drop.
  unfold u64_fits, written, window_start in *.
  rewrite length_app in Hfit. cbn [length] in Hfit.
  case_bool_decide as Hfull; split; cbn [bytes start_cursor end_cursor eof]; try done.
  all: rewrite ?tail_drop, ?Hb; unfold window_start, written; rewrite ?length_app; cbn [length];
    rewrite ?Hs, ?He, ?u64_saturating_add_small by (unfold u64_fits; lia); try lia.
  - rewrite drop_app_le by lia. do 2 f_equal. lia.
  - rewrite drop_app_le by lia. do 2 f_equal. lia.
Qed.

Lemma append_bytes_repr cap history eof_ s input :
  state_repr cap history eof_ s -> u64_fits (written (history ++ input)) ->
  state_repr cap (history ++ input) eof_ (foldl (append_byte cap) s input).
Proof.
  revert history s. induction input as [|b input IH]; intros history s Hs Hfit; simpl.
  - by rewrite app_nil_r.
  - rewrite cons_middle, app_assoc in Hfit |- *. apply IH; [|done].
    apply append_byte_repr; [done|]. unfold u64_fits, written in *. rewrite !length_app in *. lia.
Qed.

#[global] Program Instance helper_laws : RingLaws OutputRing := {
  ring_repr := repr
}.
Next Obligation.
  intros cap Hc. simpl. unfold new. rewrite decide_True by done. eexists. split; [done|].
  by repeat split.
Qed.
Next Obligation.
  intros cap history eof_ r input [Hc Hs] Hfit. eexists. split; [done|]. split; [done|].
  simpl. rewrite Hc. by apply append_bytes_repr.
Qed.
Next Obligation. intros cap history eof_ r [Hc []]. split; [done|]. by split. Qed.

(** What a read returns, in terms of the written bytes. *)
Definition read_spec (cap : nat) (history : list ascii) (eof_ : bool) (cursor : N)
    (max_len : nat) (timed_out : bool) : RingRead :=
  let start := window_start cap history in
  let from := N.max cursor start in
  let data := stream_slice history from (N.of_nat max_len) in
  let next := (from + N.of_nat (length data))%N in
  mkRingRead data next (eof_ && bool_decide (written history <= next)%N) (start - cursor)
    (bool_decide (cursor < start)%N || bool_decide (next < written history)%N)
    (timed_out && bool_decide (data = []) && negb eof_).

Lemma read_result_repr cap history eof_ s cursor max_len timed_out :
  state_repr cap history eof_ s -> u64_fits (written history) -> u64_fits cursor ->
  read_result cursor max_len s timed_out
  = read_spec cap history eof_ cursor max_len timed_out.
Proof.
  intros [Hp Hb Hs He Hf] Hfit Hcur. unfold read_result, read_spec, stream_slice.
  rewrite Hb, Hs, He, Hf. unfold window_start, written, u64_fits in *. cbv zeta.
  set (start := N.of_nat (length history - cap)). set (from := N.max cursor start).
  rewrite drop_drop.
  replace (length history - cap + N.to_nat (from - start)) with (N.to_nat from) by lia.
  set (avail := N.to_nat (N.of_nat (length history) - from)).
  assert (take (avail `min` max_len) (drop (N.to_nat from) history)
          = take (N.to_nat (N.of_nat max_len)) (drop (N.to_nat from) history)) as ->.
  { rewrite Nat2N.id. destruct (decide (max_len <= avail)); [f_equal; lia|].
    rewrite !take_ge; [done|rewrite length_drop; lia..]. }
  set (data := take _ _).
  assert (length data = avail `min` max_len) as Hlen
    by (subst data; rewrite length_take, length_drop; lia).
  rewrite u64_saturating_add_small by (unfold u64_fits; lia). f_equal.
  f_equal; apply bool_decide_ext; lia.
Qed.

Lemma wait_loop_found cursor wait s wakes found timed_out :
  wait_loop cursor wait s wakes = Some (found, timed_out) ->
  (found = s \/ exists to, Woken found to ∈ wakes)
  /\ (timed_out = false -> wait = true ->
      (N.max cursor (start_cursor found) < end_cursor found)%N \/ eof found = true).
Proof.
  revert s. induction wakes as [|w wakes IH]; intros s; simpl;
    destruct (bool_decide _ || eof s || negb wait) eqn:Hb.
  2: done.
  1,2: intros [= <- <-]; split; [by left|]; intros _ ->;
    rewrite !orb_true_iff, bool_decide_eq_true in Hb; naive_solver.
  destruct w as [|f []]; intros Hw; simplify_eq/=.
  - split; [by left|done].
  - split; [right; eexists; by left|done].
  - destruct (IH _ Hw) as [[->|[to Hin]] Ht]; (split; [|done]); right; eexists;
      [by left|by right].
Qed.

(** A read of the helper's ring, with or without waiting, against any
    interleaving of writers: the states it can find under the lock each
    represent a history of written bytes, and the result is the slice of one
    of those histories at the cursor, with the dropped, truncated and
    end-of-stream flags as they are there; a read that waited and did not
    time out found a byte past the cursor or the end of the stream. *)
Theorem helper_read_exact (self : OutputRing) (wakes : list wake) (cursor : N) (max_len : nat)
    (wait : bool) (read_ : RingRead)
    (histories : RingState -> list ascii) (closed : RingState -> bool) :
  (forall s, (s = state self \/ exists to, Woken s to ∈ wakes) ->
     state_repr (capacity self) (histories s) (closed s) s /\ u64_fits (written (histories s))) ->
  u64_fits cursor ->
  read cursor max_len wait wakes self = Some read_ ->
  exists s timed_out, (s = state self \/ exists to, Woken s to ∈ wakes)
    /\ read_ = read_spec (capacity self) (histories s) (closed s) cursor max_len timed_out
    /\ (timed_out = false -> wait = true ->
        (N.max cursor (window_start (capacity self) (histories s)) < written (histories s))%N
        \/ closed s = true).
Proof.
  intros Hall Hcur. unfold read.
  destruct (wait_loop _ _ _ _) as [[found timed_out]|] eqn:Hw; [|done]. intros [= <-].
  destruct (wait_loop_found _ _ _ _ _ _ Hw) as [Hf Hd].
  destruct (Hall _ Hf) as [Hr Hfit]. exists found, timed_out. split; [done|].
  split; [by apply read_result_repr|]. destruct Hr as [_ _ Hs He Hc].
  by rewrite <- Hs, <- He, <- Hc.
Qed.

Lemma helper_read_exact_witness :
  let s0 := mkRingState [] 0 0 false in
  let s1 := mkRingState (list_ascii_of_string "defgh") 3 8 true in
  exists s timed_out, (s = s0 \/ exists to, Woken s to ∈ [Woken s1 false])
    /\ read_result 0 16 s1 false
       = read_spec 5 (if decide (end_cursor s = 0%N) then [] else list_ascii_of_string "abcdefgh")
           (eof s) 0 16 timed_out
    /\ (timed_out = false -> true = true ->
        (N.max 0 (window_start 5 (if decide (end_cursor s = 0%N) then []
                                  else list_ascii_of_string "abcdefgh"))
         < written (if decide (end_cursor s = 0%N) then []
                    else list_ascii_of_string "abcdefgh"))%N \/ eof s = true).
Proof.
  apply (helper_read_exact (mkOutputRing 5 (mkRingState [] 0 0 false))
    [Woken (mkRingState (list_ascii_of_string "defgh") 3 8 true) false] 0 16 true
    (read_result 0 16 (mkRingState (list_ascii_of_string "defgh") 3 8 true) false)
    (fun s => if decide (end_cursor s = 0%N) then [] else list_ascii_of_string "abcdefgh") eof);
    [|by vm_compute..].
  intros s [->|[to Hs]]; [split; [split; [cbn; lia|reflexivity..]|by vm_compute]|].
  apply list_elem_of_singleton in Hs. injection Hs as -> _.
  split; [split; [cbn; lia|reflexivity..]|by vm_compute].
Defined.

End HelperRing.

Module ExecRing.

(** ** The ring of the guest daemon's commands *)

(** The errors of [ExecError] a ring read returns. *)
Inductive ExecError : Set :=
| ExecError_OffsetExpired
| ExecError_OffsetInFuture.

Record OutputRing := mkOutputRing {
  start_offset : N;
  data : list ascii;
  cap : nat;
  dropped_bytes : N;
  truncated : bool;
  eof : bool
}.

Definition new (cap : nat) : OutputRing := mkOutputRing 0 [] cap 0 false false.

Definition end_offset (self : OutputRing) : N :=
  u64_saturating_add (start_offset self) (N.of_nat (length (data self))).

(** The [while] loop of [append], on the bytes held. *)
Fixpoint drop_oldest (held : list ascii) (self : OutputRing) : OutputRing :=
  if bool_decide (cap self < length held) then
    match held with
    | _ :: rest =>
        drop_oldest rest
          (mkOutputRing (u64_saturating_add (start_offset self) 1) rest (cap self)
             (u64_saturating_add (dropped_bytes self) 1) true (eof self))
    | [] => self
    end
  else self.

Definition append (bytes : list ascii) (self : OutputRing) : OutputRing :=
  let held := data self ++ bytes in
  drop_oldest held (mkOutputRing (start_offset self) held (cap self) (dropped_bytes self)
                      (truncated self) (eof self)).

Definition mark_eof (self : OutputRing) : OutputRing :=
  mkOutputRing (start_offset self) (data self) (cap self) (dropped_bytes self)
    (truncated self) true.

Record RingChunk := mkRingChunk {
  ch_data : list ascii;
  ch_start_offset : N;
  ch_end_offset : N;
  ch_next_offset : N;
  ch_dropped_bytes : N;
  ch_truncated : bool;
  ch_eof : bool
}.

Definition read (offset max_len : N) (self : OutputRing) : result RingChunk ExecError :=
  let end_ := end_offset self in
  if bool_decide (offset < start_offset self)%N then Err ExecError_OffsetExpired
  else if bool_decide (end_ < offset)%N then Err ExecError_OffsetInFuture
  else
    let available := (end_ - offset)%N in
    let take_ := N.min available max_len in
    let begin := N.to_nat (offset - start_offset self) in
    let next_offset := u64_saturating_add offset take_ in
    Ok (mkRingChunk (take (N.to_nat take_) (drop begin (data self))) (start_offset self) end_
          next_offset (dropped_bytes self) (truncated self)
          (eof self && bool_decide (end_ <= next_offset)%N)).

#[global] Instance exec_ring : Ring OutputRing := {
  ring_new cap := Some (new cap);
  ring_append bytes r := Some (append bytes r);
  ring_close := mark_eof
}.

Record repr (c : nat) (history : list ascii) (eof_ : bool) (self : OutputRing) : Prop := {
  er_cap : cap self = c;
  er_data : data self = drop (length history - c) history;
  er_start : start_offset self = window_start c history;
  er_dropped : dropped_bytes self = window_start c history;
  er_truncated : truncated self = bool_decide (c < length history);
  er_eof : eof self = eof_
}.

Lemma drop_oldest_spec held self :
  data self = held ->
  u64_fits (start_offset self + N.of_nat (length held)) ->
  u64_fits (dropped_bytes self + N.of_nat (length held)) ->
  let n := length held - cap self in
  drop_oldest held self
  = mkOutputRing (start_offset self + N.of_nat n) (drop n held) (cap self)
      (dropped_bytes self + N.of_nat n)
      (truncated self || bool_decide (cap self < length held)) (eof self).
Proof.
  revert self. induction held as [|b held IH]; intros [st d c dr tr ef] Hd Hs Hr;
    cbn [drop_oldest length data start_offset dropped_bytes cap truncated eof] in *.
  - rewrite !bool_decide_false by lia. subst. cbn. by rewrite !N.add_0_r, orb_false_r.
  - case_bool_decide as Hc; [|replace (S (length held) - c) with 0 by lia; subst;
      by rewrite !N.add_0_r, orb_false_r].
    unfold u64_fits in *. rewrite IH; simpl; rewrite ?u64_saturating_add_small by
      (unfold u64_fits; lia); [|done|unfold u64_fits; lia..].
    replace (S (length held) - c) with (S (length held - c)) by lia.
    rewrite orb_true_r. simpl. f_equal; lia.
Qed.

#[global] Program Instance exec_laws : RingLaws OutputRing := {
  ring_repr := repr
}.
Next Obligation. intros c Hc. eexists. split; [done|]. by split. Qed.
Next Obligation.
  intros c history eof_ r bytes [Hc Hd Hs Hr Ht He] Hfit. eexists. split; [done|].
  simpl. unfold append, u64_fits, written, window_start in *. rewrite length_app in Hfit.
  rewrite drop_oldest_spec; simpl; [|done|unfold u64_fits; rewrite length_app, Hd, length_drop; lia..].
  rewrite Hd, length_app, length_drop, Hc.
  set (n := length history - (length history - c) + length bytes - c).
  assert (length (history ++ bytes) - c = (length history - c) + n) as En
    by (rewrite length_app; lia).
  split; simpl; unfold window_start; rewrite ?En; try (done || lia).
  - by rewrite <- drop_drop, (drop_app_le history bytes) by lia.
  - rewrite Ht, length_app. repeat case_bool_decide; simpl; lia || done.
Qed.
Next Obligation. intros c history eof_ r []. by split. Qed.

(** What a read returns, in terms of the written bytes. *)
Definition read_spec (c : nat) (history : list ascii) (eof_ : bool) (offset max_len : N) :
    result RingChunk ExecError :=
  let start := window_start c history in
  if decide (offset < start)%N then Err ExecError_OffsetExpired
  else if decide (written history < offset)%N then Err ExecError_OffsetInFuture
  else
    let data := stream_slice history offset max_len in
    let next := (offset + N.of_nat (length data))%N in
    Ok (mkRingChunk data start (written history) next start
          (bool_decide (c < length history)) (eof_ && bool_decide (next = written history))).

Lemma exec_read_repr c history eof_ r offset max_len :
  repr c history eof_ r -> u64_fits (written history) ->
  read offset max_len r = read_spec c history eof_ offset max_len.
Proof.
  intros [Hc Hd Hs Hr Ht He] Hfit. unfold read, read_spec, end_offset, stream_slice.
  rewrite Hd, Hs, Hr, Ht, He, length_drop. unfold written, window_start, u64_fits in *.
  set (start := N.of_nat (length history - c)).
  assert (u64_saturating_add start (N.of_nat (length history - (length history - c)))
          = N.of_nat (length history)) as ->
    by (rewrite u64_saturating_add_small; unfold u64_fits; lia).
  destruct (decide (offset < start)%N); [by rewrite bool_decide_true by done|].
  rewrite bool_decide_false by done.
  destruct (decide (N.of_nat (length history) < offset)%N);
    [by rewrite bool_decide_true by done|].
  rewrite bool_decide_false by done.
  cbv zeta. rewrite drop_drop.
  replace (length history - c + N.to_nat (offset - start)) with (N.to_nat offset) by lia.
  set (tk := N.min (N.of_nat (length history) - offset) max_len).
  assert (take (N.to_nat tk) (drop (N.to_nat offset) history)
          = take (N.to_nat max_len) (drop (N.to_nat offset) history)) as ->.
  { destruct (decide (max_len <= N.of_nat (length history) - offset)%N); [do 2 f_equal; lia|].
    rewrite !take_ge; [done|rewrite length_drop; lia..]. }
  assert (N.of_nat (length (take (N.to_nat max_len) (drop (N.to_nat offset) history))) = tk)
    as -> by (rewrite length_take, length_drop; lia).
  rewrite u64_saturating_add_small by (unfold u64_fits; lia). do 2 f_equal.
  f_equal. apply bool_decide_ext. lia.
Qed.

(** The guest daemon's ring is the stream it was written: after any
    writes, a read below the retained window is refused as expired, one past
    the end as in the future, and any other returns exactly the bytes of the
    stream at its offset; the end of the stream is reported once all of it
    has been read. *)
Theorem exec_read_exact (c : nat) (ops : list ring_op) (offset max_len : N) :
  0 < c -> u64_fits (written (history_of ops)) ->
  exists r, ring_run (new c) ops = Some r
    /\ read offset max_len r
       = read_spec c (history_of ops) (closed_by ops) offset max_len.
Proof.
  intros Hc Hfit. destruct (fresh_run c ops Hc Hfit) as (r0 & r & [= <-] & Hr & Hrepr).
  exists r. split; [done|]. by apply exec_read_repr.
Qed.

Lemma exec_read_exact_witness :
  let ops := [Append (list_ascii_of_string "abc"); Append (list_ascii_of_string "def"); Close] in
  exists r, ring_run (new 4) ops = Some r
    /\ read 3 16 r
       = Ok (mkRingChunk (list_ascii_of_string "def") 2 6 6 2 true true).
Proof.
  apply (exec_read_exact 4
    [Append (list_ascii_of_string "abc"); Append (list_ascii_of_string "def"); Close] 3 16);
    [lia|by vm_compute].
Defined.

End ExecRing.

(** Both output rings are the streams they were written.  Whatever is
    appended, in whatever chunks, and whether or not the stream was closed, no
    index is out of range; the console ring's read at any offset returns
    exactly the bytes the stream has there, from the oldest one retained, with
    what was dropped and the end of the stream as they are; and the guest
    daemon's refuses an offset below the retained window as expired and one
    past the end as in the future, and returns exactly the bytes at any
    other. *)
Theorem rings_read_exact (cap : nat) (ops : list ring_op) (offset max_len : N) :
  0 < cap -> u64_fits (written (history_of ops)) ->
  (exists r0 r, ConsoleRing.new cap = Some r0 /\ ring_run r0 ops = Some r
     /\ ConsoleRing.read_at offset max_len r
        = Some (ConsoleRing.read_spec cap (history_of ops) (closed_by ops) offset max_len))
  /\ (exists r, ring_run (ExecRing.new cap) ops = Some r
      /\ ExecRing.read offset max_len r
         = ExecRing.read_spec cap (history_of ops) (closed_by ops) offset max_len).
Proof.
  intros Hc Hfit. split; [by apply ConsoleRing.console_read_exact|by apply ExecRing.exec_read_exact].
Qed.

Lemma rings_read_exact_witness :
  let ops := [Append (list_ascii_of_string "12345678"); Append (list_ascii_of_string "ABCD"); Close] in
  (exists r0 r, ConsoleRing.new 8 = Some r0 /\ ring_run r0 ops = Some r
     /\ ConsoleRing.read_at 0 64 r
        = Some (Some (ConsoleRing.mkRingReadResult 4 (list_ascii_of_string "5678ABCD") 4 4 true)))
  /\ (exists r, ring_run (ExecRing.new 8) ops = Some r
      /\ ExecRing.read 0 64 r = ExecRing.read_spec 8 (history_of ops) true 0 64).
Proof.
  apply (rings_read_exact 8
    [Append (list_ascii_of_string "12345678"); Append (list_ascii_of_string "ABCD"); Close] 0 64);
    [lia|by vm_compute].
Defined.
