(* ===== verification/FileRing.v ===== *)
(** * The file-backed output ring of [d2b-exec-runner] ([filering.rs])

    A detached command's output lives in a circular file next to a small
    sidecar with its offsets.  The runner appends, the guest daemon reads,
    from different processes and without a lock.  The code of both sides is
    a [prog]: a tree of file operations with what follows each outcome, so
    that [Module FileRing] can run the two sides interleaved operation by
    operation and byte by byte, with any operation failing, and the runner
    dying at any point.

    [Module Meta] is the sidecar and its codec ([codec.rs]). *)

From S2P Require Import Prelude Rings.

Module Meta.

(** ** Sidecar contents *)

Inductive DecodeError : Set :=
| DecodeError_Truncated
| DecodeError_FieldTooLong
| DecodeError_InvalidUtf8
| DecodeError_InvalidTag
| DecodeError_TrailingBytes
| DecodeError_BadMagic
| DecodeError_BadVersion.

Record StreamMeta := mkStreamMeta {
  cap : N;
  start_offset : N;
  end_offset : N;
  dropped_bytes : N;
  truncated : bool;
  eof : bool;
  lost : bool
}.

Definition META_MAGIC : N := 0x4e4c534d.
Definition META_VERSION : N := 1.

Definition new (cap : N) : StreamMeta := mkStreamMeta cap 0 0 0 false false false.

(** [Writer]: the buffer grows by the bytes put. *)
Definition put_u32 (value : N) : list ascii := le_bytes 4 value.
Definition put_u64 (value : N) : list ascii := le_bytes 8 value.
Definition put_bool (value : bool) : list ascii := [ascii_of_N (if value then 1 else 0)%N].

Definition encode (self : StreamMeta) : list ascii :=
  put_u32 META_MAGIC ++ put_u32 META_VERSION ++ put_u64 (cap self)
  ++ put_u64 (start_offset self) ++ put_u64 (end_offset self)
  ++ put_u64 (dropped_bytes self) ++ put_bool (truncated self) ++ put_bool (eof self)
  ++ put_bool (lost self).

(** [Reader]: the state is the part of the input not yet read. *)
Definition reader (A : Type) : Type := handler (list ascii) DecodeError A.

Definition take_bytes (n : nat) : reader (list ascii) := fun data =>
  if decide (length data < n) then (Err DecodeError_Truncated, data)
  else (Ok (take n data), drop n data).

Open Scope rust_scope.

Definition get_u8 : reader N :=
  let? bytes := take_bytes 1 in h_ret (from_le_bytes bytes).

Definition get_u32 : reader N :=
  let? bytes := take_bytes 4 in h_ret (from_le_bytes bytes).

Definition get_u64 : reader N :=
  let? bytes := take_bytes 8 in h_ret (from_le_bytes bytes).

Definition get_bool : reader bool :=
  let? b := get_u8 in
  if (b =? 0)%N then h_ret false
  else if (b =? 1)%N then h_ret true
  else h_throw DecodeError_InvalidTag.

Definition finish : reader unit :=
  let? rest := h_get in
  h_reject (negb (bool_decide (rest = []))) DecodeError_TrailingBytes.

Definition decode_fields : reader StreamMeta :=
  let? magic := get_u32 in
  h_reject (negb (magic =? META_MAGIC)%N) DecodeError_BadMagic ?;
  let? version := get_u32 in
  h_reject (negb (version =? META_VERSION)%N) DecodeError_BadVersion ?;
  let? cap := get_u64 in
  let? start_offset := get_u64 in
  let? end_offset := get_u64 in
  let? dropped_bytes := get_u64 in
  let? truncated := get_bool in
  let? eof := get_bool in
  let? lost := get_bool in
  finish ?;
  h_ret (mkStreamMeta cap start_offset end_offset dropped_bytes truncated eof lost).

Definition decode (bytes : list ascii) : result StreamMeta DecodeError :=
  (decode_fields bytes).1.

Close Scope rust_scope.

(** Every field fits its width. *)
Definition fits (m : StreamMeta) : Prop :=
  u64_fits (cap m) /\ u64_fits (start_offset m) /\ u64_fits (end_offset m)
  /\ u64_fits (dropped_bytes m).

(** ** The codec is exact *)

Lemma take_bytes_app (bs rest : list ascii) :
  take_bytes (length bs) (bs ++ rest) = (Ok bs, rest).
Proof.
  unfold take_bytes. rewrite decide_False by (rewrite length_app; lia).
  by rewrite take_app_length, drop_app_length.
Qed.

Lemma take_bytes_ok n data bs rest :
  take_bytes n data = (Ok bs, rest) -> data = bs ++ rest /\ length bs = n.
Proof.
  unfold take_bytes. case_decide; intros [= <- <-].
  rewrite take_drop, length_take. split; [done|lia].
Qed.

Lemma get_u32_put v rest : (v < 2 ^ 32)%N -> get_u32 (put_u32 v ++ rest) = (Ok v, rest).
Proof.
  intros Hv. unfold get_u32, put_u32, h_bind.
  pose proof (take_bytes_app (le_bytes 4 v) rest) as H. rewrite le_bytes_length in H.
  rewrite H. unfold h_ret. by rewrite from_le_bytes_le_bytes.
Qed.

Lemma get_u64_put v rest : u64_fits v -> get_u64 (put_u64 v ++ rest) = (Ok v, rest).
Proof.
  intros Hv. unfold get_u64, put_u64, h_bind.
  pose proof (take_bytes_app (le_bytes 8 v) rest) as H. rewrite le_bytes_length in H.
  rewrite H. unfold h_ret. rewrite from_le_bytes_le_bytes; [done|].
  unfold u64_fits, u64_max in Hv. change (256 ^ N.of_nat 8)%N with (2 ^ 64)%N. lia.
Qed.

Lemma get_bool_put v rest : get_bool (put_bool v ++ rest) = (Ok v, rest).
Proof. by destruct v. Qed.

Lemma decode_encode m : fits m -> decode (encode m) = Ok m.
Proof.
  intros (H1 & H2 & H3 & H4). unfold decode, encode, decode_fields, h_bind, h_reject.
  rewrite <- (app_nil_r (put_bool (lost m))).
  rewrite get_u32_put by done. rewrite N.eqb_refl. cbn [negb]. unfold h_ret at 1.
  rewrite get_u32_put by done. rewrite N.eqb_refl. cbn [negb]. unfold h_ret at 1.
  rewrite !get_u64_put by done. do 3 rewrite get_bool_put. by destruct m.
Qed.

Lemma get_uint_ok w data v rest :
  (let? bytes := take_bytes w in h_ret (from_le_bytes bytes))%rust data = (Ok v, rest) ->
  data = le_bytes w v ++ rest /\ (v < 256 ^ N.of_nat w)%N.
Proof.
  unfold h_bind. destruct (take_bytes w data) as [[bs|] r] eqn:Ht; intros [= <- <-].
  apply take_bytes_ok in Ht as [-> <-]. rewrite le_bytes_from. split; [done|].
  apply from_le_bytes_lt.
Qed.

Lemma get_bool_ok data v rest :
  get_bool data = (Ok v, rest) -> data = put_bool v ++ rest.
Proof.
  unfold get_bool, h_bind at 1. destruct (get_u8 data) as [[b|] r] eqn:Hg; [|done].
  apply get_uint_ok in Hg as [-> Hb]. unfold h_ret, h_throw.
  destruct (N.eqb_spec b 0) as [->|]; [by intros [= <- <-]|].
  destruct (N.eqb_spec b 1) as [->|]; [by intros [= <- <-]|done].
Qed.

Lemma bind_ok {S E A B} (m : handler S E A) (k : A -> handler S E B) s b s' :
  h_bind m k s = (Ok b, s') -> exists a s1, m s = (Ok a, s1) /\ k a s1 = (Ok b, s').
Proof. unfold h_bind. destruct (m s) as [[a|] s1] eqn:E1; [eauto|done]. Qed.

Lemma reject_ok {S E} c (e : E) (s s' : S) u :
  h_reject c e s = (Ok u, s') -> c = false /\ s' = s.
Proof. unfold h_reject. by destruct c; intros [= _ <-]. Qed.

Lemma decode_ok bytes m : decode bytes = Ok m -> bytes = encode m /\ fits m.
Proof.
  unfold decode. destruct (decode_fields bytes) as [r rest] eqn:Hd.
  intros Hr. simpl in Hr. subst r.
  unfold decode_fields in Hd.
  apply bind_ok in Hd as (v1 & s1 & H1 & Hd). apply get_uint_ok in H1 as [-> _].
  apply bind_ok in Hd as (? & ? & (Hm & ->)%reject_ok & Hd).
  apply negb_false_iff, N.eqb_eq in Hm as ->.
  apply bind_ok in Hd as (v2 & s2 & H2 & Hd). apply get_uint_ok in H2 as [-> _].
  apply bind_ok in Hd as (? & ? & (Hm & ->)%reject_ok & Hd).
  apply negb_false_iff, N.eqb_eq in Hm as ->.
  apply bind_ok in Hd as (c & s3 & H3 & Hd). apply get_uint_ok in H3 as [-> B3].
  apply bind_ok in Hd as (st & s4 & H4 & Hd). apply get_uint_ok in H4 as [-> B4].
  apply bind_ok in Hd as (en & s5 & H5 & Hd). apply get_uint_ok in H5 as [-> B5].
  apply bind_ok in Hd as (dr & s6 & H6 & Hd). apply get_uint_ok in H6 as [-> B6].
  apply bind_ok in Hd as (tr & s7 & ->%get_bool_ok & Hd).
  apply bind_ok in Hd as (ef & s8 & ->%get_bool_ok & Hd).
  apply bind_ok in Hd as (lo & s9 & ->%get_bool_ok & Hd).
  apply bind_ok in Hd as (? & ? & Hf & Hd). unfold finish in Hf.
  apply bind_ok in Hf as (? & ? & [= -> ->] & (Hn & ->)%reject_ok).
  apply negb_false_iff, bool_decide_eq_true in Hn as ->.
  injection Hd as <- <-. split; [by unfold encode; rewrite app_nil_r|].
  change (256 ^ N.of_nat 8)%N with (2 ^ 64)%N in *.
  unfold fits, u64_fits, u64_max; cbn [cap start_offset end_offset dropped_bytes]. lia.
Qed.

End Meta.

Module FileRing.
Import Meta.

(** ** File operations as programs *)

Definition DETACHED_STREAM_LOG_BYTES : N := 4 * 1024 * 1024.
Definition READ_RETRIES : nat := 8.

(** [io::ErrorKind], by its code. *)
Definition ErrorKind : Set := N.

Inductive FileRingError : Set :=
| FileRingError_Io (kind : ErrorKind)
| FileRingError_Decode (e : DecodeError)
| FileRingError_OffsetExpired
| FileRingError_OffsetInFuture
| FileRingError_CapMismatch
| FileRingError_Corrupt
| FileRingError_Busy.

Record RingChunk := mkRingChunk {
  data : list ascii;
  chunk_start_offset : N;
  chunk_end_offset : N;
  next_offset : N;
  chunk_dropped_bytes : N;
  chunk_truncated : bool;
  chunk_eof : bool
}.

(** The operations of one stream's pair of files: [atomic_write] of the
    sidecar, a byte of a positioned write to the data file, [sync_data],
    reading the sidecar, the length of the data file, and a byte of a
    positioned read.  Writes and reads are single bytes because nothing makes
    a longer one atomic for the other process. *)
Inductive prog (A : Type) : Type :=
| Return (a : A)
| AtomicWrite (contents : list ascii) (k : result unit ErrorKind -> prog A)
| WriteByte (pos : nat) (byte : ascii) (k : result unit ErrorKind -> prog A)
| SyncData (k : result unit ErrorKind -> prog A)
| ReadSidecar (k : result (list ascii) ErrorKind -> prog A)
| DataLen (k : result nat ErrorKind -> prog A)
| ReadByte (pos : nat) (k : result ascii ErrorKind -> prog A).

#[global] Arguments Return {A} a.
#[global] Arguments AtomicWrite {A} contents k.
#[global] Arguments WriteByte {A} pos byte k.
#[global] Arguments SyncData {A} k.
#[global] Arguments ReadSidecar {A} k.
#[global] Arguments DataLen {A} k.
#[global] Arguments ReadByte {A} pos k.

Fixpoint prog_bind {A B} (p : prog A) (f : A -> prog B) : prog B :=
  match p with
  | Return a => f a
  | AtomicWrite c k => AtomicWrite c (fun r => prog_bind (k r) f)
  | WriteByte pos b k => WriteByte pos b (fun r => prog_bind (k r) f)
  | SyncData k => SyncData (fun r => prog_bind (k r) f)
  | ReadSidecar k => ReadSidecar (fun r => prog_bind (k r) f)
  | DataLen k => DataLen (fun r => prog_bind (k r) f)
  | ReadByte pos k => ReadByte pos (fun r => prog_bind (k r) f)
  end.

(** [?] on a [Result]: an error returns at once from the enclosing function. *)
Definition try_ {A B E F} (from : E -> F) (p : prog (result A E)) (f : A -> prog (result B F)) :
    prog (result B F) :=
  prog_bind p (fun r => match r with Ok a => f a | Err e => Return (Err (from e)) end).

(** [persist_meta] *)
Definition persist_meta (meta : StreamMeta) : prog (result unit ErrorKind) :=
  AtomicWrite (encode meta) Return.

(** [read_meta] *)
Definition read_meta : prog (result StreamMeta FileRingError) :=
  try_ FileRingError_Io (ReadSidecar Return) (fun bytes =>
  Return (match decode bytes with
          | Ok meta => Ok meta
          | Err e => Err (FileRingError_Decode e)
          end)).

Definition validate_meta (meta : StreamMeta) (data_len : N) : result unit FileRingError :=
  if (cap meta =? 0)%N || (DETACHED_STREAM_LOG_BYTES <? cap meta)%N then Err FileRingError_Corrupt
  else if (end_offset meta <? start_offset meta)%N then Err FileRingError_Corrupt
  else if (cap meta <? end_offset meta - start_offset meta)%N then Err FileRingError_Corrupt
  else if negb (dropped_bytes meta =? start_offset meta)%N then Err FileRingError_Corrupt
  else
    let required_physical := N.min (end_offset meta) (cap meta) in
    if (data_len <? required_physical)%N then Err FileRingError_Corrupt else Ok tt.

(** [File::write_all_at], byte by byte. *)
Fixpoint write_all_at (buf : list ascii) (pos : nat) : prog (result unit ErrorKind) :=
  match buf with
  | [] => Return (Ok tt)
  | b :: buf =>
      WriteByte pos b (fun r =>
        match r with
        | Ok _ => write_all_at buf (S pos)
        | Err kind => Return (Err kind)
        end)
  end.

(** The loop of [write_circular]; each round writes at least one byte, so as
    many rounds as bytes suffice. *)
Fixpoint write_rounds (rounds : nat) (cap pos : nat) (rem : list ascii) :
    prog (result unit FileRingError) :=
  match rounds with
  | O => Return (Ok tt)
  | S rounds =>
      if bool_decide (rem = []) then Return (Ok tt)
      else
        let space := cap - pos in
        let n := length rem `min` space in
        try_ FileRingError_Io (write_all_at (take n rem) pos) (fun _ =>
        write_rounds rounds cap ((pos + n) mod cap) (drop n rem))
  end.

Definition write_circular (meta : StreamMeta) (logical_start : N) (data : list ascii) :
    prog (result unit FileRingError) :=
  if bool_decide (data = []) then Return (Ok tt)
  else write_rounds (length data) (N.to_nat (cap meta))
         (N.to_nat (logical_start mod cap meta)) data.

(** ** The writer *)

Definition set_offsets (start end_ : N) (self : StreamMeta) : StreamMeta :=
  mkStreamMeta (cap self) start end_ start true (eof self) (lost self).

(** [append] from phase 2 on: write the surviving tail, flush, publish. *)
Definition append_data (bytes : list ascii) (new_start new_end : N) (self : StreamMeta) :
    prog (result unit FileRingError * StreamMeta) :=
  let write_from := N.max new_start (end_offset self) in
  let skip := N.to_nat (write_from - end_offset self) in
  let payload := drop skip bytes in
  prog_bind (write_circular self write_from payload) (fun written =>
  match written with
  | Err e => Return (Err e, self)
  | Ok _ =>
      SyncData (fun synced =>
      match synced with
      | Err kind => Return (Err (FileRingError_Io kind), self)
      | Ok _ =>
          let self :=
            mkStreamMeta (cap self) (start_offset self) new_end (dropped_bytes self)
              (truncated self) (eof self) (lost self) in
          let self :=
            if (start_offset self <? new_start)%N
            then set_offsets new_start (end_offset self) self else self in
          prog_bind (persist_meta self) (fun persisted =>
          match persisted with
          | Err kind => Return (Err (FileRingError_Io kind), self)
          | Ok _ => Return (Ok tt, self)
          end)
      end)
  end).

Definition append (bytes : list ascii) (self : StreamMeta) :
    prog (result unit FileRingError * StreamMeta) :=
  if bool_decide (bytes = []) then Return (Ok tt, self)
  else
    let incoming := N.of_nat (length bytes) in
    let new_end := u64_saturating_add (end_offset self) incoming in
    let new_start := (new_end - cap self)%N in
    if (start_offset self <? new_start)%N then
      let pre := set_offsets (N.min new_start (end_offset self)) (end_offset self) self in
      prog_bind (persist_meta pre) (fun persisted =>
      match persisted with
      | Err kind => Return (Err (FileRingError_Io kind), self)
      | Ok _ => append_data bytes new_start new_end pre
      end)
    else append_data bytes new_start new_end self.

Definition set_flags (eof lost : bool) (self : StreamMeta) : StreamMeta :=
  mkStreamMeta (cap self) (start_offset self) (end_offset self) (dropped_bytes self)
    (truncated self) eof lost.

Definition publish (self : StreamMeta) : prog (result unit FileRingError * StreamMeta) :=
  prog_bind (persist_meta self) (fun persisted =>
  match persisted with
  | Err kind => Return (Err (FileRingError_Io kind), self)
  | Ok _ => Return (Ok tt, self)
  end).

Definition mark_eof (self : StreamMeta) : prog (result unit FileRingError * StreamMeta) :=
  if eof self then Return (Ok tt, self) else publish (set_flags true (lost self) self).

Definition mark_lost (self : StreamMeta) : prog (result unit FileRingError * StreamMeta) :=
  if lost self && eof self then Return (Ok tt, self) else publish (set_flags true true self).

(** [mark_stream_lost], called when the writer is gone. *)
Definition mark_stream_lost : prog (result unit FileRingError) :=
  try_ id read_meta (fun meta =>
  if lost meta && eof meta then Return (Ok tt)
  else try_ FileRingError_Io (persist_meta (set_flags true true meta)) (fun _ => Return (Ok tt))).

(** ** The reader *)

Definition read_validated_meta : prog (result StreamMeta FileRingError) :=
  try_ id read_meta (fun meta =>
  try_ FileRingError_Io (DataLen Return) (fun data_len =>
  Return (match validate_meta meta (N.of_nat data_len) with
          | Ok _ => Ok meta
          | Err e => Err e
          end))).

(** [File::read_exact_at], byte by byte. *)
Fixpoint read_exact_at (n pos : nat) : prog (result (list ascii) ErrorKind) :=
  match n with
  | O => Return (Ok [])
  | S n =>
      ReadByte pos (fun r =>
        match r with
        | Err kind => Return (Err kind)
        | Ok b =>
            prog_bind (read_exact_at n (S pos)) (fun r =>
            Return (match r with Ok bs => Ok (b :: bs) | Err kind => Err kind end))
        end)
  end.

(** The loop of [read_circular], [todo] being what is left of [out]. *)
Fixpoint read_rounds (rounds : nat) (cap pos todo : nat) (out : list ascii) :
    prog (result (list ascii) FileRingError) :=
  match rounds with
  | O => Return (Ok out)
  | S rounds =>
      if bool_decide (todo = 0) then Return (Ok out)
      else
        let space := cap - pos in
        let n := todo `min` space in
        try_ FileRingError_Io (read_exact_at n pos) (fun bytes =>
        read_rounds rounds cap ((pos + n) mod cap) (todo - n) (out ++ bytes))
  end.

Definition read_circular (offset take_ cap : N) : prog (result (list ascii) FileRingError) :=
  if (take_ =? 0)%N then Return (Ok [])
  else if (cap =? 0)%N then Return (Err FileRingError_CapMismatch)
  else read_rounds (N.to_nat take_) (N.to_nat cap) (N.to_nat (offset mod cap)) (N.to_nat take_) [].

Fixpoint read_attempts (tries : nat) (offset max_len : N) (last_err : FileRingError) :
    prog (result RingChunk FileRingError) :=
  match tries with
  | O => Return (Err last_err)
  | S tries =>
      try_ id read_validated_meta (fun meta =>
      if (offset <? start_offset meta)%N then Return (Err FileRingError_OffsetExpired)
      else if (end_offset meta <? offset)%N then Return (Err FileRingError_OffsetInFuture)
      else
        let available := (end_offset meta - offset)%N in
        let take_ := N.min available max_len in
        prog_bind (read_circular offset take_ (cap meta)) (fun r =>
        match r with
        | Err err => read_attempts tries offset max_len err
        | Ok data =>
            try_ id read_validated_meta (fun after =>
            if (offset <? start_offset after)%N
            then read_attempts tries offset max_len FileRingError_OffsetExpired
            else
              let next_offset := u64_saturating_add offset take_ in
              Return (Ok (mkRingChunk data (start_offset meta) (end_offset meta) next_offset
                            (dropped_bytes meta) (truncated meta || lost meta)
                            (eof meta && (end_offset meta <=? next_offset)%N))))
        end))
  end.

Definition read (offset max_len : N) : prog (result RingChunk FileRingError) :=
  read_attempts READ_RETRIES offset max_len FileRingError_Busy.

(** ** Running programs on the two files *)

Record world := mkWorld {
  file : list ascii;
  sidecar : list ascii
}.

(** A positioned write past the end fills the gap with zeros. *)
Definition file_write (pos : nat) (b : ascii) (f : list ascii) : list ascii :=
  if decide (pos < length f) then <[pos := b]> f
  else f ++ replicate (pos - length f) Ascii.zero ++ [b].

(** One operation.  Any of them can fail; a failed [atomic_write] may have
    replaced the sidecar already (syncing the directory comes after the
    rename). *)
Inductive prog_step {A} : prog A -> world -> prog A -> world -> Prop :=
| ps_atomic c k w : prog_step (AtomicWrite c k) w (k (Ok tt)) (mkWorld (file w) c)
| ps_atomic_late c k w kind :
    prog_step (AtomicWrite c k) w (k (Err kind)) (mkWorld (file w) c)
| ps_atomic_err c k w kind : prog_step (AtomicWrite c k) w (k (Err kind)) w
| ps_write pos b k w :
    prog_step (WriteByte pos b k) w (k (Ok tt)) (mkWorld (file_write pos b (file w)) (sidecar w))
| ps_write_err pos b k w kind : prog_step (WriteByte pos b k) w (k (Err kind)) w
| ps_sync k w r : prog_step (SyncData k) w (k r) w
| ps_sidecar k w : prog_step (ReadSidecar k) w (k (Ok (sidecar w))) w
| ps_sidecar_err k w kind : prog_step (ReadSidecar k) w (k (Err kind)) w
| ps_len k w : prog_step (DataLen k) w (k (Ok (length (file w)))) w
| ps_len_err k w kind : prog_step (DataLen k) w (k (Err kind)) w
| ps_read pos k w b :
    file w !! pos = Some b -> prog_step (ReadByte pos k) w (k (Ok b)) w
| ps_read_err pos k w kind : prog_step (ReadByte pos k) w (k (Err kind)) w.

(** The two processes: the runner with the ring it holds and the call it is
    in, the bytes appended so far, and a reader in the guest daemon.
    [cleanup] is a running [mark_stream_lost]. *)
Record system := mkSystem {
  files : world;
  alive : bool;
  ring : StreamMeta;
  job : option (list ascii * prog (result unit FileRingError * StreamMeta));
  cleanup : option (prog (result unit FileRingError));
  reading : option (N * N * prog (result RingChunk FileRingError));
  stream : list ascii
}.

Definition pending (s : system) : list ascii :=
  match job s with Some (bytes, _) => bytes | None => [] end.

(** What the runner has been given to write. *)
Definition given (s : system) : list ascii := stream s ++ pending s.

(** A read that completes. *)
Definition event : Type := option (N * N * result RingChunk FileRingError).

Inductive sys_step : system -> event -> system -> Prop :=
| s_append w m cl rd st bytes :
    u64_fits (written (st ++ bytes)) ->
    sys_step (mkSystem w true m None cl rd st) None
      (mkSystem w true m (Some (bytes, append bytes m)) cl rd st)
| s_mark_eof w m cl rd st :
    sys_step (mkSystem w true m None cl rd st) None
      (mkSystem w true m (Some ([], mark_eof m)) cl rd st)
| s_mark_lost w m cl rd st :
    sys_step (mkSystem w true m None cl rd st) None
      (mkSystem w true m (Some ([], mark_lost m)) cl rd st)
| s_write w w' m bytes p p' cl rd st :
    prog_step p w p' w' ->
    sys_step (mkSystem w true m (Some (bytes, p)) cl rd st) None
      (mkSystem w' true m (Some (bytes, p')) cl rd st)
| s_returned w m bytes r m' cl rd st :
    sys_step (mkSystem w true m (Some (bytes, Return (r, m'))) cl rd st) None
      (mkSystem w true m' None cl rd (take (N.to_nat (end_offset m')) (st ++ bytes)))
| s_crash w m j cl rd st :
    sys_step (mkSystem w true m j cl rd st) None
      (mkSystem w false m None cl rd
         (given (mkSystem w true m j cl rd st)))
| s_cleanup w m rd st :
    sys_step (mkSystem w false m None None rd st) None
      (mkSystem w false m None (Some mark_stream_lost) rd st)
| s_clean w w' m p p' rd st :
    prog_step p w p' w' ->
    sys_step (mkSystem w false m None (Some p) rd st) None
      (mkSystem w' false m None (Some p') rd st)
| s_cleaned w m r rd st :
    sys_step (mkSystem w false m None (Some (Return r)) rd st) None
      (mkSystem w false m None None rd st)
| s_read w al m j cl st offset max_len :
    sys_step (mkSystem w al m j cl None st) None
      (mkSystem w al m j cl (Some (offset, max_len, read offset max_len)) st)
| s_reading w al m j cl st offset max_len p p' :
    prog_step p w p' w ->
    sys_step (mkSystem w al m j cl (Some (offset, max_len, p)) st) None
      (mkSystem w al m j cl (Some (offset, max_len, p')) st)
| s_done w al m j cl st offset max_len r :
    sys_step (mkSystem w al m j cl (Some (offset, max_len, Return r)) st)
      (Some (offset, max_len, r))
      (mkSystem w al m j cl None st).

(** [FileRing::create] over any data file. *)
Definition created (cap : N) (contents : list ascii) : system :=
  mkSystem (mkWorld contents (encode (new cap))) true (new cap) None None None [].

Inductive reachable (cap : N) : system -> Prop :=
| reach_created contents : reachable cap (created cap contents)
| reach_step s e s' : reachable cap s -> sys_step s e s' -> reachable cap s'.

(** ** What the processes rely on

    At any time the cells of the logical offsets in [[lo, hi)] hold the bytes
    given for them, and the published sidecar [pm] offers no offset below
    [lo]. *)
Section proofs.
Variable C : N.
Hypothesis C_pos : (0 < C)%N.
Hypothesis C_fits : u64_fits C.

Record meta_wf (m : StreamMeta) : Prop := {
  wf_cap : cap m = C;
  wf_order : (start_offset m <= end_offset m)%N;
  wf_span : (end_offset m - start_offset m <= C)%N;
  wf_dropped : dropped_bytes m = start_offset m;
  wf_end : u64_fits (end_offset m)
}.

Lemma meta_wf_fits m : meta_wf m -> fits m.
Proof. intros [Hc Ho Hs Hd He]. unfold fits, u64_fits in *. rewrite Hc, Hd. lia. Qed.

(** Published metadata that offers only live offsets. *)
Record offers (lo hi : N) (len : nat) (m : StreamMeta) : Prop := {
  of_wf : meta_wf m;
  of_end : (end_offset m <= hi)%N;
  of_start : (N.min lo (end_offset m) <= start_offset m)%N;
  of_len : (N.min (end_offset m) C <= N.of_nat len)%N
}.

Record live (S : list ascii) (lo hi : N) (w : world) (pm : StreamMeta) : Prop := {
  live_sidecar : sidecar w = encode pm;
  live_offers : offers lo hi (length (file w)) pm;
  live_given : (N.to_nat hi <= length S)%nat;
  live_cells : forall o, (lo <= o < hi)%N ->
    file w !! N.to_nat (o mod C) = S !! N.to_nat o
}.

(** ** The writer's obligations

    [wsafe S p lo hi len pm]: from a live state, every operation of [p] keeps
    the state live, and [p] returns a ring that can be idle again. *)

(** [lo] and [hi] may move to an empty range, or [lo] up. *)
Definition moves (lo hi : N) (pm : StreamMeta) (lo' hi' : N) : Prop :=
  (lo' = hi' \/ (lo <= lo')%N /\ hi' = hi)
  /\ (N.min lo (end_offset pm) <= lo')%N
  /\ (N.min lo' (end_offset pm) <= start_offset pm)%N
  /\ (end_offset pm <= hi')%N.

(** The ring an idle runner holds. *)
Record idle (S : list ascii) (lo hi : N) (len : nat) (pm m : StreamMeta) : Prop := {
  idle_wf : meta_wf m;
  idle_end : (end_offset m <= hi)%N;
  idle_given : (N.to_nat (end_offset m) <= length S)%nat;
  idle_start : (N.min lo (end_offset m) <= start_offset m)%N;
  idle_pub_end : (end_offset pm <= end_offset m)%N;
  idle_pub_start : (N.min (start_offset m) (end_offset pm) <= start_offset pm)%N;
  idle_len : (N.min (end_offset m) C <= N.of_nat len)%N
}.

Fixpoint wsafe (S : list ascii) (p : prog (result unit FileRingError * StreamMeta))
    (lo hi : N) (len : nat) (pm : StreamMeta) : Prop :=
  match p with
  | Return (_, m) => idle S lo hi len pm m
  | AtomicWrite c k =>
      exists m, c = encode m /\ offers lo hi len m /\ (end_offset pm <= end_offset m)%N
        /\ wsafe S (k (Ok tt)) lo hi len m
        /\ (forall kind, wsafe S (k (Err kind)) lo hi len m
                      /\ wsafe S (k (Err kind)) lo hi len pm)
  | WriteByte pos b k =>
      exists lo' hi', moves lo hi pm lo' hi' /\ (hi' + 1 <= lo' + C)%N
        /\ pos = N.to_nat (hi' mod C) /\ S !! N.to_nat hi' = Some b
        /\ wsafe S (k (Ok tt)) lo' (hi' + 1) (len `max` (pos + 1)) pm
        /\ (forall kind, wsafe S (k (Err kind)) lo' hi' len pm)
  | SyncData k => forall r, wsafe S (k r) lo hi len pm
  | ReadSidecar _ | DataLen _ | ReadByte _ _ => False
  end.

Lemma file_write_length pos b f : length (file_write pos b f) = length f `max` (pos + 1).
Proof.
  unfold file_write. case_decide.
  - rewrite length_insert. lia.
  - rewrite !length_app, length_replicate. cbn [length]. lia.
Qed.

Lemma file_write_same pos b f : file_write pos b f !! pos = Some b.
Proof.
  unfold file_write. case_decide.
  - by apply list_lookup_insert_eq.
  - rewrite lookup_app_r, lookup_app_r by (rewrite ?length_replicate; lia).
    rewrite length_replicate. by replace (_ - _ - _) with 0 by lia.
Qed.

Lemma file_write_other pos q b f :
  q <> pos -> q < length f -> file_write pos b f !! q = f !! q.
Proof.
  intros Hq Hl. unfold file_write. case_decide.
  - by apply list_lookup_insert_ne.
  - by rewrite lookup_app_l.
Qed.

Lemma mod_inj (a b : N) : (a mod C = b mod C -> a <= b -> b < a + C -> a = b)%N.
Proof.
  intros Hm Hle Hlt. pose proof (N.Div0.div_mod a C). pose proof (N.Div0.div_mod b C).
  rewrite Hm in *. assert (b / C <= a / C)%N by nia. nia.
Qed.

(** Writing the byte given for [hi] extends the live range. *)
Lemma live_write S lo hi w pm lo' hi' b :
  live S lo hi w pm -> moves lo hi pm lo' hi' -> (hi' + 1 <= lo' + C)%N ->
  S !! N.to_nat hi' = Some b ->
  live S lo' (hi' + 1) (mkWorld (file_write (N.to_nat (hi' mod C)) b (file w)) (sidecar w)) pm.
Proof.
  intros [Hs [Hwf He Hst Hlen] Hg Hc] (Hm & M1 & M2 & M3) Hsp Hb.
  apply lookup_lt_Some in Hb as Hlt. split; [done|..|lia|].
  - split; [done|lia..|]. cbn [file]. rewrite file_write_length. lia.
  - intros o Ho. cbn [file]. destruct (decide (o = hi')) as [->|Hne].
    + by rewrite file_write_same.
    + assert (lo <= o < hi)%N as Hold by (destruct Hm; lia).
      specialize (Hc o Hold).
      assert (is_Some (S !! N.to_nat o)) as [x Hx] by (apply lookup_lt_is_Some; lia).
      rewrite file_write_other; [done| |rewrite Hx in Hc; by eapply lookup_lt_Some].
      intros E. apply Hne. apply mod_inj; [by apply N2Nat.inj|lia|lia].
Qed.

Lemma live_move S lo hi w pm lo' hi' :
  live S lo hi w pm -> moves lo hi pm lo' hi' -> (N.to_nat hi' <= length S)%nat ->
  live S lo' hi' w pm.
Proof.
  intros [Hs [Hwf He Hst Hlen] Hg Hc] (Hm & M1 & M2 & M3) Hgi.
  split; [done|by split|done|]. intros o Ho. apply Hc. destruct Hm; lia.
Qed.

(** How a step of the writer moves what readers rely on. *)
Definition advances (lo : N) (pm : StreamMeta) (lo' : N) (pm' : StreamMeta) : Prop :=
  (N.min lo (end_offset pm) <= lo')%N /\ (end_offset pm <= end_offset pm')%N.

Lemma wsafe_step S p lo hi w pm p' w' :
  live S lo hi w pm -> wsafe S p lo hi (length (file w)) pm -> prog_step p w p' w' ->
  exists lo' hi' pm', live S lo' hi' w' pm' /\ wsafe S p' lo' hi' (length (file w')) pm'
    /\ advances lo pm lo' pm'.
Proof.
  intros Hl Hw Hstep. pose proof Hl as [Hs Ho Hg Hc]. destruct Hstep; simpl in Hw; try done.
  - destruct Hw as (m & -> & Hm & He & Hok & _). exists lo, hi, m.
    split; [by split|]. split; [done|]. split; lia.
  - destruct Hw as (m & -> & Hm & He & _ & Herr). exists lo, hi, m.
    destruct (Herr kind) as [H1 _].
    split; [by split|]. split; [done|]. split; lia.
  - destruct Hw as (m & -> & Hm & He & _ & Herr). exists lo, hi, pm.
    destruct (Herr kind) as [_ H1].
    split; [done|]. split; [done|]. split; lia.
  - destruct Hw as (lo' & hi' & Hmv & Hsp & -> & Hb & Hok & _).
    exists lo', (hi' + 1)%N, pm. cbn [file]. rewrite file_write_length.
    split; [by apply (live_write S lo hi)|]. split; [done|]. destruct Hmv as (_ & ? & _). split; lia.
  - destruct Hw as (lo' & hi' & Hmv & Hsp & -> & Hb & _ & Herr).
    exists lo', hi', pm. apply lookup_lt_Some in Hb.
    split; [by apply (live_move S lo hi); [..|lia]|]. split; [done|].
    destruct Hmv as (_ & ? & _). split; lia.
  - exists lo, hi, pm. split; [done|]. split; [done|]. split; lia.
Qed.

(** ** The writer's operations are safe *)

Lemma moves_refl lo hi pm :
  (N.min lo (end_offset pm) <= start_offset pm)%N -> (end_offset pm <= hi)%N ->
  moves lo hi pm lo hi.
Proof. intros H1 H2. split; [right; lia|]. lia. Qed.

Lemma mod_succ (o : N) : (o mod C + 1 < C -> (o + 1) mod C = o mod C + 1)%N.
Proof.
  intros H. rewrite <- N.Div0.add_mod_idemp_l. by apply N.mod_small.
Qed.

Lemma write_all_safe S buf pos f lo hi len pm lo1 o :
  buf <> [] -> moves lo hi pm lo1 o -> (o + N.of_nat (length buf) <= lo1 + C)%N ->
  pos = N.to_nat (o mod C) -> (o mod C + N.of_nat (length buf) <= C)%N ->
  (forall j b, buf !! j = Some b -> S !! (N.to_nat o + j) = Some b) ->
  wsafe S (f (Ok tt)) lo1 (o + N.of_nat (length buf)) (len `max` (pos + length buf)) pm ->
  (forall kind hi' len', (o <= hi')%N -> len <= len' -> wsafe S (f (Err kind)) lo1 hi' len' pm) ->
  wsafe S (prog_bind (write_all_at buf pos) f) lo hi len pm.
Proof.
  revert pos lo hi len o. induction buf as [|b buf IH];
    intros pos lo hi len o Hne Hmv Hsp -> Hroom Hget Hok Herr; [done|].
  cbn [write_all_at prog_bind wsafe length] in *.
  exists lo1, o. split; [done|]. split; [lia|]. split; [done|].
  split; [rewrite <- (Hget 0 b) by done; f_equal; lia|].
  split; [|intros kind; simpl; apply Herr; lia].
  destruct buf as [|b' buf].
  - simpl in *. replace (o + N.of_nat 1)%N with (o + 1)%N in Hok by lia. done.
  - pose proof (mod_succ o) as Hsucc. simpl in Hroom. destruct Hmv as (_ & _ & M2 & M3).
    apply (IH _ lo1 (o + 1)%N _ (o + 1)%N); clear IH.
    + done.
    + apply moves_refl; lia.
    + simpl in *. lia.
    + rewrite Hsucc by lia. lia.
    + rewrite Hsucc by lia. simpl. lia.
    + intros j c Hj. rewrite <- (Hget (Datatypes.S j) c) by done. f_equal. lia.
    + simpl in *. replace (o + 1 + _)%N with (o + N.of_nat (Datatypes.S (Datatypes.S (length buf))))%N by lia.
      replace ((len `max` _) `max` _) with (len `max` (N.to_nat (o mod C) + Datatypes.S (Datatypes.S (length buf)))) by lia.
      done.
    + intros kind hi' len' H1 H2. apply Herr; lia.
Qed.

Lemma wsafe_assoc {A B} S (p : prog A) (g : A -> prog B) f lo hi len pm :
  wsafe S (prog_bind p (fun a => prog_bind (g a) f)) lo hi len pm ->
  wsafe S (prog_bind (prog_bind p g) f) lo hi len pm.
Proof.
  revert lo hi len pm.
  induction p as [a|c k IH|pos b k IH|k IH|k IH|k IH|pos k IH]; intros lo hi len pm; simpl; try done.
  - intros (m & ? & ? & ? & ? & Herr). exists m. do 4 (split; [by eauto|]).
    intros kind. destruct (Herr kind). eauto.
  - intros (lo' & hi' & ? & ? & ? & ? & ? & Herr). exists lo', hi'.
    do 5 (split; [by eauto|]). eauto.
  - eauto.
Qed.

Lemma write_rounds_safe S rounds rem pos f lo hi len pm lo1 o :
  rem <> [] -> length rem <= rounds ->
  moves lo hi pm lo1 o -> (o + N.of_nat (length rem) <= lo1 + C)%N -> pos = N.to_nat (o mod C) ->
  (forall j b, rem !! j = Some b -> S !! (N.to_nat o + j) = Some b) ->
  (forall len', len <= len' -> (N.min (o mod C + N.of_nat (length rem)) C <= N.of_nat len')%N ->
     wsafe S (f (Ok tt)) lo1 (o + N.of_nat (length rem)) len' pm) ->
  (forall e hi' len', (o <= hi')%N -> len <= len' -> wsafe S (f (Err e)) lo1 hi' len' pm) ->
  wsafe S (prog_bind (write_rounds rounds (N.to_nat C) pos rem) f) lo hi len pm.
Proof.
  revert pos lo hi len o rem. induction rounds as [|rounds IH];
    intros pos lo hi len o rem Hne Hle Hmv Hsp -> Hget Hok Herr; [by destruct rem; simpl in Hle; [|lia]|].
  cbn [write_rounds]. rewrite bool_decide_false by done.
  assert (o mod C < C)%N as Hmod by (apply N.mod_lt; lia).
  assert (0 < length rem) as Hpos by (destruct rem; simpl; [done|lia]).
  set (n := length rem `min` (N.to_nat C - N.to_nat (o mod C))). cbv zeta.
  unfold try_. apply wsafe_assoc.
  apply (write_all_safe _ _ _ _ _ _ _ _ lo1 o).
  - intros E. apply (f_equal length) in E. rewrite length_take in E. simpl in E. lia.
  - done.
  - rewrite length_take. lia.
  - done.
  - rewrite length_take. lia.
  - intros j b Hj. apply Hget. by apply lookup_take_Some in Hj as [? _].
  - rewrite length_take. replace (n `min` length rem) with n by lia.
    destruct (decide (n = length rem)) as [En|En].
    + rewrite drop_ge by lia. destruct rounds; simpl; rewrite En; apply Hok; lia.
    + assert (N.to_nat (o mod C) + n = N.to_nat C) as Hwrap by lia.
      assert ((o + N.of_nat n) mod C = 0)%N as Hz.
      { rewrite <- N.Div0.add_mod_idemp_l. replace (o mod C + N.of_nat n)%N with C by lia.
        apply N.Div0.mod_same. }
      apply (IH _ lo1 (o + N.of_nat n)%N _ (o + N.of_nat n)%N).
      * intros E. apply (f_equal length) in E. rewrite length_drop in E. simpl in E. lia.
      * rewrite length_drop. lia.
      * destruct Hmv as (_ & _ & M2 & M3). apply moves_refl; lia.
      * rewrite length_drop. lia.
      * rewrite Hwrap, Nat.Div0.mod_same, Hz. done.
      * intros j b Hj. rewrite lookup_drop in Hj. rewrite <- (Hget _ _ Hj). f_equal. lia.
      * intros len' H1 H2. rewrite length_drop.
        replace (o + N.of_nat n + N.of_nat (length rem - n))%N with (o + N.of_nat (length rem))%N by lia.
        apply Hok; lia.
      * intros e hi' len' H1 H2. apply Herr; lia.
  - intros kind hi' len' H1 H2. simpl. by apply Herr.
Qed.

Lemma write_circular_safe S m rem f lo hi len pm lo1 o :
  cap m = C -> rem <> [] ->
  moves lo hi pm lo1 o -> (o + N.of_nat (length rem) <= lo1 + C)%N ->
  (forall j b, rem !! j = Some b -> S !! (N.to_nat o + j) = Some b) ->
  (forall len', len <= len' -> (N.min (o mod C + N.of_nat (length rem)) C <= N.of_nat len')%N ->
     wsafe S (f (Ok tt)) lo1 (o + N.of_nat (length rem)) len' pm) ->
  (forall e hi' len', (o <= hi')%N -> len <= len' -> wsafe S (f (Err e)) lo1 hi' len' pm) ->
  wsafe S (prog_bind (write_circular m o rem) f) lo hi len pm.
Proof.
  intros Hm Hne Hmv Hsp Hget Hok Herr. unfold write_circular.
  rewrite bool_decide_false by done. rewrite Hm.
  by eapply write_rounds_safe.
Qed.

Lemma publish_safe S m lo hi len pm :
  offers lo hi len m -> idle S lo hi len pm m ->
  wsafe S (publish m) lo hi len pm.
Proof.
  intros Hof Hid. destruct Hid as [Hwf He Hg Hst Hpe Hps Hl]. simpl.
  exists m. split; [done|]. split; [done|]. split; [done|].
  assert (idle S lo hi len m m) by (split; try done; lia).
  assert (idle S lo hi len pm m) by by split.
  split; [done|]. by intros kind.
Qed.

Lemma append_data_safe st bytes new_start new_end self lo len pm :
  let S := st ++ bytes in
  let E := end_offset self in
  bytes <> [] -> meta_wf self -> E = written st -> u64_fits (written S) ->
  new_end = written S -> new_start = (new_end - C)%N ->
  (lo <= start_offset self)%N -> (N.min new_start E <= start_offset self)%N ->
  (N.min E C <= N.of_nat len)%N ->
  meta_wf pm -> (end_offset pm <= E)%N ->
  (N.min (start_offset self) (end_offset pm) <= start_offset pm)%N ->
  wsafe S (append_data bytes new_start new_end self) lo E len pm.
Proof.
  intros S E Hne Hwf HE Hfit -> -> Hlo Hns Hlen Hpm Hpe Hps.
  destruct Hwf as [Wc Wo Ws Wd We]. destruct Hpm as [Pc Po Ps Pd Pe]. fold E in Wo, Ws, We.
  assert (written S = E + N.of_nat (length bytes))%N as HS
    by (unfold written, S in *; rewrite length_app; lia).
  assert (0 < length bytes) as Hn by (destruct bytes; simpl; [done|lia]).
  rewrite HS in *. set (new_start := (E + N.of_nat (length bytes) - C)%N) in *.
  unfold append_data. fold E. cbv zeta.
  set (o := N.max new_start E). set (lo1 := N.max (start_offset self) new_start).
  assert (length (drop (N.to_nat (o - E)) bytes) = length bytes - N.to_nat (o - E)) as Hpl
    by apply length_drop.
  assert (moves lo E pm lo1 o) as Hmv.
  { split; [|lia]. destruct (decide (new_start <= E)%N); [right|left]; lia. }
  assert (forall hi' len', (o <= hi')%N -> len <= len' -> idle S lo1 hi' len' pm self) as Hback.
  { intros hi' len' H1 H2. split; [by split|lia| |lia..].
    fold E. unfold S. rewrite HE. unfold written. rewrite length_app. lia. }
  apply (write_circular_safe _ _ _ _ _ _ _ _ lo1 o); [done| |done| |..].
  - intros E0. apply (f_equal length) in E0. rewrite Hpl in E0. simpl in E0. lia.
  - rewrite Hpl. lia.
  - intros j b Hj. rewrite lookup_drop in Hj. unfold S.
    rewrite lookup_app_r by (unfold written in HE; lia). rewrite <- Hj. f_equal.
    unfold written in HE. lia.
  - intros len' H1 H2. rewrite Hpl in *.
    replace (o + N.of_nat (length bytes - N.to_nat (o - E)))%N
      with (E + N.of_nat (length bytes))%N by lia.
    intros [|kind]; [|simpl; apply Hback; lia].
    set (self' := if (_ <? _)%N then _ else _).
    assert (start_offset self' = lo1 /\ end_offset self' = (E + N.of_nat (length bytes))%N
            /\ cap self' = C /\ dropped_bytes self' = lo1) as (F1 & F2 & F3 & F4).
    { unfold self'. cbn [start_offset]. destruct (N.ltb_spec (start_offset self) new_start);
        cbn; repeat split; try done; lia. }
    assert (meta_wf self') as Hwf'.
    { split; [done|lia..|congruence|]. unfold u64_fits in *. lia. }
    assert (N.min (E + N.of_nat (length bytes)) C <= N.of_nat len')%N as Hlen'.
    { destruct (decide (C <= E)%N); [lia|]. destruct (decide (new_start <= E)%N);
        [|revert H2; generalize (o mod C)%N; lia].
      replace o with E in H2 by lia. rewrite N.mod_small in H2 by lia. lia. }
    apply publish_safe.
    + split; [done|lia..].
    + destruct Hmv as (_ & M1 & M2 & M3). split; [done|lia| |lia..].
      rewrite F2. unfold written in *. lia.
  - intros e hi' len' H1 H2. simpl. by apply Hback.
Qed.

Lemma append_safe st bytes m len pm :
  u64_fits (written (st ++ bytes)) -> end_offset m = written st ->
  offers (start_offset m) (end_offset m) len pm ->
  idle st (start_offset m) (end_offset m) len pm m ->
  wsafe (st ++ bytes) (append bytes m) (start_offset m) (end_offset m) len pm.
Proof.
  intros Hfit HE [Pwf Pe Pst Plen] Hid. pose proof Hid as [Mwf _ _ _ Ipe Ips Ilen].
  unfold append. destruct (decide (bytes = [])) as [->|Hne].
  { rewrite bool_decide_true by done. by rewrite app_nil_r. }
  rewrite bool_decide_false by done. pose proof Mwf as [Wc Wo Ws Wd We].
  assert (u64_saturating_add (end_offset m) (N.of_nat (length bytes)) = written (st ++ bytes)) as ->.
  { unfold u64_fits, written in *. rewrite length_app in *.
    rewrite u64_saturating_add_small; unfold u64_fits; lia. }
  rewrite Wc. cbv zeta. set (new_start := (written (st ++ bytes) - C)%N).
  destruct (N.ltb_spec (start_offset m) new_start) as [Hlt|Hge].
  - set (pre := set_offsets _ _ m).
    assert (start_offset pre = N.min new_start (end_offset m) /\ end_offset pre = end_offset m
      /\ cap pre = C /\ dropped_bytes pre = start_offset pre) as (F1 & F2 & F3 & F4) by done.
    assert (meta_wf pre) as Hwf by (split; [done|lia..|done|by rewrite F2]).
    cbn [prog_bind persist_meta wsafe]. exists pre.
    split; [done|]. split; [split; [done|lia..]|]. split; [lia|]. split.
    + rewrite <- F2. apply append_data_safe; try done; lia.
    + intros kind. split; simpl; (split; [done|lia| |lia..]);
        rewrite HE; unfold written; rewrite length_app; lia.
  - apply append_data_safe; try done; lia.
Qed.

Lemma flags_wf m e l : meta_wf m -> meta_wf (set_flags e l m).
Proof. intros []. by split. Qed.

Lemma mark_safe st m e l len pm :
  offers (start_offset m) (end_offset m) len pm ->
  idle st (start_offset m) (end_offset m) len pm m ->
  wsafe st (publish (set_flags e l m)) (start_offset m) (end_offset m) len pm.
Proof.
  intros [Pwf Pe Pst Plen] [Mwf Me Mg Mst Ipe Ips Il]. pose proof (flags_wf m e l Mwf) as Hf.
  apply publish_safe; split; try done; simpl; lia.
Qed.

(** ** The reader's obligations

    [got] lists the bytes read so far with the offsets they were read for,
    [sure] those that a later look at the sidecar has confirmed, [seen] the
    end offset last seen. *)

Definition claims : Type := list (N * ascii).

Definition at_or_after (o : N) (l : claims) : claims := filter (fun c => (o <= c.1)%N) l.

Definition covers (l : claims) (offset : N) (bytes : list ascii) : Prop :=
  forall j b, bytes !! j = Some b -> (offset + N.of_nat j, b)%N ∈ l.

(** A chunk made of confirmed bytes only. *)
Definition chunk_sure (offset max_len : N) (sure : claims) (c : RingChunk) : Prop :=
  next_offset c = (offset + N.of_nat (length (data c)))%N
  /\ (N.of_nat (length (data c)) <= max_len)%N
  /\ (next_offset c <= chunk_end_offset c)%N
  /\ (chunk_start_offset c <= offset)%N
  /\ covers sure offset (data c).

Fixpoint rsafe (offset max_len : N) (p : prog (result RingChunk FileRingError))
    (seen : N) (got sure : claims) : Prop :=
  match p with
  | Return (Ok c) => chunk_sure offset max_len sure c
  | Return (Err _) => True
  | ReadSidecar k =>
      (forall m, meta_wf m -> (seen <= end_offset m)%N ->
         rsafe offset max_len (k (Ok (encode m))) (end_offset m) got
           (sure ++ at_or_after (start_offset m) got))
      /\ (forall kind, rsafe offset max_len (k (Err kind)) seen got sure)
  | DataLen k => forall r, rsafe offset max_len (k r) seen got sure
  | ReadByte pos k =>
      (exists o, (o < seen)%N /\ pos = N.to_nat (o mod C)
         /\ forall b, rsafe offset max_len (k (Ok b)) seen (got ++ [(o, b)]) sure)
      /\ (forall kind, rsafe offset max_len (k (Err kind)) seen got sure)
  | AtomicWrite _ _ | WriteByte _ _ _ | SyncData _ => False
  end.

(** What the claims mean in a live state: a byte read for an offset is the
    byte given for it unless the offset has left the live range. *)
Record claimed (S : list ascii) (lo : N) (pm : StreamMeta) (seen : N) (got sure : claims) : Prop := {
  cl_seen : (seen <= end_offset pm)%N;
  cl_got : forall o b, (o, b) ∈ got -> (o < seen)%N /\ ((lo <= o)%N -> S !! N.to_nat o = Some b);
  cl_sure : forall o b, (o, b) ∈ sure -> (o < seen)%N /\ S !! N.to_nat o = Some b
}.

Lemma claimed_advance S lo pm seen got sure lo' pm' :
  claimed S lo pm seen got sure -> advances lo pm lo' pm' -> claimed S lo' pm' seen got sure.
Proof.
  intros [H1 H2 H3] [A1 A2]. split; [lia| |done].
  intros o b Hin. destruct (H2 o b Hin) as [Ho Hb]. split; [done|]. intros Hlo. apply Hb. lia.
Qed.

Lemma claimed_stream S S' lo pm seen got sure :
  claimed S lo pm seen got sure ->
  (forall o, (o < end_offset pm)%N -> S' !! N.to_nat o = S !! N.to_nat o) ->
  claimed S' lo pm seen got sure.
Proof.
  intros [H1 H2 H3] Heq. split; [done|..]; intros o b Hin.
  - destruct (H2 o b Hin) as [Ho Hb]. split; [done|]. rewrite Heq by lia. done.
  - destruct (H3 o b Hin) as [Ho Hb]. split; [done|]. by rewrite Heq by lia.
Qed.

Lemma rsafe_step S offset max_len p seen got sure lo hi w pm p' :
  live S lo hi w pm -> claimed S lo pm seen got sure ->
  rsafe offset max_len p seen got sure -> prog_step p w p' w ->
  exists seen' got' sure', rsafe offset max_len p' seen' got' sure'
    /\ claimed S lo pm seen' got' sure'.
Proof.
  intros Hl Hcl Hr Hstep. pose proof Hl as [Hs [Hwf He Hst Hlen] Hg Hc].
  pose proof Hcl as [C1 C2 C3].
  inversion Hstep; subst; simpl in Hr; try done.
  - destruct Hr as [Hok _]. rewrite Hs. exists (end_offset pm), got. eexists.
    split; [apply Hok; [done|lia]|]. split; [done|..]; intros o b Hin.
    + destruct (C2 o b Hin). split; [lia|done].
    + apply elem_of_app in Hin as [Hin|Hin]; [destruct (C3 o b Hin); split; [lia|done]|].
      apply list_elem_of_filter in Hin as [Ho Hin]. simpl in Ho.
      destruct (C2 o b Hin) as [Hlt Hb]. split; [lia|]. apply Hb. lia.
  - destruct Hr as [_ Herr]. eauto 10.
  - eauto 10.
  - eauto 10.
  - destruct Hr as [(o & Ho & -> & Hok) _]. exists seen, (got ++ [(o, b)]), sure.
    split; [apply Hok|]. split; [done| |done]. intros o' b' Hin.
    apply elem_of_app in Hin as [Hin|Hin]; [by apply C2|].
    apply list_elem_of_singleton in Hin as [= -> ->]. split; [done|]. intros Hlo.
    rewrite <- Hc by lia. done.
  - destruct Hr as [_ Herr]. eauto 10.
Qed.

(** ** The reader's operations are safe *)

Section reader.
Variable offset max_len : N.

Lemma rsafe_assoc {A B} (p : prog A) (g : A -> prog B) f seen got sure :
  rsafe offset max_len (prog_bind p (fun a => prog_bind (g a) f)) seen got sure ->
  rsafe offset max_len (prog_bind (prog_bind p g) f) seen got sure.
Proof.
  revert seen got sure.
  induction p as [a|c k IH|pos b k IH|k IH|k IH|k IH|pos k IH]; intros seen got sure; simpl; try done.
  - intros [H1 H2]. split; eauto.
  - eauto.
  - intros [(o & H1 & H2 & H3) H4]. split; [|eauto]. exists o. eauto.
Qed.

Lemma validated_safe f seen got sure :
  (forall m, meta_wf m -> (seen <= end_offset m)%N ->
     rsafe offset max_len (f (Ok m)) (end_offset m) got
       (sure ++ at_or_after (start_offset m) got)) ->
  (forall e seen' sure', rsafe offset max_len (f (Err e)) seen' got sure') ->
  rsafe offset max_len (prog_bind read_validated_meta f) seen got sure.
Proof.
  intros Hok Herr. unfold read_validated_meta, read_meta, try_.
  repeat apply rsafe_assoc. simpl. split.
  - intros m Hm Hseen. rewrite decode_encode by by apply meta_wf_fits. simpl.
    intros [n|kind]; simpl; [|apply Herr]. destruct (validate_meta _ _); [by apply Hok|apply Herr].
  - intros kind. simpl. apply Herr.
Qed.

Lemma read_exact_safe n pos o f seen got sure :
  pos = N.to_nat (o mod C) -> (o mod C + N.of_nat n <= C)%N -> (o + N.of_nat n <= seen)%N ->
  (forall bytes got', length bytes = n -> got ⊆ got' -> covers got' o bytes ->
     rsafe offset max_len (f (Ok bytes)) seen got' sure) ->
  (forall kind got', rsafe offset max_len (f (Err kind)) seen got' sure) ->
  rsafe offset max_len (prog_bind (read_exact_at n pos) f) seen got sure.
Proof.
  revert pos o f got. induction n as [|n IH]; intros pos o f got -> Hroom Hseen Hok Herr.
  - simpl. apply Hok; [done..|]. by intros j b Hj.
  - cbn [read_exact_at prog_bind rsafe]. split; [|intros kind; simpl; apply Herr].
    exists o. split; [lia|]. split; [done|]. intros b. apply rsafe_assoc. simpl.
    assert (forall bytes got', length bytes = n -> got ++ [(o, b)] ⊆ got' ->
      covers got' (o + 1) bytes -> rsafe offset max_len (f (Ok (b :: bytes))) seen got' sure) as Hb.
    { intros bytes got' Hl Hsub Hcov. apply Hok; [simpl; lia|set_solver|].
      intros [|j] c Hj; simplify_eq/=; [rewrite N.add_0_r; set_solver|].
      replace (o + N.of_nat (Datatypes.S j))%N with (o + 1 + N.of_nat j)%N by lia. by apply Hcov. }
    destruct n as [|n]; [simpl; apply Hb; [done..|by intros j c Hj]|].
    pose proof (mod_succ o ltac:(lia)) as Hs.
    apply (IH _ (o + 1)%N); [rewrite Hs; lia|rewrite Hs; lia|lia|done|].
    intros kind got'. simpl. apply Herr.
Qed.

Lemma read_rounds_safe rounds pos todo o out f seen got sure :
  todo <= rounds -> pos = N.to_nat (o mod C) -> (o + N.of_nat todo <= seen)%N ->
  (offset + N.of_nat (length out) = o)%N -> covers got offset out ->
  (forall bytes got', length bytes = length out + todo -> covers got' offset bytes ->
     rsafe offset max_len (f (Ok bytes)) seen got' sure) ->
  (forall e got', rsafe offset max_len (f (Err e)) seen got' sure) ->
  rsafe offset max_len (prog_bind (read_rounds rounds (N.to_nat C) pos todo out) f) seen got sure.
Proof.
  revert pos todo o out got. induction rounds as [|rounds IH];
    intros pos todo o out got Hle -> Hseen Hout Hcov Hok Herr.
  { simpl. apply Hok; [lia|done]. }
  cbn [read_rounds]. destruct (decide (todo = 0)) as [Hz|Hz].
  { rewrite bool_decide_true by done. simpl. apply Hok; [lia|done]. }
  rewrite bool_decide_false by done. cbv zeta.
  assert (o mod C < C)%N as Hmod by (apply N.mod_lt; lia).
  set (n := todo `min` (N.to_nat C - N.to_nat (o mod C))).
  unfold try_. apply rsafe_assoc. apply (read_exact_safe _ _ o); [done|lia..| |].
  2:{ intros kind got'. simpl. apply Herr. }
  intros bytes got' Hl Hsub Hb.
  assert (covers got' offset (out ++ bytes)) as Hcov'.
  { intros j c Hj. destruct (decide (j < length out)).
    - rewrite lookup_app_l in Hj by done. apply Hsub. by apply Hcov.
    - rewrite lookup_app_r in Hj by lia. apply Hb in Hj.
      replace (o + N.of_nat (j - length out))%N with (offset + N.of_nat j)%N in Hj by lia. done. }
  destruct (decide (todo = n)) as [En|En].
  { replace (todo - n) with 0 by lia. destruct rounds; simpl;
      (apply Hok; [rewrite length_app; lia|done]). }
  assert (N.to_nat (o mod C) + n = N.to_nat C) as Hwrap by lia.
  assert ((o + N.of_nat n) mod C = 0)%N as H0.
  { rewrite <- N.Div0.add_mod_idemp_l. replace (o mod C + N.of_nat n)%N with C by lia.
    apply N.Div0.mod_same. }
  apply (IH _ _ (o + N.of_nat n)%N); [lia| |lia|rewrite length_app; lia|done| |done].
  - by rewrite Hwrap, Nat.Div0.mod_same, H0.
  - intros bs got2 Hl2 Hc2. apply Hok; [rewrite length_app in Hl2; lia|done].
Qed.

Lemma read_attempts_safe tries last_err seen got sure :
  rsafe offset max_len (read_attempts tries offset max_len last_err) seen got sure.
Proof.
  revert last_err seen got sure. induction tries as [|tries IH]; intros last_err seen got sure; [done|].
  cbn [read_attempts]. unfold try_ at 1. apply validated_safe; [|done].
  intros m Hm Hseen. destruct (N.ltb_spec offset (start_offset m)) as [|Hst]; [done|].
  destruct (N.ltb_spec (end_offset m) offset) as [|Hen]; [done|].
  cbv zeta. set (tk := N.min (end_offset m - offset) max_len).
  pose proof Hm as [Mc Mo Ms Md Me].
  assert (forall bs got', length bs = N.to_nat tk -> covers got' offset bs ->
    rsafe offset max_len
      (try_ id read_validated_meta (fun after =>
         if (offset <? start_offset after)%N
         then read_attempts tries offset max_len FileRingError_OffsetExpired
         else Return (Ok (mkRingChunk bs (start_offset m) (end_offset m)
                (u64_saturating_add offset tk) (dropped_bytes m) (truncated m || lost m)
                (eof m && (end_offset m <=? u64_saturating_add offset tk)%N)))))
      (end_offset m) got' (sure ++ at_or_after (start_offset m) got)) as Hafter.
  { intros bs got' Hl Hcov. unfold try_. apply validated_safe; [|done].
    intros after Ha Hse. destruct (N.ltb_spec offset (start_offset after)) as [|Hsa]; [apply IH|].
    assert (u64_saturating_add offset tk = offset + tk)%N as ->
      by (apply u64_saturating_add_small; unfold u64_fits in *; lia).
    cbn [rsafe]. unfold chunk_sure. cbn [FileRing.data next_offset chunk_end_offset chunk_start_offset].
    rewrite Hl, N2Nat.id. split; [done|]. split; [lia|].
    split; [lia|]. split; [done|]. intros j b Hj. apply elem_of_app. right.
    apply list_elem_of_filter. simpl. split; [lia|]. by apply Hcov. }
  unfold read_circular. rewrite Mc. destruct (N.eqb_spec tk 0) as [Hz|Hz].
  { simpl. apply Hafter; [by rewrite Hz|]. by intros j b Hj. }
  destruct (N.eqb_spec C 0); [lia|].
  apply (read_rounds_safe _ _ _ offset); [done|done|lia|simpl; lia| | |].
  - by intros j b Hj.
  - intros bytes got' Hl Hcov. apply Hafter; [simpl in Hl; lia|done].
  - intros e got'. simpl. apply IH.
Qed.
End reader.


(** ** Cleanup after a crash *)

Fixpoint csafe (p : prog (result unit FileRingError)) (pm : StreamMeta) : Prop :=
  match p with
  | Return _ => True
  | AtomicWrite c k =>
      exists e l, c = encode (set_flags e l pm)
        /\ forall r, csafe (k r) (set_flags e l pm) /\ csafe (k r) pm
  | ReadSidecar k =>
      csafe (k (Ok (encode pm))) pm /\ (forall kind, csafe (k (Err kind)) pm)
  | WriteByte _ _ _ | SyncData _ | DataLen _ | ReadByte _ _ => False
  end.

Lemma mark_stream_lost_safe pm : meta_wf pm -> csafe mark_stream_lost pm.
Proof.
  intros Hwf. simpl. split; [|done]. rewrite decode_encode by by apply meta_wf_fits. simpl.
  destruct (lost pm && eof pm); [done|]. simpl. exists true, true. split; [done|].
  by intros [].
Qed.

Lemma live_flags S lo hi w pm e l :
  live S lo hi w pm -> live S lo hi (mkWorld (file w) (encode (set_flags e l pm))) (set_flags e l pm).
Proof.
  intros [Hs [Hwf He Hst Hlen] Hg Hc]. split; [done| |done..].
  split; [by apply flags_wf|done..].
Qed.

Lemma csafe_step S p lo hi w pm p' w' :
  live S lo hi w pm -> csafe p pm -> prog_step p w p' w' ->
  exists pm', live S lo hi w' pm' /\ csafe p' pm' /\ advances lo pm lo pm'.
Proof.
  intros Hl Hp Hstep. destruct Hstep; simpl in Hp; try done.
  - destruct Hp as (e & l & -> & Hk). exists (set_flags e l pm).
    split; [by apply live_flags|]. split; [apply Hk|split; simpl; lia].
  - destruct Hp as (e & l & -> & Hk). exists (set_flags e l pm).
    split; [by apply live_flags|]. split; [apply Hk|split; simpl; lia].
  - destruct Hp as (e & l & -> & Hk). exists pm. split; [done|]. split; [apply Hk|split; lia].
  - destruct Hp as [Hk _]. exists pm. pose proof Hl as [Hs _ _ _]. rewrite Hs.
    split; [done|]. split; [done|split; lia].
  - destruct Hp as [_ Hk]. exists pm. split; [done|]. split; [done|split; lia].
Qed.

(** ** The invariant of the two processes *)

Definition writer_ok (s : system) (lo hi : N) (pm : StreamMeta) : Prop :=
  match alive s, job s, cleanup s with
  | true, None, None =>
      lo = start_offset (ring s) /\ hi = end_offset (ring s)
      /\ end_offset (ring s) = written (stream s)
      /\ idle (stream s) lo hi (length (file (files s))) pm (ring s)
  | true, Some (bytes, p), None => wsafe (stream s ++ bytes) p lo hi (length (file (files s))) pm
  | false, None, None => True
  | false, None, Some p => csafe p pm
  | _, _, _ => False
  end.

Definition reader_ok (s : system) (lo : N) (pm : StreamMeta) : Prop :=
  match reading s with
  | None => True
  | Some (offset, max_len, p) =>
      exists seen got sure, rsafe offset max_len p seen got sure
        /\ claimed (given s) lo pm seen got sure
  end.

Record invariant (s : system) (lo hi : N) (pm : StreamMeta) : Prop := {
  inv_live : live (given s) lo hi (files s) pm;
  inv_fits : u64_fits (written (given s));
  inv_writer : writer_ok s lo hi pm;
  inv_reader : reader_ok s lo pm
}.

Lemma created_invariant contents :
  invariant (created C contents) 0 0 (new C).
Proof.
  assert (meta_wf (new C)) as Hwf by (split; simpl; unfold u64_fits; lia || done).
  split; [|unfold u64_fits, written; simpl; lia| |done].
  - split; simpl; [done|split; simpl; [done|lia..]|lia|lia].
  - simpl. do 3 (split; [done|]). split; simpl; [done|lia..].
Qed.

(** The reader is unaffected by a step that advances and keeps the bytes
    below the published end. *)
Lemma reader_advance s lo pm s' lo' pm' :
  reader_ok s lo pm -> reading s' = reading s -> advances lo pm lo' pm' ->
  (forall o, (o < end_offset pm)%N -> given s' !! N.to_nat o = given s !! N.to_nat o) ->
  reader_ok s' lo' pm'.
Proof.
  unfold reader_ok. intros Hr -> Hadv Heq. destruct (reading s) as [[[offset max_len] p]|]; [|done].
  destruct Hr as (seen & got & sure & Hr & Hcl). exists seen, got, sure. split; [done|].
  eapply claimed_advance; [|done]. by eapply claimed_stream.
Qed.

Lemma live_extend S S' lo hi w pm :
  live S lo hi w pm -> length S <= length S' ->
  (forall o, (o < hi)%N -> S' !! N.to_nat o = S !! N.to_nat o) -> live S' lo hi w pm.
Proof.
  intros [Hs Ho Hg Hc] Hle Heq. split; [done|done|lia|].
  intros o Hrange. rewrite Hc by done. symmetry. apply Heq. lia.
Qed.

Lemma advances_refl lo pm : advances lo pm lo pm.
Proof. split; lia. Qed.

(** A call of the writer returns. *)
Lemma returned_invariant w m bytes r m' rd st lo hi pm :
  invariant (mkSystem w true m (Some (bytes, Return (r, m'))) None rd st) lo hi pm ->
  invariant (mkSystem w true m' None None rd (take (N.to_nat (end_offset m')) (st ++ bytes)))
    (start_offset m') (end_offset m') pm.
Proof.
  intros [Hl Hfit Hw Hr]. cbn [files] in Hl.
  assert (idle (st ++ bytes) lo hi (length (file w)) pm m') as Hid by exact Hw.
  pose proof Hid as [Iwf Ie Ig Ist Ipe Ips Il]. pose proof Hl as [Ls [Owf Oe Ost Ol] Lg Lc].
  assert (length (take (N.to_nat (end_offset m')) (st ++ bytes)) = N.to_nat (end_offset m')) as Hlen
    by (rewrite length_take; lia).
  assert (forall o, (o < end_offset m')%N ->
    take (N.to_nat (end_offset m')) (st ++ bytes) !! N.to_nat o = (st ++ bytes) !! N.to_nat o) as Heq
    by (intros o Ho; apply lookup_take_lt; lia).
  assert (given (mkSystem w true m' None None rd (take (N.to_nat (end_offset m')) (st ++ bytes)))
    = take (N.to_nat (end_offset m')) (st ++ bytes)) as Hgiven by apply app_nil_r.
  split.
  - rewrite Hgiven. split; [done|by split|lia|].
    intros o Ho. rewrite Heq by lia. apply Lc. lia.
  - rewrite Hgiven. unfold written, u64_fits in *. rewrite Hlen. destruct Iwf as [_ _ _ _ We].
    unfold u64_fits in We. lia.
  - unfold writer_ok. cbn [alive job cleanup ring stream files].
    split; [done|]. split; [done|]. split; [unfold written; rewrite Hlen; lia|].
    split; [done|lia..].
  - eapply reader_advance; [done|done| |].
    + split; [lia|done].
    + intros o Ho. rewrite Hgiven. apply Heq. lia.
Qed.

Lemma given_idle w al m cl rd st : given (mkSystem w al m None cl rd st) = st.
Proof. apply app_nil_r. Qed.

Lemma given_job w al m bytes p cl rd st :
  given (mkSystem w al m (Some (bytes, p)) cl rd st) = st ++ bytes.
Proof. done. Qed.

(** A call of the writer starts. *)
Lemma started_invariant w m bytes p cl rd st lo hi pm :
  invariant (mkSystem w true m None cl rd st) lo hi pm ->
  u64_fits (written (st ++ bytes)) ->
  (forall len, offers (start_offset m) (end_offset m) len pm ->
     idle st (start_offset m) (end_offset m) len pm m -> end_offset m = written st ->
     wsafe (st ++ bytes) p (start_offset m) (end_offset m) len pm) ->
  invariant (mkSystem w true m (Some (bytes, p)) cl rd st) lo hi pm.
Proof.
  intros [Hl Hfit Hw Hr] Hb Hp. rewrite given_idle in Hl. cbn [files] in Hl.
  unfold writer_ok in Hw. cbn in Hw. destruct cl; [done|]. destruct Hw as (-> & -> & HE & Hid).
  assert (forall o, (o < end_offset m)%N -> (st ++ bytes) !! N.to_nat o = st !! N.to_nat o) as Heq.
  { intros o Ho. apply lookup_app_l. unfold written in HE. lia. }
  split; rewrite ?given_job; cbn [files]; [|done| |].
  - eapply live_extend; [done|rewrite length_app; lia|done].
  - apply Hp; [by destruct Hl|done..].
  - eapply reader_advance; [done|done|apply advances_refl|].
    intros o Ho. destruct Hl as [_ [_ Oe _ _] _ _].
    rewrite given_idle, given_job. apply Heq. lia.
Qed.

Lemma step_invariant s e s' lo hi pm :
  invariant s lo hi pm -> sys_step s e s' -> exists lo' hi' pm', invariant s' lo' hi' pm'.
Proof.
  intros Hinv Hstep. pose proof Hinv as [Hl Hfit Hw Hr].
  destruct Hstep as [w m cl rd st bytes Hb|w m cl rd st|w m cl rd st|w w' m bytes p p' cl rd st Hp
    |w m bytes r m' cl rd st|w m j cl rd st|w m rd st|w w' m p p' rd st Hp|w m r rd st
    |w al m j cl st offset max_len|w al m j cl st offset max_len p p' Hp
    |w al m j cl st offset max_len r].
  - exists lo, hi, pm. apply started_invariant; [done..|].
    intros len Hof Hid HE. by apply append_safe.
  - exists lo, hi, pm. rewrite given_idle in Hfit.
    apply started_invariant; rewrite ?app_nil_r; [done..|].
    intros len Hof Hid _. unfold mark_eof. destruct (eof m); [done|by apply mark_safe].
  - exists lo, hi, pm. rewrite given_idle in Hfit.
    apply started_invariant; rewrite ?app_nil_r; [done..|].
    intros len Hof Hid _. unfold mark_lost. destruct (_ && _); [done|by apply mark_safe].
  - destruct cl; [done|]. rewrite given_job in *.
    destruct (wsafe_step _ _ _ _ _ _ _ _ Hl Hw Hp) as (lo' & hi' & pm' & Hl' & Hw' & Hadv).
    exists lo', hi', pm'. split; [done..|]. by eapply reader_advance.
  - destruct cl; [done|]. exists (start_offset m'), (end_offset m'), pm.
    by eapply returned_invariant.
  - exists lo, hi, pm. assert (cl = None) as -> by (by destruct j as [[]|], cl).
    split; rewrite ?given_idle; [done..|].
    eapply reader_advance; [done|done|apply advances_refl|]. intros. by rewrite given_idle.
  - exists lo, hi, pm. split; [done..| |done]. apply mark_stream_lost_safe.
    by destruct Hl as [_ [] _ _].
  - destruct (csafe_step _ _ _ _ _ _ _ _ Hl Hw Hp) as (pm' & Hl' & Hw' & Hadv).
    exists lo, hi, pm'. split; [done..|]. by eapply reader_advance.
  - exists lo, hi, pm. by split.
  - exists lo, hi, pm. split; [done..|]. exists (0%N), [], [].
    split; [apply read_attempts_safe|]. split; [lia|..]; intros o b Hin; by apply elem_of_nil in Hin.
  - destruct Hr as (seen & got & sure & Hr & Hcl).
    destruct (rsafe_step _ _ _ _ _ _ _ _ _ _ _ _ Hl Hcl Hr Hp) as (seen' & got' & sure' & ? & ?).
    exists lo, hi, pm. split; [done..|]. exists seen', got', sure'. done.
  - exists lo, hi, pm. by split.
Qed.

Lemma reachable_invariant s : reachable C s -> exists lo hi pm, invariant s lo hi pm.
Proof.
  induction 1 as [contents|s e s' _ (lo & hi & pm & IH) Hstep].
  - eauto using created_invariant.
  - by eapply step_invariant.
Qed.

End proofs.

(** ** Executable schedules

    [exec] performs one operation without a fault; a schedule is a list of
    such operations of either process. *)

Definition prog_exec {A} (p : prog A) (w : world) : option (prog A * world) :=
  match p with
  | Return _ => None
  | AtomicWrite c k => Some (k (Ok tt), mkWorld (file w) c)
  | WriteByte pos b k => Some (k (Ok tt), mkWorld (file_write pos b (file w)) (sidecar w))
  | SyncData k => Some (k (Ok tt), w)
  | ReadSidecar k => Some (k (Ok (sidecar w)), w)
  | DataLen k => Some (k (Ok (length (file w))), w)
  | ReadByte pos k =>
      match file w !! pos with
      | Some b => Some (k (Ok b), w)
      | None => Some (k (Err 0%N), w)
      end
  end.

Lemma prog_exec_step {A} (p : prog A) w p' w' : prog_exec p w = Some (p', w') -> prog_step p w p' w'.
Proof.
  destruct p; simpl; intros; simplify_eq; try constructor.
  destruct (file w !! pos) eqn:Hf; simplify_eq; by constructor.
Qed.

Inductive action : Type :=
| DoAppend (bytes : list ascii)
| DoWriter
| DoRead (offset max_len : N)
| DoReader.

Definition exec (a : action) (s : system) : option (event * system) :=
  match a with
  | DoAppend bytes =>
      match s with
      | mkSystem w true m None cl rd st =>
          if decide (u64_fits (written (st ++ bytes)))
          then Some (None, mkSystem w true m (Some (bytes, append bytes m)) cl rd st) else None
      | _ => None
      end
  | DoWriter =>
      match s with
      | mkSystem w true m (Some (bytes, Return (r, m'))) cl rd st =>
          Some (None, mkSystem w true m' None cl rd
                        (take (N.to_nat (end_offset m')) (st ++ bytes)))
      | mkSystem w true m (Some (bytes, p)) cl rd st =>
          '(p', w') ← prog_exec p w; Some (None, mkSystem w' true m (Some (bytes, p')) cl rd st)
      | _ => None
      end
  | DoRead offset max_len =>
      match s with
      | mkSystem w al m j cl None st =>
          Some (None, mkSystem w al m j cl (Some (offset, max_len, read offset max_len)) st)
      | _ => None
      end
  | DoReader =>
      match s with
      | mkSystem w al m j cl (Some (offset, max_len, Return r)) st =>
          Some (Some (offset, max_len, r), mkSystem w al m j cl None st)
      | mkSystem w al m j cl (Some (offset, max_len, p)) st =>
          '(p', w') ← prog_exec p w;
          if decide (file w' = file w /\ sidecar w' = sidecar w)
          then Some (None, mkSystem w al m j cl (Some (offset, max_len, p')) st) else None
      | _ => None
      end
  end.

Lemma exec_step a s e s' : exec a s = Some (e, s') -> sys_step s e s'.
Proof.
  destruct s as [w al m j cl rd st]. destruct a; simpl; intros He.
  - destruct al, j; try done. case_decide; simplify_eq. by constructor.
  - destruct al, j as [[bytes p]|]; try done.
    destruct p as [[r m']| | | | | |]; simplify_eq;
      try (apply bind_Some in He as ([p' w'] & Hp & [= <- <-]); constructor; by apply prog_exec_step).
    constructor.
  - destruct rd; simplify_eq. constructor.
  - destruct rd as [[[offset max_len] p]|]; [|done].
    destruct p as [r| | | | | |]; simplify_eq;
      try (apply bind_Some in He as ([p' [f' c']] & Hp & He); simpl in He; case_decide as Hw;
           simplify_eq; destruct Hw as [-> ->]; destruct w; constructor; by apply prog_exec_step).
    constructor.
Qed.

Fixpoint exec_all (actions : list action) (s : system) : option system :=
  match actions with
  | [] => Some s
  | a :: actions => '(_, s') ← exec a s; exec_all actions s'
  end.

Lemma exec_all_reachable cap actions s s' :
  reachable cap s -> exec_all actions s = Some s' -> reachable cap s'.
Proof.
  revert s. induction actions as [|a actions IH]; intros s Hs He; simplify_eq/=; [done|].
  apply bind_Some in He as ([e s1] & H1 & He). eapply IH; [|done].
  eapply reach_step; [done|]. by apply exec_step in H1.
Qed.

(** C5. Reads are never torn.  However the runner's operations, failures and
    crash interleave with a reader's, byte by byte, a read that succeeds
    returns exactly the bytes the runner was given for the offsets it asked,
    although nothing locks the files: the sidecar is advanced before cells are
    overwritten and looked at again after they are read. *)
Theorem reads_untorn (C : N) (s s' : system) (offset max_len : N) (chunk : RingChunk) :
  (0 < C)%N -> u64_fits C -> reachable C s ->
  sys_step s (Some (offset, max_len, Ok chunk)) s' ->
  let n := N.of_nat (length (data chunk)) in
  data chunk = stream_slice (given s) offset n
  /\ next_offset chunk = (offset + n)%N /\ (n <= max_len)%N
  /\ (chunk_start_offset chunk <= offset)%N /\ (next_offset chunk <= chunk_end_offset chunk)%N.
Proof.
  intros Hp Hf Hs Hstep n. destruct (reachable_invariant C Hp Hf s Hs) as (lo & hi & pm & [Hl _ _ Hr]).
  inversion Hstep; subst. destruct Hr as (seen & got & sure & Hsure & [_ _ Hcl]).
  destruct Hsure as (Hn & Hm & He & Hst & Hcov). split; [|done].
  unfold stream_slice, n. rewrite Nat2N.id. apply list_eq. intros i.
  destruct (decide (i < length (data chunk))) as [Hj|Hj].
  - destruct (lookup_lt_is_Some_2 _ _ Hj) as [b Hb]. rewrite lookup_take_lt, lookup_drop by done.
    destruct (Hcl _ _ (Hcov i b Hb)) as [_ Hg]. rewrite Hb, <- Hg. f_equal. lia.
  - rewrite lookup_take_ge by lia. by apply lookup_ge_None_2; lia.
Qed.

(** A reader has looked at the sidecar when the next append publishes its
    new start and overwrites the first cell; the reader's own cells are
    untouched and its second look confirms them. *)
Definition demo_actions : list action :=
  [DoAppend (list_ascii_of_string "abcd")] ++ replicate 7 DoWriter
  ++ [DoRead 2 2; DoReader; DoReader; DoAppend (list_ascii_of_string "ef")]
  ++ replicate 2 DoWriter ++ replicate 4 DoReader.

Definition demo_chunk : option (N * N * RingChunk) :=
  s ← exec_all demo_actions (created 4 []);
  '(e, _) ← exec DoReader s;
  '(offset, max_len, r) ← e;
  match r with Ok chunk => Some (offset, max_len, chunk) | Err _ => None end.

Lemma reads_untorn_witness :
  exists s s' chunk, reachable 4 s /\ sys_step s (Some (2%N, 2%N, Ok chunk)) s'
    /\ data chunk = list_ascii_of_string "cd"
    /\ data chunk = stream_slice (given s) 2 (N.of_nat (length (data chunk))).
Proof.
  assert (demo_chunk = Some (2%N, 2%N, mkRingChunk (list_ascii_of_string "cd") 0 4 4 0 false false))
    as Hd by by vm_compute.
  unfold demo_chunk in Hd.
  destruct (exec_all demo_actions (created 4 [])) as [s|] eqn:Hs; [|done]. cbn [mbind option_bind] in Hd.
  destruct (exec DoReader s) as [[[[[o n] [c|]]|] s']|] eqn:He; cbn [mbind option_bind] in Hd; try discriminate Hd.
  injection Hd as -> -> ->.
  assert (reachable 4 s) as Hr by (by eapply exec_all_reachable; [apply reach_created|]).
  apply exec_step in He. exists s, s'. eexists. split; [done|]. split; [done|]. split; [done|].
  by apply (reads_untorn 4 s s' 2 2 (mkRingChunk (list_ascii_of_string "cd") 0 4 4 0 false false)).
Defined.

(** ** One process at a time

    [prog_run] runs a program alone and without faults. *)

Fixpoint prog_run {A} (p : prog A) (w : world) : A * world :=
  match p with
  | Return a => (a, w)
  | AtomicWrite c k => prog_run (k (Ok tt)) (mkWorld (file w) c)
  | WriteByte pos b k => prog_run (k (Ok tt)) (mkWorld (file_write pos b (file w)) (sidecar w))
  | SyncData k => prog_run (k (Ok tt)) w
  | ReadSidecar k => prog_run (k (Ok (sidecar w))) w
  | DataLen k => prog_run (k (Ok (length (file w)))) w
  | ReadByte pos k =>
      prog_run (k (match file w !! pos with Some b => Ok b | None => Err 0%N end)) w
  end.

Lemma prog_run_bind {A B} (p : prog A) (f : A -> prog B) w :
  prog_run (prog_bind p f) w = let '(a, w') := prog_run p w in prog_run (f a) w'.
Proof. revert w. induction p; intros w; simpl; auto. Qed.

Definition sequential_step (op : ring_op) (s : StreamMeta * world) : StreamMeta * world :=
  let p := match op with Append bytes => append bytes s.1 | Close => mark_eof s.1 end in
  let '((_, m), w) := prog_run p s.2 in (m, w).

(** A ring created over any data file, after the given calls. *)
Definition sequential_run (cap : N) (contents : list ascii) (ops : list ring_op) :
    StreamMeta * world :=
  foldl (fun s op => sequential_step op s) (new cap, mkWorld contents (encode (new cap))) ops.

Section parity.
Variable C : N.
Hypothesis C_pos : (0 < C)%N.
Hypothesis C_limit : (C <= DETACHED_STREAM_LOG_BYTES)%N.

Lemma C_u64 : u64_fits C.
Proof. unfold u64_fits, u64_max. unfold DETACHED_STREAM_LOG_BYTES in C_limit. lia. Qed.

(** The metadata after writing [history]. *)
Definition meta_of (history : list ascii) (closed : bool) : StreamMeta :=
  mkStreamMeta C (window_start (N.to_nat C) history) (written history)
    (window_start (N.to_nat C) history) (bool_decide (N.to_nat C < length history)) closed false.

(** A program of the writer run alone ends live and idle. *)
Lemma wsafe_run S p lo hi w pm :
  live C S lo hi w pm -> wsafe C S p lo hi (length (file w)) pm ->
  exists lo' hi' pm', live C S lo' hi' (prog_run p w).2 pm'
    /\ idle C S lo' hi' (length (file (prog_run p w).2)) pm' (prog_run p w).1.2.
Proof.
  revert lo hi w pm. induction p as [[r m]|c k IH|pos b k IH|k IH|k IH|k IH|pos k IH];
    intros lo hi w pm Hl Hw; try done.
  - eauto.
  - destruct (wsafe_step C C_pos S _ lo hi w pm _ _ Hl Hw (ps_atomic c k w))
      as (lo' & hi' & pm' & Hl' & Hw' & _). simpl. by eapply IH.
  - destruct (wsafe_step C C_pos S _ lo hi w pm _ _ Hl Hw (ps_write pos b k w))
      as (lo' & hi' & pm' & Hl' & Hw' & _). simpl. by eapply IH.
  - simpl. eapply IH; [done|]. apply Hw.
Qed.

Record sequential (history : list ascii) (closed : bool) (s : StreamMeta * world) : Prop := {
  seq_meta : s.1 = meta_of history closed;
  seq_live : live C history (start_offset s.1) (end_offset s.1) s.2 s.1
}.

Lemma write_all_run buf pos w :
  exists w', prog_run (write_all_at buf pos) w = (Ok tt, w') /\ sidecar w' = sidecar w.
Proof.
  revert pos w. induction buf as [|b buf IH]; intros pos w; simpl; [eauto|].
  destruct (IH (S pos) (mkWorld (file_write pos b (file w)) (sidecar w))) as (w' & -> & Hs). eauto.
Qed.

Lemma write_rounds_run rounds cap pos rem w :
  exists w', prog_run (write_rounds rounds cap pos rem) w = (Ok tt, w') /\ sidecar w' = sidecar w.
Proof.
  revert pos rem w. induction rounds as [|rounds IH]; intros pos rem w; simpl; [eauto|].
  case_bool_decide; [simpl; eauto|]. unfold try_. rewrite prog_run_bind.
  destruct (write_all_run (take (length rem `min` (cap - pos)) rem) pos w) as (w1 & -> & H1).
  destruct (IH ((pos + length rem `min` (cap - pos)) mod cap)
              (drop (length rem `min` (cap - pos)) rem) w1) as (w' & -> & H2).
  eexists. split; [done|]. congruence.
Qed.

Lemma write_circular_run m o rem w :
  exists w', prog_run (write_circular m o rem) w = (Ok tt, w') /\ sidecar w' = sidecar w.
Proof. unfold write_circular. case_bool_decide; [simpl; eauto|apply write_rounds_run]. Qed.

Lemma append_data_run bytes new_start new_end self w :
  let self1 := mkStreamMeta (cap self) (start_offset self) new_end (dropped_bytes self)
                 (truncated self) (eof self) (lost self) in
  let self2 := if (start_offset self <? new_start)%N
               then set_offsets new_start new_end self1 else self1 in
  exists f, prog_run (append_data bytes new_start new_end self) w
            = ((Ok tt, self2), mkWorld f (encode self2)).
Proof.
  intros self1 self2. unfold append_data. cbv zeta. rewrite prog_run_bind.
  destruct (write_circular_run self (N.max new_start (end_offset self))
    (drop (N.to_nat (N.max new_start (end_offset self) - end_offset self)) bytes) w)
    as (w1 & -> & _). simpl. eauto.
Qed.

(** The metadata an append leaves in memory and on disk. *)
Lemma append_run history closed bytes w :
  u64_fits (written (history ++ bytes)) -> sidecar w = encode (meta_of history closed) ->
  exists w', prog_run (append bytes (meta_of history closed)) w
      = ((Ok tt, meta_of (history ++ bytes) closed), w')
    /\ sidecar w' = encode (meta_of (history ++ bytes) closed).
Proof.
  intros Hfit Hs. unfold append. destruct (decide (bytes = [])) as [->|Hne].
  { rewrite bool_decide_true by done. rewrite app_nil_r. simpl. eauto. }
  rewrite bool_decide_false by done. cbv zeta.
  assert (0 < length bytes) as Hn by (destruct bytes; simpl; [done|lia]).
  assert (written (history ++ bytes) = written history + N.of_nat (length bytes))%N as HW
    by (unfold written; rewrite length_app; lia).
  replace (u64_saturating_add _ _) with (written (history ++ bytes))
    by (rewrite HW in *; symmetry; by apply u64_saturating_add_small).
  cbn [cap meta_of]. set (ne := written (history ++ bytes)).
  assert (ne - C = window_start (N.to_nat C) (history ++ bytes))%N as HNS
    by (unfold ne, window_start, written; lia). rewrite HNS.
  assert (window_start (N.to_nat C) history <= window_start (N.to_nat C) (history ++ bytes))%N as Hmono
    by (unfold window_start; rewrite length_app; lia).
  set (st := window_start (N.to_nat C) history) in *.
  set (ns := window_start (N.to_nat C) (history ++ bytes)) in *.
  destruct (N.ltb_spec (start_offset (meta_of history closed)) ns) as [Hlt|Hge];
    cbn [start_offset meta_of] in *.
  - rewrite prog_run_bind. cbn [prog_run persist_meta].
    destruct (append_data_run bytes ns ne
      (set_offsets (N.min ns (end_offset (meta_of history closed)))
         (end_offset (meta_of history closed)) (meta_of history closed))
      (mkWorld (file w) (encode (set_offsets (N.min ns (end_offset (meta_of history closed)))
         (end_offset (meta_of history closed)) (meta_of history closed))))) as [f ->].
    replace (if (_ <? _)%N then _ else _) with (meta_of (history ++ bytes) closed); [eauto|].
    unfold meta_of, set_offsets. cbn. fold st ns ne.
    rewrite bool_decide_true by (unfold ns, window_start in Hlt; lia).
    destruct (N.ltb_spec (N.min ns (written history)) ns); [done|].
    f_equal; lia.
  - destruct (append_data_run bytes ns ne (meta_of history closed) w) as [f ->].
    replace (if (_ <? _)%N then _ else _) with (meta_of (history ++ bytes) closed); [eauto|].
    unfold meta_of, set_offsets. cbn. fold st ns ne.
    destruct (N.ltb_spec st ns); [lia|].
    assert (length (history ++ bytes) <= N.to_nat C) as Hle
      by (unfold st, ns, window_start in Hge; rewrite length_app in *; lia).
    rewrite length_app in Hle. rewrite !bool_decide_false by (rewrite ?length_app; lia).
    f_equal; lia.
Qed.

Lemma meta_of_wf history closed : u64_fits (written history) -> meta_wf C (meta_of history closed).
Proof. intros Hf. split; simpl; unfold window_start, written in *; try done; lia. Qed.

Lemma encode_inj m1 m2 : fits m1 -> fits m2 -> encode m1 = encode m2 -> m1 = m2.
Proof.
  intros H1 H2 E. apply decode_encode in H1, H2. rewrite E in H1. congruence.
Qed.

Lemma sequential_append history closed bytes s :
  sequential history closed s -> u64_fits (written (history ++ bytes)) ->
  sequential (history ++ bytes) closed (sequential_step (Append bytes) s).
Proof.
  destruct s as [m w]. intros [Hm Hl] Hfit. cbn [fst snd] in *. subst m.
  assert (u64_fits (written history)) as Hfit0
    by (unfold u64_fits, written in *; rewrite length_app in Hfit; lia).
  pose proof (meta_of_wf history closed Hfit0) as Hwf. pose proof Hl as [Hs Hof Hg Hc].
  destruct (append_run history closed bytes w Hfit Hs) as (w' & Hrun & Hs').
  assert (idle C history (start_offset (meta_of history closed)) (end_offset (meta_of history closed))
    (length (file w)) (meta_of history closed) (meta_of history closed)) as Hid.
  { destruct Hof as [_ _ Ost Ol]. split; [done|lia|done|lia..]. }
  pose proof (append_safe C C_pos C_u64 history bytes (meta_of history closed) _ _ Hfit eq_refl Hof Hid) as Hsafe.
  assert (live C (history ++ bytes) (start_offset (meta_of history closed))
    (end_offset (meta_of history closed)) w (meta_of history closed)) as Hl'.
  { apply live_extend with (S := history); [done..|rewrite length_app; lia|]. intros o Ho. apply lookup_app_l.
    simpl in Ho. unfold written in Ho. lia. }
  destruct (wsafe_run _ _ _ _ _ _ Hl' Hsafe) as (lo' & hi' & pm' & Hl2 & Hid2).
  rewrite Hrun in Hl2, Hid2. simpl in Hl2, Hid2.
  pose proof Hl2 as [Hs2 [Wf2 _ _ _] _ Hc2]. pose proof (meta_of_wf _ closed Hfit) as Hwf2.
  assert (pm' = meta_of (history ++ bytes) closed) as ->.
  { apply encode_inj; [by eapply meta_wf_fits; eauto using C_u64..|congruence]. }
  unfold sequential_step. cbn [fst snd]. cbv zeta. rewrite Hrun. split; [done|]. cbn [fst snd].
  destruct Hid2 as [_ Ie Ig Ist _ _ Il]. split; [done|split; [done|lia..]|done|].
  intros o Ho. apply Hc2. lia.
Qed.

Lemma sequential_close history closed s :
  sequential history closed s -> sequential history true (sequential_step Close s).
Proof.
  destruct s as [m w]. intros [Hm Hl]. cbn [fst snd] in *. subst m. unfold sequential_step, mark_eof.
  cbn [fst snd]. destruct closed; [by split|]. cbn. split; [done|]. cbn [fst snd].
  by apply (live_flags C history _ _ w (meta_of history false) true false).
Qed.

Lemma sequential_run_ok contents ops :
  u64_fits (written (history_of ops)) ->
  sequential (history_of ops) (closed_by ops) (sequential_run C contents ops).
Proof.
  intros Hfit. unfold sequential_run.
  assert (forall ops h c s, sequential h c s -> u64_fits (written (h ++ history_of ops)) ->
    sequential (h ++ history_of ops) (c || closed_by ops)
      (foldl (fun s op => sequential_step op s) s ops)) as Hall.
  { clear ops Hfit. intros ops. induction ops as [|[bytes|] ops IH]; intros h c s Hs Hf; simpl in *.
    - by rewrite app_nil_r, orb_false_r.
    - rewrite app_assoc in *. apply IH; [|done]. apply sequential_append; [done|].
      unfold u64_fits, written in *. rewrite !length_app in *. lia.
    - rewrite orb_true_r. apply (IH h true); [by eapply sequential_close|done]. }
  apply (Hall ops [] false); [|done].
  destruct (created_invariant C C_pos contents) as [Hl _ _ _]. split; [done|].
  simpl. exact Hl.
Qed.

(** A read run alone. *)
Lemma read_exact_run n pos w :
  pos + n <= length (file w) ->
  prog_run (read_exact_at n pos) w = (Ok (take n (drop pos (file w))), w).
Proof.
  revert pos. induction n as [|n IH]; intros pos Hle; simpl; [by rewrite take_0|].
  destruct (lookup_lt_is_Some_2 (file w) pos) as [b Hb]; [lia|]. rewrite Hb.
  rewrite prog_run_bind, IH by lia. simpl. by rewrite (drop_S _ _ _ Hb).
Qed.

Lemma read_rounds_run rounds todo o out bytes w :
  todo <= rounds -> length bytes = todo ->
  (forall j b, bytes !! j = Some b -> file w !! N.to_nat ((o + N.of_nat j) mod C) = Some b) ->
  prog_run (read_rounds rounds (N.to_nat C) (N.to_nat (o mod C)) todo out) w
  = (Ok (out ++ bytes), w).
Proof.
  revert todo o out bytes. induction rounds as [|rounds IH]; intros todo o out bytes Hle Hlen Hget.
  { destruct bytes; simpl in *; [|lia]. by rewrite app_nil_r. }
  cbn [read_rounds]. destruct (decide (todo = 0)) as [Hz|Hz].
  { rewrite bool_decide_true by done. destruct bytes; simpl in *; [|lia]. by rewrite app_nil_r. }
  rewrite bool_decide_false by done. cbv zeta.
  assert (o mod C < C)%N as Hmod by (apply N.mod_lt; lia).
  set (n := todo `min` (N.to_nat C - N.to_nat (o mod C))).
  assert (forall j : nat, j < n -> ((o + N.of_nat j) mod C = o mod C + N.of_nat j)%N) as Hin.
  { intros j Hj. rewrite <- N.Div0.add_mod_idemp_l. apply N.mod_small. lia. }
  assert (forall j, j < n -> file w !! (N.to_nat (o mod C) + j) = bytes !! j) as Hcell.
  { intros j Hj. destruct (lookup_lt_is_Some_2 bytes j) as [b Hb]; [lia|].
    rewrite Hb, <- (Hget j b Hb), Hin by done. f_equal. lia. }
  assert (N.to_nat (o mod C) + n <= length (file w)) as Hroom.
  { specialize (Hcell (n - 1) ltac:(lia)).
    destruct (lookup_lt_is_Some_2 bytes (n - 1)) as [b Hb]; [lia|]. rewrite Hb in Hcell.
    apply lookup_lt_Some in Hcell. lia. }
  unfold try_. rewrite prog_run_bind, read_exact_run by done.
  assert (take n (drop (N.to_nat (o mod C)) (file w)) = take n bytes) as ->.
  { apply list_eq. intros j. destruct (decide (j < n)); [|by rewrite !lookup_take_ge by lia].
    rewrite !lookup_take_lt, lookup_drop by done. by apply Hcell. }
  rewrite <- (take_drop n bytes) at 2. rewrite app_assoc.
  destruct (decide (todo = n)) as [En|En].
  { replace (todo - n) with 0 by lia. rewrite (drop_ge bytes) by lia. rewrite app_nil_r.
    by destruct rounds. }
  assert (N.to_nat (o mod C) + n = N.to_nat C) as Hwrap by lia.
  replace ((N.to_nat (o mod C) + n) mod N.to_nat C) with (N.to_nat ((o + N.of_nat n) mod C)).
  2:{ rewrite Hwrap, Nat.Div0.mod_same, <- N.Div0.add_mod_idemp_l.
      replace (o mod C + N.of_nat n)%N with C by lia. by rewrite N.Div0.mod_same. }
  apply IH; [lia|rewrite length_drop; lia|].
  intros j b Hj. rewrite lookup_drop in Hj. rewrite <- (Hget _ _ Hj).
  by replace (o + N.of_nat n + N.of_nat j)%N with (o + N.of_nat (n + j))%N by lia.
Qed.

Lemma validated_run history closed s :
  sequential history closed s -> u64_fits (written history) ->
  prog_run read_validated_meta s.2 = (Ok (meta_of history closed), s.2).
Proof.
  intros [Hm [Hs [Hwf _ _ Hlen] _ _]] Hfit. rewrite Hm in *.
  unfold read_validated_meta, read_meta, try_. rewrite !prog_run_bind. simpl. rewrite Hs.
  rewrite decode_encode by (by eapply meta_wf_fits; eauto using C_u64). simpl.
  unfold validate_meta. destruct Hwf as [Wc Wo Ws Wd _]. simpl in *.
  rewrite N.eqb_refl.
  destruct (N.eqb_spec C 0); [lia|]. destruct (N.ltb_spec DETACHED_STREAM_LOG_BYTES C); [lia|].
  simpl. destruct (N.ltb_spec (written history) (window_start (N.to_nat C) history)); [lia|].
  destruct (N.ltb_spec C (written history - window_start (N.to_nat C) history)); [lia|]. simpl.
  destruct (N.ltb_spec (N.of_nat (length (file s.2))) (N.min (written history) C)); [lia|done].
Qed.

Definition file_result (r : result ExecRing.RingChunk ExecRing.ExecError) :
    result RingChunk FileRingError :=
  match r with
  | Ok c =>
      Ok (mkRingChunk (ExecRing.ch_data c) (ExecRing.ch_start_offset c) (ExecRing.ch_end_offset c)
            (ExecRing.ch_next_offset c) (ExecRing.ch_dropped_bytes c) (ExecRing.ch_truncated c)
            (ExecRing.ch_eof c))
  | Err ExecRing.ExecError_OffsetExpired => Err FileRingError_OffsetExpired
  | Err ExecRing.ExecError_OffsetInFuture => Err FileRingError_OffsetInFuture
  end.

Lemma sequential_read history closed s offset max_len :
  sequential history closed s -> u64_fits (written history) ->
  (prog_run (read offset max_len) s.2).1
  = file_result (ExecRing.read_spec (N.to_nat C) history closed offset max_len).
Proof.
  intros Hseq Hfit. pose proof (validated_run _ _ _ Hseq Hfit) as Hv.
  pose proof Hseq as [Hm [_ _ _ Hcells]]. rewrite Hm in Hcells. simpl in Hcells.
  unfold read, READ_RETRIES, ExecRing.read_spec. cbn [read_attempts]. unfold try_ at 1.
  rewrite prog_run_bind, Hv. cbn [start_offset end_offset meta_of cap].
  destruct (N.ltb_spec offset (window_start (N.to_nat C) history)) as [Hlt|Hge];
    [by rewrite decide_True|rewrite decide_False by lia].
  destruct (N.ltb_spec (written history) offset) as [Hlt|Hge'];
    [by rewrite decide_True|rewrite decide_False by lia].
  cbv zeta. set (tk := N.min (written history - offset) max_len).
  set (bytes := stream_slice history offset max_len).
  assert (length bytes = N.to_nat tk) as Hlen.
  { unfold bytes, stream_slice, tk, written. rewrite length_take, length_drop. lia. }
  assert (prog_run (read_circular offset tk C) s.2 = (Ok bytes, s.2)) as Hread.
  { unfold read_circular. destruct (N.eqb_spec tk 0) as [Hz|Hz].
    { rewrite Hz in Hlen. by destruct bytes. }
    destruct (N.eqb_spec C 0); [lia|]. rewrite (read_rounds_run _ _ _ _ bytes); [done..|].
    intros j b Hj. apply lookup_lt_Some in Hj as Hjl. unfold bytes, stream_slice in Hj.
    rewrite Hcells by (unfold tk in *; lia). rewrite lookup_take_lt, lookup_drop in Hj
      by (unfold tk in *; lia). rewrite <- Hj. f_equal. lia. }
  rewrite prog_run_bind, Hread. unfold try_ at 1. rewrite prog_run_bind, Hv.
  cbn [start_offset meta_of]. destruct (N.ltb_spec offset (window_start (N.to_nat C) history)); [lia|].
  rewrite Hlen, N2Nat.id. rewrite u64_saturating_add_small by (unfold u64_fits, tk in *; lia).
  simpl. rewrite orb_false_r. do 3 f_equal. unfold tk.
  destruct (N.leb_spec (written history) (offset + N.min (written history - offset) max_len));
    symmetry; [apply bool_decide_true|apply bool_decide_false]; lia.
Qed.
End parity.

(** C36. The file-backed ring and the guest daemon's in-memory ring agree: a
    runner that creates a ring over any data file and makes any calls, each
    without a fault, leaves files from which every read returns exactly what
    the in-memory ring returns after the same calls, expired and future
    offsets included. *)
Theorem file_ring_parity (cap : N) (contents : list ascii) (ops : list ring_op)
    (offset max_len : N) :
  (0 < cap)%N -> (cap <= DETACHED_STREAM_LOG_BYTES)%N -> u64_fits (written (history_of ops)) ->
  exists r, ring_run (ExecRing.new (N.to_nat cap)) ops = Some r
    /\ (prog_run (read offset max_len) (sequential_run cap contents ops).2).1
       = file_result (ExecRing.read offset max_len r).
Proof.
  intros Hpos Hlim Hfit.
  destruct (fresh_run (R := ExecRing.OutputRing) (N.to_nat cap) ops)
    as (r0 & r & [= <-] & Hr & Hrepr); [lia|done|].
  exists r. split; [done|]. rewrite (ExecRing.exec_read_repr _ _ _ _ _ _ Hrepr Hfit).
  apply (sequential_read cap Hpos Hlim); [|done]. by apply sequential_run_ok.
Qed.

Lemma file_ring_parity_witness :
  let ops := [Append (list_ascii_of_string "abcdef"); Close] in
  exists r, ring_run (ExecRing.new 4) ops = Some r
    /\ (prog_run (read 3 8) (sequential_run 4 (list_ascii_of_string "old") ops).2).1
       = Ok (mkRingChunk (list_ascii_of_string "def") 2 6 6 2 true true).
Proof.
  destruct (file_ring_parity 4 (list_ascii_of_string "old")
    [Append (list_ascii_of_string "abcdef"); Close] 3 8) as (r & Hr & Heq); [done..|by vm_compute|].
  exists r. split; [done|]. rewrite Heq. vm_compute in Hr. injection Hr as <-. by vm_compute.
Defined.

End FileRing.
