(* ===== verification/Targets.v ===== *)
(** * Target addresses ([d2b-realm-core], [target.rs])

    The grammar of [<workload>.<realm>[.<ancestor>...].d2b]: the parser of
    fully-qualified targets, the parser with aliases and migration
    diagnostics, and the canonical form. *)

From S2P Require Import Prelude Ids Streams Frame.

Module Target.

Definition TARGET_SUFFIX : string := "d2b".

Record RealmTarget := mkRealmTarget {
  workload : string;
  realm : RealmPath
}.

#[global] Instance RealmTarget_eq_dec : EqDecision RealmTarget.
Proof. solve_decision. Defined.

Definition to_canonical (self : RealmTarget) : string :=
  workload self +:+ "." +:+ target_form (realm self) +:+ "." +:+ TARGET_SUFFIX.

Record LegacyNodeQualifiedTarget := mkLegacyNodeQualifiedTarget {
  legacy_workload : string;
  legacy_node : string;
  legacy_realm : RealmPath
}.

Definition suggested_realm_target (self : LegacyNodeQualifiedTarget) : RealmTarget :=
  mkRealmTarget (legacy_workload self) (legacy_realm self).

Definition diagnostic_form (self : LegacyNodeQualifiedTarget) : string :=
  legacy_workload self +:+ "." +:+ legacy_node self +:+ "."
  +:+ target_form (legacy_realm self) +:+ "." +:+ TARGET_SUFFIX.

Inductive RealmTargetParseError : Type :=
| Empty
| BareAliasRequiresContext
| MissingSuffix
| MissingWorkload
| MissingRealm
| SelectorNotAllowed
| ReservedLabel
| BadLabel (e : IdError)
| BadRealmPath
| AliasAmbiguous (alias : string) (candidates : list RealmTarget)
| LegacyNodeQualified (legacy : LegacyNodeQualifiedTarget) (suggested : RealmTarget).

Abbreviation parsed A := (result A RealmTargetParseError) (only parsing).

(** [?] on a [Result] *)
Definition and_then {A B E} (r : result A E) (k : A -> result B E) : result B E :=
  match r with Ok a => k a | Err e => Err e end.

Notation "'try?' x ':=' m 'in' k" := (and_then m (fun x => k))
  (at level 10, x pattern, m at level 100, k at level 200).

(** [map_err(BadLabel)] *)
Definition label (raw : string) : parsed string :=
  match parse_label raw with Ok s => Ok s | Err e => Err (BadLabel e) end.

(** [collect::<Result<Vec<_>, _>>] *)
Fixpoint collect {A E} (l : list (result A E)) : result (list A) E :=
  match l with
  | [] => Ok []
  | r :: l => try? a := r in try? rest := collect l in Ok (a :: rest)
  end.

(** [split('.')] *)
Fixpoint split_chars (l : list Ascii.ascii) : list (list Ascii.ascii) :=
  match l with
  | [] => [[]]
  | c :: l =>
      if char_eqb c "."%char then [] :: split_chars l
      else match split_chars l with
           | piece :: pieces => (c :: piece) :: pieces
           | [] => [[c]]
           end
  end.

Definition split_dots (s : string) : list string :=
  String.string_of_list_ascii <$> split_chars (chars s).

(** [strip_prefix] *)
Fixpoint strip_prefix (prefix s : string) : option string :=
  match prefix, s with
  | String.EmptyString, _ => Some s
  | String.String a prefix, String.String b s =>
      if char_eqb a b then strip_prefix prefix s else None
  | String.String _ _, String.EmptyString => None
  end.

Record TargetLabels := mkTargetLabels {
  labels : list string;
  had_suffix : bool;
  had_scheme : bool
}.

Definition target_labels (raw : string) : parsed TargetLabels :=
  let '(body, had_scheme) :=
    match strip_prefix "d2b://" raw with
    | Some rest => (rest, true)
    | None => (raw, false)
    end in
  if String.eqb body "" then Err Empty
  else
    let labels := split_dots body in
    if bool_decide (last labels = Some TARGET_SUFFIX) then
      let labels := removelast labels in
      if bool_decide (labels = []) then Err MissingWorkload
      else Ok (mkTargetLabels labels true had_scheme)
    else Ok (mkTargetLabels labels false had_scheme).

Fixpoint reject_reserved_labels (labels : list string) : parsed unit :=
  match labels with
  | [] => Ok tt
  | l :: labels =>
      if String.eqb l "all" || String.eqb l "*" then Err SelectorNotAllowed
      else if String.eqb l TARGET_SUFFIX then Err ReservedLabel
      else reject_reserved_labels labels
  end.

Definition parse_realm_labels (labels : list string) : parsed RealmPath :=
  try? realm_labels := collect (label <$> labels) in
  match RealmPath_new realm_labels with
  | Some p => Ok p
  | None => Err BadRealmPath
  end.

Definition parse_qualified_labels (labels : list string) : parsed RealmTarget :=
  try? _ := reject_reserved_labels labels in
  match labels with
  | [] => Err MissingWorkload
  | first :: rest =>
      try? workload := label first in
      if bool_decide (rest = []) then Err MissingRealm
      else try? realm := parse_realm_labels rest in Ok (mkRealmTarget workload realm)
  end.

Definition parse_legacy_labels (labels : list string) : parsed LegacyNodeQualifiedTarget :=
  try? _ := reject_reserved_labels labels in
  match labels with
  | [] => Err MissingWorkload
  | first :: second :: ((_ :: _) as rest) =>
      try? workload := label first in
      try? node := label second in
      try? realm := parse_realm_labels rest in
      Ok (mkLegacyNodeQualifiedTarget workload node realm)
  | _ => Err MissingRealm
  end.

(** [RealmTarget::parse] *)
Definition parse_realm_target (raw : string) : parsed RealmTarget :=
  try? l := target_labels raw in
  if negb (had_suffix l) then
    if had_scheme l then Err MissingSuffix
    else match labels l with
         | [_] => Err BareAliasRequiresContext
         | _ => Err MissingSuffix
         end
  else parse_qualified_labels (labels l).

(** [LegacyNodeQualifiedTarget::parse] *)
Definition parse_legacy_node_qualified (raw : string) : parsed LegacyNodeQualifiedTarget :=
  try? l := target_labels raw in
  if negb (had_suffix l) then Err MissingSuffix else parse_legacy_labels (labels l).

(** ** The parser with context *)

Record RealmTargetParser := mkRealmTargetParser {
  default_realm : option RealmPath;
  aliases : gmap string (list RealmTarget);
  legacy_node_labels : gset string
}.

Definition legacy_for_known_node (labels : list string) (legacy_node_labels : gset string) :
    parsed (option LegacyNodeQualifiedTarget) :=
  match labels with
  | _ :: second :: _ :: _ =>
      if bool_decide (legacy_node_labels = ∅) then Ok None
      else match parse_label second with
           | Err _ => Ok None
           | Ok node =>
               if bool_decide (node ∈ legacy_node_labels)
               then try? legacy := parse_legacy_labels labels in Ok (Some legacy)
               else Ok None
           end
  | _ => Ok None
  end.

Definition parse_qualified (self : RealmTargetParser) (labels : list string) : parsed RealmTarget :=
  try? known := legacy_for_known_node labels (legacy_node_labels self) in
  match known with
  | Some legacy => Err (LegacyNodeQualified legacy (suggested_realm_target legacy))
  | None => parse_qualified_labels labels
  end.

(** The candidates without repetition, in the order they first appear. *)
Definition distinct (candidates : list RealmTarget) : list RealmTarget :=
  fold_left (fun seen c => if bool_decide (c ∈ seen) then seen else seen ++ [c]) candidates [].

(** An empty candidate list ([unreachable!]) is [None]. *)
Definition parse_bare (self : RealmTargetParser) (labels : list string) :
    option (parsed RealmTarget) :=
  match labels with
  | [alias] =>
      match (try? _ := reject_reserved_labels labels in label alias) with
      | Err e => Some (Err e)
      | Ok workload =>
          match aliases self !! workload with
          | Some candidates =>
              match distinct candidates with
              | [target] => Some (Ok target)
              | [] => None
              | several => Some (Err (AliasAmbiguous workload several))
              end
          | None =>
              Some (match default_realm self with
                    | Some realm => Ok (mkRealmTarget workload realm)
                    | None => Err BareAliasRequiresContext
                    end)
          end
      end
  | _ => Some (Err MissingSuffix)
  end.

(** [RealmTargetParser::parse] *)
Definition parse (self : RealmTargetParser) (raw : string) : option (parsed RealmTarget) :=
  match target_labels raw with
  | Err e => Some (Err e)
  | Ok l =>
      if had_suffix l then Some (parse_qualified self (labels l))
      else if had_scheme l then Some (Err MissingSuffix)
      else parse_bare self (labels l)
  end.

(** [with_alias] *)
Definition with_alias (self : RealmTargetParser) (alias : string) (target : RealmTarget) :
    RealmTargetParser :=
  mkRealmTargetParser (default_realm self)
    (<[alias := default [] (aliases self !! alias) ++ [target]]> (aliases self))
    (legacy_node_labels self).

Definition with_default_realm (self : RealmTargetParser) (r : RealmPath) : RealmTargetParser :=
  mkRealmTargetParser (Some r) (aliases self) (legacy_node_labels self).

Definition with_legacy_node_label (self : RealmTargetParser) (node : string) : RealmTargetParser :=
  mkRealmTargetParser (default_realm self) (aliases self) ({[node]} ∪ legacy_node_labels self).

Definition new : RealmTargetParser := mkRealmTargetParser None ∅ ∅.

(** ** Splitting and joining *)

Lemma split_chars_ne l : split_chars l <> [].
Proof. destruct l as [|c l]; simpl; [done|]. case_match; [done|]. by case_match. Qed.

Lemma split_dots_ne s : split_dots s <> [].
Proof. unfold split_dots. intros H%fmap_nil_inv. by apply split_chars_ne in H. Qed.

Lemma split_dots_free s : Forall dot_free (split_dots s).
Proof.
  unfold split_dots, dot_free. generalize (chars s). intros l. rewrite Forall_fmap.
  enough (Forall (fun piece => "."%char ∉ piece) (split_chars l)) as H.
  { eapply Forall_impl; [exact H|]. intros piece Hp. simpl. unfold chars.
    by rewrite String.list_ascii_of_string_of_list_ascii. }
  induction l as [|c l IH]; simpl; [apply Forall_singleton; set_solver|].
  destruct (char_eqb c "."%char) eqn:E; [apply Forall_cons; split; [set_solver|done]|].
  pose proof (split_chars_ne l) as Hne.
  destruct (split_chars l) as [|piece pieces]; [done|].
  apply Forall_cons in IH as [Hp Hps]. constructor; [|done].
  intros [<-|?]%elem_of_cons; done.
Qed.

Lemma target_form_split s : target_form (split_dots s) = s.
Proof.
  apply chars_inj. unfold split_dots. generalize (chars s). intros l.
  induction l as [|c l IH]; [done|]. cbn [split_chars].
  pose proof (split_chars_ne l) as Hne. destruct (split_chars l) as [|piece pieces] eqn:Es; [done|].
  destruct (char_eqb c "."%char) eqn:E.
  - rewrite fmap_cons, target_form_cons by done. rewrite IH.
    apply Ascii.eqb_eq in E as ->. done.
  - rewrite fmap_cons in *. destruct pieces as [|q pieces].
    + unfold target_form in *. simpl in *. unfold chars in *. simpl in *. by rewrite IH.
    + rewrite target_form_cons in * by done. unfold chars in *. simpl in *.
      by rewrite <- IH.
Qed.

Lemma split_target_form p : p <> [] -> Forall dot_free p -> split_dots (target_form p) = p.
Proof.
  intros Hp Hf. apply target_form_inj; [apply split_dots_ne|done|apply split_dots_free|done|].
  apply target_form_split.
Qed.

Lemma strip_prefix_some prefix s rest : strip_prefix prefix s = Some rest <-> s = prefix +:+ rest.
Proof.
  revert s. induction prefix as [|a prefix IH]; intros s; simpl; [naive_solver|].
  destruct s as [|b s]; [done|]. unfold char_eqb. destruct (Ascii.eqb_spec a b) as [->|Hne].
  - rewrite IH. split; [by intros ->|by intros [= ->]].
  - split; [done|]. intros [= -> _]. done.
Qed.

(** ** Targets *)

Definition reserved (l : string) : Prop := l = "all" \/ l = "*" \/ l = TARGET_SUFFIX.

(** What the parser makes sure of. *)
Record target_ok (t : RealmTarget) : Prop := {
  ok_workload : valid_label (workload t);
  ok_realm : Forall valid_label (realm t);
  ok_path : RealmPath_new (realm t) = Some (realm t);
  ok_labels : Forall (fun l => ~ reserved l) (workload t :: realm t)
}.

Lemma reject_reserved_ok ls :
  reject_reserved_labels ls = Ok tt <-> Forall (fun l => ~ reserved l) ls.
Proof.
  unfold reserved. induction ls as [|l ls IH]; simpl; [done|].
  destruct (String.eqb_spec l "all") as [->|]; simpl.
  { split; [done|]. intros [H _]%Forall_cons. naive_solver. }
  destruct (String.eqb_spec l "*") as [->|]; simpl.
  { split; [done|]. intros [H _]%Forall_cons. naive_solver. }
  destruct (String.eqb_spec l TARGET_SUFFIX) as [->|]; simpl.
  { split; [done|]. intros [H _]%Forall_cons. naive_solver. }
  rewrite IH, Forall_cons. naive_solver.
Qed.

Lemma label_ok raw s : label raw = Ok s <-> s = raw /\ valid_label raw.
Proof.
  unfold label, valid_label. destruct (parse_label raw) as [t|e] eqn:E; [|naive_solver].
  apply parse_id_ok in E as (-> & _). naive_solver.
Qed.

Lemma collect_labels ls rs : collect (label <$> ls) = Ok rs <-> rs = ls /\ Forall valid_label ls.
Proof.
  revert rs. induction ls as [|l ls IH]; intros rs; simpl.
  - rewrite Forall_nil. naive_solver.
  - unfold and_then. destruct (label l) as [s|e] eqn:El.
    + apply label_ok in El as [-> Hl]. rewrite Forall_cons.
      change (list_fmap _ _ label ls) with (label <$> ls).
      destruct (collect (label <$> ls)) as [rest|e] eqn:Ec.
      * destruct (IH rest) as [H1 _]. specialize (H1 eq_refl) as [-> Hls]. naive_solver.
      * split; [done|]. intros [_ [_ Hls]]. destruct (IH ls) as [_ H2].
        by specialize (H2 (conj eq_refl Hls)).
    + split; [done|]. intros [_ [Hl _]%Forall_cons]. assert (label l = Ok l) by by apply label_ok.
      congruence.
Qed.

Lemma parse_realm_labels_ok ls p :
  parse_realm_labels ls = Ok p <-> p = ls /\ Forall valid_label ls /\ RealmPath_new ls = Some ls.
Proof.
  unfold parse_realm_labels, and_then. destruct (collect (label <$> ls)) as [rs|e] eqn:E.
  - apply collect_labels in E as [-> Hv]. destruct (RealmPath_new ls) as [q|] eqn:Ep; [|naive_solver].
    apply RealmPath_new_some in Ep as H. destruct H as [-> _]. naive_solver.
  - split; [done|]. intros (_ & Hv & _). assert (collect (label <$> ls) = Ok ls) by by apply collect_labels.
    congruence.
Qed.

Lemma parse_qualified_labels_ok ls t :
  parse_qualified_labels ls = Ok t <-> ls = workload t :: realm t /\ target_ok t.
Proof.
  unfold parse_qualified_labels, and_then. split.
  - destruct (reject_reserved_labels ls) as [[]|] eqn:Er; [|done]. apply reject_reserved_ok in Er.
    destruct ls as [|w rs]; [done|]. destruct (label w) as [w'|] eqn:Ew; [|done].
    apply label_ok in Ew as [-> Hw]. case_bool_decide as Hne; [done|].
    destruct (parse_realm_labels rs) as [p|] eqn:Ep; [|done].
    apply parse_realm_labels_ok in Ep as (-> & Hv & Hp). intros [= <-]. done.
  - intros [-> [Hw Hv Hp Hl]]. apply reject_reserved_ok in Hl. rewrite Hl.
    assert (label (workload t) = Ok (workload t)) as -> by by apply label_ok.
    rewrite bool_decide_false by (intros E; by rewrite E in Hp).
    assert (parse_realm_labels (realm t) = Ok (realm t)) as -> by by apply parse_realm_labels_ok.
    by destruct t.
Qed.

Lemma valid_label_free l : valid_label l -> dot_free l.
Proof. intros (_ & _ & _ & Hl)%parse_id_ok. by apply is_label_dot_free. Qed.

(** The canonical form is the labels of the target and the suffix. *)
Lemma to_canonical_form t :
  realm t <> [] -> to_canonical t = target_form (workload t :: realm t ++ [TARGET_SUFFIX]).
Proof.
  intros Hne. apply chars_inj. rewrite target_form_cons by by destruct (realm t).
  unfold to_canonical. rewrite !chars_app. simpl. f_equal. f_equal.
  generalize (realm t) Hne. intros p. induction p as [|l p IH]; [done|]. intros _.
  destruct p as [|k p].
  { change ([l] ++ [TARGET_SUFFIX]) with [l; TARGET_SUFFIX]. by rewrite (target_form_cons l [TARGET_SUFFIX]). }
  rewrite <- app_comm_cons, target_form_cons by done.
  rewrite (target_form_cons l) by done. rewrite <- app_assoc. simpl. f_equal. f_equal. by apply IH.
Qed.

Definition no_slash (s : string) : Prop := "/"%char ∉ chars s.

Lemma valid_label_no_slash l : valid_label l -> no_slash l.
Proof.
  intros (_ & _ & _ & Hl)%parse_id_ok. unfold is_label, no_slash in *.
  destruct (chars l) as [|c cs]; [done|]. rewrite andb_true_iff, forallb_elem in Hl.
  destruct Hl as [Hc Hcs]. intros [<-|Hin]%elem_of_cons; [done|]. by apply Hcs in Hin.
Qed.

Lemma target_form_no_slash p : Forall no_slash p -> no_slash (target_form p).
Proof.
  unfold no_slash. induction 1 as [|l p Hl Hp IH]; [by apply not_elem_of_nil|].
  destruct (decide (p = [])) as [->|Hne]; [done|]. rewrite target_form_cons by done. set_solver.
Qed.

Lemma target_ok_labels t : target_ok t -> Forall valid_label (workload t :: realm t).
Proof. intros []. by constructor. Qed.

Lemma target_ok_realm_ne t : target_ok t -> realm t <> [].
Proof. intros [_ _ Hp _] E. by rewrite E in Hp. Qed.

(** What the text before the labels are read comes to. *)
Lemma target_labels_canonical t (scheme : bool) raw :
  target_ok t -> raw = (if scheme then "d2b://" +:+ to_canonical t else to_canonical t) ->
  target_labels raw = Ok (mkTargetLabels (workload t :: realm t) true scheme).
Proof.
  intros Hok Hraw. pose proof (target_ok_realm_ne t Hok) as Hne.
  pose proof (target_ok_labels t Hok) as Hls.
  assert (Forall dot_free (workload t :: realm t ++ [TARGET_SUFFIX])) as Hfree.
  { rewrite app_comm_cons. apply Forall_app. split; [|by apply Forall_singleton; vm_compute; set_solver].
    eapply Forall_impl; [exact Hls|]. apply valid_label_free. }
  assert (no_slash (to_canonical t)) as Hns.
  { rewrite to_canonical_form by done. apply target_form_no_slash. rewrite app_comm_cons.
    apply Forall_app. split; [|by apply Forall_singleton; vm_compute; set_solver].
    eapply Forall_impl; [exact Hls|]. apply valid_label_no_slash. }
  unfold target_labels.
  assert (strip_prefix "d2b://" raw = if scheme then Some (to_canonical t) else None) as ->.
  { destruct scheme; subst raw; [by apply strip_prefix_some|].
    destruct (strip_prefix "d2b://" (to_canonical t)) as [rest|] eqn:E; [|done].
    apply strip_prefix_some in E. unfold no_slash in Hns. rewrite E, chars_app in Hns. simpl in Hns. set_solver. }
  assert ((match (if scheme then Some (to_canonical t) else None) with
           | Some rest => (rest, true) | None => (raw, false) end) = (to_canonical t, scheme)) as ->.
  { by destruct scheme; subst raw. }
  assert (split_dots (to_canonical t) = (workload t :: realm t) ++ [TARGET_SUFFIX]) as Hsplit.
  { rewrite to_canonical_form by done. rewrite <- app_comm_cons. by apply split_target_form. }
  destruct (String.eqb_spec (to_canonical t) "") as [E|_].
  { rewrite E in Hsplit. by destruct (realm t). }
  rewrite Hsplit, last_snoc, bool_decide_true, removelast_last by done. done.
Qed.

Lemma target_labels_text raw l :
  target_labels raw = Ok l -> had_suffix l = true ->
  raw = (if had_scheme l then "d2b://" else "") +:+ target_form (labels l ++ [TARGET_SUFFIX]).
Proof.
  unfold target_labels. destruct (strip_prefix "d2b://" raw) as [rest|] eqn:E;
    [apply strip_prefix_some in E|]; case_match; try done; case_bool_decide as Hl;
    try (by intros [= <-]); case_bool_decide; try done; intros [= <-] _; simpl;
    apply last_Some in Hl as [ls Hs]; rewrite Hs, removelast_last, <- Hs, target_form_split; done.
Qed.

Lemma string_length_app s1 s2 :
  String.length (s1 +:+ s2) = String.length s1 + String.length s2.
Proof. induction s1 as [|c s1 IH]; simpl; [done|]. by rewrite <- IH. Qed.

(** C38. A text parses to a target exactly when the target is well-formed
    (valid labels, none reserved, a realm path within its bounds) and the text
    is its canonical form, with or without the old scheme.  So printing and
    parsing are inverse, no two targets share a text, and the canonical form
    of a parsed target fits the 388 characters the schema publishes. *)
Theorem target_parse_exact raw t :
  (parse_realm_target raw = Ok t <->
   target_ok t /\ (raw = to_canonical t \/ raw = "d2b://" +:+ to_canonical t))
  /\ (target_ok t -> String.length (to_canonical t) <= 388).
Proof.
  unfold parse_realm_target, and_then. split; [split|].
  - destruct (target_labels raw) as [l|] eqn:E; [|done]. destruct (had_suffix l) eqn:Hs; simpl;
      [|repeat case_match; done].
    intros [Hl Hok]%parse_qualified_labels_ok. split; [done|].
    apply target_labels_text in E; [|done].
    rewrite to_canonical_form by by apply target_ok_realm_ne. rewrite Hl in E.
    destruct (had_scheme l); [by right|by left].
  - intros [Hok Hraw].
    assert (exists scheme, target_labels raw = Ok (mkTargetLabels (workload t :: realm t) true scheme))
      as [scheme ->].
    { destruct Hraw as [Hraw|Hraw]; [exists false|exists true]; by apply target_labels_canonical. }
    by apply parse_qualified_labels_ok.
  - intros Hok. destruct Hok as [Hw _ Hp _]. apply parse_id_ok in Hw as (_ & _ & Hw & _).
    apply RealmPath_new_some in Hp as (_ & Hne & _ & Hb). unfold to_canonical.
    rewrite !string_length_app, length_target_form. simpl.
    unfold MAX_ID_LEN, MAX_REALM_PATH_BYTES in *. lia.
Qed.

(** ** The parser with context *)

Lemma distinct_elem t candidates : t ∈ distinct candidates <-> t ∈ candidates.
Proof.
  unfold distinct.
  enough (forall seen, t ∈ fold_left (fun seen c => if bool_decide (c ∈ seen) then seen else seen ++ [c])
                             candidates seen <-> t ∈ seen \/ t ∈ candidates) as H by (rewrite H; set_solver).
  induction candidates as [|c l IH]; intros seen; simpl; [set_solver|].
  rewrite IH. case_bool_decide; set_solver.
Qed.

(** A bare name stands for a target only through the aliases, when all its
    candidates are that one target, or through the default realm. *)
Definition alias_of (self : RealmTargetParser) (alias : string) (t : RealmTarget) : Prop :=
  match aliases self !! alias with
  | Some candidates => t ∈ candidates /\ forall c, c ∈ candidates -> c = t
  | None => exists r, default_realm self = Some r /\ t = mkRealmTarget alias r
  end.

(** What the parser with context accepts, it accepts as the plain parser does
    or as a bare alias; it adds no reading of a qualified target. *)
Lemma parse_sound self raw t :
  parse self raw = Some (Ok t) ->
  parse_realm_target raw = Ok t \/ (valid_label raw /\ alias_of self raw t).
Proof.
  unfold parse, parse_realm_target, and_then.
  destruct (target_labels raw) as [l|] eqn:E; [|done]. destruct (had_suffix l) eqn:Hs; simpl.
  { unfold parse_qualified, and_then. intros [= H]. left. by repeat case_match; simplify_eq. }
  destruct (had_scheme l) eqn:Hsch; [done|]. intros Hb. right.
  assert (exists alias, labels l = [alias] /\ valid_label alias /\ alias_of self alias t)
    as (alias & Hl & Hv & Ha).
  { unfold parse_bare in Hb. destruct (labels l) as [|alias [|]]; try done. exists alias.
    unfold and_then in Hb. destruct (reject_reserved_labels [alias]); [|done].
    destruct (label alias) as [w|] eqn:Ew; [|done]. apply label_ok in Ew as [-> Hv].
    split_and!; [done..|]. unfold alias_of. destruct (aliases self !! alias) as [cs|].
    - pose proof (fun c => distinct_elem c cs) as Hd. destruct (distinct cs) as [|c [|]]; simplify_eq.
      split; [apply Hd; set_solver|]. intros c' Hc'. apply Hd in Hc'. set_solver.
    - destruct (default_realm self); naive_solver. }
  enough (raw = alias) as -> by done.
  unfold target_labels in E. destruct (strip_prefix "d2b://" raw); repeat case_match; simplify_eq/=.
  by rewrite <- (target_form_split raw), Hl.
Qed.

(** The parsers a caller can build. *)
Inductive built : RealmTargetParser -> Prop :=
| built_new : built new
| built_default self r : built self -> built (with_default_realm self r)
| built_alias self a t : built self -> built (with_alias self a t)
| built_legacy self n : built self -> built (with_legacy_node_label self n).

(** The [unreachable!] of [parse_bare] is. *)
Lemma parse_total self raw : built self -> parse self raw <> None.
Proof.
  intros Hb.
  assert (forall a cs, aliases self !! a = Some cs -> cs <> []) as Hne.
  { induction Hb as [|self r Hb IH|self b t Hb IH|self n Hb IH]; simpl; [done|done| |done].
    intros a cs. rewrite lookup_insert_Some. intros [[_ <-]|[_ H]]; [by destruct (default [] _)|by eapply IH]. }
  unfold parse, parse_bare. repeat case_match; try done. exfalso.
  match goal with H : aliases self !! _ = Some ?l |- _ => apply Hne in H; destruct l as [|c cs]; [done|] end.
  assert (c ∈ distinct (c :: cs)) as Hin by (apply distinct_elem; set_solver).
  match goal with H : distinct (c :: cs) = [] |- _ => rewrite H in Hin end. set_solver.
Qed.

End Target.
