(* ===== verification/Gateway.v ===== *)
(** * The display gateway ([d2b-gateway]): credential and ledger

    [Module Handshake] is the one-shot session credential ([handshake.rs]) with
    HMAC-SHA256 as a parameter, [Module Ledger] the session table with its
    quotas and state machine ([ledger.rs]).  [Orchestrator.v] drives both. *)

From S2P Require Import Prelude Ids Streams Frame.

Module Handshake.

(** ** The session credential *)

Record SessionBinding := mkSessionBinding {
  realm : string;
  generation : N;
  session_id : string;
  epoch : N;
  operation_id : string;
  principal : string;
  workload : string;
  not_after : N
}.

#[global] Instance SessionBinding_eq_dec : EqDecision SessionBinding.
Proof. solve_decision. Defined.

(** [SessionBinding::new] *)
Definition SessionBinding_new (realm : RealmPath) (generation : N) (session_id : string)
    (epoch : N) (operation_id principal workload : string) (not_after : N) : SessionBinding :=
  mkSessionBinding (target_form realm) generation session_id epoch operation_id principal
    workload not_after.

(** [format!("{}:{}", session_id, epoch)] *)
Definition replay_key (self : SessionBinding) : string :=
  session_id self +:+ ":" +:+ pretty (epoch self).

(** [to_be_bytes] *)
Definition be_bytes (width : nat) (n : N) : list ascii := reverse (le_bytes width n).

(** The [put] of [canonical]: a big-endian [u32] length and the field. *)
Definition put (field : list ascii) : list ascii :=
  be_bytes 4 (N.of_nat (length field) mod 2 ^ 32) ++ field.

Definition canonical (self : SessionBinding) : list ascii :=
  put (chars "d2b-display-session-v1")
  ++ put (chars (realm self))
  ++ put (be_bytes 8 (generation self))
  ++ put (chars (session_id self))
  ++ put (be_bytes 8 (epoch self))
  ++ put (chars (operation_id self))
  ++ put (chars (principal self))
  ++ put (chars (workload self))
  ++ put (be_bytes 8 (not_after self)).

Record Handshake := mkHandshake {
  binding : SessionBinding;
  mac : list ascii
}.

Inductive HandshakeError : Set :=
| HandshakeError_BadMac
| HandshakeError_StaleGeneration
| HandshakeError_Expired
| HandshakeError_BindingMismatch
| HandshakeError_Replay
| HandshakeError_Malformed.

#[global] Instance HandshakeError_eq_dec : EqDecision HandshakeError.
Proof. solve_decision. Defined.

(** [SetReplayGuard]: the keys claimed so far. *)
Definition SetReplayGuard : Type := gset string.

Definition claim (key : string) (self : SetReplayGuard) : bool * SetReplayGuard :=
  (negb (bool_decide (key ∈ self)), {[key]} ∪ self).

Section hmac.
(** HMAC-SHA256 of a message under a secret. *)
Variable hmac : list ascii -> list ascii -> list ascii.

(** [Handshake::sign] *)
Definition sign (binding : SessionBinding) (secret : list ascii) : Handshake :=
  mkHandshake binding (hmac secret (canonical binding)).

Open Scope rust_scope.

Definition verify (handshake : Handshake) (secret : list ascii) (expected : SessionBinding)
    (current_generation now : N) : handler SetReplayGuard HandshakeError unit :=
  let b := binding handshake in
  h_reject (negb (bool_decide (hmac secret (canonical b) = mac handshake))) HandshakeError_BadMac ?;
  h_reject (negb (generation b =? current_generation)%N) HandshakeError_StaleGeneration ?;
  h_reject (not_after b <=? now)%N HandshakeError_Expired ?;
  h_reject (negb (bool_decide (realm b = realm expected))
            || negb (bool_decide (session_id b = session_id expected))
            || negb (epoch b =? epoch expected)%N
            || negb (bool_decide (operation_id b = operation_id expected))
            || negb (bool_decide (principal b = principal expected))
            || negb (bool_decide (workload b = workload expected))
            || negb (not_after b =? not_after expected)%N
            || negb (generation b =? generation expected)%N) HandshakeError_BindingMismatch ?;
  fun replay =>
    let '(first, replay) := claim (replay_key b) replay in
    if first then (Ok tt, replay) else (Err HandshakeError_Replay, replay).

(** [verify_handshake_frame], over the JSON decoder. *)
Definition verify_handshake_frame (from_slice : list ascii -> option Handshake)
    (frame : list ascii) (secret : list ascii) (expected : SessionBinding)
    (current_generation now : N) : handler SetReplayGuard HandshakeError unit :=
  match from_slice frame with
  | None => h_throw HandshakeError_Malformed
  | Some hs => verify hs secret expected current_generation now
  end.

Close Scope rust_scope.
End hmac.

(** ** The encoding the MAC covers *)

Lemma be_bytes_length w n : length (be_bytes w n) = w.
Proof. unfold be_bytes. by rewrite length_reverse, le_bytes_length. Qed.

Lemma be_bytes_inj w n m :
  (n < 256 ^ N.of_nat w)%N -> (m < 256 ^ N.of_nat w)%N -> be_bytes w n = be_bytes w m -> n = m.
Proof. unfold be_bytes. intros Hn Hm E. apply (inj reverse) in E. by eapply le_bytes_inj. Qed.

(** A field delimits itself. *)
Lemma put_inj f1 f2 r1 r2 :
  (N.of_nat (length f1) < 2 ^ 32)%N -> (N.of_nat (length f2) < 2 ^ 32)%N ->
  put f1 ++ r1 = put f2 ++ r2 -> f1 = f2 /\ r1 = r2.
Proof.
  intros H1 H2 E. unfold put in E. rewrite !N.mod_small in E by done.
  rewrite <- !app_assoc in E. apply app_inj_1 in E as [Hl E]; [|by rewrite !be_bytes_length].
  apply be_bytes_inj in Hl; [|done..]. apply app_inj_1 in E; [done|lia].
Qed.

(** Fields of a size the encoding can carry. *)
Definition binding_fits (b : SessionBinding) : Prop :=
  (N.of_nat (String.length (realm b)) < 2 ^ 32)%N
  /\ (N.of_nat (String.length (session_id b)) < 2 ^ 32)%N
  /\ (N.of_nat (String.length (operation_id b)) < 2 ^ 32)%N
  /\ (N.of_nat (String.length (principal b)) < 2 ^ 32)%N
  /\ (N.of_nat (String.length (workload b)) < 2 ^ 32)%N
  /\ u64_fits (generation b) /\ u64_fits (epoch b) /\ u64_fits (not_after b).

Lemma u64_put_inj n m r1 r2 :
  u64_fits n -> u64_fits m -> put (be_bytes 8 n) ++ r1 = put (be_bytes 8 m) ++ r2 -> n = m /\ r1 = r2.
Proof.
  unfold u64_fits, u64_max. intros Hn Hm E.
  apply put_inj in E as [E ->]; [|by rewrite be_bytes_length..].
  apply be_bytes_inj in E; [done|change (256 ^ N.of_nat 8)%N with (2 ^ 64)%N; lia..].
Qed.

Lemma str_put_inj s t r1 r2 :
  (N.of_nat (String.length s) < 2 ^ 32)%N -> (N.of_nat (String.length t) < 2 ^ 32)%N ->
  put (chars s) ++ r1 = put (chars t) ++ r2 -> s = t /\ r1 = r2.
Proof.
  intros Hs Ht E. apply put_inj in E as [E ->]; [|by rewrite length_chars..].
  by apply chars_inj in E.
Qed.

Lemma canonical_inj b1 b2 :
  binding_fits b1 -> binding_fits b2 -> canonical b1 = canonical b2 -> b1 = b2.
Proof.
  destruct b1, b2. intros (?&?&?&?&?&?&?&?) (?&?&?&?&?&?&?&?) E. unfold canonical in E.
  rewrite <- (app_nil_r (put (be_bytes 8 (not_after _)))) in E.
  rewrite <- (app_nil_r (put (be_bytes 8 (not_after (mkSessionBinding realm1 _ _ _ _ _ _ _))))) in E.
  cbn [realm generation session_id epoch operation_id principal workload not_after] in *.
  apply app_inv_head in E.
  apply str_put_inj in E as [-> E]; [|done..]. apply u64_put_inj in E as [-> E]; [|done..].
  apply str_put_inj in E as [-> E]; [|done..]. apply u64_put_inj in E as [-> E]; [|done..].
  apply str_put_inj in E as [-> E]; [|done..]. apply str_put_inj in E as [-> E]; [|done..].
  apply str_put_inj in E as [-> E]; [|done..]. apply u64_put_inj in E as [-> _]; done.
Qed.

Lemma cut_at_colon d1 d2 l1 l2 :
  ":"%char ∉ d1 -> ":"%char ∉ d2 -> l1 ++ ":"%char :: d1 = l2 ++ ":"%char :: d2 ->
  l1 = l2 /\ d1 = d2.
Proof.
  intros H1 H2. revert l2. induction l1 as [|x l1 IH]; intros [|y l2] E; simplify_eq/=.
  - done.
  - destruct H1. set_solver.
  - destruct H2. set_solver.
  - destruct (IH l2) as [-> ->]; done.
Qed.

(** A replay key determines the session and the epoch. *)
Lemma replay_key_inj b1 b2 :
  u64_fits (epoch b1) -> u64_fits (epoch b2) -> replay_key b1 = replay_key b2 ->
  session_id b1 = session_id b2 /\ epoch b1 = epoch b2.
Proof.
  intros H1 H2 E. apply (f_equal chars) in E. unfold replay_key in E.
  rewrite !chars_app in E. change (chars ":") with [":"%char] in E.
  assert (forall n, u64_fits n -> ":"%char ∉ chars (pretty n)) as Hd.
  { intros n Hn Hin. destruct (pretty_u64 n Hn) as [Hf _]. rewrite forallb_elem in Hf.
    by apply Hf in Hin. }
  simpl in E. apply cut_at_colon in E as [E1 E2]; [|by apply Hd..].
  apply chars_inj in E1, E2. by apply (inj pretty) in E2.
Qed.

(** ** What a run of handshakes admits *)

Record attempt := mkAttempt {
  at_handshake : Handshake;
  at_secret : list ascii;
  at_expected : SessionBinding;
  at_generation : N;
  at_now : N
}.

Section admission.
Variable hmac : list ascii -> list ascii -> list ascii.

Definition attempt_verify (a : attempt) : handler SetReplayGuard HandshakeError unit :=
  verify hmac (at_handshake a) (at_secret a) (at_expected a) (at_generation a) (at_now a).

(** The attempts admitted, one after the other, by one guard. *)
Fixpoint admitted (attempts : list attempt) (guard : SetReplayGuard) :
    list attempt * SetReplayGuard :=
  match attempts with
  | [] => ([], guard)
  | a :: attempts =>
      let '(r, guard) := attempt_verify a guard in
      let '(rest, guard) := admitted attempts guard in
      (if is_ok r then a :: rest else rest, guard)
  end.

(** The credential itself is good: signed under the session's secret for
    exactly the authorized binding, of this gateway life, not expired. *)
Definition genuine (a : attempt) : Prop :=
  mac (at_handshake a) = hmac (at_secret a) (canonical (binding (at_handshake a)))
  /\ binding (at_handshake a) = at_expected a
  /\ generation (at_expected a) = at_generation a
  /\ (at_now a < not_after (at_expected a))%N.

Lemma verify_cases a guard :
  let key := replay_key (binding (at_handshake a)) in
  (genuine a /\ (key ∉ guard) /\ attempt_verify a guard = (Ok tt, ({[key]} ∪ guard : SetReplayGuard)))
  \/ (~ (genuine a /\ key ∉ guard) /\ exists e, attempt_verify a guard = (Err e, guard)).
Proof.
  destruct a as [[b m] secret expected gen now]. unfold genuine, attempt_verify, verify.
  cbn [at_handshake at_secret at_expected at_generation at_now binding mac]. cbv zeta.
  unfold_handler.
  case_bool_decide as Hm; simpl; [|right; split; [intros [[? _] _]; congruence|eauto]].
  destruct (N.eqb_spec (generation b) gen) as [Hg|Hg]; simpl;
    [|right; split; [intros [(_ & -> & ? & _) _]; congruence|eauto]].
  destruct (N.leb_spec (not_after b) now) as [Hn|Hn]; simpl;
    [right; split; [intros [(_ & -> & _ & ?) _]; lia|eauto]|].
  match goal with |- context [if ?c then _ else _] => destruct c eqn:Hf end; simpl.
  { right. split; [|eauto]. intros [(_ & -> & _) _].
    repeat rewrite bool_decide_true in Hf by done. by rewrite !N.eqb_refl in Hf. }
  rewrite !orb_false_iff, !negb_false_iff, !bool_decide_eq_true, !N.eqb_eq in Hf.
  assert (b = expected) as -> by (destruct b, expected; simpl in *; naive_solver).
  case_bool_decide as Hk; simpl.
  - right. split; [intros [_ ?]; done|]. exists HandshakeError_Replay. f_equal. set_solver.
  - left. split_and!; done || congruence.
Qed.

Lemma admitted_guard attempts guard key :
  key ∈ (admitted attempts guard).2 <->
  key ∈ guard \/ exists a, a ∈ (admitted attempts guard).1
                        /\ key = replay_key (binding (at_handshake a)).
Proof.
  revert guard. induction attempts as [|a attempts IH]; intros guard; simpl.
  - split; [by left|]. intros [?|(a & Ha & _)]; [done|]. by apply elem_of_nil in Ha.
  - destruct (verify_cases a guard) as [(_ & _ & E)|(_ & e & E)]; rewrite E; simpl;
      [specialize (IH ({[replay_key (binding (at_handshake a))]} ∪ guard))|specialize (IH guard)];
      destruct (admitted attempts _) as [rest g]; simpl in *; rewrite IH; [|done].
    setoid_rewrite elem_of_cons. set_solver.
Qed.
End admission.

(** C29. A session credential admits one stream: after any handshakes checked
    against one guard, the next is admitted exactly when it is genuine (its
    MAC is the one of its binding under the session's secret, the binding is
    the authorized one, of the current gateway generation and unexpired) and
    no earlier admission was for the same session and epoch; whatever is
    refused leaves the guard as it was. *)
Theorem credential_one_shot (hmac : list ascii -> list ascii -> list ascii)
    (attempts : list attempt) (a : attempt) :
  (forall b, b ∈ a :: attempts -> u64_fits (epoch (binding (at_handshake b)))) ->
  let '(earlier, guard) := admitted hmac attempts ∅ in
  let '(answer, guard') := attempt_verify hmac a guard in
  (answer = Ok tt <->
     genuine hmac a
     /\ forall b, b ∈ earlier ->
          (session_id (binding (at_handshake b)), epoch (binding (at_handshake b)))
          <> (session_id (binding (at_handshake a)), epoch (binding (at_handshake a))))
  /\ (answer <> Ok tt -> guard' = guard).
Proof.
  intros Hfit. pose proof (admitted_guard hmac attempts ∅) as Hg.
  assert (forall b, b ∈ (admitted hmac attempts ∅).1 -> b ∈ attempts) as Hsub.
  { generalize (∅ : SetReplayGuard). clear. induction attempts as [|x attempts IH]; intros g b; simpl.
    - done.
    - destruct (attempt_verify hmac x g) as [r g']. specialize (IH g' b).
      destruct (admitted hmac attempts g') as [rest g'']. simpl in *. destruct (is_ok r); set_solver. }
  destruct (admitted hmac attempts ∅) as [earlier guard]. simpl in *.
  destruct (verify_cases hmac a guard) as [(Hgen & Hk & ->)|(Hno & e & ->)].
  - split; [|done]. split; [intros _|done]. split; [done|]. intros b Hb E. apply Hk, Hg. right.
    exists b. split; [done|]. injection E as E1 E2. unfold replay_key. by rewrite E1, E2.
  - split; [|done]. split; [done|]. intros [Hgen Hall]. destruct Hno. split; [done|].
    intros [?|(b & Hb & Hkey)]%Hg; [set_solver|]. apply (Hall b Hb).
    symmetry in Hkey. apply replay_key_inj in Hkey as [-> ->]; [done|apply Hfit; set_solver..].
Qed.

Definition demo_binding : SessionBinding :=
  SessionBinding_new ["work"] 5 "sess-1" 0 "op-1" "alice" "demo" 1000.

(** A stand-in for HMAC: the secret, then the message. *)
Definition demo_hmac (secret message : list ascii) : list ascii := secret ++ message.

Definition demo_attempt : attempt :=
  mkAttempt (sign demo_hmac demo_binding (chars "s")) (chars "s") demo_binding 5 900.

Lemma credential_one_shot_witness :
  attempt_verify demo_hmac demo_attempt ∅ = (Ok tt, {["sess-1:0"]})
  /\ (let '(earlier, guard) := admitted demo_hmac [demo_attempt] ∅ in
      let '(answer, guard') := attempt_verify demo_hmac demo_attempt guard in
      (answer = Ok tt <->
         genuine demo_hmac demo_attempt
         /\ forall b, b ∈ earlier ->
              (session_id (binding (at_handshake b)), epoch (binding (at_handshake b)))
              <> ("sess-1", 0%N))
      /\ (answer <> Ok tt -> guard' = guard)).
Proof.
  split; [by vm_compute|].
  apply (credential_one_shot demo_hmac [demo_attempt] demo_attempt).
  intros b Hb. assert (b = demo_attempt) as -> by set_solver. by vm_compute.
Defined.

End Handshake.

(** ** [GatewayError] *)

Inductive GatewayError : Set :=
| GatewayError_NoRealmEntrypoint
| GatewayError_GatewayUnavailable
| GatewayError_Busy
| GatewayError_Conflict
| GatewayError_Internal
| GatewayError_QuotaExceeded
| GatewayError_ProviderAllocationFailed
| GatewayError_RelayUnavailable
| GatewayError_DisplayAuthFailed (e : Handshake.HandshakeError)
| GatewayError_MissingWindowForwarding
| GatewayError_Timeout
| GatewayError_Cancelled
| GatewayError_AuditUnavailable.

#[global] Instance GatewayError_eq_dec : EqDecision GatewayError.
Proof. solve_decision. Defined.

Definition GatewayError_slug (self : GatewayError) : string :=
  match self with
  | GatewayError_NoRealmEntrypoint => "missing-realm-entrypoint"
  | GatewayError_GatewayUnavailable => "gateway-unavailable"
  | GatewayError_Busy => "gateway-busy"
  | GatewayError_Conflict => "idempotency-conflict"
  | GatewayError_Internal => "gateway-internal"
  | GatewayError_QuotaExceeded => "gateway-quota-exceeded"
  | GatewayError_ProviderAllocationFailed => "provider-allocation-failed"
  | GatewayError_RelayUnavailable => "relay-unavailable"
  | GatewayError_DisplayAuthFailed _ => "display-auth-failed"
  | GatewayError_MissingWindowForwarding => "missing-window-forwarding"
  | GatewayError_Timeout => "gateway-timeout"
  | GatewayError_Cancelled => "gateway-cancelled"
  | GatewayError_AuditUnavailable => "audit-unavailable"
  end.

Module Ledger.

(** ** The session table *)

Inductive SessionState : Set :=
| Minting
| AgentSpawning
| ListenerArming
| AwaitingHandshake
| Running
| Degraded
| Stopping
| Closed
| Failed.

#[global] Instance SessionState_eq_dec : EqDecision SessionState.
Proof. solve_decision. Defined.

Definition can_transition (self next : SessionState) : bool :=
  match self, next with
  | Minting, ListenerArming
  | ListenerArming, AgentSpawning
  | AgentSpawning, AwaitingHandshake
  | AwaitingHandshake, Running
  | Running, Degraded
  | Degraded, ListenerArming
  | Minting, Stopping
  | AgentSpawning, Stopping
  | ListenerArming, Stopping
  | AwaitingHandshake, Stopping
  | Running, Stopping
  | Degraded, Stopping
  | Stopping, Closed
  | Minting, Failed
  | AgentSpawning, Failed
  | ListenerArming, Failed
  | AwaitingHandshake, Failed => true
  | _, _ => false
  end.

Definition is_terminal (self : SessionState) : bool :=
  match self with Closed | Failed => true | _ => false end.

Record TargetKey := mkTargetKey { realm : string; workload : string }.

#[global] Instance TargetKey_eq_dec : EqDecision TargetKey.
Proof. solve_decision. Defined.

Record LedgerLimits := mkLedgerLimits {
  max_sessions_per_principal : nat;
  max_sessions_per_realm : nat;
  max_records : nat
}.

(** [LedgerLimits::default] *)
Definition LedgerLimits_default : LedgerLimits := mkLedgerLimits 8 16 256.

Record SessionRecord := mkSessionRecord {
  id : string;
  target : TargetKey;
  principal : string;
  operation_id : string;
  request_hash : N;
  state : SessionState;
  rec_generation : N
}.

#[global] Instance SessionRecord_eq_dec : EqDecision SessionRecord.
Proof. solve_decision. Defined.

Inductive OpOutcome : Set :=
| OpOutcome_Accepted (id : string)
| OpOutcome_Replay (id : string).

#[global] Instance OpOutcome_eq_dec : EqDecision OpOutcome.
Proof. solve_decision. Defined.

Record SessionLedger := mkSessionLedger {
  limits : LedgerLimits;
  generation : N;
  records : gmap string SessionRecord
}.

Definition new (generation : N) (limits : LedgerLimits) : SessionLedger :=
  mkSessionLedger limits generation ∅.

(** [self.records.values()]: the order is the map's; the answers below do not
    depend on it ([open_records_order]). *)
Definition values (self : SessionLedger) : list SessionRecord := (map_to_list (records self)).*2.

Definition live (r : SessionRecord) : bool := negb (is_terminal (state r)).

Definition active_for_principal (self : SessionLedger) (principal_ : string) : nat :=
  length (filter (fun r => bool_decide (principal r = principal_) && live r) (values self)).

Definition active_for_realm (self : SessionLedger) (realm_ : string) : nat :=
  length (filter (fun r => bool_decide (realm (target r) = realm_) && live r) (values self)).

Definition with_records (self : SessionLedger) (rs : gmap string SessionRecord) : SessionLedger :=
  mkSessionLedger (limits self) (generation self) rs.

Definition gc_terminal (self : SessionLedger) : SessionLedger :=
  with_records self (filter (fun e => live e.2) (records self)).

Definition same_operation (operation_id_ principal_ : string) (r : SessionRecord) : bool :=
  bool_decide (operation_id r = operation_id_) && bool_decide (principal r = principal_).

Definition open (target_ : TargetKey) (principal_ operation_id_ : string) (request_hash_ : N)
    (new_id : string) : handler SessionLedger GatewayError OpOutcome :=
  fun self =>
    match find (same_operation operation_id_ principal_) (values self) with
    | Some existing =>
        if (request_hash existing =? request_hash_)%N
        then (Ok (OpOutcome_Replay (id existing)), self)
        else (Err GatewayError_Conflict, self)
    | None =>
        if existsb (fun r => bool_decide (target r = target_) && live r) (values self)
        then (Err GatewayError_Busy, self)
        else
          let full l := max_records (limits l) <=? size (records l) in
          let self := if full self then gc_terminal self else self in
          if full self then (Err GatewayError_QuotaExceeded, self)
          else if (max_sessions_per_principal (limits self) <=? active_for_principal self principal_)
                  || (max_sessions_per_realm (limits self) <=? active_for_realm self (realm target_))
          then (Err GatewayError_QuotaExceeded, self)
          else if bool_decide (is_Some (records self !! new_id))
          then (Err GatewayError_Internal, self)
          else
            let rec := mkSessionRecord new_id target_ principal_ operation_id_ request_hash_
                         Minting (generation self) in
            (Ok (OpOutcome_Accepted new_id),
             with_records self (<[new_id := rec]> (records self)))
    end.

Definition set_state (next : SessionState) (r : SessionRecord) : SessionRecord :=
  mkSessionRecord (id r) (target r) (principal r) (operation_id r) (request_hash r) next
    (rec_generation r).

Definition transition (id_ : string) (next : SessionState) :
    handler SessionLedger GatewayError unit :=
  fun self =>
    match records self !! id_ with
    | None => (Err GatewayError_Cancelled, self)
    | Some rec =>
        if negb (can_transition (state rec) next) then (Err GatewayError_Cancelled, self)
        else (Ok tt, with_records self (<[id_ := set_state next rec]> (records self)))
    end.

(** [SessionLedger::state] *)
Definition session_state (self : SessionLedger) (id_ : string) : option SessionState :=
  state <$> records self !! id_.

#[global] Instance SessionRecord_ord : RustOrd SessionRecord := cmp_via id.

Definition active_records (self : SessionLedger) : list SessionRecord :=
  rust_sort (filter live (values self)).

Definition restarted (r : SessionRecord) : SessionRecord :=
  if live r then set_state Closed r else r.

(** [generation += 1] on a [u64]; every live record becomes [Closed] and is
    returned as it now is. *)
Definition reconcile_restart (self : SessionLedger) : list SessionRecord * SessionLedger :=
  (set_state Closed <$> filter live (values self),
   mkSessionLedger (limits self) (u64_wrap (generation self + 1)) (restarted <$> records self)).

Lemma active_records_elem l r :
  r ∈ active_records l <-> live r /\ exists k, records l !! k = Some r.
Proof.
  unfold active_records, rust_sort. rewrite merge_sort_Permutation, list_elem_of_filter.
  unfold values. rewrite list_elem_of_fmap. split.
  - intros [Hl ([k r'] & -> & H)]. apply elem_of_map_to_list in H. eauto.
  - intros [Hl [k H]]. split; [done|]. exists (k, r). by rewrite elem_of_map_to_list.
Qed.

Lemma active_records_sorted l :
  StronglySorted (fun r s => ord_le (id r) (id s)) (active_records l).
Proof.
  assert (Transitive (fun r s => ord_le (id r) (id s))) by (intros x y z; apply transitivity).
  assert (Total (fun r s => ord_le (id r) (id s))) by (intros x y; apply (total ord_le)).
  apply (StronglySorted_merge_sort (fun r s => ord_le (id r) (id s))).
Qed.

(** ** Counting records *)

Definition count (P : SessionRecord -> bool) (m : gmap string SessionRecord) : nat :=
  length (filter P (map_to_list m).*2).

Lemma count_insert_fresh (P : SessionRecord -> bool) m k r :
  m !! k = None -> count P (<[k := r]> m) = (if P r then 1 else 0) + count P m.
Proof.
  intros Hk. unfold count. rewrite (map_to_list_insert m k r Hk). simpl.
  rewrite filter_cons. case_decide; destruct (P r); simpl in *; naive_solver.
Qed.

Lemma count_update (P : SessionRecord -> bool) m k r r' :
  m !! k = Some r -> (P r' -> P r) -> count P (<[k := r']> m) <= count P m.
Proof.
  intros Hk HP. rewrite <- (insert_delete_eq m k r').
  replace (count P m) with (count P (<[k := r]> (delete k m))) by by rewrite insert_delete_id.
  rewrite !count_insert_fresh by by rewrite lookup_delete_eq.
  destruct (P r'), (P r); simpl in *; naive_solver lia.
Qed.

Lemma count_fmap (P : SessionRecord -> bool) f m : (forall r, P (f r) -> P r) -> count P (f <$> m) <= count P m.
Proof.
  intros HP. unfold count. rewrite map_to_list_fmap.
  induction (map_to_list m) as [|[k r] l IH]; [done|]. rewrite !fmap_cons. cbn [prod_map snd].
  specialize (HP r). rewrite !filter_cons. repeat case_decide; cbn [length]; [lia|tauto|lia|lia].
Qed.

Lemma count_subseteq P m1 m2 : m1 ⊆ m2 -> count P m1 <= count P m2.
Proof.
  intros H%map_to_list_submseteq. unfold count. apply submseteq_Permutation in H as [k H].
  rewrite H, fmap_app, filter_app, length_app. lia.
Qed.

(** ** The invariant *)

Definition live_for (p : string) (r : SessionRecord) : bool :=
  bool_decide (principal r = p) && live r.

Definition live_in (realm_ : string) (r : SessionRecord) : bool :=
  bool_decide (realm (target r) = realm_) && live r.

Record ledger_ok (l : SessionLedger) : Prop := {
  ok_ids k r : records l !! k = Some r -> id r = k;
  ok_size : size (records l) <= max_records (limits l);
  ok_principal p : count (live_for p) (records l) <= max_sessions_per_principal (limits l);
  ok_realm w : count (live_in w) (records l) <= max_sessions_per_realm (limits l);
  ok_target i j r s :
    records l !! i = Some r -> records l !! j = Some s -> live r -> live s ->
    target r = target s -> i = j;
  ok_operation i j r s :
    records l !! i = Some r -> records l !! j = Some s ->
    operation_id r = operation_id s -> principal r = principal s -> i = j
}.

Lemma new_ok g lim : ledger_ok (new g lim).
Proof. split; simpl; unfold count; rewrite ?map_to_list_empty, ?map_size_empty; simpl; try lia; set_solver. Qed.

Lemma elem_of_values l r : r ∈ values l <-> exists k, records l !! k = Some r.
Proof.
  unfold values. rewrite list_elem_of_fmap. split.
  - intros ([k r'] & -> & H). apply elem_of_map_to_list in H. eauto.
  - intros [k H]. exists (k, r). by rewrite elem_of_map_to_list.
Qed.

Lemma values_NoDup l : ledger_ok l -> NoDup (id <$> values l).
Proof.
  intros Hok. unfold values. rewrite <- list_fmap_compose.
  assert ((id ∘ snd) <$> map_to_list (records l) = fst <$> map_to_list (records l)) as ->;
    [|apply NoDup_fst_map_to_list].
  apply list_fmap_ext. intros i [k r] Hi%list_elem_of_lookup_2%elem_of_map_to_list.
  by apply (ok_ids l Hok).
Qed.

(** Every live session once, in the order of the ids. *)
Lemma active_records_strict l :
  ledger_ok l -> StronglySorted ord_lt (id <$> active_records l).
Proof.
  intros Hok. assert (NoDup (id <$> active_records l)) as Hnd.
  { unfold active_records. rewrite rust_sort_perm.
    eapply sublist_NoDup; [apply values_NoDup, Hok|]. apply fmap_sublist, sublist_filter. }
  pose proof (active_records_sorted l) as Hs. revert Hnd.
  induction Hs as [|r rs Hs IH Hall]; [constructor|]. rewrite fmap_cons.
  intros [Hr Hnd]%NoDup_cons. constructor; [by apply IH|].
  apply Forall_fmap. rewrite Forall_forall in *. intros x Hx.
  destruct (proj1 (ord_le_lt_eq _ _) (Hall x Hx)) as [Hl|Hl]; [done|].
  destruct Hr. rewrite Hl. by apply list_elem_of_fmap_2.
Qed.

Lemma gc_terminal_lookup l k r :
  records (gc_terminal l) !! k = Some r <-> records l !! k = Some r /\ live r.
Proof. simpl. by rewrite map_lookup_filter_Some. Qed.

Lemma gc_ok l : ledger_ok l -> ledger_ok (gc_terminal l).
Proof.
  intros [Hid Hsz Hp Hr Ht Ho].
  assert (records (gc_terminal l) ⊆ records l) as Hsub by apply map_filter_subseteq.
  split.
  - intros k r [Hk _]%gc_terminal_lookup. eauto.
  - etrans; [by apply map_subseteq_size|]. done.
  - intros p. etrans; [by apply count_subseteq|]. apply Hp.
  - intros w. etrans; [by apply count_subseteq|]. apply Hr.
  - intros i j r s [Hi _]%gc_terminal_lookup [Hj _]%gc_terminal_lookup. eauto.
  - intros i j r s [Hi _]%gc_terminal_lookup [Hj _]%gc_terminal_lookup. eauto.
Qed.

Lemma can_transition_live s next : can_transition s next -> is_terminal s = false.
Proof. by destruct s, next. Qed.

(** A record may change state, as long as it does not come back to life. *)
Lemma update_ok l k r next :
  ledger_ok l -> records l !! k = Some r -> is_terminal (state r) = false ->
  ledger_ok (with_records l (<[k := set_state next r]> (records l))).
Proof.
  intros [Hid Hsz Hp Hr Ht Ho] Hk Hlive.
  assert (live r) as Hl by (unfold live; by rewrite Hlive).
  split; simpl.
  - intros k' r'. rewrite lookup_insert_Some. intros [[<- <-]|[_ ?]]; simpl; eauto.
  - by rewrite map_size_insert_Some.
  - intros p. etrans; [|apply (Hp p)]. apply (count_update _ _ _ r); [done|].
    unfold live_for. simpl. rewrite !andb_True. tauto.
  - intros w. etrans; [|apply (Hr w)]. apply (count_update _ _ _ r); [done|].
    unfold live_in. simpl. rewrite !andb_True. tauto.
  - intros i j r1 r2. rewrite !lookup_insert_Some.
    intros [[<- <-]|[? ?]] [[<- <-]|[? ?]]; simpl; eauto.
  - intros i j r1 r2. rewrite !lookup_insert_Some.
    intros [[<- <-]|[? ?]] [[<- <-]|[? ?]]; simpl; eauto.
Qed.

Lemma transition_ok k next l : ledger_ok l -> ledger_ok (transition k next l).2.
Proof.
  intros Hok. unfold transition. destruct (records l !! k) as [r|] eqn:Hk; [|done].
  destruct (can_transition (state r) next) eqn:Hc; simpl; [|done].
  apply update_ok; [done..|]. by eapply can_transition_live, Is_true_true_2.
Qed.

(** In whatever order the records are visited, the search for an operation
    finds the one record it can find. *)
Lemma open_records_order l vs k r :
  ledger_ok l -> vs ≡ₚ values l -> records l !! k = Some r ->
  find (same_operation (operation_id r) (principal r)) vs = Some r.
Proof.
  intros Hok Hvs Hk. unfold same_operation.
  destruct (find _ vs) as [s|] eqn:Hf.
  - apply find_some in Hf as [Hs Hm]. apply list_elem_of_In in Hs. rewrite Hvs, elem_of_values in Hs.
    destruct Hs as [j Hj]. apply andb_true_iff in Hm as [Ho Hp]. apply bool_decide_eq_true in Ho, Hp.
    assert (j = k) as -> by by eapply ok_operation. congruence.
  - eapply find_none in Hf; [|apply list_elem_of_In; rewrite Hvs; apply elem_of_values; eauto].
    simpl in Hf. by rewrite !bool_decide_true in Hf.
Qed.

Lemma find_operation_none l op p k r :
  find (same_operation op p) (values l) = None -> records l !! k = Some r ->
  operation_id r = op -> principal r = p -> False.
Proof.
  intros Hf Hk <- <-.
  eapply find_none in Hf; [|apply list_elem_of_In, elem_of_values; eauto].
  unfold same_operation in Hf. by rewrite !bool_decide_true in Hf.
Qed.

Lemma no_live_target l t k r :
  existsb (fun r => bool_decide (target r = t) && live r) (values l) = false ->
  records l !! k = Some r -> live r -> target r <> t.
Proof.
  intros He Hk Hl <-. apply not_true_iff_false in He. apply He, existsb_exists.
  exists r. split; [apply list_elem_of_In, elem_of_values; eauto|].
  rewrite bool_decide_true by done. by apply Is_true_true.
Qed.

Lemma insert_ok l k r :
  ledger_ok l -> records l !! k = None -> id r = k ->
  size (records l) < max_records (limits l) ->
  count (live_for (principal r)) (records l) < max_sessions_per_principal (limits l) ->
  count (live_in (realm (target r))) (records l) < max_sessions_per_realm (limits l) ->
  (forall j s, records l !! j = Some s -> live s -> target s <> target r) ->
  (forall j s, records l !! j = Some s -> operation_id s = operation_id r ->
     principal s = principal r -> False) ->
  ledger_ok (with_records l (<[k := r]> (records l))).
Proof.
  intros [Hid Hsz Hp Hr Ht Ho] Hk Hrid Hroom Hpq Hrq Hnt Hno. split; simpl.
  - intros k' r'. rewrite lookup_insert_Some. intros [[<- <-]|[_ ?]]; eauto.
  - rewrite map_size_insert_None by done. lia.
  - intros p. rewrite count_insert_fresh by done. unfold live_for at 1. specialize (Hp p).
    case_bool_decide; subst; simpl; [destruct (live r); lia|done].
  - intros w. rewrite count_insert_fresh by done. unfold live_in at 1. specialize (Hr w).
    case_bool_decide; subst; simpl; [destruct (live r); lia|done].
  - intros i j r1 r2. rewrite !lookup_insert_Some.
    intros [[<- <-]|[? ?]] [[<- <-]|[? ?]] ? ? Heq; try done; try (by eapply Ht; eauto); exfalso;
      [eapply (Hnt j r2)|eapply (Hnt i r1)]; eauto.
  - intros i j r1 r2. rewrite !lookup_insert_Some.
    intros [[<- <-]|[? ?]] [[<- <-]|[? ?]] ? Heq; try done; try (by eapply Ho; eauto); exfalso;
      [eapply (Hno j r2)|eapply (Hno i r1)]; eauto.
Qed.

Lemma open_ok t p op h new_id l : ledger_ok l -> ledger_ok (open t p op h new_id l).2.
Proof.
  intros Hok. unfold open.
  destruct (find _ _) as [e|] eqn:Hf; [by case_match|].
  destruct (existsb _ _) eqn:He; [done|]. cbv zeta.
  set (l1 := if _ <=? _ then gc_terminal l else l).
  assert (ledger_ok l1) as Hok1 by (unfold l1; case_match; [by apply gc_ok|done]).
  assert (forall k r, records l1 !! k = Some r -> records l !! k = Some r) as Hsub.
  { unfold l1. case_match; [|done]. intros k r Hk. by apply gc_terminal_lookup in Hk as [? _]. }
  clearbody l1. destruct (_ <=? size _) eqn:Hroom; [done|].
  destruct (_ || _) eqn:Hq; [done|]. case_bool_decide as Hn; [done|].
  apply orb_false_iff in Hq as [Hq1 Hq2]. apply Nat.leb_gt in Hroom, Hq1, Hq2.
  apply eq_None_not_Some in Hn.
  apply insert_ok; try done; simpl.
  - intros j s Hj Hl. eapply no_live_target; eauto.
  - intros j s Hj ? ?. eapply find_operation_none; eauto.
Qed.

Lemma restarted_dead r : ~ live (restarted r).
Proof. unfold restarted. destruct (live r) eqn:E; [by intros []|]. rewrite E. by intros []. Qed.

Lemma restarted_same r :
  id (restarted r) = id r /\ operation_id (restarted r) = operation_id r
  /\ principal (restarted r) = principal r.
Proof. unfold restarted. by case_match. Qed.

Lemma open_minting t p op h new_id l k l' :
  open t p op h new_id l = (Ok (OpOutcome_Accepted k), l') ->
  k = new_id /\ session_state l' new_id = Some Minting.
Proof.
  unfold open. intros E. run_cases; unfold session_state; simpl; by rewrite lookup_insert_eq.
Qed.

Lemma open_replay t p op h new_id l k l' :
  open t p op h new_id l = (Ok (OpOutcome_Replay k), l') -> l' = l.
Proof. unfold open. intros E. run_cases; done. Qed.

Lemma reconcile_ok l : ledger_ok l -> ledger_ok (reconcile_restart l).2.
Proof.
  intros [Hid Hsz Hp Hr Ht Ho].
  split; simpl.
  - intros k r. rewrite lookup_fmap, fmap_Some. intros (r' & Hk & ->).
    destruct (restarted_same r') as [-> _]. eauto.
  - by rewrite map_size_fmap.
  - intros p. etrans; [|apply (Hp p)]. apply count_fmap. intros r [_ []%restarted_dead]%andb_True.
  - intros w. etrans; [|apply (Hr w)]. apply count_fmap. intros r [_ []%restarted_dead]%andb_True.
  - intros i j r s. rewrite !lookup_fmap, !fmap_Some. intros (r' & ? & ->) _ []%restarted_dead.
  - intros i j r s. rewrite !lookup_fmap, !fmap_Some. intros (r' & ? & ->) (s' & ? & ->).
    destruct (restarted_same r') as (_ & -> & ->), (restarted_same s') as (_ & -> & ->). eauto.
Qed.

(** One operation on the ledger. *)
Inductive ledger_step (l : SessionLedger) : SessionLedger -> Prop :=
| step_open t p op h new_id : ledger_step l (open t p op h new_id l).2
| step_transition k next : ledger_step l (transition k next l).2
| step_gc : ledger_step l (gc_terminal l)
| step_restart : ledger_step l (reconcile_restart l).2.

#[local] Hint Resolve open_ok transition_ok gc_ok reconcile_ok : core.

Lemma reachable_ok g lim l : rtc ledger_step (new g lim) l -> ledger_ok l.
Proof.
  intros H. remember (new g lim) as l0. assert (ledger_ok l0) as H0 by (subst; apply new_ok).
  clear Heql0. induction H as [|l1 l2 l3 Hs _ IH]; [done|]. apply IH. destruct Hs; auto.
Qed.

(** C28. Whatever sequence of opens, transitions, collections and restarts has
    run on it, the ledger is within its record bound and its per-principal and
    per-realm quotas, has at most one live session per target, and is
    idempotent: an operation it tracks is answered with its own session when
    the request is the same and with [Conflict] when it is not, and nothing
    changes. *)
Theorem ledger_admission g lim l :
  rtc ledger_step (new g lim) l ->
  size (records l) <= max_records (limits l)
  /\ (forall p, active_for_principal l p <= max_sessions_per_principal (limits l))
  /\ (forall w, active_for_realm l w <= max_sessions_per_realm (limits l))
  /\ (forall i j r s, records l !! i = Some r -> records l !! j = Some s ->
        live r -> live s -> target r = target s -> i = j)
  /\ (forall k r t h new_id, records l !! k = Some r ->
        open t (principal r) (operation_id r) h new_id l
        = (if (request_hash r =? h)%N then Ok (OpOutcome_Replay k)
           else Err GatewayError_Conflict, l)).
Proof.
  intros Hok%reachable_ok. split_and!;
    [exact (ok_size l Hok)|exact (ok_principal l Hok)|exact (ok_realm l Hok)|exact (ok_target l Hok)|].
  intros k r t h new_id Hk. unfold open.
  rewrite (open_records_order l (values l) k r Hok (reflexivity _) Hk).
  rewrite (ok_ids l Hok k r Hk). by case_match.
Qed.

Definition demo_target : TargetKey := mkTargetKey "work" "demo".
Definition demo_ledger : SessionLedger :=
  (open demo_target "alice" "op-1" 42 "s1" (new 1 LedgerLimits_default)).2.

Lemma ledger_admission_witness :
  open demo_target "bob" "op-2" 7 "s2" demo_ledger = (Err GatewayError_Busy, demo_ledger)
  /\ open demo_target "alice" "op-1" 42 "s2" demo_ledger = (Ok (OpOutcome_Replay "s1"), demo_ledger).
Proof.
  split; [by vm_compute|].
  destruct (ledger_admission 1 LedgerLimits_default demo_ledger) as (_ & _ & _ & _ & Hreplay).
  - eapply rtc_l; [apply step_open|]. apply rtc_refl.
  - exact (Hreplay "s1" (mkSessionRecord "s1" demo_target "alice" "op-1" 42 Minting 1)
             demo_target 42%N "s2" eq_refl).
Defined.

(** A restart revokes every session of the gateway life before it: no
    record is live afterwards, the records handed back for cleanup are
    exactly the sessions that were live, now closed, and no credential of an
    earlier generation is admitted under the new one, whatever the replay
    guard. *)
Theorem restart_revokes (hmac : list ascii -> list ascii -> list ascii) l a guard :
  (generation l < u64_max)%N ->
  let '(reconciled, l') := reconcile_restart l in
  active_records l' = []
  /\ (forall r', r' ∈ reconciled <->
        exists k r, records l !! k = Some r /\ live r /\ r' = set_state Closed r)
  /\ ((Handshake.generation (Handshake.at_expected a) <= generation l)%N ->
      Handshake.at_generation a = generation l' ->
      (Handshake.attempt_verify hmac a guard).1 <> Ok tt).
Proof.
  intros Hg. unfold reconcile_restart. split_and!.
  - unfold active_records. simpl.
    enough (filter live (values (reconcile_restart l).2) = []) as E.
    { unfold reconcile_restart in E. simpl in E. by rewrite E. }
    apply elem_of_nil_inv. intros r [Hl [k Hk]%elem_of_values]%list_elem_of_filter. revert Hl. simpl in Hk.
    rewrite lookup_fmap, fmap_Some in Hk. destruct Hk as (r' & _ & ->). apply restarted_dead.
  - intros r'. rewrite list_elem_of_fmap. setoid_rewrite list_elem_of_filter.
    setoid_rewrite elem_of_values. naive_solver.
  - simpl. unfold u64_wrap. rewrite N.mod_small by (unfold u64_max in Hg; lia).
    intros Hle Hgen. destruct (Handshake.verify_cases hmac a guard) as [((_ & _ & E & _) & _)|(_ & e & ->)];
      [lia|done].
Qed.

Lemma restart_revokes_witness :
  (let '(reconciled, l') := reconcile_restart demo_ledger in
   length reconciled = 1 /\ session_state l' "s1" = Some Closed)
  /\ (Handshake.attempt_verify Handshake.demo_hmac
        (Handshake.mkAttempt (Handshake.sign Handshake.demo_hmac
             (Handshake.SessionBinding_new ["work"] 1 "s1" 0 "op-1" "alice" "demo" 120) [])
           [] (Handshake.SessionBinding_new ["work"] 1 "s1" 0 "op-1" "alice" "demo" 120) 2 60)
        ∅).1 <> Ok tt.
Proof.
  split; [by vm_compute|].
  eapply (restart_revokes Handshake.demo_hmac demo_ledger (Handshake.mkAttempt _ _ _ _ _) ∅);
    by vm_compute.
Defined.

End Ledger.
