(* ===== verification/Orchestrator.v ===== *)
(** * The display-session orchestrator ([d2b-gateway])

    [orchestrator.rs], with the envelope of [audit.rs].  The injected side
    effects are [Class GatewayDeps] over a state of their own.  An awaited call
    takes and returns the whole gateway, ledger included, because other tasks
    run while it is pending; nothing is assumed of what it does.  [traced]
    records the calls an operation makes and what became of the ledger during
    each, and the theorems are about these records.  The ledger's mutex is never
    poisoned: no code that holds it panics. *)

From S2P Require Import Prelude Ids Streams Frame Targets Gateway.
Import Handshake Ledger.

Module Orchestrator.

(** ** Audit events *)

Inductive GatewayAuditKind : Set :=
| DisplaySessionOpenAdmitted
| DisplaySessionOpenDenied
| DisplaySessionRunning
| DisplaySessionClosed.

(** [AuditEnvelope] of [d2b-realm-core] *)
Record AuditEnvelope := mkAuditEnvelope {
  env_operation_id : string;
  env_correlation_id : string;
  env_realm : RealmPath;
  env_principal : string;
  env_node : string;
  env_workload : option string;
  env_stream : option string;
  env_execution : option string;
  env_scope : AuthorizationScope;
  env_decision : AuthzDecision;
  env_trace : option TraceContext
}.

Definition post_auth (operation_id correlation_id : string) (realm : RealmPath)
    (principal node : string) (scope : AuthorizationScope) (decision : AuthzDecision) :
    AuditEnvelope :=
  mkAuditEnvelope operation_id correlation_id realm principal node None None None scope
    decision None.

Definition with_workload (self : AuditEnvelope) (workload : string) : AuditEnvelope :=
  mkAuditEnvelope (env_operation_id self) (env_correlation_id self) (env_realm self)
    (env_principal self) (env_node self) (Some workload) (env_stream self) (env_execution self)
    (env_scope self) (env_decision self) (env_trace self).

Definition display_envelope (operation_id correlation_id : string) (realm : RealmPath)
    (principal node workload : string) (decision : AuthzDecision) : AuditEnvelope :=
  with_workload
    (post_auth operation_id correlation_id realm principal node
       (AuthorizationScope_Capability Capability_WindowForwarding) decision)
    workload.

Record GatewayAuditEvent := mkGatewayAuditEvent {
  kind : GatewayAuditKind;
  envelope : AuditEnvelope;
  event_session_id : option string;
  event_state : option SessionState;
  error_slug : option string
}.

(** ** Contexts and handles *)

Record DisplaySessionContext := mkDisplaySessionContext {
  ctx_session_id : string;
  ctx_operation_id : string;
  ctx_realm : RealmPath;
  ctx_generation : N;
  ctx_peer_principal : string
}.

Record ContextSeed := mkContextSeed {
  seed_realm : RealmPath;
  seed_operation_id : string;
  seed_correlation_id : string;
  seed_principal : string;
  seed_node : string;
  seed_workload : string
}.

(** [AppCommand::new] *)
Definition AppCommand_new (argv : list string) : option (list string) :=
  if bool_decide (argv = []) || existsb (fun a => bool_decide (a = "")) argv then None
  else Some argv.

Record AgentSpawnRequest := mkAgentSpawnRequest {
  req_ctx : DisplaySessionContext;
  req_binding : SessionBinding;
  req_secret : list ascii;
  req_app : list string
}.

(** [OpenSession]: the session with its [AgentHandle] and [ListenerHandle]. *)
Record OpenSession := mkOpenSession {
  open_session_id : string;
  agent : string;
  listener : string
}.

Record gateway (W : Type) := mkGateway { ledger : SessionLedger; world : W }.
Arguments mkGateway {_} _ _.
Arguments ledger {_} _.
Arguments world {_} _.

(** [GatewayDeps], with the traits [GatewayWorkload], [DisplayListener],
    [Clock], [IdSource] and [GatewayAudit]. *)
Class GatewayDeps (W : Type) := {
  spawn_agent : AgentSpawnRequest -> handler (gateway W) GatewayError string;
  cleanup : string -> handler (gateway W) GatewayError unit;
  arm : DisplaySessionContext -> SessionBinding -> list ascii ->
        handler (gateway W) GatewayError string;
  await_handshake : string -> handler (gateway W) GatewayError unit;
  close_listener : string -> handler (gateway W) GatewayError unit;
  now_unix : W -> N * W;
  new_session_id : W -> string * W;
  new_secret : W -> list ascii * W;
  record_event : GatewayAuditEvent -> handler W GatewayError unit
}.

Definition DEFAULT_SESSION_TTL_SECS : N := 120.

Section orchestrator.
Context {W : Type} `{GatewayDeps W}.

Open Scope rust_scope.

(** A call on the locked ledger. *)
Definition on_ledger {A} (h : handler SessionLedger GatewayError A) :
    handler (gateway W) GatewayError A :=
  fun g => let '(r, l) := h (ledger g) in (r, mkGateway l (world g)).

(** A call on the side effects alone. *)
Definition on_world {A} (h : handler W GatewayError A) : handler (gateway W) GatewayError A :=
  fun g => let '(r, w) := h (world g) in (r, mkGateway (ledger g) w).

Definition fresh {A} (f : W -> A * W) : handler (gateway W) GatewayError A :=
  on_world (fun w => let '(a, w) := f w in (Ok a, w)).

(** [let _ = m] *)
Definition ignore {A} (m : handler (gateway W) GatewayError A) :
    handler (gateway W) GatewayError unit :=
  fun g => let '(_, g) := m g in (Ok tt, g).

(** [if let Err(err) = m { undo; return Err(err) }] *)
Definition or_undo {A} (m : handler (gateway W) GatewayError A)
    (undo : handler (gateway W) GatewayError unit) : handler (gateway W) GatewayError A :=
  fun g =>
    match m g with
    | (Ok a, g) => (Ok a, g)
    | (Err e, g) => let '(_, g) := undo g in (Err e, g)
    end.

Definition audit (kind : GatewayAuditKind) (seed : ContextSeed) (decision : AuthzDecision)
    (session_id : option string) (state : option SessionState) (slug : option string) :
    handler (gateway W) GatewayError unit :=
  let envelope := display_envelope (seed_operation_id seed) (seed_correlation_id seed)
                    (seed_realm seed) (seed_principal seed) (seed_node seed)
                    (seed_workload seed) decision in
  on_world (record_event (mkGatewayAuditEvent kind envelope session_id state slug)).

Definition audit_open_admitted (seed : ContextSeed) (session_id : string) (state : SessionState) :=
  audit DisplaySessionOpenAdmitted seed AuthzDecision_Allow (Some session_id) (Some state) None.

Definition audit_open_denied (seed : ContextSeed) (err : GatewayError) :=
  audit DisplaySessionOpenDenied seed AuthzDecision_Deny None None (Some (GatewayError_slug err)).

Definition audit_running (seed : ContextSeed) (session_id : string) :=
  audit DisplaySessionRunning seed AuthzDecision_Allow (Some session_id) (Some Running) None.

Definition drive_open (ctx : DisplaySessionContext) (binding : SessionBinding)
    (secret : list ascii) (app : list string) : handler (gateway W) GatewayError OpenSession :=
  let id := ctx_session_id ctx in
  on_ledger (transition id ListenerArming) ?;
  let? listener := arm ctx binding secret in
  on_ledger (transition id AgentSpawning) ?;
  let? agent := or_undo (spawn_agent (mkAgentSpawnRequest ctx binding secret app))
                  (ignore (close_listener listener)) in
  on_ledger (transition id AwaitingHandshake) ?;
  or_undo (await_handshake listener)
    (ignore (cleanup agent) ?; ignore (close_listener listener)) ?;
  on_ledger (transition id Running) ?;
  h_ret (mkOpenSession id agent listener).

Definition fail_session (id : string) : handler (gateway W) GatewayError unit :=
  ignore (on_ledger (transition id Failed)).

(** The part of [open] after the ledger accepted the session: mint the
    credential, drive the state machine, compensate. *)
Definition open_accepted (session_id : string) (seed : ContextSeed) (app : list string) :
    handler (gateway W) GatewayError OpenSession :=
  let? now := fresh now_unix in
  let not_after := u64_saturating_add now DEFAULT_SESSION_TTL_SECS in
  let? g := h_get in
  let generation := Ledger.generation (ledger g) in
  let ctx := mkDisplaySessionContext session_id (seed_operation_id seed) (seed_realm seed)
               generation (seed_principal seed) in
  let binding := SessionBinding_new (seed_realm seed) generation session_id 0
                   (seed_operation_id seed) (seed_principal seed) (seed_workload seed) not_after in
  let? secret := fresh new_secret in
  audit_open_admitted seed session_id Minting ?;
  let? opened := or_undo (drive_open ctx binding secret app) (fail_session session_id) in
  audit_running seed (open_session_id opened) ?;
  h_ret opened.

Definition open (realm_target : TargetKey) (seed : ContextSeed) (app : list string)
    (request_hash : N) : handler (gateway W) GatewayError OpenSession :=
  let? new_id := fresh new_session_id in
  fun g =>
    match on_ledger (Ledger.open realm_target (seed_principal seed) (seed_operation_id seed)
                       request_hash new_id) g with
    | (Err err, g) => (audit_open_denied seed err ?; h_throw err) g
    | (Ok (OpOutcome_Replay id), g) => h_ret (mkOpenSession id "" "") g
    | (Ok (OpOutcome_Accepted id), g) => open_accepted id seed app g
    end.

(** [l.and(a)] *)
Definition result_and (l a : result unit GatewayError) : result unit GatewayError :=
  match l with Ok _ => a | Err e => Err e end.

Definition close (opened : OpenSession) : handler (gateway W) GatewayError unit :=
  let id := open_session_id opened in
  ignore (on_ledger (transition id Stopping)) ?;
  fun g =>
    let '(l, g) := close_listener (listener opened) g in
    let '(a, g) := cleanup (agent opened) g in
    (ignore (on_ledger (transition id Closed)) ?; h_lift (result_and l a)) g.

Close Scope rust_scope.
End orchestrator.

(** ** Listing *)

Record DisplaySessionSummary := mkDisplaySessionSummary {
  sum_session_id : string;
  sum_state : SessionState;
  sum_generation : N;
  sum_realm : RealmPath;
  sum_workload : string;
  sum_operation_id : string;
  sum_peer_principal : string
}.

(** [map_err(|_| GatewayError::Internal)] *)
Definition or_internal {A E} (r : result A E) : result A GatewayError :=
  match r with Ok a => Ok a | Err _ => Err GatewayError_Internal end.

Definition parse_target_realm (target : string) : result RealmPath GatewayError :=
  match Target.collect (parse_label <$> Target.split_dots target) with
  | Err _ => Err GatewayError_Internal
  | Ok labels =>
      match RealmPath_new labels with
      | Some p => Ok p
      | None => Err GatewayError_Internal
      end
  end.

(** [DisplaySessionSummary::from_record] *)
Definition from_record (record : SessionRecord) : result DisplaySessionSummary GatewayError :=
  Target.and_then (parse_target_realm (Ledger.realm (target record))) (fun realm =>
  Target.and_then (or_internal (parse_label (Ledger.workload (target record)))) (fun workload =>
  Target.and_then (or_internal (parse_opaque (operation_id record))) (fun operation_id =>
  Target.and_then (or_internal (parse_opaque (principal record))) (fun peer_principal =>
  Ok (mkDisplaySessionSummary (id record) (state record) (rec_generation record) realm workload
        operation_id peer_principal))))).

Definition list_sessions (self : SessionLedger) : result (list DisplaySessionSummary) GatewayError :=
  Target.collect (from_record <$> active_records self).

(** What the callers of [open] pass: the texts of typed values. *)
Record typed_open (t : TargetKey) (p op : string) : Prop := {
  typed_realm : exists path, Ledger.realm t = target_form path /\ Forall valid_label path
                             /\ RealmPath_new path = Some path;
  typed_workload : valid_label (Ledger.workload t);
  typed_principal : valid_opaque p;
  typed_operation : valid_opaque op
}.

Inductive typed_step (l : SessionLedger) : SessionLedger -> Prop :=
| typed_step_open t p op h new_id :
    typed_open t p op -> typed_step l (Ledger.open t p op h new_id l).2
| typed_step_transition k next : typed_step l (transition k next l).2
| typed_step_gc : typed_step l (gc_terminal l)
| typed_step_restart : typed_step l (reconcile_restart l).2.

Definition typed (l : SessionLedger) : Prop :=
  forall k r, records l !! k = Some r -> typed_open (target r) (principal r) (operation_id r).

Lemma gc_typed l : typed l -> typed (gc_terminal l).
Proof. intros Ht k r [Hk _]%gc_terminal_lookup. eauto. Qed.

Lemma typed_step_typed l l' : typed l -> typed_step l l' -> typed l'.
Proof.
  intros Ht Hs. destruct Hs as [t p op h new_id Ho|k next| |].
  - unfold Ledger.open. destruct (find _ _); [by case_match|]. destruct (existsb _ _); [done|]. cbv zeta.
    set (l1 := if _ <=? _ then gc_terminal l else l).
    assert (typed l1) as Ht1 by (unfold l1; case_match; [by apply gc_typed|done]).
    clearbody l1. destruct (_ <=? size _); [done|]. destruct (_ || _); [done|]. case_bool_decide; [done|].
    intros k r. simpl. rewrite lookup_insert_Some. intros [[_ <-]|[_ Hk]]; [done|]. by eapply Ht1.
  - unfold transition. destruct (records l !! k) as [r|] eqn:Hk; [|done].
    destruct (can_transition _ _); [|done]. intros k' r'. simpl. rewrite lookup_insert_Some.
    intros [[_ <-]|[_ Hk']]; [by apply (Ht k r)|by eapply Ht].
  - by apply gc_typed.
  - intros k r. simpl. rewrite lookup_fmap, fmap_Some. intros (r' & Hk & ->). apply Ht in Hk.
    unfold restarted. by case_match.
Qed.

Lemma collect_ok {A B E} (f : A -> result B E) (R : A -> B -> Prop) l :
  (forall a, a ∈ l -> exists b, f a = Ok b /\ R a b) ->
  exists bs, Target.collect (f <$> l) = Ok bs /\ Forall2 R l bs.
Proof.
  induction l as [|a l IH]; intros H; [by exists []|].
  destruct (H a) as (b & Hb & HR); [set_solver|]. destruct IH as (bs & Hbs & Hall); [set_solver|].
  exists (b :: bs). split; [|by constructor]. simpl. rewrite Hb. simpl.
  change (list_fmap _ _ f l) with (f <$> l). by rewrite Hbs.
Qed.

Lemma parse_target_realm_form path :
  Forall valid_label path -> RealmPath_new path = Some path ->
  parse_target_realm (target_form path) = Ok path.
Proof.
  intros Hv Hp. unfold parse_target_realm. rewrite Target.split_target_form.
  - destruct (collect_ok parse_label eq path) as (bs & -> & Hall).
    { intros a Ha. exists a. rewrite Forall_forall in Hv. by apply Hv in Ha. }
    apply list_eq_Forall2 in Hall as <-. by rewrite Hp.
  - intros ->. done.
  - eapply Forall_impl; [exact Hv|]. apply Target.valid_label_free.
Qed.

(** The summary is its record, with the texts parsed. *)
Definition summarises (r : SessionRecord) (s : DisplaySessionSummary) : Prop :=
  sum_session_id s = id r /\ sum_state s = state r /\ sum_generation s = rec_generation r
  /\ target_form (sum_realm s) = Ledger.realm (target r)
  /\ Forall valid_label (sum_realm s) /\ RealmPath_new (sum_realm s) = Some (sum_realm s)
  /\ sum_workload s = Ledger.workload (target r)
  /\ sum_operation_id s = operation_id r /\ sum_peer_principal s = principal r.

Lemma from_record_typed r :
  typed_open (target r) (principal r) (operation_id r) ->
  exists s, from_record r = Ok s /\ summarises r s.
Proof.
  intros [(path & Hr & Hv & Hp) Hw Hpr Hop]. unfold from_record.
  rewrite Hr, parse_target_realm_form by done. unfold or_internal. simpl.
  unfold valid_label, valid_opaque in *. rewrite Hw. simpl. rewrite Hop. simpl. rewrite Hpr.
  eexists. split; [done|]. unfold summarises. simpl. split_and!; done.
Qed.

Lemma typed_ledger_step l l' : typed_step l l' -> ledger_step l l'.
Proof. by intros []; constructor. Qed.

Lemma Forall2_elem_l {A B} (R : A -> B -> Prop) l k a :
  Forall2 R l k -> a ∈ l -> exists b, b ∈ k /\ R a b.
Proof.
  intros HR Ha. apply list_elem_of_lookup in Ha as [i Hi].
  destruct (Forall2_lookup_l _ _ _ _ _ HR Hi) as (b & Hb & Hab).
  exists b. split; [by eapply list_elem_of_lookup_2|done].
Qed.

(** C40. Listing never fails on the gateway's own records, and lists exactly the
    live sessions: whatever operations have run, as long as sessions were
    opened for typed targets, operations and principals, [list_sessions]
    returns summaries with strictly increasing session ids, one for every live
    record and none for anything else, each with its record's state and
    generation and the parsed form of its texts. *)
Theorem list_sessions_typed g lim l :
  rtc typed_step (Ledger.new g lim) l ->
  exists summaries, list_sessions l = Ok summaries
    /\ StronglySorted ord_lt (sum_session_id <$> summaries)
    /\ (forall k r, records l !! k = Some r -> live r ->
          exists s, s ∈ summaries /\ sum_session_id s = k /\ summarises r s)
    /\ (forall s, s ∈ summaries ->
          exists r, records l !! sum_session_id s = Some r /\ live r /\ summarises r s).
Proof.
  intros Hr.
  assert (typed l) as Ht.
  { revert l Hr. refine (rtc_ind_r typed (Ledger.new g lim) _ _).
    - intros k r. simpl. by rewrite lookup_empty.
    - intros l1 l2 _ Hs IH. by eapply typed_step_typed. }
  assert (ledger_ok l) as Hok.
  { apply (reachable_ok g lim). eapply rtc_subrel; [|exact Hr]. apply typed_ledger_step. }
  destruct (collect_ok from_record summarises (active_records l)) as (ss & E & Hall).
  { intros r [_ [k Hk]]%active_records_elem. by apply from_record_typed, (Ht k). }
  assert (sum_session_id <$> ss = id <$> active_records l) as Eids.
  { clear -Hall. induction Hall as [|r s rs ss [Hs _] _ IH]; [done|]. by rewrite !fmap_cons, IH, Hs. }
  exists ss. split_and! ; [done|rewrite Eids; by apply active_records_strict| |].
  - intros k r Hk Hl. destruct (Forall2_elem_l _ _ _ r Hall) as (s & Hs & Hrs).
    { apply active_records_elem. eauto. }
    exists s. split_and! ; [done| |done]. destruct Hrs as [-> _]. by apply (ok_ids l Hok).
  - intros s Hs. apply Forall2_flip in Hall. destruct (Forall2_elem_l _ _ _ s Hall Hs) as (r & Hin & Hrs).
    apply active_records_elem in Hin as [Hl [k Hk]]. exists r. split_and! ; [|done..].
    destruct Hrs as [-> _]. by rewrite (ok_ids l Hok k r Hk).
Qed.

(** ** What an operation does *)

(** A listener ([inl]) or an agent ([inr]), by its handle. *)
Definition resource : Type := string + string.

(** The awaited calls, with what they returned. *)
Inductive call : Type :=
| Called_arm (r : result string GatewayError)
| Called_spawn_agent (r : result string GatewayError)
| Called_await_handshake (listener : string) (r : result unit GatewayError)
| Called_close (listener : string) (r : result unit GatewayError)
| Called_cleanup (agent : string) (r : result unit GatewayError).

(** A call with the ledger before and after it, or an audit event. *)
Inductive step : Type :=
| Awaited (c : call) (before after : SessionLedger)
| Recorded (kind : GatewayAuditKind) (r : result unit GatewayError).

Section traced.
Context {W : Type} `{D : GatewayDeps W}.

Definition erase (g : gateway (W * list step)) : gateway W := mkGateway (ledger g) (world g).1.

Definition note {A} (c : result A GatewayError -> call) (h : handler (gateway W) GatewayError A) :
    handler (gateway (W * list step)) GatewayError A :=
  fun g =>
    let '(r, g') := h (erase g) in
    (r, mkGateway (ledger g')
          (world g', (world g).2 ++ [Awaited (c r) (ledger g) (ledger g')])).

Definition pass {A} (f : W -> A * W) (w : W * list step) : A * (W * list step) :=
  let '(a, w') := f w.1 in (a, (w', w.2)).

(** The same side effects, with a record of the calls. *)
#[global] Instance traced : GatewayDeps (W * list step) := {
  spawn_agent req := note Called_spawn_agent (spawn_agent req);
  cleanup h := note (Called_cleanup h) (cleanup h);
  arm ctx binding secret := note Called_arm (arm ctx binding secret);
  await_handshake h := note (Called_await_handshake h) (await_handshake h);
  close_listener h := note (Called_close h) (close_listener h);
  now_unix := pass now_unix;
  new_session_id := pass new_session_id;
  new_secret := pass new_secret;
  record_event ev w :=
    let '(r, w') := record_event ev w.1 in (r, (w', w.2 ++ [Recorded (kind ev) r]))
}.

(** *** The record changes nothing *)

Create HintDb erases.

Definition erases {A} (m : handler (gateway (W * list step)) GatewayError A)
    (m' : handler (gateway W) GatewayError A) : Prop :=
  forall g, m' (erase g) = let '(r, g') := m g in (r, erase g').

Lemma erases_bind {A B} (m : handler (gateway (W * list step)) GatewayError A) m'
    (k : A -> handler (gateway (W * list step)) GatewayError B) k' :
  erases m m' -> (forall a, erases (k a) (k' a)) -> erases (h_bind m k) (h_bind m' k').
Proof.
  intros Hm Hk g. unfold h_bind. rewrite Hm. destruct (m g) as [[a|e] g']; [apply Hk|done].
Qed.

Lemma erases_get {B} (k : gateway (W * list step) -> handler (gateway (W * list step)) GatewayError B) k' :
  (forall g, erases (k g) (k' (erase g))) -> erases (h_bind h_get k) (h_bind h_get k').
Proof. intros H g. apply (H g g). Qed.

Lemma erases_note {A} (c : result A GatewayError -> call) h : erases (note c h) h.
Proof. intros g. unfold note, erase. by destruct (h _) as [r []]. Qed.

Lemma erases_ledger {A} (h : handler SessionLedger GatewayError A) :
  erases (on_ledger h) (on_ledger h).
Proof. intros g. unfold on_ledger, erase. simpl. by destruct (h (ledger g)). Qed.

Lemma erases_fresh {A} (f : W -> A * W) : erases (fresh (pass f)) (fresh f).
Proof. intros g. unfold fresh, on_world, pass, erase. simpl. by destruct (f (world g).1). Qed.

Lemma erases_ignore {A} (m : handler (gateway (W * list step)) GatewayError A) m' :
  erases m m' -> erases (ignore m) (ignore m').
Proof. intros H g. unfold ignore. rewrite H. by destruct (m g). Qed.

Lemma erases_or_undo {A} (m : handler (gateway (W * list step)) GatewayError A) m' u u' :
  erases m m' -> erases u u' -> erases (or_undo m u) (or_undo m' u').
Proof.
  intros H Hu g. unfold or_undo. rewrite H. destruct (m g) as [[a|e] g']; [done|].
  rewrite Hu. by destruct (u g').
Qed.

Lemma erases_audit kind seed decision sid st slug :
  erases (audit kind seed decision sid st slug) (audit kind seed decision sid st slug).
Proof.
  intros g. unfold audit, on_world, erase. cbn. by destruct (record_event _ (world g).1).
Qed.

Lemma erases_ret {A} (a : A) : erases (h_ret a) (h_ret a).
Proof. by intros g. Qed.

Lemma erases_arm ctx binding secret : erases (arm ctx binding secret) (arm ctx binding secret).
Proof. apply erases_note. Qed.

Lemma erases_spawn req : erases (spawn_agent req) (spawn_agent req).
Proof. apply erases_note. Qed.

Lemma erases_await h : erases (await_handshake h) (await_handshake h).
Proof. apply erases_note. Qed.

Lemma erases_close_listener h : erases (close_listener h) (close_listener h).
Proof. apply erases_note. Qed.

Lemma erases_cleanup h : erases (cleanup h) (cleanup h).
Proof. apply erases_note. Qed.

Hint Resolve erases_bind erases_arm erases_spawn erases_await erases_close_listener erases_cleanup
  erases_ledger erases_fresh erases_ignore erases_or_undo
  erases_audit erases_ret : erases.

Lemma erases_drive_open ctx binding secret app :
  erases (drive_open ctx binding secret app) (drive_open ctx binding secret app).
Proof. unfold drive_open. auto 20 with erases. Qed.

Lemma erases_open_accepted id seed app :
  erases (open_accepted id seed app) (open_accepted id seed app).
Proof.
  unfold open_accepted, audit_open_admitted, audit_running, fail_session.
  apply erases_bind; [apply erases_fresh|]. intros now.
  apply erases_get. intros g. apply erases_bind; [apply erases_fresh|]. auto 20 using erases_drive_open with erases.
Qed.

Lemma erases_open realm_target seed app hash :
  erases (open realm_target seed app hash) (open realm_target seed app hash).
Proof.
  unfold open. apply erases_bind; [apply erases_fresh|]. intros new_id g.
  rewrite (erases_ledger _ g). destruct (on_ledger _ g) as [[[k|k]|e] g'].
  - apply erases_open_accepted.
  - done.
  - revert g'. apply erases_bind; [apply erases_audit|]. by intros _ g'.
Qed.

Lemma erases_close o : erases (close o) (close o).
Proof.
  unfold close. apply erases_bind; [auto with erases|]. intros _ g.
  rewrite (erases_close_listener (listener o) g). destruct (close_listener _ g) as [rl g1].
  rewrite (erases_cleanup (agent o) g1). destruct (cleanup _ g1) as [ra g2].
  revert g2. apply erases_bind; [auto with erases|]. by intros _ g2.
Qed.

End traced.

(** ** What is left behind *)

Definition acquired (s : step) : option resource :=
  match s with
  | Awaited (Called_arm (Ok h)) _ _ => Some (inl h)
  | Awaited (Called_spawn_agent (Ok h)) _ _ => Some (inr h)
  | _ => None
  end.

(** What a call was made to tear down, whatever it returned. *)
Definition torn_down (s : step) : option resource :=
  match s with
  | Awaited (Called_close h _) _ _ => Some (inl h)
  | Awaited (Called_cleanup h _) _ _ => Some (inr h)
  | _ => None
  end.

Definition left_over (t : list step) : gset resource :=
  list_to_set (omap acquired t) ∖ list_to_set (omap torn_down t).

(** While its calls were pending, no other task moved the session. *)
Definition undisturbed (id : string) (t : list step) : Prop :=
  Forall (fun s => match s with
                   | Awaited _ before after => session_state after id = session_state before id
                   | Recorded _ _ => True
                   end) t.

Section lifecycle.
Context {W : Type} `{D : GatewayDeps W}.
Abbreviation gw := (gateway (W * list step)).
Implicit Types g : gw.

Definition in_state {V} (id : string) (s : SessionState) (g : gateway V) : Prop :=
  session_state (ledger g) id = Some s.

(** A transition is made, or refused with the ledger as it was. *)
Lemma transition_outcome id s next g :
  can_transition s next ->
  (exists l, on_ledger (transition id next) g = (Ok tt, mkGateway l (world g))
             /\ in_state id next (mkGateway l (world g)))
  \/ (on_ledger (transition id next) g = (Err GatewayError_Cancelled, g) /\ ~ in_state id s g).
Proof.
  unfold in_state, session_state, on_ledger, transition. intros Hc.
  destruct (records (ledger g) !! id) as [r|] eqn:E; simpl; [|by right; destruct g].
  destruct (can_transition (state r) next) eqn:Hn; simpl.
  - left. eexists. split; [done|]. simpl. by rewrite lookup_insert_eq.
  - right. split; [by destruct g|]. intros [= <-]. by rewrite Hn in Hc.
Qed.

Lemma transition_done id s next g :
  in_state id s g -> can_transition s next ->
  exists l, on_ledger (transition id next) g = (Ok tt, mkGateway l (world g))
            /\ in_state id next (mkGateway l (world g)).
Proof. intros Hs Hc. destruct (transition_outcome id s next g Hc) as [?|[_ Hn]]; [done|by destruct Hn]. Qed.

(** An awaited call adds its step, and may leave the ledger in any state. *)
Lemma note_step {A} (c : result A GatewayError -> call) h g r g' :
  note c h g = (r, g') ->
  (world g').2 = (world g).2 ++ [Awaited (c r) (ledger g) (ledger g')].
Proof. unfold note. destruct (h (erase g)). by intros [= <- <-]. Qed.

Lemma quiet_state id s c (l : SessionLedger) g' t :
  session_state l id = Some s -> undisturbed id (Awaited c l (ledger g') :: t) -> in_state id s g'.
Proof. intros Hs [He _]%Forall_cons. unfold in_state. congruence. Qed.

Lemma drive_open_trace ctx binding secret app g r g' :
  let id := ctx_session_id ctx in
  in_state id Minting g -> drive_open ctx binding secret app g = (r, g') ->
  exists t, (world g').2 = (world g).2 ++ t
  /\ match r with
     | Ok o => open_session_id o = id /\ in_state id Running g'
               /\ left_over t = {[inl (listener o); inr (agent o)]}
     | Err e =>
         (left_over t = ∅ \/ (~ undisturbed id t /\ e = GatewayError_Cancelled))
         /\ (undisturbed id t -> exists s, in_state id s g' /\ can_transition s Failed)
     end.
Proof.
  intros id Hs. unfold drive_open. fold id. unfold_handler.
  destruct (transition_done id _ ListenerArming g Hs I) as (l1 & -> & Hs1).
  destruct (arm _ _ _ _) as [[h|e] g2] eqn:E2; apply note_step in E2; cbn [world ledger] in E2.
  2: { intros [= <- <-]. eexists. split; [exact E2|]. split; [by left|].
       intros Hu. exists ListenerArming. split; [by eapply quiet_state|done]. }
  destruct (transition_outcome id ListenerArming AgentSpawning g2 I) as [(l3 & -> & Hs3)|[-> Hn]].
  2: { intros [= <- <-]. eexists. split; [exact E2|].
       enough (~ undisturbed id [Awaited (Called_arm (Ok h)) l1 (ledger g2)]) by tauto.
       intros Hu. by apply Hn; eapply quiet_state. }
  unfold or_undo at 1.
  destruct (spawn_agent _ _) as [[a|e] g4] eqn:E4; apply note_step in E4; cbn [world ledger] in E4;
    rewrite E2, <- app_assoc in E4; cbn [Datatypes.app] in E4.
  2: { unfold ignore. destruct (close_listener h g4) as [rc g5] eqn:E5; apply note_step in E5.
       rewrite E4, <- app_assoc in E5; cbn [Datatypes.app] in E5. intros [= <- <-]. eexists. split; [exact E5|]. split.
       - left. unfold left_over. simpl. set_solver.
       - intros [_ [H4 [H5 _]%Forall_cons]%Forall_cons]%Forall_cons. exists AgentSpawning.
         split; [|done]. unfold in_state in *. cbn [ledger] in Hs3. congruence. }
  destruct (transition_outcome id AgentSpawning AwaitingHandshake g4 I) as [(l5 & -> & Hs5)|[-> Hn]].
  2: { intros [= <- <-]. eexists. split; [exact E4|].
       match type of E4 with _ = _ ++ ?t => enough (~ undisturbed id t) by tauto end.
       intros [_ Hu]%Forall_cons. by apply Hn; eapply quiet_state. }
  unfold or_undo at 1.
  destruct (await_handshake h _) as [[[]|e] g6] eqn:E6; apply note_step in E6;
    cbn [world ledger] in E6; rewrite E4, <- app_assoc in E6; cbn [Datatypes.app] in E6.
  2: { unfold ignore. destruct (cleanup a g6) as [ra g7] eqn:E7; apply note_step in E7.
       rewrite E6, <- app_assoc in E7; cbn [Datatypes.app] in E7.
       destruct (close_listener h g7) as [rc g8] eqn:E8; apply note_step in E8.
       rewrite E7, <- app_assoc in E8; cbn [Datatypes.app] in E8. intros [= <- <-]. eexists. split; [exact E8|]. split.
       - left. unfold left_over. simpl. set_solver.
       - intros [_ [_ [H6 [H7 [H8 _]%Forall_cons]%Forall_cons]%Forall_cons]%Forall_cons]%Forall_cons. exists AwaitingHandshake.
         split; [|done]. unfold in_state in *. cbn [ledger] in Hs5. congruence. }
  destruct (transition_outcome id AwaitingHandshake Running g6 I) as [(l7 & -> & Hs7)|[-> Hn]].
  - intros [= <- <-]. eexists. split; [exact E6|]. cbn [open_session_id listener agent].
    split_and! ; [done|done|]. unfold left_over. simpl. set_solver.
  - intros [= <- <-]. eexists. split; [exact E6|].
    match type of E6 with _ = _ ++ ?t => enough (~ undisturbed id t) by tauto end.
    intros [_ [_ Hu]%Forall_cons]%Forall_cons. by apply Hn; eapply quiet_state.
Qed.

Lemma fail_session_failed id s g :
  in_state id s g -> can_transition s Failed ->
  exists l, fail_session id g = (Ok tt, mkGateway l (world g))
            /\ in_state id Failed (mkGateway l (world g)).
Proof.
  intros Hs Hc. destruct (transition_done id s Failed g Hs Hc) as (l & E & Hl).
  exists l. unfold fail_session, ignore. by rewrite E.
Qed.

Lemma fail_session_world id g : world (fail_session id g).2 = world g.
Proof.
  unfold fail_session, ignore, on_ledger. by destruct (transition id Failed (ledger g)).
Qed.

Lemma audit_step kind seed decision sid st slug g r g' :
  audit kind seed decision sid st slug g = (r, g') ->
  ledger g' = ledger g /\ (world g').2 = (world g).2 ++ [Recorded kind r].
Proof.
  unfold audit, on_world. cbn. destruct (record_event _ _). by intros [= <- <-].
Qed.

(** How an accepted open can fail: the admission could not be recorded; the
    session was torn down and failed, unless it was disturbed; or it runs and
    that could not be recorded. *)
Definition fails (id : string) (e : GatewayError) (t : list step) (s : option SessionState) : Prop :=
  (t = [Recorded DisplaySessionOpenAdmitted (Err e)] /\ s = Some Minting)
  \/ ((left_over t = ∅ \/ (~ undisturbed id t /\ e = GatewayError_Cancelled))
      /\ (undisturbed id t -> s = Some Failed))
  \/ (last t = Some (Recorded DisplaySessionRunning (Err e)) /\ s = Some Running
      /\ exists listener agent, left_over t = {[inl listener; inr agent]}).

Lemma left_over_recorded k r t k' r' :
  left_over (Recorded k r :: t ++ [Recorded k' r']) = left_over t.
Proof. unfold left_over. simpl. rewrite !omap_app. simpl. by rewrite !app_nil_r. Qed.

Lemma open_accepted_trace id seed app g r g' :
  in_state id Minting g -> (world g).2 = [] -> open_accepted id seed app g = (r, g') ->
  match r with
  | Ok o => open_session_id o = id /\ in_state id Running g'
            /\ left_over (world g').2 = {[inl (listener o); inr (agent o)]}
  | Err e => fails id e (world g').2 (session_state (ledger g') id)
  end.
Proof.
  intros Hs Ht. unfold open_accepted, fresh, on_world. unfold_handler. cbn [now_unix new_secret traced].
  unfold pass. destruct (now_unix (world g).1) as [now w1]. cbn [fst snd world ledger].
  destruct (new_secret w1) as [secret w2]. cbn [fst snd world ledger].
  unfold audit_open_admitted, audit_running.
  destruct (audit _ _ _ _ _ _ _) as [[[]|e] g3] eqn:E3; apply audit_step in E3 as [El3 Et3];
    cbn [world ledger fst snd] in El3, Et3; rewrite Ht in Et3.
  2: { intros [= <- <-]. left. split; [exact Et3|]. rewrite El3. exact Hs. }
  assert (in_state id Minting g3) as Hs3 by (unfold in_state; by rewrite El3).
  unfold or_undo. destruct (drive_open _ _ _ _ _) as [[o|e] g4] eqn:E4;
    apply drive_open_trace in E4 as (t & Et4 & Hr); try exact Hs3; rewrite Et3 in Et4;
    cbn [ctx_session_id] in Hr.
  - destruct Hr as (Ho & Hrun & Hleft). rewrite Ho.
    destruct (audit _ _ _ _ _ _ g4) as [[[]|e] g5] eqn:E5; apply audit_step in E5 as [El5 Et5];
      rewrite Et4 in Et5; cbn [Datatypes.app] in Et5; intros [= <- <-];
      assert (in_state id Running g5) as Hr5 by (unfold in_state; by rewrite El5).
    + rewrite Et5, left_over_recorded. done.
    + right. right. split_and! ; [by rewrite Et5, last_cons, last_snoc|done|].
      exists (listener o), (agent o). by rewrite Et5, left_over_recorded.
  - pose proof (fail_session_world id g4) as Hw.
    destruct (fail_session id g4) as [rf g5] eqn:Ef. cbn [snd] in Hw.
    intros [= <- <-]. right. left. rewrite Hw, Et4. cbn [Datatypes.app].
    destruct Hr as [Hleft Hstate]. split.
    + destruct Hleft as [Hl|[Hn ->]]; [by left|right]. split; [|done].
      by intros [_ Hu]%Forall_cons.
    + intros [_ Hu]%Forall_cons. destruct (Hstate Hu) as (s & Hs4 & Hc).
      destruct (fail_session_failed id s g4 Hs4 Hc) as (l & E & Hf).
      rewrite Ef in E. by simplify_eq.
Qed.

Lemma close_trace o g r g' :
  (world g).2 = [] -> close o g = (r, g') ->
  exists rl ra l1 l2 l3 l4,
    (world g').2 = [Awaited (Called_close (listener o) rl) l1 l2;
                    Awaited (Called_cleanup (agent o) ra) l3 l4]
    /\ r = result_and rl ra
    /\ (in_state (open_session_id o) Running g -> undisturbed (open_session_id o) (world g').2 ->
        in_state (open_session_id o) Closed g').
Proof.
  set (id := open_session_id o). intros Ht. unfold close. fold id. unfold_handler. unfold ignore.
  destruct (on_ledger (transition id Stopping) g) as [r0 g1] eqn:E1.
  assert (world g1 = world g) as Hw1.
  { unfold on_ledger in E1. destruct (transition _ _ _). by simplify_eq. }
  destruct (close_listener _ _) as [rl g2] eqn:E2; apply note_step in E2; rewrite Hw1, Ht in E2.
  destruct (cleanup _ _) as [ra g3] eqn:E3; apply note_step in E3; rewrite E2 in E3.
  destruct (on_ledger (transition id Closed) g3) as [r4 g4] eqn:E4.
  assert (world g4 = world g3) as Hw4.
  { unfold on_ledger in E4. destruct (transition _ _ _). by simplify_eq. }
  intros [= <- <-]. rewrite Hw4, E3. eexists _, _, _, _, _, _. split; [done|]. split; [done|].
  intros Hs [H1 [H2 _]%Forall_cons]%Forall_cons.
  destruct (transition_done id _ Stopping g Hs I) as (l & E & Hs1). rewrite E1 in E. simplify_eq.
  assert (in_state id Stopping g3) as Hs3 by (unfold in_state in *; congruence).
  destruct (transition_done id _ Closed g3 Hs3 I) as (l' & E & Hs4). rewrite E4 in E. by simplify_eq.
Qed.
End lifecycle.


(** ** A small world *)

Record demo_world := mkDemoWorld {
  dw_held : gmap string (gset resource);
  dw_spawn_fails : bool
}.

Definition demo_held (w : demo_world) (id : string) : gset resource := default ∅ (dw_held w !! id).

Definition demo_acquire (id : string) (x : resource) (g : gateway demo_world) : gateway demo_world :=
  let w := world g in
  mkGateway (ledger g)
    (mkDemoWorld (<[id := {[x]} ∪ demo_held w id]> (dw_held w)) (dw_spawn_fails w)).

Definition demo_release (x : resource) (g : gateway demo_world) : gateway demo_world :=
  let w := world g in
  mkGateway (ledger g)
    (mkDemoWorld ((fun s => s ∖ {[x]}) <$> dw_held w) (dw_spawn_fails w)).

(** Handles are named after their session; what the handshake and the audit
    sink do varies. *)
Definition demo_deps_with (handshake : string -> handler (gateway demo_world) GatewayError unit)
    (sink : GatewayAuditEvent -> handler demo_world GatewayError unit) : GatewayDeps demo_world := {|
  spawn_agent req g :=
    let id := ctx_session_id (req_ctx req) in
    if dw_spawn_fails (world g) then (Err GatewayError_ProviderAllocationFailed, g)
    else (Ok ("agent-" +:+ id), demo_acquire id (inr ("agent-" +:+ id)) g);
  cleanup h g := (Ok tt, demo_release (inr h) g);
  arm ctx _ _ g :=
    let id := ctx_session_id ctx in
    (Ok ("listener-" +:+ id), demo_acquire id (inl ("listener-" +:+ id)) g);
  await_handshake := handshake;
  close_listener h g := (Ok tt, demo_release (inl h) g);
  now_unix w := (1000%N, w);
  new_session_id w := ("s1", w);
  new_secret w := (chars "secret", w);
  record_event := sink
|}.

#[local] Instance demo_deps : GatewayDeps demo_world :=
  demo_deps_with (fun _ g => (Ok tt, g)) (fun _ w => (Ok tt, w)).

Definition demo_seed : ContextSeed :=
  mkContextSeed ["work"] "op-1" "corr-1" "alice" "gateway" "demo".

Definition demo_gateway (spawn_fails : bool) : gateway demo_world :=
  mkGateway (Ledger.new 1 LedgerLimits_default) (mkDemoWorld ∅ spawn_fails).

Lemma list_sessions_typed_witness :
  exists summaries, list_sessions demo_ledger = Ok summaries
    /\ StronglySorted ord_lt (sum_session_id <$> summaries)
    /\ (forall k r, records demo_ledger !! k = Some r -> live r ->
          exists s, s ∈ summaries /\ sum_session_id s = k /\ summarises r s)
    /\ (forall s, s ∈ summaries ->
          exists r, records demo_ledger !! sum_session_id s = Some r /\ live r /\ summarises r s).
Proof.
  apply (list_sessions_typed 1 LedgerLimits_default demo_ledger).
  apply rtc_once. apply (typed_step_open _ demo_target "alice" "op-1" 42 "s1").
  split; [exists ["work"]; repeat constructor|..]; by vm_compute.
Defined.

(** ** Sessions the compensation does not reach *)

Section stranded.
Let down : GatewayDeps demo_world :=
  demo_deps_with (fun _ g => (Ok tt, g))
    (fun ev w => match kind ev with
                 | DisplaySessionRunning => (Err GatewayError_AuditUnavailable, w)
                 | _ => (Ok tt, w)
                 end).

(** When the sink cannot record the running session, [open] returns the error
    with the session running: its handles are lost, and its target stays
    busy. *)
Example audit_failure_strands :
  let '(r, g) := open (H := down) demo_target demo_seed ["foot"] 7 (demo_gateway false) in
  r = Err GatewayError_AuditUnavailable
  /\ session_state (ledger g) "s1" = Some Running
  /\ size (demo_held (world g) "s1") = 2
  /\ (Ledger.open demo_target "bob" "op-2" 8 "s2" (ledger g)).1 = Err GatewayError_Busy.
Proof. by vm_compute. Qed.

(** A retry of an open that failed is answered as a replay: [Ok], with no
    handles, for a session that does not run. *)
Example failed_open_replayed :
  let '(_, g) := open demo_target demo_seed ["foot"] 7 (demo_gateway true) in
  let '(r, g) := open demo_target demo_seed ["foot"] 7 g in
  r = Ok (mkOpenSession "s1" "" "") /\ session_state (ledger g) "s1" = Some Failed.
Proof. by vm_compute. Qed.

(** A caller that retried while the first open was waiting for the handshake,
    and closes what it was given, ends the session under the first one, which
    then fails without tearing anything down. *)
Let closing : GatewayDeps demo_world :=
  demo_deps_with
    (fun _ g => (Ok tt, (close (H := demo_deps) (mkOpenSession "s1" "" "") g).2))
    (fun _ w => (Ok tt, w)).

Example close_during_open_leaks :
  let '(r, g) := open (H := closing) demo_target demo_seed ["foot"] 7 (demo_gateway false) in
  r = Err GatewayError_Cancelled
  /\ session_state (ledger g) "s1" = Some Closed
  /\ size (demo_held (world g) "s1") = 2.
Proof. by vm_compute. Qed.
End stranded.

End Orchestrator.
