(* ===== verification/Circuit.v ===== *)
(** * The provider circuit breaker ([d2b-realm-provider])

    [rate_limit.rs], with the [RetryHint] of [error.rs] and the request wrapper
    of [d2b-provider-aca].  Durations are nanoseconds, saturating where the
    source saturates; an [Instant] is a number of nanoseconds, without the
    platform's bound on instants.  A failing [debug_assert!] is [None].  The
    text of an error is left out: an error is the hint it carries. *)

From S2P Require Import Prelude.

Module Circuit.

(** ** Retry hints *)

Definition Duration : Type := N.
Definition Instant : Type := N.

Definition MILLI : N := 1000000.
Definition SEC : N := 1000000000.

(** [Duration::MAX] *)
Definition DURATION_MAX : Duration := (u64_max * SEC + 999999999)%N.

Definition duration_saturating_add (a b : Duration) : Duration := N.min (a + b) DURATION_MAX.
Definition duration_saturating_mul (a : Duration) (k : N) : Duration := N.min (a * k) DURATION_MAX.

(** [saturating_duration_since] *)
Definition since (now earlier : Instant) : Duration := (now - earlier)%N.

Record RetryHint := mkRetryHint {
  retry_after : Duration;
  applied_backoff : Duration
}.

#[global] Instance RetryHint_eq_dec : EqDecision RetryHint.
Proof. solve_decision. Defined.

Definition bounded (retry_after jitter max : Duration) : RetryHint :=
  let applied := N.min (duration_saturating_add retry_after jitter) max in
  mkRetryHint (N.min retry_after max) applied.

Record CircuitBreakerConfig := mkCircuitBreakerConfig {
  failure_threshold : N;
  default_open_for : Duration;
  probe_timeout : Duration;
  max_open_for : Duration
}.

(** [CircuitBreakerConfig::default] *)
Definition CircuitBreakerConfig_default : CircuitBreakerConfig :=
  mkCircuitBreakerConfig 3 (10 * SEC)%N (30 * SEC)%N (300 * SEC)%N.

Definition deterministic_jitter_ms (seed : N) : Duration :=
  (u64_wrap (seed * 97) mod 501 * MILLI)%N.

Definition retry_hint_for_failures (config : CircuitBreakerConfig) (failures : N) : RetryHint :=
  let exponent := N.min (failures - failure_threshold config) 8 in
  let factor := if (exponent <? 32)%N then N.shiftl 1 exponent else u32_max in
  let base := duration_saturating_mul (default_open_for config) factor in
  let jitter := deterministic_jitter_ms failures in
  bounded base jitter (max_open_for config).

(** ** The breaker *)

Inductive CircuitState : Type :=
| Closed
| Open (until : Instant)
| ProbeInFlight (started : Instant).

#[global] Instance CircuitState_eq_dec : EqDecision CircuitState.
Proof. solve_decision. Defined.

Record CircuitInner := mkCircuitInner {
  state : CircuitState;
  epoch : N;
  failures : N;
  last_hint : option RetryHint
}.

Record CircuitPermit := mkCircuitPermit {
  probe : bool;
  permit_epoch : N
}.

#[global] Instance CircuitPermit_eq_dec : EqDecision CircuitPermit.
Proof. solve_decision. Defined.

(** [ProviderError::rate_limited] *)
Inductive ProviderError : Type :=
| rate_limited (retry_hint : RetryHint).

Definition new : CircuitInner := mkCircuitInner Closed 0 0 None.

Definition u32_saturating_succ (n : N) : N := N.min (n + 1) u32_max.

Definition next_epoch (inner : CircuitInner) : N := u64_saturating_add (epoch inner) 1.

Definition start_probe_locked (inner : CircuitInner) (now : Instant) : CircuitInner :=
  mkCircuitInner (ProbeInFlight now) (next_epoch inner) (failures inner) (last_hint inner).

Definition is_open (s : CircuitState) : bool := match s with Open _ => true | _ => false end.

Definition is_probing (s : CircuitState) : bool :=
  match s with ProbeInFlight _ => true | _ => false end.

Definition open_until_locked (inner : CircuitInner) (until : Instant) (hint : RetryHint) :
    option CircuitInner :=
  if is_open (state inner) then None
  else Some (mkCircuitInner (Open until) (next_epoch inner)
               (u32_saturating_succ (failures inner)) (Some hint)).

Definition open_locked (inner : CircuitInner) (now : Instant) (hint : RetryHint) :
    option CircuitInner :=
  let requested_until := (now + applied_backoff hint)%N in
  if is_open (state inner) then None else open_until_locked inner requested_until hint.

Section breaker.
Context (config : CircuitBreakerConfig).

Definition before_request (now : Instant) (inner : CircuitInner) :
    option (result CircuitPermit ProviderError * CircuitInner) :=
  let refuse after inner :=
    Some (Err (rate_limited (bounded after 0%N (max_open_for config))), inner) in
  match state inner with
  | Closed => Some (Ok (mkCircuitPermit false (epoch inner)), inner)
  | ProbeInFlight started =>
      if (probe_timeout config <=? since now started)%N then
        let hint := retry_hint_for_failures config (u32_saturating_succ (failures inner)) in
        let failed_at := (started + probe_timeout config)%N in
        let until := (failed_at + applied_backoff hint)%N in
        if (until <=? now)%N then
          let inner := mkCircuitInner (state inner) (epoch inner)
                         (u32_saturating_succ (failures inner)) (Some hint) in
          let inner := start_probe_locked inner now in
          Some (Ok (mkCircuitPermit true (epoch inner)), inner)
        else
          inner ← open_until_locked inner until hint;
          refuse (since until now) inner
      else refuse (probe_timeout config) inner
  | Open until =>
      if (until <=? now)%N then
        let inner := start_probe_locked inner now in
        Some (Ok (mkCircuitPermit true (epoch inner)), inner)
      else refuse (since until now) inner
  end.

Definition record_success (permit : CircuitPermit) (inner : CircuitInner) : CircuitInner :=
  if negb (permit_epoch permit =? epoch inner)%N then inner
  else if is_open (state inner) || (is_probing (state inner) && negb (probe permit)) then inner
  else mkCircuitInner Closed
         (if bool_decide (state inner = Closed) then epoch inner else next_epoch inner) 0 None.

Definition record_rate_limited (now : Instant) (hint : RetryHint) (permit : CircuitPermit)
    (inner : CircuitInner) : option CircuitInner :=
  if negb (permit_epoch permit =? epoch inner)%N then
    match state inner with
    | Open until =>
        let requested_until := (now + applied_backoff hint)%N in
        Some (if (until <? requested_until)%N
              then mkCircuitInner (Open requested_until) (epoch inner) (failures inner) (Some hint)
              else inner)
    | _ => Some inner
    end
  else if is_probing (state inner) && negb (probe permit) then Some inner
  else open_locked inner now hint.

Definition record_transient_failure (now : Instant) (permit : CircuitPermit)
    (inner : CircuitInner) : option CircuitInner :=
  if negb (permit_epoch permit =? epoch inner)%N then Some inner
  else
    match state inner with
    | ProbeInFlight _ =>
        if probe permit
        then open_locked inner now
               (retry_hint_for_failures config (u32_saturating_succ (failures inner)))
        else Some inner
    | Closed =>
        let next_failures := u32_saturating_succ (failures inner) in
        if (failure_threshold config <=? next_failures)%N
        then open_locked inner now (retry_hint_for_failures config next_failures)
        else Some (mkCircuitInner (state inner) (epoch inner) next_failures (last_hint inner))
    | Open _ => Some inner
    end.

Definition record_cancellation (now : Instant) (permit : CircuitPermit) (inner : CircuitInner) :
    option CircuitInner :=
  if probe permit && (permit_epoch permit =? epoch inner)%N && is_probing (state inner)
  then open_locked inner now
         (retry_hint_for_failures config (u32_saturating_succ (failures inner)))
  else Some inner.

Record CircuitBreakerSnapshot := mkCircuitBreakerSnapshot {
  snap_state : string;
  snap_failures : N;
  snap_remaining : option Duration;
  snap_retry_hint : option RetryHint
}.

Definition snapshot (now : Instant) (inner : CircuitInner) : CircuitBreakerSnapshot :=
  let '(s, remaining) :=
    match state inner with
    | Closed => ("closed", None)
    | ProbeInFlight _ => ("probe-in-flight", None)
    | Open until => ("open", Some (since until now))
    end in
  mkCircuitBreakerSnapshot s (failures inner) remaining (last_hint inner).

(** How a request ends: a response with its status and the hint of its
    headers, a transport error, or the caller dropped it. *)
Inductive outcome : Type :=
| Response (status : N) (hint : RetryHint)
| TransportError
| Dropped.

(** What [AcaWorkloadProvider::request] reports, the [ProbeGuard] included. *)
Definition report (now : Instant) (permit : CircuitPermit) (o : outcome) (inner : CircuitInner) :
    option CircuitInner :=
  match o with
  | Response status hint =>
      if (status =? 429)%N then record_rate_limited now hint permit inner
      else if ((500 <=? status) && (status <=? 599))%N then record_transient_failure now permit inner
      else if (status <? 500)%N then Some (record_success permit inner)
      else Some inner
  | TransportError => record_transient_failure now permit inner
  | Dropped => if probe permit then record_cancellation now permit inner else Some inner
  end.

(** ** Requests in any interleaving *)

(** The breaker, every permit it has given out, and the latest instant any
    call was made at.  [None] is a failed assertion. *)
Record system := mkSystem {
  breaker : CircuitInner;
  issued : list CircuitPermit;
  clock : Instant
}.

(** [longest] bounds the backoff a response may ask for. *)
Inductive sys_step (longest : Duration) (s : system) : option system -> Prop :=
| step_request now r :
    before_request now (breaker s) = r ->
    sys_step longest s
      (match r with
       | Some (Ok p, inner) => Some (mkSystem inner (p :: issued s) (N.max (clock s) now))
       | Some (Err _, inner) => Some (mkSystem inner (issued s) (N.max (clock s) now))
       | None => None
       end)
| step_report now p o :
    p ∈ issued s ->
    (forall status hint, o = Response status hint -> (applied_backoff hint <= longest)%N) ->
    sys_step longest s
      ((fun inner => mkSystem inner (issued s) (N.max (clock s) now))
       <$> report now p o (breaker s)).

Definition start : system := mkSystem new [] 0%N.

(** Systems reached before the epoch counter saturates; a system whose step
    asserted has no successor. *)
Definition reachable (longest : Duration) : system -> Prop :=
  rtc (fun s s' => (epoch (breaker s) < u64_max)%N /\ sys_step longest s (Some s')) start.

(** ** Safety *)

(** The epoch separates the permits: one given out before the breaker last
    changed state never carries the current epoch, except that a closed
    breaker shares its epoch among ordinary permits and a probing one gives
    its own to its only probe. *)
Record safe (s : system) : Prop := {
  safe_epoch p : p ∈ issued s -> (permit_epoch p <= epoch (breaker s))%N;
  safe_probes : NoDup (permit_epoch <$> filter probe (issued s));
  safe_state :
    match state (breaker s) with
    | Closed => forall p, p ∈ issued s -> permit_epoch p = epoch (breaker s) -> probe p = false
    | Open _ => forall p, p ∈ issued s -> permit_epoch p <> epoch (breaker s)
    | ProbeInFlight _ =>
        exists p, p ∈ issued s /\ probe p = true /\ permit_epoch p = epoch (breaker s)
          /\ forall q, q ∈ issued s -> permit_epoch q = epoch (breaker s) -> q = p
    end
}.

Definition shape (s : CircuitState) : bool * bool := (is_open s, is_probing s).

(** What a report does to the breaker. *)
Definition evolves (inner inner' : CircuitInner) : Prop :=
  (epoch inner' = epoch inner /\ shape (state inner') = shape (state inner))
  \/ (epoch inner' = next_epoch inner /\ is_probing (state inner') = false).

Lemma open_locked_evolves inner now hint :
  is_open (state inner) = false ->
  exists inner', open_locked inner now hint = Some inner' /\ evolves inner inner'.
Proof.
  intros Ho. unfold open_locked, open_until_locked. rewrite Ho. eexists. split; [done|]. by right.
Qed.

Lemma report_evolves now p o inner :
  (is_open (state inner) = true -> permit_epoch p <> epoch inner) ->
  exists inner', report now p o inner = Some inner' /\ evolves inner inner'.
Proof.
  intros Hopen.
  assert (evolves inner inner) as Hrefl by by left.
  assert (exists inner', record_transient_failure now p inner = Some inner' /\ evolves inner inner')
    as Ht.
  { unfold record_transient_failure. destruct (negb _); [eauto|].
    destruct (state inner) as [|u|st] eqn:Es; [|eauto|].
    - case_match; [apply open_locked_evolves; by rewrite Es|].
      eexists. split; [done|]. left. simpl. by rewrite Es.
    - case_match; [apply open_locked_evolves; by rewrite Es|eauto]. }
  destruct o as [status hint| |]; simpl; [|done|].
  - destruct (status =? 429)%N.
    { unfold record_rate_limited. destruct (N.eqb_spec (permit_epoch p) (epoch inner)) as [He|He]; simpl.
      - destruct (_ && _); [eauto|]. apply open_locked_evolves.
        destruct (is_open (state inner)) eqn:E; [|done]. by destruct Hopen.
      - destruct (state inner) as [|u|st] eqn:Es; [eauto| |eauto].
        case_match; eexists; (split; [done|]); left; simpl; by rewrite Es. }
    destruct (_ && _); [done|]. destruct (status <? 500)%N; [|eauto].
    eexists. split; [done|]. unfold record_success. destruct (negb _); [done|].
    destruct (_ || _); [done|]. case_bool_decide as Ec; [left|by right]. simpl. by rewrite Ec.
  - destruct (probe p) eqn:Ep; [|eauto]. unfold record_cancellation. rewrite Ep. simpl.
    destruct (_ && _) eqn:Ec; [|eauto]. apply andb_true_iff in Ec as [_ Ec].
    apply open_locked_evolves. by destruct (state inner).
Qed.

Lemma next_epoch_succ inner : (epoch inner < u64_max)%N -> next_epoch inner = (epoch inner + 1)%N.
Proof. unfold next_epoch, u64_saturating_add. lia. Qed.

(** A change of state under a new epoch leaves every permit behind. *)
Lemma bump_safe s inner' c :
  safe s -> (epoch (breaker s) < epoch inner')%N -> is_probing (state inner') = false ->
  safe (mkSystem inner' (issued s) c).
Proof.
  intros [He Hn _] Hlt Hp. split; simpl; [|done|].
  - intros p Hi%He. lia.
  - destruct (state inner'); [| |done]; intros p Hi%He; lia.
Qed.

Lemma evolves_safe s inner' c :
  safe s -> (epoch (breaker s) < u64_max)%N -> evolves (breaker s) inner' ->
  safe (mkSystem inner' (issued s) c).
Proof.
  intros Hs Hlt [[He Hsh]|[He Hp]].
  - destruct Hs as [Hle Hn Hst]. unfold shape in Hsh.
    destruct (state (breaker s)) eqn:E1, (state inner') eqn:E2; simplify_eq/=;
      (split; simpl; [rewrite He; done|done|rewrite E2, He; done]).
  - apply bump_safe; [done| |done]. rewrite He, next_epoch_succ by done. lia.
Qed.

Lemma probe_safe s inner' c now :
  safe s -> (epoch (breaker s) < epoch inner')%N -> state inner' = ProbeInFlight now ->
  safe (mkSystem inner' (mkCircuitPermit true (epoch inner') :: issued s) c).
Proof.
  intros [He Hn _] Hlt Hp. split; cbn [issued breaker].
  - intros p [->|Hi%He]%elem_of_cons; simpl; lia.
  - rewrite filter_cons_True by done. constructor; [|done]. intros Hin. simpl in Hin.
    apply list_elem_of_fmap in Hin as (q & E & [_ Hq%He]%list_elem_of_filter). lia.
  - rewrite Hp. eexists. split_and!; [apply list_elem_of_here|done|done|].
    intros q [->|Hi%He]%elem_of_cons Hq; [done|lia].
Qed.

Lemma request_safe now s :
  safe s -> (epoch (breaker s) < u64_max)%N ->
  exists r inner', before_request now (breaker s) = Some (r, inner')
    /\ (epoch (breaker s) <= epoch inner')%N
    /\ safe (mkSystem inner' (match r with Ok p => p :: issued s | Err _ => issued s end)
               (N.max (clock s) now)).
Proof.
  intros Hs Hlt. unfold before_request.
  destruct (state (breaker s)) as [|until|started] eqn:E.
  - do 2 eexists. split_and!; [done|done|]. destruct Hs as [He Hn Hst]. rewrite E in Hst.
    split; cbn [issued breaker].
    + intros p [->|Hi%He]%elem_of_cons; simpl; lia.
    + rewrite filter_cons_False by by intros []. done.
    + rewrite E. intros p [->|Hi]%elem_of_cons; [done|]. by apply Hst.
  - destruct (until <=? now)%N; do 2 eexists; (split_and!; [done|..]).
    + simpl. rewrite next_epoch_succ by done. lia.
    + eapply probe_safe; [done| |done]. simpl. rewrite next_epoch_succ by done. lia.
    + done.
    + apply evolves_safe; [done..|by left].
  - destruct (_ <=? _)%N; [destruct (_ <=? _)%N|].
    + do 2 eexists. split_and!; [done|simpl; rewrite next_epoch_succ by done; simpl; lia|].
      eapply probe_safe; [done| |done]. simpl. unfold next_epoch, u64_saturating_add. simpl. lia.
    + unfold open_until_locked. rewrite E. simpl. do 2 eexists.
      split_and!; [done|simpl; rewrite next_epoch_succ by done; simpl; lia|].
      apply bump_safe; [done| |done]. simpl. rewrite next_epoch_succ by done. lia.
    + do 2 eexists. split_and!; [done|done|]. apply evolves_safe; [done..|by left].
Qed.

Lemma start_safe : safe start.
Proof. split; simpl; [set_solver|constructor|set_solver]. Qed.

Lemma open_issued s p :
  safe s -> p ∈ issued s -> is_open (state (breaker s)) = true ->
  permit_epoch p <> epoch (breaker s).
Proof. intros [_ _ Hst] Hi Ho. destruct (state (breaker s)); by auto. Qed.

Lemma step_safe longest s r :
  safe s -> (epoch (breaker s) < u64_max)%N -> sys_step longest s r ->
  exists s', r = Some s' /\ safe s'.
Proof.
  intros Hs Hlt Hstep. destruct Hstep as [now r Hr|now p o Hi _].
  - destruct (request_safe now s Hs Hlt) as (a & inner' & E & _ & Hs'). subst r. rewrite E.
    destruct a; (eexists; split; [reflexivity|exact Hs']).
  - destruct (report_evolves now p o (breaker s)) as (inner' & -> & Hev).
    { by apply open_issued. }
    eexists. split; [done|]. by apply evolves_safe.
Qed.

Lemma reachable_safe longest s : reachable longest s -> safe s.
Proof.
  revert s. refine (rtc_ind_r safe start start_safe _). intros s1 s2 _ [Hlt Hstep] IH.
  destruct (step_safe longest s1 (Some s2)) as (s' & [= <-] & Hs); done.
Qed.

(** A report under an old permit does nothing, except that a rate limit can
    lengthen the window of an open breaker. *)
Lemma stale_report now p o inner :
  permit_epoch p <> epoch inner ->
  exists inner', report now p o inner = Some inner'
    /\ (inner' = inner
        \/ exists until until' hint, state inner = Open until /\ (until < until')%N
             /\ inner' = mkCircuitInner (Open until') (epoch inner) (failures inner) (Some hint)).
Proof.
  intros Hne%N.eqb_neq. unfold report, record_rate_limited, record_transient_failure,
    record_success, record_cancellation. rewrite Hne, andb_false_r. simpl.
  destruct o as [status hint| |]; [|eauto|case_match; eauto].
  destruct (status =? 429)%N; [|repeat case_match; eauto].
  destruct (state inner) as [|u|st]; [eauto| |eauto].
  destruct (N.ltb_spec u (now + applied_backoff hint)%N); eexists; (split; [done|]); [right|by left].
  do 3 eexists. split_and!; done.
Qed.

(** ** Liveness *)

(** Where the next admission is, in terms of the calls made so far. *)
Definition timed (longest : Duration) (s : system) : Prop :=
  match state (breaker s) with
  | Closed => True
  | Open until => (until <= clock s + longest)%N
  | ProbeInFlight started => (started <= clock s)%N
  end.

Lemma retry_hint_bounded n : (applied_backoff (retry_hint_for_failures config n) <= max_open_for config)%N.
Proof. unfold retry_hint_for_failures, bounded. cbn [applied_backoff]. apply N.le_min_r. Qed.

Lemma request_timed longest now s r inner' :
  (max_open_for config <= longest)%N -> timed longest s ->
  before_request now (breaker s) = Some (r, inner') ->
  forall ps, timed longest (mkSystem inner' ps (N.max (clock s) now)).
Proof.
  unfold timed, before_request. intros Hmax Ht E ps. cbn [breaker clock].
  destruct (state (breaker s)) as [|until|started] eqn:Es.
  - injection E as <- <-. by rewrite Es.
  - destruct (until <=? now)%N; injection E as <- <-; simpl; [lia|]. rewrite Es. lia.
  - destruct (N.leb_spec (probe_timeout config) (since now started)) as [Hto|];
      [destruct (_ <=? now)%N|].
    + injection E as <- <-. simpl. lia.
    + unfold open_until_locked in E. rewrite Es in E. simpl in E. injection E as <- <-.
      cbn [state]. unfold since in Hto.
      pose proof (retry_hint_bounded (u32_saturating_succ (failures (breaker s)))). lia.
    + injection E as <- <-. rewrite Es. lia.
Qed.

(** What a report leaves the breaker waiting for. *)
Lemma report_state longest now p o inner inner' :
  (max_open_for config <= longest)%N ->
  (forall status hint, o = Response status hint -> (applied_backoff hint <= longest)%N) ->
  report now p o inner = Some inner' ->
  state inner' = state inner \/ state inner' = Closed
  \/ exists until, state inner' = Open until /\ (until <= now + longest)%N.
Proof.
  intros Hmax Hhint.
  assert (forall hint i, (applied_backoff hint <= longest)%N -> open_locked inner now hint = Some i ->
            exists until, state i = Open until /\ (until <= now + longest)%N) as Hol.
  { intros hint i Hb. unfold open_locked, open_until_locked. destruct (is_open _); [done|].
    intros [= <-]. simpl. eexists. split; [done|]. lia. }
  assert (forall n i, open_locked inner now (retry_hint_for_failures config n) = Some i ->
            exists until, state i = Open until /\ (until <= now + longest)%N) as Hown.
  { intros n i. apply Hol. etrans; [apply retry_hint_bounded|done]. }
  assert (record_transient_failure now p inner = Some inner' ->
          state inner' = state inner \/ state inner' = Closed
          \/ exists until, state inner' = Open until /\ (until <= now + longest)%N) as Htf.
  { unfold record_transient_failure. intros E. run_cases; eauto. }
  destruct o as [status hint| |]; simpl; [|done|].
  - specialize (Hhint status hint eq_refl). destruct (status =? 429)%N.
    + unfold record_rate_limited. intros E. run_cases; eauto.
      right. right. eexists. split; [done|]. lia.
    + destruct (_ && _); [done|]. destruct (status <? 500)%N; intros [= <-]; [|eauto].
      unfold record_success. run_cases; eauto.
  - unfold record_cancellation. intros E. run_cases; eauto.
Qed.

(** A caller that asks again after the delay it was given, as often as
    [tries]; nothing else is called meanwhile.  [None] inside is one that was
    refused every time. *)
Fixpoint patient (tries : nat) (now : Instant) (inner : CircuitInner) :
    option (option (CircuitPermit * Instant)) :=
  match tries with
  | 0 => Some None
  | S tries =>
      match before_request now inner with
      | None => None
      | Some (Ok permit, _) => Some (Some (permit, now))
      | Some (Err (rate_limited hint), inner) => patient tries (now + applied_backoff hint)%N inner
      end
  end.

Lemma patient_step tries now inner :
  patient (S tries) now inner =
  match before_request now inner with
  | None => None
  | Some (Ok permit, _) => Some (Some (permit, now))
  | Some (Err (rate_limited hint), inner) => patient tries (now + applied_backoff hint)%N inner
  end.
Proof. done. Qed.

Lemma patient_open k now inner until :
  (max_open_for config <= DURATION_MAX)%N -> state inner = Open until ->
  (until <= now + N.of_nat k * max_open_for config)%N ->
  exists permit at_, patient (S k) now inner = Some (Some (permit, at_)).
Proof.
  intros Hd Ho. revert now. induction k as [|k IH]; intros now Hu; cbn [patient];
    unfold before_request; rewrite Ho; destruct (N.leb_spec until now); try (by eexists _, _); [lia|].
  apply IH. unfold bounded, since, duration_saturating_add. cbn [applied_backoff].
  rewrite N.add_0_r. lia.
Qed.

Lemma patient_probing k now inner started :
  (max_open_for config <= DURATION_MAX)%N -> state inner = ProbeInFlight started ->
  (started <= now)%N ->
  (started + probe_timeout config <= now + N.of_nat k * max_open_for config)%N ->
  exists permit at_, patient (S (S k)) now inner = Some (Some (permit, at_)).
Proof.
  intros Hd Hp. revert now. induction k as [|k IH]; intros now Hs Ht;
    rewrite patient_step; unfold before_request; rewrite Hp;
    destruct (N.leb_spec (probe_timeout config) (since now started)) as [Hto|Hto];
    unfold since in Hto; try lia.
  3: { apply IH; unfold bounded, duration_saturating_add; cbn [applied_backoff];
       rewrite N.add_0_r; lia. }
  all: set (hint := retry_hint_for_failures _ _); set (until := (_ + applied_backoff hint)%N);
    destruct (N.leb_spec until now) as [Hu|Hu]; [by eexists _, _|];
    pose proof (retry_hint_bounded (u32_saturating_succ (failures inner))) as Hb; fold hint in Hb;
    unfold open_until_locked; rewrite Hp; cbn [is_open]; simpl (_ ≫= _);
    eapply patient_open; [done|done|];
    unfold bounded, since, duration_saturating_add; cbn [applied_backoff]; rewrite N.add_0_r;
    unfold until in *; lia.
Qed.

Lemma reachable_timed longest s :
  (max_open_for config <= longest)%N -> reachable longest s -> timed longest s.
Proof.
  intros Hmax. revert s. refine (rtc_ind_r (timed longest) start I _). intros s1 s2 _ [_ Hstep] IH.
  inversion Hstep as [now r Hreq Heq|now p o Hi Hhint Heq]; clear Hstep.
  - destruct (before_request now (breaker s1)) as [[[a|e] inner']|] eqn:E; simplify_eq/=;
      by eapply request_timed.
  - apply fmap_Some in Heq as (inner' & E & ->).
    apply (report_state longest) in E; [|done..]. unfold timed in *. cbn [breaker clock].
    destruct E as [->|[->|(until & -> & Hu)]]; [case_match; [done|lia..]|done|lia].
Qed.
End breaker.

(** The breaker lets one probe through at a time.  However requests and
    reports interleave (reports repeated, late or dropped included), as long
    as the epoch counter has not saturated: no two probe permits share an
    epoch; while a probe is in flight its permit is the only one carrying the
    current epoch, while the breaker is open no permit does, and while it is
    closed no probe does; no assertion can fail in the next step; and a report
    under an old permit changes nothing, except that a rate limit can lengthen
    the window of an open breaker. *)
Theorem circuit_single_probe config longest s :
  reachable config longest s -> (epoch (breaker s) < u64_max)%N ->
  safe s
  /\ (forall r, sys_step config longest s r -> r <> None)
  /\ (forall now p o, permit_epoch p <> epoch (breaker s) ->
       exists inner', report config now p o (breaker s) = Some inner'
       /\ (inner' = breaker s
           \/ exists until until' hint, state (breaker s) = Open until /\ (until < until')%N
                /\ inner' = mkCircuitInner (Open until') (epoch (breaker s)) (failures (breaker s))
                              (Some hint))).
Proof.
  intros Hr%reachable_safe Hlt. split_and!; [done| |].
  - intros r (s' & -> & _)%step_safe; done.
  - intros now p o. apply stale_report.
Qed.

(** C37. The breaker always recovers.  Once [probe_timeout] and the longest
    backoff have passed since the last call, whatever the calls were, a request
    is admitted, so no lost probe or report can keep it closed to traffic.  A
    caller that waits out each delay it is handed, with no other call
    meanwhile, is admitted after at most [k + 1] refusals, where [k] times
    [max_open_for] covers the longest backoff and the probe timeout: two
    refusals when neither exceeds [max_open_for].  One delay alone is enough
    when the refusal found the breaker open and the delay was not cut at
    [max_open_for]; a refusal during a probe is not of this kind
    ([probing_refused_twice]). *)
Theorem circuit_recovers config longest s now :
  (max_open_for config <= longest)%N -> (longest <= DURATION_MAX)%N ->
  reachable config longest s ->
  ((clock s + probe_timeout config + longest <= now)%N ->
   exists permit inner', before_request config now (breaker s) = Some (Ok permit, inner'))
  /\ (forall k, (clock s <= now)%N ->
       (longest <= N.of_nat k * max_open_for config)%N ->
       (probe_timeout config <= N.of_nat k * max_open_for config)%N ->
       exists permit at_, patient config (k + 2) now (breaker s) = Some (Some (permit, at_)))
  /\ (forall until hint inner', state (breaker s) = Open until ->
      before_request config now (breaker s) = Some (Err (rate_limited hint), inner') ->
      (until - now <= max_open_for config)%N ->
      exists permit inner2,
        before_request config (now + applied_backoff hint)%N inner' = Some (Ok permit, inner2)).
Proof.
  intros Hmax Hdur Hr. pose proof (reachable_timed config longest s Hmax Hr) as Ht. split_and!.
  - intros Hnow. unfold before_request, timed in *.
    destruct (state (breaker s)) as [|until|started]; [eauto| |].
    + destruct (N.leb_spec until now); [eauto|lia].
    + unfold since. destruct (N.leb_spec (probe_timeout config) (now - started)); [|lia].
      cbv zeta. pose proof (retry_hint_bounded config (u32_saturating_succ (failures (breaker s)))).
      destruct (N.leb_spec (started + probe_timeout config
        + applied_backoff (retry_hint_for_failures config (u32_saturating_succ (failures (breaker s)))))
        now); [eauto|lia].
  - intros k Hc Hl Hp. unfold timed in Ht. rewrite Nat.add_comm. cbn [Nat.add].
    destruct (state (breaker s)) as [|until|started] eqn:E.
    + eexists _, _. cbn [patient]. unfold before_request. by rewrite E.
    + apply (patient_open _ (S k) now _ until); [lia|done|lia].
    + apply (patient_probing _ k now _ started); [lia|done|lia|lia].
  - intros u hint inner' Ho E Hcut. unfold before_request in E. rewrite Ho in E.
    destruct (N.leb_spec u now) as [|Hlt]; [done|]. simplify_eq/=.
    unfold before_request. rewrite Ho. unfold since, duration_saturating_add.
    match goal with |- context [(u <=? ?n)%N] => destruct (N.leb_spec u n) end; [eauto|lia].
Qed.

(** A request is rate limited for two seconds; after three, one probes. *)
Definition demo_hint : RetryHint := bounded (2 * SEC)%N 0%N (300 * SEC)%N.
Definition demo_system : system :=
  mkSystem (mkCircuitInner (ProbeInFlight (3 * SEC)%N) 2 1 (Some demo_hint))
    [mkCircuitPermit true 2; mkCircuitPermit false 0] (3 * SEC)%N.

Lemma demo_reachable : reachable CircuitBreakerConfig_default (300 * SEC)%N demo_system.
Proof.
  pose (s1 := mkSystem new [mkCircuitPermit false 0] 0%N).
  pose (s2 := mkSystem (mkCircuitInner (Open (2 * SEC)%N) 1 1 (Some demo_hint)) (issued s1) 0%N).
  apply (rtc_l _ _ s1); [split; [done|exact (step_request _ _ start 0%N _ eq_refl)]|].
  apply (rtc_l _ _ s2); [split; [done|]|].
  { refine (step_report _ _ s1 0%N (mkCircuitPermit false 0) (Response 429 demo_hint) _ _).
    - set_solver.
    - by intros ? ? [= _ <-]. }
  apply rtc_once. split; [done|exact (step_request _ _ s2 (3 * SEC)%N _ eq_refl)].
Qed.

Lemma circuit_single_probe_witness :
  NoDup (permit_epoch <$> filter probe (issued demo_system))
  /\ forall r, sys_step CircuitBreakerConfig_default (300 * SEC)%N demo_system r -> r <> None.
Proof.
  destruct (circuit_single_probe CircuitBreakerConfig_default (300 * SEC)%N demo_system)
    as (Hs & Hstep & _).
  - apply demo_reachable.
  - by vm_compute.
  - split; [apply Hs|exact Hstep].
Defined.

(** Refused during a probe, and again after the delay that refusal gave: the
    probe has timed out by then, and the breaker has opened. *)
Example probing_refused_twice :
  match before_request CircuitBreakerConfig_default (4 * SEC)%N (breaker demo_system) with
  | Some (Err (rate_limited hint), inner) =>
      applied_backoff hint = (30 * SEC)%N
      /\ patient CircuitBreakerConfig_default 2 (4 * SEC)%N (breaker demo_system) = Some None
      /\ exists permit at_,
           patient CircuitBreakerConfig_default 3 (4 * SEC)%N (breaker demo_system)
           = Some (Some (permit, at_))
  | _ => False
  end.
Proof. vm_compute. split_and! ; [done|done|by eexists _, _]. Qed.

Lemma circuit_recovers_witness :
  (exists permit at_, patient CircuitBreakerConfig_default 3 (4 * SEC)%N (breaker demo_system)
     = Some (Some (permit, at_)))
  /\ exists permit inner',
      before_request CircuitBreakerConfig_default (333 * SEC)%N (breaker demo_system)
      = Some (Ok permit, inner').
Proof.
  split.
  { apply (proj1 (proj2 (circuit_recovers CircuitBreakerConfig_default (300 * SEC)%N demo_system
      (4 * SEC)%N ltac:(by vm_compute) ltac:(by vm_compute) demo_reachable)) 1); by vm_compute. }
  apply (circuit_recovers CircuitBreakerConfig_default (300 * SEC)%N demo_system (333 * SEC)%N);
    [by vm_compute|by vm_compute|apply demo_reachable|by vm_compute].
Defined.

End Circuit.
