(* ===== verification/Daemon.v ===== *)
(** * Admission and locking in the daemon ([d2bd])

    [Module Admission] is who may do what: the role of a peer ([admission.rs]),
    the requests with their verbs and lock classes ([wire.rs]) and the checks a
    request passes on its way to its handler ([handle_connection_authorized],
    [dispatch_request] and [dispatch_request_locked] of [lib.rs]).  [Module
    ConnSemaphore] and [Module OpLocks] are [concurrency.rs] as threads taking
    one atomic step at a time.  Of a request's payload only the fields these
    parts read are kept. *)

From S2P Require Import Prelude Ids Streams Frame.

Module Admission.

(** ** Peers *)

Inductive PeerRole : Set := Launcher | Admin | HostShutdown.

#[global] Instance PeerRole_eq_dec : EqDecision PeerRole.
Proof. solve_decision. Defined.

Record PeerIdentity := mkPeerIdentity { role : PeerRole; uid : N }.

Inductive TypedError : Type :=
| AuthzNotALauncher (peer_uid : N)
| AuthzNotAdmin (verb : string)
| AuthzAuditRequiresAdmin
| InternalConfig
| UnsafeShellFeatureUnavailable
| WireUnsupportedRequest (request_type : string).

(** [str::parse::<u32>] *)
Definition parse_u32 (s : string) : option N :=
  let digits := match chars s with "+"%char :: r => r | r => r end in
  let value := fold_left (fun n c => n * 10 + (N_of_ascii c - 48))%N digits 0%N in
  if bool_decide (digits = []) || negb (forallb is_ascii_digit digits) || (u32_max <? value)%N
  then None
  else Some value.

Record PeerOverride := mkPeerOverride {
  po_uid : N;
  po_gid : N;
  po_username : option string
}.

(** [peer_override_from_env], over an environment of valid text
    ([std::env::var]).  The group names it also reads decide nothing. *)
Definition peer_override_from_env (var : string -> option string) :
    result (option PeerOverride) TypedError :=
  match var "D2BD_TEST_PEER_UID" with
  | None => Ok None
  | Some value =>
      match parse_u32 value with
      | None => Err InternalConfig
      | Some uid =>
          let over gid := Ok (Some (mkPeerOverride uid gid (var "D2BD_TEST_PEER_USERNAME"))) in
          match var "D2BD_TEST_PEER_GID" with
          | None => over uid
          | Some value =>
              match parse_u32 value with
              | None => Err InternalConfig
              | Some gid => over gid
              end
          end
      end
  end.

(** The part of [ServerState] consulted, and the host's user table. *)
Record server := mkServer {
  daemon_uid : N;
  launcher_users : list string;
  admin_users : list string;
  get_user_by_uid : N -> option string
}.

Definition named_in (username : option string) (names : list string) : bool :=
  match username with
  | Some name => existsb (fun n => bool_decide (n = name)) names
  | None => false
  end.

(** [authorize_peer] of a socket whose [SO_PEERCRED] is the given uid and gid. *)
Definition authorize_peer (state : server) (var : string -> option string) (cred : N * N) :
    result PeerIdentity TypedError :=
  match peer_override_from_env var with
  | Err e => Err e
  | Ok over =>
      let peer := match over with
                  | Some peer => peer
                  | None => mkPeerOverride cred.1 cred.2 None
                  end in
      let uid := po_uid peer in
      let username := match po_username peer with
                      | Some name => Some name
                      | None => get_user_by_uid state uid
                      end in
      if (uid =? daemon_uid state)%N then Err (AuthzNotALauncher uid)
      else if (uid =? 0)%N then Ok (mkPeerIdentity HostShutdown uid)
      else if negb (named_in username (launcher_users state)) then Err (AuthzNotALauncher uid)
      else Ok (mkPeerIdentity (if named_in username (admin_users state) then Admin else Launcher) uid)
  end.

(** ** Requests *)

Inductive ExecOp : Set :=
| ExecOp_Start | ExecOp_WriteStdin | ExecOp_ReadOutput | ExecOp_Signal | ExecOp_Resize
| ExecOp_Wait | ExecOp_Close | ExecOp_List | ExecOp_Logs | ExecOp_Status | ExecOp_Kill.

Inductive ShellOp : Set :=
| ShellOp_Attach | ShellOp_WriteStdin | ShellOp_ReadOutput | ShellOp_Resize | ShellOp_Wait
| ShellOp_CloseStdin | ShellOp_CloseAttach | ShellOp_List | ShellOp_Detach | ShellOp_Kill.

Inductive ConsoleOp : Set :=
| ConsoleOp_Attach | ConsoleOp_WriteStdin | ConsoleOp_ReadOutput | ConsoleOp_Resize
| ConsoleOp_Wait | ConsoleOp_Close.

Inductive GatewayDisplayOp : Set :=
| GatewayDisplayOp_Start | GatewayDisplayOp_Stop | GatewayDisplayOp_Open
| GatewayDisplayOp_Close | GatewayDisplayOp_List | GatewayDisplayOp_ListDetailed.

Inductive WorkloadOp : Set :=
| WorkloadOp_List | WorkloadOp_Status | WorkloadOp_LauncherExec.

Inductive AudioOp : Type :=
| AudioOp_Status | AudioOp_SetVolume (vm : string) | AudioOp_Mute (vm : string).

Inductive Request : Type :=
| List_ | Status | Audit | HostCheck | AuthStatus | KeysList | KeysShow
| VmStart (vm : string) | VmStop (vm : string) | VmRestart (vm : string)
| Switch (vm : string) | Boot (vm : string) | Test_ (vm : string) | Rollback (vm : string)
| Gc | KeysRotate | Trust
| RotateKnownHost (vm : string) | UsbipBind (vm : string) | UsbipUnbind (vm : string)
| UsbipProbe
| StoreVerify (vm : string)
| Migrate | HostPrepare | HostDestroy | HostInstall | HostReconcile
| ReadGuestConfig
| Exec (op : ExecOp) | Shell (op : ShellOp) | Console (op : ConsoleOp)
| GatewayDisplay (op : GatewayDisplayOp) | Workload (op : WorkloadOp) | Audio (op : AudioOp).

Definition verb_name (self : Request) : string :=
  match self with
  | List_ => "list"
  | Status => "status"
  | Audit => "audit"
  | HostCheck => "hostCheck"
  | AuthStatus => "authStatus"
  | KeysList => "keysList"
  | KeysShow => "keysShow"
  | VmStart _ => "vmStart"
  | VmStop _ => "vmStop"
  | VmRestart _ => "vmRestart"
  | Switch _ => "switch"
  | Boot _ => "boot"
  | Test_ _ => "test"
  | Rollback _ => "rollback"
  | Gc => "gc"
  | KeysRotate => "keysRotate"
  | Trust => "trust"
  | RotateKnownHost _ => "rotateKnownHost"
  | UsbipBind _ => "usbipBind"
  | UsbipUnbind _ => "usbipUnbind"
  | UsbipProbe => "usbipProbe"
  | StoreVerify _ => "storeVerify"
  | Migrate => "migrate"
  | HostPrepare => "hostPrepare"
  | HostDestroy => "hostDestroy"
  | HostInstall => "hostInstall"
  | HostReconcile => "hostReconcile"
  | ReadGuestConfig => "readGuestConfig"
  | Exec _ => "exec"
  | Shell _ => "shell"
  | Console _ => "console"
  | GatewayDisplay _ => "gatewayDisplay"
  | Workload _ => "workload"
  | Audio _ => "audio"
  end.

Inductive OpLockClass : Type :=
| ReadOnly
| PerVm (vm : string)
| Global.

#[global] Instance OpLockClass_eq_dec : EqDecision OpLockClass.
Proof. solve_decision. Defined.

Definition lock_class (self : Request) : OpLockClass :=
  match self with
  | VmStart vm | VmStop vm | VmRestart vm => PerVm vm
  | Switch vm | Boot vm | Test_ vm | Rollback vm => PerVm vm
  | UsbipBind vm => PerVm vm
  | UsbipUnbind vm => PerVm vm
  | StoreVerify vm => PerVm vm
  | RotateKnownHost vm => PerVm vm
  | Gc | KeysRotate | Trust | Migrate | HostPrepare | HostDestroy | HostInstall
  | HostReconcile => Global
  | Audio (AudioOp_SetVolume vm) => PerVm vm
  | Audio (AudioOp_Mute vm) => PerVm vm
  | List_ | Status | Audit | HostCheck | AuthStatus | KeysList | KeysShow | UsbipProbe
  | ReadGuestConfig | Exec _ | Shell _ | Console _ | GatewayDisplay _ | Workload _
  | Audio AudioOp_Status => ReadOnly
  end.

(** ** Checks *)

Definition ADMIN_VERBS : list string :=
  ["vmStart"; "vmStop"; "vmRestart"; "switch"; "boot"; "test"; "rollback"; "gc"; "keysRotate";
   "trust"; "rotateKnownHost"; "usbipBind"; "usbipUnbind"; "storeVerify"; "migrate";
   "hostPrepare"; "hostDestroy"; "hostInstall"; "hostReconcile"; "readGuestConfig"; "exec";
   "shell"].

Definition verb_requires_admin (verb : string) : bool := bool_decide (verb ∈ ADMIN_VERBS).

Definition verb_allowed_for_host_shutdown (verb : string) : bool := bool_decide (verb = "vmStop").

Definition gateway_display_op_requires_admin (op : GatewayDisplayOp) : bool :=
  match op with GatewayDisplayOp_Start | GatewayDisplayOp_Stop => true | _ => false end.

Definition is_admin (peer : PeerIdentity) : bool := bool_decide (role peer = Admin).

(** The gate at the head of [dispatch_request]. *)
Definition dispatch_gate (peer : PeerIdentity) (request : Request) : option TypedError :=
  let verb := verb_name request in
  if verb_requires_admin verb && negb (is_admin peer) then
    if bool_decide (role peer = HostShutdown) then
      if verb_allowed_for_host_shutdown verb then None else Some (AuthzNotAdmin verb)
    else Some (AuthzNotAdmin verb)
  else None.

(** The role checks at the head of the handlers [dispatch_request_locked]
    calls. *)
Definition handler_gate (peer : PeerIdentity) (request : Request) : option TypedError :=
  match request with
  | Audit => if is_admin peer then None else Some AuthzAuditRequiresAdmin
  | Console _ | Workload _ =>
      match role peer with
      | Admin | Launcher => None
      | HostShutdown => Some (AuthzNotALauncher (uid peer))
      end
  | GatewayDisplay (GatewayDisplayOp_Start | GatewayDisplayOp_Stop) =>
      if is_admin peer then None else Some (AuthzNotAdmin "gatewayDisplay")
  | Audio (AudioOp_SetVolume _ | AudioOp_Mute _) =>
      if is_admin peer then None else Some (AuthzNotAdmin "audio")
  | _ => None
  end.

(** Where one turn of the loop of [handle_connection_authorized] takes a
    request: refused, handed to an owner thread (which holds the connection's
    permit or not), or dispatched in place. *)
Inductive route : Type :=
| Refused (e : TypedError)
| Owner (holds_permit : bool)
| InPlace.

(** [configured] and [local_provider] are the negotiated features
    [ConfiguredLaunchV1] and [UnsafeLocalProviderV1]; [shell_unavailable] says
    that the shell resolves to an unsafe-local one whose feature was not
    negotiated. *)
Definition connection_route (peer : PeerIdentity) (configured local_provider : bool)
    (shell_unavailable : ShellOp -> bool) (request : Request) : route :=
  match request with
  | Workload _ =>
      if negb configured || negb local_provider then Refused (WireUnsupportedRequest "workload")
      else InPlace
  | Exec op =>
      if negb (is_admin peer) then Refused (AuthzNotAdmin "exec")
      else match op with ExecOp_Start => Owner true | _ => InPlace end
  | Shell op =>
      if negb (is_admin peer) then Refused (AuthzNotAdmin "shell")
      else if shell_unavailable op then Refused UnsafeShellFeatureUnavailable
      else match op with ShellOp_Attach => Owner true | _ => InPlace end
  | GatewayDisplay op =>
      if gateway_display_op_requires_admin op && negb (is_admin peer)
      then Refused (AuthzNotAdmin "gatewayDisplay")
      else Owner false
  | _ => InPlace
  end.

(** A request reaches its handler: the connection routes it, and, unless an
    exec or shell owner takes the connection over, both gates of
    [dispatch_request] let it pass. *)
Definition reaches_handler (peer : PeerIdentity) (configured local_provider : bool)
    (shell_unavailable : ShellOp -> bool) (request : Request) : bool :=
  let dispatched := bool_decide (is_Some (dispatch_gate peer request)
                                 \/ is_Some (handler_gate peer request)) in
  match connection_route peer configured local_provider shell_unavailable request with
  | Refused _ => false
  | Owner true => true
  | Owner false | InPlace => negb dispatched
  end.

(** ** Who changes the host *)

(** Requests that take an operation lock, run a command or a shell in a guest,
    read its configuration or the audit log, or start and stop a remote
    sandbox.  The console and workload requests are not among them: a launcher
    may make those. *)
Definition privileged (request : Request) : bool :=
  match request with
  | Exec _ | Shell _ | ReadGuestConfig | Audit
  | GatewayDisplay (GatewayDisplayOp_Start | GatewayDisplayOp_Stop) => true
  | _ => negb (bool_decide (lock_class request = ReadOnly))
  end.

Lemma named_in_elem username names :
  named_in username names = true -> exists name, username = Some name /\ name ∈ names.
Proof.
  destruct username as [name|]; simpl; [|done]. rewrite existsb_exists.
  intros (n & Hn & ->%bool_decide_eq_true). exists name. by rewrite list_elem_of_In.
Qed.

Lemma authorize_peer_role state var cred peer :
  var "D2BD_TEST_PEER_UID" = None -> authorize_peer state var cred = Ok peer ->
  uid peer = cred.1 /\ uid peer <> daemon_uid state
  /\ (role peer = HostShutdown <-> uid peer = 0%N)
  /\ (role peer = Admin ->
      exists name, get_user_by_uid state (uid peer) = Some name
        /\ name ∈ launcher_users state /\ name ∈ admin_users state).
Proof.
  intros Hv. unfold authorize_peer, peer_override_from_env. rewrite Hv. cbn [po_uid po_username].
  destruct (N.eqb_spec cred.1 (daemon_uid state)) as [|Hd]; [done|].
  destruct (N.eqb_spec cred.1 0) as [E0|H0]; [by intros [= <-]|].
  destruct (named_in _ (launcher_users state)) eqn:El; [|done]. intros [= <-]. simpl.
  apply named_in_elem in El as (name & Hname & Hl).
  destruct (named_in _ (admin_users state)) eqn:Ea; split_and!; try done.
  intros _. apply named_in_elem in Ea as (name' & Hname' & Ha).
  exists name. split_and!; [done..|congruence].
Qed.

Lemma privileged_roles peer c lp su request :
  reaches_handler peer c lp su request = true -> privileged request = true ->
  role peer = Admin \/ (role peer = HostShutdown /\ exists vm, request = VmStop vm).
Proof.
  destruct peer as [[] u]; [|by left|];
    destruct request as [| | | | | | | | | | | | | | | | | | | | | | | | | | | |op|op|op|op|op|op];
    try destruct op; try done; intros H1 H2; try (vm_compute in H1; discriminate);
    try (vm_compute in H2; discriminate).
  all: try (right; by eauto).
Qed.

(** C15. Without the test override, only an admin changes the host: a request
    that takes an operation lock, runs a command or a shell in a guest, reads
    guest configuration or the audit log, or starts or stops a sandbox reaches its
    handler only from a peer whose user is both a launcher and an admin (and
    is neither root nor the daemon), or from root when it stops a VM. *)
Theorem privileged_requires_admin state var cred peer configured local_provider
    shell_unavailable request :
  var "D2BD_TEST_PEER_UID" = None -> authorize_peer state var cred = Ok peer ->
  reaches_handler peer configured local_provider shell_unavailable request = true ->
  privileged request = true ->
  (cred.1 <> 0%N /\ cred.1 <> daemon_uid state
   /\ exists name, get_user_by_uid state cred.1 = Some name
       /\ name ∈ launcher_users state /\ name ∈ admin_users state)
  \/ (cred.1 = 0%N /\ exists vm, request = VmStop vm).
Proof.
  intros Hv Hauth Hr Hp. apply authorize_peer_role in Hauth as (E & Hd & Hroot & Hadmin); [|done].
  rewrite E in *. destruct (privileged_roles _ _ _ _ _ Hr Hp) as [Hrole|[Hrole Hvm]].
  - left. split_and!; [|done|by apply Hadmin]. intros H0. apply Hroot in H0. congruence.
  - right. split; [by apply Hroot|done].
Qed.

Definition demo_server : server :=
  mkServer 990 ["alice"; "bob"] ["alice"]
    (fun u => if (u =? 1000)%N then Some "alice" else if (u =? 1001)%N then Some "bob" else None).

Lemma privileged_requires_admin_witness :
  (exists peer, authorize_peer demo_server (fun _ => None) (1001, 100)%N = Ok peer
     /\ reaches_handler peer true true (fun _ => false) (VmStart "work") = false)
  /\ ((1000 <> 0)%N /\ (1000 <> 990)%N
      /\ (exists name, get_user_by_uid demo_server 1000 = Some name
            /\ name ∈ launcher_users demo_server /\ name ∈ admin_users demo_server)
      \/ 1000%N = 0%N /\ exists vm, VmStart "work" = VmStop vm).
Proof.
  split; [by eexists|].
  apply (privileged_requires_admin demo_server (fun _ => None) (1000, 100)%N
           (mkPeerIdentity Admin 1000) true true (fun _ => false) (VmStart "work"));
    by vm_compute.
Defined.

(** With [D2BD_TEST_PEER_UID] in the daemon's environment, every peer is who
    the variables say. *)
Example env_override_decides :
  let var name := if bool_decide (name = "D2BD_TEST_PEER_UID") then Some "1000"
                  else if bool_decide (name = "D2BD_TEST_PEER_USERNAME") then Some "alice"
                  else None in
  forall cred, authorize_peer demo_server var cred = Ok (mkPeerIdentity Admin 1000).
Proof. intros var cred. by vm_compute. Qed.

End Admission.

Module ConnSemaphore.

(** ** Bounded admission *)

(** [ConnSemaphore::new] clamps the cap. *)
Definition new_cap (cap : N) : N := N.max cap 1.

(** A thread in [try_acquire], and then with its permit. *)
Inductive phase : Set :=
| Entered
| Loop (current : N)
| Permit
| Refused
| Dropped.

#[global] Instance phase_eq_dec : EqDecision phase.
Proof. solve_decision. Defined.

Record semaphore := mkSemaphore { in_flight : N; threads : list phase }.

(** [fetch_sub(1)] on an [AtomicUsize] *)
Definition fetch_sub1 (n : N) : N := if (n =? 0)%N then u64_max else (n - 1)%N.

Definition move (s : semaphore) (i : nat) (p : phase) (n : N) : semaphore :=
  mkSemaphore n (<[i := p]> (threads s)).

(** One atomic step of one thread; [compare_exchange_weak] may fail though the
    value is the expected one. *)
Inductive step (cap : N) (s : semaphore) : semaphore -> Prop :=
| step_load i :
    threads s !! i = Some Entered -> step cap s (move s i (Loop (in_flight s)) (in_flight s))
| step_refuse i c :
    threads s !! i = Some (Loop c) -> (cap <= c)%N -> step cap s (move s i Refused (in_flight s))
| step_exchange i c :
    threads s !! i = Some (Loop c) -> (c < cap)%N -> in_flight s = c ->
    step cap s (move s i Permit (c + 1)%N)
| step_retry i c :
    threads s !! i = Some (Loop c) -> (c < cap)%N ->
    step cap s (move s i (Loop (in_flight s)) (in_flight s))
| step_drop i :
    threads s !! i = Some Permit -> step cap s (move s i Dropped (fetch_sub1 (in_flight s))).

Definition start (n : nat) : semaphore := mkSemaphore 0 (replicate n Entered).

Definition permits (ts : list phase) : N := N.of_nat (length (filter (.= Permit) ts)).

Lemma permits_insert ts i p q :
  ts !! i = Some p ->
  (permits (<[i := q]> ts) + (if decide (p = Permit) then 1 else 0)
   = permits ts + (if decide (q = Permit) then 1 else 0))%N.
Proof.
  unfold permits. revert i. induction ts as [|t ts IH]; intros [|i] Hi; simplify_eq/=.
  - rewrite !filter_cons. repeat case_decide; simpl; lia.
  - rewrite !filter_cons. specialize (IH i Hi). repeat case_decide; simpl in *; lia.
Qed.

(** The counter counts the permits, within the cap. *)
Definition accounts (cap : N) (s : semaphore) : Prop :=
  in_flight s = permits (threads s) /\ (permits (threads s) <= cap)%N.

Lemma step_accounts cap s s' : step cap s s' -> accounts cap s -> accounts cap s'.
Proof.
  unfold accounts. intros Hs [He Hle]. destruct Hs as [i Hi|i c Hi Hc|i c Hi Hc Hf|i c Hi Hc|i Hi]; simpl;
    pose proof (permits_insert _ _ _ Dropped Hi); pose proof (permits_insert _ _ _ Permit Hi);
    pose proof (permits_insert _ _ _ Refused Hi);
    pose proof (permits_insert _ _ _ (Loop (in_flight s)) Hi);
    repeat case_decide; try done; unfold fetch_sub1;
    try destruct (N.eqb_spec (in_flight s) 0); lia.
Qed.

(** C39. However the threads of the accept loop and the handlers interleave,
    the counter of the semaphore is the number of permits held, and that
    number never exceeds the cap; a thread that finds a free slot and is not
    overtaken gets it. *)
Theorem connections_bounded cap n s :
  rtc (step (new_cap cap)) (start n) s ->
  in_flight s = permits (threads s) /\ (permits (threads s) <= new_cap cap)%N
  /\ (forall i, threads s !! i = Some Entered -> (in_flight s < new_cap cap)%N ->
       exists s1 s2, step (new_cap cap) s s1 /\ step (new_cap cap) s1 s2
         /\ threads s2 !! i = Some Permit).
Proof.
  intros Hr.
  assert (accounts (new_cap cap) s) as [He Hle].
  { revert s Hr. refine (rtc_ind_r (accounts (new_cap cap)) _ _ _).
    - enough (permits (replicate n Entered) = 0%N) as E by (split; simpl; rewrite E; lia).
      unfold permits. induction n as [|n IH]; [done|]. cbn [replicate].
      by rewrite filter_cons_False.
    - intros s1 s2 _ Hs IH. by eapply step_accounts. }
  split_and!; [done|lia|]. intros i Hi Hlt.
  assert (i < length (threads s)) as Hlen by by eapply lookup_lt_Some.
  exists (move s i (Loop (in_flight s)) (in_flight s)).
  eexists. split_and!; [by apply step_load|eapply (step_exchange _ _ i)|]; simpl; try done.
  - by rewrite list_lookup_insert_eq.
  - rewrite list_lookup_insert_eq; [done|]. by rewrite length_insert.
Qed.

Lemma connections_bounded_witness :
  exists s, rtc (step (new_cap 0)) (start 2) s
    /\ in_flight s = 1%N /\ (permits (threads s) <= 1)%N /\ threads s !! 1 = Some Refused.
Proof.
  pose (s1 := mkSemaphore 0 [Loop 0; Entered]). pose (s2 := mkSemaphore 1 [Permit; Entered]).
  pose (s3 := mkSemaphore 1 [Permit; Loop 1]). pose (s4 := mkSemaphore 1 [Permit; Refused]).
  assert (rtc (step (new_cap 0)) (start 2) s4) as Hr.
  { apply (rtc_l _ _ s1); [exact (step_load _ (start 2) 0 eq_refl)|].
    apply (rtc_l _ _ s2); [exact (step_exchange (new_cap 0) s1 0 0 eq_refl eq_refl eq_refl)|].
    apply (rtc_l _ _ s3); [exact (step_load _ s2 1 eq_refl)|].
    apply rtc_once. refine (step_refuse _ s3 1 1 eq_refl _). by vm_compute. }
  exists s4. split; [exact Hr|]. split; [done|]. split; [|done].
  apply (connections_bounded 0 2 s4 Hr).
Defined.

End ConnSemaphore.

Module OpLocks.
Import Admission.

(** ** Operation locks *)

(** How far a thread is in [dispatch_request]: before [acquire]; holding the
    global read side; also the map's mutex; holding the [Arc] of its VM's mutex
    with the map released; in [dispatch_request_locked] with its guard; done. *)
Inductive phase : Set :=
| Start
| HasGlobal
| HasMap
| HasArc (lock : nat)
| InOp (lock : option nat)
| Done.

#[global] Instance phase_eq_dec : EqDecision phase.
Proof. solve_decision. Defined.

(** [per_vm] maps a VM to its mutex; [allocated] mutexes have been created. *)
Record manager := mkManager {
  per_vm : gmap string nat;
  allocated : nat;
  ops : list (Request * phase)
}.

Definition reads_global (t : Request * phase) : bool :=
  match lock_class t.1, t.2 with
  | PerVm _, (HasGlobal | HasMap | HasArc _ | InOp _) => true
  | _, _ => false
  end.

Definition writes_global (t : Request * phase) : bool :=
  match lock_class t.1, t.2 with Global, InOp _ => true | _, _ => false end.

Definition waits_to_write (t : Request * phase) : bool :=
  match lock_class t.1, t.2 with Global, Start => true | _, _ => false end.

Definition holds_map (t : Request * phase) : bool := bool_decide (t.2 = HasMap).

Definition holds_vm (lock : nat) (t : Request * phase) : bool := bool_decide (t.2 = InOp (Some lock)).

(** [map.entry(vm).or_insert_with(..)] *)
Definition vm_lock (s : manager) (vm : string) : nat * manager :=
  match per_vm s !! vm with
  | Some l => (l, s)
  | None =>
      (allocated s, mkManager (<[vm := allocated s]> (per_vm s)) (S (allocated s)) (ops s))
  end.

Definition set_phase (s : manager) (i : nat) (r : Request) (p : phase) : manager :=
  mkManager (per_vm s) (allocated s) (<[i := (r, p)]> (ops s)).

(** Whether [global.read_arc()] returns.  A writer that waits may hold new
    readers off ([fair]) or not. *)
Definition read_free (fair : bool) (s : manager) : bool :=
  negb (existsb writes_global (ops s)) && negb (fair && existsb waits_to_write (ops s)).

Definition write_free (s : manager) : bool :=
  negb (existsb writes_global (ops s)) && negb (existsb reads_global (ops s)).

(** The next step of thread [i], [None] while it blocks and when it is done. *)
Definition advance (fair : bool) (s : manager) (i : nat) : option manager :=
  '(r, p) ← ops s !! i;
  match lock_class r, p with
  | ReadOnly, Start => Some (set_phase s i r (InOp None))
  | PerVm _, Start => if read_free fair s then Some (set_phase s i r HasGlobal) else None
  | PerVm _, HasGlobal =>
      if existsb holds_map (ops s) then None else Some (set_phase s i r HasMap)
  | PerVm vm, HasMap =>
      let '(l, s) := vm_lock s vm in Some (set_phase s i r (HasArc l))
  | PerVm _, HasArc l =>
      if existsb (holds_vm l) (ops s) then None else Some (set_phase s i r (InOp (Some l)))
  | Global, Start => if write_free s then Some (set_phase s i r (InOp None)) else None
  | _, InOp _ => Some (set_phase s i r Done)
  | _, _ => None
  end.

Definition step (fair : bool) (s s' : manager) : Prop := exists i, advance fair s i = Some s'.

Definition new (requests : list Request) : manager :=
  mkManager ∅ 0 ((fun r => (r, Start)) <$> requests).

(** Two operations that the locks keep apart.  A request that takes no lock
    ([ReadOnly]: the status verbs, but also the exec, shell, console, workload
    and gateway-display sessions) is kept apart from nothing. *)
Definition conflict (a b : OpLockClass) : Prop :=
  match a, b with
  | Global, Global | Global, PerVm _ | PerVm _, Global => True
  | PerVm v, PerVm w => v = w
  | _, _ => False
  end.

(** ** Mutual exclusion *)

(** At most one thread has [P], and then no other has [Q]. *)
Definition excl (P Q : Request * phase -> bool) (l : list (Request * phase)) : Prop :=
  forall i j t u, l !! i = Some t -> l !! j = Some u -> P t = true -> Q u = true -> i = j.

Definition uses_global (t : Request * phase) : bool := writes_global t || reads_global t.

(** What a thread has got hold of is its own VM's mutex. *)
Definition own_lock (locks : gmap string nat) (t : Request * phase) : Prop :=
  match lock_class t.1, t.2 with
  | PerVm vm, HasArc l | PerVm vm, InOp (Some l) => locks !! vm = Some l
  | PerVm _, (Start | HasGlobal | HasMap | Done) => True
  | (ReadOnly | Global), (Start | InOp None | Done) => True
  | _, _ => False
  end.

Record locked (s : manager) : Prop := {
  locked_inj v w l : per_vm s !! v = Some l -> per_vm s !! w = Some l -> v = w;
  locked_alloc v l : per_vm s !! v = Some l -> l < allocated s;
  locked_own i t : ops s !! i = Some t -> own_lock (per_vm s) t;
  locked_map : excl holds_map holds_map (ops s);
  locked_vm l : excl (holds_vm l) (holds_vm l) (ops s);
  locked_global : excl writes_global uses_global (ops s)
}.

Lemma existsb_lookup {A} (f : A -> bool) l i x :
  existsb f l = false -> l !! i = Some x -> f x = false.
Proof.
  intros He Hi. destruct (f x) eqn:E; [|done]. apply not_true_iff_false in He. destruct He.
  apply existsb_exists. exists x. split; [|done]. apply list_elem_of_In. by eapply list_elem_of_lookup_2.
Qed.

(** A thread keeps what it had, or takes what no thread has. *)
Lemma excl_insert P Q l i t t' :
  excl P Q l -> l !! i = Some t ->
  (P t' = true -> P t = true \/ existsb Q l = false) ->
  (Q t' = true -> Q t = true \/ existsb P l = false) ->
  excl P Q (<[i := t']> l).
Proof.
  intros He Hi HP HQ j k u v Hj Hk HPu HQv.
  apply list_lookup_insert_Some in Hj as [(-> & <- & _)|[Hij Hj]];
    apply list_lookup_insert_Some in Hk as [(-> & <- & _)|[Hik Hk]]; [done|..|by eapply He].
  - destruct (HP HPu) as [HPt|Hn]; [by eapply (He _ _ t v)|].
    rewrite (existsb_lookup Q l k v) in HQv by done. done.
  - destruct (HQ HQv) as [HQt|Hn]; [by eapply (He _ _ u t)|].
    rewrite (existsb_lookup P l j u) in HPu by done. done.
Qed.

Lemma new_locked requests : locked (new requests).
Proof.
  assert (forall i t, ops (new requests) !! i = Some t -> t.2 = Start) as Hs.
  { intros i t. simpl. rewrite list_lookup_fmap, fmap_Some. by intros (r & _ & ->). }
  split; simpl; try set_solver.
  - intros i [r p] Hi. apply Hs in Hi. simpl in Hi. subst p. unfold own_lock. simpl.
    by destruct (lock_class r).
  - intros i j [r p] u Hi _. apply Hs in Hi. simpl in Hi. by subst p.
  - intros l i j [r p] u Hi _. apply Hs in Hi. simpl in Hi. by subst p.
  - intros i j [r p] u Hi _. apply Hs in Hi. simpl in Hi. subst p.
    unfold writes_global. simpl. by destruct (lock_class r).
Qed.

(** A thread may change phase when each lock it then holds is one it held or
    one that is free. *)
Lemma set_phase_locked s i r p p' :
  locked s -> ops s !! i = Some (r, p) -> own_lock (per_vm s) (r, p') ->
  (p' = HasMap -> existsb holds_map (ops s) = false) ->
  (forall l, p' = InOp (Some l) -> existsb (holds_vm l) (ops s) = false) ->
  (writes_global (r, p') = true -> existsb uses_global (ops s) = false) ->
  (reads_global (r, p') = true ->
     reads_global (r, p) = true \/ existsb writes_global (ops s) = false) ->
  locked (set_phase s i r p').
Proof.
  intros [Hinj Hal Hown Hmap Hvm Hg] Hi Ho Hm Hv Hw Hr.
  assert (forall f g, (forall t : Request * phase, f t = true -> g t = true) ->
            existsb g (ops s) = false -> existsb f (ops s) = false) as Hweak.
  { intros f g Hfg He. apply not_true_iff_false. rewrite existsb_exists. intros (t & Ht & Hf).
    apply not_true_iff_false in He. apply He, existsb_exists. eauto. }
  split; simpl; [done|done|..].
  - intros j t Hj. apply list_lookup_insert_Some in Hj as [(_ & <- & _)|[_ Hj]]; eauto.
  - eapply excl_insert; [done..| |]; intros H%bool_decide_eq_true; right; by apply Hm.
  - intros l. eapply excl_insert; [done..| |]; intros H%bool_decide_eq_true; right; by apply Hv.
  - eapply excl_insert; [done..| |].
    + intros H. right. by apply Hw.
    + unfold uses_global at 1. intros [H|H]%orb_true_iff.
      * right. apply (Hweak _ uses_global); [|by apply Hw]. unfold uses_global. by intros t ->.
      * destruct (Hr H) as [H'|H']; [left|by right]. unfold uses_global. by rewrite H', orb_true_r.
Qed.

Lemma vm_lock_locked s vm :
  locked s ->
  locked (vm_lock s vm).2 /\ per_vm (vm_lock s vm).2 !! vm = Some (vm_lock s vm).1
  /\ ops (vm_lock s vm).2 = ops s.
Proof.
  intros [Hinj Hal Hown Hmap Hvm Hg]. unfold vm_lock.
  destruct (per_vm s !! vm) as [l|] eqn:E; [done|]. simpl. split_and!; [|by rewrite lookup_insert_eq|done].
  split; simpl; try done.
  - intros v w l. rewrite !lookup_insert_Some.
    intros [[<- <-]|[? Hv]] [[<- Hl]|[? Hw]]; [done| | |by eapply Hinj].
    + apply Hal in Hw. lia.
    + subst l. apply Hal in Hv. lia.
  - intros v l. rewrite lookup_insert_Some. intros [[<- <-]|[? Hv%Hal]]; lia.
  - intros i [r p] Hi. apply Hown in Hi. unfold own_lock in *. simpl in *.
    destruct (lock_class r) as [|v|], p as [| | |l|[l|]|]; try done;
      (destruct (decide (v = vm)) as [->|]; [congruence|by rewrite lookup_insert_ne]).
Qed.

Ltac change_phase Hs E Ec :=
  apply (set_phase_locked _ _ _ _ _ Hs E);
  unfold own_lock, writes_global, reads_global; simpl; rewrite ?Ec; try done;
  try (intros ? [=]; done); try intros _.

Lemma step_locked fair s s' : locked s -> step fair s s' -> locked s'.
Proof.
  intros Hs [i Hi]. unfold advance in Hi. destruct (ops s !! i) as [[r p]|] eqn:E; [|done].
  simpl in Hi. pose proof (locked_own s Hs i _ E) as Hown. unfold own_lock in Hown. simpl in Hown.
  destruct (lock_class r) as [|vm|] eqn:Ec, p as [| | |l|[l|]|]; try done; simplify_eq/=.
  all: try (change_phase Hs E Ec; done).
  - destruct (read_free fair s) eqn:Er; simplify_eq. apply andb_true_iff in Er as [Er _].
    apply negb_true_iff in Er. change_phase Hs E Ec. by right.
  - destruct (existsb holds_map (ops s)) eqn:Em; simplify_eq. change_phase Hs E Ec. by left.
  - destruct (vm_lock_locked s vm Hs) as (Hs2 & Hl & Hops). destruct (vm_lock s vm) as [l s2].
    simpl in *. simplify_eq. rewrite <- Hops in E. change_phase Hs2 E Ec. by left.
  - destruct (existsb (holds_vm l) (ops s)) eqn:Em; simplify_eq. change_phase Hs E Ec; [|by left].
    by intros l' [= <-].
  - destruct (write_free s) eqn:Ew; simplify_eq. apply andb_true_iff in Ew as [E1 E2].
    apply negb_true_iff in E1, E2. change_phase Hs E Ec.
    apply not_true_iff_false. rewrite existsb_exists.
    intros (t & Ht%list_elem_of_In & [Hu|Hu]%orb_true_iff);
      apply list_elem_of_lookup_1 in Ht as [k Hk];
      [rewrite (existsb_lookup _ _ _ _ E1 Hk) in Hu|rewrite (existsb_lookup _ _ _ _ E2 Hk) in Hu]; done.
Qed.

Lemma reachable_locked fair requests s : rtc (step fair) (new requests) s -> locked s.
Proof.
  revert s. refine (rtc_ind_r locked (new requests) (new_locked requests) _).
  intros s1 s2 _ Hstep IH. by eapply step_locked.
Qed.

Lemma exclusive fair requests s i j a b la lb :
  rtc (step fair) (new requests) s -> i <> j ->
  ops s !! i = Some (a, InOp la) -> ops s !! j = Some (b, InOp lb) ->
  ~ conflict (lock_class a) (lock_class b).
Proof.
  intros Hr Hne Hi Hj. apply reachable_locked in Hr as [_ _ Hown _ Hvm Hg].
  pose proof (Hown _ _ Hi) as Ha. pose proof (Hown _ _ Hj) as Hb. unfold own_lock in Ha, Hb.
  simpl in Ha, Hb. destruct (lock_class a) as [|v|] eqn:Ea, (lock_class b) as [|w|] eqn:Eb;
    simpl; try (by intros []).
  - intros ->. destruct la as [l|], lb as [l'|]; try done.
    apply Hne, (Hvm l i j _ _ Hi Hj); apply bool_decide_eq_true; simpl; congruence.
  - intros _. apply Hne. symmetry. apply (Hg j i _ _ Hj Hi); unfold uses_global, writes_global, reads_global;
      simpl; by rewrite ?Ea, ?Eb.
  - intros _. apply Hne, (Hg i j _ _ Hi Hj); unfold uses_global, writes_global, reads_global;
      simpl; by rewrite ?Ea, ?Eb, ?orb_true_r.
  - intros _. apply Hne, (Hg i j _ _ Hi Hj); unfold uses_global, writes_global; simpl; by rewrite ?Ea, ?Eb.
Qed.

(** The threads take the steps of a schedule. *)
Fixpoint run (fair : bool) (s : manager) (schedule : list nat) : option manager :=
  match schedule with
  | [] => Some s
  | i :: schedule => s ← advance fair s i; run fair s schedule
  end.

Lemma run_steps fair s schedule s' :
  run fair s schedule = Some s' -> nsteps (step fair) (length schedule) s s'.
Proof.
  revert s. induction schedule as [|i l IH]; simpl; intros s E; simplify_eq; [constructor|].
  destruct (advance fair s i) as [s1|] eqn:Ea; [|done]. eapply nsteps_l; [by exists i|]. by apply IH.
Qed.

Lemma run_app fair s l1 l2 s1 s2 :
  run fair s l1 = Some s1 -> run fair s1 l2 = Some s2 -> run fair s (l1 ++ l2) = Some s2.
Proof.
  revert s. induction l1 as [|i l1 IH]; intros s; simpl; [by intros [= ->]|].
  destruct (advance fair s i); simpl; [auto|done].
Qed.

Lemma existsb_insert {A} (f : A -> bool) l i x :
  existsb f l = false -> f x = false -> existsb f (<[i := x]> l) = false.
Proof.
  intros Hl Hx. revert i. induction l as [|y l IH]; intros [|i]; simpl in *; [done..| |].
  - by apply orb_false_iff in Hl as [_ ->]; rewrite Hx.
  - apply orb_false_iff in Hl as [-> Hl]. simpl. by apply IH.
Qed.

(** How a request gets inside when nothing is in its way. *)
Definition entry (c : OpLockClass) (i : nat) : list nat :=
  match c with PerVm _ => [i; i; i; i] | _ => [i] end.

Lemma enter_per_vm fair s i r vm :
  ops s !! i = Some (r, Start) -> lock_class r = PerVm vm ->
  existsb writes_global (ops s) = false -> existsb waits_to_write (ops s) = false ->
  existsb holds_map (ops s) = false ->
  existsb (holds_vm (vm_lock s vm).1) (ops s) = false ->
  exists s' l, run fair s [i; i; i; i] = Some s' /\ ops s' = <[i := (r, InOp (Some l))]> (ops s).
Proof.
  intros Hi Hc Hw Hq Hm Hv. pose proof (lookup_lt_Some _ _ _ Hi) as Hlt.
  pose (s1 := set_phase s i r HasGlobal). pose (s2 := set_phase s1 i r HasMap).
  pose (l := (vm_lock s vm).1).
  assert (advance fair s i = Some s1) as E1.
  { unfold advance, read_free. rewrite Hi. simpl. by rewrite Hc, Hw, Hq, andb_false_r. }
  assert (ops s1 !! i = Some (r, HasGlobal)) as Hi1 by by apply list_lookup_insert_eq.
  assert (advance fair s1 i = Some s2) as E2.
  { unfold advance. rewrite Hi1. simpl. by rewrite Hc, (existsb_insert holds_map). }
  assert (ops s2 = <[i := (r, HasMap)]> (ops s)) as Ho2 by apply list_insert_insert_eq.
  assert (exists s3, vm_lock s2 vm = (l, s3) /\ ops s3 = ops s2) as (s3 & E3 & Ho3).
  { unfold l, vm_lock. simpl. destruct (per_vm s !! vm); eexists; done. }
  pose (s4 := set_phase s3 i r (HasArc l)).
  assert (advance fair s2 i = Some s4) as E4.
  { unfold advance. rewrite Ho2, list_lookup_insert_eq by done. simpl. by rewrite Hc, E3. }
  assert (ops s4 = <[i := (r, HasArc l)]> (ops s)) as Ho4.
  { unfold s4. simpl. rewrite Ho3, Ho2. apply list_insert_insert_eq. }
  assert (advance fair s4 i = Some (set_phase s4 i r (InOp (Some l)))) as E5.
  { unfold advance. rewrite Ho4, list_lookup_insert_eq by done. simpl. rewrite Hc.
    by rewrite (existsb_insert (holds_vm l)). }
  exists (set_phase s4 i r (InOp (Some l))), l. split.
  - cbn [run]. rewrite E1. cbn. rewrite E2. cbn. rewrite E4. cbn. by rewrite E5.
  - simpl. by rewrite Ho3, Ho2, !list_insert_insert_eq.
Qed.

Lemma enter_other fair s i r :
  ops s !! i = Some (r, Start) -> (forall vm, lock_class r <> PerVm vm) ->
  (lock_class r = Global -> write_free s = true) ->
  run fair s [i] = Some (set_phase s i r (InOp None)).
Proof.
  intros Hi Hc Hw. cbn [run]. unfold advance. rewrite Hi. simpl.
  destruct (lock_class r) as [|vm|]; [done|by destruct (Hc vm)|]. by rewrite Hw.
Qed.

(** The first of two requests gets in. *)
Lemma first_inside fair a b :
  ~ conflict (lock_class a) (lock_class b) ->
  exists s la, run fair (new [a; b]) (entry (lock_class a) 0) = Some s
    /\ ops s = [(a, InOp la); (b, Start)].
Proof.
  intros Hc.
  assert (forall vm, lock_class a = PerVm vm -> lock_class b <> Global) as Hb.
  { intros vm Ea Eb. rewrite Ea, Eb in Hc. by apply Hc. }
  assert (existsb writes_global (ops (new [a; b])) = false
          /\ existsb reads_global (ops (new [a; b])) = false) as [Hw Hr].
  { unfold writes_global, reads_global. simpl. by destruct (lock_class a), (lock_class b). }
  destruct (lock_class a) as [|vm|] eqn:Ea; cbn [entry].
  - rewrite (enter_other fair _ 0 a); [by eexists _, None|done|congruence|congruence].
  - destruct (enter_per_vm fair (new [a; b]) 0 a vm) as (s & l & Hrun & Ho); try done; [|by eexists s, (Some l)].
    unfold waits_to_write. simpl. rewrite Ea. specialize (Hb vm eq_refl).
    by destruct (lock_class b).
  - rewrite (enter_other fair _ 0 a); [by eexists _, None|done|congruence|].
    intros _. unfold write_free. by rewrite Hw, Hr.
Qed.

(** Another VM's mutex is another one. *)
Lemma other_vm_lock s v w i r l :
  locked s -> ops s !! i = Some (r, InOp (Some l)) -> lock_class r = PerVm v -> v <> w ->
  (vm_lock s w).1 <> l.
Proof.
  intros [Hinj Hal Hown _ _ _] Hi Hr Hne. apply Hown in Hi. unfold own_lock in Hi. simpl in Hi.
  rewrite Hr in Hi. unfold vm_lock. destruct (per_vm s !! w) as [l'|] eqn:Ew; simpl.
  - intros ->. by apply Hne, (Hinj v w l).
  - intros <-. apply Hal in Hi. lia.
Qed.

Lemma both_inside fair a b :
  ~ conflict (lock_class a) (lock_class b) ->
  exists s la lb, rtc (step fair) (new [a; b]) s
    /\ ops s !! 0 = Some (a, InOp la) /\ ops s !! 1 = Some (b, InOp lb).
Proof.
  intros Hc. destruct (first_inside fair a b Hc) as (s & la & Hrun & Ho).
  pose proof (run_steps _ _ _ _ Hrun) as Hsteps.
  assert (locked s) as Hs by (eapply reachable_locked, rtc_nsteps; eauto).
  assert (ops s !! 0 = Some (a, InOp la)) as Ha by by rewrite Ho.
  assert (ops s !! 1 = Some (b, Start)) as Hb by by rewrite Ho.
  enough (exists s' lb, run fair s (entry (lock_class b) 1) = Some s'
            /\ ops s' = <[1 := (b, InOp lb)]> (ops s)) as (s' & lb & Hrun' & Ho').
  { exists s', la, lb. rewrite Ho', Ho. split_and!; [|done..].
    apply rtc_nsteps. eexists. eapply run_steps, run_app; eauto. }
  destruct (lock_class b) as [|w|] eqn:Eb; cbn [entry].
  - rewrite (enter_other fair s 1 b); [by eexists _, None|done|congruence|congruence].
  - assert (lock_class a <> Global) as Hg by (intros E; rewrite E in Hc; by apply Hc).
    edestruct (enter_per_vm fair s 1 b w) as (s' & l & Hr & E); [..|by eauto]; try done;
      rewrite Ho; unfold writes_global, waits_to_write, holds_map, holds_vm; simpl.
    + rewrite Eb. by destruct (lock_class a).
    + rewrite Eb. by destruct (lock_class a).
    + done.
    + apply orb_false_iff. split; [|done]. apply bool_decide_eq_false. intros [= ->].
      pose proof (locked_own s Hs _ _ Ha) as Hown. unfold own_lock in Hown. simpl in Hown.
      destruct (lock_class a) as [|v|] eqn:Ea; try done.
      by apply (other_vm_lock s v w 0 a _ Hs Ha).
  - assert (lock_class a = ReadOnly) as Ea.
    { destruct (lock_class a); [done|by destruct Hc..]. }
    rewrite (enter_other fair s 1 b); [by eexists _, None|done|congruence|].
    intros _. unfold write_free. rewrite Ho. unfold writes_global, reads_global. simpl.
    by rewrite Ea, Eb.
Qed.

(** C17. The operation locks keep apart exactly the requests they are meant to.
    However the threads interleave, and whether or not waiting writers hold
    readers off, two requests that take locks never run at once when both name
    the same VM or one of them is global.  Any two requests that do not
    conflict in this sense can be inside at once.  A request that takes no
    lock is never held up: besides the status verbs these are the exec, shell,
    console, workload and gateway-display sessions and the reading of a
    guest's configuration, which therefore do run beside a stop of the same VM
    or a global operation. *)
Theorem ops_exclusive fair :
  (forall requests s i j a b la lb,
     rtc (step fair) (new requests) s -> i <> j ->
     ops s !! i = Some (a, InOp la) -> ops s !! j = Some (b, InOp lb) ->
     ~ conflict (lock_class a) (lock_class b))
  /\ (forall a b, ~ conflict (lock_class a) (lock_class b) ->
       exists s la lb, rtc (step fair) (new [a; b]) s
         /\ ops s !! 0 = Some (a, InOp la) /\ ops s !! 1 = Some (b, InOp lb))
  /\ (forall s i a, ops s !! i = Some (a, Start) -> lock_class a = ReadOnly ->
       advance fair s i = Some (set_phase s i a (InOp None))).
Proof.
  split_and!; [apply exclusive|apply both_inside|].
  intros s i a Hi Ha. unfold advance. rewrite Hi. simpl. by rewrite Ha.
Qed.

(** ** Every operation completes *)

(** Steps a thread has left. *)
Definition rank (p : phase) : nat :=
  match p with
  | Start => 5
  | HasGlobal => 4
  | HasMap => 3
  | HasArc _ => 2
  | InOp _ => 1
  | Done => 0
  end.

Definition steps_left (l : list (Request * phase)) : nat := sum_list_with (fun t => rank t.2) l.

Lemma steps_left_insert l i r p r' p' :
  l !! i = Some (r, p) -> rank p' < rank p -> steps_left (<[i := (r', p')]> l) < steps_left l.
Proof.
  unfold steps_left. revert i. induction l as [|t l IH]; intros [|i] Hi Hlt; simplify_eq/=; [lia|].
  specialize (IH i Hi Hlt). lia.
Qed.

Lemma step_decreases fair s s' : step fair s s' -> steps_left (ops s') < steps_left (ops s).
Proof.
  intros [i Hi]. unfold advance in Hi. destruct (ops s !! i) as [[r p]|] eqn:E; [|done]. simpl in Hi.
  assert (forall s2 p', ops s2 = ops s -> rank p' < rank p ->
            steps_left (ops (set_phase s2 i r p')) < steps_left (ops s)) as Hset.
  { intros s2 p' Ho Hlt. simpl. rewrite Ho. by eapply steps_left_insert. }
  unfold vm_lock in Hi. run_cases; apply Hset; simpl; done || lia.
Qed.

Lemma existsb_some {A} (f : A -> bool) l :
  existsb f l = true -> exists i x, l !! i = Some x /\ f x = true.
Proof.
  intros (x & Hx & Hf)%existsb_exists. apply list_elem_of_In, list_elem_of_lookup_1 in Hx as [i Hi]. eauto.
Qed.

Lemma existsb_none {A} (f g : A -> bool) l :
  existsb g l = false -> (forall x, f x = true -> g x = true) -> existsb f l = false.
Proof.
  intros Hg Hfg. apply not_true_iff_false. intros (i & x & Hi & Hf)%existsb_some.
  apply Hfg in Hf. by rewrite (existsb_lookup g l i x) in Hf.
Qed.

Definition in_op (t : Request * phase) : bool := match t.2 with InOp _ => true | _ => false end.
Definition has_arc (t : Request * phase) : bool := match t.2 with HasArc _ => true | _ => false end.

Definition underway (t : Request * phase) : bool :=
  match t.2 with Start | Done => false | _ => true end.

Lemma advance_per_vm fair s k r p :
  ops s !! k = Some (r, p) -> own_lock (per_vm s) (r, p) -> underway (r, p) = true ->
  (p = HasGlobal -> existsb holds_map (ops s) = false) ->
  (forall l, p = HasArc l -> existsb (holds_vm l) (ops s) = false) ->
  exists s', step fair s s'.
Proof.
  intros Hk Ho Hu Hg Ha. unfold own_lock in Ho. simpl in Ho.
  assert (exists s', advance fair s k = Some s') as [s' E]; [|by exists s', k].
  unfold advance. rewrite Hk. simpl.
  destruct (lock_class r) as [|vm|], p as [| | |l|o|]; try done; eauto.
  - rewrite Hg by done. eauto.
  - destruct (vm_lock s vm). eauto.
  - rewrite (Ha l) by done. eauto.
Qed.

(** Among the threads that hold a lock, the furthest can go on. *)
Lemma progress_underway fair s :
  locked s -> existsb underway (ops s) = true -> exists s', step fair s s'.
Proof.
  intros Hs Hu. pose proof (locked_own s Hs) as Hown.
  destruct (existsb in_op (ops s)) eqn:Eop.
  { apply existsb_some in Eop as (k & [r []] & Hk & Hf); try done.
    by eapply advance_per_vm; eauto. }
  destruct (existsb has_arc (ops s)) eqn:Earc.
  { apply existsb_some in Earc as (k & [r []] & Hk & Hf); try done.
    eapply advance_per_vm; eauto; [done|]. intros l [= ->].
    apply (existsb_none _ in_op); [done|]. intros x. unfold in_op. by intros ->%bool_decide_eq_true. }
  destruct (existsb holds_map (ops s)) eqn:Emap.
  { apply existsb_some in Emap as (k & [r p] & Hk & Hf). apply bool_decide_eq_true in Hf. simpl in Hf.
    subst p. by eapply advance_per_vm; eauto. }
  apply existsb_some in Hu as (k & [r p] & Hk & Hf).
  pose proof (existsb_lookup _ _ _ _ Eop Hk). pose proof (existsb_lookup _ _ _ _ Earc Hk).
  pose proof (existsb_lookup _ _ _ _ Emap Hk). destruct p; try done. by eapply advance_per_vm; eauto.
Qed.

(** When none does, a waiting writer can, or else any thread. *)
Lemma progress_idle fair s i t :
  existsb underway (ops s) = false -> ops s !! i = Some t -> t.2 <> Done ->
  exists s', step fair s s'.
Proof.
  intros Hu Hi Hnd.
  assert (existsb writes_global (ops s) = false) as Enw.
  { apply (existsb_none _ underway); [done|]. intros [r p]. unfold writes_global. simpl.
    by destruct (lock_class r), p. }
  assert (existsb reads_global (ops s) = false) as Enr.
  { apply (existsb_none _ underway); [done|]. intros [r p]. unfold reads_global. simpl.
    by destruct (lock_class r), p. }
  destruct (existsb waits_to_write (ops s)) eqn:Ew.
  { apply existsb_some in Ew as (k & [r p] & Hk & Hf). unfold waits_to_write in Hf. simpl in Hf.
    exists (set_phase s k r (InOp None)), k. unfold advance. rewrite Hk. simpl. unfold write_free.
    rewrite Enw, Enr. by destruct (lock_class r), p. }
  destruct t as [r p]. pose proof (existsb_lookup _ _ _ _ Hu Hi) as Hp. destruct p; try done.
  exists (set_phase s i r (match lock_class r with PerVm _ => HasGlobal | _ => InOp None end)), i.
  unfold advance. rewrite Hi. simpl. unfold read_free, write_free.
  rewrite Enw, Enr, Ew. by destruct (lock_class r), fair.
Qed.

Lemma progress fair s i t :
  locked s -> ops s !! i = Some t -> t.2 <> Done -> exists s', step fair s s'.
Proof.
  intros Hs Ht Hnd. destruct (existsb underway (ops s)) eqn:Hu;
    [by apply progress_underway|by eapply progress_idle].
Qed.

(** C21. Any set of requests runs to completion: a run has at most five steps
    per request, and when no thread can go on they are all done.  So no
    interleaving deadlocks or goes on for ever, even when waiting writers hold
    every new reader off. *)
Theorem ops_complete fair requests n s :
  nsteps (step fair) n (new requests) s ->
  n <= 5 * length requests
  /\ ((forall s', ~ step fair s s') -> forall i t, ops s !! i = Some t -> t.2 = Done).
Proof.
  intros Hn. split.
  - enough (n + steps_left (ops s) <= steps_left (ops (new requests))) as Hle.
    { enough (steps_left (ops (new requests)) = 5 * length requests) by lia.
      unfold steps_left. simpl. clear. induction requests as [|r l IH]; simpl; [done|].
      unfold fmap in IH. lia. }
    remember (new requests) as s0. clear Heqs0. induction Hn as [|n s1 s2 s3 Hs _ IH]; [lia|].
    apply step_decreases in Hs. lia.
  - intros Hstuck i t Hi. destruct (decide (t.2 = Done)) as [|Hnd]; [done|].
    destruct (progress fair s i t) as [s' Hs]; [|done|done|by destruct (Hstuck s')].
    eapply reachable_locked. apply rtc_nsteps. eauto.
Qed.

Definition demo_requests : list Request := [VmStart "a"; VmStop "b"; HostPrepare].

Definition demo_run (schedule : list nat) : manager :=
  default (new []) (run true (new demo_requests) schedule).

Lemma ops_exclusive_witness :
  let s := demo_run [2; 2; 0; 1; 0; 0; 1; 1; 0; 1] in
  ops s !! 0 = Some (VmStart "a", InOp (Some 0)) /\ ops s !! 1 = Some (VmStop "b", InOp (Some 1))
  /\ ~ conflict (PerVm "a") (PerVm "b").
Proof.
  intros s. split; [by vm_compute|]. split; [by vm_compute|].
  apply (proj1 (ops_exclusive true) demo_requests s 0 1 (VmStart "a") (VmStop "b") (Some 0) (Some 1));
    [|done|by vm_compute..].
  apply rtc_nsteps. eexists.
  apply (run_steps true (new demo_requests) [2; 2; 0; 1; 0; 0; 1; 1; 0; 1]). by vm_compute.
Defined.

Lemma ops_complete_witness :
  let s := demo_run [2; 2; 0; 1; 0; 0; 1; 1; 0; 1; 0; 1] in
  forallb (fun t => bool_decide (t.2 = Done)) (ops s) = true /\ 12 <= 5 * length demo_requests.
Proof.
  intros s. split; [by vm_compute|].
  refine (proj1 (ops_complete true demo_requests 12 s
    (run_steps true (new demo_requests) [2; 2; 0; 1; 0; 0; 1; 1; 0; 1; 0; 1] s _))).
  by vm_compute.
Defined.

End OpLocks.
