(* ===== verification/SecurityKey.v ===== *)
(** * The security-key proxy ([d2bd], [security_key.rs])

    [Module Ctaphid] is the report format and its framing on the relay stream,
    [Module Cid] the channel-id translator, [Module Lease] the lease of the
    physical key and the connections that take it ([run_connection], with one
    [SecurityKeyState] per VM as [start_sk_accept_loop] of [lib.rs] builds
    them).  Instants are seconds. *)

From S2P Require Import Prelude Ids Streams Frame Gateway.

Module Ctaphid.

Abbreviation byte := Ascii.ascii (only parsing).

Definition CTAPHID_REPORT_SIZE : nat := 64.
Definition CTAPHID_CANCEL : byte := Ascii.ascii_of_N 145.
Definition CTAPHID_ERROR : byte := Ascii.ascii_of_N 191.
Definition CTAPHID_BROADCAST_CID : N := 4294967295.

Record CtaphidInitPacket := mkInitPacket { cid : N; cmd : byte; bcnt : N; data : list byte }.
Record CtaphidContPacket := mkContPacket { cont_cid : N; cont_seq : byte; cont_data : list byte }.

Inductive CtaphidPacket : Type :=
| Init (p : CtaphidInitPacket)
| Cont (p : CtaphidContPacket).

(** [from_be_bytes] *)
Definition from_be_bytes (bs : list byte) : N := from_le_bytes (reverse bs).

(** [byte4 & 0x80 != 0] *)
Definition init_bit (b : byte) : bool := N.testbit (Ascii.N_of_ascii b) 7.

Definition parse_ctaphid_report (buf : list byte) : CtaphidPacket :=
  let cid := from_be_bytes (take 4 buf) in
  let byte4 := nth 4 buf Ascii.zero in
  if init_bit byte4
  then Init (mkInitPacket cid byte4 (from_be_bytes (take 2 (drop 5 buf))) (drop 7 buf))
  else Cont (mkContPacket cid byte4 (drop 5 buf)).

(** Zero bytes up to the size of a report. *)
Definition pad (l : list byte) : list byte :=
  l ++ replicate (CTAPHID_REPORT_SIZE - length l) Ascii.zero.

Definition build_init_packet (cid : N) (cmd : byte) (bcnt : N) (payload : list byte) : list byte :=
  pad (Handshake.be_bytes 4 cid ++ [cmd] ++ Handshake.be_bytes 2 bcnt ++ take 57 payload).

Definition build_error_report (cid : N) (error_code : byte) : list byte :=
  build_init_packet cid CTAPHID_ERROR 1 [error_code].

Definition build_cancel_packet (cid : N) : list byte := build_init_packet cid CTAPHID_CANCEL 0 [].

(** ** Framing *)

Inductive recv_error : Set := UnexpectedEof | InvalidData.

(** [read_exact] *)
Definition read_exact (n : nat) (stream : list byte) : option (list byte * list byte) :=
  if n <=? length stream then Some (take n stream, drop n stream) else None.

Definition recv_report (stream : list byte) : result (list byte) recv_error * list byte :=
  match read_exact 4 stream with
  | None => (Err UnexpectedEof, [])
  | Some (len_buf, stream) =>
      let len := from_le_bytes len_buf in
      if negb (len =? N.of_nat CTAPHID_REPORT_SIZE)%N then (Err InvalidData, stream)
      else match read_exact CTAPHID_REPORT_SIZE stream with
           | None => (Err UnexpectedEof, [])
           | Some (report, stream) => (Ok report, stream)
           end
  end.

Definition send_report (report : list byte) : list byte :=
  le_bytes 4 (N.of_nat CTAPHID_REPORT_SIZE) ++ report.

Lemma from_be_bytes_be w n : (n < 256 ^ N.of_nat w)%N -> from_be_bytes (Handshake.be_bytes w n) = n.
Proof.
  intros Hn. unfold from_be_bytes, Handshake.be_bytes. rewrite reverse_involutive.
  by apply from_le_bytes_le_bytes.
Qed.

Lemma pad_length l : length l <= CTAPHID_REPORT_SIZE -> length (pad l) = CTAPHID_REPORT_SIZE.
Proof. intros Hl. unfold pad. rewrite length_app, length_replicate. lia. Qed.

(** A built report reads back as what was put in. *)
Lemma parse_build cid cmd bcnt payload :
  u32_fits cid -> (bcnt < 2 ^ 16)%N -> init_bit cmd = true ->
  length (build_init_packet cid cmd bcnt payload) = CTAPHID_REPORT_SIZE
  /\ exists zeros, parse_ctaphid_report (build_init_packet cid cmd bcnt payload)
     = Init (mkInitPacket cid cmd bcnt (take 57 payload ++ replicate zeros Ascii.zero)).
Proof.
  intros Hc Hb Hi. unfold build_init_packet.
  pose proof (Handshake.be_bytes_length 4 cid) as Hl4.
  pose proof (Handshake.be_bytes_length 2 bcnt) as Hl2. split.
  - apply pad_length. rewrite !length_app, Hl4, Hl2, length_take. unfold CTAPHID_REPORT_SIZE.
    cbn [length]. lia.
  - unfold pad. set (z := CTAPHID_REPORT_SIZE - _).
    exists z. clearbody z. unfold parse_ctaphid_report.
    remember (Handshake.be_bytes 4 cid) as b4 eqn:E4. remember (Handshake.be_bytes 2 bcnt) as b2 eqn:E2.
    destruct b4 as [|x0 [|x1 [|x2 [|x3 [|]]]]]; try done. destruct b2 as [|y0 [|y1 [|]]]; try done.
    assert (from_be_bytes [x0; x1; x2; x3] = cid) as Hcid.
    { rewrite E4. apply from_be_bytes_be. unfold u32_fits, u32_max in Hc. simpl. lia. }
    assert (from_be_bytes [y0; y1] = bcnt) as Hbcnt by (rewrite E2; by apply from_be_bytes_be).
    simpl. rewrite Hi, take_0, drop_0, Hcid, Hbcnt. done.
Qed.

(** The stream carries the reports that were sent, and nothing else is one. *)
Lemma recv_report_exact stream report rest :
  recv_report stream = (Ok report, rest) <->
  length report = CTAPHID_REPORT_SIZE /\ stream = send_report report ++ rest.
Proof.
  unfold recv_report, send_report, read_exact. split.
  - destruct (4 <=? length stream) eqn:E4; [|done]. apply Nat.leb_le in E4.
    destruct (N.eqb_spec (from_le_bytes (take 4 stream)) (N.of_nat CTAPHID_REPORT_SIZE)) as [El|]; [|done].
    simpl negb. cbv iota. destruct (CTAPHID_REPORT_SIZE <=? _) eqn:E64; [|done].
    apply Nat.leb_le in E64. intros [= <- <-].
    split; [rewrite length_take; unfold CTAPHID_REPORT_SIZE in *; lia|].
    rewrite <- El, <- app_assoc, take_drop.
    rewrite <- (take_drop 4 stream) at 1. f_equal. symmetry.
    replace 4 with (length (take 4 stream)) at 1 by (rewrite length_take; lia). apply le_bytes_from.
  - intros [Hlen ->]. rewrite <- app_assoc.
    rewrite (proj2 (Nat.leb_le _ _)) by (rewrite length_app, le_bytes_length; lia).
    rewrite take_app_length' by by rewrite le_bytes_length.
    rewrite drop_app_length' by by rewrite le_bytes_length.
    rewrite from_le_bytes_le_bytes by done. rewrite N.eqb_refl. simpl negb. cbv iota.
    rewrite (proj2 (Nat.leb_le _ _)) by (rewrite length_app; lia).
    by rewrite take_app_length', drop_app_length'.
Qed.

End Ctaphid.

Module Cid.
Import Ctaphid.

(** ** Channel ids *)

Record CidTranslator := mkCidTranslator {
  guest_to_host : gmap N N;
  host_to_guest : gmap N N;
  next_host_cid : N
}.

Definition new : CidTranslator := mkCidTranslator ∅ ∅ 1.

(** [HashMap::remove] on both maps *)
Definition release_guest_cid (guest_cid : N) (self : CidTranslator) : CidTranslator :=
  match guest_to_host self !! guest_cid with
  | Some host_cid =>
      mkCidTranslator (delete guest_cid (guest_to_host self))
        (delete host_cid (host_to_guest self)) (next_host_cid self)
  | None => self
  end.

Definition usable (self : CidTranslator) (candidate : N) : bool :=
  negb (candidate =? 0)%N && negb (candidate =? CTAPHID_BROADCAST_CID)%N
  && negb (bool_decide (is_Some (host_to_guest self !! candidate))).

(** The search of [alloc_host_cid]; [None] is running out of fuel. *)
Fixpoint alloc_loop (fuel : nat) (guest_cid : N) (self : CidTranslator) :
    option (N * CidTranslator) :=
  match fuel with
  | 0 => None
  | S fuel =>
      let candidate := next_host_cid self in
      let self := mkCidTranslator (guest_to_host self) (host_to_guest self)
                    ((candidate + 1) mod 2 ^ 32)%N in
      if usable self candidate then
        Some (candidate, mkCidTranslator (<[guest_cid := candidate]> (guest_to_host self))
                           (<[candidate := guest_cid]> (host_to_guest self)) (next_host_cid self))
      else alloc_loop fuel guest_cid self
  end.

(** As many candidates are tried as there are unusable ones, and one more. *)
Definition alloc_host_cid (guest_cid : N) (self : CidTranslator) : option (N * CidTranslator) :=
  let self := release_guest_cid guest_cid self in
  alloc_loop (size (host_to_guest self) + 3) guest_cid self.

Definition to_host (self : CidTranslator) (guest_cid : N) : option N :=
  if (guest_cid =? CTAPHID_BROADCAST_CID)%N then Some CTAPHID_BROADCAST_CID
  else guest_to_host self !! guest_cid.

Definition to_guest (self : CidTranslator) (host_cid : N) : option N :=
  if (host_cid =? CTAPHID_BROADCAST_CID)%N then Some CTAPHID_BROADCAST_CID
  else host_to_guest self !! host_cid.

(** The two maps are inverse, and host ids are proper channel ids. *)
Record bijective (self : CidTranslator) : Prop := {
  bij_maps g h : guest_to_host self !! g = Some h <-> host_to_guest self !! h = Some g;
  bij_proper h g : host_to_guest self !! h = Some g -> h <> 0%N /\ h <> CTAPHID_BROADCAST_CID;
  bij_next : (next_host_cid self < 2 ^ 32)%N
}.

Lemma release_bijective g self : bijective self -> bijective (release_guest_cid g self).
Proof.
  intros [Hm Hp Hn]. unfold release_guest_cid.
  destruct (guest_to_host self !! g) as [h|] eqn:E; [|done]. split; simpl; [| |done].
  - intros g' h'. rewrite !lookup_delete_Some, Hm. split; intros [Hne Hl]; (split; [|done]).
    + intros <-. apply Hne. apply Hm in E. congruence.
    + intros <-. apply Hne. apply Hm in Hl. congruence.
  - intros h' g' [_ Hl]%lookup_delete_Some. eauto.
Qed.

(** The candidates tried are consecutive. *)
Lemma alloc_loop_spec fuel g self :
  bijective self ->
  (exists k, k < fuel
    /\ (forall j, j < k -> usable self ((next_host_cid self + N.of_nat j) mod 2 ^ 32)%N = false)
    /\ let h := ((next_host_cid self + N.of_nat k) mod 2 ^ 32)%N in
       usable self h = true
       /\ alloc_loop fuel g self
          = Some (h, mkCidTranslator (<[g := h]> (guest_to_host self))
                       (<[h := g]> (host_to_guest self)) ((h + 1) mod 2 ^ 32)%N))
  \/ (forall j, j < fuel -> usable self ((next_host_cid self + N.of_nat j) mod 2 ^ 32)%N = false).
Proof.
  revert self. induction fuel as [|fuel IH]; intros self Hb; [right; lia|]. cbn [alloc_loop].
  pose proof (bij_next self Hb) as Hn.
  set (self' := mkCidTranslator (guest_to_host self) (host_to_guest self) ((next_host_cid self + 1) mod 2 ^ 32)%N).
  assert (forall c, usable self' c = usable self c) as Hu by done.
  assert (bijective self') as Hb'.
  { destruct Hb as [Hm Hp _]. split; simpl; [done|done|]. apply N.mod_lt. lia. }
  assert (forall j, ((next_host_cid self' + N.of_nat j) mod 2 ^ 32
                     = (next_host_cid self + N.of_nat (S j)) mod 2 ^ 32)%N) as Hnext.
  { intros j. simpl. rewrite N.Div0.add_mod_idemp_l. f_equal. lia. }
  assert ((next_host_cid self + N.of_nat 0) mod 2 ^ 32 = next_host_cid self)%N as H0.
  { rewrite N.add_0_r. by apply N.mod_small. }
  destruct (usable self (next_host_cid self)) eqn:E.
  - left. exists 0. rewrite H0. split_and!; [lia|lia|done|]. rewrite Hu, E. done.
  - rewrite Hu, E. destruct (IH self' Hb') as [(k & Hk & Hall & Hus & Heq)|Hall].
    + left. exists (S k). split_and!; [lia| | |].
      * intros [|j] Hj; [by rewrite H0|]. rewrite <- Hnext, <- Hu. apply Hall. lia.
      * rewrite <- Hnext, <- Hu. exact Hus.
      * rewrite <- Hnext. exact Heq.
    + right. intros [|j] Hj; [by rewrite H0|]. rewrite <- Hnext, <- Hu. apply Hall. lia.
Qed.

(** There are fewer unusable ids than candidates tried. *)
Lemma usable_exists self :
  (N.of_nat (size (host_to_guest self) + 3) <= 2 ^ 32)%N ->
  ~ forall j, j < size (host_to_guest self) + 3 ->
    usable self ((next_host_cid self + N.of_nat j) mod 2 ^ 32)%N = false.
Proof.
  intros Hsz Hall. set (n := size (host_to_guest self) + 3) in *.
  set (f j := ((next_host_cid self + N.of_nat j) mod 2 ^ 32)%N).
  assert (NoDup (f <$> seq 0 n)) as Hnd.
  { apply NoDup_fmap_2_strong; [|apply NoDup_seq]. intros i j Hi%elem_of_seq Hj%elem_of_seq E.
    unfold f in E. pose proof (N.div_mod' (next_host_cid self + N.of_nat i) (2 ^ 32)).
    pose proof (N.div_mod' (next_host_cid self + N.of_nat j) (2 ^ 32)). rewrite E in *. nia. }
  assert (list_to_set (f <$> seq 0 n) ⊆ dom (host_to_guest self) ∪ {[0%N; CTAPHID_BROADCAST_CID]})
    as Hsub.
  { intros c [j [-> Hj%elem_of_seq]]%elem_of_list_to_set%list_elem_of_fmap.
    specialize (Hall j ltac:(lia)). fold (f j) in Hall. unfold usable in Hall.
    destruct (N.eqb_spec (f j) 0) as [->|]; [set_solver|].
    destruct (N.eqb_spec (f j) CTAPHID_BROADCAST_CID) as [->|]; [set_solver|]. simpl in Hall.
    apply negb_false_iff, bool_decide_eq_true in Hall. apply elem_of_union_l. by apply elem_of_dom. }
  apply subseteq_size in Hsub. rewrite size_list_to_set, length_fmap, length_seq in Hsub by done.
  pose proof (size_union_alt (dom (host_to_guest self)) ({[0%N; CTAPHID_BROADCAST_CID]} : gset N)) as Hu.
  rewrite size_dom in Hu. unfold n in Hsub.
  assert (size (({[0%N; CTAPHID_BROADCAST_CID]} : gset N) ∖ dom (host_to_guest self)) <= 2) as H2.
  { etrans; [apply subseteq_size, subseteq_difference_l; reflexivity|]. done. }
  lia.
Qed.

(** Allocation terminates while fewer than [2 ^ 32 - 2] channels are open: it
    gives the guest a proper id no other guest has and disturbs no other
    channel. *)
Lemma alloc_spec g self :
  bijective self -> (N.of_nat (size (host_to_guest self) + 3) <= 2 ^ 32)%N ->
  exists h self', alloc_host_cid g self = Some (h, self') /\ bijective self'
    /\ guest_to_host self' !! g = Some h
    /\ host_to_guest (release_guest_cid g self) !! h = None
    /\ forall g', g' <> g -> guest_to_host self' !! g' = guest_to_host self !! g'.
Proof.
  intros Hb Hsz. pose proof (release_bijective g self Hb) as Hr.
  assert (size (host_to_guest (release_guest_cid g self)) <= size (host_to_guest self)) as Hle.
  { unfold release_guest_cid. destruct (guest_to_host self !! g); [|done]. simpl.
    apply map_subseteq_size, delete_subseteq. }
  assert (guest_to_host (release_guest_cid g self) !! g = None) as Hgone.
  { unfold release_guest_cid. destruct (guest_to_host self !! g) eqn:E; [|done]. simpl. apply lookup_delete_eq. }
  assert (forall g', g' <> g -> guest_to_host (release_guest_cid g self) !! g' = guest_to_host self !! g') as Hkeep.
  { intros g' Hne. unfold release_guest_cid. destruct (guest_to_host self !! g); [|done]. simpl.
    by rewrite lookup_delete_ne. }
  unfold alloc_host_cid. set (r := release_guest_cid g self) in *. cbv zeta.
  destruct (alloc_loop_spec (size (host_to_guest r) + 3) g r Hr) as [(k & _ & _ & Hu & ->)|Hall];
    [|exfalso; eapply usable_exists; [|exact Hall]; lia].
  set (h := ((next_host_cid r + N.of_nat k) mod 2 ^ 32)%N) in *. unfold usable in Hu.
  apply andb_true_iff in Hu as [[H0 HB]%andb_true_iff Hf].
  apply negb_true_iff, N.eqb_neq in H0, HB. apply negb_true_iff, bool_decide_eq_false in Hf.
  apply eq_None_not_Some in Hf. destruct Hr as [Hm Hp Hn].
  eexists _, _. split; [done|]. simpl. split_and!; [|by rewrite lookup_insert_eq|done|].
  - split; simpl.
    + intros g' h'. rewrite !lookup_insert_Some, Hm. split.
      * intros [[-> ->]|[Hne Hl]]; [by left|right]. split; [congruence|done].
      * intros [[-> ->]|[Hne Hl]]; [by left|right]. split; [|done]. intros <-. apply Hm in Hl. congruence.
    + intros h' g'. rewrite lookup_insert_Some. intros [[<- _]|[_ Hl]]; [done|eauto].
    + apply N.mod_lt. lia.
  - intros g' Hne. rewrite lookup_insert_ne by done. by apply Hkeep.
Qed.

End Cid.

Module Lease.

(** ** The lease of the physical key *)

Definition CEREMONY_TIMEOUT : N := 120.
Definition QUEUE_WAIT_TIMEOUT : N := 15.

Inductive LeaseState : Type :=
| Available
| Leased (vm_id : string) (lease_id : N) (started_at : N) (timeout : N).

(** [started_at.elapsed() > timeout] at [now] *)
Definition is_expired (self : LeaseState) (now : N) : bool :=
  match self with
  | Available => false
  | Leased _ _ started_at timeout => (timeout <? now - started_at)%N
  end.

Record SecurityKeyState := mkSecurityKeyState {
  enabled_vms : gset string;
  lease : LeaseState
}.

Definition new : SecurityKeyState := mkSecurityKeyState ∅ Available.

(** The id is drawn from the process-wide counter, which is returned. *)
Definition try_acquire_lease (now : N) (vm_id : string) (counter : N) (self : SecurityKeyState) :
    option N * N * SecurityKeyState :=
  let lease := if is_expired (lease self) now then Available else lease self in
  match lease with
  | Available =>
      (Some counter, u64_wrap (counter + 1),
       mkSecurityKeyState (enabled_vms self) (Leased vm_id counter now CEREMONY_TIMEOUT))
  | Leased _ _ _ _ => (None, counter, mkSecurityKeyState (enabled_vms self) lease)
  end.

Definition release_lease (vm_id : string) (lease_id : N) (self : SecurityKeyState) :
    SecurityKeyState :=
  match lease self with
  | Leased holder held_id _ _ =>
      if bool_decide (holder = vm_id) && (held_id =? lease_id)%N
      then mkSecurityKeyState (enabled_vms self) Available
      else self
  | Available => self
  end.

(** ** Connections *)

(** A connection in [run_connection]: waiting for the lease until its
    deadline, relaying reports both ways, or over.  [started] is when it got
    the lease. *)
Inductive phase : Type :=
| Queued (deadline : N)
| Relaying (lease_id : N) (started : N)
| Over.

(** The accept loop's VM and the index of its state. *)
Record connection := mkConnection { conn_vm : string; conn_state : nat; conn_phase : phase }.

(** Each accept loop has a [SecurityKeyState] of its own; all of them have a
    descriptor of the one physical key. *)
Record system := mkSystem {
  clock : N;
  counter : N;
  states : list SecurityKeyState;
  connections : list connection
}.

Definition start : system := mkSystem 0 1 [] [].

(** [start_sk_accept_loop] *)
Definition start_sk_accept_loop (vm : string) (s : system) : system :=
  mkSystem (clock s) (counter s) (states s ++ [mkSecurityKeyState {[vm]} Available]) (connections s).

Definition set_connection (s : system) (i : nat) (c : connection) (p : phase) : list connection :=
  <[i := mkConnection (conn_vm c) (conn_state c) p]> (connections s).

(** One turn of the queue loop. *)
Definition poll (s : system) (i : nat) (c : connection) (deadline : N) (k : SecurityKeyState) : system :=
  match try_acquire_lease (clock s) (conn_vm c) (counter s) k with
  | (Some id, n, k) =>
      mkSystem (clock s) n (<[conn_state c := k]> (states s))
        (set_connection s i c (Relaying id (clock s)))
  | (None, n, k) =>
      mkSystem (clock s) n (<[conn_state c := k]> (states s))
        (if (deadline <=? clock s)%N then set_connection s i c Over else connections s)
  end.

Inductive step (s : system) : system -> Prop :=
| step_time d : step s (mkSystem (clock s + d) (counter s) (states s) (connections s))
| step_start vm : step s (start_sk_accept_loop vm s)
| step_accept vm j k :
    states s !! j = Some k -> vm ∈ enabled_vms k ->
    step s (mkSystem (clock s) (counter s) (states s)
              (connections s ++ [mkConnection vm j (Queued (clock s + QUEUE_WAIT_TIMEOUT))]))
| step_poll i c deadline k :
    connections s !! i = Some c -> conn_phase c = Queued deadline ->
    states s !! conn_state c = Some k -> step s (poll s i c deadline k)
| step_close i c id started k :
    connections s !! i = Some c -> conn_phase c = Relaying id started ->
    states s !! conn_state c = Some k ->
    step s (mkSystem (clock s) (counter s)
              (<[conn_state c := release_lease (conn_vm c) id k]> (states s))
              (set_connection s i c Over)).

(** Systems reached before the id counter wraps. *)
Definition reachable : system -> Prop :=
  rtc (fun s s' => (counter s < u64_max)%N /\ step s s') start.

(** A relaying connection has the lease on record, or has outstayed it. *)
Definition holds_or_expired (s : system) (c : connection) (id started : N) : Prop :=
  (started + CEREMONY_TIMEOUT < clock s)%N
  \/ exists k, states s !! conn_state c = Some k
       /\ lease k = Leased (conn_vm c) id started CEREMONY_TIMEOUT.

Record exclusive (s : system) : Prop := {
  ex_holds i c id started :
    connections s !! i = Some c -> conn_phase c = Relaying id started ->
    (id < counter s)%N /\ holds_or_expired s c id started;
  ex_unique i j c d id t u :
    connections s !! i = Some c -> connections s !! j = Some d ->
    conn_phase c = Relaying id t -> conn_phase d = Relaying id u -> i = j;
  ex_lease j k vm id t timeout :
    states s !! j = Some k -> lease k = Leased vm id t timeout ->
    timeout = CEREMONY_TIMEOUT /\ (id < counter s)%N
}.

Lemma start_exclusive : exclusive start.
Proof. split; simpl; intros; by rewrite lookup_nil in *. Qed.

(** One connection moves on, and its state changes with it: every other
    connection on that state keeps the lease it had, or has outstayed it. *)
Lemma update_exclusive s i c p k k' n :
  exclusive s -> connections s !! i = Some c -> states s !! conn_state c = Some k ->
  (counter s <= n)%N ->
  (forall vm id t timeout, lease k' = Leased vm id t timeout ->
     timeout = CEREMONY_TIMEOUT /\ (id < n)%N) ->
  (forall id t, p = Relaying id t ->
     (counter s <= id < n)%N /\ lease k' = Leased (conn_vm c) id t CEREMONY_TIMEOUT) ->
  (lease k' = lease k
   \/ forall j d id t, j <> i -> connections s !! j = Some d -> conn_state d = conn_state c ->
        conn_phase d = Relaying id t -> (t + CEREMONY_TIMEOUT < clock s)%N) ->
  exclusive (mkSystem (clock s) n (<[conn_state c := k']> (states s)) (set_connection s i c p)).
Proof.
  intros [Hh Hu Hl] Hi Hk Hn Hlease Hnew Hothers. unfold set_connection.
  assert (forall j d, connections s !! j = Some d -> forall id t, conn_phase d = Relaying id t ->
            (id < counter s)%N) as Hold by (intros; by eapply Hh).
  split; simpl.
  - intros j d id t Hj Hp. apply list_lookup_insert_Some in Hj as [(<- & <- & _)|[Hne Hj]].
    + simpl in Hp. destruct (Hnew _ _ Hp) as [Hid Hlk]. split; [lia|]. right. exists k'. simpl.
      split; [|done]. apply list_lookup_insert_eq. by eapply lookup_lt_Some.
    + destruct (Hh _ _ _ _ Hj Hp) as [Hid Hold']. split; [lia|].
      destruct Hold' as [He|(kd & Hkd & Hld)]; [by left|].
      destruct (decide (conn_state d = conn_state c)) as [Es|Hs].
      * destruct Hothers as [Hsame|Hexp]; [right|left; by eapply Hexp].
        exists k'. simpl. rewrite Es in *. split; [|congruence].
        apply list_lookup_insert_eq. by eapply lookup_lt_Some.
      * right. exists kd. simpl. by rewrite list_lookup_insert_ne.
  - intros j j' d d' id t u Hj Hj' Hp Hp'.
    apply list_lookup_insert_Some in Hj as [(<- & <- & _)|[Hne Hj]];
      apply list_lookup_insert_Some in Hj' as [(<- & <- & _)|[Hne' Hj']]; [done|..|by eapply Hu].
    + simpl in Hp. destruct (Hnew _ _ Hp) as [Hid _]. pose proof (Hold _ _ Hj' _ _ Hp'). lia.
    + simpl in Hp'. destruct (Hnew _ _ Hp') as [Hid _]. pose proof (Hold _ _ Hj _ _ Hp). lia.
  - intros j kj vm id t timeout Hj Hlj.
    apply list_lookup_insert_Some in Hj as [(<- & <- & _)|[Hne Hj]]; [by eapply Hlease|].
    destruct (Hl _ _ _ _ _ _ Hj Hlj). split; [done|lia].
Qed.

Lemma poll_exclusive s i c deadline k :
  exclusive s -> (counter s < u64_max)%N -> connections s !! i = Some c ->
  conn_phase c = Queued deadline -> states s !! conn_state c = Some k ->
  exclusive (poll s i c deadline k).
Proof.
  intros Hs Hlt Hi Hp Hk. pose proof Hs as [Hh Hu Hl]. unfold poll, try_acquire_lease.
  assert (u64_wrap (counter s + 1) = counter s + 1)%N as Hw.
  { unfold u64_wrap. apply N.mod_small. unfold u64_max in Hlt. lia. }
  destruct (lease k) as [|v id t timeout] eqn:El; simpl.
  - rewrite Hw. apply (update_exclusive _ _ _ _ k); simpl; try done; [lia|naive_solver lia|naive_solver lia|].
    right. intros j d id t Hne Hj Es Hpd. destruct (Hh _ _ _ _ Hj Hpd) as [_ [He|(kd & Hkd & Hld)]]; [done|].
    rewrite Es in Hkd. congruence.
  - destruct (Hl _ _ _ _ _ _ Hk El) as [-> Hid].
    destruct (N.ltb_spec CEREMONY_TIMEOUT (clock s - t)) as [Hexp|Hfresh].
    + rewrite Hw. apply (update_exclusive _ _ _ _ k); simpl; try done; [lia|naive_solver lia|naive_solver lia|].
      right. intros j d id' t' Hne Hj Es Hpd.
      destruct (Hh _ _ _ _ Hj Hpd) as [_ [He|(kd & Hkd & Hld)]]; [done|].
      rewrite Es, Hk in Hkd. simplify_eq. rewrite El in Hld. simplify_eq. lia.
    + destruct (deadline <=? clock s)%N.
      * apply (update_exclusive _ _ _ _ k); simpl; try done; [naive_solver|by left].
      * rewrite <- (list_insert_id (connections s) i c Hi).
        replace c with (mkConnection (conn_vm c) (conn_state c) (conn_phase c)) at 2 by by destruct c.
        apply (update_exclusive _ _ _ _ k); simpl; try done; [naive_solver|by rewrite Hp|by left].
Qed.

Lemma close_exclusive s i c id started k :
  exclusive s -> connections s !! i = Some c -> conn_phase c = Relaying id started ->
  states s !! conn_state c = Some k ->
  exclusive (mkSystem (clock s) (counter s)
               (<[conn_state c := release_lease (conn_vm c) id k]> (states s))
               (set_connection s i c Over)).
Proof.
  intros Hs Hi Hp Hk. pose proof Hs as [Hh Hu Hl].
  apply (update_exclusive _ _ _ _ k); try done.
  - unfold release_lease. destruct (lease k) as [|v lid t timeout] eqn:El; [by rewrite El|].
    destruct (_ && _); [done|]. rewrite El. intros ? ? ? ? [= <- <- <- <-]. by eapply Hl.
  - unfold release_lease. destruct (lease k) as [|v lid t timeout] eqn:El; [left; by rewrite El|].
    destruct (bool_decide (v = conn_vm c) && (lid =? id)%N) eqn:Em; [right|left; by rewrite El].
    apply andb_true_iff in Em as [_ ->%N.eqb_eq]. intros j d id' t' Hne Hj Es Hpd.
    destruct (Hh _ _ _ _ Hj Hpd) as [_ [He|(kd & Hkd & Hld)]]; [done|].
    rewrite Es, Hk in Hkd. simplify_eq. rewrite El in Hld. simplify_eq. destruct Hne. by eapply Hu.
Qed.

Lemma step_exclusive s s' : exclusive s -> (counter s < u64_max)%N -> step s s' -> exclusive s'.
Proof.
  intros Hs Hlt Hstep. destruct Hstep as [d|vm|vm j k Hj Hvm|i c dl k Hi Hp Hk|i c id t k Hi Hp Hk];
    [..|by apply poll_exclusive|by eapply close_exclusive]; destruct Hs as [Hh Hu Hl].
  - split; simpl; [|done|done]. intros i c id t Hi Hp. destruct (Hh _ _ _ _ Hi Hp) as [? [He|He]];
      (split; [done|]); [left; simpl; lia|by right].
  - split; simpl; [|done|].
    + intros i c id t Hi Hp. destruct (Hh _ _ _ _ Hi Hp) as [? [He|(k & Hk & Hlk)]]; (split; [done|]);
        [by left|right]. exists k. simpl. split; [by apply lookup_app_l_Some|done].
    + intros j k v id t timeout Hj. apply lookup_app_Some in Hj as [Hj|[_ Hj]]; [by eapply Hl|].
      apply list_lookup_singleton_Some in Hj as [_ <-]. done.
  - assert (forall i c id t, (connections s ++ [mkConnection vm j (Queued (clock s + QUEUE_WAIT_TIMEOUT))]) !! i
              = Some c -> conn_phase c = Relaying id t -> connections s !! i = Some c) as Hin.
    { intros i c id t Hi Hp. apply lookup_app_Some in Hi as [Hi|[_ Hi]]; [done|].
      apply list_lookup_singleton_Some in Hi as [_ <-]. done. }
    split; simpl; [| |done].
    + intros i c id t Hi Hp. apply (Hin _ _ _ _ Hi) in Hp as Hi'. by apply (Hh i c id t).
    + intros i i' c c' id t u Hi Hi' Hp Hp'. apply (Hin _ _ _ _ Hi) in Hp as H1.
      apply (Hin _ _ _ _ Hi') in Hp' as H2. by eapply Hu.
Qed.

(** Under one lease state at most one connection relays within its ceremony
    timeout: of two that relay at once, one has held its lease for longer than
    [CEREMONY_TIMEOUT].  A late release of an old lease does not free a new
    one. *)
Theorem key_lease_exclusive s i j c d id id' t u :
  reachable s -> i <> j ->
  connections s !! i = Some c -> connections s !! j = Some d ->
  conn_phase c = Relaying id t -> conn_phase d = Relaying id' u ->
  conn_state c = conn_state d ->
  (t + CEREMONY_TIMEOUT < clock s)%N \/ (u + CEREMONY_TIMEOUT < clock s)%N.
Proof.
  intros Hr Hne Hi Hj Hp Hq Es.
  assert (exclusive s) as [Hh Hu _].
  { revert s Hr Hi Hj. intros s Hr _ _. revert s Hr. refine (rtc_ind_r exclusive start start_exclusive _).
    intros s1 s2 _ [Hlt Hs] IH. by eapply step_exclusive. }
  destruct (Hh _ _ _ _ Hi Hp) as [_ [?|(k & Hk & Hl)]]; [by left|].
  destruct (Hh _ _ _ _ Hj Hq) as [_ [?|(k' & Hk' & Hl')]]; [by right|].
  rewrite Es, Hk' in Hk. simplify_eq. rewrite Hl' in Hl. simplify_eq. destruct Hne. by eapply Hu.
Qed.

(** Runs of steps on concrete systems. *)
Ltac run_to s := apply (rtc_l _ _ s); [split; [done|]|].

(** A VM's second connection, made when the first has relayed for longer than
    the timeout. *)
Definition outstayed : system :=
  mkSystem 121 3 [mkSecurityKeyState {["work"]} (Leased "work" 2 121 120)]
    [mkConnection "work" 0 (Relaying 1 0); mkConnection "work" 0 (Relaying 2 121)].

Lemma outstayed_reachable : reachable outstayed.
Proof.
  pose (k0 := mkSecurityKeyState {["work"]} Available).
  pose (k1 := mkSecurityKeyState {["work"]} (Leased "work" 1 0 120)).
  pose (c1 := mkConnection "work" 0 (Relaying 1 0)).
  run_to (mkSystem 0 1 [k0] []); [exact (step_start start "work")|].
  run_to (mkSystem 0 1 [k0] [mkConnection "work" 0 (Queued 15)]);
    [refine (step_accept (mkSystem 0 1 [k0] []) "work" 0 k0 eq_refl _); set_solver|].
  run_to (mkSystem 0 2 [k1] [c1]);
    [exact (step_poll (mkSystem 0 1 [k0] [mkConnection "work" 0 (Queued 15)]) 0 _ 15 k0 eq_refl eq_refl eq_refl)|].
  run_to (mkSystem 121 2 [k1] [c1]); [exact (step_time (mkSystem 0 2 [k1] [c1]) 121)|].
  run_to (mkSystem 121 2 [k1] [c1; mkConnection "work" 0 (Queued 136)]);
    [refine (step_accept (mkSystem 121 2 [k1] [c1]) "work" 0 k1 eq_refl _); set_solver|].
  run_to outstayed; [|apply rtc_refl].
  exact (step_poll (mkSystem 121 2 [k1] [c1; mkConnection "work" 0 (Queued 136)]) 1 _ 136 k1
           eq_refl eq_refl eq_refl).
Qed.

Lemma key_lease_exclusive_witness :
  (0 + CEREMONY_TIMEOUT < clock outstayed)%N \/ (121 + CEREMONY_TIMEOUT < clock outstayed)%N.
Proof.
  exact (key_lease_exclusive outstayed 0 1 _ _ 1 2 0 121 outstayed_reachable ltac:(done)
           eq_refl eq_refl eq_refl eq_refl eq_refl).
Defined.

(** Nothing keeps two VMs from the key at once: there is a run in which two
    VMs with the proxy enabled relay to the one physical key at the same
    instant, because each accept loop asks a lease of its own. *)
Example two_vms_relay_at_once :
  exists s, reachable s /\ clock s = 0%N
    /\ connections s = [mkConnection "work" 0 (Relaying 1 0); mkConnection "home" 1 (Relaying 2 0)].
Proof.
  pose (ka := mkSecurityKeyState {["work"]} Available). pose (kb := mkSecurityKeyState {["home"]} Available).
  pose (la := mkSecurityKeyState {["work"]} (Leased "work" 1 0 120)).
  pose (lb := mkSecurityKeyState {["home"]} (Leased "home" 2 0 120)).
  pose (qa := mkConnection "work" 0 (Queued 15)). pose (qb := mkConnection "home" 1 (Queued 15)).
  pose (ra := mkConnection "work" 0 (Relaying 1 0)). pose (rb := mkConnection "home" 1 (Relaying 2 0)).
  exists (mkSystem 0 3 [la; lb] [ra; rb]). split; [|done].
  run_to (mkSystem 0 1 [ka] []); [exact (step_start start "work")|].
  run_to (mkSystem 0 1 [ka; kb] []); [exact (step_start (mkSystem 0 1 [ka] []) "home")|].
  run_to (mkSystem 0 1 [ka; kb] [qa]);
    [refine (step_accept (mkSystem 0 1 [ka; kb] []) "work" 0 ka eq_refl _); set_solver|].
  run_to (mkSystem 0 1 [ka; kb] [qa; qb]);
    [refine (step_accept (mkSystem 0 1 [ka; kb] [qa]) "home" 1 kb eq_refl _); set_solver|].
  run_to (mkSystem 0 2 [la; kb] [ra; qb]);
    [exact (step_poll (mkSystem 0 1 [ka; kb] [qa; qb]) 0 qa 15 ka eq_refl eq_refl eq_refl)|].
  apply rtc_once. split; [done|].
  exact (step_poll (mkSystem 0 2 [la; kb] [ra; qb]) 1 qb 15 kb eq_refl eq_refl eq_refl).
Qed.

End Lease.
