(* ===== verification/Identity.v ===== *)
(** * The realm identity store ([d2b-realm-core])

    [identity_store.rs] with the records of [enrollment.rs]: enrollments and
    their pins, controller generations and their rotation, revocations and
    revocation lists, and the recovery of a child controller.  Every method
    is a [handler] on the store, so what a refused call leaves behind is part
    of the model. *)

From S2P Require Import Prelude Ids Streams Frame Routing.

Module Identity.

(** ** Metadata ([enrollment.rs]) *)

Definition MAX_REVOCATION_LIST_RECORDS : nat := 512.
Definition MAX_PROPAGATED_REALMS : nat := 64.
Definition MAX_TEARDOWN_WORKLOADS : nat := 64.
Definition MAX_RECOVERY_EVIDENCE_REFS : nat := 16.

Definition is_hex_lower (c : Ascii.ascii) : bool :=
  is_ascii_digit c || char_in "a"%char "f"%char c.

Definition parse_fingerprint (raw : string) : option string :=
  let text := chars raw in
  if negb (starts_with (chars "sha256:") text) then None
  else
    let hex := drop 7 text in
    if bool_decide (length hex = 64) && forallb is_hex_lower hex then Some raw else None.

Inductive RealmIdentityStatus : Set :=
| IdentityActive | IdentityRotating | IdentitySuperseded | IdentityRevoked | IdentityRecoveryOnly.

Record RealmIdentityMetadata := mkRealmIdentityMetadata {
  ri_realm : RealmPath;
  ri_identity_ref : string;
  ri_fingerprint : string;
  ri_status : RealmIdentityStatus;
  ri_created_at : N;
  ri_not_after : option N
}.

Inductive ControllerGenerationStatus : Set :=
| Pending | Active | Rotating | Superseded | Revoked | Recovering.

Record ControllerGenerationMetadata := mkControllerGenerationMetadata {
  cg_realm : RealmPath;
  cg_generation_id : string;
  cg_realm_identity : RealmIdentityMetadata;
  cg_credential_ref : string;
  cg_credential_fingerprint : string;
  cg_status : ControllerGenerationStatus;
  cg_issued_at : N;
  cg_not_before : N;
  cg_not_after : option N;
  cg_revoked_by : option string
}.

Record ParentTrustAnchor := mkParentTrustAnchor {
  pa_parent_realm : RealmPath;
  pa_child_realm : RealmPath;
  pa_parent_identity_ref : string;
  pa_parent_fingerprint : string;
  pa_accepted_by_generation : string;
  pa_pinned_at : N
}.

Record ChildKeyPin := mkChildKeyPin {
  cp_parent_realm : RealmPath;
  cp_child_realm : RealmPath;
  cp_child_identity_ref : string;
  cp_child_fingerprint : string;
  cp_accepted_by_generation : string;
  cp_enrollment_id : string;
  cp_pinned_at : N
}.

Inductive EnrollmentStatus : Set :=
| EnrollmentPending | EnrollmentAccepted | EnrollmentRejected | EnrollmentSuperseded
| EnrollmentRevoked | EnrollmentRecoveryRequired.

Inductive EnrollmentReason : Set :=
| Enrollment_OperatorRequested | Enrollment_ParentPolicyDenied | Enrollment_ChildKeyMismatch
| Enrollment_ParentTrustAnchorMismatch | Enrollment_ControllerGenerationRevoked
| Enrollment_RecoveryReplacement.

Record EnrollmentRecord := mkEnrollmentRecord {
  er_enrollment_id : string;
  er_parent_realm : RealmPath;
  er_child_realm : RealmPath;
  er_controller_generation : ControllerGenerationMetadata;
  er_parent_trust_anchor : ParentTrustAnchor;
  er_child_key_pin : ChildKeyPin;
  er_status : EnrollmentStatus;
  er_reason : option EnrollmentReason;
  er_bootstrap_method : string;
  er_created_at : N;
  er_updated_at : N;
  er_correlation_id : option string
}.

Inductive KeyRotationSubjectKind : Set := Kind_RealmIdentity | Kind_ControllerGeneration.

Inductive KeyRotationSubject : Type :=
| Subject_RealmIdentity (realm : RealmPath) (current_identity_ref current_fingerprint : string)
| Subject_ControllerGeneration (realm : RealmPath)
    (current_generation current_credential_ref current_fingerprint : string).

Definition KeyRotationSubject_kind (self : KeyRotationSubject) : KeyRotationSubjectKind :=
  match self with
  | Subject_RealmIdentity _ _ _ => Kind_RealmIdentity
  | Subject_ControllerGeneration _ _ _ _ => Kind_ControllerGeneration
  end.

Inductive KeyRotationReason : Set :=
| Rotation_Routine | Rotation_OperatorRequested | Rotation_SuspectedCompromise
| Rotation_ParentRequested | Rotation_Recovery | Rotation_AlgorithmMigration.

Inductive KeyRotationStatus : Set :=
| RotationPlanned | RotationIssued | RotationActive | RotationSuperseded | RotationRevoked
| RotationFailed.

Record KeyRotationPlan := mkKeyRotationPlan {
  kp_rotation_id : string;
  kp_realm : RealmPath;
  kp_subject : KeyRotationSubject;
  kp_reason : KeyRotationReason;
  kp_status : KeyRotationStatus;
  kp_replacement_identity_ref : option string;
  kp_replacement_credential_ref : option string;
  kp_replacement_fingerprint : option string;
  kp_planned_at : N;
  kp_activate_after : option N;
  kp_correlation_id : option string
}.

Inductive KeyRotationEventKind : Set :=
| Event_Planned | Event_CredentialIssued | Event_Activated | Event_Superseded | Event_Revoked
| Event_Failed.

Record KeyRotationEvent := mkKeyRotationEvent {
  ke_rotation_id : string;
  ke_realm : RealmPath;
  ke_subject_kind : KeyRotationSubjectKind;
  ke_event : KeyRotationEventKind;
  ke_status : KeyRotationStatus;
  ke_observed_at : N;
  ke_correlation_id : option string
}.

Inductive RevocationTarget : Type :=
| Target_Realm (realm : RealmPath)
| Target_RealmKey (realm : RealmPath) (role : RealmKeyRole) (fingerprint : string)
| Target_RealmIdentity (realm : RealmPath) (identity_ref fingerprint : string)
| Target_ControllerGeneration (realm : RealmPath) (controller_generation : string)
| Target_ControllerCredential (realm : RealmPath) (credential_ref fingerprint : string)
| Target_Enrollment (enrollment_id : string)
| Target_PolicyGrant (realm : RealmPath) (grant : string)
| Target_CapabilityGrant (realm : RealmPath) (capability : Capability).

Inductive RevocationReason : Set :=
| Revocation_OperatorRequested | Revocation_KeyCompromised | Revocation_ControllerCompromised
| Revocation_ParentPolicyRevoked | Revocation_EnrollmentSuperseded
| Revocation_RecoveryCompleted | Revocation_Expired.

Inductive RevocationStatus : Set :=
| RevocationPending | RevocationEffective | RevocationPropagating | RevocationPropagated
| RevocationSuperseded.

Record RevocationRecord := mkRevocationRecord {
  rv_revocation_id : string;
  rv_issuer_realm : RealmPath;
  rv_issuer_controller_generation : string;
  rv_target : RevocationTarget;
  rv_status : RevocationStatus;
  rv_reason : RevocationReason;
  rv_issued_at : N;
  rv_effective_at : option N;
  rv_correlation_id : option string
}.

Inductive RevocationListStatus : Set :=
| ListDraft | ListPublished | ListPropagating | ListPropagated | ListSuperseded.

Record RevocationList := mkRevocationList {
  rl_list_id : string;
  rl_issuer_realm : RealmPath;
  rl_issuer_controller_generation : string;
  rl_status : RevocationListStatus;
  rl_records : list RevocationRecord;
  rl_propagated_to : list RealmPath;
  rl_generated_at : N;
  rl_supersedes : option string;
  rl_correlation_id : option string
}.

(** The checks of the hand-written [Deserialize] on the decoded fields. *)
Definition RevocationList_deserialize (raw : RevocationList) : option RevocationList :=
  if bool_decide (rl_records raw = [])
     || bool_decide (MAX_REVOCATION_LIST_RECORDS < length (rl_records raw)) then None
  else if bool_decide (MAX_PROPAGATED_REALMS < length (rl_propagated_to raw)) then None
  else Some raw.

Inductive SessionTeardownReason : Set :=
| Teardown_RealmIdentityRevoked | Teardown_ControllerGenerationRevoked
| Teardown_PolicyGrantRevoked | Teardown_StreamCapabilityRevoked | Teardown_RecoveryIsolation.

Record SessionTeardownDirective := mkSessionTeardownDirective {
  td_revocation_id : string;
  td_issuer_realm : RealmPath;
  td_affected_realm : RealmPath;
  td_reason : SessionTeardownReason;
  td_affected_workloads : list string;
  td_issued_at : N;
  td_correlation_id : option string
}.

Definition SessionTeardownDirective_deserialize (raw : SessionTeardownDirective) :
    option SessionTeardownDirective :=
  if bool_decide (MAX_TEARDOWN_WORKLOADS < length (td_affected_workloads raw)) then None
  else Some raw.

Inductive RecoveryReason : Set :=
| LostControllerKey | CompromisedControllerKey | ParentInitiatedReset | OperatorBreakGlass.

Inductive RecoveryStatus : Set :=
| Requested | ParentApproved | Isolating | Reissued | Completed | Rejected.

#[global] Instance RecoveryStatus_eq_dec : EqDecision RecoveryStatus.
Proof. solve_decision. Defined.
#[global] Instance ControllerGenerationStatus_eq_dec : EqDecision ControllerGenerationStatus.
Proof. solve_decision. Defined.
#[global] Instance RealmIdentityStatus_eq_dec : EqDecision RealmIdentityStatus.
Proof. solve_decision. Defined.
#[global] Instance RealmIdentityMetadata_eq_dec : EqDecision RealmIdentityMetadata.
Proof. solve_decision. Defined.
#[global] Instance ControllerGenerationMetadata_eq_dec : EqDecision ControllerGenerationMetadata.
Proof. solve_decision. Defined.

Record RecoveryProcedure := mkRecoveryProcedure {
  rc_recovery_id : string;
  rc_parent_realm : RealmPath;
  rc_child_realm : RealmPath;
  rc_reason : RecoveryReason;
  rc_status : RecoveryStatus;
  rc_affected_generation : string;
  rc_replacement_generation : option ControllerGenerationMetadata;
  rc_evidence_refs : list string;
  rc_opened_at : N;
  rc_closed_at : option N;
  rc_correlation_id : option string
}.

Definition RecoveryProcedure_deserialize (raw : RecoveryProcedure) : option RecoveryProcedure :=
  if bool_decide (MAX_RECOVERY_EVIDENCE_REFS < length (rc_evidence_refs raw)) then None
  else Some raw.

Inductive IdentityAuditEventKind : Set :=
| Audit_EnrollmentRequested | Audit_EnrollmentAccepted | Audit_EnrollmentRejected
| Audit_RotationPlanned | Audit_RotationActivated | Audit_RevocationIssued
| Audit_RevocationPropagated | Audit_RecoveryOpened | Audit_RecoveryCompleted.

Record IdentityAuditEventMetadata := mkIdentityAuditEventMetadata {
  ia_event : IdentityAuditEventKind;
  ia_realm : RealmPath;
  ia_enrollment_id : option string;
  ia_rotation_id : option string;
  ia_revocation_id : option string;
  ia_recovery_id : option string;
  ia_enrollment_status : option EnrollmentStatus;
  ia_rotation_status : option KeyRotationStatus;
  ia_revocation_status : option RevocationStatus;
  ia_recovery_status : option RecoveryStatus;
  ia_correlation_id : option string
}.

(** ** The store ([identity_store.rs]) *)

Definition MAX_IDENTITY_STORE_AUDIT_EVENTS : nat := 64.
Definition MAX_IDENTITY_STORE_TEARDOWNS : nat := 64.

Inductive IdentityStoreError : Set :=
| DuplicateEnrollment | DuplicateGeneration | DuplicateRevocation | DuplicateRecovery
| UnknownEnrollment | UnknownGeneration | UnknownRecovery | UnknownRevocationList
| StaleGeneration | RevokedGeneration | RevokedParentTrust | KeyMaterialRef
| InvalidRealmRelationship | InvalidTransition | TooManyAuditEvents
| TooManyTeardownDirectives.

Record IdentityStoreChange := mkIdentityStoreChange {
  audit_events : list IdentityAuditEventMetadata;
  teardown_directives : list SessionTeardownDirective
}.

Definition empty_change : IdentityStoreChange := mkIdentityStoreChange [] [].

Definition push_audit (event : IdentityAuditEventMetadata) (self : IdentityStoreChange) :
    result IdentityStoreChange IdentityStoreError :=
  if bool_decide (MAX_IDENTITY_STORE_AUDIT_EVENTS <= length (audit_events self))
  then Err TooManyAuditEvents
  else Ok (mkIdentityStoreChange (audit_events self ++ [event]) (teardown_directives self)).

Definition push_teardown (directive : SessionTeardownDirective) (self : IdentityStoreChange) :
    result IdentityStoreChange IdentityStoreError :=
  if bool_decide (MAX_IDENTITY_STORE_TEARDOWNS <= length (teardown_directives self))
  then Err TooManyTeardownDirectives
  else if bool_decide (MAX_TEARDOWN_WORKLOADS < length (td_affected_workloads directive))
  then Err TooManyTeardownDirectives
  else Ok (mkIdentityStoreChange (audit_events self) (teardown_directives self ++ [directive])).

Fixpoint push_all {A} (push : A -> IdentityStoreChange -> result IdentityStoreChange IdentityStoreError)
    (l : list A) (self : IdentityStoreChange) : result IdentityStoreChange IdentityStoreError :=
  match l with
  | [] => Ok self
  | x :: l => r_bind (push x self) (push_all push l)
  end.

Definition extend (other self : IdentityStoreChange) :
    result IdentityStoreChange IdentityStoreError :=
  r_bind (push_all push_audit (audit_events other) self)
    (push_all push_teardown (teardown_directives other)).

Record RealmIdentityStore := mkRealmIdentityStore {
  enrollments : gmap string EnrollmentRecord;
  enrollment_by_edge : gmap (RealmPath * RealmPath) string;
  parent_trust_anchors : gmap (RealmPath * RealmPath) ParentTrustAnchor;
  child_key_pins : gmap (RealmPath * RealmPath) ChildKeyPin;
  controller_generations : gmap (RealmPath * string) ControllerGenerationMetadata;
  active_generations : gmap RealmPath string;
  rotations : gmap string KeyRotationPlan;
  revocations : gmap string RevocationRecord;
  revocation_lists : gmap string RevocationList;
  recoveries : gmap string RecoveryProcedure
}.

Definition new : RealmIdentityStore := mkRealmIdentityStore ∅ ∅ ∅ ∅ ∅ ∅ ∅ ∅ ∅ ∅.

Definition set_generations (f : gmap (RealmPath * string) ControllerGenerationMetadata ->
                                gmap (RealmPath * string) ControllerGenerationMetadata)
    (s : RealmIdentityStore) : RealmIdentityStore :=
  mkRealmIdentityStore (enrollments s) (enrollment_by_edge s) (parent_trust_anchors s)
    (child_key_pins s) (f (controller_generations s)) (active_generations s) (rotations s)
    (revocations s) (revocation_lists s) (recoveries s).

Definition set_active (f : gmap RealmPath string -> gmap RealmPath string)
    (s : RealmIdentityStore) : RealmIdentityStore :=
  mkRealmIdentityStore (enrollments s) (enrollment_by_edge s) (parent_trust_anchors s)
    (child_key_pins s) (controller_generations s) (f (active_generations s)) (rotations s)
    (revocations s) (revocation_lists s) (recoveries s).

Definition set_recoveries (f : gmap string RecoveryProcedure -> gmap string RecoveryProcedure)
    (s : RealmIdentityStore) : RealmIdentityStore :=
  mkRealmIdentityStore (enrollments s) (enrollment_by_edge s) (parent_trust_anchors s)
    (child_key_pins s) (controller_generations s) (active_generations s) (rotations s)
    (revocations s) (revocation_lists s) (f (recoveries s)).

Definition set_enrollments (f : gmap string EnrollmentRecord -> gmap string EnrollmentRecord)
    (s : RealmIdentityStore) : RealmIdentityStore :=
  mkRealmIdentityStore (f (enrollments s)) (enrollment_by_edge s) (parent_trust_anchors s)
    (child_key_pins s) (controller_generations s) (active_generations s) (rotations s)
    (revocations s) (revocation_lists s) (recoveries s).

Definition set_revocations (f : gmap string RevocationRecord -> gmap string RevocationRecord)
    (s : RealmIdentityStore) : RealmIdentityStore :=
  mkRealmIdentityStore (enrollments s) (enrollment_by_edge s) (parent_trust_anchors s)
    (child_key_pins s) (controller_generations s) (active_generations s) (rotations s)
    (f (revocations s)) (revocation_lists s) (recoveries s).

(** ** Reference validation *)

(** The prefixes of key material no opaque reference may carry. *)
Definition key_markers : list string :=
  ["begin"; "publickey"; "privatekey"; "ssh-rsa"; "sshrsa"; "ssh-ed25519"; "sshed25519";
   "ecdsa"; "sha256"]%string.

Definition validate_opaque_ref (raw : string) : result unit IdentityStoreError :=
  let lower := map to_lowercase (chars raw) in
  let compact := List.filter (fun c => negb (is_separator c)) lower in
  if existsb (fun marker => contains (chars marker) lower || contains (chars marker) compact)
       key_markers
  then Err KeyMaterialRef else Ok tt.

Definition validate_identity_ref (identity_ref : string) : result unit IdentityStoreError :=
  validate_opaque_ref identity_ref.

Definition validate_credential_ref (credential_ref : string) : result unit IdentityStoreError :=
  validate_opaque_ref credential_ref.

Definition validate_generation_refs (generation : ControllerGenerationMetadata) :
    result unit IdentityStoreError :=
  r_bind (validate_identity_ref (ri_identity_ref (cg_realm_identity generation))) (fun _ =>
  validate_credential_ref (cg_credential_ref generation)).

Definition validate_if (validate : string -> result unit IdentityStoreError)
    (o : option string) : result unit IdentityStoreError :=
  match o with Some raw => validate raw | None => Ok tt end.

Definition validate_rotation_refs (plan : KeyRotationPlan) : result unit IdentityStoreError :=
  r_bind (match kp_subject plan with
          | Subject_RealmIdentity _ current_identity_ref _ =>
              validate_identity_ref current_identity_ref
          | Subject_ControllerGeneration _ _ current_credential_ref _ =>
              validate_credential_ref current_credential_ref
          end) (fun _ =>
  r_bind (validate_if validate_identity_ref (kp_replacement_identity_ref plan)) (fun _ =>
  validate_if validate_credential_ref (kp_replacement_credential_ref plan))).

(** ** Guards *)

Definition ensure_active_generation (s : RealmIdentityStore) (realm : RealmPath)
    (generation : string) : result unit IdentityStoreError :=
  match controller_generations s !! (realm, generation) with
  | None => Err UnknownGeneration
  | Some metadata =>
      if bool_decide (cg_status metadata = Revoked) then Err RevokedGeneration
      else match active_generations s !! realm with
           | Some active => if bool_decide (active = generation) then Ok tt else Err StaleGeneration
           | None => Err UnknownGeneration
           end
  end.

(** Whether one revocation record withdraws the trust in an anchor. *)
Definition revokes_anchor (anchor : ParentTrustAnchor) (record : RevocationRecord) : bool :=
  match rv_status record with
  | RevocationEffective | RevocationPropagated =>
      match rv_target record with
      | Target_Realm realm => bool_decide (realm = pa_parent_realm anchor)
      | Target_RealmIdentity realm identity_ref fingerprint =>
          bool_decide (realm = pa_parent_realm anchor)
          && bool_decide (identity_ref = pa_parent_identity_ref anchor)
          && bool_decide (fingerprint = pa_parent_fingerprint anchor)
      | Target_RealmKey realm (Routing.ParentTrustAnchor | Routing.RealmIdentity)
          fingerprint =>
          bool_decide (realm = pa_parent_realm anchor)
          && bool_decide (fingerprint = pa_parent_fingerprint anchor)
      | _ => false
      end
  | _ => false
  end.

Definition is_parent_trust_revoked (s : RealmIdentityStore) (anchor : ParentTrustAnchor) : bool :=
  existsb (revokes_anchor anchor) (snd <$> btree_entries (revocations s)).

Definition ensure_parent_trust_not_revoked (s : RealmIdentityStore) (parent : RealmPath) :
    result unit IdentityStoreError :=
  let trusted := existsb (fun anchor => bool_decide (pa_parent_realm anchor = parent)
                                        && negb (is_parent_trust_revoked s anchor))
                   (snd <$> btree_entries (parent_trust_anchors s)) in
  if trusted then Ok tt else Err RevokedParentTrust.

Definition validate_enrollment (s : RealmIdentityStore) (record : EnrollmentRecord) :
    result unit IdentityStoreError :=
  let anchor := er_parent_trust_anchor record in
  let pin := er_child_key_pin record in
  if negb (is_direct_child_of (er_child_realm record) (er_parent_realm record))
  then Err InvalidRealmRelationship
  else if bool_decide (pa_parent_realm anchor <> er_parent_realm record)
       || bool_decide (pa_child_realm anchor <> er_child_realm record)
       || bool_decide (cp_parent_realm pin <> er_parent_realm record)
       || bool_decide (cp_child_realm pin <> er_child_realm record)
       || bool_decide (cp_enrollment_id pin <> er_enrollment_id record)
       || bool_decide (cg_realm (er_controller_generation record) <> er_child_realm record)
  then Err InvalidRealmRelationship
  else
    r_bind (validate_identity_ref (pa_parent_identity_ref anchor)) (fun _ =>
    r_bind (validate_identity_ref (cp_child_identity_ref pin)) (fun _ =>
    r_bind (validate_generation_refs (er_controller_generation record)) (fun _ =>
    if is_parent_trust_revoked s anchor then Err RevokedParentTrust else Ok tt))).

(** ** Field updates *)

Definition with_status (status : ControllerGenerationStatus) (g : ControllerGenerationMetadata) :=
  mkControllerGenerationMetadata (cg_realm g) (cg_generation_id g) (cg_realm_identity g)
    (cg_credential_ref g) (cg_credential_fingerprint g) status (cg_issued_at g)
    (cg_not_before g) (cg_not_after g) (cg_revoked_by g).

Definition with_not_after (at_ : N) (g : ControllerGenerationMetadata) :=
  mkControllerGenerationMetadata (cg_realm g) (cg_generation_id g) (cg_realm_identity g)
    (cg_credential_ref g) (cg_credential_fingerprint g) (cg_status g) (cg_issued_at g)
    (cg_not_before g) (Some at_) (cg_revoked_by g).

Definition with_not_before (at_ : N) (g : ControllerGenerationMetadata) :=
  mkControllerGenerationMetadata (cg_realm g) (cg_generation_id g) (cg_realm_identity g)
    (cg_credential_ref g) (cg_credential_fingerprint g) (cg_status g) (cg_issued_at g)
    at_ (cg_not_after g) (cg_revoked_by g).

Definition with_revoked_by (id : string) (g : ControllerGenerationMetadata) :=
  mkControllerGenerationMetadata (cg_realm g) (cg_generation_id g) (cg_realm_identity g)
    (cg_credential_ref g) (cg_credential_fingerprint g) (cg_status g) (cg_issued_at g)
    (cg_not_before g) (cg_not_after g) (Some id).

Definition with_identity_status (status : RealmIdentityStatus)
    (g : ControllerGenerationMetadata) :=
  let i := cg_realm_identity g in
  mkControllerGenerationMetadata (cg_realm g) (cg_generation_id g)
    (mkRealmIdentityMetadata (ri_realm i) (ri_identity_ref i) (ri_fingerprint i) status
       (ri_created_at i) (ri_not_after i))
    (cg_credential_ref g) (cg_credential_fingerprint g) (cg_status g) (cg_issued_at g)
    (cg_not_before g) (cg_not_after g) (cg_revoked_by g).

Definition with_recovery_status (status : RecoveryStatus) (r : RecoveryProcedure) :=
  mkRecoveryProcedure (rc_recovery_id r) (rc_parent_realm r) (rc_child_realm r) (rc_reason r)
    status (rc_affected_generation r) (rc_replacement_generation r) (rc_evidence_refs r)
    (rc_opened_at r) (rc_closed_at r) (rc_correlation_id r).

Definition with_replacement (g : ControllerGenerationMetadata) (r : RecoveryProcedure) :=
  mkRecoveryProcedure (rc_recovery_id r) (rc_parent_realm r) (rc_child_realm r) (rc_reason r)
    (rc_status r) (rc_affected_generation r) (Some g) (rc_evidence_refs r)
    (rc_opened_at r) (rc_closed_at r) (rc_correlation_id r).

Definition with_closed_at (at_ : N) (r : RecoveryProcedure) :=
  mkRecoveryProcedure (rc_recovery_id r) (rc_parent_realm r) (rc_child_realm r) (rc_reason r)
    (rc_status r) (rc_affected_generation r) (rc_replacement_generation r) (rc_evidence_refs r)
    (rc_opened_at r) (Some at_) (rc_correlation_id r).

(** The audit record of a step that concerns no enrollment, rotation or
    revocation but a recovery. *)
Definition recovery_audit (event : IdentityAuditEventKind) (recovery : RecoveryProcedure)
    (status : RecoveryStatus) : IdentityAuditEventMetadata :=
  mkIdentityAuditEventMetadata event (rc_child_realm recovery) None None None
    (Some (rc_recovery_id recovery)) None None None (Some status) (rc_correlation_id recovery).

Local Open Scope rust_scope.
Definition op (A : Type) : Type := handler RealmIdentityStore IdentityStoreError A.

(** ** Enrollment and issuance *)

Definition issue_controller_generation (generation : ControllerGenerationMetadata) :
    op IdentityStoreChange :=
  h_lift (validate_generation_refs generation) ?;
  h_reject (bool_decide (cg_realm generation <> ri_realm (cg_realm_identity generation)))
    InvalidRealmRelationship ?;
  h_reject (bool_decide (cg_status generation = Revoked)) RevokedGeneration ?;
  let key := (cg_realm generation, cg_generation_id generation) in
  let? s := h_get in
  h_reject (bool_decide (is_Some (controller_generations s !! key))) DuplicateGeneration ?;
  (if bool_decide (cg_status generation = Active) then
     match active_generations s !! cg_realm generation with
     | Some active =>
         if bool_decide (active <> cg_generation_id generation) then h_throw StaleGeneration
         else h_modify (set_active <[cg_realm generation := cg_generation_id generation]>)
     | None => h_modify (set_active <[cg_realm generation := cg_generation_id generation]>)
     end
   else h_ret tt) ?;
  h_modify (set_generations <[key := generation]>) ?;
  h_lift (push_audit
            (mkIdentityAuditEventMetadata Audit_RotationActivated (cg_realm generation) None None
               (cg_revoked_by generation) None None None None None None)
            empty_change).

Definition enroll (record : EnrollmentRecord) : op IdentityStoreChange :=
  let? s := h_get in
  h_lift (validate_enrollment s record) ?;
  let id := er_enrollment_id record in
  let edge := (er_parent_realm record, er_child_realm record) in
  h_reject (bool_decide (is_Some (enrollments s !! id))
            || bool_decide (is_Some (enrollment_by_edge s !! edge))) DuplicateEnrollment ?;
  issue_controller_generation (er_controller_generation record) ?;
  h_modify (fun s =>
    mkRealmIdentityStore (<[id := record]> (enrollments s))
      (<[edge := id]> (enrollment_by_edge s))
      (<[edge := er_parent_trust_anchor record]> (parent_trust_anchors s))
      (<[edge := er_child_key_pin record]> (child_key_pins s))
      (controller_generations s) (active_generations s) (rotations s) (revocations s)
      (revocation_lists s) (recoveries s)) ?;
  h_lift (push_audit
            (mkIdentityAuditEventMetadata
               (match er_status record with
                | EnrollmentAccepted => Audit_EnrollmentAccepted
                | EnrollmentRejected => Audit_EnrollmentRejected
                | _ => Audit_EnrollmentRequested
                end)
               (er_child_realm record) (Some id) None None None (Some (er_status record)) None None
               None (er_correlation_id record))
            empty_change).

(** ** Rotation *)

Definition rotate_controller_generation (plan : KeyRotationPlan)
    (replacement : ControllerGenerationMetadata) (activated_at : N) :
    op (KeyRotationEvent * IdentityStoreChange) :=
  h_lift (validate_generation_refs replacement) ?;
  h_lift (validate_rotation_refs plan) ?;
  match kp_subject plan with
  | Subject_RealmIdentity _ _ _ => h_throw InvalidTransition
  | Subject_ControllerGeneration realm current_generation current_credential_ref
      current_fingerprint =>
      let? s := h_get in
      h_lift (ensure_active_generation s realm current_generation) ?;
      let current_key := (realm, current_generation) in
      match controller_generations s !! current_key with
      | None => h_throw UnknownGeneration
      | Some current =>
          h_reject (bool_decide (cg_credential_ref current <> current_credential_ref)
                    || bool_decide (cg_credential_fingerprint current <> current_fingerprint))
            StaleGeneration ?;
          h_reject (bool_decide (cg_realm replacement <> realm)
                    || bool_decide (cg_realm_identity replacement <> cg_realm_identity current))
            InvalidTransition ?;
          let replacement_key := (cg_realm replacement, cg_generation_id replacement) in
          h_reject (bool_decide (is_Some (controller_generations s !! replacement_key)))
            DuplicateGeneration ?;
          h_modify (set_generations
            (alter (fun g => with_not_after activated_at (with_status Superseded g))
               current_key)) ?;
          let replacement := with_not_before activated_at (with_status Active replacement) in
          h_modify (set_active <[realm := cg_generation_id replacement]>) ?;
          h_modify (set_generations <[replacement_key := replacement]>) ?;
          let plan :=
            mkKeyRotationPlan (kp_rotation_id plan) (kp_realm plan) (kp_subject plan)
              (kp_reason plan) RotationActive (kp_replacement_identity_ref plan)
              (Some (cg_credential_ref replacement))
              (Some (cg_credential_fingerprint replacement)) (kp_planned_at plan)
              (Some activated_at) (kp_correlation_id plan) in
          h_modify (fun s =>
            mkRealmIdentityStore (enrollments s) (enrollment_by_edge s) (parent_trust_anchors s)
              (child_key_pins s) (controller_generations s) (active_generations s)
              (<[kp_rotation_id plan := plan]> (rotations s)) (revocations s)
              (revocation_lists s) (recoveries s)) ?;
          let event :=
            mkKeyRotationEvent (kp_rotation_id plan) realm
              (KeyRotationSubject_kind (kp_subject plan)) Event_Activated RotationActive
              activated_at (kp_correlation_id plan) in
          let? change := h_lift (push_audit
            (mkIdentityAuditEventMetadata Audit_RotationActivated realm None
               (Some (kp_rotation_id plan)) None None None (Some RotationActive) None None
               (ke_correlation_id event))
            empty_change) in
          h_ret (event, change)
      end
  end.

(** ** Revocation *)

(** The keys of a realm's generations that satisfy a filter, in key order. *)
Definition generation_keys (s : RealmIdentityStore) (realm : RealmPath)
    (select : ControllerGenerationMetadata -> bool) : list (RealmPath * string) :=
  fst <$> List.filter (fun entry => bool_decide (entry.1.1 = realm) && select entry.2)
            (btree_entries (controller_generations s)).

(** [for key in keys { if let Some(generation) = .. get_mut(&key) { .. } }] *)
Definition revoke_keys (keys : list (RealmPath * string)) (id : string)
    (generations : gmap (RealmPath * string) ControllerGenerationMetadata) :
    gmap (RealmPath * string) ControllerGenerationMetadata :=
  foldl (fun m key =>
           alter (fun g => with_identity_status IdentityRevoked
                             (with_revoked_by id (with_status Revoked g))) key m)
    generations keys.

Definition remove_active_if (realm : RealmPath) (generation : string) : op unit :=
  h_modify (set_active (fun active =>
    if bool_decide (active !! realm = Some generation) then delete realm active else active)).

Definition apply_revocation_target (revocation : RevocationRecord) :
    op (option RealmPath * option SessionTeardownReason) :=
  let? s := h_get in
  let id := rv_revocation_id revocation in
  match rv_target revocation with
  | Target_Realm realm =>
      let keys := generation_keys s realm (fun _ => true) in
      h_reject (bool_decide (keys = [])) UnknownGeneration ?;
      h_modify (set_generations (revoke_keys keys id)) ?;
      h_modify (set_active (delete realm)) ?;
      h_ret (Some realm, Some Teardown_RealmIdentityRevoked)
  | Target_RealmIdentity realm identity_ref fingerprint =>
      h_lift (validate_identity_ref identity_ref) ?;
      let keys := generation_keys s realm (fun generation =>
        bool_decide (ri_identity_ref (cg_realm_identity generation) = identity_ref)
        && bool_decide (ri_fingerprint (cg_realm_identity generation) = fingerprint)) in
      h_reject (bool_decide (keys = [])) UnknownGeneration ?;
      h_modify (set_generations (revoke_keys keys id)) ?;
      h_modify (set_active (delete realm)) ?;
      h_ret (Some realm, Some Teardown_RealmIdentityRevoked)
  | Target_RealmKey realm role _ =>
      h_ret (Some realm,
             Some (match role with
                   | Routing.RealmIdentity | Routing.ParentTrustAnchor | Routing.ChildIdentity =>
                       Teardown_RealmIdentityRevoked
                   | Routing.ControllerGeneration => Teardown_ControllerGenerationRevoked
                   end))
  | Target_ControllerGeneration realm controller_generation =>
      let key := (realm, controller_generation) in
      match controller_generations s !! key with
      | None => h_throw UnknownGeneration
      | Some generation =>
          h_modify (set_generations
            <[key := with_not_after (default (rv_issued_at revocation) (rv_effective_at revocation))
                       (with_revoked_by id (with_status Revoked generation))]>) ?;
          remove_active_if realm controller_generation ?;
          h_ret (Some realm, Some Teardown_ControllerGenerationRevoked)
      end
  | Target_ControllerCredential realm credential_ref fingerprint =>
      h_lift (validate_credential_ref credential_ref) ?;
      match generation_keys s realm (fun generation =>
              bool_decide (cg_credential_ref generation = credential_ref)
              && bool_decide (cg_credential_fingerprint generation = fingerprint)) with
      | [] => h_throw UnknownGeneration
      | key :: _ =>
          match controller_generations s !! key with
          | None => h_throw UnknownGeneration
          | Some generation =>
              h_modify (set_generations
                <[key := with_revoked_by id (with_status Revoked generation)]>) ?;
              remove_active_if realm (cg_generation_id generation) ?;
              h_ret (Some realm, Some Teardown_ControllerGenerationRevoked)
          end
      end
  | Target_Enrollment enrollment_id =>
      match enrollments s !! enrollment_id with
      | None => h_throw UnknownEnrollment
      | Some e =>
          h_modify (set_enrollments
            <[enrollment_id :=
                mkEnrollmentRecord (er_enrollment_id e) (er_parent_realm e) (er_child_realm e)
                  (er_controller_generation e) (er_parent_trust_anchor e) (er_child_key_pin e)
                  EnrollmentRevoked (Some Enrollment_ParentPolicyDenied) (er_bootstrap_method e)
                  (er_created_at e) (er_updated_at e) (er_correlation_id e)]>) ?;
          h_ret (Some (er_child_realm e), Some Teardown_RealmIdentityRevoked)
      end
  | Target_PolicyGrant realm _ => h_ret (Some realm, Some Teardown_PolicyGrantRevoked)
  | Target_CapabilityGrant realm _ => h_ret (Some realm, Some Teardown_StreamCapabilityRevoked)
  end.

(** The record as it is stored: effective or propagated, with its time. *)
Definition effective_record (revocation : RevocationRecord) (parent_pushed : bool) :
    RevocationRecord :=
  mkRevocationRecord (rv_revocation_id revocation) (rv_issuer_realm revocation)
    (rv_issuer_controller_generation revocation) (rv_target revocation)
    (match rv_status revocation with
     | RevocationEffective => RevocationEffective
     | RevocationPropagated => RevocationPropagated
     | _ => if parent_pushed then RevocationPropagated else RevocationEffective
     end)
    (rv_reason revocation) (rv_issued_at revocation)
    (match rv_effective_at revocation with
     | None => Some (rv_issued_at revocation)
     | Some at_ => Some at_
     end)
    (rv_correlation_id revocation).

Definition apply_revocation (revocation : RevocationRecord) (affected_workloads : list string)
    (parent_pushed : bool) : op IdentityStoreChange :=
  let? s := h_get in
  h_reject (bool_decide (is_Some (revocations s !! rv_revocation_id revocation)))
    DuplicateRevocation ?;
  h_reject (bool_decide (MAX_TEARDOWN_WORKLOADS < length affected_workloads))
    TooManyTeardownDirectives ?;
  let revocation := effective_record revocation parent_pushed in
  let? (affected_realm, teardown_reason) := apply_revocation_target revocation in
  h_modify (set_revocations <[rv_revocation_id revocation := revocation]>) ?;
  let? change :=
    match affected_realm, teardown_reason with
    | Some realm, Some reason =>
        h_lift (push_teardown
          (mkSessionTeardownDirective (rv_revocation_id revocation) (rv_issuer_realm revocation)
             realm reason affected_workloads (rv_issued_at revocation)
             (rv_correlation_id revocation))
          empty_change)
    | _, _ => h_ret empty_change
    end in
  h_lift (push_audit
    (mkIdentityAuditEventMetadata Audit_RevocationIssued (rv_issuer_realm revocation) None None
       (Some (rv_revocation_id revocation)) None None None (Some (rv_status revocation)) None
       (rv_correlation_id revocation))
    change).

Definition revoke (revocation : RevocationRecord) (affected_workloads : list string) :
    op IdentityStoreChange :=
  let? s := h_get in
  h_lift (ensure_active_generation s (rv_issuer_realm revocation)
            (rv_issuer_controller_generation revocation)) ?;
  apply_revocation revocation affected_workloads false.

Definition revoke_generation (revocation : RevocationRecord) (affected_workloads : list string) :
    op IdentityStoreChange :=
  match rv_target revocation with
  | Target_ControllerGeneration _ _ => revoke revocation affected_workloads
  | _ => h_throw InvalidTransition
  end.

Definition revoke_realm (revocation : RevocationRecord) (affected_workloads : list string) :
    op IdentityStoreChange :=
  match rv_target revocation with
  | Target_Realm _ => revoke revocation affected_workloads
  | _ => h_throw InvalidTransition
  end.

Definition revoke_policy_grant (revocation_id : string) (issuer_realm : RealmPath)
    (issuer_controller_generation : string) (realm : RealmPath) (grant : string)
    (issued_at : N) (affected_workloads : list string) : op IdentityStoreChange :=
  revoke (mkRevocationRecord revocation_id issuer_realm issuer_controller_generation
            (Target_PolicyGrant realm grant) RevocationEffective Revocation_ParentPolicyRevoked
            issued_at (Some issued_at) None) affected_workloads.

Definition revoke_capability (revocation_id : string) (issuer_realm : RealmPath)
    (issuer_controller_generation : string) (realm : RealmPath) (capability : Capability)
    (issued_at : N) (affected_workloads : list string) : op IdentityStoreChange :=
  revoke (mkRevocationRecord revocation_id issuer_realm issuer_controller_generation
            (Target_CapabilityGrant realm capability) RevocationEffective
            Revocation_ParentPolicyRevoked issued_at (Some issued_at) None) affected_workloads.

(** The loop over the records: each is applied at once, so a failure leaves
    the records before it applied. *)
Fixpoint merge_records (records : list RevocationRecord) (affected_workloads : list string)
    (change : IdentityStoreChange) : op IdentityStoreChange :=
  match records with
  | [] => h_ret change
  | record :: records =>
      let? s := h_get in
      if bool_decide (is_Some (revocations s !! rv_revocation_id record))
      then merge_records records affected_workloads change
      else
        let? applied := apply_revocation record affected_workloads true in
        let? change := h_lift (extend applied change) in
        merge_records records affected_workloads change
  end.

Definition merge_revocation_list (rlist : RevocationList) (affected_workloads : list string) :
    op IdentityStoreChange :=
  let? s := h_get in
  h_reject (bool_decide (is_Some (revocation_lists s !! rl_list_id rlist))) DuplicateRevocation ?;
  h_lift (ensure_parent_trust_not_revoked s (rl_issuer_realm rlist)) ?;
  h_reject (has_duplicate (rv_revocation_id <$> rl_records rlist)) DuplicateRevocation ?;
  let? change := merge_records (rl_records rlist) affected_workloads empty_change in
  h_modify (fun s =>
    mkRealmIdentityStore (enrollments s) (enrollment_by_edge s) (parent_trust_anchors s)
      (child_key_pins s) (controller_generations s) (active_generations s) (rotations s)
      (revocations s) (<[rl_list_id rlist := rlist]> (revocation_lists s)) (recoveries s)) ?;
  h_lift (push_audit
    (mkIdentityAuditEventMetadata Audit_RevocationPropagated (rl_issuer_realm rlist) None None None
       None None None (Some RevocationPropagated) None (rl_correlation_id rlist))
    change).

(** ** Recovery *)

Definition open_recovery (recovery : RecoveryProcedure) : op IdentityStoreChange :=
  let? s := h_get in
  h_reject (bool_decide (is_Some (recoveries s !! rc_recovery_id recovery))) DuplicateRecovery ?;
  let key := (rc_child_realm recovery, rc_affected_generation recovery) in
  match controller_generations s !! key with
  | None => h_throw UnknownGeneration
  | Some generation =>
      h_reject (bool_decide (cg_status generation = Revoked)) RevokedGeneration ?;
      let recovery := with_recovery_status Requested recovery in
      h_modify (set_generations <[key := with_status Recovering generation]>) ?;
      h_modify (set_recoveries <[rc_recovery_id recovery := recovery]>) ?;
      h_lift (push_audit (recovery_audit Audit_RecoveryOpened recovery Requested) empty_change)
  end.

Definition set_recovery_status (recovery_id : string) (expected next : RecoveryStatus) :
    op IdentityStoreChange :=
  let? s := h_get in
  match recoveries s !! recovery_id with
  | None => h_throw UnknownRecovery
  | Some recovery =>
      h_reject (bool_decide (rc_status recovery <> expected)) InvalidTransition ?;
      h_modify (set_recoveries <[recovery_id := with_recovery_status next recovery]>) ?;
      h_lift (push_audit (recovery_audit Audit_RecoveryOpened recovery next) empty_change)
  end.

Definition approve_recovery (recovery_id : string) : op IdentityStoreChange :=
  set_recovery_status recovery_id Requested ParentApproved.

Definition isolate_recovery (recovery_id : string) (issued_at : N)
    (affected_workloads : list string) : op IdentityStoreChange :=
  let? s := h_get in
  match recoveries s !! recovery_id with
  | None => h_throw UnknownRecovery
  | Some recovery =>
      h_reject (bool_decide (rc_status recovery <> ParentApproved)) InvalidTransition ?;
      h_modify (set_recoveries <[recovery_id := with_recovery_status Isolating recovery]>) ?;
      let? revocation_id :=
        match parse_opaque ("recovery-" +:+ rc_recovery_id recovery) with
        | Ok id => h_ret id
        | Err _ => h_throw InvalidTransition
        end in
      let? change := h_lift (push_teardown
        (mkSessionTeardownDirective revocation_id (rc_parent_realm recovery)
           (rc_child_realm recovery) Teardown_RecoveryIsolation affected_workloads issued_at
           (rc_correlation_id recovery))
        empty_change) in
      h_lift (push_audit (recovery_audit Audit_RecoveryOpened recovery Isolating) change)
  end.

Definition reissue_recovery (recovery_id : string) (replacement : ControllerGenerationMetadata) :
    op IdentityStoreChange :=
  h_lift (validate_generation_refs replacement) ?;
  let? s := h_get in
  match recoveries s !! recovery_id with
  | None => h_throw UnknownRecovery
  | Some recovery =>
      h_reject (bool_decide (rc_status recovery <> Isolating)
                && bool_decide (rc_status recovery <> ParentApproved)) InvalidTransition ?;
      match controller_generations s !! (rc_child_realm recovery, rc_affected_generation recovery)
      with
      | None => h_throw UnknownGeneration
      | Some affected =>
          h_reject (bool_decide (cg_realm replacement <> rc_child_realm recovery)
                    || bool_decide (cg_realm_identity replacement <> cg_realm_identity affected))
            InvalidTransition ?;
          let replacement_key := (cg_realm replacement, cg_generation_id replacement) in
          h_reject (bool_decide (is_Some (controller_generations s !! replacement_key)))
            DuplicateGeneration ?;
          let replacement := with_status Recovering replacement in
          h_modify (set_generations <[replacement_key := replacement]>) ?;
          h_modify (set_recoveries
            <[recovery_id := with_recovery_status Reissued
                               (with_replacement replacement recovery)]>) ?;
          h_lift (push_audit (recovery_audit Audit_RecoveryOpened recovery Reissued) empty_change)
      end
  end.

Definition complete_recovery (recovery_id : string) (closed_at : N) : op IdentityStoreChange :=
  let? s := h_get in
  match recoveries s !! recovery_id with
  | None => h_throw UnknownRecovery
  | Some recovery =>
      h_reject (bool_decide (rc_status recovery <> Reissued)) InvalidTransition ?;
      match rc_replacement_generation recovery with
      | None => h_throw InvalidTransition
      | Some replacement =>
          let affected_key := (rc_child_realm recovery, rc_affected_generation recovery) in
          match controller_generations s !! affected_key with
          | None => h_throw UnknownGeneration
          | Some affected =>
              h_modify (set_generations
                <[affected_key := with_not_after closed_at (with_status Revoked affected)]>) ?;
              let replacement_key := (cg_realm replacement, cg_generation_id replacement) in
              let? s := h_get in
              match controller_generations s !! replacement_key with
              | None => h_throw UnknownGeneration
              | Some replacement_record =>
                  h_modify (set_generations
                    <[replacement_key := with_not_before closed_at
                                           (with_status Active replacement_record)]>) ?;
                  h_modify (set_active
                    <[cg_realm replacement := cg_generation_id replacement]>) ?;
                  h_modify (set_recoveries
                    <[recovery_id := with_closed_at closed_at
                                       (with_recovery_status Completed recovery)]>) ?;
                  h_lift (push_audit (recovery_audit Audit_RecoveryCompleted recovery Completed)
                            empty_change)
              end
          end
      end
  end.

(** ** Calls on the store *)

Inductive command : Type :=
| Enroll (record : EnrollmentRecord)
| IssueGeneration (generation : ControllerGenerationMetadata)
| RotateGeneration (plan : KeyRotationPlan) (replacement : ControllerGenerationMetadata) (at_ : N)
| RevokeGeneration (revocation : RevocationRecord) (workloads : list string)
| RevokeRealm (revocation : RevocationRecord) (workloads : list string)
| RevokePolicyGrant (id : string) (issuer : RealmPath) (issuer_generation : string)
    (realm : RealmPath) (grant : string) (at_ : N) (workloads : list string)
| RevokeCapability (id : string) (issuer : RealmPath) (issuer_generation : string)
    (realm : RealmPath) (capability : Capability) (at_ : N) (workloads : list string)
| Revoke (revocation : RevocationRecord) (workloads : list string)
| MergeRevocationList (rlist : RevocationList) (workloads : list string)
| OpenRecovery (recovery : RecoveryProcedure)
| ApproveRecovery (id : string)
| IsolateRecovery (id : string) (at_ : N) (workloads : list string)
| ReissueRecovery (id : string) (replacement : ControllerGenerationMetadata)
| CompleteRecovery (id : string) (at_ : N).

Definition run (c : command) : op IdentityStoreChange :=
  match c with
  | Enroll record => enroll record
  | IssueGeneration generation => issue_controller_generation generation
  | RotateGeneration plan replacement at_ =>
      let? (_, change) := rotate_controller_generation plan replacement at_ in h_ret change
  | RevokeGeneration revocation workloads => revoke_generation revocation workloads
  | RevokeRealm revocation workloads => revoke_realm revocation workloads
  | RevokePolicyGrant id issuer g realm grant at_ workloads =>
      revoke_policy_grant id issuer g realm grant at_ workloads
  | RevokeCapability id issuer g realm capability at_ workloads =>
      revoke_capability id issuer g realm capability at_ workloads
  | Revoke revocation workloads => revoke revocation workloads
  | MergeRevocationList rlist workloads => merge_revocation_list rlist workloads
  | OpenRecovery recovery => open_recovery recovery
  | ApproveRecovery id => approve_recovery id
  | IsolateRecovery id at_ workloads => isolate_recovery id at_ workloads
  | ReissueRecovery id replacement => reissue_recovery id replacement
  | CompleteRecovery id at_ => complete_recovery id at_
  end.

Definition run_all (cs : list command) (s : RealmIdentityStore) : RealmIdentityStore :=
  foldl (fun s c => (run c s).2) s cs.

(** ** Generations *)

(** What no update of a generation changes. *)
Definition same_generation (g g' : ControllerGenerationMetadata) : Prop :=
  cg_realm g' = cg_realm g /\ cg_generation_id g' = cg_generation_id g
  /\ ri_realm (cg_realm_identity g') = ri_realm (cg_realm_identity g)
  /\ ri_identity_ref (cg_realm_identity g') = ri_identity_ref (cg_realm_identity g)
  /\ cg_credential_ref g' = cg_credential_ref g.

Definition generation_ok (k : RealmPath * string) (g : ControllerGenerationMetadata) : Prop :=
  k = (cg_realm g, cg_generation_id g) /\ ri_realm (cg_realm_identity g) = cg_realm g
  /\ validate_generation_refs g = Ok tt.

Definition mark_revoked (id : string) (g : ControllerGenerationMetadata) :=
  with_identity_status IdentityRevoked (with_revoked_by id (with_status Revoked g)).

Lemma generation_ok_same k g g' :
  same_generation g g' -> generation_ok k g -> generation_ok k g'.
Proof.
  intros (H1 & H2 & H3 & H4 & H5) (-> & Hr & Hv).
  unfold generation_ok, validate_generation_refs. rewrite H1, H2, H3, H4, H5. done.
Qed.

Lemma gens_ok_update (gens : gmap (RealmPath * string) ControllerGenerationMetadata) k g g' :
  map_Forall generation_ok gens -> gens !! k = Some g -> same_generation g g' ->
  map_Forall generation_ok (<[k := g']> gens).
Proof.
  intros Hok Hk Hs. apply map_Forall_insert_2; [|done].
  exact (generation_ok_same _ _ _ Hs (Hok _ _ Hk)).
Qed.

Lemma elem_of_generation_keys s realm sel k :
  k ∈ generation_keys s realm sel <->
  exists g, controller_generations s !! k = Some g /\ k.1 = realm /\ sel g = true.
Proof.
  unfold generation_keys. rewrite list_elem_of_fmap. split.
  - intros ([k' g] & -> & Hin). apply list_elem_of_In, filter_In in Hin as [Hin Hsel].
    apply list_elem_of_In, elem_of_btree_entries in Hin. simpl in *.
    apply andb_true_iff in Hsel as [Hr Hsel]. apply bool_decide_eq_true in Hr. eauto.
  - intros (g & Hk & Hr & Hsel). exists (k, g). split; [done|].
    apply list_elem_of_In, filter_In. split.
    + by apply list_elem_of_In, elem_of_btree_entries.
    + simpl. rewrite Hsel, bool_decide_eq_true_2; done.
Qed.

Lemma mark_revoked_idemp id g : mark_revoked id (mark_revoked id g) = mark_revoked id g.
Proof. done. Qed.

Lemma lookup_revoke_keys keys id m k :
  revoke_keys keys id m !! k =
  if bool_decide (k ∈ keys) then mark_revoked id <$> m !! k else m !! k.
Proof.
  unfold revoke_keys. change (fun g => with_identity_status IdentityRevoked
    (with_revoked_by id (with_status Revoked g))) with (mark_revoked id).
  revert m. induction keys as [|k' keys IH]; intros m; [done|]. simpl. rewrite IH.
  destruct (decide (k = k')) as [->|Hne].
  - rewrite (bool_decide_eq_true_2 (k' ∈ k' :: keys)) by set_solver.
    rewrite lookup_alter_eq. case_bool_decide; destruct (m !! k'); done.
  - rewrite lookup_alter_ne by done. repeat case_bool_decide; set_solver.
Qed.

(** ** The store invariant *)

Section store_ok.
Context (gens : gmap (RealmPath * string) ControllerGenerationMetadata).

Definition active_ok (realm : RealmPath) (generation : string) : Prop :=
  exists g, gens !! (realm, generation) = Some g
            /\ (cg_status g = Active \/ cg_status g = Recovering).

Definition recovery_ok (id : string) (r : RecoveryProcedure) : Prop :=
  id = rc_recovery_id r
  /\ is_Some (gens !! (rc_child_realm r, rc_affected_generation r))
  /\ (rc_status r = Reissued \/ rc_status r = Completed ->
      exists g, rc_replacement_generation r = Some g /\ cg_realm g = rc_child_realm r
                /\ cg_generation_id g <> rc_affected_generation r
                /\ is_Some (gens !! (cg_realm g, cg_generation_id g))
                /\ validate_generation_refs g = Ok tt).

Definition rotation_ok (id : string) (p : KeyRotationPlan) : Prop :=
  id = kp_rotation_id p /\ kp_status p = RotationActive /\ validate_rotation_refs p = Ok tt
  /\ exists realm gid credential_ref fingerprint,
       kp_subject p = Subject_ControllerGeneration realm gid credential_ref fingerprint
       /\ is_Some (gens !! (realm, gid)).
End store_ok.

(** The references a revocation names. *)
Definition target_refs_ok (target : RevocationTarget) : Prop :=
  match target with
  | Target_RealmIdentity _ identity_ref _ => validate_identity_ref identity_ref = Ok tt
  | Target_ControllerCredential _ credential_ref _ => validate_credential_ref credential_ref = Ok tt
  | _ => True
  end.

Definition revocation_ok (id : string) (r : RevocationRecord) : Prop :=
  id = rv_revocation_id r
  /\ (rv_status r = RevocationEffective \/ rv_status r = RevocationPropagated)
  /\ is_Some (rv_effective_at r) /\ target_refs_ok (rv_target r).

(** Every record of a merged list is known. *)
Definition list_ok (revs : gmap string RevocationRecord) (id : string) (l : RevocationList) : Prop :=
  id = rl_list_id l /\ forall r, r ∈ rl_records l -> is_Some (revs !! rv_revocation_id r).

Definition enrollment_ok (s : RealmIdentityStore) (id : string) (e : EnrollmentRecord) : Prop :=
  let edge := (er_parent_realm e, er_child_realm e) in
  let anchor := er_parent_trust_anchor e in
  let pin := er_child_key_pin e in
  id = er_enrollment_id e
  /\ is_direct_child_of (er_child_realm e) (er_parent_realm e) = true
  /\ enrollment_by_edge s !! edge = Some id
  /\ parent_trust_anchors s !! edge = Some anchor
  /\ child_key_pins s !! edge = Some pin
  /\ (pa_parent_realm anchor, pa_child_realm anchor) = edge
  /\ (cp_parent_realm pin, cp_child_realm pin) = edge /\ cp_enrollment_id pin = id
  /\ validate_identity_ref (pa_parent_identity_ref anchor) = Ok tt
  /\ validate_identity_ref (cp_child_identity_ref pin) = Ok tt
  /\ validate_generation_refs (er_controller_generation e) = Ok tt
  /\ is_Some (controller_generations s
                !! (er_child_realm e, cg_generation_id (er_controller_generation e))).

Record store_inv (s : RealmIdentityStore) : Prop := mkStoreInv {
  inv_generations : map_Forall generation_ok (controller_generations s);
  inv_active : map_Forall (active_ok (controller_generations s)) (active_generations s);
  inv_revocations : map_Forall revocation_ok (revocations s);
  inv_rotations : map_Forall (rotation_ok (controller_generations s)) (rotations s);
  inv_lists : map_Forall (list_ok (revocations s)) (revocation_lists s);
  inv_recoveries : map_Forall (recovery_ok (controller_generations s)) (recoveries s);
  inv_enrollments : map_Forall (enrollment_ok s) (enrollments s);
  inv_edges : forall edge id, enrollment_by_edge s !! edge = Some id ->
    exists e, enrollments s !! id = Some e /\ edge = (er_parent_realm e, er_child_realm e);
  inv_anchors : dom (parent_trust_anchors s) = dom (enrollment_by_edge s);
  inv_pins : dom (child_key_pins s) = dom (enrollment_by_edge s)
}.

Implicit Types (gens : gmap (RealmPath * string) ControllerGenerationMetadata)
  (active : gmap RealmPath string) (recs : gmap string RecoveryProcedure) (realm : RealmPath)
  (gid : string).

(** Generations are never removed. *)
Definition grows (gens gens' : gmap (RealmPath * string) ControllerGenerationMetadata) : Prop :=
  forall k, is_Some (gens !! k) -> is_Some (gens' !! k).

Lemma grows_refl gens : grows gens gens.
Proof. by intros k. Qed.

Lemma grows_insert gens k g : grows gens (<[k := g]> gens).
Proof. intros k' Hk. destruct (decide (k = k')) as [->|]; by simplify_map_eq. Qed.

Lemma grows_trans gens1 gens2 gens3 : grows gens1 gens2 -> grows gens2 gens3 -> grows gens1 gens3.
Proof. intros H1 H2 k Hk. auto. Qed.

Lemma grows_revoke_keys gens keys id : grows gens (revoke_keys keys id gens).
Proof.
  intros k [g Hg]. rewrite lookup_revoke_keys, Hg. case_bool_decide; simpl; eauto.
Qed.

Lemma recovery_ok_grows gens gens' id r :
  grows gens gens' -> recovery_ok gens id r -> recovery_ok gens' id r.
Proof. intros Hg (-> & Ha & Hr). split; [done|]. split; [auto|]. naive_solver. Qed.

Lemma recoveries_ok_grow gens gens' recs :
  grows gens gens' -> map_Forall (recovery_ok gens) recs -> map_Forall (recovery_ok gens') recs.
Proof. intros Hg Hr id r Hid. exact (recovery_ok_grows _ _ _ _ Hg (Hr _ _ Hid)). Qed.

Lemma rotations_ok_grow gens gens' (rots : gmap string KeyRotationPlan) :
  grows gens gens' -> map_Forall (rotation_ok gens) rots -> map_Forall (rotation_ok gens') rots.
Proof.
  intros Hg Hr id p (-> & Hst & Hv & realm & gid & cr & fp & Hs & Hgen)%Hr.
  split_and! ; [done..|]. exists realm, gid, cr, fp. auto.
Qed.

Lemma lists_ok_insert (revs : gmap string RevocationRecord) (lists : gmap string RevocationList) id r :
  map_Forall (list_ok revs) lists -> map_Forall (list_ok (<[id := r]> revs)) lists.
Proof.
  intros Hl i l [-> Hr]%Hl. split; [done|]. intros r' Hr'%Hr.
  apply lookup_insert_is_Some'. by right.
Qed.

(** What every operation but [enroll] has to show. *)
Lemma inv_update s gens' active' rot' revs' lists' recs' :
  store_inv s -> grows (controller_generations s) gens' ->
  map_Forall generation_ok gens' -> map_Forall (active_ok gens') active' ->
  map_Forall revocation_ok revs' -> map_Forall (recovery_ok gens') recs' ->
  map_Forall (rotation_ok gens') rot' -> map_Forall (list_ok revs') lists' ->
  store_inv (mkRealmIdentityStore (enrollments s) (enrollment_by_edge s) (parent_trust_anchors s)
               (child_key_pins s) gens' active' rot' revs' lists' recs').
Proof.
  intros [] Hg ? ? ? ? ? ?. split; simpl; try done.
  intros id e Hid. destruct (inv_enrollments0 _ _ Hid) as
    (? & ? & ? & ? & ? & ? & ? & ? & ? & ? & ? & Hgen).
  repeat split; try done. auto.
Qed.

Lemma active_ok_insert gens realm gid k g :
  active_ok gens realm gid ->
  (k = (realm, gid) -> cg_status g = Active \/ cg_status g = Recovering) ->
  active_ok (<[k := g]> gens) realm gid.
Proof.
  intros (g0 & Hg0 & Hst) Hk. destruct (decide (k = (realm, gid))) as [->|Hne].
  - exists g. rewrite lookup_insert_eq. auto.
  - exists g0. by rewrite lookup_insert_ne.
Qed.

Lemma active_ok_delete gens active realm :
  map_Forall (active_ok gens) active -> map_Forall (active_ok gens) (delete realm active).
Proof. intros H r gid. rewrite lookup_delete_Some. intros [_ Hr]. by apply H. Qed.

(** Marking generations of a realm that then has no active generation. *)
Lemma active_ok_revoke_realm gens active realm keys id :
  map_Forall (active_ok gens) active -> (forall k, k ∈ keys -> k.1 = realm) ->
  map_Forall (active_ok (revoke_keys keys id gens)) (delete realm active).
Proof.
  intros H Hkeys r gid. rewrite lookup_delete_Some. intros [Hne Hr].
  destruct (H _ _ Hr) as (g & Hg & Hst). exists g. rewrite lookup_revoke_keys, Hg.
  rewrite bool_decide_eq_false_2; [done|]. intros Hin. by apply Hkeys in Hin.
Qed.

(** Revoking one generation, which then is not the active one. *)
Lemma active_ok_revoke_one gens active realm gid g :
  map_Forall (active_ok gens) active ->
  map_Forall (active_ok (<[(realm, gid) := g]> gens))
    (if bool_decide (active !! realm = Some gid) then delete realm active else active).
Proof.
  intros H r gid' Hr.
  assert (active !! r = Some gid' /\ (realm, gid) <> (r, gid')) as [Hr' Hne].
  { case_bool_decide as Hd.
    - apply lookup_delete_Some in Hr as [? ?]. split; congruence.
    - split; [done|]. congruence. }
  apply active_ok_insert; [by apply H|done].
Qed.

Lemma gens_ok_revoke_keys gens keys id :
  map_Forall generation_ok gens -> map_Forall generation_ok (revoke_keys keys id gens).
Proof.
  intros H k g. rewrite lookup_revoke_keys. case_bool_decide; [|by apply H].
  intros (g0 & Hg0 & ->)%fmap_Some. by apply (generation_ok_same _ g0), H.
Qed.

#[local] Hint Resolve grows_refl grows_insert grows_trans grows_revoke_keys recoveries_ok_grow
  active_ok_revoke_one active_ok_revoke_realm gens_ok_revoke_keys : rust.
#[local] Hint Resolve inv_generations inv_active inv_revocations inv_recoveries inv_rotations
  inv_lists rotations_ok_grow lists_ok_insert : rust.

(** ** Revoked generations stay revoked *)

Definition is_revoked gens (k : RealmPath * string) : Prop :=
  exists g, gens !! k = Some g /\ cg_status g = Revoked.

Definition keeps_revoked gens gens' : Prop := forall k, is_revoked gens k -> is_revoked gens' k.

Lemma keeps_refl gens : keeps_revoked gens gens.
Proof. by intros k. Qed.

Lemma keeps_trans gens1 gens2 gens3 :
  keeps_revoked gens1 gens2 -> keeps_revoked gens2 gens3 -> keeps_revoked gens1 gens3.
Proof. intros H1 H2 k Hk. auto. Qed.

(** An insertion keeps the revoked generations when it revokes or when the
    entry it replaces was not revoked. *)
Lemma keeps_insert gens k g :
  cg_status g = Revoked \/ ~ is_revoked gens k -> keeps_revoked gens (<[k := g]> gens).
Proof.
  intros Hg k' Hk'. destruct (decide (k = k')) as [->|Hne].
  - destruct Hg as [Hg|Hg]; [|done]. exists g. by rewrite lookup_insert_eq.
  - destruct Hk' as (g' & ? & ?). exists g'. by rewrite lookup_insert_ne.
Qed.

Lemma not_revoked_fresh gens k : ~ is_Some (gens !! k) -> ~ is_revoked gens k.
Proof. intros Hn (g & Hg & _). apply Hn. eauto. Qed.

Lemma not_revoked_status gens k g :
  gens !! k = Some g -> cg_status g <> Revoked -> ~ is_revoked gens k.
Proof. intros Hg Hn (g' & Hg' & ?). congruence. Qed.

Lemma keeps_revoke_keys gens keys id : keeps_revoked gens (revoke_keys keys id gens).
Proof.
  intros k (g & Hg & Hst). unfold is_revoked. rewrite lookup_revoke_keys, Hg.
  case_bool_decide; simpl; eauto.
Qed.

#[local] Hint Resolve keeps_refl keeps_insert keeps_revoke_keys not_revoked_fresh
  not_revoked_status : rust.

(** ** Operations that are all or nothing *)

Definition good_step (s s' : RealmIdentityStore) : Prop :=
  store_inv s' /\ keeps_revoked (controller_generations s) (controller_generations s').

(** The operation keeps the invariant and the revoked generations, and leaves
    the store as it was when it fails. *)
Definition sound_op {A} (m : op A) : Prop :=
  forall s, store_inv s ->
    match m s with
    | (Ok _, s') => good_step s s'
    | (Err _, s') => s' = s
    end.

Lemma sound_op_ok {A} (m : op A) s a s' :
  sound_op m -> store_inv s -> m s = (Ok a, s') -> good_step s s'.
Proof. intros Hm Hs Heq. specialize (Hm s Hs). by rewrite Heq in Hm. Qed.

Lemma sound_op_err {A} (m : op A) s e s' :
  sound_op m -> store_inv s -> m s = (Err e, s') -> s' = s.
Proof. intros Hm Hs Heq. specialize (Hm s Hs). by rewrite Heq in Hm. Qed.

Lemma push_audit_empty e : push_audit e empty_change = Ok (mkIdentityStoreChange [e] []).
Proof. done. Qed.

Ltac decode_bools :=
  repeat match goal with
  | H : bool_decide _ = true |- _ => apply bool_decide_eq_true in H
  | H : bool_decide _ = false |- _ => apply bool_decide_eq_false in H
  | H : _ || _ = false |- _ => apply orb_false_iff in H as [? ?]
  | H : _ && _ = true |- _ => apply andb_true_iff in H as [? ?]
  | H : ~ (_ <> _) |- _ => apply dec_stable in H
  | u : () |- _ => destruct u
  end.

Lemma ensure_active_ok s realm gid :
  ensure_active_generation s realm gid = Ok tt <->
  active_generations s !! realm = Some gid
  /\ exists g, controller_generations s !! (realm, gid) = Some g /\ cg_status g <> Revoked.
Proof.
  unfold ensure_active_generation. split.
  - intros H. run_cases; decode_bools; naive_solver.
  - intros (-> & g & -> & Hst). by rewrite bool_decide_eq_false_2, bool_decide_eq_true_2.
Qed.

Lemma good_update s gens' active' rot' revs' lists' recs' :
  store_inv s -> grows (controller_generations s) gens' ->
  keeps_revoked (controller_generations s) gens' ->
  map_Forall generation_ok gens' -> map_Forall (active_ok gens') active' ->
  map_Forall revocation_ok revs' -> map_Forall (recovery_ok gens') recs' ->
  map_Forall (rotation_ok gens') rot' -> map_Forall (list_ok revs') lists' ->
  good_step s
    (mkRealmIdentityStore (enrollments s) (enrollment_by_edge s) (parent_trust_anchors s)
       (child_key_pins s) gens' active' rot' revs' lists' recs').
Proof. intros. split; [by apply inv_update|done]. Qed.

Lemma active_ok_fresh gens active k g :
  map_Forall (active_ok gens) active -> ~ is_Some (gens !! k) ->
  map_Forall (active_ok (<[k := g]> gens)) active.
Proof.
  intros H Hk r gid Hr. destruct (H _ _ Hr) as (g0 & Hg0 & Hst).
  apply active_ok_insert; [by exists g0|]. intros ->. destruct Hk. eauto.
Qed.

(** A new generation that becomes the active one. *)
Lemma active_ok_activate gens active realm gid g :
  map_Forall (active_ok (<[(realm, gid) := g]> gens)) active -> cg_status g = Active ->
  map_Forall (active_ok (<[(realm, gid) := g]> gens)) (<[realm := gid]> active).
Proof.
  intros H Hg. apply map_Forall_insert_2; [|done]. exists g.
  rewrite lookup_insert_eq. auto.
Qed.

Lemma gens_ok_new gens g :
  map_Forall generation_ok gens -> cg_realm g = ri_realm (cg_realm_identity g) ->
  validate_generation_refs g = Ok tt ->
  map_Forall generation_ok (<[(cg_realm g, cg_generation_id g) := g]> gens).
Proof. intros. by apply map_Forall_insert_2. Qed.

#[local] Hint Resolve active_ok_fresh active_ok_activate gens_ok_new : rust.

(** Split a step into its parts and close those the hints cover. *)
Ltac solve_step :=
  unfold set_generations, set_active, set_recoveries, set_enrollments, set_revocations in *;
  simpl; apply good_update; eauto 6 with rust.

(** Run an operation symbolically: one goal per early return and per result. *)
Ltac run_op :=
  unfold_handler;
  repeat ((rewrite push_audit_empty in *) || (progress simplify_eq/=) || case_match);
  decode_bools; subst; simplify_eq/=; try done.

Lemma issue_sound generation : sound_op (issue_controller_generation generation).
Proof.
  intros s Hinv. unfold issue_controller_generation. run_op; solve_step.
Qed.

Lemma validate_enrollment_ok s r :
  validate_enrollment s r = Ok tt ->
  let edge := (er_parent_realm r, er_child_realm r) in
  is_direct_child_of (er_child_realm r) (er_parent_realm r) = true
  /\ (pa_parent_realm (er_parent_trust_anchor r), pa_child_realm (er_parent_trust_anchor r)) = edge
  /\ (cp_parent_realm (er_child_key_pin r), cp_child_realm (er_child_key_pin r)) = edge
  /\ cp_enrollment_id (er_child_key_pin r) = er_enrollment_id r
  /\ cg_realm (er_controller_generation r) = er_child_realm r
  /\ validate_identity_ref (pa_parent_identity_ref (er_parent_trust_anchor r)) = Ok tt
  /\ validate_identity_ref (cp_child_identity_ref (er_child_key_pin r)) = Ok tt
  /\ validate_generation_refs (er_controller_generation r) = Ok tt
  /\ is_parent_trust_revoked s (er_parent_trust_anchor r) = false.
Proof.
  unfold validate_enrollment, r_bind. intros H. run_cases; decode_bools.
  repeat split; try congruence. by apply negb_false_iff.
Qed.

(** What issuing a generation leaves alone and what it adds. *)
Lemma issue_frame g s c s' :
  issue_controller_generation g s = (Ok c, s') ->
  enrollments s' = enrollments s /\ enrollment_by_edge s' = enrollment_by_edge s
  /\ parent_trust_anchors s' = parent_trust_anchors s /\ child_key_pins s' = child_key_pins s
  /\ revocations s' = revocations s
  /\ controller_generations s' = <[(cg_realm g, cg_generation_id g) := g]> (controller_generations s).
Proof. unfold issue_controller_generation. intros H. run_op. Qed.

Lemma inv_enroll s r :
  let id := er_enrollment_id r in
  let edge := (er_parent_realm r, er_child_realm r) in
  let s' := mkRealmIdentityStore (<[id := r]> (enrollments s))
      (<[edge := id]> (enrollment_by_edge s))
      (<[edge := er_parent_trust_anchor r]> (parent_trust_anchors s))
      (<[edge := er_child_key_pin r]> (child_key_pins s))
      (controller_generations s) (active_generations s) (rotations s) (revocations s)
      (revocation_lists s) (recoveries s) in
  store_inv s -> ~ is_Some (enrollments s !! id) -> ~ is_Some (enrollment_by_edge s !! edge) ->
  enrollment_ok s' id r -> store_inv s'.
Proof.
  intros id edge s' Hinv Hid Hedge Hok. pose proof Hinv as []. split; simpl; try done.
  - apply map_Forall_insert_2; [done|]. intros id' e He.
    destruct (inv_enrollments0 _ _ He) as (-> & ? & He2 & ? & ? & ? & ? & ? & ? & ? & ? & ?).
    assert (edge <> (er_parent_realm e, er_child_realm e)).
    { intros Heq. apply Hedge. rewrite Heq. eauto. }
    unfold enrollment_ok. simpl. rewrite !lookup_insert_ne by done. done.
  - intros edge' id'. rewrite lookup_insert_Some. intros [[<- <-]|[Hne He]].
    + exists r. by rewrite lookup_insert_eq.
    + destruct (inv_edges0 _ _ He) as (e & Hide & ->). exists e. split; [|done].
      rewrite lookup_insert_ne; [done|]. intros <-. apply Hid. eauto.
  - rewrite !dom_insert_L. by rewrite inv_anchors0.
  - rewrite !dom_insert_L. by rewrite inv_pins0.
Qed.

Lemma enroll_sound record : sound_op (enroll record).
Proof.
  intros s Hinv. unfold enroll. run_op.
  2: { by eapply sound_op_err; [apply issue_sound|..]. }
  match goal with H : issue_controller_generation _ _ = _ |- _ => rename H into Hs1 end.
  destruct (sound_op_ok _ _ _ _ (issue_sound _) Hinv Hs1) as [Hinv1 Hkeep].
  apply issue_frame in Hs1 as (He & Hb & Ha & Hp & _ & Hg).
  match goal with H : validate_enrollment _ _ = _ |- _ =>
    apply validate_enrollment_ok in H as (? & ? & ? & ? & Hrealm & ? & ? & ? & _) end.
  split; [|done]. apply inv_enroll; rewrite ?He, ?Hb; try done.
  unfold enrollment_ok. simpl. rewrite !lookup_insert_eq. repeat split; try done.
  rewrite Hg, <- Hrealm, lookup_insert_eq. done.
Qed.

(** ** Rotation and revocation *)

Lemma alter_lookup_insert {K V} `{Countable K} (m : gmap K V) k f v :
  m !! k = Some v -> alter f k m = <[k := f v]> m.
Proof.
  intros Hk. apply map_eq. intros k'. destruct (decide (k = k')) as [<-|].
  - by rewrite lookup_alter_eq, lookup_insert_eq, Hk.
  - by rewrite lookup_alter_ne, lookup_insert_ne.
Qed.

(** One generation of a realm is replaced as the active one by another. *)
Lemma active_ok_replace gens active realm gid old g g' :
  map_Forall (active_ok gens) active -> cg_status g' = Active ->
  map_Forall (active_ok (<[(realm, gid) := g']> (<[(realm, old) := g]> gens)))
    (<[realm := gid]> active).
Proof.
  intros H Hg' r i. rewrite lookup_insert_Some. intros [[<- <-]|[Hne Hr]].
  - exists g'. rewrite lookup_insert_eq. auto.
  - apply active_ok_insert; [apply active_ok_insert; [by apply H|]|]; congruence.
Qed.

Lemma rotate_sound plan replacement at_ :
  sound_op (rotate_controller_generation plan replacement at_).
Proof.
  intros s Hinv. unfold rotate_controller_generation. run_op.
  match goal with H : ensure_active_generation _ _ _ = _ |- _ =>
    apply ensure_active_ok in H as (_ & g & Hg & Hlive) end.
  destruct (inv_generations _ Hinv _ _ Hg) as (Hkey & Hreal & _).
  match goal with H : _ !! _ = Some c |- _ => rewrite Hg in H; injection H as <- end.
  injection Hkey as Hrealm _.
  rewrite (alter_lookup_insert _ _ _ _ Hg).
  assert (~ is_Some (<[(cg_realm replacement, current_generation) :=
     with_not_after at_ (with_status Superseded g)]> (controller_generations r4)
     !! (cg_realm replacement, cg_generation_id replacement))) as Hfresh.
  { rewrite lookup_insert_is_Some. intros [Heq|[_ ?]]; [|done].
    match goal with H : ~ is_Some _ |- _ => apply H end. rewrite <- Heq. eauto. }
  set (gens' := <[_ := _]> (<[_ := _]> (controller_generations r4))).
  assert (grows (controller_generations r4) gens') as Hgrows
    by (eapply grows_trans; apply grows_insert).
  destruct Hinv as [Hgens Hact Hrevs Hrots Hlists Hrecs ? ? ? ?] eqn:E. clear E.
  apply good_update; [done|done|..|done].
  - eapply keeps_trans; apply keeps_insert; eauto with rust.
  - apply (gens_ok_new _ (with_not_before at_ (with_status Active replacement)));
      [|simpl; congruence|done].
    by apply (gens_ok_update _ _ g).
  - by apply active_ok_replace.
  - done.
  - by eapply recoveries_ok_grow.
  - apply map_Forall_insert_2; [|by eapply rotations_ok_grow].
    split_and! ; [done|done| |].
    + unfold validate_generation_refs, validate_rotation_refs, r_bind in *. simpl.
      match goal with H : kp_subject plan = _, H' : context [kp_subject plan] |- _ =>
        rewrite H in H' end.
      run_cases; decode_bools; done.
    + eexists _, _, _, _. split; [done|]. apply Hgrows. eauto.
Qed.

#[local] Hint Resolve gens_ok_update : rust.
#[local] Hint Extern 1 (same_generation _ _) => (repeat split) : rust.

Lemma active_ok_live gens active k g :
  map_Forall (active_ok gens) active -> cg_status g = Active \/ cg_status g = Recovering ->
  map_Forall (active_ok (<[k := g]> gens)) active.
Proof. intros H Hg r gid Hr. apply active_ok_insert; [by apply H|done]. Qed.

#[local] Hint Resolve active_ok_live : rust.

Lemma generation_keys_realm s realm sel k :
  k ∈ generation_keys s realm sel -> k.1 = realm.
Proof. rewrite elem_of_generation_keys. naive_solver. Qed.

#[local] Hint Resolve generation_keys_realm : rust.

Lemma target_enrollment_step s id e :
  store_inv s -> enrollments s !! id = Some e ->
  good_step s (set_enrollments
    <[id := mkEnrollmentRecord (er_enrollment_id e) (er_parent_realm e) (er_child_realm e)
              (er_controller_generation e) (er_parent_trust_anchor e) (er_child_key_pin e)
              EnrollmentRevoked (Some Enrollment_ParentPolicyDenied) (er_bootstrap_method e)
              (er_created_at e) (er_updated_at e) (er_correlation_id e)]> s).
Proof.
  intros Hinv He. split; [|apply keeps_refl]. pose proof Hinv as []. split; simpl; try done.
  - apply map_Forall_insert_2; [exact (inv_enrollments0 _ _ He)|]. exact inv_enrollments0.
  - intros edge id' Hid. destruct (inv_edges0 _ _ Hid) as (e' & He' & ->).
    destruct (decide (id = id')) as [<-|].
    + exists (mkEnrollmentRecord (er_enrollment_id e) (er_parent_realm e) (er_child_realm e)
              (er_controller_generation e) (er_parent_trust_anchor e) (er_child_key_pin e)
              EnrollmentRevoked (Some Enrollment_ParentPolicyDenied) (er_bootstrap_method e)
              (er_created_at e) (er_updated_at e) (er_correlation_id e)).
      rewrite lookup_insert_eq. split; [done|]. by simplify_eq.
    + exists e'. by rewrite lookup_insert_ne.
Qed.

Lemma good_step_refl s : store_inv s -> good_step s s.
Proof. intros. split; auto with rust. Qed.

#[local] Hint Resolve target_enrollment_step good_step_refl : rust.

Lemma revoke_one_step s realm gid g g' :
  store_inv s -> controller_generations s !! (realm, gid) = Some g -> same_generation g g' ->
  cg_status g' = Revoked ->
  good_step s
    (set_active (fun active => if bool_decide (active !! realm = Some gid)
                               then delete realm active else active)
       (set_generations <[(realm, gid) := g']> s)).
Proof. intros. solve_step. Qed.

Lemma apply_revocation_target_sound r : sound_op (apply_revocation_target r).
Proof.
  intros s Hinv. unfold apply_revocation_target, remove_active_if. run_op; auto with rust.
  all: try (by solve_step).
  match goal with H : generation_keys _ _ _ = ?p :: _ |- _ =>
      assert (p ∈ generation_keys s realm (fun g => bool_decide (cg_credential_ref g = credential_ref)
        && bool_decide (cg_credential_fingerprint g = fingerprint))) as Hp by (rewrite H; left) end.
  apply generation_keys_realm in Hp as <-.
  match goal with H : _ !! ?p = Some c |- _ =>
      pose proof (inv_generations _ Hinv _ _ H) as [Hk _]; rewrite Hk in *; simpl end.
  by eapply revoke_one_step.
Qed.

Lemma set_revocation_step s s1 r :
  good_step s s1 -> revocation_ok (rv_revocation_id r) r ->
  good_step s (set_revocations <[rv_revocation_id r := r]> s1).
Proof.
  intros [Hinv Hk] Hr. split; [|done]. unfold set_revocations.
  apply inv_update; eauto with rust. apply map_Forall_insert_2; eauto with rust.
Qed.

Lemma effective_record_ok r pushed :
  target_refs_ok (rv_target r) ->
  revocation_ok (rv_revocation_id (effective_record r pushed)) (effective_record r pushed).
Proof.
  intros Hr. split; [done|]. split; simpl; [destruct (rv_status r), pushed; auto|].
  split; [|done]. destruct (rv_effective_at r); eauto.
Qed.

Lemma apply_revocation_target_refs r s o s' :
  apply_revocation_target r s = (Ok o, s') -> target_refs_ok (rv_target r).
Proof.
  unfold apply_revocation_target, target_refs_ok. unfold_handler. intros H.
  destruct (rv_target r); try done.
  - destruct (validate_identity_ref identity_ref) as [[]|]; done.
  - destruct (validate_credential_ref credential_ref) as [[]|]; done.
Qed.

Lemma push_teardown_empty d :
  ~ MAX_TEARDOWN_WORKLOADS < length (td_affected_workloads d) ->
  push_teardown d empty_change = Ok (mkIdentityStoreChange [] [d]).
Proof. intros H. unfold push_teardown. simpl. by rewrite bool_decide_eq_false_2. Qed.

Lemma push_audit_one e d :
  push_audit e (mkIdentityStoreChange [] d) = Ok (mkIdentityStoreChange [e] d).
Proof. done. Qed.

Lemma apply_revocation_target_some r s o s' :
  apply_revocation_target r s = (Ok o, s') -> exists realm reason, o = (Some realm, Some reason).
Proof. unfold apply_revocation_target, remove_active_if. intros H. run_op; eauto. Qed.

(** The two outcomes of applying a revocation: refused with the store as it
    was, or recorded with exactly one directive for the affected realm. *)
Lemma apply_revocation_cases r workloads pushed s :
  store_inv s ->
  let r' := effective_record r pushed in
  (exists e, apply_revocation r workloads pushed s = (Err e, s))
  \/ exists realm reason s1,
      revocations s !! rv_revocation_id r = None /\ length workloads <= MAX_TEARDOWN_WORKLOADS
      /\ apply_revocation_target r' s = (Ok (Some realm, Some reason), s1)
      /\ apply_revocation r workloads pushed s =
         (Ok (mkIdentityStoreChange
                [mkIdentityAuditEventMetadata Audit_RevocationIssued (rv_issuer_realm r) None None
                   (Some (rv_revocation_id r)) None None None (Some (rv_status r')) None
                   (rv_correlation_id r)]
                [mkSessionTeardownDirective (rv_revocation_id r) (rv_issuer_realm r) realm reason
                   workloads (rv_issued_at r) (rv_correlation_id r)]),
          set_revocations <[rv_revocation_id r := r']> s1).
Proof.
  intros Hinv r'. unfold apply_revocation. fold r'.
  change (rv_correlation_id r) with (rv_correlation_id r').
  change (rv_revocation_id r) with (rv_revocation_id r').
  change (rv_issuer_realm r) with (rv_issuer_realm r').
  change (rv_issued_at r) with (rv_issued_at r'). clearbody r'. unfold_handler.
  case_bool_decide as Hdup; [eauto|]. case_bool_decide as Hlen; [eauto|].
  destruct (apply_revocation_target r' s) as [[o|e] s1] eqn:Ht; [|left].
  - destruct (apply_revocation_target_some _ _ _ _ Ht) as (realm & reason & ->).
    right. exists realm, reason, s1. rewrite push_teardown_empty by done.
    rewrite push_audit_one, eq_None_not_Some. repeat split; try done. lia.
  - exists e. f_equal. exact (sound_op_err _ _ _ _ (apply_revocation_target_sound r') Hinv Ht).
Qed.

Lemma apply_revocation_sound r workloads pushed : sound_op (apply_revocation r workloads pushed).
Proof.
  intros s Hinv. destruct (apply_revocation_cases r workloads pushed s Hinv)
    as [[e ->]|(realm & reason & s1 & _ & _ & Ht & ->)]; [done|].
  apply (set_revocation_step _ _ (effective_record r pushed));
    [|by eapply effective_record_ok, (apply_revocation_target_refs (effective_record r pushed))].
  exact (sound_op_ok _ _ _ _ (apply_revocation_target_sound _) Hinv Ht).
Qed.

Lemma revoke_sound r workloads : sound_op (revoke r workloads).
Proof.
  intros s Hinv. unfold revoke. unfold_handler.
  destruct (ensure_active_generation _ _ _); [|done]. by apply apply_revocation_sound.
Qed.

(** ** Recovery *)

Lemma open_recovery_sound r : sound_op (open_recovery r).
Proof.
  intros s Hinv. unfold open_recovery. run_op. solve_step.
  apply map_Forall_insert_2; [|eauto with rust].
  split; [done|]. split; [simpl; by rewrite lookup_insert_eq|by intros []].
Qed.

Lemma set_recovery_status_sound id expected next :
  next <> Reissued -> next <> Completed -> sound_op (set_recovery_status id expected next).
Proof.
  intros Hn1 Hn2 s Hinv. unfold set_recovery_status. run_op. solve_step.
  match goal with H : recoveries _ !! _ = _ |- _ =>
    destruct (inv_recoveries _ Hinv _ _ H) as (-> & Ha & _) end.
  apply map_Forall_insert_2; [|eauto with rust]. repeat split; [done|naive_solver].
Qed.

(** The status is set before the directive is built, so the call keeps the
    invariant also when it fails, but then the store has changed. *)
Lemma isolate_good id at_ workloads s :
  store_inv s -> good_step s (isolate_recovery id at_ workloads s).2.
Proof.
  intros Hinv. unfold isolate_recovery. unfold_handler. simpl.
  destruct (recoveries s !! id) as [r|] eqn:Hr; [|auto with rust].
  destruct (inv_recoveries _ Hinv _ _ Hr) as (-> & Ha & _).
  case_bool_decide; [auto with rust|].
  repeat (case_match; simplify_eq/=); (solve_step;
    apply map_Forall_insert_2; [repeat split; [done|naive_solver]|eauto with rust]).
Qed.

Lemma reissue_sound id replacement : sound_op (reissue_recovery id replacement).
Proof.
  intros s Hinv. unfold reissue_recovery. run_op.
  match goal with H : recoveries _ !! _ = Some r1, H' : _ !! _ = Some c |- _ =>
    destruct (inv_recoveries _ Hinv _ _ H) as (-> & Ha & _);
    destruct (inv_generations _ Hinv _ _ H') as (Hk & Hr & _) end.
  injection Hk as Hk _. solve_step.
  - apply (gens_ok_new _ (with_status Recovering replacement)); simpl; [eauto with rust| |done].
    congruence.
  - apply map_Forall_insert_2; [|eauto with rust]. split; [done|]. split.
    + by apply grows_insert.
    + intros _. exists (with_status Recovering replacement). simpl. rewrite lookup_insert_eq.
      repeat split; try done. intros Heq.
      match goal with H : ~ is_Some _ |- _ => apply H end. rewrite Heq. congruence.
Qed.

(** The generation a recovery that can complete brings back. *)
Definition completes (s : RealmIdentityStore) (id : string) (k : RealmPath * string) : Prop :=
  exists r g, recoveries s !! id = Some r /\ rc_status r = Reissued
              /\ rc_replacement_generation r = Some g /\ k = (cg_realm g, cg_generation_id g).

Lemma complete_recovery_cases id at_ s :
  store_inv s ->
  (exists e, complete_recovery id at_ s = (Err e, s))
  \/ exists c s', complete_recovery id at_ s = (Ok c, s') /\ store_inv s'
      /\ forall k, is_revoked (controller_generations s) k ->
           is_revoked (controller_generations s') k \/ completes s id k.
Proof.
  intros Hinv. unfold complete_recovery. unfold_handler. simpl.
  destruct (recoveries s !! id) as [r|] eqn:Hr; [|eauto].
  case_bool_decide as Hst; [eauto|].
  destruct (inv_recoveries _ Hinv _ _ Hr) as (-> & [a Ha] & Hre).
  destruct (Hre (or_introl Hst)) as (g & Hg & Hrealm & Hne & [gr Hgr] & Hval). rewrite Hg, Ha. simpl.
  rewrite lookup_insert_ne by congruence. rewrite Hgr. right. eexists _, _. split; [done|].
  rewrite Hrealm in *. split.
  - unfold set_generations, set_active, set_recoveries. simpl. apply inv_update; eauto with rust.
    + by eapply gens_ok_update; [eapply gens_ok_update; eauto with rust| |];
        [rewrite lookup_insert_ne by congruence|].
    + apply active_ok_replace; eauto with rust.
    + apply map_Forall_insert_2; [|eauto 6 with rust]. split; [done|].
      split; [by eapply grows_trans; [apply grows_insert..|eauto]|]. intros _. exists g.
      split_and! ; [done|done|done| |done]. rewrite Hrealm. by rewrite lookup_insert_eq.
  - intros k Hk. destruct (decide (k = (rc_child_realm r, cg_generation_id g))) as [->|Hk'].
    + right. exists r, g. rewrite Hrealm. done.
    + left. destruct Hk as (g' & Hg' & Hs'). unfold is_revoked. simpl.
      rewrite lookup_insert_ne by done. destruct (decide (k = (rc_child_realm r,
        rc_affected_generation r))) as [->|]; [rewrite lookup_insert_eq; eauto|].
      rewrite lookup_insert_ne by done. eauto.
Qed.

(** ** Every call *)

Lemma good_step_trans s1 s2 s3 : good_step s1 s2 -> good_step s2 s3 -> good_step s1 s3.
Proof. intros [_ H1] [? H2]. split; [done|]. exact (keeps_trans _ _ _ H1 H2). Qed.

Lemma sound_op_good {A} (m : op A) s : sound_op m -> store_inv s -> good_step s (m s).2.
Proof.
  intros Hm Hs. specialize (Hm s Hs). destruct (m s) as [[a|e] s']; [done|].
  subst. by apply good_step_refl.
Qed.

Lemma merge_records_good records workloads change s :
  store_inv s -> good_step s (merge_records records workloads change s).2.
Proof.
  revert change s. induction records as [|r records IH]; intros change s Hinv; simpl;
    [by apply good_step_refl|]. unfold_handler.
  case_bool_decide; [by apply IH|].
  pose proof (sound_op_good _ _ (apply_revocation_sound r workloads true) Hinv) as Hs.
  destruct (apply_revocation r workloads true s) as [[a|e] s1]; [|done]. simpl in Hs.
  destruct (extend a change); [|done].
  eapply good_step_trans; [done|]. apply IH, Hs.
Qed.

(** What no revocation target touches. *)
Lemma apply_revocation_target_frame r s o s' :
  apply_revocation_target r s = (o, s') ->
  revocations s' = revocations s /\ revocation_lists s' = revocation_lists s
  /\ rotations s' = rotations s /\ recoveries s' = recoveries s
  /\ enrollment_by_edge s' = enrollment_by_edge s
  /\ parent_trust_anchors s' = parent_trust_anchors s /\ child_key_pins s' = child_key_pins s.
Proof. unfold apply_revocation_target, remove_active_if. intros H. run_op. Qed.

Lemma apply_revocation_known r workloads pushed s c s' :
  store_inv s -> apply_revocation r workloads pushed s = (Ok c, s') ->
  revocations s' = <[rv_revocation_id r := effective_record r pushed]> (revocations s).
Proof.
  intros Hinv E. destruct (apply_revocation_cases r workloads pushed s Hinv)
    as [[e E']|(realm & reason & s1 & _ & _ & Ht & E')]; rewrite E in E'; simplify_eq/=.
  by apply apply_revocation_target_frame in Ht as [-> _].
Qed.

Lemma merge_records_known records workloads change s c s' :
  store_inv s -> merge_records records workloads change s = (Ok c, s') ->
  (forall id, is_Some (revocations s !! id) -> is_Some (revocations s' !! id))
  /\ forall r, r ∈ records -> is_Some (revocations s' !! rv_revocation_id r).
Proof.
  revert change s. induction records as [|r records IH]; intros change s Hinv; simpl.
  { intros [= <- <-]. split; [done|]. by intros r ?%elem_of_nil. }
  unfold_handler. case_bool_decide as Hk.
  - intros E. destruct (IH _ _ Hinv E) as [H1 H2]. split; [done|].
    intros x [->|Hx]%elem_of_cons; auto.
  - destruct (apply_revocation r workloads true s) as [[a|e] s1] eqn:Ea; [|done].
    destruct (extend a change); [|done]. intros E.
    assert (store_inv s1) as Hinv1.
    { by destruct (sound_op_ok _ _ _ _ (apply_revocation_sound r workloads true) Hinv Ea). }
    destruct (IH _ _ Hinv1 E) as [H1 H2].
    apply apply_revocation_known in Ea; [|done]. rewrite Ea in H1. split.
    + intros id Hid. apply H1, lookup_insert_is_Some'. by right.
    + intros x [->|Hx]%elem_of_cons; [|auto]. apply H1, lookup_insert_is_Some'. by left.
Qed.

Lemma merge_good rlist workloads s :
  store_inv s -> good_step s (merge_revocation_list rlist workloads s).2.
Proof.
  intros Hinv. unfold merge_revocation_list. unfold_handler. simpl.
  case_bool_decide; [by apply good_step_refl|].
  destruct (ensure_parent_trust_not_revoked _ _); [|by apply good_step_refl].
  destruct (has_duplicate _); [by apply good_step_refl|].
  pose proof (merge_records_good (rl_records rlist) workloads empty_change s Hinv) as [Hs Hk].
  destruct (merge_records _ _ _ s) as [[c|e] s1] eqn:E; [|done]. simpl in *.
  split; [|done]. apply inv_update; eauto with rust.
  apply map_Forall_insert_2; [|by apply inv_lists]. split; [done|].
  by destruct (merge_records_known _ _ _ _ _ _ Hinv E).
Qed.

(** The calls that can fail after they changed the store. *)
Definition partial_on_error (c : command) : bool :=
  match c with
  | MergeRevocationList _ _ | IsolateRecovery _ _ _ => true
  | _ => false
  end.

Lemma throw_sound {A} e : sound_op (h_throw e : op A).
Proof. by intros s. Qed.

Lemma run_sound c :
  partial_on_error c = false ->
  (forall id at_, c <> CompleteRecovery id at_) -> sound_op (run c).
Proof.
  intros Hp Hc. destruct c; simpl in *; try done.
  - apply enroll_sound.
  - apply issue_sound.
  - intros s Hinv. pose proof (rotate_sound plan replacement at_ s Hinv) as H. unfold_handler.
    by destruct (rotate_controller_generation _ _ _ s) as [[[e ch]|e] s'].
  - unfold revoke_generation. destruct (rv_target _); apply revoke_sound || apply throw_sound.
  - unfold revoke_realm. destruct (rv_target _); apply revoke_sound || apply throw_sound.
  - apply revoke_sound.
  - apply revoke_sound.
  - apply revoke_sound.
  - apply open_recovery_sound.
  - by apply set_recovery_status_sound.
  - apply reissue_sound.
  - by destruct (Hc id at_).
Qed.

Lemma run_step c s :
  store_inv s ->
  store_inv (run c s).2
  /\ forall k, is_revoked (controller_generations s) k ->
       is_revoked (controller_generations (run c s).2) k
       \/ exists id at_, c = CompleteRecovery id at_ /\ completes s id k.
Proof.
  intros Hinv. destruct (partial_on_error c) eqn:Hp.
  { assert (good_step s (run c s).2) as [? ?]; [|auto].
    destruct c; try done; [by apply merge_good|by apply isolate_good]. }
  assert ((exists id at_, c = CompleteRecovery id at_)
          \/ forall id at_, c <> CompleteRecovery id at_) as [(id & at_ & ->)|Hc].
  { destruct c; eauto; right; done. }
  - simpl. destruct (complete_recovery_cases id at_ s Hinv) as [[e ->]|(c & s' & -> & ? & Hk)];
      [auto|]. split; [done|]. intros k Hr. destruct (Hk k Hr); eauto 6.
  - destruct (sound_op_good _ s (run_sound c Hp Hc) Hinv). auto.
Qed.

Lemma new_inv : store_inv new.
Proof. split; try done; apply map_Forall_empty. Qed.

Lemma run_all_inv cs s : store_inv s -> store_inv (run_all cs s).
Proof.
  revert s. induction cs as [|c cs IH]; intros s Hs; [done|]. simpl. by apply IH, run_step.
Qed.

Lemma revoked_or_completed cs s k :
  store_inv s -> is_revoked (controller_generations s) k ->
  is_revoked (controller_generations (run_all cs s)) k
  \/ exists before id at_ after, cs = before ++ CompleteRecovery id at_ :: after
       /\ completes (run_all before s) id k.
Proof.
  revert s. induction cs as [|c cs IH]; intros s Hinv Hk; [auto|].
  destruct (run_step c s Hinv) as [Hinv' Hstep].
  destruct (Hstep k Hk) as [Hk'|(id & at_ & -> & Hc)]; [|right; by exists [], id, at_, cs].
  destruct (IH _ Hinv' Hk') as [?|(before & id & at_ & after & -> & Hc)]; [auto|].
  right. by exists (c :: before), id, at_, after.
Qed.

(** ** What a revocation does to the store *)

(** The generations a target names. *)
Definition selects (target : RevocationTarget) (k : RealmPath * string)
    (g : ControllerGenerationMetadata) : Prop :=
  match target with
  | Target_Realm realm => k.1 = realm
  | Target_RealmIdentity realm identity_ref fingerprint =>
      k.1 = realm /\ ri_identity_ref (cg_realm_identity g) = identity_ref
      /\ ri_fingerprint (cg_realm_identity g) = fingerprint
  | Target_ControllerGeneration realm gid => k = (realm, gid)
  | Target_ControllerCredential realm credential_ref fingerprint =>
      k.1 = realm /\ cg_credential_ref g = credential_ref
      /\ cg_credential_fingerprint g = fingerprint
  | _ => False
  end.

(** The generations it revokes: all it names, but for a credential only the
    one with the least id. *)
Definition hits (s : RealmIdentityStore) (target : RevocationTarget) (k : RealmPath * string)
    (g : ControllerGenerationMetadata) : Prop :=
  selects target k g
  /\ match target with
     | Target_ControllerCredential _ _ _ =>
         forall k' g', controller_generations s !! k' = Some g' -> selects target k' g' ->
           ord_le k k'
     | _ => True
     end.

(** The realms left without an active generation: the whole realm of a realm
    or identity revocation, else the realm whose active generation is hit. *)
Definition ends_active (s : RealmIdentityStore) (target : RevocationTarget) (realm : RealmPath) :
    Prop :=
  match target with
  | Target_Realm r | Target_RealmIdentity r _ _ => realm = r
  | _ => exists gid g, active_generations s !! realm = Some gid
           /\ controller_generations s !! (realm, gid) = Some g /\ hits s target (realm, gid) g
  end.

(** The anchors whose trust it withdraws. *)
Definition withdraws (target : RevocationTarget) (a : ParentTrustAnchor) : Prop :=
  match target with
  | Target_Realm realm => realm = pa_parent_realm a
  | Target_RealmIdentity realm identity_ref fingerprint =>
      realm = pa_parent_realm a /\ identity_ref = pa_parent_identity_ref a
      /\ fingerprint = pa_parent_fingerprint a
  | Target_RealmKey realm role fingerprint =>
      (role = Routing.ParentTrustAnchor \/ role = Routing.RealmIdentity)
      /\ realm = pa_parent_realm a /\ fingerprint = pa_parent_fingerprint a
  | _ => False
  end.

(** The targets the store can revoke: a generation that exists, an enrollment
    that exists; keys and grants are not looked up. *)
Definition revocable (s : RealmIdentityStore) (target : RevocationTarget) : Prop :=
  target_refs_ok target
  /\ match target with
     | Target_RealmKey _ _ _ | Target_PolicyGrant _ _ | Target_CapabilityGrant _ _ => True
     | Target_Enrollment id => is_Some (enrollments s !! id)
     | _ => exists k g, controller_generations s !! k = Some g /\ selects target k g
     end.

(** The realm whose sessions a revocation tears down, and why. *)
Definition target_realm (s : RealmIdentityStore) (target : RevocationTarget) : option RealmPath :=
  match target with
  | Target_Realm realm | Target_RealmKey realm _ _ | Target_RealmIdentity realm _ _
  | Target_ControllerGeneration realm _ | Target_ControllerCredential realm _ _
  | Target_PolicyGrant realm _ | Target_CapabilityGrant realm _ => Some realm
  | Target_Enrollment id => er_child_realm <$> enrollments s !! id
  end.

Definition target_reason (target : RevocationTarget) : SessionTeardownReason :=
  match target with
  | Target_Realm _ | Target_RealmIdentity _ _ _ | Target_Enrollment _
  | Target_RealmKey _ (Routing.RealmIdentity | Routing.ParentTrustAnchor | Routing.ChildIdentity) _
    => Teardown_RealmIdentityRevoked
  | Target_RealmKey _ Routing.ControllerGeneration _ | Target_ControllerGeneration _ _
  | Target_ControllerCredential _ _ _ => Teardown_ControllerGenerationRevoked
  | Target_PolicyGrant _ _ => Teardown_PolicyGrantRevoked
  | Target_CapabilityGrant _ _ => Teardown_StreamCapabilityRevoked
  end.

Section effect.
Context (s : RealmIdentityStore) (target : RevocationTarget) (id : string) (until : N).

(** A generation that is hit: revoked in the revocation's name, with its
    identity when the realm or identity is revoked, and ending then when it
    was named itself. *)
Definition marked (g : ControllerGenerationMetadata) : ControllerGenerationMetadata :=
  let i := cg_realm_identity g in
  mkControllerGenerationMetadata (cg_realm g) (cg_generation_id g)
    (match target with
     | Target_Realm _ | Target_RealmIdentity _ _ _ =>
         mkRealmIdentityMetadata (ri_realm i) (ri_identity_ref i) (ri_fingerprint i)
           IdentityRevoked (ri_created_at i) (ri_not_after i)
     | _ => i
     end)
    (cg_credential_ref g) (cg_credential_fingerprint g) Revoked (cg_issued_at g) (cg_not_before g)
    (match target with Target_ControllerGeneration _ _ => Some until | _ => cg_not_after g end)
    (Some id).

Definition ended_enrollment (e : EnrollmentRecord) : EnrollmentRecord :=
  mkEnrollmentRecord (er_enrollment_id e) (er_parent_realm e) (er_child_realm e)
    (er_controller_generation e) (er_parent_trust_anchor e) (er_child_key_pin e)
    EnrollmentRevoked (Some Enrollment_ParentPolicyDenied) (er_bootstrap_method e)
    (er_created_at e) (er_updated_at e) (er_correlation_id e).

(** No generation appears or goes; those hit are marked, the others stay as
    they are. *)
Definition generations_after gens' : Prop :=
  dom gens' = dom (controller_generations s)
  /\ forall k g, controller_generations s !! k = Some g ->
       (hits s target k g -> gens' !! k = Some (marked g))
       /\ (~ hits s target k g -> gens' !! k = Some g).

Definition active_after active' : Prop :=
  forall realm, (ends_active s target realm -> active' !! realm = None)
    /\ (~ ends_active s target realm -> active' !! realm = active_generations s !! realm).

Definition enrollments_after (enrollments' : gmap string EnrollmentRecord) : Prop :=
  dom enrollments' = dom (enrollments s)
  /\ forall eid e, enrollments s !! eid = Some e ->
       (target = Target_Enrollment eid -> enrollments' !! eid = Some (ended_enrollment e))
       /\ (target <> Target_Enrollment eid -> enrollments' !! eid = Some e).

Record target_effect (s' : RealmIdentityStore) : Prop := mkTargetEffect {
  te_generations : generations_after (controller_generations s');
  te_active : active_after (active_generations s');
  te_enrollments : enrollments_after (enrollments s')
}.
End effect.

(** [BTreeMap::iter] visits the keys in order. *)
Lemma btree_entries_keys {K V} `{Countable K, !RustOrd K, !RustOrdLaws K} (m : gmap K V) :
  fst <$> btree_entries m = btree_keys m.
Proof.
  unfold btree_entries. assert (forall l : list K, (forall k, k ∈ l -> is_Some (m !! k)) ->
    fst <$> omap (fun k => v ← m !! k; Some (k, v)) l = l) as Hl.
  { induction l as [|k l IH]; intros Hk; [done|]. csimpl.
    destruct (Hk k) as [v ->]; [left|]. csimpl. f_equal. apply IH. intros x Hx.
    apply Hk. by right. }
  apply Hl. intros k Hk. by apply elem_of_dom, elem_of_btree_iter.
Qed.

Lemma filter_head_least {K V} `{Countable K, !RustOrd K, !RustOrdLaws K}
    (f : K * V -> bool) (l : list (K * V)) p rest q :
  StronglySorted ord_lt (fst <$> l) -> List.filter f l = p :: rest -> q ∈ l -> f q = true ->
  ord_le p.1 q.1.
Proof.
  induction l as [|x l IH]; [by intros _ _ ?%elem_of_nil|]. rewrite fmap_cons. simpl.
  intros [Hs Hall]%StronglySorted_inv Hf Hq Hfq.
  apply ord_le_lt_eq. destruct (f x) eqn:Hx.
  - injection Hf as -> _. apply elem_of_cons in Hq as [->|Hq]; [by right|]. left.
    rewrite Forall_forall in Hall. apply Hall, list_elem_of_fmap. eauto.
  - apply ord_le_lt_eq, IH; try done. apply elem_of_cons in Hq as [->|Hq]; congruence.
Qed.

Lemma generation_keys_least s realm sel p rest k g :
  generation_keys s realm sel = p :: rest -> controller_generations s !! k = Some g ->
  k.1 = realm -> sel g = true -> ord_le p k.
Proof.
  unfold generation_keys. destruct (List.filter _ _) as [|[k0 g0] l] eqn:Hf; [done|].
  intros [= <- _] Hk Hr Hs. refine (filter_head_least _ _ _ _ (k, g) _ Hf _ _).
  - rewrite btree_entries_keys. apply btree_iter_sorted.
  - by apply elem_of_btree_entries.
  - apply andb_true_iff. split; [by apply bool_decide_eq_true_2|done].
Qed.

Lemma generations_after_keys s target id until realm sel :
  match target with Target_Realm _ | Target_RealmIdentity _ _ _ => True | _ => False end ->
  (forall k g, hits s target k g <-> k.1 = realm /\ sel g = true) ->
  generations_after s target id until
    (revoke_keys (generation_keys s realm sel) id (controller_generations s)).
Proof.
  intros Ht Hh. split.
  - apply set_eq. intros k. rewrite !elem_of_dom, lookup_revoke_keys.
    case_bool_decide; [apply fmap_is_Some|done].
  - intros k g Hk. rewrite lookup_revoke_keys, Hk, Hh. case_bool_decide as Hin.
    + split; [intros _; by destruct target|]. intros Hn.
      apply elem_of_generation_keys in Hin as (g1 & Hg1 & Hr & Hs). destruct Hn.
      by simplify_eq.
    + split; [|done]. intros [Hr Hs]. destruct Hin. apply elem_of_generation_keys. eauto.
Qed.

Lemma generations_after_one s target id until k g :
  controller_generations s !! k = Some g ->
  (forall k' g0, controller_generations s !! k' = Some g0 -> (hits s target k' g0 <-> k' = k)) ->
  generations_after s target id until
    (<[k := marked target id until g]> (controller_generations s)).
Proof.
  intros Hk Hh. split.
  - by rewrite dom_insert_lookup_L by (by rewrite Hk).
  - intros k' g0 Hk'. rewrite (Hh _ _ Hk'). destruct (decide (k' = k)) as [->|Hne].
    + rewrite lookup_insert_eq. by simplify_eq.
    + by rewrite lookup_insert_ne.
Qed.

Lemma generations_after_none s target id until :
  (forall k g, ~ selects target k g) ->
  generations_after s target id until (controller_generations s).
Proof. intros Hn. split; [done|]. intros k g Hk. split; [by intros [?%Hn _]|done]. Qed.

Lemma active_after_remove s target realm gid :
  (forall realm', ends_active s target realm' <->
     realm' = realm /\ active_generations s !! realm = Some gid) ->
  active_after s target (if bool_decide (active_generations s !! realm = Some gid)
                         then delete realm (active_generations s) else active_generations s).
Proof.
  intros He realm'. rewrite He. case_bool_decide; (split; [intros [-> ?]|]); try done.
  - apply lookup_delete_eq.
  - intros Hn. rewrite lookup_delete_ne; [done|]. naive_solver.
Qed.

Lemma active_after_delete s target realm :
  (forall realm', ends_active s target realm' <-> realm' = realm) ->
  active_after s target (delete realm (active_generations s)).
Proof.
  intros He realm'. rewrite He. split; [intros ->; apply lookup_delete_eq|].
  intros Hn. by rewrite lookup_delete_ne.
Qed.

Lemma active_after_none s target :
  (forall realm, ~ ends_active s target realm) -> active_after s target (active_generations s).
Proof. intros Hn realm. split; [by intros ?%Hn|done]. Qed.

Lemma enrollments_after_none s target :
  (forall eid, target <> Target_Enrollment eid) -> enrollments_after s target (enrollments s).
Proof. intros Hn. split; [done|]. intros eid e He. split; [by intros ?%Hn|done]. Qed.

(** A target that only hits one generation. *)
Lemma hit_one_effect s target id until k g :
  store_inv s -> controller_generations s !! k = Some g ->
  match target with Target_ControllerGeneration _ _ | Target_ControllerCredential _ _ _ => True
  | _ => False end ->
  (forall k' g0, controller_generations s !! k' = Some g0 -> (hits s target k' g0 <-> k' = k)) ->
  target_effect s target id until
    (set_active (fun active => if bool_decide (active !! k.1 = Some k.2)
                               then delete k.1 active else active)
       (set_generations <[k := marked target id until g]> s)).
Proof.
  intros Hinv Hk Ht Hh. split; simpl.
  - by eapply generations_after_one.
  - apply active_after_remove. intros realm'. transitivity
      (exists gid g0, active_generations s !! realm' = Some gid
         /\ controller_generations s !! (realm', gid) = Some g0 /\ hits s target (realm', gid) g0);
      [by destruct target|]. split.
    + intros (gid & g0 & Ha & Hg & Hhit). apply (Hh _ _ Hg) in Hhit as <-. done.
    + intros [-> Ha]. destruct k as [realm gid]. exists gid, g. split_and! ; [done..|].
      by apply (Hh _ _ Hk).
  - apply enrollments_after_none. by destruct target.
Qed.

(** A target that names no generation and no enrollment. *)
Lemma hit_none_effect s target id until :
  match target with Target_RealmKey _ _ _ | Target_PolicyGrant _ _ | Target_CapabilityGrant _ _ => True
  | _ => False end -> target_effect s target id until s.
Proof.
  intros Ht. split.
  - apply generations_after_none. by destruct target; try done; intros ? ? [].
  - apply active_after_none. destruct target; try done; by intros ? (? & ? & _ & _ & [] & _).
  - apply enrollments_after_none. by destruct target.
Qed.

(** A target that revokes the generations of a realm that satisfy a filter. *)
Lemma hit_keys_effect s target id until realm sel :
  match target with Target_Realm r | Target_RealmIdentity r _ _ => r = realm | _ => False end ->
  (forall k g, selects target k g <-> k.1 = realm /\ sel g = true) ->
  target_effect s target id until
    (set_active (delete realm)
       (set_generations (revoke_keys (generation_keys s realm sel) id) s)).
Proof.
  intros Ht Hs. split; simpl.
  - apply generations_after_keys; [by destruct target|]. intros k g. rewrite <- Hs. unfold hits. destruct target; naive_solver.
  - apply active_after_delete. intros realm'. by destruct target; subst.
  - apply enrollments_after_none. by destruct target.
Qed.

(** Whether there is a generation the target names. *)
Lemma generation_keys_nil s target realm sel :
  (forall k g, selects target k g <-> k.1 = realm /\ sel g = true) ->
  generation_keys s realm sel = [] ->
  ~ exists k g, controller_generations s !! k = Some g /\ selects target k g.
Proof.
  intros Hs Hnil (k & g & Hk & [Hr Hsel]%Hs).
  assert (k ∈ generation_keys s realm sel) as Hin by (apply elem_of_generation_keys; eauto).
  rewrite Hnil in Hin. by apply elem_of_nil in Hin.
Qed.

Lemma generation_keys_some s target realm sel :
  (forall k g, selects target k g <-> k.1 = realm /\ sel g = true) ->
  generation_keys s realm sel <> [] ->
  exists k g, controller_generations s !! k = Some g /\ selects target k g.
Proof.
  intros Hs Hn. destruct (generation_keys s realm sel) as [|k l] eqn:E; [done|].
  assert (k ∈ k :: l) as Hin by left. rewrite <- E in Hin.
  apply elem_of_generation_keys in Hin as (g & Hk & Hr). exists k, g. by rewrite Hs.
Qed.

Lemma selects_both {A B} `{EqDecision A, EqDecision B} (P : Prop) (a a' : A) (b b' : B) :
  P /\ a = a' /\ b = b' <-> P /\ bool_decide (a = a') && bool_decide (b = b') = true.
Proof. by rewrite andb_true_iff, !bool_decide_eq_true. Qed.

Lemma credential_effect s realm credential_ref fingerprint id until k l g :
  let target := Target_ControllerCredential realm credential_ref fingerprint in
  store_inv s ->
  generation_keys s realm (fun g => bool_decide (cg_credential_ref g = credential_ref)
                                    && bool_decide (cg_credential_fingerprint g = fingerprint))
    = k :: l ->
  controller_generations s !! k = Some g ->
  target_effect s target id until
    (set_active (fun active => if bool_decide (active !! realm = Some (cg_generation_id g))
                               then delete realm active else active)
       (set_generations <[k := marked target id until g]> s)).
Proof.
  intros target Hinv Hkeys Hk.
  assert (k ∈ k :: l) as Hin by left. rewrite <- Hkeys in Hin.
  apply elem_of_generation_keys in Hin as (g1 & Hg1 & Hr & Hsel). simplify_eq.
  apply andb_true_iff in Hsel as [H1%bool_decide_eq_true H2%bool_decide_eq_true].
  destruct (inv_generations _ Hinv _ _ Hk) as [Heq _].
  replace (cg_generation_id g) with (k.2) by (by rewrite Heq).
  apply (hit_one_effect s target id until k g); try done. intros k' g0 Hk'. split.
  - intros [(Hr & Hc & Hf) Hleast]. apply (anti_symm ord_le).
    + apply (Hleast _ _ Hk). done.
    + eapply generation_keys_least; [done..|].
      apply andb_true_iff. split; by apply bool_decide_eq_true_2.
  - intros ->. simplify_eq. split; [done|]. intros k' g0 Hg0 (Hr' & Hc' & Hf').
    eapply generation_keys_least; [done..|].
      apply andb_true_iff. split; by apply bool_decide_eq_true_2.
Qed.

(** When a revocation takes effect. *)
Definition revoked_from (r : RevocationRecord) : N := default (rv_issued_at r) (rv_effective_at r).

(** A revocation target is applied exactly when it can be, with its effect on
    the generations, the active generations and the enrollments. *)
Lemma target_applied r s :
  store_inv s ->
  (revocable s (rv_target r) /\ exists realm s',
     apply_revocation_target r s = (Ok (Some realm, Some (target_reason (rv_target r))), s')
     /\ target_realm s (rv_target r) = Some realm
     /\ target_effect s (rv_target r) (rv_revocation_id r) (revoked_from r) s')
  \/ (~ revocable s (rv_target r) /\ exists e, apply_revocation_target r s = (Err e, s)).
Proof.
  intros Hinv. unfold apply_revocation_target, revocable, remove_active_if. unfold_handler.
  destruct (rv_target r) as [realm|realm role fp|realm iref fp|realm gid|realm cref fp|id|realm grant
    |realm cap] eqn:Ht; cbn [target_refs_ok target_realm target_reason].
  - case_bool_decide as E; [right|left]; split.
    + intros [_ H]. revert H. eapply generation_keys_nil; [|done]. by split; [|intros []].
    + eauto.
    + split; [done|]. eapply generation_keys_some; [|done]. by split; [|intros []].
    + eexists _, _. split_and! ; [done..|]. apply hit_keys_effect; [done|]. by split; [|intros []].
  - left. split; [done|]. eexists _, _. split_and! ; [done..|]. by apply hit_none_effect.
  - destruct (validate_identity_ref iref) as [[]|e] eqn:Hv; [|right; split; [by intros []|eauto]].
    case_bool_decide as E; [right|left]; split.
    + intros [_ H]. revert H. eapply generation_keys_nil; [|done]. intros. apply selects_both.
    + eauto.
    + split; [done|]. eapply generation_keys_some; [|done]. intros. apply selects_both.
    + eexists _, _. split_and! ; [done..|]. apply hit_keys_effect; [done|]. intros.
      apply selects_both.
  - destruct (controller_generations s !! (realm, gid)) as [g|] eqn:Hg; [left|right]; split.
    + split; [done|]. by exists (realm, gid), g.
    + eexists _, _. split_and! ; [done..|].
      apply (hit_one_effect s (Target_ControllerGeneration realm gid) (rv_revocation_id r)
        (revoked_from r) (realm, gid) g); try done.
      intros k' g0 Hk'. by split; [intros []|].
    + by intros [_ (k & g & Hk & ->)]; simplify_eq.
    + eauto.
  - destruct (validate_credential_ref cref) as [[]|e] eqn:Hv; [|right; split; [by intros []|eauto]].
    destruct (generation_keys s realm _) as [|k l] eqn:E; [right|].
    { split; [|eauto]. intros [_ H]. revert H. eapply generation_keys_nil; [|done]. intros.
      apply selects_both. }
    assert (k ∈ k :: l) as Hin by left. rewrite <- E in Hin.
    apply elem_of_generation_keys in Hin as (g & Hg & Hr & Hs). rewrite Hg. left. split.
    + split; [done|]. exists k, g. split; [done|]. by apply selects_both.
    + eexists _, _. split_and! ; [done..|].
      by apply (credential_effect s realm cref fp (rv_revocation_id r) (revoked_from r) k l g).
  - destruct (enrollments s !! id) as [e|] eqn:He; [left|right]; split; eauto; [|by intros [_ []]].
    eexists _, _. split_and! ; [done..|]. split; simpl.
    + apply generations_after_none. by intros ? ? [].
    + apply active_after_none. by intros ? (? & ? & _ & _ & [] & _).
    + split; [by rewrite dom_insert_lookup_L by (by rewrite He)|]. intros eid e0 He0.
      destruct (decide (eid = id)) as [->|Hne]; [rewrite lookup_insert_eq|rewrite lookup_insert_ne by done];
        split; naive_solver.
  - left. split; [done|]. eexists _, _. split_and! ; [done..|]. by apply hit_none_effect.
  - left. split; [done|]. eexists _, _. split_and! ; [done..|]. by apply hit_none_effect.
Qed.

(** The trust in an anchor is withdrawn by the recorded revocations. *)
Lemma trust_revoked_iff s anchor :
  is_parent_trust_revoked s anchor = true <->
  exists id r, revocations s !! id = Some r /\ revokes_anchor anchor r = true.
Proof.
  unfold is_parent_trust_revoked. rewrite existsb_elem. split.
  - intros (r & ([id r'] & -> & Hin)%list_elem_of_fmap & Hr).
    apply elem_of_btree_entries in Hin. eauto.
  - intros (id & r & Hid & Hr). exists r. split; [|done].
    apply list_elem_of_fmap. exists (id, r). by rewrite elem_of_btree_entries.
Qed.

(** A recorded revocation of the parent realm withdraws its anchors. *)
Lemma anchor_revoked s id r anchor :
  revocations s !! id = Some r -> revokes_anchor anchor r = true ->
  is_parent_trust_revoked s anchor = true.
Proof. intros. apply trust_revoked_iff. eauto. Qed.

(** With the parent realm revoked, nothing is taken from it any more. *)
Lemma revoked_parent_refused s id r realm :
  revocations s !! id = Some r -> rv_target r = Target_Realm realm -> revocation_ok id r ->
  (forall rlist workloads, rl_issuer_realm rlist = realm ->
     exists e, merge_revocation_list rlist workloads s = (Err e, s))
  /\ (forall record, er_parent_realm record = realm -> exists e, enroll record s = (Err e, s)).
Proof.
  intros Hid Ht (_ & Hst & _).
  assert (forall a, pa_parent_realm a = realm -> is_parent_trust_revoked s a = true) as Hrev.
  { intros a Ha. apply (anchor_revoked _ _ _ _ Hid). unfold revokes_anchor. rewrite Ht, Ha.
    destruct Hst as [-> | ->]; by apply bool_decide_eq_true_2. }
  split.
  - intros rlist workloads Hi. unfold merge_revocation_list. unfold_handler.
    case_bool_decide; [eauto|]. unfold ensure_parent_trust_not_revoked.
    destruct (existsb _ _) eqn:He; [|eauto]. apply existsb_elem in He as (a & _ & Hf).
    apply andb_true_iff in Hf as [Hp Hn]. apply bool_decide_eq_true in Hp.
    rewrite Hrev in Hn by congruence. done.
  - intros record Hp. unfold enroll. unfold_handler.
    destruct (validate_enrollment s record) as [[]|e] eqn:Hv; [|eauto].
    apply validate_enrollment_ok in Hv as (_ & Ha & _ & _ & _ & _ & _ & _ & Hn).
    rewrite Hrev in Hn by (injection Ha; congruence). done.
Qed.

(** When [revoke] accepts a revocation. *)
Definition accepts (s : RealmIdentityStore) (r : RevocationRecord) (workloads : list string) : Prop :=
  active_generations s !! rv_issuer_realm r = Some (rv_issuer_controller_generation r)
  /\ revocations s !! rv_revocation_id r = None
  /\ length workloads <= MAX_TEARDOWN_WORKLOADS /\ revocable s (rv_target r).

(** The store an accepted revocation leaves: its target's effect, the record,
    the anchors that lose their trust, and nothing else. *)
Record takes_effect (s : RealmIdentityStore) (r : RevocationRecord) (s' : RealmIdentityStore) :
    Prop := mkTakesEffect {
  tk_target : target_effect s (rv_target r) (rv_revocation_id r) (revoked_from r) s';
  tk_recorded : revocations s' = <[rv_revocation_id r := effective_record r false]> (revocations s);
  tk_trust : forall a, is_parent_trust_revoked s' a = true <->
    is_parent_trust_revoked s a = true \/ withdraws (rv_target r) a;
  tk_frame : enrollment_by_edge s' = enrollment_by_edge s
    /\ parent_trust_anchors s' = parent_trust_anchors s /\ child_key_pins s' = child_key_pins s
    /\ rotations s' = rotations s /\ revocation_lists s' = revocation_lists s
    /\ recoveries s' = recoveries s
}.

Lemma revokes_anchor_effective r pushed a :
  revokes_anchor a (effective_record r pushed) = true <-> withdraws (rv_target r) a.
Proof.
  unfold revokes_anchor, withdraws. transitivity
    (match rv_target r with
     | Target_Realm realm => bool_decide (realm = pa_parent_realm a)
     | Target_RealmIdentity realm identity_ref fingerprint =>
         bool_decide (realm = pa_parent_realm a)
         && bool_decide (identity_ref = pa_parent_identity_ref a)
         && bool_decide (fingerprint = pa_parent_fingerprint a)
     | Target_RealmKey realm (Routing.ParentTrustAnchor | Routing.RealmIdentity) fingerprint =>
         bool_decide (realm = pa_parent_realm a)
         && bool_decide (fingerprint = pa_parent_fingerprint a)
     | _ => false
     end = true).
  { simpl. destruct (rv_status r), pushed; done. }
  destruct (rv_target r) as [|? [] ?|? ? ?| | | | |];
    rewrite ?andb_true_iff, ?bool_decide_eq_true; naive_solver.
Qed.

Lemma trust_after s s' r :
  revocations s !! rv_revocation_id r = None ->
  revocations s' = <[rv_revocation_id r := effective_record r false]> (revocations s) ->
  forall a, is_parent_trust_revoked s' a = true <->
    is_parent_trust_revoked s a = true \/ withdraws (rv_target r) a.
Proof.
  intros Hfresh Hrevs a. rewrite !trust_revoked_iff, Hrevs, <- (revokes_anchor_effective r false).
  split.
  - intros (id & r' & [[<- <-]|[Hne Hid]]%lookup_insert_Some & Hr'); eauto.
  - intros [(id & r' & Hid & Hr')|Hr].
    + exists id, r'. rewrite lookup_insert_ne; [done|]. intros <-. congruence.
    + exists (rv_revocation_id r), (effective_record r false). by rewrite lookup_insert_eq.
Qed.

(** The generations a call speaks for or brings in: the issuer of a
    revocation, the generation rotated away from or recovered, and the one it
    issues. *)
Definition relies_on (c : command) : list (RealmPath * string) :=
  let key g := (cg_realm g, cg_generation_id g) in
  match c with
  | Enroll record => [key (er_controller_generation record)]
  | IssueGeneration generation => [key generation]
  | RotateGeneration plan replacement _ =>
      key replacement ::
      match kp_subject plan with
      | Subject_ControllerGeneration realm current _ _ => [(realm, current)]
      | _ => []
      end
  | RevokeGeneration r _ | RevokeRealm r _ | Revoke r _ =>
      [(rv_issuer_realm r, rv_issuer_controller_generation r)]
  | RevokePolicyGrant _ issuer gid _ _ _ _ | RevokeCapability _ issuer gid _ _ _ _ =>
      [(issuer, gid)]
  | OpenRecovery recovery => [(rc_child_realm recovery, rc_affected_generation recovery)]
  | ReissueRecovery _ replacement => [key replacement]
  | MergeRevocationList _ _ | ApproveRecovery _ | IsolateRecovery _ _ _ | CompleteRecovery _ _ => []
  end.

Lemma revoked_not_active s realm gid :
  store_inv s -> is_revoked (controller_generations s) (realm, gid) ->
  active_generations s !! realm <> Some gid.
Proof.
  intros Hinv (g & Hg & Hst) Ha.
  destruct (inv_active _ Hinv _ _ Ha) as (g' & Hg' & [H|H]); simplify_eq; congruence.
Qed.

Lemma revoked_issuer_refused s r workloads :
  is_revoked (controller_generations s) (rv_issuer_realm r, rv_issuer_controller_generation r) ->
  revoke r workloads s = (Err RevokedGeneration, s).
Proof.
  intros (g & Hg & Hst). unfold revoke, ensure_active_generation. unfold_handler.
  by rewrite Hg, bool_decide_eq_true_2.
Qed.

Lemma known_not_issued s g :
  is_Some (controller_generations s !! (cg_realm g, cg_generation_id g)) ->
  exists e, issue_controller_generation g s = (Err e, s).
Proof.
  intros Hk. unfold issue_controller_generation. unfold_handler.
  destruct (validate_generation_refs g); [|eauto]. case_bool_decide; [eauto|].
  case_bool_decide; [eauto|]. case_bool_decide; [eauto|done].
Qed.

Lemma rotate_refused s plan replacement at_ k :
  is_revoked (controller_generations s) k -> k ∈ relies_on (RotateGeneration plan replacement at_) ->
  exists e, rotate_controller_generation plan replacement at_ s = (Err e, s).
Proof.
  intros (g & Hg & Hst) Hk. unfold rotate_controller_generation. unfold_handler. simpl in Hk.
  destruct (validate_generation_refs _); [|eauto]. destruct (validate_rotation_refs _); [|eauto].
  destruct (kp_subject plan) as [|realm current cref fp]; [eauto|].
  destruct (ensure_active_generation s realm current) as [[]|] eqn:Ha; [|eauto].
  apply ensure_active_ok in Ha as (_ & g0 & Hg0 & Hst0). rewrite Hg0.
  repeat (case_bool_decide; [eauto|]). exfalso.
  apply elem_of_cons in Hk as [->|Hk]; [eauto|].
  apply list_elem_of_singleton in Hk as ->. congruence.
Qed.

Lemma recovery_refused s recovery :
  is_revoked (controller_generations s)
    (rc_child_realm recovery, rc_affected_generation recovery) ->
  exists e, open_recovery recovery s = (Err e, s).
Proof.
  intros (g & Hg & Hst). unfold open_recovery. unfold_handler. case_bool_decide; [eauto|].
  rewrite Hg, bool_decide_eq_true_2 by done. eauto.
Qed.

Lemma reissue_refused s id replacement :
  is_Some (controller_generations s !! (cg_realm replacement, cg_generation_id replacement)) ->
  exists e, reissue_recovery id replacement s = (Err e, s).
Proof.
  intros Hk. unfold reissue_recovery. unfold_handler.
  destruct (validate_generation_refs replacement); [|eauto].
  destruct (recoveries s !! id) as [r|]; [|eauto]. destruct (_ && _); [eauto|].
  destruct (controller_generations s !! (rc_child_realm r, _)); [|eauto].
  destruct (_ || _); [eauto|]. case_bool_decide; [eauto|done].
Qed.

Lemma enroll_refused s record :
  let g := er_controller_generation record in
  is_Some (controller_generations s !! (cg_realm g, cg_generation_id g)) ->
  exists e, enroll record s = (Err e, s).
Proof.
  intros g Hk. unfold enroll. unfold_handler. destruct (validate_enrollment s record); [|eauto].
  destruct (_ || _); [eauto|]. destruct (known_not_issued s g Hk) as [e E]. subst g.
  rewrite E. eauto.
Qed.

(** No call that relies on a revoked generation is accepted. *)
Lemma revoked_refused s c k :
  is_revoked (controller_generations s) k -> k ∈ relies_on c -> exists e, run c s = (Err e, s).
Proof.
  intros Hr Hk. assert (is_Some (controller_generations s !! k)) as Hs
    by (destruct Hr as (g & Hg & _); eauto).
  destruct c; simpl in Hk; try apply list_elem_of_singleton in Hk; subst; simpl;
    try (by apply elem_of_nil in Hk).
  - by apply enroll_refused.
  - by apply known_not_issued.
  - unfold_handler. destruct (rotate_refused _ _ _ at_ _ Hr Hk) as [e ->]. eauto.
  - unfold revoke_generation. destruct (rv_target _); eauto using revoked_issuer_refused.
  - unfold revoke_realm. destruct (rv_target _); eauto using revoked_issuer_refused.
  - eexists. by apply revoked_issuer_refused.
  - eexists. by apply revoked_issuer_refused.
  - eauto using revoked_issuer_refused.
  - by apply recovery_refused.
  - by apply reissue_refused.
Qed.

Lemma takes_effect_intro s r o s1 :
  revocations s !! rv_revocation_id r = None ->
  apply_revocation_target (effective_record r false) s = (Ok o, s1) ->
  target_effect s (rv_target r) (rv_revocation_id r) (revoked_from r) s1 ->
  takes_effect s r (set_revocations <[rv_revocation_id r := effective_record r false]> s1).
Proof.
  intros Hfresh Ht [Hg Ha He].
  destruct (apply_revocation_target_frame _ _ _ _ Ht) as (Hr & ? & ? & ? & ? & ? & ?).
  split; [done|by simpl; rewrite Hr| |done].
  apply trust_after; [done|]. simpl. by rewrite Hr.
Qed.

Lemma apply_revocation_err r workloads pushed s e s' :
  apply_revocation r workloads pushed s = (Err e, s') ->
  revocations s !! rv_revocation_id r = None -> length workloads <= MAX_TEARDOWN_WORKLOADS ->
  apply_revocation_target (effective_record r pushed) s = (Err e, s').
Proof.
  unfold apply_revocation. unfold_handler. intros E Hfresh Hlen.
  rewrite bool_decide_eq_false_2 in E by (by rewrite Hfresh; intros []).
  rewrite bool_decide_eq_false_2 in E by lia.
  destruct (apply_revocation_target _ s) as [[o|e'] s1] eqn:Ht; [exfalso|congruence].
  destruct (apply_revocation_target_some _ _ _ _ Ht) as (realm & reason & ->).
  rewrite push_teardown_empty in E by (simpl; lia). done.
Qed.

Lemma revoked_from_effective r pushed : revoked_from (effective_record r pushed) = revoked_from r.
Proof. unfold revoked_from. simpl. by destruct (rv_effective_at r). Qed.

Lemma revoke_cases s r workloads :
  store_inv s ->
  (accepts s r workloads /\ exists realm s1,
     apply_revocation_target (effective_record r false) s
       = (Ok (Some realm, Some (target_reason (rv_target r))), s1)
     /\ target_realm s (rv_target r) = Some realm
     /\ target_effect s (rv_target r) (rv_revocation_id r) (revoked_from r) s1
     /\ revoke r workloads s =
        (Ok (mkIdentityStoreChange
               [mkIdentityAuditEventMetadata Audit_RevocationIssued (rv_issuer_realm r) None None
                  (Some (rv_revocation_id r)) None None None
                  (Some (rv_status (effective_record r false))) None (rv_correlation_id r)]
               [mkSessionTeardownDirective (rv_revocation_id r) (rv_issuer_realm r) realm
                  (target_reason (rv_target r)) workloads (rv_issued_at r) (rv_correlation_id r)]),
         set_revocations <[rv_revocation_id r := effective_record r false]> s1))
  \/ (~ accepts s r workloads /\ exists e, revoke r workloads s = (Err e, s)).
Proof.
  intros Hinv. unfold revoke. unfold_handler.
  destruct (ensure_active_generation _ _ _) as [[]|e] eqn:Ha; [|right; split; [|eauto]].
  2:{ intros (Hact & _). destruct (inv_active _ Hinv _ _ Hact) as (g & Hg & Hst).
      assert (ensure_active_generation s (rv_issuer_realm r) (rv_issuer_controller_generation r)
              = Ok tt); [|congruence].
      apply ensure_active_ok. split; [done|]. exists g. split; [done|].
      destruct Hst; congruence. }
  apply ensure_active_ok in Ha as [Ha _].
  destruct (target_applied (effective_record r false) s Hinv)
    as [(Hrev & realm & s1 & Ht & Htr & Hte)|[Hrev [e Ht]]];
    destruct (apply_revocation_cases r workloads false s Hinv)
      as [[e' E]|(realm' & reason & s1' & Hfresh & Hlen & Ht' & E)];
    rewrite Ht in *; simplify_eq.
  - right. split; [|eauto]. intros (_ & Hfresh & Hlen & _).
    pose proof (apply_revocation_err _ _ _ _ _ _ E Hfresh Hlen) as Ht'. congruence.
  - left. split; [done|]. rewrite revoked_from_effective in Hte. by exists realm', s1'.
  - right. split; [by intros (_ & _ & _ & ?)|eauto].
Qed.

(** ** Properties *)


(** C20. Once revoked, a controller generation stays revoked whatever calls
    follow, is not the active generation of its realm, and every call that
    relies on it is refused and leaves the store as it was: a revocation it
    issues, a rotation away from it, a recovery of it, and an issuance,
    enrollment, rotation or reissue that would bring it in again.  The only
    exception is a call that completes a recovery that had reissued exactly
    that generation.  A merged revocation list is not among these calls: the
    generation that issued it is not looked at. *)
Theorem revocation_final before cs realm gid :
  let s := run_all cs (run_all before new) in
  is_revoked (controller_generations (run_all before new)) (realm, gid) ->
  (is_revoked (controller_generations s) (realm, gid)
   /\ active_generations s !! realm <> Some gid
   /\ forall c, (realm, gid) ∈ relies_on c -> exists e, run c s = (Err e, s))
  \/ exists cs1 id at_ cs2, cs = cs1 ++ CompleteRecovery id at_ :: cs2
       /\ completes (run_all cs1 (run_all before new)) id (realm, gid).
Proof.
  intros s Hk. pose proof (run_all_inv before _ new_inv) as Hinv.
  destruct (revoked_or_completed cs _ _ Hinv Hk) as [Hr|?]; [left|auto].
  split; [done|]. split; [by apply revoked_not_active; [apply run_all_inv|]|].
  intros c. by apply revoked_refused.
Qed.

(** A call that fails leaves the store as it was, except for the merge
    of a revocation list and the isolation of a recovery. *)
Theorem identity_atomic cs c e s' :
  run c (run_all cs new) = (Err e, s') -> partial_on_error c = false -> s' = run_all cs new.
Proof.
  intros Hrun Hp. pose proof (run_all_inv cs _ new_inv) as Hinv.
  assert ((exists id at_, c = CompleteRecovery id at_)
          \/ forall id at_, c <> CompleteRecovery id at_) as [(id & at_ & ->)|Hc].
  { destruct c; eauto; right; done. }
  - simpl in Hrun. destruct (complete_recovery_cases id at_ _ Hinv) as [[? H]|(? & ? & H & _)];
      congruence.
  - exact (sound_op_err _ _ _ _ (run_sound c Hp Hc) Hinv Hrun).
Qed.

(** C27. [revoke] accepts a revocation exactly when its issuer is the active
    generation of the issuing realm, its id is new, at most 64 workloads are
    given and its target can be revoked; otherwise the store stays as it was.
    An accepted one revokes, in its name, exactly the generations its target
    names (of a credential the one with the least id), with their identity
    when the target is a realm or an identity, ends exactly the active
    generations concerned, revokes the enrollment it names, is recorded as
    effective, withdraws the trust in exactly the parent anchors its target
    covers, and changes nothing else: a key, policy or capability revocation
    leaves generations and enrollments alone.  It yields one directive, for
    the target's realm, with the target's reason and all the given workloads.
    After the revocation of a realm, lists and enrollments from it are
    refused. *)
Theorem revoke_effective cs r workloads :
  let s := run_all cs new in
  (accepts s r workloads /\ exists c s' realm,
     revoke r workloads s = (Ok c, s') /\ takes_effect s r s'
     /\ target_realm s (rv_target r) = Some realm
     /\ teardown_directives c =
        [mkSessionTeardownDirective (rv_revocation_id r) (rv_issuer_realm r) realm
           (target_reason (rv_target r)) workloads (rv_issued_at r) (rv_correlation_id r)]
     /\ (forall parent, rv_target r = Target_Realm parent ->
          (forall rlist ws, rl_issuer_realm rlist = parent ->
             exists e, merge_revocation_list rlist ws s' = (Err e, s'))
          /\ (forall record, er_parent_realm record = parent ->
               exists e, enroll record s' = (Err e, s'))))
  \/ (~ accepts s r workloads /\ exists e, revoke r workloads s = (Err e, s)).
Proof.
  intros s. pose proof (run_all_inv cs _ new_inv) as Hinv. fold s in Hinv.
  destruct (revoke_cases s r workloads Hinv)
    as [(Ha & realm & s1 & Ht & Htr & Hte & ->)|[Hn He]]; [left|by right].
  split; [done|]. eexists _, _, realm. split; [done|]. split_and! ; try done.
  - eapply takes_effect_intro; [by apply Ha|done..].
  - intros parent Hp. eapply (revoked_parent_refused _ (rv_revocation_id r) (effective_record r false));
      [apply lookup_insert_eq|done|].
    by eapply effective_record_ok, (apply_revocation_target_refs (effective_record r false)).
Qed.

(** ** Concrete runs *)

Definition sample_generation (realm : RealmPath) (gid : string)
    (status : ControllerGenerationStatus) : ControllerGenerationMetadata :=
  mkControllerGenerationMetadata realm gid
    (mkRealmIdentityMetadata realm "identity-a" "fp-a" IdentityActive 0 None)
    "credential-a" "fp-c" status 0 0 None None.

Definition sample_revocation (id : string) (target : RevocationTarget) : RevocationRecord :=
  mkRevocationRecord id ["work"%string] "g1" target RevocationPending Revocation_OperatorRequested
    7 None None.

Definition sample_recovery : RecoveryProcedure :=
  mkRecoveryProcedure "r1" ["home"%string] ["work"%string] LostControllerKey Requested "g1" None []
    3 None None.

Definition sample_enrollment : EnrollmentRecord :=
  let parent := ["work"%string] in
  let child := ["pay"%string; "work"%string] in
  mkEnrollmentRecord "e1" parent child (sample_generation child "g1" Active)
    (mkParentTrustAnchor parent child "identity-a" "fp-a" "g1" 1)
    (mkChildKeyPin parent child "identity-b" "fp-b" "g1" "e1" 1)
    EnrollmentAccepted None "manual" 1 1 None.

Definition start : list command :=
  [IssueGeneration (sample_generation ["work"%string] "g1" Active);
   IssueGeneration (sample_generation ["work"%string] "g2" Pending);
   Revoke (sample_revocation "v1" (Target_ControllerGeneration ["work"%string] "g2")) ["vm1"%string]].

Lemma revocation_final_witness :
  is_revoked (controller_generations (run_all start new)) (["work"%string], "g2"%string)
  /\ (let s := run_all [Revoke (sample_revocation "v2" (Target_Realm ["work"%string])) []]
                 (run_all start new) in
      (is_revoked (controller_generations s) (["work"%string], "g2"%string)
       /\ active_generations s !! ["work"%string] <> Some "g2"%string
       /\ forall c, (["work"%string], "g2"%string) ∈ relies_on c -> exists e, run c s = (Err e, s))
      \/ exists cs1 id at_ cs2,
           [Revoke (sample_revocation "v2" (Target_Realm ["work"%string])) []]
             = cs1 ++ CompleteRecovery id at_ :: cs2
           /\ completes (run_all cs1 (run_all start new)) id (["work"%string], "g2"%string)).
Proof.
  assert (is_revoked (controller_generations (run_all start new)) (["work"%string], "g2"%string))
    as Hr by (eexists; split; [vm_compute; reflexivity|reflexivity]).
  split; [exact Hr|]. exact (revocation_final start
    [Revoke (sample_revocation "v2" (Target_Realm ["work"%string])) []] _ _ Hr).
Defined.

Lemma identity_atomic_witness :
  (run (Revoke (sample_revocation "v1" (Target_Realm ["work"%string])) [])
     (run_all start new)).2 = run_all start new.
Proof.
  apply (identity_atomic start
    (Revoke (sample_revocation "v1" (Target_Realm ["work"%string])) []) DuplicateRevocation);
    [vm_compute; reflexivity|reflexivity].
Defined.

(** A replacement revoked while its recovery is reissued becomes the active
    generation again when the recovery completes. *)
Example recovery_revives_revoked :
  let s := run_all
    [IssueGeneration (sample_generation ["work"%string] "g1" Active); OpenRecovery sample_recovery;
     ApproveRecovery "r1";
     ReissueRecovery "r1" (sample_generation ["work"%string] "g2" Pending);
     Revoke (sample_revocation "v1" (Target_ControllerGeneration ["work"%string] "g2")) []] new in
  is_revoked (controller_generations s) (["work"%string], "g2"%string)
  /\ active_generations (run (CompleteRecovery "r1" 9) s).2 !! ["work"%string] = Some "g2"%string
  /\ ~ is_revoked (controller_generations (run (CompleteRecovery "r1" 9) s).2)
         (["work"%string], "g2"%string).
Proof.
  split; [eexists; split; vm_compute; reflexivity|]. split; [vm_compute; reflexivity|].
  intros (g & Hg & Hst). vm_compute in Hg. injection Hg as <-. discriminate Hst.
Qed.

Definition policy_list (n : nat) : RevocationList :=
  mkRevocationList "l1" ["work"%string] "g1" ListPublished
    ((fun i => sample_revocation ("v-" +:+ pretty i)
                 (Target_PolicyGrant ["work"%string] "grant-a")) <$> seq 0 n) [] 7 None None.

(** A list of 64 new records is applied in full and then refused for its
    audit events: the directives are lost, and the list cannot be merged
    again. *)
Example merge_loses_directives :
  let s := run_all [Enroll sample_enrollment] new in
  RevocationList_deserialize (policy_list 64) = Some (policy_list 64)
  /\ (run (MergeRevocationList (policy_list 64) ["vm1"%string]) s).1 = Err TooManyAuditEvents
  /\ let s' := (run (MergeRevocationList (policy_list 64) ["vm1"%string]) s).2 in
     size (revocations s') = 64
     /\ (run (MergeRevocationList (policy_list 64) ["vm1"%string]) s').1 = Err DuplicateRevocation.
Proof. vm_compute. repeat split; reflexivity. Qed.

(** A revocation list is merged although the generation that issued it has
    been revoked. *)
Example merge_ignores_issuer_generation :
  let s := run_all
    [IssueGeneration (sample_generation ["work"%string] "g1" Active); Enroll sample_enrollment;
     Revoke (sample_revocation "v1" (Target_ControllerGeneration ["work"%string] "g1")) []] new in
  rl_issuer_controller_generation (policy_list 1) = "g1"%string
  /\ cg_status <$> controller_generations s !! (["work"%string], "g1"%string) = Some Revoked
  /\ is_ok (run (MergeRevocationList (policy_list 1) ["vm1"%string]) s).1 = true
  /\ is_Some (revocations (run (MergeRevocationList (policy_list 1) ["vm1"%string]) s).2
                !! "v-0"%string).
Proof. vm_compute. repeat split; eauto. Qed.

(** A credential revocation reaches one of two generations that share the
    credential: the other stays the active one. *)
Example credential_revoked_once :
  let s := run_all
    [IssueGeneration (sample_generation ["work"%string] "g1" Pending);
     IssueGeneration (sample_generation ["work"%string] "g2" Active);
     Revoke (mkRevocationRecord "v1" ["work"%string] "g2"
               (Target_ControllerCredential ["work"%string] "credential-a" "fp-c")
               RevocationPending Revocation_OperatorRequested 7 None None) []] new in
  cg_status <$> controller_generations s !! (["work"%string], "g1"%string) = Some Revoked
  /\ cg_status <$> controller_generations s !! (["work"%string], "g2"%string) = Some Active
  /\ active_generations s !! ["work"%string] = Some "g2"%string.
Proof. vm_compute. repeat split; reflexivity. Qed.

(** The replacement a recovery is opened with is stored unchecked, key
    material included; the same generation is refused everywhere else. *)
Example open_recovery_unchecked :
  let key := mkControllerGenerationMetadata ["work"%string] "g2"
    (mkRealmIdentityMetadata ["work"%string] "identity-a" "fp-a" IdentityActive 0 None)
    "private-key-a" "fp-c" Pending 0 0 None None in
  let opened := mkRecoveryProcedure "r1" ["home"%string] ["work"%string] LostControllerKey Requested
    "g1" (Some key) [] 3 None None in
  let s := run_all [IssueGeneration (sample_generation ["work"%string] "g1" Active);
                    OpenRecovery opened] new in
  validate_generation_refs key <> Ok tt
  /\ (r ← recoveries s !! "r1"%string; rc_replacement_generation r) = Some key.
Proof. split; [|vm_compute; reflexivity]. vm_compute. discriminate. Qed.

(** An isolation refused for its number of workloads is recorded all the
    same, and cannot be asked for again. *)
Example isolation_not_retried :
  let s := run_all
    [IssueGeneration (sample_generation ["work"%string] "g1" Active); OpenRecovery sample_recovery;
     ApproveRecovery "r1"] new in
  let s' := (run (IsolateRecovery "r1" 5 (replicate 65 "vm1"%string)) s).2 in
  (run (IsolateRecovery "r1" 5 (replicate 65 "vm1"%string)) s).1 = Err TooManyTeardownDirectives
  /\ rc_status <$> recoveries s' !! "r1"%string = Some Isolating
  /\ (run (IsolateRecovery "r1" 6 ["vm1"%string]) s').1 = Err InvalidTransition.
Proof. vm_compute. repeat split; reflexivity. Qed.
End Identity.
