(* ===== verification/RemoteNode.v ===== *)
(** * Remote full-host nodes and target resolution ([d2b-realm-router])

    [remote_node.rs]: the registry of enrolled nodes with their generations
    and heartbeats, and the adapter that sends an operation to a node after
    the registry and the operation router both let it through.  The peer
    client is a parameter; a logging client shows which calls reach it.
    [target_resolver.rs]: the entrypoint table and longest-suffix
    resolution. *)

From S2P Require Import Prelude Ids Streams Frame Router Targets.

Module RemoteNode.
Import Router.

(** ** Data *)

Definition DEFAULT_MAX_REMOTE_NODES : nat := 4096.
Definition DEFAULT_HEARTBEAT_TIMEOUT : N := from_secs 30.

Inductive NodeKind : Set := FullHost | Gateway | ProviderManaged.

#[global] Instance NodeKind_eq_dec : EqDecision NodeKind.
Proof. solve_decision. Defined.

Record NodeSummary := mkNodeSummary {
  node_id : string;
  node_realm : RealmPath;
  node_kind : NodeKind;
  node_capabilities : CapabilitySet
}.

#[global] Instance NodeSummary_eq_dec : EqDecision NodeSummary.
Proof. solve_decision. Defined.

Inductive RemoteNodeAvailability : Set := Available | Disconnected | StaleHeartbeat.

#[global] Instance RemoteNodeAvailability_eq_dec : EqDecision RemoteNodeAvailability.
Proof. solve_decision. Defined.

Inductive RemoteNodeErrorKind : Set :=
| WrongRealm | WrongNode | NotFullHost | UnauthorizedGateway | DuplicateRegistration
| StaleGeneration | RegistryCapacityExceeded | Remote_DedupCapacityExceeded
| Remote_MissingIdempotencyKey | IdempotencyConflict | IdempotencyExpired
| RemoteOperationUnknown | NodeUnavailable | Remote_CapabilityDenied | Remote_MissingWorkload
| Remote_UnsupportedOperation.

Definition error_kind (self : RemoteNodeErrorKind) : ErrorKind :=
  match self with
  | Remote_CapabilityDenied => ErrorKind_CapabilityDenied
  | RegistryCapacityExceeded | Remote_DedupCapacityExceeded => ErrorKind_Backpressure
  | NodeUnavailable => ErrorKind_GatewayUnavailable
  | RemoteOperationUnknown => ErrorKind_GatewayUnavailable
  | Remote_UnsupportedOperation => ErrorKind_UnsupportedFeature
  | IdempotencyConflict => ErrorKind_IdempotencyKeyConflict
  | IdempotencyExpired => ErrorKind_IdempotencyKeyExpired
  | UnauthorizedGateway => ErrorKind_Unauthorized
  | WrongRealm | WrongNode | NotFullHost | DuplicateRegistration | StaleGeneration
  | Remote_MissingIdempotencyKey | Remote_MissingWorkload => ErrorKind_InvalidTarget
  end.

Record RemoteNodeError := mkRemoteNodeError {
  rne_kind : RemoteNodeErrorKind;
  rne_missing_capability : option Capability;
  rne_capability_fingerprint : option string;
  rne_correlation_id : option string
}.

Definition RemoteNodeError_new (kind : RemoteNodeErrorKind) : RemoteNodeError :=
  mkRemoteNodeError kind None None None.

Definition capability_denied (capability : Capability) (fingerprint : option string) :
    RemoteNodeError :=
  mkRemoteNodeError Remote_CapabilityDenied (Some capability) fingerprint None.

Definition with_correlation_id (correlation_id : string) (self : RemoteNodeError) :
    RemoteNodeError :=
  mkRemoteNodeError (rne_kind self) (rne_missing_capability self)
    (rne_capability_fingerprint self) (Some correlation_id).

Record RemoteNodeRegistration := mkRemoteNodeRegistration {
  reg_summary : NodeSummary;
  reg_gateway_principal : string;
  reg_gateway_node : string;
  reg_substrate_adapter : string;
  reg_generation : string
}.

Record RemoteNodeEntry := mkRemoteNodeEntry {
  ent_summary : NodeSummary;
  ent_gateway_principal : string;
  ent_gateway_node : string;
  ent_substrate_adapter : string;
  ent_generation : string;
  ent_capability_fingerprint : string;
  ent_availability : RemoteNodeAvailability;
  ent_last_heartbeat : N
}.

Definition is_stale_generation (self : RemoteNodeEntry) (generation : string) : bool :=
  bool_decide (generation <> ent_generation self).

Record RemoteNodeRegistry := mkRemoteNodeRegistry {
  managed_realm : RealmPath;
  nodes : gmap (RealmPath * string) RemoteNodeEntry;
  max_nodes : nat;
  heartbeat_timeout : N
}.

Definition for_realm (realm : RealmPath) : RemoteNodeRegistry :=
  mkRemoteNodeRegistry realm ∅ DEFAULT_MAX_REMOTE_NODES DEFAULT_HEARTBEAT_TIMEOUT.

Definition new_registry : RemoteNodeRegistry := for_realm RealmPath_local.

Definition with_max_nodes (max : nat) (self : RemoteNodeRegistry) : RemoteNodeRegistry :=
  mkRemoteNodeRegistry (managed_realm self) (nodes self) max (heartbeat_timeout self).

Definition with_heartbeat_timeout (timeout : N) (self : RemoteNodeRegistry) :
    RemoteNodeRegistry :=
  mkRemoteNodeRegistry (managed_realm self) (nodes self) (max_nodes self) timeout.

Definition set_nodes (f : gmap (RealmPath * string) RemoteNodeEntry ->
                          gmap (RealmPath * string) RemoteNodeEntry)
    (self : RemoteNodeRegistry) : RemoteNodeRegistry :=
  mkRemoteNodeRegistry (managed_realm self) (f (nodes self)) (max_nodes self)
    (heartbeat_timeout self).

Definition set_availability (availability : RemoteNodeAvailability) (e : RemoteNodeEntry) :
    RemoteNodeEntry :=
  mkRemoteNodeEntry (ent_summary e) (ent_gateway_principal e) (ent_gateway_node e)
    (ent_substrate_adapter e) (ent_generation e) (ent_capability_fingerprint e) availability
    (ent_last_heartbeat e).

Definition set_last_heartbeat (now : N) (e : RemoteNodeEntry) : RemoteNodeEntry :=
  mkRemoteNodeEntry (ent_summary e) (ent_gateway_principal e) (ent_gateway_node e)
    (ent_substrate_adapter e) (ent_generation e) (ent_capability_fingerprint e)
    (ent_availability e) now.

Local Open Scope rust_scope.
Definition op (A : Type) : Type := handler RemoteNodeRegistry RemoteNodeError A.

(** ** The registry *)

Definition register (registration : RemoteNodeRegistration) (now : N) : op RemoteNodeEntry :=
  let fail kind := RemoteNodeError_new kind in
  let summary := reg_summary registration in
  h_reject (bool_decide (node_kind summary <> FullHost)) (fail NotFullHost) ?;
  h_reject (CapabilitySet_has (node_capabilities summary) Capability_ProviderManagedIsolation)
    (fail NotFullHost) ?;
  let? self := h_get in
  h_reject (bool_decide (node_realm summary <> managed_realm self)) (fail WrongRealm) ?;
  h_reject (bool_decide (reg_gateway_node registration = node_id summary))
    (fail UnauthorizedGateway) ?;
  let key := (node_realm summary, node_id summary) in
  let fingerprint := CapabilitySet_stable_fingerprint (node_capabilities summary) in
  match nodes self !! key with
  | Some existing =>
      h_reject (bool_decide (ent_gateway_principal existing <> reg_gateway_principal registration))
        (fail DuplicateRegistration) ?;
      h_reject (bool_decide (ent_generation existing = reg_generation registration)
                && (bool_decide (ent_summary existing <> summary)
                    || bool_decide (ent_gateway_node existing <> reg_gateway_node registration)
                    || bool_decide (ent_substrate_adapter existing
                                    <> reg_substrate_adapter registration)))
        (fail DuplicateRegistration) ?;
      let entry := mkRemoteNodeEntry summary (ent_gateway_principal existing)
        (reg_gateway_node registration) (reg_substrate_adapter registration)
        (reg_generation registration) fingerprint Available now in
      h_modify (set_nodes <[key := entry]>) ?;
      h_ret entry
  | None =>
      h_reject (bool_decide (max_nodes self <= size (nodes self)))
        (fail RegistryCapacityExceeded) ?;
      let entry := mkRemoteNodeEntry summary (reg_gateway_principal registration)
        (reg_gateway_node registration) (reg_substrate_adapter registration)
        (reg_generation registration) fingerprint Available now in
      h_modify (set_nodes <[key := entry]>) ?;
      h_ret entry
  end.

Definition heartbeat (realm : RealmPath) (node generation : string) (now : N) :
    op RemoteNodeEntry :=
  let? self := h_get in
  match nodes self !! (realm, node) with
  | None => h_throw (RemoteNodeError_new WrongNode)
  | Some entry =>
      h_reject (bool_decide (ent_generation entry <> generation))
        (RemoteNodeError_new StaleGeneration) ?;
      h_reject (bool_decide (ent_availability entry = Disconnected))
        (RemoteNodeError_new NodeUnavailable) ?;
      let entry := set_last_heartbeat now (set_availability Available entry) in
      h_modify (set_nodes <[(realm, node) := entry]>) ?;
      h_ret entry
  end.

Definition peer_disconnected (realm : RealmPath) (node : string) (self : RemoteNodeRegistry) :
    bool * RemoteNodeRegistry :=
  match nodes self !! (realm, node) with
  | None => (false, self)
  | Some entry => (true, set_nodes <[(realm, node) := set_availability Disconnected entry]> self)
  end.

Definition expire_entry (timeout now : N) (entry : RemoteNodeEntry) : RemoteNodeEntry :=
  if bool_decide (ent_availability entry = Available)
     && bool_decide (timeout < duration_since now (ent_last_heartbeat entry))%N
  then set_availability StaleHeartbeat entry else entry.

Definition expire_heartbeats (now : N) (self : RemoteNodeRegistry) : RemoteNodeRegistry :=
  set_nodes (fmap (expire_entry (heartbeat_timeout self) now)) self.

Definition unregister (realm : RealmPath) (node : string) (self : RemoteNodeRegistry) :
    option RemoteNodeEntry * RemoteNodeRegistry :=
  (nodes self !! (realm, node), set_nodes (delete (realm, node)) self).

(** ** Routes *)

Record RemoteRoute := mkRemoteRoute {
  rr_realm : RealmPath;
  rr_node : string;
  rr_generation : string;
  rr_operation : OperationKind;
  rr_correlation_id : string;
  rr_required_capability : option Capability;
  rr_capability_fingerprint : string;
  rr_principal : string;
  rr_trace : option TraceContext;
  rr_mutating : bool
}.

Definition required_remote_capability (kind : OperationKind) :
    result (option Capability) RemoteNodeError :=
  match operation_route_plan kind with
  | Some plan => Ok (plan_required_capability plan)
  | None => Err (RemoteNodeError_new Remote_UnsupportedOperation)
  end.

Definition prepare_route (self : RemoteNodeRegistry) (req : OperationRequest)
    (generation gateway_principal : string) : result RemoteRoute RemoteNodeError :=
  let fail kind := Err (with_correlation_id (req_correlation_id req) (RemoteNodeError_new kind)) in
  if bool_decide (req_realm req <> managed_realm self) then fail WrongRealm
  else match nodes self !! (req_realm req, req_node req) with
  | None => fail WrongNode
  | Some entry =>
      if bool_decide (req_node req <> node_id (ent_summary entry)) then fail WrongNode
      else if bool_decide (ent_gateway_principal entry <> gateway_principal)
      then fail UnauthorizedGateway
      else if bool_decide (ent_availability entry <> Available) then fail NodeUnavailable
      else if is_stale_generation entry generation then fail StaleGeneration
      else match required_remote_capability (req_kind req) with
      | Err err => Err (with_correlation_id (req_correlation_id req) err)
      | Ok required_capability =>
          let route := mkRemoteRoute (req_realm req) (req_node req) (ent_generation entry)
            (req_kind req) (req_correlation_id req) required_capability
            (ent_capability_fingerprint entry) (ent_gateway_principal entry) (req_trace req)
            (OperationKind_is_mutating (req_kind req)) in
          match required_capability with
          | Some capability =>
              if CapabilitySet_has (node_capabilities (ent_summary entry)) capability
              then Ok route
              else Err (with_correlation_id (req_correlation_id req)
                          (capability_denied capability None))
          | None => Ok route
          end
      end
  end.

Inductive RemoteRetryAction : Set := Retry_QueryRemoteState | NoSideEffectToRetry.

Definition retry_action_after_disconnect (req : OperationRequest) : RemoteRetryAction :=
  if OperationKind_is_mutating (req_kind req) then Retry_QueryRemoteState
  else NoSideEffectToRetry.

(** [ensure_remote_execution_generation] and [ensure_remote_shell_generation]
    look at the guest boot id of their generation record only. *)
Definition ensure_remote_execution_generation (route : RemoteRoute) (guest_boot_id : string) :
    result unit RemoteNodeError :=
  if bool_decide (guest_boot_id = rr_generation route) then Ok tt
  else Err (RemoteNodeError_new StaleGeneration).

Definition ensure_remote_shell_generation (route : RemoteRoute) (guest_boot_id : string) :
    result unit RemoteNodeError :=
  if bool_decide (guest_boot_id = rr_generation route) then Ok tt
  else Err (RemoteNodeError_new StaleGeneration).

(** ** The adapter *)

Inductive RemotePeerStatus : Type :=
| Status_Completed (result : bytes) | Status_InProgress | Status_Unknown.

Inductive RemoteDispatchOutcome : Type :=
| Sent (route : RemoteRoute) (result : bytes)
| Replayed (result : bytes)
| QueryRemoteState (route : RemoteRoute).

(** [unreachable!] is [None]. *)
Definition remote_error_from_route_decision (req : OperationRequest) (decision : RouteDecision) :
    option RemoteNodeError :=
  with_correlation_id (req_correlation_id req) <$>
  match decision with
  | PrincipalMismatch => Some (RemoteNodeError_new UnauthorizedGateway)
  | CapabilityDenied capability => Some (capability_denied capability None)
  | MissingIdempotencyKey => Some (RemoteNodeError_new Remote_MissingIdempotencyKey)
  | MissingWorkload => Some (RemoteNodeError_new Remote_MissingWorkload)
  | IdempotencyKeyConflict => Some (RemoteNodeError_new IdempotencyConflict)
  | IdempotencyKeyExpired => Some (RemoteNodeError_new IdempotencyExpired)
  | DedupCapacityExceeded => Some (RemoteNodeError_new Remote_DedupCapacityExceeded)
  | UnsupportedOperation _ => Some (RemoteNodeError_new Remote_UnsupportedOperation)
  | InProgress _ | Replay _ _ | Accept _ => None
  end.

Record RemoteFullHostAdapter := mkRemoteFullHostAdapter {
  registry : RemoteNodeRegistry;
  router : OperationRouter;
  gateway_principal : string;
  negotiated_capabilities : CapabilitySet
}.

Definition new (principal : string) (capabilities : CapabilitySet) : RemoteFullHostAdapter :=
  mkRemoteFullHostAdapter new_registry with_clock principal capabilities.

Definition set_router (r : OperationRouter) (self : RemoteFullHostAdapter) :
    RemoteFullHostAdapter :=
  mkRemoteFullHostAdapter (registry self) r (gateway_principal self)
    (negotiated_capabilities self).

Definition set_registry (r : RemoteNodeRegistry) (self : RemoteFullHostAdapter) :
    RemoteFullHostAdapter :=
  mkRemoteFullHostAdapter r (router self) (gateway_principal self)
    (negotiated_capabilities self).

(** The trait [RemotePeerClient] over a client state. *)
Class RemotePeerClient (Cl : Type) := {
  send_operation : RemoteRoute -> OperationRequest -> Cl -> result bytes RemoteNodeError * Cl;
  query_operation : RemoteRoute -> OperationRequest -> Cl ->
    result RemotePeerStatus RemoteNodeError * Cl
}.

(** [if req.kind.is_mutating() { self.router.mark_failed(req) }] *)
Definition fail_if_mutating (req : OperationRequest) (r : OperationRouter) : OperationRouter :=
  if OperationKind_is_mutating (req_kind req) then (mark_failed req r).2 else r.

(** [now] is the clock when the router decides, [later] when it records.  The
    outer [None] is a panic. *)
Definition dispatch {Cl} `{RemotePeerClient Cl} (now later : N) (req : OperationRequest)
    (generation : string) (self : RemoteFullHostAdapter) (client : Cl) :
    option (result RemoteDispatchOutcome RemoteNodeError) * RemoteFullHostAdapter * Cl :=
  match prepare_route (registry self) req generation (gateway_principal self) with
  | Err err => (Some (Err err), self, client)
  | Ok route =>
      let '(decision, r) := route_with_capabilities now req (gateway_principal self)
                              (negotiated_capabilities self) (router self) in
      match decision with
      | Accept _ =>
          match send_operation route req client with
          | (Err err, client) => (Some (Err err), set_router (fail_if_mutating req r) self, client)
          | (Ok result, client) =>
              let r := if OperationKind_is_mutating (req_kind req)
                       then (mark_completed later req result r).2 else r in
              (Some (Ok (Sent route result)), set_router r self, client)
          end
      | Replay _ result => (Some (Ok (Replayed result)), set_router r self, client)
      | InProgress _ =>
          match query_operation route req client with
          | (Err err, client) => (Some (Err err), set_router (fail_if_mutating req r) self, client)
          | (Ok (Status_Completed result), client) =>
              (Some (Ok (Replayed result)), set_router (mark_completed later req result r).2 self,
               client)
          | (Ok Status_InProgress, client) =>
              (Some (Ok (QueryRemoteState route)), set_router r self, client)
          | (Ok Status_Unknown, client) =>
              (Some (Err (with_correlation_id (req_correlation_id req)
                            (RemoteNodeError_new RemoteOperationUnknown))),
               set_router (fail_if_mutating req r) self, client)
          end
      | _ => (Err <$> remote_error_from_route_decision req decision, set_router r self, client)
      end
  end.

(** ** Histories

    What a history of calls on the adapter lets the peer client see. *)

Inductive call : Type :=
| CallSend (route : RemoteRoute) (req : OperationRequest) (acknowledged : bool)
| CallQuery (route : RemoteRoute) (req : OperationRequest).

Definition call_route (c : call) : RemoteRoute :=
  match c with CallSend route _ _ | CallQuery route _ => route end.

(** A client that also keeps the calls it received. *)
#[global] Instance logged_client {Cl} `{RemotePeerClient Cl} : RemotePeerClient (Cl * list call) :=
  {| send_operation := fun route req '(client, log) =>
       let '(r, client) := send_operation route req client in
       (r, (client, log ++ [CallSend route req (is_ok r)]));
     query_operation := fun route req '(client, log) =>
       let '(r, client) := query_operation route req client in
       (r, (client, log ++ [CallQuery route req])) |}.

Inductive command : Type :=
| Register (registration : RemoteNodeRegistration) (now : N)
| Heartbeat (realm : RealmPath) (node generation : string) (now : N)
| PeerDisconnected (realm : RealmPath) (node : string)
| ExpireHeartbeats (now : N)
| Unregister (realm : RealmPath) (node : string)
| Dispatch (now later : N) (req : OperationRequest) (generation : string).

Section history.
Context {Cl : Type} `{RemotePeerClient Cl}.

Definition state : Type := RemoteFullHostAdapter * Cl.

(** One call, with the client calls it makes. *)
Definition run (c : command) (st : state) : list call * state :=
  let '(a, client) := st in
  match c with
  | Register registration now =>
      ([], (set_registry (register registration now (registry a)).2 a, client))
  | Heartbeat realm node generation now =>
      ([], (set_registry (heartbeat realm node generation now (registry a)).2 a, client))
  | PeerDisconnected realm node =>
      ([], (set_registry (peer_disconnected realm node (registry a)).2 a, client))
  | ExpireHeartbeats now => ([], (set_registry (expire_heartbeats now (registry a)) a, client))
  | Unregister realm node =>
      ([], (set_registry (unregister realm node (registry a)).2 a, client))
  | Dispatch now later req generation =>
      let '(_, a, (client, log)) := dispatch now later req generation a (client, []) in
      (log, (a, client))
  end.

Fixpoint history (cs : list command) (st : state) : list (command * list call) :=
  match cs with
  | [] => []
  | c :: cs => (c, (run c st).1) :: history cs (run c st).2
  end.

Definition final (cs : list command) (st : state) : state :=
  foldl (fun st c => (run c st).2) st cs.

Lemma history_app cs1 cs2 st :
  history (cs1 ++ cs2) st = history cs1 st ++ history cs2 (final cs1 st).
Proof. revert st. induction cs1 as [|c cs1 IH]; intros st; simpl; [done|]. by rewrite IH. Qed.

(** ** The registry invariant *)

Definition entry_ok (self : RemoteNodeRegistry) (key : RealmPath * string)
    (e : RemoteNodeEntry) : Prop :=
  key = (node_realm (ent_summary e), node_id (ent_summary e))
  /\ node_realm (ent_summary e) = managed_realm self
  /\ node_kind (ent_summary e) = FullHost
  /\ CapabilitySet_has (node_capabilities (ent_summary e)) Capability_ProviderManagedIsolation
     = false
  /\ ent_gateway_node e <> node_id (ent_summary e)
  /\ ent_capability_fingerprint e
     = CapabilitySet_stable_fingerprint (node_capabilities (ent_summary e)).

Definition registry_inv (self : RemoteNodeRegistry) : Prop :=
  map_Forall (entry_ok self) (nodes self) /\ size (nodes self) <= max_nodes self.

Ltac unpack :=
  repeat match goal with
  | H : bool_decide _ = true |- _ => apply bool_decide_eq_true in H
  | H : bool_decide _ = false |- _ => apply bool_decide_eq_false in H
  | H : ~ (_ <> _) |- _ => apply dec_stable in H
  end.

Lemma registry_inv_update self key e e' :
  registry_inv self -> nodes self !! key = Some e -> entry_ok self key e' ->
  registry_inv (set_nodes <[key := e']> self).
Proof.
  intros [Hok Hsz] Hk He. split; simpl.
  - apply map_Forall_insert_2; [done|]. exact Hok.
  - rewrite map_size_insert_Some; eauto.
Qed.

Lemma register_inv registration now self :
  registry_inv self -> registry_inv (register registration now self).2.
Proof.
  intros Hinv. unfold register. unfold_handler. simpl.
  repeat (case_match; simplify_eq/=; try done); unpack.
  - eapply registry_inv_update; eauto. repeat split; simpl; congruence.
  - destruct Hinv as [Hok Hsz]. split; simpl.
    + apply map_Forall_insert_2; [|done]. repeat split; simpl; congruence.
    + rewrite map_size_insert_None by done. lia.
Qed.

Lemma heartbeat_inv realm node generation now self :
  registry_inv self -> registry_inv (heartbeat realm node generation now self).2.
Proof.
  intros Hinv. unfold heartbeat. unfold_handler. simpl.
  repeat (case_match; simplify_eq/=; try done). eapply registry_inv_update; eauto.
  match goal with H : nodes _ !! _ = Some _ |- _ => exact (proj1 Hinv _ _ H) end.
Qed.

Lemma peer_disconnected_inv realm node self :
  registry_inv self -> registry_inv (peer_disconnected realm node self).2.
Proof.
  intros Hinv. unfold peer_disconnected. case_match; [|done].
  eapply registry_inv_update; eauto.
  match goal with H : nodes _ !! _ = Some _ |- _ => exact (proj1 Hinv _ _ H) end.
Qed.

Lemma expire_heartbeats_inv now self :
  registry_inv self -> registry_inv (expire_heartbeats now self).
Proof.
  intros [Hok Hsz]. split; simpl; [|by rewrite map_size_fmap].
  intros key e. rewrite lookup_fmap. intros (e0 & He0 & ->)%fmap_Some.
  unfold expire_entry. case_match; by apply (Hok _ _ He0).
Qed.

Lemma unregister_inv realm node self :
  registry_inv self -> registry_inv (unregister realm node self).2.
Proof.
  intros [Hok Hsz]. split; simpl.
  - by apply map_Forall_delete.
  - pose proof (map_size_delete (realm, node) (nodes self)). destruct (nodes self !! _); simpl in *; lia.
Qed.

(** Dispatching changes the router only. *)
Lemma dispatch_frame {Cl'} `{RemotePeerClient Cl'} now later req generation a (client : Cl') :
  let '(_, a', _) := dispatch now later req generation a client in
  registry a' = registry a /\ gateway_principal a' = gateway_principal a
  /\ negotiated_capabilities a' = negotiated_capabilities a.
Proof.
  unfold dispatch. destruct (prepare_route _ _ _ _) as [route|]; [|done].
  destruct (route_with_capabilities _ _ _ _ _) as [[] r]; try done.
  - by destruct (send_operation _ _ _) as [[] ?].
  - by destruct (query_operation _ _ _) as [[[]|] ?].
Qed.

Lemma run_inv c (st : state) :
  registry_inv (registry st.1) -> registry_inv (registry (run c st).2.1).
Proof.
  destruct st as [a client]. intros Hinv. destruct c as [| | | | |now later req generation];
    simpl in *; auto using register_inv, heartbeat_inv, peer_disconnected_inv,
      expire_heartbeats_inv.
  { by apply (unregister_inv realm node) in Hinv. }
  pose proof (dispatch_frame now later req generation a (client, [])) as Hf.
  destruct (dispatch _ _ _ _ _ _) as [[? a'] [? ?]]. simpl. by destruct Hf as [-> _].
Qed.

Lemma final_inv cs (st : state) :
  registry_inv (registry st.1) -> registry_inv (registry (final cs st).1).
Proof.
  revert st. induction cs as [|c cs IH]; intros st Hinv; [done|]. simpl. by apply IH, run_inv.
Qed.

(** ** What a dispatch sends *)

(** The node an operation may be routed to. *)
Definition routable (a : RemoteFullHostAdapter) (req : OperationRequest) (generation : string)
    (e : RemoteNodeEntry) : Prop :=
  req_realm req = managed_realm (registry a)
  /\ nodes (registry a) !! (req_realm req, req_node req) = Some e
  /\ node_id (ent_summary e) = req_node req
  /\ ent_gateway_principal e = gateway_principal a
  /\ ent_availability e = Available /\ ent_generation e = generation
  /\ supported_operation_kind (req_kind req) = true
  /\ (forall cap, OperationKind_required_capability (req_kind req) = Some cap ->
        CapabilitySet_has (node_capabilities (ent_summary e)) cap = true).

Definition route_of (req : OperationRequest) (e : RemoteNodeEntry) : RemoteRoute :=
  mkRemoteRoute (req_realm req) (req_node req) (ent_generation e) (req_kind req)
    (req_correlation_id req) (OperationKind_required_capability (req_kind req))
    (ent_capability_fingerprint e) (ent_gateway_principal e) (req_trace req)
    (OperationKind_is_mutating (req_kind req)).

Lemma prepare_route_exact a req generation route :
  prepare_route (registry a) req generation (gateway_principal a) = Ok route <->
  exists e, routable a req generation e /\ route = route_of req e.
Proof.
  unfold prepare_route, required_remote_capability, routable, route_of,
    supported_operation_kind, is_stale_generation. split.
  - intros Hr. repeat (case_match; simplify_eq/=); unpack; try done.
    all: match goal with H : operation_route_plan _ = Some _ |- _ =>
           pose proof (operation_route_plan_some _ _ H); subst end; simpl in *.
    all: eexists; repeat split; eauto; try congruence.
    all: f_equal; congruence.
  - intros (e & (Hr & He & Hid & Hp & Hav & Hg & Hk & Hcap) & ->).
    rewrite bool_decide_eq_false_2 by (intros Hn; by destruct Hn). rewrite He.
    rewrite !bool_decide_eq_false_2 by congruence.
    destruct (operation_route_plan (req_kind req)) as [plan|] eqn:Hplan; [|done].
    apply operation_route_plan_some in Hplan as ->. simpl.
    destruct (OperationKind_required_capability _) as [cap|]; [|by subst].
    rewrite Hcap by done. by subst.
Qed.

Definition decision (now : N) (req : OperationRequest) (a : RemoteFullHostAdapter) :
    RouteDecision * OperationRouter :=
  route_with_capabilities now req (gateway_principal a) (negotiated_capabilities a) (router a).

(** The calls of a dispatch and the router it leaves, from the two verdicts. *)
Lemma dispatch_calls now later req generation a (client : Cl) :
  let '(out, a', (_, log)) := dispatch now later req generation a (client, []) in
  is_Some out
  /\ match prepare_route (registry a) req generation (gateway_principal a) with
     | Err _ => log = [] /\ router a' = router a
     | Ok route =>
         let r := (decision now req a).2 in
         match (decision now req a).1 with
         | Accept _ =>
             (exists res, log = [CallSend route req true]
                /\ router a' = if OperationKind_is_mutating (req_kind req)
                               then (mark_completed later req res r).2 else r)
             \/ (log = [CallSend route req false] /\ router a' = fail_if_mutating req r)
         | InProgress _ =>
             log = [CallQuery route req]
             /\ (router a' = r \/ router a' = fail_if_mutating req r
                 \/ exists res, router a' = (mark_completed later req res r).2)
         | _ => log = [] /\ router a' = r
         end
     end.
Proof.
  unfold dispatch, decision. destruct (prepare_route _ _ _ _) as [route|]; [|split; [by eexists|done]].
  destruct (route_with_capabilities _ _ _ _ _) as [d r]. simpl.
  destruct d; simpl; try (split; [by eexists|done]).
  - destruct (send_operation route req client) as [[res|err] client'];
      (split; [by eexists|]); [left; by exists res|by right].
  - destruct (query_operation route req client) as [[[res| |]|err] client'];
      (split; [by eexists|split; [done|]]); eauto.
Qed.

(** The request the router accepts. *)
Definition admissible (now : N) (a : RemoteFullHostAdapter) (req : OperationRequest) : Prop :=
  req_principal req = gateway_principal a
  /\ (OperationKind_requires_workload (req_kind req) = true -> is_Some (req_workload req))
  /\ (forall cap, OperationKind_required_capability (req_kind req) = Some cap ->
        CapabilitySet_has (negotiated_capabilities a) cap = true)
  /\ (OperationKind_is_mutating (req_kind req) = true ->
      exists k, key_of req = Some k /\ dedup (router a) !! k = None
        /\ (N.of_nat (size (dedup (gc_at now (router a)))) < max_dedup_records (router a))%N).

Lemma decision_accepts now req generation a e :
  routable a req generation e ->
  (exists s, (decision now req a).1 = Accept s) <-> admissible now a req.
Proof.
  intros (_ & _ & _ & _ & _ & _ & Hk & _). unfold decision, admissible.
  setoid_rewrite accept_exact. naive_solver.
Qed.

(** ** No mutating operation is sent twice *)

(** The clock never runs backwards, neither between calls nor within one. *)
Fixpoint ordered (t : N) (cs : list command) : Prop :=
  match cs with
  | [] => True
  | Dispatch now later _ _ :: cs => (t <= now)%N /\ (now <= later)%N /\ ordered later cs
  | _ :: cs => ordered t cs
  end.

(** The call sent a mutating operation under the key [k]. *)
Definition sends (k : DedupKey) (c : call) : Prop :=
  exists route req ok, c = CallSend route req ok
    /\ OperationKind_is_mutating (req_kind req) = true /\ key_of req = Some k.

(** The operation under [k] completed at [tc] as far as the router knows. *)
Definition done_at (r : OperationRouter) (k : DedupKey) (tc now : N) : Prop :=
  life (retention r) (no_reuse_horizon r) now (dedup r !! k) (Some tc).

Lemma done_step ev r k tc t0 :
  done_at r k tc t0 -> (t0 <= time ev)%N ->
  done_at (step ev r).2 k tc (time ev)
  /\ (accepts k (ev, (step ev r).1) -> (tc + retention r + no_reuse_horizon r < time ev)%N).
Proof.
  unfold done_at. intros Hl Hle. destruct (step_config ev r) as (-> & -> & _).
  assert (Hpast : (tc + retention r + no_reuse_horizon r < t0)%N ->
    life (retention r) (no_reuse_horizon r) (time ev) (dedup (step ev r).2 !! k) (Some tc)
    /\ (accepts k (ev, (step ev r).1) -> (tc + retention r + no_reuse_horizon r < time ev)%N)).
  { intros Hp. split; [right; right; lia|intros _; lia]. }
  destruct (decide (tc + retention r + no_reuse_horizon r < t0)%N) as [Hp|Hp]; [by apply Hpast|].
  assert (forall q e, matching_lease q r <> Some (k, e)) as Hno.
  { intros q e (_ & He & _ & since & Hs)%matching_lease_some.
    destruct Hl as [(e1 & res & He1 & Hs1)|[(e1 & s & He1 & Hs1 & _)|?]]; [congruence..|done]. }
  destruct (step_life ev r k (Some tc) t0 Hl Hle) as [Hf|(tc' & Htc & Hl' & Hacc)].
  - destruct Hf as (t & q & [= -> Hb] & Hk). simpl in Hb.
    unfold mark_failed in Hb. destruct (matching_lease q r) as [[k' e]|] eqn:Hm; [|done].
    pose proof Hm as (Hk' & _)%matching_lease_some. destruct (Hno q e). congruence.
  - destruct Htc as [->|[(q & res & [= -> Hb] & Hk) ->]].
    + split; [done|]. intros Ha. destruct (Hacc Ha) as (t & [= <-] & ?). done.
    + simpl in Hb. unfold mark_completed in Hb.
      destruct (matching_lease q r) as [[k' e]|] eqn:Hm; [|done].
      pose proof Hm as (Hk' & _)%matching_lease_some. destruct (Hno q e). congruence.
Qed.

Lemma done_at_later r k tc t t' : (t <= t')%N -> done_at r k tc t -> done_at r k tc t'.
Proof. apply life_later. Qed.

Lemma done_completed r k tc t later req res :
  done_at r k tc t -> (t <= later)%N -> done_at (mark_completed later req res r).2 k tc later.
Proof. intros Hd Hle. exact (proj1 (done_step (ECompleted later req res) r k tc t Hd Hle)). Qed.

Lemma done_failed r k tc t later req :
  done_at r k tc t -> (t <= later)%N -> done_at (fail_if_mutating req r) k tc later.
Proof.
  intros Hd Hle. unfold fail_if_mutating.
  case_match; [exact (proj1 (done_step (EFailed later req) r k tc t Hd Hle))|].
  exact (done_at_later _ _ _ _ _ Hle Hd).
Qed.

Lemma decision_step now req a :
  step (ERoute now req (gateway_principal a) (negotiated_capabilities a)) (router a)
  = (ODecision (decision now req a).1, (decision now req a).2).
Proof. simpl. unfold decision. by destruct (route_with_capabilities _ _ _ _ _). Qed.

(** A dispatch after completion keeps the record and sends nothing under the
    key, unless retention and horizon have passed. *)
Lemma done_dispatch now later req generation a (client : Cl) k tc t0 :
  done_at (router a) k tc t0 -> (t0 <= now)%N -> (now <= later)%N ->
  let '(_, a', (_, log)) := dispatch now later req generation a (client, []) in
  done_at (router a') k tc later
  /\ ((exists c, c ∈ log /\ sends k c) ->
      (tc + retention (router a) + no_reuse_horizon (router a) < now)%N).
Proof.
  intros Hd H0 H1. pose proof (dispatch_calls now later req generation a client) as Hc.
  destruct (done_step (ERoute now req (gateway_principal a) (negotiated_capabilities a))
    _ _ _ _ Hd H0) as [Hd1 Hacc].
  rewrite decision_step in Hd1, Hacc. simpl in Hd1, Hacc.
  destruct (dispatch _ _ _ _ _ _) as [[out a'] [client' log]]. destruct Hc as [_ Hc].
  destruct (prepare_route _ _ _ _) as [route|err].
  2: { destruct Hc as [-> ->]. split; [eapply done_at_later; [|exact Hd]; lia|].
       intros (c & Hc & _). by apply elem_of_nil in Hc. }
  destruct (decision now req a) as [d r]. simpl in *.
  destruct d; try (destruct Hc as [-> ->]; split; [exact (done_at_later _ _ _ _ _ H1 Hd1)|];
                   intros (c & Hc & _); by apply elem_of_nil in Hc).
  - assert ((exists c, c ∈ log /\ sends k c) ->
      (tc + retention (router a) + no_reuse_horizon (router a) < now)%N) as Hs.
    { intros (c & Hin & route' & req' & ok & -> & Hm & Hk). apply Hacc.
      destruct Hc as [(res & -> & _)|[-> _]]; apply list_elem_of_singleton in Hin;
        injection Hin as -> -> ->; repeat eexists; eauto. }
    split; [|done]. destruct Hc as [(res & _ & ->)|[_ ->]].
    + case_match; [by eapply done_completed|exact (done_at_later _ _ _ _ _ H1 Hd1)].
    + by eapply done_failed.
  - destruct Hc as [-> Hr]. split.
    + destruct Hr as [->|[->|[res ->]]]; [exact (done_at_later _ _ _ _ _ H1 Hd1)|
        by eapply done_failed|by eapply done_completed].
    + intros (c & Hin & ? & ? & ? & -> & _). by apply list_elem_of_singleton in Hin.
Qed.

Lemma mark_config (later : N) req res r :
  (retention (mark_completed later req res r).2 = retention r
   /\ no_reuse_horizon (mark_completed later req res r).2 = no_reuse_horizon r)
  /\ (retention (fail_if_mutating req r) = retention r
      /\ no_reuse_horizon (fail_if_mutating req r) = no_reuse_horizon r).
Proof.
  unfold mark_completed, fail_if_mutating, mark_failed.
  destruct (matching_lease req r) as [[]|]; case_match; done.
Qed.

Lemma run_config c (st : state) :
  retention (router (run c st).2.1) = retention (router st.1)
  /\ no_reuse_horizon (router (run c st).2.1) = no_reuse_horizon (router st.1).
Proof.
  destruct st as [a client]. destruct c as [| | | | |now later req generation]; try done. simpl.
  pose proof (dispatch_calls now later req generation a client) as Hc.
  destruct (step_config (ERoute now req (gateway_principal a) (negotiated_capabilities a))
    (router a)) as (H1 & H2 & _). rewrite decision_step in H1, H2. simpl in H1, H2.
  destruct (dispatch _ _ _ _ _ _) as [[out a'] [client' log]]. destruct Hc as [_ Hc]. simpl.
  destruct (prepare_route _ _ _ _) as [route|err]; [|by destruct Hc as [_ ->]].
  rewrite <- H1, <- H2. destruct (decision now req a) as [d r]. simpl in *.
  pose proof (fun res => mark_config later req res r) as Hmark.
  destruct d; try (by destruct Hc as [_ ->]).
  - destruct Hc as [(res & _ & ->)|[_ ->]]; [case_match; [apply Hmark|done]|apply (Hmark [])].
  - destruct Hc as [_ [->|[->|[res ->]]]]; [done|apply (Hmark [])|apply Hmark].
Qed.

Lemma final_config cs (st : state) :
  retention (router (final cs st).1) = retention (router st.1)
  /\ no_reuse_horizon (router (final cs st).1) = no_reuse_horizon (router st.1).
Proof.
  revert st. induction cs as [|c cs IH]; intros st; [done|]. simpl.
  destruct (IH (run c st).2) as [-> ->]. apply run_config.
Qed.

Lemma history_split cs (st : state) h1 c l h2 :
  history cs st = h1 ++ (c, l) :: h2 ->
  exists cs1 cs2, cs = cs1 ++ c :: cs2 /\ h1 = history cs1 st /\ l = (run c (final cs1 st)).1
                  /\ h2 = history cs2 (run c (final cs1 st)).2.
Proof.
  revert st h1. induction cs as [|c' cs IH]; intros st h1 Hh; [by destruct h1|].
  destruct h1 as [|x h1]; simpl in Hh.
  - injection Hh as <- <- <-. by exists [], cs.
  - injection Hh as <- Hh. destruct (IH _ _ Hh) as (cs1 & cs2 & -> & -> & -> & ->). by exists (c' :: cs1), cs2.
Qed.

Lemma ordered_app t cs1 cs2 : ordered t (cs1 ++ cs2) -> exists t', ordered t' cs2.
Proof.
  revert t. induction cs1 as [|c cs1 IH]; intros t Ho; [eauto|].
  destruct c; simpl in Ho; naive_solver.
Qed.

(** A history after the completion, up to a send under the same key. *)
Lemma done_until cs c cs' (st : state) k tc t0 call :
  done_at (router st.1) k tc t0 -> ordered t0 (cs ++ c :: cs') ->
  call ∈ (run c (final cs st)).1 -> sends k call ->
  exists now later req generation, c = Dispatch now later req generation
    /\ (tc + retention (router st.1) + no_reuse_horizon (router st.1) < now)%N.
Proof.
  revert st t0. induction cs as [|c' cs IH]; intros [a client] t0 Hd Ho Hin Hs.
  - destruct c as [| | | | |now later req generation]; simpl in Hin; try by apply elem_of_nil in Hin.
    destruct Ho as (H0 & H1 & _). exists now, later, req, generation. split; [done|].
    pose proof (done_dispatch now later req generation a client k tc t0 Hd H0 H1) as Hdd.
    destruct (dispatch _ _ _ _ _ _) as [[out a'] [client' log]]. simpl in *.
    apply Hdd. eauto.
  - destruct (run_config c' (a, client)) as [<- <-]. simpl in Ho.
    destruct c' as [| | | | |now later req generation];
      try (by eapply (IH (run _ (a, client)).2)).
    destruct Ho as (H0 & H1 & Ho). eapply (IH (run _ (a, client)).2); [|exact Ho|exact Hin|exact Hs].
    pose proof (done_dispatch now later req generation a client k tc t0 Hd H0 H1) as Hdd.
    simpl. destruct (dispatch _ _ _ _ _ _) as [[out a'] [client' log]]. simpl in *. apply Hdd.
Qed.

(** The record an acknowledged send leaves. *)
Lemma acknowledged_done now later req generation a (client : Cl) route k :
  let '(_, a', (_, log)) := dispatch now later req generation a (client, []) in
  log = [CallSend route req true] -> OperationKind_is_mutating (req_kind req) = true ->
  key_of req = Some k -> done_at (router a') k later later.
Proof.
  pose proof (dispatch_calls now later req generation a client) as Hc.
  destruct (dispatch _ _ _ _ _ _) as [[out a'] [client' log]]. destruct Hc as [_ Hc].
  intros -> Hm Hk. destruct (prepare_route _ _ _ _) as [route'|err]; [|by destruct Hc].
  destruct (decision now req a) as [d r] eqn:Hdec. simpl in Hc. rewrite Hm in Hc.
  destruct d; try (by destruct Hc). destruct Hc as [(res & _ & ->)|[? _]]; [|done].
  assert (dedup r !! k = Some (mkDedupEntry (dedup_fingerprint_input req) (req_operation_id req)
    (DedupState_InProgress now))) as Hl.
  { unfold decision in Hdec.
    pose proof (accepted_life now req (gateway_principal a) (negotiated_capabilities a)
      (router a) k scope Hk Hm) as Hal. rewrite Hdec in Hal. by apply Hal. }
  left. unfold mark_completed. destruct (matching_lease req r) as [[k' e]|] eqn:Hml.
  - apply matching_lease_some in Hml as (Hk' & _). rewrite Hk in Hk'. injection Hk' as <-.
    simpl. rewrite lookup_insert_eq. eauto.
  - assert (matching_lease req r = Some (k, mkDedupEntry (dedup_fingerprint_input req)
      (req_operation_id req) (DedupState_InProgress now))); [|congruence].
    apply matching_lease_some. repeat split; eauto.
Qed.

(** ** A disconnected node is left alone *)

Definition down (key : RealmPath * string) (self : RemoteNodeRegistry) : Prop :=
  forall e, nodes self !! key = Some e -> ent_availability e = Disconnected.

Definition registers (key : RealmPath * string) (c : command) : Prop :=
  exists registration now, c = Register registration now
    /\ key = (node_realm (reg_summary registration), node_id (reg_summary registration)).

Lemma down_insert key key' e self :
  down key self -> (key' = key -> ent_availability e = Disconnected) ->
  down key (set_nodes <[key' := e]> self).
Proof.
  intros Hd He e'. simpl. rewrite lookup_insert_Some. intros [[-> ->]|[_ ?]]; auto.
Qed.

Lemma run_down key c (st : state) :
  down key (registry st.1) -> ~ registers key c -> down key (registry (run c st).2.1).
Proof.
  destruct st as [a client]. intros Hd Hreg.
  destruct c as [registration now|realm node generation now|realm node|now|realm node
                |now later req generation]; simpl in *.
  - assert (key <> (node_realm (reg_summary registration), node_id (reg_summary registration)))
      as Hne by (intros ->; apply Hreg; by eexists _, _).
    unfold register. unfold_handler. simpl.
    repeat (case_match; simplify_eq/=; try done); by apply down_insert; [|intros <-].
  - unfold heartbeat. unfold_handler. simpl.
    repeat (case_match; simplify_eq/=; try done); unpack. apply down_insert; [done|].
    intros <-. match goal with H : nodes _ !! _ = _ |- _ => by apply Hd in H end.
  - unfold peer_disconnected. case_match; [|done]. by apply down_insert.
  - intros e. simpl. rewrite lookup_fmap. intros (e0 & He0 & ->)%fmap_Some.
    apply Hd in He0. unfold expire_entry. rewrite bool_decide_eq_false_2; [done|congruence].
  - intros e. simpl. rewrite lookup_delete_Some. intros [_ He]. by apply Hd.
  - pose proof (dispatch_frame now later req generation a (client, [])) as Hf.
    destruct (dispatch _ _ _ _ _ _) as [[? a'] [? ?]]. simpl. by destruct Hf as [-> _].
Qed.

Lemma down_no_call key c (st : state) call :
  down key (registry st.1) -> call ∈ (run c st).1 ->
  (rr_realm (call_route call), rr_node (call_route call)) <> key.
Proof.
  destruct st as [a client]. intros Hd.
  destruct c as [| | | | |now later req generation]; simpl; try by intros ?%elem_of_nil.
  pose proof (dispatch_calls now later req generation a client) as Hc.
  destruct (dispatch _ _ _ _ _ _) as [[? a'] [? log]]. simpl. destruct Hc as [_ Hc].
  destruct (prepare_route _ _ _ _) as [route|err] eqn:Hp;
    [|destruct Hc as [-> _]; by intros ?%elem_of_nil].
  apply prepare_route_exact in Hp as (e & (_ & He & _ & _ & Hav & _) & ->).
  intros Hin <-. assert (call_route call = route_of req e) as Heq.
  { destruct (decision now req a) as [[] r]; simpl in Hc;
      try (by destruct Hc as [-> _]; apply elem_of_nil in Hin).
    - destruct Hc as [(res & -> & _)|[-> _]]; by apply list_elem_of_singleton in Hin as ->.
    - destruct Hc as [-> _]. by apply list_elem_of_singleton in Hin as ->. }
  rewrite Heq in Hd. simpl in Hd. apply Hd in He. congruence.
Qed.

Lemma down_history key cs (st : state) :
  down key (registry st.1) -> Forall (fun c => ~ registers key c) cs ->
  forall c log call, (c, log) ∈ history cs st -> call ∈ log ->
    (rr_realm (call_route call), rr_node (call_route call)) <> key.
Proof.
  revert st. induction cs as [|c cs IH]; intros st Hd Hreg c' log call; simpl;
    [by intros ?%elem_of_nil|].
  apply Forall_cons in Hreg as [Hc Hreg]. rewrite elem_of_cons. intros [[= -> ->]|Hin] Hcall.
  - by eapply down_no_call.
  - exact (IH _ (run_down _ _ _ Hd Hc) Hreg _ _ _ Hin Hcall).
Qed.

(** ** Properties *)

(** C23. A dispatch never panics.  It sends the operation to the peer, once,
    exactly when the node is registered in the managed realm under the
    gateway's principal, available and of the named generation, node and
    session both have the capability the kind needs, principal and workload
    are right and, for a mutating kind, its key is new and there is room for
    it; whatever reaches the peer carries the route of that node. *)
Theorem dispatch_exact now later req generation a (client : Cl) :
  let '(out, _, (_, log)) := dispatch now later req generation a (client, []) in
  is_Some out
  /\ ((exists route ok, log = [CallSend route req ok]) <->
      (exists e, routable a req generation e) /\ admissible now a req)
  /\ (forall c, c ∈ log ->
        log = [c] /\ exists e, routable a req generation e /\ call_route c = route_of req e).
Proof.
  pose proof (dispatch_calls now later req generation a client) as Hc.
  destruct (dispatch _ _ _ _ _ _) as [[out a'] [client' log]]. destruct Hc as [Hout Hc].
  split; [done|]. destruct (prepare_route _ _ _ _) as [route|err] eqn:Hp; cycle 1.
  { destruct Hc as [-> _]. split; [|by intros c ?%elem_of_nil]. split; [by intros (? & ? & ?)|].
    intros [[e He] _]. assert (prepare_route (registry a) req generation (gateway_principal a)
      = Ok (route_of req e)) by (apply prepare_route_exact; eauto). congruence. }
  apply prepare_route_exact in Hp as (e & He & ->).
  pose proof (decision_accepts now req generation a e He) as Hacc.
  destruct (decision now req a) as [d r]. simpl in *.
  destruct d; try (destruct Hc as [-> _]; split; [|by intros c ?%elem_of_nil];
    split; [by intros (? & ? & ?)|]; intros [_ H1]; apply Hacc in H1 as [? ?]; done).
  - split.
    + split; [|destruct Hc as [(res & -> & _)|[-> _]]; eauto].
      intros _. split; [eauto|]. apply Hacc. eauto.
    + destruct Hc as [(res & -> & _)|[-> _]]; intros c ->%list_elem_of_singleton; eauto.
  - destruct Hc as [-> _]. split; [|intros c ->%list_elem_of_singleton; eauto].
    split; [by intros (? & ? & ?)|]. intros [_ H1]. by apply Hacc in H1 as [? ?].
Qed.

(** C4. Over a whole history of calls on one adapter with a clock that does
    not run backwards, a mutating operation the peer acknowledged is not sent
    again under the same dedup key until both the retention window and the
    no-reuse horizon have passed since it was recorded. *)
Theorem acknowledged_once cs (st : state) t0 h1 h2 h3 now later req generation route k c log call :
  ordered t0 cs ->
  history cs st = h1 ++ (Dispatch now later req generation, [CallSend route req true])
                     :: h2 ++ (c, log) :: h3 ->
  OperationKind_is_mutating (req_kind req) = true -> key_of req = Some k ->
  call ∈ log -> sends k call ->
  exists now' later' req' generation', c = Dispatch now' later' req' generation'
    /\ (later + retention (router st.1) + no_reuse_horizon (router st.1) < now')%N.
Proof.
  intros Ho Hh Hm Hk Hin Hs.
  apply history_split in Hh as (cs1 & cs2 & -> & _ & Hlog & Hh2).
  symmetry in Hh2. apply history_split in Hh2 as (cs3 & cs4 & -> & _ & -> & _).
  destruct (final_config cs1 st) as [<- <-]. set (st1 := final cs1 st) in *.
  destruct (run_config (Dispatch now later req generation) st1) as [<- <-].
  apply ordered_app in Ho as [t1 (_ & _ & Ho)].
  eapply (done_until cs3 c cs4 _ k later later); [|exact Ho|exact Hin|exact Hs].
  destruct st1 as [a client]. simpl in *.
  pose proof (acknowledged_done now later req generation a client route k) as Hd.
  destruct (dispatch _ _ _ _ _ _) as [[out a'] [client' log']]. simpl in *. auto.
Qed.

(** Whatever calls an adapter has received, its registry holds full hosts
    of the managed realm only, each under its own id, never behind itself as
    gateway, with the fingerprint of its capabilities, and at most the
    capacity of them; and once a peer has disconnected nothing is sent to or
    asked of that node until it registers again. *)
Theorem remote_registry_sound before cs principal capabilities (client : Cl) realm node :
  let st := final before (new principal capabilities, client) in
  Forall (fun c => ~ registers (realm, node) c) cs ->
  registry_inv (registry st.1)
  /\ forall c log call, (c, log) ∈ history cs (run (PeerDisconnected realm node) st).2 ->
       call ∈ log -> (rr_realm (call_route call), rr_node (call_route call)) <> (realm, node).
Proof.
  intros st Hreg. split.
  - apply final_inv. split; [apply map_Forall_empty|].
    exact (Nat.le_0_l DEFAULT_MAX_REMOTE_NODES).
  - apply down_history; [|done]. destruct st as [a cl]. intros e. simpl.
    unfold peer_disconnected. destruct (nodes (registry a) !! (realm, node)) as [e0|] eqn:He;
      simpl; [rewrite lookup_insert_eq; by intros [= <-]|congruence].
Qed.

(** ** The query for unacknowledged operations

    Within one dispatch the router's record is completed or dropped before
    the call returns, so an adapter that starts with an empty router never
    finds an operation in progress: it never queries the peer, and after a
    send that was not acknowledged the same request is simply sent again. *)

Definition no_lease (r : OperationRouter) : Prop :=
  forall k e since, dedup r !! k = Some e -> entry_state e <> DedupState_InProgress since.

Lemma no_lease_gc t r : no_lease r -> no_lease (gc_at t r).
Proof.
  intros Hn k e since. rewrite gc_lookup. destruct (dedup r !! k) as [e0|] eqn:He; simpl; [|done].
  case_match; [|done]. intros [= <-]. specialize (Hn _ _ since He).
  unfold age_entry. destruct (entry_state e0) eqn:Hs; try case_bool_decide; simpl; congruence.
Qed.

Lemma no_lease_insert r k e :
  no_lease r -> (forall since, entry_state e <> DedupState_InProgress since) ->
  no_lease (set_dedup (<[k := e]> (dedup r)) r).
Proof.
  intros Hn He k' e' since. simpl. rewrite lookup_insert_Some. intros [[_ <-]|[_ ?]]; eauto.
Qed.

(** The only lease a decision takes is the one of the request it accepts. *)
Lemma decision_lease now req a :
  no_lease (router a) ->
  let '(d, r) := decision now req a in
  (forall id, d <> InProgress id)
  /\ (no_lease r \/ exists k e since s, d = Accept s /\ key_of req = Some k
        /\ OperationKind_is_mutating (req_kind req) = true
        /\ fingerprint e = dedup_fingerprint_input req
        /\ entry_state e = DedupState_InProgress since
        /\ exists r0, no_lease r0 /\ r = set_dedup (<[k := e]> (dedup r0)) r0).
Proof.
  intros Hn. unfold decision, route_with_capabilities.
  destruct (negb _); [by auto|].
  destruct (operation_route_plan (req_kind req)) as [plan|] eqn:Hp; [|by auto].
  apply operation_route_plan_some in Hp as ->.
  destruct (_ && _); [by auto|]. destruct (missing_capability _ _); [by auto|]. simpl.
  destruct (OperationKind_is_mutating (req_kind req)) eqn:Hm; simpl; [|by auto].
  destruct (req_idempotency_key req) as [key|] eqn:Hkey; [|by auto].
  unfold route_mutating, key_of. rewrite Hkey. simpl.
  destruct (dedup (router a) !! _) as [e|] eqn:He.
  - destruct (entry_state e) eqn:Hs; [by apply (Hn _ _ _ He) in Hs| |by auto].
    case_bool_decide; [|case_bool_decide; by auto].
    split; [done|]. left. by apply no_lease_insert.
  - case_bool_decide; (split; [done|]); [left; by apply no_lease_gc|]. right.
    exists (DedupKey_for_request req key), (mkDedupEntry (dedup_fingerprint_input req)
      (req_operation_id req) (DedupState_InProgress now)), now.
    eexists. do 5 (split; [done|]). exists (gc_at now (router a)).
    split; [by apply no_lease_gc|done].
Qed.

Lemma no_lease_delete r k : no_lease r -> no_lease (set_dedup (delete k (dedup r)) r).
Proof. intros Hn k' e since. simpl. rewrite lookup_delete_Some. intros [_ ?]. eauto. Qed.

(** Completing or failing the request just accepted releases its lease. *)
Lemma lease_released r0 k e since req later res :
  no_lease r0 -> key_of req = Some k -> fingerprint e = dedup_fingerprint_input req ->
  entry_state e = DedupState_InProgress since ->
  let r := set_dedup (<[k := e]> (dedup r0)) r0 in
  no_lease (mark_completed later req res r).2 /\ no_lease (mark_failed req r).2.
Proof.
  intros Hn Hk Hf Hs r.
  assert (matching_lease req r = Some (k, e)) as Hm.
  { apply matching_lease_some. repeat split; eauto. apply lookup_insert_eq. }
  unfold mark_completed, mark_failed. rewrite Hm. unfold r. simpl. split; intros k' e' s'; simpl.
  - rewrite insert_insert_eq, lookup_insert_Some. intros [[_ <-]|[_ He]]; [done|eauto].
  - rewrite delete_insert_eq, lookup_delete_Some. intros [_ He]. eauto.
Qed.

Lemma run_no_lease c (st : state) :
  no_lease (router st.1) ->
  no_lease (router (run c st).2.1) /\ forall route req, ~ CallQuery route req ∈ (run c st).1.
Proof.
  destruct st as [a client]. intros Hn.
  destruct c as [| | | | |now later req generation]; simpl in *;
    try (split; [done|]; intros ? ? ?%elem_of_nil; done).
  pose proof (dispatch_calls now later req generation a client) as Hc.
  pose proof (decision_lease now req a Hn) as Hd.
  destruct (dispatch _ _ _ _ _ _) as [[out a'] [client' log]]. destruct Hc as [_ Hc]. simpl.
  destruct (prepare_route _ _ _ _) as [route|err]; cycle 1.
  { destruct Hc as [-> ->]. split; [done|]. by intros ? ? ?%elem_of_nil. }
  destruct (decision now req a) as [d r]. simpl in *. destruct Hd as [Hnot Hl].
  destruct d; try (destruct Hc as [-> ->]; destruct Hl as [Hl|(? & ? & ? & ? & ? & _)];
    [|done]; split; [done|]; by intros ? ? ?%elem_of_nil).
  - split.
    + destruct Hl as [Hl|(k & e & since & s & _ & Hk & Hm & Hf & Hs & r0 & Hr0 & ->)].
      * unfold fail_if_mutating in Hc. destruct Hc as [(res & _ & ->)|[_ ->]]; case_match; try done;
          unfold mark_completed, mark_failed; case_match; try done; case_match; simpl;
          [by apply no_lease_insert|by apply no_lease_delete].
      * pose proof (fun res => lease_released r0 k e since req later res Hr0 Hk Hf Hs) as Hrel.
        unfold fail_if_mutating in Hc. rewrite Hm in Hc.
        destruct Hc as [(res & _ & ->)|[_ ->]]; [apply Hrel|apply (Hrel [])].
    + intros ? ? Hin. destruct Hc as [(res & -> & _)|[-> _]];
        by apply list_elem_of_singleton in Hin.
  - by edestruct Hnot.
Qed.

Lemma never_queries cs principal capabilities (client : Cl) c log route req :
  (c, log) ∈ history cs (new principal capabilities, client) -> ~ CallQuery route req ∈ log.
Proof.
  assert (no_lease (router (new principal capabilities))) as Hn by (intros k e since He; done).
  change (router (new principal capabilities))
    with (router (new principal capabilities, client).1) in Hn.
  revert Hn. generalize (new principal capabilities, client). induction cs as [|c' cs IH];
    intros st Hn; simpl; [by intros ?%elem_of_nil|].
  destruct (run_no_lease c' st Hn) as [Hn' Hq].
  rewrite elem_of_cons. intros [[= -> ->]|Hin]; [apply Hq|exact (IH _ Hn' Hin)].
Qed.
End history.

(** ** A concrete gateway *)

(** A peer that acknowledges everything, and one that never does. *)
Definition echo_peer : RemotePeerClient unit :=
  {| send_operation := fun _ _ u => (Ok ["r"%char], u);
     query_operation := fun _ _ u => (Ok Status_Unknown, u) |}.

Definition dead_peer : RemotePeerClient unit :=
  {| send_operation := fun _ _ u => (Err (RemoteNodeError_new NodeUnavailable), u);
     query_operation := fun _ _ u => (Ok Status_Unknown, u) |}.

Definition demo_caps : CapabilitySet := CapabilitySet_from_caps [Capability_Lifecycle].

Definition demo_registration : RemoteNodeRegistration :=
  mkRemoteNodeRegistration (mkNodeSummary "host-a" RealmPath_local FullHost demo_caps) "gw-user"
    "gw" "nixos" "boot-1".

Definition demo_operation : OperationRequest :=
  mkOperationRequest "op-1" "corr-1" (Some "key-1"%string) RealmPath_local "host-a"
    (Some "vm-1"%string) "gw-user" OperationKind_WorkloadStart None ["a"%char].

Definition demo_start : RemoteFullHostAdapter * unit := (new "gw-user" demo_caps, tt).

Definition demo_route : RemoteRoute :=
  mkRemoteRoute RealmPath_local "host-a" "boot-1" OperationKind_WorkloadStart "corr-1"
    (Some Capability_Lifecycle) (CapabilitySet_stable_fingerprint demo_caps) "gw-user" None true.

Definition other_operation : OperationRequest :=
  mkOperationRequest "op-2" "corr-1" (Some "key-2"%string) RealmPath_local "host-a"
    (Some "vm-1"%string) "gw-user" OperationKind_WorkloadStart None ["a"%char].

Definition expired_at : N := 3 + DEFAULT_RETENTION.
Definition reused_at : N := expired_at + DEFAULT_NO_REUSE_HORIZON + 1.

(** The key is sent once, refused while its record ages, and sent again after
    the window, when another key has had the tombstone collected. *)
Definition demo_commands : list command :=
  [Register demo_registration 0; Dispatch 1 2 demo_operation "boot-1";
   Dispatch expired_at expired_at demo_operation "boot-1";
   Dispatch reused_at reused_at other_operation "boot-1";
   Dispatch reused_at reused_at demo_operation "boot-1"].

Lemma acknowledged_once_witness :
  exists now' later' req' generation',
    Dispatch reused_at reused_at demo_operation "boot-1" = Dispatch now' later' req' generation'
    /\ (2 + DEFAULT_RETENTION + DEFAULT_NO_REUSE_HORIZON < now')%N.
Proof.
  refine (acknowledged_once (H := echo_peer) demo_commands demo_start 0
    [(Register demo_registration 0, [])]
    [(Dispatch expired_at expired_at demo_operation "boot-1", []);
     (Dispatch reused_at reused_at other_operation "boot-1",
      [CallSend demo_route other_operation true])] []
    1 2 demo_operation "boot-1" demo_route (DedupKey_for_request demo_operation "key-1")
    _ [CallSend demo_route demo_operation true] (CallSend demo_route demo_operation true)
    _ _ _ _ _ _).
  - vm_compute. repeat split; discriminate.
  - vm_compute. reflexivity.
  - reflexivity.
  - reflexivity.
  - left.
  - exists demo_route, demo_operation, true. repeat split; reflexivity.
Defined.

Lemma remote_registry_sound_witness :
  Forall (fun c => ~ registers (RealmPath_local, "host-a"%string) c)
    [Dispatch 5 6 demo_operation "boot-1"]
  /\ registry_inv (registry (final (H := echo_peer) [Register demo_registration 0]
                               demo_start).1).
Proof.
  assert (Forall (fun c => ~ registers (RealmPath_local, "host-a"%string) c)
    [Dispatch 5 6 demo_operation "boot-1"]) as Hf.
  { apply Forall_singleton. intros (r & now & Heq & _). discriminate Heq. }
  split; [exact Hf|].
  exact (proj1 (remote_registry_sound (H := echo_peer) [Register demo_registration 0]
    [Dispatch 5 6 demo_operation "boot-1"] "gw-user" demo_caps tt RealmPath_local "host-a" Hf)).
Defined.

(** A send that is not acknowledged is repeated without a query. *)
Example unacknowledged_resent :
  history (H := dead_peer)
    [Register demo_registration 0; Dispatch 1 2 demo_operation "boot-1";
     Dispatch 5 6 demo_operation "boot-1"] demo_start
  = [(Register demo_registration 0, []);
     (Dispatch 1 2 demo_operation "boot-1", [CallSend demo_route demo_operation false]);
     (Dispatch 5 6 demo_operation "boot-1", [CallSend demo_route demo_operation false])].
Proof. vm_compute. reflexivity. Qed.
End RemoteNode.

Module TargetResolver.
Import Target.

Inductive EntrypointMode : Set := HostResident | GatewayBacked.

Record RealmEntrypoint := mkRealmEntrypoint {
  mode : EntrypointMode;
  gateway : option RealmTarget
}.

Inductive DispatchTarget : Type :=
| DispatchHostResident (target : RealmTarget)
| DispatchGatewayBacked (gateway target : RealmTarget).

Inductive ResolveError : Type :=
| NoEntrypoint (r : RealmPath)
| MissingGateway (r : RealmPath).

Definition RealmEntrypointTable : Type := gmap RealmPath RealmEntrypoint.

Definition host_resident_entry : RealmEntrypoint := mkRealmEntrypoint HostResident None.
Definition gateway_backed_entry (gateway : RealmTarget) : RealmEntrypoint :=
  mkRealmEntrypoint GatewayBacked (Some gateway).

Definition insert_entry (realm : RealmPath) (entry : RealmEntrypoint)
    (self : RealmEntrypointTable) : RealmEntrypointTable := <[realm := entry]> self.

Definition with_local_default : RealmEntrypointTable :=
  insert_entry RealmPath_local host_resident_entry ∅.

Definition host_resident (realm : RealmPath) : RealmEntrypointTable -> RealmEntrypointTable :=
  insert_entry realm host_resident_entry.

Definition gateway_backed (realm : RealmPath) (gateway : RealmTarget) :
    RealmEntrypointTable -> RealmEntrypointTable :=
  insert_entry realm (gateway_backed_entry gateway).

(** The binding an entry gives. *)
Definition entry_target (suffix : RealmPath) (entry : RealmEntrypoint) (target : RealmTarget) :
    result DispatchTarget ResolveError :=
  match mode entry with
  | HostResident => Ok (DispatchHostResident target)
  | GatewayBacked =>
      match gateway entry with
      | Some gateway => Ok (DispatchGatewayBacked gateway target)
      | None => Err (MissingGateway suffix)
      end
  end.

(** The loop over the suffixes; [None] is the panic of [expect]. *)
Fixpoint resolve_suffixes (self : RealmEntrypointTable) (target : RealmTarget)
    (labels : list RealmId) : option (result DispatchTarget ResolveError) :=
  match labels with
  | [] => Some (Err (NoEntrypoint (realm target)))
  | _ :: rest =>
      suffix ← RealmPath_new labels;
      match self !! suffix with
      | Some entry => Some (entry_target suffix entry target)
      | None => resolve_suffixes self target rest
      end
  end.

Definition resolve (self : RealmEntrypointTable) (target : RealmTarget) :
    option (result DispatchTarget ResolveError) :=
  resolve_suffixes self target (realm target).

(** The entry that owns a realm: the one of its longest suffix. *)
Definition owner (self : RealmEntrypointTable) (path suffix : RealmPath) : Prop :=
  suffix <> [] /\ suffix `suffix_of` path /\ is_Some (self !! suffix)
  /\ forall longer, longer `suffix_of` path -> is_Some (self !! longer) ->
       length longer <= length suffix.

Lemma RealmPath_new_suffix x labels :
  labels <> [] -> RealmPath_new (x :: labels) = Some (x :: labels) ->
  RealmPath_new labels = Some labels.
Proof.
  rewrite !RealmPath_new_some. intros Hne (_ & _ & Hl & Hb). repeat split; try done.
  - simpl in Hl. lia.
  - unfold path_bytes in *. destruct labels; simpl in *; [done|lia].
Qed.

Lemma resolve_suffixes_exact self target labels :
  labels <> [] -> RealmPath_new labels = Some labels ->
  (exists suffix entry, owner self labels suffix /\ self !! suffix = Some entry
     /\ resolve_suffixes self target labels = Some (entry_target suffix entry target))
  \/ ((forall suffix, suffix <> [] -> suffix `suffix_of` labels -> self !! suffix = None)
      /\ resolve_suffixes self target labels = Some (Err (NoEntrypoint (realm target)))).
Proof.
  induction labels as [|x labels IH]; [done|]. intros _ Hnew. simpl. rewrite Hnew. simpl.
  destruct (self !! (x :: labels)) as [entry|] eqn:He.
  { left. exists (x :: labels), entry. repeat split; try done. intros longer Hs _.
    by apply suffix_length in Hs. }
  assert (forall suffix, suffix <> [] -> suffix `suffix_of` x :: labels ->
    suffix = x :: labels \/ suffix `suffix_of` labels) as Hsuf.
  { intros [|y suffix] Hn Hs; [done|]. by apply suffix_cons_inv in Hs. }
  destruct (decide (labels = [])) as [->|Hne].
  { right. split; [|done]. intros suffix Hn Hs. destruct (Hsuf _ Hn Hs) as [->|Hs']; [done|].
    by apply suffix_nil_inv in Hs'. }
  destruct (IH Hne (RealmPath_new_suffix _ _ Hne Hnew))
    as [(suffix & entry & (H1 & H2 & H3 & H4) & Hent & ->)|[Hno ->]].
  - left. exists suffix, entry. repeat split; try done; [by apply suffix_cons_r|].
    intros longer Hl Hs. destruct (decide (longer = [])) as [->|Hln]; [simpl; lia|].
    destruct (Hsuf _ Hln Hl) as [->|Hl']; [destruct Hs; congruence|auto].
  - right. split; [|done]. intros suffix Hn Hs. destruct (Hsuf _ Hn Hs) as [->|Hs']; auto.
Qed.

(** Resolving a target never panics, and the entrypoint it yields is that
    of the longest suffix of the target's realm that has one; a realm none of
    whose suffixes has an entry is refused, never dispatched locally. *)
Theorem resolve_exact self target :
  RealmPath_new (realm target) = Some (realm target) ->
  (exists suffix entry, owner self (realm target) suffix /\ self !! suffix = Some entry
     /\ resolve self target = Some (entry_target suffix entry target))
  \/ ((forall suffix, suffix <> [] -> suffix `suffix_of` realm target -> self !! suffix = None)
      /\ resolve self target = Some (Err (NoEntrypoint (realm target)))).
Proof.
  intros Hnew. apply resolve_suffixes_exact; [|done]. by apply RealmPath_new_some in Hnew as (_ & ? & _).
Qed.

Definition demo_table : RealmEntrypointTable :=
  gateway_backed ["work"%string] (mkRealmTarget "work-gateway" ["work"%string]) with_local_default.

Definition demo_target : RealmTarget := mkRealmTarget "api" ["payments"%string; "work"%string].

Lemma resolve_exact_witness :
  exists suffix entry, owner demo_table (realm demo_target) suffix
    /\ demo_table !! suffix = Some entry
    /\ resolve demo_table demo_target = Some (entry_target suffix entry demo_target).
Proof.
  destruct (resolve_exact demo_table demo_target) as [Hyes|[Hno _]]; [reflexivity|exact Hyes|].
  exfalso. specialize (Hno ["work"%string] ltac:(discriminate)
    (ex_intro _ ["payments"%string] eq_refl)). vm_compute in Hno. discriminate Hno.
Defined.
End TargetResolver.
