(* ===== verification/GuestAuth.v ===== *)
(** * Guest-control authentication

    The challenge-response protocol between the host daemon and the guest
    daemon, in the three programs that take part: the transcript encoder
    both sides share ([d2b-contracts/guest_auth.rs]), the guest's
    authentication core with its challenge store ([d2b-guestd/auth.rs]), the
    broker that signs for the daemon ([handle_guest_control_sign]) and the
    daemon's probe ([guest_control_health.rs]).  HMAC-SHA256 is a parameter,
    and what reaches the daemon from the guest is arbitrary. *)

From S2P Require Import Prelude Ids Streams Frame.

(** ** The transcript ([guest_auth.rs]) *)

Module Transcript.

Definition AUTH_TRANSCRIPT_VERSION : N := 1.
Definition AUTH_NONCE_LEN : nat := 32.
Definition AUTH_TAG_LEN : nat := 32.
Definition GUEST_CONTROL_AUTH_PORT : N := 14318.

Inductive AuthDirection : Set := HostToGuest.
Inductive AuthPurpose : Set := GuestControlAuthV1.
Inductive ProofRole : Set := Host | Guest.

Definition AuthDirection_label (self : AuthDirection) : bytes :=
  match self with HostToGuest => chars "host-to-guest" end.
Definition AuthPurpose_label (self : AuthPurpose) : bytes :=
  match self with GuestControlAuthV1 => chars "guest-control-auth-v1" end.
Definition ProofRole_label (self : ProofRole) : bytes :=
  match self with Host => chars "host-proof" | Guest => chars "guest-proof" end.

#[global] Instance AuthDirection_eq_dec : EqDecision AuthDirection.
Proof. solve_decision. Defined.
#[global] Instance AuthPurpose_eq_dec : EqDecision AuthPurpose.
Proof. solve_decision. Defined.
#[global] Instance ProofRole_eq_dec : EqDecision ProofRole.
Proof. solve_decision. Defined.

Record GuestAuthTranscript := mkGuestAuthTranscript {
  tr_role : ProofRole;
  tr_direction : AuthDirection;
  tr_purpose : AuthPurpose;
  tr_vm_id : string;
  tr_protocol_version : N;
  tr_guest_control_port : N;
  tr_peer_cid : option N;
  tr_host_nonce : bytes;
  tr_guest_nonce : bytes;
  tr_guest_boot_id : string;
  tr_capabilities_hash : option bytes
}.

(** [u32::to_be_bytes]; of a larger number the low 32 bits, as [as u32]. *)
Definition be32 (n : N) : bytes := reverse (le_bytes 4 n).

Definition push_field (tag : N) (value : bytes) : bytes :=
  Ascii.ascii_of_N tag :: be32 (N.of_nat (length value)) ++ value.

Definition encode_transcript (t : GuestAuthTranscript) : bytes :=
  push_field 1 (chars "guest-control-auth-v1")
  ++ push_field 2 (ProofRole_label (tr_role t))
  ++ push_field 3 (AuthDirection_label (tr_direction t))
  ++ push_field 4 (AuthPurpose_label (tr_purpose t))
  ++ push_field 5 (chars (tr_vm_id t))
  ++ push_field 6 (be32 (tr_protocol_version t))
  ++ push_field 7 (be32 (tr_guest_control_port t))
  ++ (match tr_peer_cid t with Some peer_cid => push_field 8 (be32 peer_cid) | None => [] end)
  ++ push_field 10 (tr_host_nonce t)
  ++ push_field 11 (tr_guest_nonce t)
  ++ push_field 12 (chars (tr_guest_boot_id t))
  ++ (match tr_capabilities_hash t with Some hash => push_field 13 hash | None => [] end).

(** What the types of the source and a field length in 32 bits grant. *)
Definition fits_field (b : bytes) : Prop := (N.of_nat (length b) < 2 ^ 32)%N.

Record transcript_wf (t : GuestAuthTranscript) : Prop := mkTranscriptWf {
  wf_vm_id : fits_field (chars (tr_vm_id t));
  wf_version : (tr_protocol_version t < 2 ^ 32)%N;
  wf_port : (tr_guest_control_port t < 2 ^ 32)%N;
  wf_cid : forall cid, tr_peer_cid t = Some cid -> (cid < 2 ^ 32)%N;
  wf_host_nonce : fits_field (tr_host_nonce t);
  wf_guest_nonce : fits_field (tr_guest_nonce t);
  wf_boot_id : fits_field (chars (tr_guest_boot_id t));
  wf_hash : forall hash, tr_capabilities_hash t = Some hash -> fits_field hash
}.

Lemma be32_inj n m : (n < 2 ^ 32)%N -> (m < 2 ^ 32)%N -> be32 n = be32 m -> n = m.
Proof. intros Hn Hm Heq. apply (inj reverse) in Heq. by apply (le_bytes_inj 4). Qed.

Lemma be32_length n : length (be32 n) = 4.
Proof. unfold be32. by rewrite length_reverse, le_bytes_length. Qed.

Lemma be32_fits n : fits_field (be32 n).
Proof. unfold fits_field. by rewrite be32_length. Qed.

(** A field is read back from the front of any encoding. *)
Lemma tagged_field_inj tag v w r s :
  fits_field v -> fits_field w -> push_field tag v ++ r = push_field tag w ++ s -> v = w /\ r = s.
Proof.
  unfold push_field. rewrite <- !app_comm_cons, <- !app_assoc. intros Hv Hw Heq.
  apply (f_equal tl) in Heq. cbn [tl] in Heq.
  apply app_inj_1 in Heq as [Hlen Heq]; [|by rewrite !be32_length].
  apply be32_inj in Hlen; [|done..]. by apply app_inj_1 in Heq; [|lia].
Qed.

Lemma role_label_inj r s : ProofRole_label r = ProofRole_label s -> r = s.
Proof. by destruct r, s. Qed.

Lemma role_label_fits r : fits_field (ProofRole_label r).
Proof. by destruct r. Qed.

(** An optional field with a tag of its own, before a field with another tag. *)
Lemma option_field_inj {A} tag tag' (f : A -> bytes) (a b : option A) v w r s :
  Ascii.ascii_of_N tag <> Ascii.ascii_of_N tag' ->
  (forall x, a = Some x \/ b = Some x -> fits_field (f x)) ->
  (forall x y, a = Some x -> b = Some y -> f x = f y -> x = y) ->
  match a with Some x => push_field tag (f x) | None => [] end ++ push_field tag' v ++ r
  = match b with Some x => push_field tag (f x) | None => [] end ++ push_field tag' w ++ s ->
  a = b /\ push_field tag' v ++ r = push_field tag' w ++ s.
Proof.
  intros Htag Hfit Hinj. destruct a as [x|], b as [y|]; simpl.
  - intros Heq. apply tagged_field_inj in Heq as [Hf ->]; [|auto..].
    split; [|done]. f_equal. by apply Hinj.
  - intros Heq. apply (f_equal head) in Heq. injection Heq as Heq. done.
  - intros Heq. apply (f_equal head) in Heq. injection Heq as Heq. by symmetry in Heq.
  - done.
Qed.

(** The encoding determines the transcript. *)
Lemma transcript_injective t u :
  transcript_wf t -> transcript_wf u -> encode_transcript t = encode_transcript u -> t = u.
Proof.
  intros Ht Hu Heq. unfold encode_transcript in Heq.
  apply tagged_field_inj in Heq as [_ Heq]; [|done..].
  apply tagged_field_inj in Heq as [Hrole Heq]; [|apply role_label_fits..].
  apply tagged_field_inj in Heq as [_ Heq]; [|destruct (tr_direction t); done|destruct (tr_direction u); done].
  apply tagged_field_inj in Heq as [_ Heq]; [|destruct (tr_purpose t); done|destruct (tr_purpose u); done].
  apply tagged_field_inj in Heq as [Hvm Heq]; [|by apply wf_vm_id..].
  apply tagged_field_inj in Heq as [Hver Heq]; [|apply be32_fits..].
  apply tagged_field_inj in Heq as [Hport Heq]; [|apply be32_fits..].
  apply (option_field_inj 8 10 be32) in Heq as [Hcid Heq]; [|by vm_compute|intros; apply be32_fits|].
  2: { intros x y Hx Hy Hb. apply be32_inj in Hb; [done|exact (wf_cid _ Ht _ Hx)|exact (wf_cid _ Hu _ Hy)]. }
  apply tagged_field_inj in Heq as [Hhn Heq]; [|by apply wf_host_nonce..].
  apply tagged_field_inj in Heq as [Hgn Heq]; [|by apply wf_guest_nonce..].
  apply tagged_field_inj in Heq as [Hboot Heq]; [|by apply wf_boot_id..].
  assert (tr_capabilities_hash t = tr_capabilities_hash u) as Hhash.
  { destruct (tr_capabilities_hash t) as [h|] eqn:E1, (tr_capabilities_hash u) as [h'|] eqn:E2;
      try done.
    rewrite <- (app_nil_r (push_field 13 h)), <- (app_nil_r (push_field 13 h')) in Heq.
    apply tagged_field_inj in Heq as [-> _]; [done|exact (wf_hash _ Ht _ E1)|exact (wf_hash _ Hu _ E2)]. }
  apply role_label_inj in Hrole. apply chars_inj in Hvm, Hboot.
  apply be32_inj in Hver; [|by apply wf_version..]. apply be32_inj in Hport; [|by apply wf_port..].
  destruct t as [? [] [] ? ? ? ? ? ? ? ?], u as [? [] [] ? ? ? ? ? ? ? ?]; simpl in *. congruence.
Qed.
End Transcript.

(** ** The guest's messages ([guest_control.proto]) *)

Module Proto.

(** [EnumOrUnknown]: a number the schema does not name stays unknown. *)
Inductive pb_enum (A : Type) : Type :=
| Known (a : A)
| Unknown (n : Z).
Arguments Known {A} a.
Arguments Unknown {A} n.

Inductive HealthOrigin : Set :=
| HEALTH_ORIGIN_UNSPECIFIED | HEALTH_ORIGIN_GUEST_REPORTED | HEALTH_ORIGIN_HOST_SYNTHESIZED.

#[global] Instance HealthOrigin_eq_dec : EqDecision HealthOrigin.
Proof. solve_decision. Defined.

Inductive HealthState : Set :=
| HEALTH_STATE_UNSPECIFIED | HEALTH_STATE_HEALTHY | HEALTH_STATE_DEGRADED
| HEALTH_STATE_UNAVAILABLE_OLD_GENERATION | HEALTH_STATE_LISTENER_ABSENT
| HEALTH_STATE_TRANSPORT_UNREACHABLE | HEALTH_STATE_AUTH_FAILED
| HEALTH_STATE_PROTOCOL_MISMATCH | HEALTH_STATE_STALE_SESSION.

#[global] Instance HealthState_eq_dec : EqDecision HealthState.
Proof. solve_decision. Defined.

Inductive HealthReason : Set :=
| HEALTH_REASON_UNSPECIFIED | HEALTH_REASON_NONE | HEALTH_REASON_OLD_GENERATION
| HEALTH_REASON_LISTENER_ABSENT | HEALTH_REASON_CONNECT_REFUSED | HEALTH_REASON_CONNECT_TIMEOUT
| HEALTH_REASON_EOF_BEFORE_ACK | HEALTH_REASON_MALFORMED_ACK | HEALTH_REASON_ACK_TOO_LONG
| HEALTH_REASON_TRANSPORT_IO | HEALTH_REASON_AUTH_TOKEN_REJECTED
| HEALTH_REASON_PROTOCOL_VERSION_UNSUPPORTED | HEALTH_REASON_SESSION_GENERATION_MISMATCH
| HEALTH_REASON_EXEC_SUBSYSTEM_UNAVAILABLE | HEALTH_REASON_LOG_STORAGE_UNAVAILABLE
| HEALTH_REASON_QUOTA_EXCEEDED | HEALTH_REASON_RATE_LIMITED
| HEALTH_REASON_INTERNAL_HEALTH_CHECK_FAILED.

#[global] Instance HealthReason_eq_dec : EqDecision HealthReason.
Proof. solve_decision. Defined.

Inductive HealthRemediation : Set :=
| HEALTH_REMEDIATION_UNSPECIFIED | HEALTH_REMEDIATION_NONE | HEALTH_REMEDIATION_RETRY
| HEALTH_REMEDIATION_RESTART_VM | HEALTH_REMEDIATION_UPGRADE_GUEST
| HEALTH_REMEDIATION_CHECK_AUTH_TOKEN | HEALTH_REMEDIATION_CHECK_GUESTD_SERVICE
| HEALTH_REMEDIATION_REDUCE_LOAD | HEALTH_REMEDIATION_INSPECT_GUEST_LOGS.

#[global] Instance HealthRemediation_eq_dec : EqDecision HealthRemediation.
Proof. solve_decision. Defined.

Inductive GuestCapability : Set :=
| GUEST_CAPABILITY_UNSPECIFIED | GUEST_CAPABILITY_HEALTH | GUEST_CAPABILITY_CAPABILITIES
| GUEST_CAPABILITY_EXEC_ATTACHED | GUEST_CAPABILITY_EXEC_DETACHED | GUEST_CAPABILITY_EXEC_TTY
| GUEST_CAPABILITY_EXEC_LOGS | GUEST_CAPABILITY_TTY_RESIZE | GUEST_CAPABILITY_SIGNALS
| GUEST_CAPABILITY_READ_GUEST_FILE | GUEST_CAPABILITY_USBIP_IMPORT
| GUEST_CAPABILITY_SHELL_ATTACHED | GUEST_CAPABILITY_SHELL_MANAGEMENT
| GUEST_CAPABILITY_SHELL_FORCE_ATTACH | GUEST_CAPABILITY_USBIP_STATUS
| GUEST_CAPABILITY_SYSTEM_ACTIVATION | GUEST_CAPABILITY_AUDIO_STATUS
| GUEST_CAPABILITY_AUDIO_SET.

#[global] Instance GuestCapability_eq_dec : EqDecision GuestCapability.
Proof. solve_decision. Defined.

Inductive GuestSubsystem : Set :=
| GUEST_SUBSYSTEM_UNSPECIFIED | GUEST_SUBSYSTEM_GUESTD | GUEST_SUBSYSTEM_USERD
| GUEST_SUBSYSTEM_EXEC | GUEST_SUBSYSTEM_LOG_STORAGE | GUEST_SUBSYSTEM_TOKEN
| GUEST_SUBSYSTEM_VSOCK | GUEST_SUBSYSTEM_USBIP | GUEST_SUBSYSTEM_SHELL
| GUEST_SUBSYSTEM_SHPOOL | GUEST_SUBSYSTEM_SYSTEM_ACTIVATION | GUEST_SUBSYSTEM_AUDIO.

#[global] Instance GuestSubsystem_eq_dec : EqDecision GuestSubsystem.
Proof. solve_decision. Defined.

Record RequestMetadata := mkRequestMetadata {
  md_vm_id : string;
  md_request_id : string;
  md_protocol_version : N
}.

Record HelloRequest := mkHelloRequest {
  hr_metadata : option RequestMetadata;
  hr_host_nonce : bytes;
  hr_transcript_version : N
}.

Record HelloResponse := mkHelloResponse {
  hs_guest_nonce : bytes;
  hs_guest_boot_id : string;
  hs_protocol_version : N
}.

Record AuthenticateRequest := mkAuthenticateRequest {
  aq_metadata : option RequestMetadata;
  aq_host_nonce : bytes;
  aq_guest_nonce : bytes;
  aq_guest_boot_id : string;
  aq_transcript_version : N;
  aq_host_auth_tag : bytes
}.

Record HealthResponse := mkHealthResponse {
  h_origin : pb_enum HealthOrigin;
  h_state : pb_enum HealthState;
  h_reason : pb_enum HealthReason;
  h_remediation : pb_enum HealthRemediation;
  h_protocol_version : N;
  h_capabilities : list (pb_enum GuestCapability);
  h_degraded_subsystems : list (pb_enum GuestSubsystem)
}.

Record GuestEffectiveLimits := mkGuestEffectiveLimits {
  max_chunk_bytes : N;
  max_recv_message_bytes : N;
  decoded_write_stdin_bytes_per_connection : N;
  write_stdin_handlers_per_connection : N;
  stdin_queue_chunks_per_exec : N;
  stdout_live_buffer_bytes : N;
  stderr_live_buffer_bytes : N;
  detached_stdout_log_bytes : N;
  detached_stderr_log_bytes : N;
  long_poll_timeout_ms : N;
  slow_consumer_grace_ms : N;
  exec_sessions_per_vm : N;
  attached_sessions_per_vm : N;
  pending_read_output_waits_per_stream : N;
  pending_exec_waits_per_vm : N;
  rpc_rate_per_connection_per_second : N;
  rpc_rate_per_vm_burst : N;
  shell_sessions_per_vm : N;
  shell_attached_sessions_per_vm : N
}.

Record CapabilitiesResponse := mkCapabilitiesResponse {
  c_protocol_version : N;
  c_capabilities : list (pb_enum GuestCapability);
  c_limits : option GuestEffectiveLimits
}.

(** Of the error message only its presence is looked at. *)
Record AuthenticateResponse := mkAuthenticateResponse {
  as_guest_auth_tag : option bytes;
  as_capabilities_hash : option string;
  as_health : option HealthResponse;
  as_capabilities : option CapabilitiesResponse;
  as_has_error : bool
}.
End Proto.

(** ** HMAC-SHA256

    The [hmac] and [sha2] crates: a function of key and message that yields
    32 bytes; [verify_slice] compares with it. *)
Class Hmac := hmac_sha256 : bytes -> bytes -> bytes.

Class HmacLaws `{Hmac} : Prop :=
  hmac_length : forall key message, length (hmac_sha256 key message) = 32.

(** ** The guest daemon ([auth.rs]) *)

Module GuestCore.
Import Transcript Proto.

Definition GUEST_CONTROL_PROTOCOL_VERSION : N := 6.
Definition TTRPC_FRAME_CAP_BYTES : N := 4 * 1024 * 1024.
Definition HARD_MAX_CHUNK_BYTES : N := 1024 * 1024.
Definition CONNECTION_INSTANCE_LEN : nat := 16.
Definition DEFAULT_CHALLENGE_TTL_MS : N := 30000.
Definition DEFAULT_CHALLENGE_CAPACITY : nat := 128.
Definition MAX_AUTH_HEALTH_CAPABILITIES : nat := 32.
Definition MAX_AUTH_DEGRADED_SUBSYSTEMS : nat := 16.
Definition MAX_CAPABILITIES_HASH_LEN : nat := 128.

Inductive GuestAuthError : Set :=
| MetadataMissing | MetadataMismatch | ProtocolVersionMismatch | TranscriptVersionMismatch
| NonceLengthInvalid | TagLengthInvalid | BootIdMismatch | ChallengeCapacityExceeded
| ChallengeNotFound | ChallengeExpired | ChallengeMismatch | TokenUnavailable | MacRejected
| CapabilitiesUnavailable | InvalidCapabilitiesSnapshot | InvalidHealthSnapshot
| Unauthenticated.

Record AuthConnectionContext := mkAuthConnectionContext {
  cx_vm_id : string;
  cx_protocol_version : N;
  cx_guest_control_port : N;
  cx_peer_cid : N;
  cx_direction : AuthDirection;
  cx_purpose : AuthPurpose;
  cx_connection_instance : bytes
}.

#[global] Instance AuthConnectionContext_eq_dec : EqDecision AuthConnectionContext.
Proof. solve_decision. Defined.

#[global] Program Instance AuthConnectionContext_countable : Countable AuthConnectionContext :=
  inj_countable' (fun c => (cx_vm_id c, cx_protocol_version c, cx_guest_control_port c,
                            cx_peer_cid c, cx_connection_instance c))
    (fun '(v, p, g, cid, i) => mkAuthConnectionContext v p g cid HostToGuest GuestControlAuthV1 i)
    _.
Next Obligation. by intros [? ? ? ? [] [] ?]. Qed.

Definition AuthConnectionContext_validate (self : AuthConnectionContext) :
    result unit GuestAuthError :=
  if bool_decide (cx_vm_id self = ""%string)
     || bool_decide (cx_protocol_version self <> GUEST_CONTROL_PROTOCOL_VERSION)
     || bool_decide (cx_guest_control_port self <> GUEST_CONTROL_AUTH_PORT)
  then Err MetadataMismatch else Ok tt.

Definition validate_context_and_metadata (context : AuthConnectionContext)
    (metadata : option RequestMetadata) : result unit GuestAuthError :=
  match AuthConnectionContext_validate context with
  | Err e => Err e
  | Ok _ =>
      match metadata with
      | None => Err MetadataMissing
      | Some metadata =>
          if bool_decide (md_vm_id metadata <> cx_vm_id context) then Err MetadataMismatch
          else if bool_decide (md_protocol_version metadata <> cx_protocol_version context)
          then Err ProtocolVersionMismatch
          else Ok tt
      end
  end.

Definition fixed_nonce (value : bytes) : result bytes GuestAuthError :=
  if bool_decide (length value <> AUTH_NONCE_LEN) then Err NonceLengthInvalid else Ok value.

Definition fixed_tag (value : bytes) : result bytes GuestAuthError :=
  if bool_decide (length value <> AUTH_TAG_LEN) then Err TagLengthInvalid else Ok value.

Definition encode_transcript (role : ProofRole) (context : AuthConnectionContext)
    (host_nonce guest_nonce : bytes) (guest_boot_id : string) (capabilities_hash : option bytes) :
    bytes :=
  Transcript.encode_transcript
    (mkGuestAuthTranscript role (cx_direction context) (cx_purpose context) (cx_vm_id context)
       (cx_protocol_version context) (cx_guest_control_port context)
       (Some (cx_peer_cid context)) host_nonce guest_nonce guest_boot_id capabilities_hash).

(** *** Snapshots *)

Record CapabilitiesSnapshot := mkCapabilitiesSnapshot {
  capabilities_hash : string;
  health : HealthResponse;
  capabilities : CapabilitiesResponse
}.

(** [matches!(value.enum_value(), Ok(v) if v != unspecified)] *)
Definition specified {A} `{EqDecision A} (unspecified : A) (value : pb_enum A) : bool :=
  match value with Known v => bool_decide (v <> unspecified) | Unknown _ => false end.

(** What [validate_health] asks of a state for the given reason, remediation
    and number of degraded subsystems. *)
Definition state_valid (state : HealthState) (reason : HealthReason)
    (remediation : HealthRemediation) (degraded : nat) : bool :=
  match state with
  | HEALTH_STATE_HEALTHY =>
      negb (bool_decide (reason <> HEALTH_REASON_NONE)
            || bool_decide (remediation <> HEALTH_REMEDIATION_NONE)
            || negb (bool_decide (degraded = 0)))
  | HEALTH_STATE_DEGRADED =>
      let valid_reason :=
        match reason with
        | HEALTH_REASON_EXEC_SUBSYSTEM_UNAVAILABLE | HEALTH_REASON_LOG_STORAGE_UNAVAILABLE
        | HEALTH_REASON_QUOTA_EXCEEDED | HEALTH_REASON_RATE_LIMITED
        | HEALTH_REASON_INTERNAL_HEALTH_CHECK_FAILED => true
        | _ => false
        end in
      let valid_remediation :=
        match remediation with
        | HEALTH_REMEDIATION_RETRY | HEALTH_REMEDIATION_REDUCE_LOAD
        | HEALTH_REMEDIATION_INSPECT_GUEST_LOGS | HEALTH_REMEDIATION_RESTART_VM => true
        | _ => false
        end in
      negb (negb valid_reason || negb valid_remediation || bool_decide (degraded = 0))
  | _ => false
  end.

Definition validate_health (health : HealthResponse) : result unit GuestAuthError :=
  match h_origin health, h_state health, h_reason health, h_remediation health with
  | Known origin, Known state, Known reason, Known remediation =>
      if bool_decide (origin <> HEALTH_ORIGIN_GUEST_REPORTED) then Err InvalidHealthSnapshot
      else if bool_decide (h_protocol_version health <> GUEST_CONTROL_PROTOCOL_VERSION)
      then Err InvalidHealthSnapshot
      else if bool_decide (MAX_AUTH_HEALTH_CAPABILITIES < length (h_capabilities health))
              || bool_decide (MAX_AUTH_DEGRADED_SUBSYSTEMS < length (h_degraded_subsystems health))
              || existsb (fun c => negb (specified GUEST_CAPABILITY_UNSPECIFIED c))
                   (h_capabilities health)
              || existsb (fun s => negb (specified GUEST_SUBSYSTEM_UNSPECIFIED s))
                   (h_degraded_subsystems health)
      then Err InvalidHealthSnapshot
      else if state_valid state reason remediation (length (h_degraded_subsystems health))
      then Ok tt else Err InvalidHealthSnapshot
  | _, _, _, _ => Err InvalidHealthSnapshot
  end.

Definition validate_capabilities (capabilities : CapabilitiesResponse) :
    result unit GuestAuthError :=
  match c_limits capabilities with
  | None => Err InvalidCapabilitiesSnapshot
  | Some limits =>
      if bool_decide (c_protocol_version capabilities <> GUEST_CONTROL_PROTOCOL_VERSION)
         || bool_decide (MAX_AUTH_HEALTH_CAPABILITIES < length (c_capabilities capabilities))
         || existsb (fun c => negb (specified GUEST_CAPABILITY_UNSPECIFIED c))
              (c_capabilities capabilities)
         || bool_decide (max_chunk_bytes limits = 0%N)
         || (HARD_MAX_CHUNK_BYTES <? max_chunk_bytes limits)%N
         || bool_decide (max_recv_message_bytes limits = 0%N)
         || (TTRPC_FRAME_CAP_BYTES <? max_recv_message_bytes limits)%N
         || (16 * 1024 * 1024 <? decoded_write_stdin_bytes_per_connection limits)%N
         || (4 <? write_stdin_handlers_per_connection limits)%N
         || (1 <? stdin_queue_chunks_per_exec limits)%N
         || (8 * 1024 * 1024 <? stdout_live_buffer_bytes limits)%N
         || (8 * 1024 * 1024 <? stderr_live_buffer_bytes limits)%N
         || (128 * 1024 * 1024 <? detached_stdout_log_bytes limits)%N
         || (128 * 1024 * 1024 <? detached_stderr_log_bytes limits)%N
         || (1000 <? long_poll_timeout_ms limits)%N
         || (5 * 60 * 1000 <? slow_consumer_grace_ms limits)%N
         || (256 <? exec_sessions_per_vm limits)%N
         || (64 <? attached_sessions_per_vm limits)%N
         || (512 <? pending_read_output_waits_per_stream limits)%N
         || (512 <? pending_exec_waits_per_vm limits)%N
         || (200 <? rpc_rate_per_connection_per_second limits)%N
         || (1000 <? rpc_rate_per_vm_burst limits)%N
      then Err InvalidCapabilitiesSnapshot else Ok tt
  end.

Definition validate_snapshot (snapshot : CapabilitiesSnapshot) :
    result CapabilitiesSnapshot GuestAuthError :=
  let len := String.length (capabilities_hash snapshot) in
  if bool_decide (len = 0) || bool_decide (MAX_CAPABILITIES_HASH_LEN < len)
  then Err InvalidCapabilitiesSnapshot
  else match validate_health (health snapshot) with
       | Err e => Err e
       | Ok _ =>
           match validate_capabilities (capabilities snapshot) with
           | Err e => Err e
           | Ok _ => Ok snapshot
           end
       end.

(** *** Challenges *)

Record PendingChallenge := mkPendingChallenge {
  ch_context : AuthConnectionContext;
  ch_host_nonce : bytes;
  ch_guest_nonce : bytes;
  ch_guest_boot_id : string;
  ch_issued_at_ms : N
}.

Definition remove_expired (now_ms ttl_ms : N) (challenges : list PendingChallenge) :
    list PendingChallenge :=
  List.filter (fun c => (now_ms - ch_issued_at_ms c <=? ttl_ms)%N) challenges.

Definition insert_challenge (challenge : PendingChallenge) (capacity : nat)
    (challenges : list PendingChallenge) : result (list PendingChallenge) GuestAuthError :=
  if bool_decide (capacity <= length challenges) then Err ChallengeCapacityExceeded
  else Ok (challenges ++ [challenge]).

Definition same_challenge (connection_instance guest_nonce : bytes) (c : PendingChallenge) : bool :=
  bool_decide (cx_connection_instance (ch_context c) = connection_instance)
  && bool_decide (ch_guest_nonce c = guest_nonce).

(** [position] and [remove]: the first match and the others in order. *)
Fixpoint consume (connection_instance guest_nonce : bytes) (challenges : list PendingChallenge) :
    option (PendingChallenge * list PendingChallenge) :=
  match challenges with
  | [] => None
  | c :: rest =>
      if same_challenge connection_instance guest_nonce c then Some (c, rest)
      else '(found, rest) ← consume connection_instance guest_nonce rest; Some (found, c :: rest)
  end.

Definition drop_connection (connection_instance : bytes) (challenges : list PendingChallenge) :
    list PendingChallenge :=
  List.filter (fun c => negb (bool_decide (cx_connection_instance (ch_context c)
                                           = connection_instance))) challenges.

(** *** The core, with the token, the store and the clock it is built with *)

Record GuestAuthCore := mkGuestAuthCore {
  secret : bytes;
  challenges : list PendingChallenge;
  challenge_ttl_ms : N;
  challenge_capacity : nat;
  authenticated_connections : gset AuthConnectionContext
}.

(** What the random source, the boot-id source, the clock and the
    capabilities provider answer during one call. *)
Record Env := mkEnv {
  env_nonce : result bytes GuestAuthError;
  env_boot_id : result string GuestAuthError;
  env_now_ms : N;
  env_snapshot : result CapabilitiesSnapshot GuestAuthError
}.

Definition new (secret : bytes) : GuestAuthCore :=
  mkGuestAuthCore secret [] DEFAULT_CHALLENGE_TTL_MS DEFAULT_CHALLENGE_CAPACITY ∅.

Definition with_limits (ttl : N) (capacity : nat) (self : GuestAuthCore) : GuestAuthCore :=
  mkGuestAuthCore (secret self) (challenges self) ttl capacity (authenticated_connections self).

Definition set_challenges (cs : list PendingChallenge) (self : GuestAuthCore) : GuestAuthCore :=
  mkGuestAuthCore (secret self) cs (challenge_ttl_ms self) (challenge_capacity self)
    (authenticated_connections self).

Definition set_authenticated (f : gset AuthConnectionContext -> gset AuthConnectionContext)
    (self : GuestAuthCore) : GuestAuthCore :=
  mkGuestAuthCore (secret self) (challenges self) (challenge_ttl_ms self)
    (challenge_capacity self) (f (authenticated_connections self)).

Local Open Scope rust_scope.
Definition op (A : Type) : Type := handler GuestAuthCore GuestAuthError A.

Definition hello (context : AuthConnectionContext) (request : HelloRequest) (env : Env) :
    op HelloResponse :=
  h_lift (validate_context_and_metadata context (hr_metadata request)) ?;
  h_reject (bool_decide (hr_transcript_version request <> AUTH_TRANSCRIPT_VERSION))
    TranscriptVersionMismatch ?;
  let? host_nonce := h_lift (fixed_nonce (hr_host_nonce request)) in
  let? guest_nonce := h_lift (env_nonce env) in
  let? guest_boot_id := h_lift (env_boot_id env) in
  let now_ms := env_now_ms env in
  h_modify (fun self => set_challenges
    (remove_expired now_ms (challenge_ttl_ms self) (challenges self)) self) ?;
  let? self := h_get in
  let? cs := h_lift (insert_challenge
    (mkPendingChallenge context host_nonce guest_nonce guest_boot_id now_ms)
    (challenge_capacity self) (challenges self)) in
  h_modify (set_challenges cs) ?;
  h_ret (mkHelloResponse guest_nonce guest_boot_id (cx_protocol_version context)).

Section authentication.
Context `{Hmac}.

Definition verify_tag (secret transcript tag : bytes) : result unit GuestAuthError :=
  if bool_decide (hmac_sha256 secret transcript = tag) then Ok tt else Err MacRejected.

Definition sign_tag (secret transcript : bytes) : bytes := hmac_sha256 secret transcript.

Definition authenticate (context : AuthConnectionContext) (request : AuthenticateRequest)
    (env : Env) : op AuthenticateResponse :=
  h_lift (validate_context_and_metadata context (aq_metadata request)) ?;
  h_reject (bool_decide (aq_transcript_version request <> AUTH_TRANSCRIPT_VERSION))
    TranscriptVersionMismatch ?;
  let? host_nonce := h_lift (fixed_nonce (aq_host_nonce request)) in
  let? guest_nonce := h_lift (fixed_nonce (aq_guest_nonce request)) in
  let? host_tag := h_lift (fixed_tag (aq_host_auth_tag request)) in
  let? self := h_get in
  match consume (cx_connection_instance context) guest_nonce (challenges self) with
  | None => h_throw ChallengeNotFound
  | Some (challenge, rest) =>
      h_modify (set_challenges rest) ?;
      h_reject (challenge_ttl_ms self <? env_now_ms env - ch_issued_at_ms challenge)%N
        ChallengeExpired ?;
      h_reject (bool_decide (ch_context challenge <> context)
                || bool_decide (ch_host_nonce challenge <> host_nonce)) ChallengeMismatch ?;
      h_reject (bool_decide (ch_guest_boot_id challenge <> aq_guest_boot_id request))
        BootIdMismatch ?;
      let host_transcript := encode_transcript Host context host_nonce guest_nonce
        (aq_guest_boot_id request) None in
      h_lift (verify_tag (secret self) host_transcript host_tag) ?;
      let? snapshot := h_lift (env_snapshot env) in
      let? snapshot := h_lift (validate_snapshot snapshot) in
      let guest_transcript := encode_transcript Guest context host_nonce guest_nonce
        (aq_guest_boot_id request) (Some (chars (capabilities_hash snapshot))) in
      let guest_tag := sign_tag (secret self) guest_transcript in
      h_modify (set_authenticated (fun s => {[context]} ∪ s)) ?;
      h_ret (mkAuthenticateResponse (Some guest_tag) (Some (capabilities_hash snapshot))
               (Some (health snapshot)) (Some (capabilities snapshot)) false)
  end.

Definition require_authenticated (context : AuthConnectionContext) (self : GuestAuthCore) :
    result unit GuestAuthError :=
  if bool_decide (context ∈ authenticated_connections self) then Ok tt else Err Unauthenticated.

(** [health] and [capabilities] read the same validated snapshot. *)
Definition get_snapshot (context : AuthConnectionContext) (env : Env) (self : GuestAuthCore) :
    result CapabilitiesSnapshot GuestAuthError :=
  match require_authenticated context self with
  | Err e => Err e
  | Ok _ =>
      match env_snapshot env with
      | Err e => Err e
      | Ok snapshot => validate_snapshot snapshot
      end
  end.

Definition get_health (context : AuthConnectionContext) (env : Env) (self : GuestAuthCore) :
    result HealthResponse GuestAuthError :=
  match get_snapshot context env self with Ok s => Ok (health s) | Err e => Err e end.

Definition get_capabilities (context : AuthConnectionContext) (env : Env) (self : GuestAuthCore) :
    result CapabilitiesResponse GuestAuthError :=
  match get_snapshot context env self with Ok s => Ok (capabilities s) | Err e => Err e end.

Definition close_connection (context : AuthConnectionContext) (self : GuestAuthCore) :
    GuestAuthCore :=
  set_authenticated (fun s => s ∖ {[context]})
    (set_challenges (drop_connection (cx_connection_instance context) (challenges self)) self).

(** *** Histories of calls on one core *)

Inductive event : Type :=
| EHello (context : AuthConnectionContext) (request : HelloRequest) (env : Env)
| EAuthenticate (context : AuthConnectionContext) (request : AuthenticateRequest) (env : Env)
| EClose (context : AuthConnectionContext).

Inductive output : Type :=
| OHello (r : result HelloResponse GuestAuthError)
| OAuthenticate (r : result AuthenticateResponse GuestAuthError)
| OClosed.

Definition step (ev : event) (s : GuestAuthCore) : output * GuestAuthCore :=
  match ev with
  | EHello context request env => prod_map OHello id (hello context request env s)
  | EAuthenticate context request env =>
      prod_map OAuthenticate id (authenticate context request env s)
  | EClose context => (OClosed, close_connection context s)
  end.

Definition final (evs : list event) (s : GuestAuthCore) : GuestAuthCore :=
  foldl (fun s ev => (step ev s).2) s evs.

Fixpoint history (evs : list event) (s : GuestAuthCore) : list (event * output) :=
  match evs with
  | [] => []
  | ev :: evs => (ev, (step ev s).1) :: history evs (step ev s).2
  end.

Lemma history_snoc evs ev s :
  history (evs ++ [ev]) s = history evs s ++ [(ev, (step ev (final evs s)).1)].
Proof. revert s. induction evs as [|e evs IH]; intros s; simpl; [done|]. by rewrite IH. Qed.

Lemma final_snoc evs ev s : final (evs ++ [ev]) s = (step ev (final evs s)).2.
Proof. unfold final. by rewrite foldl_app. Qed.

(** *** What the calls do to the store *)

Lemma consume_some i n l c rest :
  consume i n l = Some (c, rest) ->
  exists l1 l2, l = l1 ++ c :: l2 /\ rest = l1 ++ l2 /\ same_challenge i n c = true.
Proof.
  revert rest. induction l as [|x l IH]; intros rest; simpl; [done|].
  destruct (same_challenge i n x) eqn:Hx.
  - intros [= <- <-]. by exists [], l.
  - destruct (consume i n l) as [[c' rest']|]; simpl; [|done]. intros [= <- <-].
    destruct (IH rest' eq_refl) as (l1 & l2 & -> & -> & Hc). by exists (x :: l1), l2.
Qed.

Lemma filter_sublist {A} (f : A -> bool) l : List.filter f l `sublist_of` l.
Proof. induction l as [|x l IH]; [done|]. simpl. case_match; by constructor. Qed.

Lemma elem_of_sublist {A} (x : A) l k : l `sublist_of` k -> x ∈ l -> x ∈ k.
Proof. intros Hs%sublist_submseteq Hx. by eapply elem_of_submseteq. Qed.

(** The same core with other challenges. *)
Definition same_but_challenges (s s' : GuestAuthCore) : Prop :=
  s' = set_challenges (challenges s') s.

Lemma hello_cases context request env s :
  (exists e s', hello context request env s = (Err e, s') /\ same_but_challenges s s'
     /\ challenges s' `sublist_of` challenges s)
  \/ exists n b, hello context request env s =
       (Ok (mkHelloResponse n b (cx_protocol_version context)),
        set_challenges
          (remove_expired (env_now_ms env) (challenge_ttl_ms s) (challenges s)
           ++ [mkPendingChallenge context (hr_host_nonce request) n b (env_now_ms env)]) s)
     /\ length (remove_expired (env_now_ms env) (challenge_ttl_ms s) (challenges s))
        < challenge_capacity s.
Proof.
  assert (same_but_challenges s s) as Hs by (by destruct s).
  assert (remove_expired (env_now_ms env) (challenge_ttl_ms s) (challenges s)
            `sublist_of` challenges s) as Hsub by apply filter_sublist.
  unfold hello. unfold_handler.
  destruct (validate_context_and_metadata _ _) as [[]|e]; [|left; by eexists _, _].
  case_bool_decide; [left; by eexists _, _|].
  unfold fixed_nonce. case_bool_decide; [left; by eexists _, _|].
  destruct (env_nonce env) as [n|e]; [|left; by eexists _, _].
  destruct (env_boot_id env) as [b|e]; [|left; by eexists _, _].
  unfold insert_challenge. simpl. case_bool_decide as Hcap; [left; by eexists _, _|].
  right. exists n, b. split; [done|lia].
Qed.

Lemma authenticate_cases context request env s :
  (exists e, authenticate context request env s = (Err e, s))
  \/ exists c rest, consume (cx_connection_instance context) (aq_guest_nonce request) (challenges s)
                    = Some (c, rest)
     /\ ((exists e, authenticate context request env s = (Err e, set_challenges rest s))
         \/ exists res hash, authenticate context request env s =
              (Ok res, set_authenticated (fun a => {[context]} ∪ a) (set_challenges rest s))
            /\ ch_context c = context /\ ch_host_nonce c = aq_host_nonce request
            /\ ch_guest_boot_id c = aq_guest_boot_id request
            /\ (env_now_ms env - ch_issued_at_ms c <= challenge_ttl_ms s)%N
            /\ hmac_sha256 (secret s) (encode_transcript Host context (aq_host_nonce request)
                 (aq_guest_nonce request) (aq_guest_boot_id request) None)
               = aq_host_auth_tag request
            /\ as_capabilities_hash res = Some hash
            /\ as_guest_auth_tag res = Some (hmac_sha256 (secret s)
                 (encode_transcript Guest context (aq_host_nonce request)
                    (aq_guest_nonce request) (aq_guest_boot_id request) (Some (chars hash))))).
Proof.
  unfold authenticate. unfold_handler.
  destruct (validate_context_and_metadata _ _) as [[]|e]; [|left; by eexists].
  case_bool_decide; [left; by eexists|].
  unfold fixed_nonce, fixed_tag. do 3 (case_bool_decide; [left; by eexists|]).
  destruct (consume _ _ _) as [[c rest]|] eqn:Hc; [|left; by eexists].
  right. exists c, rest. split; [done|].
  destruct (_ <? _)%N eqn:Httl; [left; by eexists|]. apply N.ltb_ge in Httl.
  case_bool_decide as Hctx; simpl; [left; by eexists|]. case_bool_decide as Hhn; [left; by eexists|].
  case_bool_decide as Hb; [left; by eexists|].
  unfold verify_tag. case_bool_decide as Hmac; [|left; by eexists].
  destruct (env_snapshot env) as [snap|]; [|left; by eexists].
  destruct (validate_snapshot snap) as [snap'|]; [|left; by eexists].
  right. eexists _, (capabilities_hash snap'). by repeat split.
Qed.

(** *** Where challenges and authentications come from *)

Definition issued (h : list (event * output)) (c : PendingChallenge) : Prop :=
  exists request env res,
    (EHello (ch_context c) request env, OHello (Ok res)) ∈ h
    /\ ch_host_nonce c = hr_host_nonce request /\ ch_guest_nonce c = hs_guest_nonce res
    /\ ch_guest_boot_id c = hs_guest_boot_id res /\ ch_issued_at_ms c = env_now_ms env.

(** The proof behind an authenticated connection: a hello on it, answered
    not longer than the lifetime before the authentication, whose nonces and
    boot id the host's tag covers, and no close since. *)
Definition proven (key : bytes) (ttl : N) (h : list (event * output))
    (context : AuthConnectionContext) : Prop :=
  exists h1 h2 request env res hrequest henv hres hash,
    h = h1 ++ (EAuthenticate context request env, OAuthenticate (Ok res)) :: h2
    /\ (forall o, ~ (EClose context, o) ∈ h2)
    /\ (EHello context hrequest henv, OHello (Ok hres)) ∈ h1
    /\ hr_host_nonce hrequest = aq_host_nonce request
    /\ hs_guest_nonce hres = aq_guest_nonce request
    /\ hs_guest_boot_id hres = aq_guest_boot_id request
    /\ (env_now_ms env - env_now_ms henv <= ttl)%N
    /\ aq_host_auth_tag request = hmac_sha256 key
         (encode_transcript Host context (aq_host_nonce request) (aq_guest_nonce request)
            (aq_guest_boot_id request) None)
    /\ as_capabilities_hash res = Some hash
    /\ as_guest_auth_tag res = Some (hmac_sha256 key
         (encode_transcript Guest context (aq_host_nonce request) (aq_guest_nonce request)
            (aq_guest_boot_id request) (Some (chars hash)))).

(** A hello that put a challenge on the connection with the nonce, and an
    authentication that used one. *)
Definition hellos (i n : bytes) (x : event * output) : bool :=
  match x with
  | (EHello context _ _, OHello (Ok res)) =>
      bool_decide (cx_connection_instance context = i) && bool_decide (hs_guest_nonce res = n)
  | _ => false
  end.

Definition uses (i n : bytes) (x : event * output) : bool :=
  match x with
  | (EAuthenticate context request _, OAuthenticate (Ok _)) =>
      bool_decide (cx_connection_instance context = i)
      && bool_decide (aq_guest_nonce request = n)
  | _ => false
  end.

Definition count {A} (f : A -> bool) (l : list A) : nat := length (List.filter f l).

Lemma count_app {A} (f : A -> bool) l k : count f (l ++ k) = count f l + count f k.
Proof. unfold count. by rewrite List.filter_app, length_app. Qed.

Lemma count_cons {A} (f : A -> bool) x l : count f (x :: l) = (if f x then 1 else 0) + count f l.
Proof. unfold count. simpl. by destruct (f x). Qed.

Lemma count_nil {A} (f : A -> bool) : count f [] = 0.
Proof. done. Qed.

Lemma count_sublist {A} (f : A -> bool) l k : l `sublist_of` k -> count f l <= count f k.
Proof.
  unfold count. induction 1 as [|x l k _ IH|x l k _ IH]; simpl; [done|..];
    destruct (f x); simpl; lia.
Qed.

Record core_inv (key : bytes) (ttl : N) (cap : nat) (h : list (event * output))
    (s : GuestAuthCore) : Prop := mkCoreInv {
  inv_secret : secret s = key;
  inv_ttl : challenge_ttl_ms s = ttl;
  inv_cap : challenge_capacity s = cap;
  inv_bounded : length (challenges s) <= cap;
  inv_issued : forall c, c ∈ challenges s -> issued h c;
  inv_proven : forall context, context ∈ authenticated_connections s -> proven key ttl h context;
  inv_single : forall i n, count (uses i n) h + count (same_challenge i n) (challenges s)
                           <= count (hellos i n) h
}.

Lemma issued_more h x c : issued h c -> issued (h ++ [x]) c.
Proof. intros (request & env & res & Hin & Hrest). exists request, env, res. set_solver. Qed.

Lemma proven_more key ttl h x context :
  (forall o, x <> (EClose context, o)) -> proven key ttl h context ->
  proven key ttl (h ++ [x]) context.
Proof.
  intros Hx (h1 & h2 & request & env & res & hreq & henv & hres & hash & -> & Hc & Hrest).
  exists h1, (h2 ++ [x]), request, env, res, hreq, henv, hres, hash. split.
  - by rewrite <- app_assoc.
  - split; [|exact Hrest]. intros o. rewrite elem_of_app, list_elem_of_singleton.
    intros [Hin|Heq]; [by eapply Hc|by eapply Hx].
Qed.

(** A call that neither authenticates nor closes and only loses challenges. *)
Lemma inv_lose key ttl cap h s x s' :
  core_inv key ttl cap h s -> same_but_challenges s s' -> challenges s' `sublist_of` challenges s ->
  (forall context o, x <> (EClose context, o)) ->
  (forall i n, uses i n x = false) -> core_inv key ttl cap (h ++ [x]) s'.
Proof.
  intros [] Hs Hsub Hx Huse. rewrite Hs. split; simpl; try done.
  - apply sublist_length in Hsub. lia.
  - intros c Hc. apply issued_more, inv_issued0. by eapply elem_of_sublist.
  - intros context Hc. by apply proven_more, inv_proven0.
  - intros i n. rewrite !count_app. pose proof (count_sublist (same_challenge i n) _ _ Hsub).
    specialize (inv_single0 i n). rewrite !count_cons, !count_nil, Huse. lia.
Qed.

Lemma hello_inv key ttl cap h s context request env :
  core_inv key ttl cap h s ->
  core_inv key ttl cap (h ++ [(EHello context request env, (step (EHello context request env) s).1)])
    (step (EHello context request env) s).2.
Proof.
  intros Hinv. simpl.
  destruct (hello_cases context request env s) as [(e & s' & -> & Hs & Hsub)|(n & b & -> & Hlen)].
  { by apply (inv_lose _ _ _ _ s). }
  simpl. set (c := mkPendingChallenge _ _ _ _ _).
  set (old := remove_expired _ _ _) in *. set (x := (EHello context request env, _)).
  assert (core_inv key ttl cap (h ++ [x]) (set_challenges old s)) as [].
  { apply (inv_lose _ _ _ _ s); try done. apply filter_sublist. }
  split; simpl in *; try done.
  - rewrite length_app. simpl. pose proof (inv_cap _ _ _ _ _ Hinv). lia.
  - intros c'. rewrite elem_of_app, list_elem_of_singleton. intros [Hc| ->]; [auto|].
    exists request, env, (mkHelloResponse n b (cx_protocol_version context)).
    split; [|done]. apply elem_of_app. right. by apply list_elem_of_singleton.
  - intros i m. specialize (inv_single0 i m). revert inv_single0.
    rewrite !count_app. pose proof (inv_single _ _ _ _ _ Hinv i m) as Hold.
    assert (count (same_challenge i m) old <= count (same_challenge i m) (challenges s))
      by (apply count_sublist, filter_sublist).
    rewrite !count_cons, !count_nil. unfold same_challenge at 3, hellos at 2 4, uses at 2 4. simpl.
    destruct (bool_decide _ && bool_decide _); simpl; lia.
Qed.

Lemma authenticate_inv key ttl cap h s context request env :
  core_inv key ttl cap h s ->
  core_inv key ttl cap
    (h ++ [(EAuthenticate context request env, (step (EAuthenticate context request env) s).1)])
    (step (EAuthenticate context request env) s).2.
Proof.
  intros Hinv. simpl.
  destruct (authenticate_cases context request env s)
    as [(e & ->)|(c & rest & Hcon & Hcase)].
  { apply (inv_lose _ _ _ _ s); try done. by destruct s. }
  pose proof Hcon as (l1 & l2 & Hl & -> & Hsame)%consume_some.
  assert (l1 ++ l2 `sublist_of` challenges s) as Hsub.
  { rewrite Hl. apply sublist_app; [done|]. by constructor. }
  destruct Hcase as [(e & ->)|(res & hash & -> & Hctx & Hhn & Hb & Hold & Hmac & Hhash & Htag)].
  { by apply (inv_lose _ _ _ _ s). }
  simpl. set (x := (EAuthenticate context request env, _)). destruct Hinv.
  assert (c ∈ challenges s) as Hc by (rewrite Hl; set_solver).
  apply andb_true_iff in Hsame as [Hi Hn]. apply bool_decide_eq_true in Hi, Hn.
  split; simpl; try done.
  - apply sublist_length in Hsub. lia.
  - intros c' Hc'. apply issued_more, inv_issued0. by eapply elem_of_sublist.
  - intros context'. rewrite elem_of_union, elem_of_singleton. intros [->|Hold'].
    + destruct (inv_issued0 c Hc) as (hreq & henv & hres & Hin & H1 & H2 & H3 & H4).
      exists h, [], request, env, res, hreq, henv, hres, hash.
      split; [done|]. split; [intros o Ho; by apply elem_of_nil in Ho|].
      rewrite Hctx in Hin. split; [done|]. repeat split; try congruence.
    + by apply proven_more, inv_proven0.
  - intros i n. rewrite !count_app. specialize (inv_single0 i n).
    rewrite Hl, count_app, count_cons in inv_single0. revert inv_single0.
    rewrite !count_cons, !count_nil. unfold same_challenge at 2. rewrite Hi, Hn. simpl.
    destruct (bool_decide (cx_connection_instance context = i) && _); simpl; lia.
Qed.

Lemma close_inv key ttl cap h s context :
  core_inv key ttl cap h s ->
  core_inv key ttl cap (h ++ [(EClose context, OClosed)]) (close_connection context s).
Proof.
  intros [].
  assert (drop_connection (cx_connection_instance context) (challenges s)
    `sublist_of` challenges s) as Hsub by apply filter_sublist.
  split; simpl; try done.
  - apply sublist_length in Hsub. lia.
  - intros c Hc. apply issued_more, inv_issued0. by eapply elem_of_sublist.
  - intros context'. rewrite elem_of_difference, elem_of_singleton. intros [Hin Hne].
    apply proven_more; [|by apply inv_proven0]. intros o [= ->]. done.
  - intros i n. rewrite !count_app. pose proof (count_sublist (same_challenge i n) _ _ Hsub).
    specialize (inv_single0 i n). rewrite !count_cons, !count_nil. simpl. lia.
Qed.

Lemma core_inv_final key evs :
  core_inv key DEFAULT_CHALLENGE_TTL_MS DEFAULT_CHALLENGE_CAPACITY (history evs (new key))
    (final evs (new key)).
Proof.
  induction evs as [|ev evs IH] using rev_ind.
  - split; simpl; try done; try lia; intros c Hc; set_solver.
  - rewrite history_snoc, final_snoc.
    destruct ev; [by apply hello_inv|by apply authenticate_inv|by apply close_inv].
Qed.

(** C16. Whatever calls a guest core receives: a connection counts as
    authenticated only if a hello on it was followed, within the challenge's
    lifetime and with no close since, by a request with the right tag over
    both nonces and the boot id of that hello; no challenge serves two
    authentications; the store stays within its capacity; and health and
    capabilities are refused to any other connection. *)
Theorem authenticated_only_by_proof key evs :
  let s := final evs (new key) in
  let h := history evs (new key) in
  (forall context, context ∈ authenticated_connections s ->
     proven key DEFAULT_CHALLENGE_TTL_MS h context)
  /\ (forall i n, count (uses i n) h <= count (hellos i n) h)
  /\ length (challenges s) <= DEFAULT_CHALLENGE_CAPACITY
  /\ (forall context env, ~ context ∈ authenticated_connections s ->
       get_health context env s = Err Unauthenticated
       /\ get_capabilities context env s = Err Unauthenticated).
Proof.
  intros s h. destruct (core_inv_final key evs) as [_ _ _ Hb _ Hp Hs].
  split; [exact Hp|]. split; [intros i n; specialize (Hs i n); fold h in Hs; lia|].
  split; [exact Hb|]. intros context env Hc.
  unfold get_health, get_capabilities, get_snapshot, require_authenticated.
  by rewrite bool_decide_eq_false_2.
Qed.
End authentication.
End GuestCore.

(** ** The broker ([handle_guest_control_sign]) *)

Module Broker.
Import Transcript GuestCore.

Inductive GuestControlProofRole : Set := HostProof | GuestProof.

Record GuestControlSignRequest := mkGuestControlSignRequest {
  sq_vm_id : string;
  sq_role : GuestControlProofRole;
  sq_protocol_version : N;
  sq_direction : AuthDirection;
  sq_purpose : AuthPurpose;
  sq_guest_control_port : N;
  sq_peer_cid : option N;
  sq_host_nonce : bytes;
  sq_guest_nonce : bytes;
  sq_guest_boot_id : string;
  sq_capabilities_hash : option string
}.

Inductive BrokerError : Set :=
| GuestControlSignRefused (reason : string)
| BundleResolverUnavailable.

Definition validate_shape (self : GuestControlSignRequest) : result unit string :=
  if bool_decide (length (sq_host_nonce self) <> AUTH_NONCE_LEN)
     || bool_decide (length (sq_guest_nonce self) <> AUTH_NONCE_LEN)
  then Err "nonce-length"%string
  else if bool_decide (sq_guest_boot_id self = ""%string)
          || bool_decide (128 < String.length (sq_guest_boot_id self))
  then Err "guest-boot-id"%string
  else match sq_role self, sq_capabilities_hash self with
       | HostProof, Some _ => Err "host-proof-capabilities-hash"%string
       | HostProof, None => Ok tt
       | GuestProof, None => Err "guest-proof-missing-capabilities-hash"%string
       | GuestProof, Some hash =>
           if bool_decide (hash = ""%string) || bool_decide (128 < String.length hash)
           then Err "capabilities-hash"%string else Ok tt
       end.

(** The transcript that is signed. *)
Definition request_transcript (req : GuestControlSignRequest) : GuestAuthTranscript :=
  mkGuestAuthTranscript (match sq_role req with HostProof => Host | GuestProof => Guest end)
    HostToGuest GuestControlAuthV1 (sq_vm_id req) (sq_protocol_version req)
    (sq_guest_control_port req) (sq_peer_cid req) (sq_host_nonce req) (sq_guest_nonce req)
    (sq_guest_boot_id req) (chars <$> sq_capabilities_hash req).

Definition guest_control_transcript (req : GuestControlSignRequest) : result bytes BrokerError :=
  match validate_shape req with
  | Err reason => Err (GuestControlSignRefused reason)
  | Ok _ =>
      if bool_decide (sq_protocol_version req <> GUEST_CONTROL_PROTOCOL_VERSION)
         || bool_decide (sq_guest_control_port req <> GUEST_CONTROL_AUTH_PORT)
      then Err (GuestControlSignRefused "protocol-or-port")
      else if bool_decide (length (sq_host_nonce req) <> AUTH_NONCE_LEN)
      then Err (GuestControlSignRefused "host-nonce-length")
      else if bool_decide (length (sq_guest_nonce req) <> AUTH_NONCE_LEN)
      then Err (GuestControlSignRefused "guest-nonce-length")
      else Ok (Transcript.encode_transcript (request_transcript req))
  end.

(** [find_manifest_vm] is what the bundle resolver, when there is one, knows;
    [read_guest_control_token] reads the VM's token file. *)
Definition handle_guest_control_sign `{Hmac} (find_manifest_vm : option (string -> bool))
    (read_guest_control_token : string -> result bytes BrokerError)
    (req : GuestControlSignRequest) : result bytes BrokerError :=
  match validate_shape req with
  | Err reason => Err (GuestControlSignRefused reason)
  | Ok _ =>
      match find_manifest_vm with
      | None => Err BundleResolverUnavailable
      | Some known =>
          if negb (known (sq_vm_id req)) then Err (GuestControlSignRefused "vm-not-in-bundle")
          else match guest_control_transcript req with
               | Err e => Err e
               | Ok transcript =>
                   match read_guest_control_token (sq_vm_id req) with
                   | Err e => Err e
                   | Ok token => Ok (hmac_sha256 token transcript)
                   end
               end
      end
  end.
End Broker.

(** ** The host daemon ([guest_control_health.rs]) *)

Module Probe.
Import Transcript Proto GuestCore Broker.

Inductive GuestControlHealthError : Set :=
| TransportIo | Ttrpc | Signer | Protocol | AuthFailed | StaleSession | Timeout.

Record GuestControlHealthEvidence := mkGuestControlHealthEvidence {
  ev_vm_id : string;
  ev_guest_boot_id : string;
  ev_protocol_version : N;
  ev_capabilities_hash : string;
  ev_health : HealthResponse
}.

Definition request_metadata (vm_id : string) : RequestMetadata :=
  mkRequestMetadata vm_id "guest-health-probe" GUEST_CONTROL_PROTOCOL_VERSION.

Definition sign_request (vm_id : string) (role : GuestControlProofRole) (peer_cid : option N)
    (host_nonce guest_nonce : bytes) (guest_boot_id : string) (capabilities_hash : option string) :
    GuestControlSignRequest :=
  mkGuestControlSignRequest vm_id role GUEST_CONTROL_PROTOCOL_VERSION HostToGuest
    GuestControlAuthV1 GUEST_CONTROL_AUTH_PORT peer_cid host_nonce guest_nonce guest_boot_id
    capabilities_hash.

Definition validate_health_evidence (health : HealthResponse) :
    result unit GuestControlHealthError :=
  match h_origin health, h_state health, h_reason health, h_remediation health with
  | Known origin, Known state, Known reason, Known remediation =>
      if bool_decide (origin <> HEALTH_ORIGIN_GUEST_REPORTED)
         || bool_decide (h_protocol_version health <> GUEST_CONTROL_PROTOCOL_VERSION)
      then Err Protocol
      else if bool_decide (32 < length (h_capabilities health))
              || bool_decide (16 < length (h_degraded_subsystems health))
              || existsb (fun c => negb (specified GUEST_CAPABILITY_UNSPECIFIED c))
                   (h_capabilities health)
              || existsb (fun s => negb (specified GUEST_SUBSYSTEM_UNSPECIFIED s))
                   (h_degraded_subsystems health)
      then Err Protocol
      else if state_valid state reason remediation (length (h_degraded_subsystems health))
      then Ok tt else Err Protocol
  | _, _, _, _ => Err Protocol
  end.

Definition guest_control_health_ready
    (outcome : result GuestControlHealthEvidence GuestControlHealthError) : bool :=
  match outcome with
  | Ok evidence =>
      match h_state (ev_health evidence) with
      | Known HEALTH_STATE_HEALTHY | Known HEALTH_STATE_DEGRADED => true
      | _ => false
      end
  | Err _ => false
  end.

(** [GuestControlRpc] as far as the probe uses it: each call is made once, so
    what the other end does is three functions. *)
Record Rpc := mkRpc {
  rpc_hello : HelloRequest -> result HelloResponse GuestControlHealthError;
  rpc_authenticate : AuthenticateRequest -> result AuthenticateResponse GuestControlHealthError;
  rpc_health : RequestMetadata -> result HealthResponse GuestControlHealthError
}.

Definition hello_request (vm_id : string) (host_nonce : bytes) : HelloRequest :=
  mkHelloRequest (Some (request_metadata vm_id)) host_nonce AUTH_TRANSCRIPT_VERSION.

Definition auth_request (vm_id : string) (host_nonce : bytes) (hello : HelloResponse)
    (host_tag : bytes) : AuthenticateRequest :=
  mkAuthenticateRequest (Some (request_metadata vm_id)) host_nonce (hs_guest_nonce hello)
    (hs_guest_boot_id hello) AUTH_TRANSCRIPT_VERSION host_tag.

Definition probe_guest_control_health (vm_id : string) (peer_cid : option N) (host_nonce : bytes)
    (client : Rpc) (sign : GuestControlSignRequest -> result bytes GuestControlHealthError) :
    result GuestControlHealthEvidence GuestControlHealthError :=
  r_bind (rpc_hello client (hello_request vm_id host_nonce)) (fun hello =>
  if bool_decide (hs_protocol_version hello <> GUEST_CONTROL_PROTOCOL_VERSION)
     || bool_decide (length (hs_guest_nonce hello) <> AUTH_NONCE_LEN)
     || bool_decide (hs_guest_boot_id hello = ""%string)
     || bool_decide (128 < String.length (hs_guest_boot_id hello))
  then Err Protocol
  else
  r_bind (sign (sign_request vm_id HostProof peer_cid host_nonce (hs_guest_nonce hello)
                  (hs_guest_boot_id hello) None)) (fun host_tag =>
  if bool_decide (length host_tag <> AUTH_TAG_LEN) then Err Signer
  else
  r_bind (rpc_authenticate client (auth_request vm_id host_nonce hello host_tag)) (fun auth =>
  if as_has_error auth then Err AuthFailed
  else match as_guest_auth_tag auth with
  | None => Err AuthFailed
  | Some guest_tag =>
      match as_capabilities_hash auth with
      | None => Err Protocol
      | Some capabilities_hash =>
          r_bind (sign (sign_request vm_id GuestProof peer_cid host_nonce (hs_guest_nonce hello)
                          (hs_guest_boot_id hello) (Some capabilities_hash)))
            (fun expected_guest_tag =>
          if bool_decide (length guest_tag <> AUTH_TAG_LEN)
             || bool_decide (length expected_guest_tag <> AUTH_TAG_LEN)
          then Err AuthFailed
          else if negb (bool_decide (guest_tag = expected_guest_tag)) then Err AuthFailed
          else
          r_bind (rpc_health client (request_metadata vm_id)) (fun health =>
          r_bind (validate_health_evidence health) (fun _ =>
          Ok (mkGuestControlHealthEvidence vm_id (hs_guest_boot_id hello)
                (hs_protocol_version hello) capabilities_hash health))))
      end
  end))).
End Probe.

(** ** The three programs together *)

Module Handshake.
Import Transcript Proto GuestCore Broker Probe.

Section handshake.
Context `{HmacLaws}.

(** Two different messages with one tag. *)
Definition collision (key a b : bytes) : Prop :=
  a <> b /\ hmac_sha256 key a = hmac_sha256 key b.

Lemma same_tag key a b : hmac_sha256 key a = hmac_sha256 key b -> a = b \/ collision key a b.
Proof. intros Hab. destruct (decide (a = b)); [auto|]. by right. Qed.

Definition broker (find : option (string -> bool)) (token : string -> result bytes BrokerError)
    (req : GuestControlSignRequest) : result bytes GuestControlHealthError :=
  match handle_guest_control_sign find token req with Ok tag => Ok tag | Err _ => Err Signer end.

(** What the broker signs is the transcript of a well-shaped request. *)
Lemma sign_ok find token req tag :
  handle_guest_control_sign find token req = Ok tag ->
  validate_shape req = Ok tt /\ sq_protocol_version req = GUEST_CONTROL_PROTOCOL_VERSION
  /\ sq_guest_control_port req = GUEST_CONTROL_AUTH_PORT
  /\ exists key, token (sq_vm_id req) = Ok key
       /\ tag = hmac_sha256 key (Transcript.encode_transcript (request_transcript req)).
Proof.
  unfold handle_guest_control_sign, guest_control_transcript.
  destruct (validate_shape req) as [[]|]; [|done]. destruct find as [known|]; [|done].
  destruct (known _); simpl; [|done].
  case_bool_decide as Hv; simpl; [done|]. case_bool_decide as Hp; [done|].
  do 2 (case_bool_decide; [done|]). destruct (token _) as [key|]; [|done].
  intros [= <-]. eauto 10.
Qed.

Lemma shape_ok req :
  validate_shape req = Ok tt ->
  length (sq_host_nonce req) = AUTH_NONCE_LEN /\ length (sq_guest_nonce req) = AUTH_NONCE_LEN
  /\ String.length (sq_guest_boot_id req) <= 128
  /\ (forall hash, sq_capabilities_hash req = Some hash -> String.length hash <= 128).
Proof.
  unfold validate_shape. do 2 (case_bool_decide; simpl; [done|]).
  case_bool_decide; simpl; [done|]. case_bool_decide; [done|].
  intros Hm. repeat split; try done; [lia|]. intros hash Hh. rewrite Hh in Hm.
  destruct (sq_role req); [done|]. case_bool_decide; simpl in *; [done|].
  case_bool_decide; [done|lia].
Qed.

(** The bounds the types of the source give: 32-bit numbers, and names whose
    length fits the 32-bit length field. *)
Definition request_wf (req : GuestControlSignRequest) : Prop :=
  fits_field (chars (sq_vm_id req))
  /\ forall cid, sq_peer_cid req = Some cid -> (cid < 2 ^ 32)%N.

Definition context_wf (context : AuthConnectionContext) : Prop :=
  fits_field (chars (cx_vm_id context)) /\ (cx_peer_cid context < 2 ^ 32)%N.

Lemma short_fits (b : bytes) n : length b <= n -> (N.of_nat n < 2 ^ 32)%N -> fits_field b.
Proof. unfold fits_field. lia. Qed.

Lemma request_transcript_wf find token req tag :
  request_wf req -> handle_guest_control_sign find token req = Ok tag ->
  transcript_wf (request_transcript req).
Proof.
  intros [Hvm Hcid] (Hs & Hv & Hp & _)%sign_ok. apply shape_ok in Hs as (Hh & Hg & Hb & Hc).
  split; simpl; try done.
  - by rewrite Hv.
  - by rewrite Hp.
  - apply (short_fits _ 32); [by rewrite Hh|done].
  - apply (short_fits _ 32); [by rewrite Hg|done].
  - apply (short_fits _ 128); [by rewrite length_chars|done].
  - intros hash (h & Hh' & ->)%fmap_Some. apply (short_fits _ 128); [|done].
    rewrite length_chars. auto.
Qed.

(** What an accepted authentication has checked besides the tag. *)
Lemma authenticate_valid context request env s res s' :
  authenticate context request env s = (Ok res, s') ->
  cx_protocol_version context = GUEST_CONTROL_PROTOCOL_VERSION
  /\ cx_guest_control_port context = GUEST_CONTROL_AUTH_PORT
  /\ length (aq_host_nonce request) = AUTH_NONCE_LEN
  /\ length (aq_guest_nonce request) = AUTH_NONCE_LEN
  /\ forall hash, as_capabilities_hash res = Some hash -> String.length hash <= 128.
Proof.
  unfold authenticate, validate_context_and_metadata, AuthConnectionContext_validate.
  unfold_handler. case_bool_decide; simpl; [done|]. case_bool_decide; simpl; [done|].
  case_bool_decide; [done|]. destruct (aq_metadata request); [|done].
  unfold fixed_nonce, fixed_tag. do 6 (case_bool_decide; [done|]).
  destruct (consume _ _ _) as [[c rest]|]; [|done]. destruct (_ <? _)%N; [done|].
  destruct (_ || _); [done|]. case_bool_decide; [done|].
  destruct (verify_tag _ _ _); [|done]. destruct (env_snapshot env) as [snap|]; [|done].
  destruct (validate_snapshot snap) as [snap'|] eqn:Hsnap; [|done]. intros [= <- _]. simpl.
  repeat split; try done. intros hash [= <-]. unfold validate_snapshot in Hsnap.
  destruct (bool_decide (String.length _ = 0)); simpl in Hsnap; [done|].
  case_bool_decide; [done|]. repeat (case_match; simplify_eq/=). unfold MAX_CAPABILITIES_HASH_LEN in *.
  lia.
Qed.

(** The transcript of the guest, for either role. *)
Definition guest_transcript (role : ProofRole) (context : AuthConnectionContext)
    (request : AuthenticateRequest) (hash : option bytes) : GuestAuthTranscript :=
  mkGuestAuthTranscript role (cx_direction context) (cx_purpose context) (cx_vm_id context)
    (cx_protocol_version context) (cx_guest_control_port context) (Some (cx_peer_cid context))
    (aq_host_nonce request) (aq_guest_nonce request) (aq_guest_boot_id request) hash.

Lemma guest_transcript_wf role context request env s res s' hash :
  context_wf context -> fits_field (chars (aq_guest_boot_id request)) ->
  authenticate context request env s = (Ok res, s') ->
  (forall h, hash = Some h -> fits_field h) ->
  transcript_wf (guest_transcript role context request hash).
Proof.
  intros [Hvm Hcid] Hb (Hv & Hp & Hh & Hg & _)%authenticate_valid Hhash.
  split; simpl; try done.
  - by rewrite Hv.
  - by rewrite Hp.
  - by intros cid [= <-].
  - apply (short_fits _ 32); [by rewrite Hh|done].
  - apply (short_fits _ 32); [by rewrite Hg|done].
Qed.

(** The transcript the broker signed for [req] and another one differ and
    have one tag. *)
Definition transcripts_collide (key : bytes) (req : GuestControlSignRequest)
    (t : GuestAuthTranscript) : Prop :=
  collision key (Transcript.encode_transcript (request_transcript req))
    (Transcript.encode_transcript t).

(** Request and guest agree on the connection and the exchange. *)
Definition agree (req : GuestControlSignRequest) (context : AuthConnectionContext)
    (request : AuthenticateRequest) : Prop :=
  sq_vm_id req = cx_vm_id context /\ sq_peer_cid req = Some (cx_peer_cid context)
  /\ sq_host_nonce req = aq_host_nonce request /\ sq_guest_nonce req = aq_guest_nonce request
  /\ sq_guest_boot_id req = aq_guest_boot_id request.

(** A tag the broker made for [req] that equals the tag of the guest's
    transcript in [role]. *)
Lemma tags_agree find token req tag key role context request env s res s' hash :
  request_wf req -> context_wf context -> fits_field (chars (aq_guest_boot_id request)) ->
  handle_guest_control_sign find token req = Ok tag -> token (sq_vm_id req) = Ok key ->
  authenticate context request env s = (Ok res, s') ->
  (forall h, hash = Some h -> fits_field h) ->
  tag = hmac_sha256 key (Transcript.encode_transcript (guest_transcript role context request hash)) ->
  (sq_role req = match role with Host => HostProof | Guest => GuestProof end
   /\ agree req context request /\ chars <$> sq_capabilities_hash req = hash)
  \/ transcripts_collide key req (guest_transcript role context request hash).
Proof.
  intros Hrw Hcw Hb Hsign Htok Hauth Hhash ->.
  pose proof (request_transcript_wf _ _ _ _ Hrw Hsign) as Hwf1.
  pose proof (guest_transcript_wf role _ _ _ _ _ _ _ Hcw Hb Hauth Hhash) as Hwf2.
  apply sign_ok in Hsign as (_ & _ & _ & key' & Htok' & Htag).
  rewrite Htok in Htok'. injection Htok' as <-.
  destruct (same_tag _ _ _ Htag) as [Heq|[Hne Hcol]]; [left|by right].
  apply transcript_injective in Heq; [|done..].
  unfold guest_transcript, request_transcript in Heq. injection Heq as Hr _ _ ? _ _ ? ? ? ? ?.
  unfold agree. split; [|done]. by destruct role, (sq_role req).
Qed.

(** What a successful probe has seen: the two messages, and a tag that is
    the broker's signature of the guest proof. *)
Lemma probe_ok vm cid host_nonce client sign ev :
  probe_guest_control_health vm cid host_nonce client sign = Ok ev ->
  exists hello host_tag auth tag,
    rpc_hello client (hello_request vm host_nonce) = Ok hello
    /\ rpc_authenticate client (auth_request vm host_nonce hello host_tag) = Ok auth
    /\ as_guest_auth_tag auth = Some tag
    /\ sign (sign_request vm GuestProof cid host_nonce (hs_guest_nonce hello)
               (hs_guest_boot_id hello) (Some (ev_capabilities_hash ev))) = Ok tag
    /\ ev_guest_boot_id ev = hs_guest_boot_id hello.
Proof.
  unfold probe_guest_control_health, r_bind.
  destruct (rpc_hello _ _) as [hello|]; [|done]. destruct (_ || _); [done|].
  destruct (sign _) as [host_tag|]; [|done]. case_bool_decide; [done|].
  destruct (rpc_authenticate _ _) as [auth|] eqn:Hauth; [|done].
  destruct (as_has_error auth); [done|].
  destruct (as_guest_auth_tag auth) as [tag|] eqn:Htag; [|done].
  destruct (as_capabilities_hash auth) as [hash|]; [|done].
  destruct (sign _) as [expected|] eqn:Hsign; [|done]. destruct (_ || _); [done|].
  case_bool_decide as Heq; simpl; [subst|done].
  destruct (rpc_health _ _) as [health|]; [|done]. destruct (validate_health_evidence health); [|done].
  intros [= <-]. exists hello, host_tag, auth, expected. done.
Qed.

(** C8. Let a guest with token [key] accept an authentication.  If its tag was
    made by the broker for this token, the broker had been asked for a host
    proof of exactly this VM, peer, nonces and boot id.  And if the guest's
    answer convinces a probe of [vm], host and guest agree on VM, peer, both
    nonces, boot id and capabilities hash.  The only way out is that the two
    different transcripts signed on the two sides have one tag. *)
Theorem mutual_agreement find token key vm cid host_nonce context request env s res s' :
  token vm = Ok key -> secret s = key -> fits_field (chars vm) ->
  (forall c, cid = Some c -> (c < 2 ^ 32)%N) -> context_wf context ->
  fits_field (chars (aq_guest_boot_id request)) ->
  authenticate context request env s = (Ok res, s') ->
  (forall req, request_wf req -> token (sq_vm_id req) = Ok key ->
     handle_guest_control_sign find token req = Ok (aq_host_auth_tag request) ->
     (sq_role req = HostProof /\ agree req context request)
     \/ transcripts_collide key req (guest_transcript Host context request None))
  /\ (forall client ev,
       probe_guest_control_health vm cid host_nonce client (broker find token) = Ok ev ->
       exists hello host_tag auth,
         rpc_hello client (hello_request vm host_nonce) = Ok hello
         /\ rpc_authenticate client (auth_request vm host_nonce hello host_tag) = Ok auth
         /\ (as_guest_auth_tag auth = as_guest_auth_tag res ->
             (cx_vm_id context = vm /\ cid = Some (cx_peer_cid context)
              /\ aq_host_nonce request = host_nonce
              /\ aq_guest_nonce request = hs_guest_nonce hello
              /\ aq_guest_boot_id request = ev_guest_boot_id ev
              /\ as_capabilities_hash res = Some (ev_capabilities_hash ev))
             \/ transcripts_collide key
                  (sign_request vm GuestProof cid host_nonce (hs_guest_nonce hello)
                     (hs_guest_boot_id hello) (Some (ev_capabilities_hash ev)))
                  (guest_transcript Guest context request
                     (chars <$> as_capabilities_hash res)))).
Proof.
  intros Htok <- Hvm Hcid Hcw Hb Hauth.
  pose proof (authenticate_valid _ _ _ _ _ _ Hauth) as (_ & _ & _ & _ & Hlen).
  destruct (authenticate_cases context request env s) as [(e & He)|(c & rest & _ & Hcase)];
    [congruence|].
  destruct Hcase as [(e & He)|(res' & hash & He & _ & _ & _ & _ & Hmac & Hhash & Htag)];
    [congruence|]. rewrite Hauth in He. injection He as <- _. split.
  - intros req Hrw Htok' Hsign.
    destruct (tags_agree _ _ _ _ _ Host _ _ _ _ _ _ None Hrw Hcw Hb Hsign Htok' Hauth)
      as [(Hr & Ha & _)|?]; [done|symmetry; exact Hmac|left; done|auto].
  - intros client ev (hello & host_tag & auth & tag & Hh & Ha & Ht & Hsign & Hboot)%probe_ok.
    exists hello, host_tag, auth. split; [done|]. split; [done|]. intros Htags.
    unfold broker in Hsign.
    destruct (handle_guest_control_sign find token _) as [tag'|] eqn:Hs; [|done].
    injection Hsign as ->.
    edestruct (tags_agree find token (sign_request vm GuestProof cid host_nonce
      (hs_guest_nonce hello) (hs_guest_boot_id hello) (Some (ev_capabilities_hash ev))) _ _ Guest
      _ _ _ _ _ _ (Some (chars hash)) (conj Hvm Hcid) Hcw Hb Hs Htok Hauth) as [(_ & (H1 & H2 & H3 & H4 & H5) & Hhs)|?]; [| |left|right; by rewrite Hhash].
    + intros h [= <-]. apply (short_fits _ 128); [|done]. rewrite length_chars. auto.
    + rewrite Ht, Htag in Htags. by injection Htags.
    + simpl in *. rewrite Hhash, Hboot. injection Hhs as Hhs%chars_inj. repeat split; congruence.
Qed.

(** ** The honest exchange *)

(** Guest and host check the same things of a health report. *)
Lemma health_checks_agree health :
  is_ok (validate_health health) = is_ok (validate_health_evidence health).
Proof.
  unfold validate_health, validate_health_evidence, MAX_AUTH_HEALTH_CAPABILITIES,
    MAX_AUTH_DEGRADED_SUBSYSTEMS. repeat (case_match; try done).
Qed.

Lemma validate_snapshot_ok snapshot snapshot' :
  validate_snapshot snapshot = Ok snapshot' ->
  snapshot' = snapshot /\ validate_health_evidence (health snapshot) = Ok tt
  /\ 0 < String.length (capabilities_hash snapshot) <= 128.
Proof.
  unfold validate_snapshot. case_bool_decide; simpl; [done|]. case_bool_decide as Hl; [done|].
  pose proof (health_checks_agree (health snapshot)) as Hh.
  destruct (validate_health (health snapshot)); [|done].
  destruct (validate_capabilities _); [|done]. intros [= <-].
  destruct (validate_health_evidence _) as [[]|]; [|done].
  repeat split; try done; unfold MAX_CAPABILITIES_HASH_LEN in Hl; lia.
Qed.

Lemma consume_app_fresh i n l c :
  (forall x, x ∈ l -> same_challenge i n x = false) -> same_challenge i n c = true ->
  consume i n (l ++ [c]) = Some (c, l).
Proof.
  intros Hl Hc. induction l as [|x l IH]; simpl; [by rewrite Hc|].
  rewrite Hl by left. rewrite IH; [done|]. intros y Hy. apply Hl. by right.
Qed.

(** Everything an exchange between honest parties relies on: the VM is known
    and both sides hold its token, the guest's sources answer, there is room
    for one more challenge and its nonce is new on the connection, and the
    second message arrives in time. *)
Record honest (find : option (string -> bool)) (token : string -> result bytes BrokerError)
    (vm : string) (host_nonce : bytes) (context : AuthConnectionContext)
    (env1 env2 env3 : Env) (n : bytes) (b : string) (snap2 snap3 : CapabilitiesSnapshot)
    (s : GuestAuthCore) : Prop := mkHonest {
  honest_vm : exists known, find = Some known /\ known vm = true;
  honest_token : token vm = Ok (secret s);
  honest_context : cx_vm_id context = vm /\ vm <> ""%string
    /\ cx_protocol_version context = GUEST_CONTROL_PROTOCOL_VERSION
    /\ cx_guest_control_port context = GUEST_CONTROL_AUTH_PORT;
  honest_host_nonce : length host_nonce = AUTH_NONCE_LEN;
  honest_nonce : env_nonce env1 = Ok n /\ length n = AUTH_NONCE_LEN;
  honest_boot_id : env_boot_id env1 = Ok b /\ b <> ""%string /\ String.length b <= 128;
  honest_room : length (remove_expired (env_now_ms env1) (challenge_ttl_ms s) (challenges s))
                < challenge_capacity s;
  honest_fresh : forall c, c ∈ challenges s ->
    same_challenge (cx_connection_instance context) n c = false;
  honest_time : (env_now_ms env2 - env_now_ms env1 <= challenge_ttl_ms s)%N;
  honest_snapshot : env_snapshot env2 = Ok snap2 /\ validate_snapshot snap2 = Ok snap2;
  honest_health : env_snapshot env3 = Ok snap3 /\ validate_snapshot snap3 = Ok snap3
}.

Section run.
Context (find : option (string -> bool)) (token : string -> result bytes BrokerError)
  (vm : string) (host_nonce : bytes) (context : AuthConnectionContext) (env1 env2 env3 : Env)
  (n : bytes) (b : string) (snap2 snap3 : CapabilitiesSnapshot) (s : GuestAuthCore).

Definition host_request : GuestControlSignRequest :=
  sign_request vm HostProof (Some (cx_peer_cid context)) host_nonce n b None.

Definition guest_hello : HelloResponse := mkHelloResponse n b GUEST_CONTROL_PROTOCOL_VERSION.

Definition host_tag : bytes :=
  hmac_sha256 (secret s) (Transcript.encode_transcript (request_transcript host_request)).

Definition host_auth : AuthenticateRequest := auth_request vm host_nonce guest_hello host_tag.

(** The guest after the first and after the second message. *)
Definition guest1 : GuestAuthCore := (hello context (hello_request vm host_nonce) env1 s).2.
Definition guest2 : GuestAuthCore := (authenticate context host_auth env2 guest1).2.

Definition carry {A} (r : result A GuestAuthError) : result A GuestControlHealthError :=
  match r with Ok a => Ok a | Err _ => Err Ttrpc end.

(** The connection to the guest: each call acts on the guest as the calls
    before left it. *)
Definition honest_rpc : Rpc :=
  mkRpc (fun req => carry (hello context req env1 s).1)
    (fun req => carry (authenticate context req env2 guest1).1)
    (fun _ => carry (get_health context env3 guest2)).

Context (Hh : honest find token vm host_nonce context env1 env2 env3 n b snap2 snap3 s).

Lemma honest_hello :
  hello context (hello_request vm host_nonce) env1 s =
  (Ok guest_hello,
   set_challenges (remove_expired (env_now_ms env1) (challenge_ttl_ms s) (challenges s)
     ++ [mkPendingChallenge context host_nonce n b (env_now_ms env1)]) s).
Proof.
  destruct Hh as [_ _ (Hvm & Hne & Hv & Hp) Hhn [Hn _] [Hb _] Hroom _ _ _ _].
  unfold hello, validate_context_and_metadata, AuthConnectionContext_validate. unfold_handler.
  rewrite Hvm, Hv, Hp. rewrite !bool_decide_eq_false_2 by done. simpl.
  rewrite !bool_decide_eq_false_2 by (by intros []). unfold fixed_nonce. simpl.
  rewrite bool_decide_eq_false_2 by (rewrite Hhn; by intros []). rewrite Hn, Hb.
  unfold insert_challenge. simpl. by rewrite bool_decide_eq_false_2 by lia.
Qed.

Lemma host_tag_length : length host_tag = AUTH_TAG_LEN.
Proof. apply hmac_length. Qed.

(** The transcripts of the two sides are the same. *)
Lemma transcripts_match role hash :
  encode_transcript role context host_nonce n b (chars <$> hash)
  = Transcript.encode_transcript (request_transcript
      (sign_request vm (match role with Host => HostProof | Guest => GuestProof end)
         (Some (cx_peer_cid context)) host_nonce n b hash)).
Proof.
  destruct Hh as [_ _ (Hvm & _ & Hv & Hp) _ _ _ _ _ _ _ _].
  unfold encode_transcript, request_transcript, sign_request. simpl. rewrite Hvm, Hv, Hp.
  by destruct role, (cx_direction context), (cx_purpose context).
Qed.

Lemma honest_authenticate :
  authenticate context host_auth env2
    guest1 =
  (Ok (mkAuthenticateResponse
         (Some (hmac_sha256 (secret s) (encode_transcript Guest context host_nonce n b
                                          (Some (chars (capabilities_hash snap2))))))
         (Some (capabilities_hash snap2)) (Some (health snap2)) (Some (capabilities snap2)) false),
   set_authenticated (fun a => {[context]} ∪ a)
     (set_challenges (remove_expired (env_now_ms env1) (challenge_ttl_ms s) (challenges s)) s)).
Proof.
  unfold guest1. rewrite honest_hello.
  pose proof (transcripts_match Host None) as Htr. simpl in Htr.
  destruct Hh as [_ _ (Hvm & Hne & Hv & Hp) Hhn [Hn Hnl] [Hb _] _ Hfresh Htime [Hs2 Hs2'] _].
  unfold authenticate, validate_context_and_metadata, AuthConnectionContext_validate.
  unfold_handler. unfold host_auth, auth_request, guest_hello, request_metadata. simpl.
  rewrite Hvm, Hv, Hp. rewrite !bool_decide_eq_false_2 by done. simpl.
  rewrite !(bool_decide_eq_false_2 (_ <> _)) by (by intros []).
  unfold fixed_nonce, fixed_tag. simpl.
  rewrite (bool_decide_eq_false_2 (length host_nonce <> _)) by (rewrite Hhn; by intros []).
  rewrite (bool_decide_eq_false_2 (length n <> _)) by (rewrite Hnl; by intros []).
  rewrite (bool_decide_eq_false_2 (length host_tag <> _))
    by (rewrite host_tag_length; by intros []).
  rewrite consume_app_fresh; simpl; cycle 1.
  { intros x Hx. apply Hfresh. eapply elem_of_sublist; [apply filter_sublist|exact Hx]. }
  { unfold same_challenge. simpl. by rewrite !bool_decide_eq_true_2. }
  replace (_ <? _)%N with false by (symmetry; by apply N.ltb_ge).
  rewrite !(bool_decide_eq_false_2 (_ <> _)) by (by intros []). simpl.
  unfold verify_tag. rewrite bool_decide_eq_true_2 by (by rewrite Htr).
  by rewrite Hs2, Hs2'.
Qed.
End run.

Lemma broker_signs find token known req key :
  find = Some known -> known (sq_vm_id req) = true -> token (sq_vm_id req) = Ok key ->
  validate_shape req = Ok tt -> sq_protocol_version req = GUEST_CONTROL_PROTOCOL_VERSION ->
  sq_guest_control_port req = GUEST_CONTROL_AUTH_PORT ->
  broker find token req
  = Ok (hmac_sha256 key (Transcript.encode_transcript (request_transcript req))).
Proof.
  intros -> Hk Ht Hs Hv Hp. pose proof (shape_ok _ Hs) as (Hh & Hg & _).
  unfold broker, handle_guest_control_sign, guest_control_transcript.
  rewrite Hs, Hk. simpl. rewrite Hv, Hp, Hh, Hg, Ht.
  by rewrite !bool_decide_eq_false_2 by (by intros []).
Qed.

Lemma shape_of vm role cid host_nonce n b hash :
  length host_nonce = AUTH_NONCE_LEN -> length n = AUTH_NONCE_LEN -> b <> ""%string ->
  String.length b <= 128 ->
  match role, hash with
  | HostProof, None => True
  | GuestProof, Some hash => 0 < String.length hash <= 128
  | _, _ => False
  end ->
  validate_shape (sign_request vm role cid host_nonce n b hash) = Ok tt.
Proof.
  intros Hh Hn Hb Hbl Hr. unfold validate_shape. simpl. rewrite Hh, Hn.
  rewrite !bool_decide_eq_false_2 by (by intros []). simpl.
  rewrite !bool_decide_eq_false_2 by (done || lia). simpl.
  destruct role, hash as [hash|]; try done.
  rewrite !bool_decide_eq_false_2; [done|lia|]. intros ->. simpl in Hr. lia.
Qed.

Lemma healthy_ready health ev :
  validate_health_evidence health = Ok tt -> ev_health ev = health ->
  guest_control_health_ready (Ok ev) = true.
Proof.
  unfold validate_health_evidence, guest_control_health_ready. intros Hv ->.
  repeat (case_match; try done).
Qed.

(** C34. Between an honest host, broker and guest the exchange succeeds: the
    probe returns the guest's boot id, capabilities hash and health, reports
    it ready, and the guest has the connection authenticated. *)
Theorem probe_completes find token vm host_nonce context env1 env2 env3 n b snap2 snap3 s :
  honest find token vm host_nonce context env1 env2 env3 n b snap2 snap3 s ->
  let evidence := mkGuestControlHealthEvidence vm b GUEST_CONTROL_PROTOCOL_VERSION
                    (capabilities_hash snap2) (health snap3) in
  probe_guest_control_health vm (Some (cx_peer_cid context)) host_nonce
    (honest_rpc vm host_nonce context env1 env2 env3 n b s) (broker find token) = Ok evidence
  /\ guest_control_health_ready (Ok evidence) = true
  /\ context ∈ authenticated_connections (guest2 vm host_nonce context env1 env2 n b s).
Proof.
  intros Hh evidence.
  pose proof (honest_hello _ _ _ _ _ _ _ _ _ _ _ _ _ Hh) as Hhello.
  pose proof (honest_authenticate _ _ _ _ _ _ _ _ _ _ _ _ _ Hh) as Hauth.
  pose proof (transcripts_match _ _ _ _ _ _ _ _ _ _ _ _ _ Hh Guest
    (Some (capabilities_hash snap2))) as Htr. simpl in Htr.
  assert (context ∈ authenticated_connections (guest2 vm host_nonce context env1 env2 n b s)) as Hin.
  { unfold guest2. rewrite Hauth. simpl. set_solver. }
  destruct Hh as [(known & Hf & Hk) Htok _ Hhn [_ Hn] (_ & Hb & Hbl) _ _ _ [_ Hs2] [Hs3 Hs3']].
  pose proof (validate_snapshot_ok _ _ Hs2) as (_ & _ & Hlen).
  pose proof (validate_snapshot_ok _ _ Hs3') as (_ & Hev & _).
  split; [|split; [by apply (healthy_ready (health snap3))|done]].
  unfold probe_guest_control_health. cbn [rpc_hello honest_rpc]. rewrite Hhello. simpl.
  rewrite bool_decide_eq_false_2 by (by intros []).
  rewrite !bool_decide_eq_false_2 by (done || lia). simpl.
  rewrite (broker_signs _ _ known _ (secret s)) by (done || by apply shape_of). simpl.
  rewrite bool_decide_eq_false_2 by (rewrite hmac_length; by intros []). simpl.
  match goal with |- context [authenticate context ?r env2 ?g] =>
    change (authenticate context r env2 g) with (authenticate context
      (host_auth vm host_nonce context n b s) env2 (guest1 vm host_nonce context env1 s)) end.
  rewrite Hauth. simpl.
  rewrite (broker_signs _ _ known _ (secret s)) by (done || by apply shape_of). simpl.
  rewrite !(bool_decide_eq_false_2 (length _ <> _)) by (rewrite hmac_length; by intros []). simpl.
  rewrite bool_decide_eq_true_2 by (by rewrite Htr). simpl.
  unfold get_health, get_snapshot, require_authenticated.
  rewrite bool_decide_eq_true_2 by exact Hin. rewrite Hs3, Hs3'. simpl. by rewrite Hev.
Qed.
End handshake.
End Handshake.

(** ** A concrete exchange *)

Module Demo.
Import Transcript Proto GuestCore Broker Probe Handshake.

(** Some function to 32 bytes. *)
#[local] Instance toy_hmac : Hmac := fun key message =>
  take 32 (key ++ message ++ replicate 32 "0"%char).

#[local] Instance toy_hmac_laws : HmacLaws.
Proof.
  intros key message. unfold hmac_sha256, toy_hmac.
  rewrite length_take, !length_app, length_replicate. lia.
Qed.

Definition demo_context : AuthConnectionContext :=
  mkAuthConnectionContext "vm-a" GUEST_CONTROL_PROTOCOL_VERSION GUEST_CONTROL_AUTH_PORT 2
    HostToGuest GuestControlAuthV1 (replicate 16 "c"%char).

Definition demo_health : HealthResponse :=
  mkHealthResponse (Known HEALTH_ORIGIN_GUEST_REPORTED) (Known HEALTH_STATE_HEALTHY)
    (Known HEALTH_REASON_NONE) (Known HEALTH_REMEDIATION_NONE) GUEST_CONTROL_PROTOCOL_VERSION
    [Known GUEST_CAPABILITY_HEALTH] [].

Definition demo_limits : GuestEffectiveLimits :=
  mkGuestEffectiveLimits 65536 4194304 0 0 1 0 0 0 0 0 0 0 0 0 0 0 0 0 0.

Definition demo_snapshot : CapabilitiesSnapshot :=
  mkCapabilitiesSnapshot "hash-a" demo_health
    (mkCapabilitiesResponse GUEST_CONTROL_PROTOCOL_VERSION [Known GUEST_CAPABILITY_HEALTH]
       (Some demo_limits)).

Definition demo_nonce : bytes := replicate 32 "g"%char.
Definition demo_host_nonce : bytes := replicate 32 "h"%char.

Definition demo_env (now : N) : Env :=
  mkEnv (Ok demo_nonce) (Ok "boot-1"%string) now (Ok demo_snapshot).

Definition demo_token (vm : string) : result bytes BrokerError := Ok (chars "token").
Definition demo_find : option (string -> bool) := Some (fun vm => String.eqb vm "vm-a").

Lemma demo_honest :
  honest demo_find demo_token "vm-a" demo_host_nonce demo_context (demo_env 5) (demo_env 9)
    (demo_env 12) demo_nonce "boot-1" demo_snapshot demo_snapshot (new (chars "token")).
Proof.
  split; try done.
  - by eexists.
  - split; [done|]. split; [done|]. simpl. lia.
  - simpl. unfold DEFAULT_CHALLENGE_CAPACITY. lia.
  - intros c Hc. by apply elem_of_nil in Hc.
Qed.

Lemma probe_completes_witness :
  probe_guest_control_health "vm-a" (Some 2%N) demo_host_nonce
    (honest_rpc "vm-a" demo_host_nonce demo_context (demo_env 5) (demo_env 9) (demo_env 12)
       demo_nonce "boot-1" (new (chars "token"))) (broker demo_find demo_token)
  = Ok (mkGuestControlHealthEvidence "vm-a" "boot-1" GUEST_CONTROL_PROTOCOL_VERSION "hash-a"
          demo_health).
Proof. exact (proj1 (probe_completes _ _ _ _ _ _ _ _ _ _ _ _ _ demo_honest)). Defined.

Definition demo_guest : GuestAuthCore :=
  guest1 "vm-a" demo_host_nonce demo_context (demo_env 5) (new (chars "token")).
Definition demo_auth : AuthenticateRequest :=
  host_auth "vm-a" demo_host_nonce demo_context demo_nonce "boot-1" (new (chars "token")).

Lemma mutual_agreement_witness :
  exists res s', authenticate demo_context demo_auth (demo_env 9) demo_guest = (Ok res, s')
    /\ forall req, request_wf req -> demo_token (sq_vm_id req) = Ok (chars "token") ->
         handle_guest_control_sign demo_find demo_token req = Ok (aq_host_auth_tag demo_auth) ->
         (sq_role req = HostProof /\ agree req demo_context demo_auth)
         \/ transcripts_collide (chars "token") req
              (guest_transcript Host demo_context demo_auth None).
Proof.
  destruct (authenticate demo_context demo_auth (demo_env 9) demo_guest) as [[res|e] s'] eqn:Ha.
  - exists res, s'. split; [reflexivity|].
    refine (proj1 (mutual_agreement demo_find demo_token (chars "token") "vm-a" (Some 2%N)
      demo_host_nonce demo_context demo_auth (demo_env 9) demo_guest res s' _ _ _ _ _ _ Ha)).
    + reflexivity.
    + vm_compute. reflexivity.
    + vm_compute. reflexivity.
    + intros c [= <-]. vm_compute. reflexivity.
    + split; vm_compute; reflexivity.
    + vm_compute. reflexivity.
  - exfalso. vm_compute in Ha. discriminate Ha.
Defined.
End Demo.
