(* ===== verification/SecureSession.v ===== *)
(** * The authenticated and encrypted peer session

    [packages/d2b-realm-router/src/secure_session.rs]: the mutual hello with
    its MAC and replay guard, the directional keys, and the encrypted frames
    with their sequence nonces.  The byte stream and the codec are those of
    [Session.v]; HMAC-SHA256 is the parameter of [GuestAuth.v]; SHA-256,
    ChaCha20-Poly1305 and the JSON form of a hello are parameters with the
    laws their crates document.  What arrives on the wire is arbitrary. *)

From S2P Require Import Prelude Ids Streams Frame Session Targets GuestAuth Gateway.

Module SecureSession.
Import PeerSession.

Local Open Scope rust_scope.

Abbreviation be_bytes := Gateway.Handshake.be_bytes.

(** ** Data *)

Record SecurePeerIdentity := mkSecurePeerIdentity {
  sp_realm : RealmPath;
  sp_principal : string;
  sp_node : string
}.

#[global] Instance SecurePeerIdentity_eq_dec : EqDecision SecurePeerIdentity.
Proof. solve_decision. Defined.

Record Hello := mkHello {
  h_version : N;
  h_codec_id : string;
  h_schema_fingerprint : string;
  h_identity : SecurePeerIdentity;
  h_nonce : bytes;
  h_mac : bytes
}.

Record NonceReplayGuard := mkNonceReplayGuard { seen : gset bytes }.

(** [claim]: whether the nonce is new, and the guard that remembers it. *)
Definition claim (nonce : bytes) (self : NonceReplayGuard) : bool * NonceReplayGuard :=
  (bool_decide (nonce ∉ seen self), mkNonceReplayGuard ({[nonce]} ∪ seen self)).

(** A cipher is its key. *)
Record SecurePeerSession := mkSecurePeerSession {
  stream : ByteStream;
  tx : bytes;
  rx : bytes;
  tx_nonce_tag : N;
  rx_nonce_tag : N;
  tx_seq : N;
  rx_seq : N;
  remote : SecurePeerIdentity
}.

(** ** The crates the code calls *)

Class Sha256 := sha256 : bytes -> bytes.

Class Aead := {
  seal : bytes -> bytes -> bytes -> option bytes;
  unseal : bytes -> bytes -> bytes -> option bytes
}.

(** What [chacha20poly1305] documents: a 16-byte tag, no failure for messages
    of this size, opening inverts sealing, and whatever opens is the sealing
    of what it opens to. *)
Class AeadLaws `{Aead} : Prop := {
  unseal_seal : forall key nonce plain cipher,
    seal key nonce plain = Some cipher -> unseal key nonce cipher = Some plain;
  seal_unseal : forall key nonce plain cipher,
    unseal key nonce cipher = Some plain -> seal key nonce plain = Some cipher;
  seal_length : forall key nonce plain cipher,
    seal key nonce plain = Some cipher -> length cipher = length plain + 16;
  seal_total : forall key nonce plain, fits_frame plain -> is_Some (seal key nonce plain)
}.

(** [serde_json] on [Hello]; the error is its message. *)
Class HelloJson := {
  to_vec : Hello -> result bytes string;
  from_slice : bytes -> result Hello string
}.

(** What the types of a hello grant: parsed ids, a realm path of labels, and
    arrays of 32 bytes. *)
Record identity_wf (i : SecurePeerIdentity) : Prop := mkIdentityWf {
  wf_realm : RealmPath_new (sp_realm i) = Some (sp_realm i);
  wf_labels : Forall valid_label (sp_realm i);
  wf_principal : valid_opaque (sp_principal i);
  wf_node : valid_label (sp_node i)
}.

Record hello_wf (h : Hello) : Prop := mkHelloWf {
  wf_version : (h_version h < 2 ^ 32)%N;
  wf_codec : ProtocolToken_parse (h_codec_id h) = Ok (h_codec_id h);
  wf_schema : ProtocolToken_parse (h_schema_fingerprint h) = Ok (h_schema_fingerprint h);
  wf_identity : identity_wf (h_identity h);
  wf_nonce : length (h_nonce h) = 32;
  wf_mac : length (h_mac h) = 32
}.

(** A hello is written and read back, within the frame cap, and only
    well-formed ones are read. *)
Class HelloJsonLaws `{HelloJson} : Prop := {
  json_roundtrip : forall h, hello_wf h ->
    exists b, to_vec h = Ok b /\ fits_frame b /\ from_slice b = Ok h;
  json_wf : forall b h, from_slice b = Ok h -> hello_wf h
}.

(** ** Messages *)

(** [mac_update_field]: the length as a big-endian [u64], then the bytes. *)
Definition mac_field (field : bytes) : bytes :=
  be_bytes 8 (N.of_nat (length field)) ++ field.

(** The bytes [mac_hello] feeds to the MAC. *)
Definition mac_message (label : string) (h : Hello) (peer_nonce : bytes) : bytes :=
  mac_field (chars label)
  ++ mac_field (be_bytes 4 (h_version h))
  ++ mac_field (chars (h_codec_id h))
  ++ mac_field (chars (h_schema_fingerprint h))
  ++ mac_field (chars (target_form (sp_realm (h_identity h))))
  ++ mac_field (chars (sp_principal (h_identity h)))
  ++ mac_field (chars (sp_node (h_identity h)))
  ++ mac_field (h_nonce h)
  ++ mac_field peer_nonce.

Definition seq_nonce (seq tag : N) : bytes :=
  [zero; zero; zero; Ascii.ascii_of_N tag] ++ be_bytes 8 seq.

(** [write_plain] and [read_plain]; the [ProviderError]s of this file wrap a
    [ConstellationError] with no hint and no diagnostic. *)
Definition write_plain (payload : bytes) : handler ByteStream ConstellationError unit :=
  h_reject (bool_decide (MAX_FRAME_BYTES < N.of_nat (length payload))%N)
    (error ErrorKind_FrameTooLarge "secure-session frame exceeds cap") ?;
  map_err (error ErrorKind_GatewayUnavailable)
    (write_all (le_bytes 4 (N.of_nat (length payload)))) ?;
  map_err (error ErrorKind_GatewayUnavailable) (write_all payload) ?;
  map_err (error ErrorKind_GatewayUnavailable) flush.

Definition read_plain : handler ByteStream ConstellationError bytes :=
  let? len := map_err (error ErrorKind_GatewayUnavailable) (read_exact 4) in
  let declared := from_le_bytes len in
  h_reject (bool_decide (MAX_FRAME_BYTES < declared)%N)
    (error ErrorKind_FrameTooLarge "secure-session declared frame exceeds cap") ?;
  map_err (fun kind => error ErrorKind_MalformedFrame ("truncated: " +:+ kind))
    (read_exact (N.to_nat declared)).

Definition json_err {A} (r : result A string) : result A ConstellationError :=
  match r with Ok a => Ok a | Err e => Err (error ErrorKind_MalformedFrame e) end.

Section session.
Context {codec : ProtocolCodec} {mac : Hmac} {sha : Sha256} {aead : Aead} {json : HelloJson}.

Definition mac_hello (label : string) (key : bytes) (h : Hello) (peer_nonce : bytes) : bytes :=
  hmac_sha256 key (mac_message label h peer_nonce).

Definition parse_token (what raw : string) : result string ConstellationError :=
  match ProtocolToken_parse raw with
  | Ok token => Ok token
  | Err err =>
      Err (error ErrorKind_MalformedFrame (what +:+ ": " +:+ TokenError_display err))
  end.

Definition hello (label : string) (key : bytes) (codec schema : string)
    (identity : SecurePeerIdentity) (nonce peer_nonce : bytes) :
    result Hello ConstellationError :=
  r_bind (parse_token "codec id" codec) (fun codec =>
  r_bind (parse_token "schema fingerprint" schema) (fun schema =>
  let h := mkHello PROTOCOL_VERSION codec schema identity nonce (repeat zero 32) in
  Ok (mkHello PROTOCOL_VERSION codec schema identity nonce (mac_hello label key h peer_nonce)))).

Definition verify_hello (label : string) (key : bytes) (codec schema : string) (h : Hello)
    (expected_identity : SecurePeerIdentity) (peer_nonce : bytes) :
    result unit ConstellationError :=
  if bool_decide (h_version h <> PROTOCOL_VERSION)
     || bool_decide (h_codec_id h <> codec)
     || bool_decide (h_schema_fingerprint h <> schema)
     || bool_decide (h_identity h <> expected_identity)
  then Err (error ErrorKind_AuthenticationFailed "secure-session hello binding mismatch")
  else if bool_decide (mac_hello label key h peer_nonce <> h_mac h)
  then Err (error ErrorKind_AuthenticationFailed "secure-session hello MAC mismatch")
  else Ok tt.

Definition derive_key (key label c s : bytes) : bytes := sha256 (key ++ label ++ c ++ s).

Definition new_encrypted (stream : ByteStream) (key client_nonce server_nonce : bytes)
    (remote : SecurePeerIdentity) (role : Role) : SecurePeerSession :=
  let client_tx := derive_key key (chars "client-tx") client_nonce server_nonce in
  let server_tx := derive_key key (chars "server-tx") client_nonce server_nonce in
  match role with
  | Role_Client => mkSecurePeerSession stream client_tx server_tx 1 2 0 0 remote
  | Role_Server => mkSecurePeerSession stream server_tx client_tx 2 1 0 0 remote
  end.

Definition connect (key : bytes) (local expected_remote : SecurePeerIdentity)
    (client_nonce : bytes) : handler ByteStream ConstellationError SecurePeerSession :=
  let? client := h_lift (hello "client" key codec_id schema_fingerprint local client_nonce []) in
  let? b := h_lift (json_err (to_vec client)) in
  write_plain b ?;
  let? b := read_plain in
  let? server := h_lift (json_err (from_slice b)) in
  h_lift (verify_hello "server" key codec_id schema_fingerprint server expected_remote
            (h_nonce client)) ?;
  let? stream := h_get in
  h_ret (new_encrypted stream key (h_nonce client) (h_nonce server) expected_remote Role_Client).

(** An operation of the stream, next to the guard the caller lends. *)
Definition on_stream {A} (h : handler ByteStream ConstellationError A) :
    handler (ByteStream * NonceReplayGuard) ConstellationError A :=
  fun st => let '(r, s) := h st.1 in (r, (s, st.2)).

Definition accept (key : bytes) (local expected_remote : SecurePeerIdentity)
    (server_nonce : bytes) :
    handler (ByteStream * NonceReplayGuard) ConstellationError SecurePeerSession :=
  let? b := on_stream read_plain in
  let? client := h_lift (json_err (from_slice b)) in
  h_lift (verify_hello "client" key codec_id schema_fingerprint client expected_remote []) ?;
  let? st := h_get in
  let '(fresh, guard) := claim (h_nonce client) st.2 in
  h_modify (fun st => (st.1, guard)) ?;
  h_reject (negb fresh)
    (error ErrorKind_AuthenticationFailed "secure-session client nonce replayed") ?;
  let? server := h_lift (hello "server" key codec_id schema_fingerprint local server_nonce
                           (h_nonce client)) in
  let? b := h_lift (json_err (to_vec server)) in
  on_stream (write_plain b) ?;
  let? st := h_get in
  h_ret (new_encrypted st.1 key (h_nonce client) (h_nonce server) expected_remote Role_Server).

Definition set_stream (f : ByteStream) (s : SecurePeerSession) : SecurePeerSession :=
  mkSecurePeerSession f (tx s) (rx s) (tx_nonce_tag s) (rx_nonce_tag s) (tx_seq s) (rx_seq s)
    (remote s).

Definition next_tx (s : SecurePeerSession) : SecurePeerSession :=
  mkSecurePeerSession (stream s) (tx s) (rx s) (tx_nonce_tag s) (rx_nonce_tag s)
    (u64_wrap (tx_seq s + 1)) (rx_seq s) (remote s).

Definition next_rx (s : SecurePeerSession) : SecurePeerSession :=
  mkSecurePeerSession (stream s) (tx s) (rx s) (tx_nonce_tag s) (rx_nonce_tag s)
    (tx_seq s) (u64_wrap (rx_seq s + 1)) (remote s).

Definition io {A} (h : handler ByteStream ConstellationError A) :
    handler SecurePeerSession ConstellationError A :=
  fun s => let '(r, b) := h (stream s) in (r, set_stream b s).

Definition send (frame : ConstellationFrame) : handler SecurePeerSession ConstellationError unit :=
  let? plain := h_lift (encode_frame frame) in
  let? self := h_get in
  let nonce := seq_nonce (tx_seq self) (tx_nonce_tag self) in
  h_modify next_tx ?;
  match seal (tx self) nonce plain with
  | None => h_throw (error ErrorKind_AuthenticationFailed "encrypt failed")
  | Some cipher => io (write_plain cipher)
  end.

Definition recv : handler SecurePeerSession ConstellationError ConstellationFrame :=
  let? cipher := io read_plain in
  let? self := h_get in
  let nonce := seq_nonce (rx_seq self) (rx_nonce_tag self) in
  h_modify next_rx ?;
  match unseal (rx self) nonce cipher with
  | None => h_throw (error ErrorKind_AuthenticationFailed "decrypt failed")
  | Some plain => h_lift (decode_frame plain)
  end.

End session.

(** ** Encodings *)

Definition fits_u64 (b : bytes) : Prop := (N.of_nat (length b) < 2 ^ 64)%N.

Lemma mac_field_inj v w r s :
  fits_u64 v -> fits_u64 w -> mac_field v ++ r = mac_field w ++ s -> v = w /\ r = s.
Proof.
  unfold mac_field, fits_u64. intros Hv Hw. rewrite <- !app_assoc. intros Heq.
  apply app_inj_1 in Heq as [Hlen Heq]; [|by rewrite !Gateway.Handshake.be_bytes_length].
  apply Gateway.Handshake.be_bytes_inj in Hlen; [|done..]. by apply app_inj_1 in Heq; [|lia].
Qed.

Lemma seq_nonce_inj q q' tag :
  (q < 2 ^ 64)%N -> (q' < 2 ^ 64)%N -> seq_nonce q tag = seq_nonce q' tag -> q = q'.
Proof.
  unfold seq_nonce. intros Hq Hq' Heq. apply app_inv_head in Heq.
  by apply (Gateway.Handshake.be_bytes_inj 8).
Qed.

Lemma token_fits raw : ProtocolToken_parse raw = Ok raw -> fits_u64 (chars raw).
Proof.
  unfold ProtocolToken_parse, fits_u64. rewrite length_chars.
  destruct (_ =? _)%string; [done|]. case_bool_decide as Hlen; [done|]. intros _.
  unfold MAX_PROTOCOL_TOKEN_LEN in Hlen. change (2 ^ 64)%N with 18446744073709551616%N. lia.
Qed.

Lemma short_u64 (b : bytes) n : length b <= n -> (N.of_nat n < 2 ^ 64)%N -> fits_u64 b.
Proof. unfold fits_u64. lia. Qed.

(** The fields of an identity are short, and its path is read back. *)
Lemma identity_fits i :
  identity_wf i ->
  length (chars (target_form (sp_realm i))) <= 255 /\ length (chars (sp_principal i)) <= 128
  /\ length (chars (sp_node i)) <= 128 /\ sp_realm i <> [] /\ Forall dot_free (sp_realm i).
Proof.
  intros [Hr Hl (_ & _ & Hp & _)%parse_id_ok (_ & _ & Hn & _)%parse_id_ok].
  rewrite !length_chars, length_target_form.
  apply RealmPath_new_some in Hr as (_ & Hne & _ & Hlen). unfold MAX_REALM_PATH_BYTES, MAX_ID_LEN in *.
  repeat split; try done. eapply Forall_impl; [exact Hl|].
  intros l (_ & _ & _ & H)%parse_id_ok. by apply is_label_dot_free.
Qed.

(** A hello without its MAC. *)
Definition same_hello (h h' : Hello) : Prop :=
  h_version h = h_version h' /\ h_codec_id h = h_codec_id h'
  /\ h_schema_fingerprint h = h_schema_fingerprint h' /\ h_identity h = h_identity h'
  /\ h_nonce h = h_nonce h'.

Lemma same_hello_mac h h' : same_hello h h' -> h_mac h = h_mac h' -> h = h'.
Proof.
  intros (Hv & Hc & Hs & Hi & Hn) Hm. destruct h, h'. simpl in *. by subst.
Qed.

(** What is authenticated determines the role, the hello and the nonce it
    answers. *)
Lemma mac_message_inj label label' h h' peer peer' :
  fits_u64 (chars label) -> fits_u64 (chars label') -> hello_wf h -> hello_wf h' ->
  fits_u64 peer -> fits_u64 peer' ->
  mac_message label h peer = mac_message label' h' peer' ->
  label = label' /\ same_hello h h' /\ peer = peer'.
Proof.
  intros Hl Hl' [Hv Hc Hs Hi Hn _] [Hv' Hc' Hs' Hi' Hn' _] Hp Hp'. unfold mac_message.
  apply identity_fits in Hi as (H1 & H2 & H3 & H4 & H5).
  apply identity_fits in Hi' as (H1' & H2' & H3' & H4' & H5').
  assert (Hn64 : forall b, length b = 32 -> fits_u64 b)
    by (intros b Hb; apply (short_u64 b 32); [lia|done]).
  assert (Hid : forall b, length b <= 255 -> fits_u64 b)
    by (intros b Hb; by apply (short_u64 b 255)).
  assert (Hv64 : forall v, fits_u64 (be_bytes 4 v))
    by (intros v; apply (short_u64 _ 4); [by rewrite Gateway.Handshake.be_bytes_length|done]).
  intros Heq. apply mac_field_inj in Heq as [->%chars_inj Heq]; [|done..].
  apply mac_field_inj in Heq as [Ev Heq]; [|done..].
  apply Gateway.Handshake.be_bytes_inj in Ev; [|done..].
  apply mac_field_inj in Heq as [Ec%chars_inj Heq]; [|by apply token_fits..].
  apply mac_field_inj in Heq as [Es%chars_inj Heq]; [|by apply token_fits..].
  apply mac_field_inj in Heq as [Er%chars_inj Heq]; [|by apply Hid..].
  apply target_form_inj in Er; [|done..].
  apply mac_field_inj in Heq as [Epr%chars_inj Heq]; [|apply Hid; lia..].
  apply mac_field_inj in Heq as [Eno%chars_inj Heq]; [|apply Hid; lia..].
  apply mac_field_inj in Heq as [En Heq]; [|by apply Hn64..].
  rewrite <- (app_nil_r (mac_field peer)), <- (app_nil_r (mac_field peer')) in Heq.
  apply mac_field_inj in Heq as [Ep _]; [|done..].
  split; [done|]. split; [|done]. repeat split; try done.
  destruct (h_identity h), (h_identity h'). simpl in *. by subst.
Qed.

(** ** Framing *)

Lemma read_plain_ok s p s' :
  read_plain s = (Ok p, s') <->
  fits_frame p /\ exists rest, incoming s = frame_bytes p ++ rest /\
    s' = mkByteStream rest (outgoing s) (write_error s) (flush_error s).
Proof.
  rewrite <- framing_exact. unfold read_plain, read_frame, map_err. unfold_handler.
  destruct (read_exact 4 s) as [[len|e] s1]; [|done]. destruct (bool_decide _); [done|].
  by destruct (read_exact _ s1) as [[b|e] s2].
Qed.

Lemma write_plain_ok p s s' :
  write_plain p s = (Ok tt, s') <->
  fits_frame p /\ write_error s = None /\ flush_error s = None /\
  s' = mkByteStream (incoming s) (outgoing s ++ frame_bytes p) None None.
Proof.
  unfold write_plain, map_err, write_all, flush, fits_frame, frame_bytes. unfold_handler.
  case_bool_decide as Hlen.
  { split; [done|]. intros [? _]. lia. }
  destruct s as [inc out [we|] [fe|]]; simpl; try (split; [done|naive_solver]).
  rewrite <- app_assoc. split; [intros [= <-]; split; [lia|done]|].
  by intros (_ & _ & _ & ->).
Qed.

(** ** The hello *)

Section handshake.
Context {mac : Hmac} {sha : Sha256} {aead : Aead} {json : HelloJson}.
Context {mac_laws : HmacLaws} {json_laws : HelloJsonLaws}.
Implicit Types (key nonce peer : bytes) (label : string) (h : Hello).

Lemma parse_token_ok what raw token :
  parse_token what raw = Ok token <-> ProtocolToken_parse raw = Ok raw /\ token = raw.
Proof.
  unfold parse_token. destruct (ProtocolToken_parse raw) as [t|e] eqn:Hp.
  - assert (t = raw) as ->; [|by split; [intros [= ->]|intros [_ ->]]].
    unfold ProtocolToken_parse in Hp. by repeat case_match; simplify_eq.
  - by split; [|intros [? _]].
Qed.

Lemma hello_ok label key cid schema identity nonce peer h :
  hello label key cid schema identity nonce peer = Ok h <->
  ProtocolToken_parse cid = Ok cid /\ ProtocolToken_parse schema = Ok schema
  /\ same_hello h (mkHello PROTOCOL_VERSION cid schema identity nonce [])
  /\ h_mac h = mac_hello label key h peer.
Proof.
  unfold hello, r_bind. split.
  - destruct (parse_token _ cid) as [t|] eqn:Hc; [|done]. apply parse_token_ok in Hc as [Hc ->].
    destruct (parse_token _ schema) as [t|] eqn:Hs; [|done].
    apply parse_token_ok in Hs as [Hs ->]. by intros [= <-].
  - intros (Hc & Hs & (Hv & Hh1 & Hh2 & Hh3 & Hh4) & Hm).
    rewrite (proj2 (parse_token_ok "codec id" cid cid)) by done.
    rewrite (proj2 (parse_token_ok "schema fingerprint" schema schema)) by done.
    destruct h. simpl in *. subst. rewrite Hm. by do 2 f_equal.
Qed.

Lemma verify_hello_ok label key cid schema h expected peer :
  verify_hello label key cid schema h expected peer = Ok tt <->
  same_hello h (mkHello PROTOCOL_VERSION cid schema expected (h_nonce h) [])
  /\ h_mac h = mac_hello label key h peer.
Proof.
  unfold verify_hello, same_hello. simpl. split.
  - do 5 (case_bool_decide; simpl; [done|]). by repeat split.
  - intros [(Hv & Hc & Hs & Hi & _) Hm].
    by rewrite Hv, Hc, Hs, Hi, Hm, !(bool_decide_eq_false_2 (_ <> _)) by (intros Hn; by apply Hn).
Qed.

Lemma hello_is_wf label key cid schema identity nonce peer h :
  hello label key cid schema identity nonce peer = Ok h ->
  identity_wf identity -> length nonce = 32 -> hello_wf h.
Proof.
  intros (Hc & Hs & (Hv & Hh1 & Hh2 & Hh3 & Hh4) & Hm)%hello_ok Hi Hn. simpl in *.
  split; rewrite ?Hv, ?Hh1, ?Hh2, ?Hh3, ?Hh4; try done. rewrite Hm. apply hmac_length.
Qed.

(** Two different authenticated messages with one MAC. *)
Definition hellos_collide key (label label' : string) (h h' : Hello) (peer peer' : bytes) : Prop :=
  mac_message label h peer <> mac_message label' h' peer'
  /\ mac_hello label key h peer = mac_hello label' key h' peer'.

Lemma mac_determines label label' key h h' peer peer' :
  label ∈ ["client"; "server"]%string -> label' ∈ ["client"; "server"]%string ->
  hello_wf h -> hello_wf h' -> length peer <= 32 -> length peer' <= 32 ->
  h_mac h = mac_hello label key h peer -> h_mac h' = mac_hello label' key h' peer' ->
  h_mac h = h_mac h' ->
  (label = label' /\ same_hello h h' /\ peer = peer')
  \/ hellos_collide key label label' h h' peer peer'.
Proof.
  intros Hl Hl' Hw Hw' Hp Hp' Hm Hm' Heq.
  destruct (decide (mac_message label h peer = mac_message label' h' peer')) as [He|Hne];
    [left|right; split; congruence].
  assert (Hfit : forall l, l ∈ ["client"; "server"]%string -> fits_u64 (chars l)).
  { intros l. rewrite !elem_of_cons, elem_of_nil. by intros [->|[->|[]]]. }
  apply mac_message_inj in He; auto; by apply (short_u64 _ 32).
Qed.

(** The first frame that arrives on a stream, and the last one written to it,
    as hellos. *)
Definition got (st : ByteStream) (h : Hello) : Prop :=
  exists b rest, fits_frame b /\ incoming st = frame_bytes b ++ rest /\ from_slice b = Ok h.

Definition sent (st st' : ByteStream) (h : Hello) : Prop :=
  exists b, fits_frame b /\ outgoing st' = outgoing st ++ frame_bytes b /\ from_slice b = Ok h.

Lemma frame_bytes_inj p q r s :
  fits_frame p -> fits_frame q -> frame_bytes p ++ r = frame_bytes q ++ s -> p = q /\ r = s.
Proof.
  intros Hp Hq Heq. pose proof (read_frame_ok p r [] None None Hp) as H1.
  rewrite Heq, (read_frame_ok q s [] None None Hq) in H1. by injection H1.
Qed.

Lemma got_unique st h h' : got st h -> got st h' -> h = h'.
Proof.
  intros (b & r & Hb & Hi & Hh) (b' & r' & Hb' & Hi' & Hh'). rewrite Hi in Hi'.
  apply frame_bytes_inj in Hi' as [-> _]; [|done..]. congruence.
Qed.

Lemma sent_unique st st' h h' : sent st st' h -> sent st st' h' -> h = h'.
Proof.
  intros (b & Hb & Hi & Hh) (b' & Hb' & Hi' & Hh'). rewrite Hi in Hi'.
  apply app_inv_head in Hi'. rewrite <- (app_nil_r (frame_bytes b)) in Hi'.
  rewrite <- (app_nil_r (frame_bytes b')) in Hi'.
  apply frame_bytes_inj in Hi' as [-> _]; [|done..]. congruence.
Qed.

Lemma got_wf st h : got st h -> hello_wf h.
Proof. intros (b & r & _ & _ & Hh). by eapply json_wf. Qed.

(** A hello the code writes is the one it made. *)
Lemma json_written h b st st' :
  hello_wf h -> json_err (to_vec h) = Ok b -> write_plain b st = (Ok tt, st') ->
  sent st st' h /\ incoming st' = incoming st
  /\ write_error st' = None /\ flush_error st' = None.
Proof.
  intros Hw Hb (Hf & Hwe & Hfe & ->)%write_plain_ok. split; [|done].
  destruct (json_roundtrip h Hw) as (b' & Hb' & _ & Hr). unfold json_err in Hb.
  rewrite Hb' in Hb. injection Hb as ->. by exists b.
Qed.

Lemma json_read b h : json_err (from_slice b) = Ok h -> from_slice b = Ok h.
Proof. unfold json_err. by destruct (from_slice b) as [h'|]; [intros [= ->]|]. Qed.

Section runs.
Context {codec : ProtocolCodec}.

Lemma connect_ok key local rem cn st sc st' :
  identity_wf local -> length cn = 32 ->
  connect key local rem cn st = (Ok sc, st') ->
  exists client server,
    hello "client" key codec_id schema_fingerprint local cn [] = Ok client
    /\ sent st st' client /\ got st server
    /\ verify_hello "server" key codec_id schema_fingerprint server rem cn = Ok tt
    /\ sc = new_encrypted st' key cn (h_nonce server) rem Role_Client.
Proof.
  intros Hi Hn. unfold connect. unfold_handler.
  destruct (hello _ _ _ _ _ _ _) as [client|] eqn:Hc; [|done].
  pose proof (hello_is_wf _ _ _ _ _ _ _ _ Hc Hi Hn) as Hw.
  assert (h_nonce client = cn) as -> by by apply hello_ok in Hc as (_ & _ & (_ & _ & _ & _ & ->) & _).
  destruct (json_err (to_vec client)) as [b|] eqn:Hb; [|done].
  destruct (write_plain b st) as [[[]|] st1] eqn:Hwr; [|done].
  destruct (json_written _ _ _ _ Hw Hb Hwr) as (Hsent & Hin & _).
  destruct (read_plain st1) as [[b'|] st2] eqn:Hr; [|done].
  apply read_plain_ok in Hr as (Hf & rest & Hr & ->). rewrite Hin in Hr.
  destruct (json_err (from_slice b')) as [server|] eqn:Hs; [|done]. apply json_read in Hs.
  destruct (verify_hello _ _ _ _ _ _ _) as [[]|] eqn:Hv; [|done].
  intros [= <- <-]. exists client, server. split; [done|]. split; [done|].
  split; [by exists b', rest|]. done.
Qed.

Lemma accept_ok key local rem sn st g ss st' g' :
  identity_wf local -> length sn = 32 ->
  accept key local rem sn (st, g) = (Ok ss, (st', g')) ->
  exists client server,
    got st client
    /\ verify_hello "client" key codec_id schema_fingerprint client rem [] = Ok tt
    /\ (h_nonce client ∉ seen g) /\ seen g' = {[h_nonce client]} ∪ seen g
    /\ hello "server" key codec_id schema_fingerprint local sn (h_nonce client) = Ok server
    /\ sent st st' server
    /\ ss = new_encrypted st' key (h_nonce client) sn rem Role_Server.
Proof.
  intros Hi Hn. unfold accept, on_stream. unfold_handler. cbn [fst snd].
  destruct (read_plain st) as [[b|] st1] eqn:Hr; [|done].
  apply read_plain_ok in Hr as (Hf & rest & Hr & ->).
  destruct (json_err (from_slice b)) as [client|] eqn:Hc; [|done]. apply json_read in Hc.
  destruct (verify_hello _ _ _ _ _ _ _) as [[]|] eqn:Hv; [|done].
  cbn [claim fst snd]. case_bool_decide as Hfresh; simpl; [|done].
  destruct (hello _ _ _ _ _ _ _) as [server|] eqn:Hs; [|done].
  pose proof (hello_is_wf _ _ _ _ _ _ _ _ Hs Hi Hn) as Hw.
  assert (h_nonce server = sn) as ->
    by by apply hello_ok in Hs as (_ & _ & (_ & _ & _ & _ & ->) & _).
  destruct (json_err (to_vec server)) as [b'|] eqn:Hb; [|done].
  destruct (write_plain b' _) as [[[]|] st2] eqn:Hwr; [|done].
  intros [= <- <- <-]. exists client, server.
  split; [by exists b, rest|]. split; [done|]. split; [done|]. split; [done|].
  split; [done|]. split; [|done].
  by destruct (json_written _ _ _ _ Hw Hb Hwr) as (Hsent & _).
Qed.
End runs.

(** Two ends whose directions match: what one sends, the other can open. *)
Record mirrored (a b : SecurePeerSession) : Prop := mkMirrored {
  mirror_tx : tx a = rx b;
  mirror_rx : rx a = tx b;
  mirror_tx_tag : tx_nonce_tag a = rx_nonce_tag b;
  mirror_rx_tag : rx_nonce_tag a = tx_nonce_tag b;
  mirror_tx_seq : tx_seq a = rx_seq b;
  mirror_rx_seq : rx_seq a = tx_seq b
}.

Lemma new_mirrored st st' key cn sn rem rem' :
  mirrored (new_encrypted st key cn sn rem Role_Client)
    (new_encrypted st' key cn sn rem' Role_Server).
Proof. done. Qed.

(** C12. Let a client and a server with one key each establish a session, on
    wires that may carry anything.  If the hello the client got has the MAC
    of the one the server sent, the client talks to the identity it expects,
    both use one codec and schema, the server answered this client's nonce,
    and each end opens what the other seals.  If the hello the server got has
    the MAC of the one the client sent, it is that hello and the server knows
    the client's identity.  Neither end takes a hello of its own role.  The
    only way out is that the two different messages compared have one MAC. *)
Theorem session_agreement (C1 C2 : ProtocolCodec) key local rem cn st sc st'
    local' rem' sn st2 g ss st2' g' hc hs hc' hs' :
  identity_wf local -> identity_wf local' -> length cn = 32 -> length sn = 32 ->
  connect (codec := C1) key local rem cn st = (Ok sc, st') ->
  accept (codec := C2) key local' rem' sn (st2, g) = (Ok ss, (st2', g')) ->
  sent st st' hc -> got st hs -> got st2 hc' -> sent st2 st2' hs' ->
  (h_mac hs = h_mac hs' ->
     (hs = hs' /\ local' = rem /\ @codec_id C1 = @codec_id C2
      /\ @schema_fingerprint C1 = @schema_fingerprint C2 /\ h_nonce hc' = cn
      /\ mirrored sc ss)
     \/ hellos_collide key "server" "server" hs hs' cn (h_nonce hc'))
  /\ (h_mac hc' = h_mac hc ->
     (hc' = hc /\ local = rem' /\ @codec_id C1 = @codec_id C2
      /\ @schema_fingerprint C1 = @schema_fingerprint C2)
     \/ hellos_collide key "client" "client" hc' hc [] [])
  /\ (h_mac hs = h_mac hc -> hellos_collide key "server" "client" hs hc cn [])
  /\ (h_mac hc' = h_mac hs' ->
      hellos_collide key "client" "server" hc' hs' [] (h_nonce hc')).
Proof.
  intros Hi Hi' Hn Hn' Hcon Hacc Hsc Hgs Hgc Hss.
  apply connect_ok in Hcon as (client & server & Hcl & Hsent & Hgot & Hv & ->); [|done..].
  apply accept_ok in Hacc as (client' & server' & Hgot' & Hv' & _ & _ & Hsv & Hsent' & ->);
    [|done..].
  rewrite (sent_unique _ _ _ _ Hsc Hsent). rewrite (got_unique _ _ _ Hgs Hgot).
  rewrite (got_unique _ _ _ Hgc Hgot'). rewrite (sent_unique _ _ _ _ Hss Hsent').
  pose proof (hello_is_wf _ _ _ _ _ _ _ _ Hcl Hi Hn) as W1.
  pose proof (hello_is_wf _ _ _ _ _ _ _ _ Hsv Hi' Hn') as W2.
  pose proof (got_wf _ _ Hgot) as W3. pose proof (got_wf _ _ Hgot') as W4.
  apply hello_ok in Hcl as (_ & _ & Ec & Mc). apply hello_ok in Hsv as (_ & _ & Es & Ms).
  apply verify_hello_ok in Hv as [Ev Mv]. apply verify_hello_ok in Hv' as [Ev' Mv'].
  pose proof (wf_nonce _ W4) as Hn4.
  assert (Lc : "client"%string ∈ ["client"; "server"]%string) by set_solver.
  assert (Ls : "server"%string ∈ ["client"; "server"]%string) by set_solver.
  destruct Ec as (_ & Ec1 & Ec2 & Ec3 & Ec4), Es as (_ & Es1 & Es2 & Es3 & Es4),
    Ev as (_ & Ev1 & Ev2 & Ev3 & _), Ev' as (_ & Ew1 & Ew2 & Ew3 & _). simpl in *.
  split; [|split; [|split]]; intros Hm.
  - destruct (mac_determines "server" "server" key server server' cn (h_nonce client'))
      as [(_ & Hh & Hp)|]; auto; [lia..|left].
    pose proof (same_hello_mac _ _ Hh Hm) as ->. rewrite <- Hp, Es4.
    repeat split; congruence.
  - destruct (mac_determines "client" "client" key client' client [] [])
      as [(_ & Hh & Hp)|]; auto; [simpl; lia..|left].
    pose proof (same_hello_mac _ _ Hh Hm) as ->. repeat split; congruence.
  - destruct (mac_determines "server" "client" key server client cn []) as [(? & _)|];
      auto; [lia|simpl; lia|done].
  - destruct (mac_determines "client" "server" key client' server' [] (h_nonce client'))
      as [(? & _)|]; auto; [simpl; lia|lia|done].
Qed.

End handshake.

(** ** The channel *)

(** What a codec promises: a frame it encodes is read back. *)
Class CodecLaws `{ProtocolCodec} : Prop :=
  decode_encode : forall f plain, encode_frame f = Ok plain -> decode_frame plain = Ok f.

Section channel.
Context {codec : ProtocolCodec} {aead : Aead} {codec_laws : CodecLaws} {aead_laws : AeadLaws}.
Implicit Types (s r : SecurePeerSession) (f : ConstellationFrame) (fs : list ConstellationFrame).

(** The sender's calls, with the sequence number of every frame that has an
    encoding. *)
Fixpoint transmit fs s : list (N * ConstellationFrame) * SecurePeerSession :=
  match fs with
  | [] => ([], s)
  | f :: fs =>
      let '(log, s') := transmit fs (send f s).2 in
      (match encode_frame f with Ok _ => [(tx_seq s, f)] | Err _ => [] end ++ log, s')
  end.

(** The receiver's calls, with the sequence number, the message and the
    outcome wherever a message arrives. *)
Fixpoint receive (n : nat) r :
    list (N * (bytes * result ConstellationFrame ConstellationError)) * SecurePeerSession :=
  match n with
  | 0 => ([], r)
  | S n =>
      let '(log, r') := receive n (recv r).2 in
      (match (read_plain (stream r)).1 with
       | Ok cipher => [(rx_seq r, (cipher, (recv r).1))]
       | Err _ => []
       end ++ log, r')
  end.

Definition delivered (log : list (N * (bytes * result ConstellationFrame ConstellationError))) :
    list (N * ConstellationFrame) :=
  omap (fun e => f ← (match e.2.2 with Ok f => Some f | Err _ => None end); Some (e.1, f)) log.

(** The message the sender sealed under [nonce]. *)
Definition sealed s (log : list (N * ConstellationFrame)) (nonce : bytes) : option bytes :=
  match list_find (fun e => seq_nonce e.1 (tx_nonce_tag s) = nonce) log with
  | Some (_, (_, f)) =>
      match encode_frame f with Ok plain => seal (tx s) nonce plain | Err _ => None end
  | None => None
  end.

(** A message that opens under a nonce and that the sender did not seal
    under it. *)
Definition forged s (log : list (N * ConstellationFrame)) (q : N) (cipher : bytes) : Prop :=
  is_Some (unseal (tx s) (seq_nonce q (tx_nonce_tag s)) cipher)
  /\ sealed s log (seq_nonce q (tx_nonce_tag s)) <> Some cipher.

(** The direction from [s] to [r]. *)
Definition channel s r : Prop :=
  tx s = rx r /\ tx_nonce_tag s = rx_nonce_tag r /\ tx_seq s = rx_seq r.

(** The part of a session that sending does not touch, or receiving. *)
Lemma send_state f s :
  let s' := (send f s).2 in
  tx s' = tx s /\ tx_nonce_tag s' = tx_nonce_tag s
  /\ tx_seq s' = match encode_frame f with Ok _ => u64_wrap (tx_seq s + 1) | Err _ => tx_seq s end.
Proof.
  unfold send, io. unfold_handler. destruct (encode_frame f) as [plain|]; [|done].
  destruct (seal _ _ plain) as [cipher|]; [|done]. simpl. by destruct (write_plain _ _).
Qed.

Lemma recv_state r :
  let r' := (recv r).2 in
  rx r' = rx r /\ rx_nonce_tag r' = rx_nonce_tag r
  /\ match (read_plain (stream r)).1 with
     | Ok cipher =>
         rx_seq r' = u64_wrap (rx_seq r + 1)
         /\ (recv r).1 = match unseal (rx r) (seq_nonce (rx_seq r) (rx_nonce_tag r)) cipher with
                         | Some plain => decode_frame plain
                         | None => Err (error ErrorKind_AuthenticationFailed "decrypt failed")
                         end
     | Err _ => rx_seq r' = rx_seq r
     end.
Proof.
  unfold recv, io. unfold_handler.
  destruct (read_plain (stream r)) as [[cipher|] st]; simpl; [|done].
  by destruct (unseal _ _ cipher) as [plain|]; [destruct (decode_frame plain)|].
Qed.

(** Logs in order of sequence numbers, from [lo] on and below [hi]. *)
Definition ordered {A} (lo hi : N) (l : list (N * A)) : Prop :=
  StronglySorted N.lt l.*1 /\ Forall (fun e => (lo <= e.1 < hi)%N) l.

Lemma ordered_weaken {A} lo lo' hi hi' (l : list (N * A)) :
  (lo' <= lo)%N -> (hi <= hi')%N -> ordered lo hi l -> ordered lo' hi' l.
Proof.
  intros Hlo Hhi [Hs Hf]. split; [done|]. eapply Forall_impl; [exact Hf|]. simpl. lia.
Qed.

Lemma ordered_cons {A} q hi (a : A) l :
  (q + 1 <= hi)%N -> ordered (q + 1) hi l -> ordered q hi ((q, a) :: l).
Proof.
  intros Hq [Hs Hf]. split; simpl.
  - constructor; [done|]. apply Forall_fmap. eapply Forall_impl; [exact Hf|]. simpl. lia.
  - constructor; [simpl; lia|]. eapply Forall_impl; [exact Hf|]. simpl. lia.
Qed.

Lemma sorted_keys_cons {A} (x : N * A) l :
  StronglySorted N.lt (x :: l).*1 ->
  StronglySorted N.lt l.*1 /\ forall e, e ∈ l -> (x.1 < e.1)%N.
Proof.
  rewrite fmap_cons. intros [Hs Hf]%StronglySorted_inv. split; [done|].
  rewrite Forall_forall in Hf. intros e He. apply Hf. by apply list_elem_of_fmap_2.
Qed.

Lemma ordered_omap {A B} (g : A -> option B) lo hi (l : list (N * A)) :
  ordered lo hi l -> ordered lo hi (omap (fun e => b ← g e.2; Some (e.1, b)) l).
Proof.
  intros [Hs Hf]. revert Hs. induction Hf as [|[q a] l Hq Hf IH]; simpl; [done|].
  intros [Hs Hlt]%(sorted_keys_cons (q, a)). specialize (IH Hs) as [IH1 IH2].
  destruct (g a) as [b|]; simpl; [|by split]. split; simpl; constructor; try done.
  apply Forall_fmap, Forall_forall. intros e He%list_elem_of_omap.
  destruct He as ([q' a'] & He & Hb). simpl in Hb. destruct (g a'); [|done]. injection Hb as <-.
  exact (Hlt _ He).
Qed.

(** Of two such logs, one whose entries all are in the other is a
    subsequence of it. *)
Lemma ordered_sublist {A} lo hi lo' hi' (l k : list (N * A)) :
  ordered lo hi l -> ordered lo' hi' k -> (forall e, e ∈ l -> e ∈ k) -> sublist l k.
Proof.
  intros [Hl _] [Hk _]. revert l Hl. induction k as [|y k IH]; intros l Hl Hin.
  - destruct l as [|x l]; [constructor|]. by destruct (not_elem_of_nil x); apply Hin; left.
  - apply sorted_keys_cons in Hk as [Hk Hy]. specialize (IH Hk).
    destruct l as [|x l]; [apply sublist_nil_l|].
    pose proof (sorted_keys_cons _ _ Hl) as [Hls Hx].
    assert (Hrest : forall e, e ∈ l -> e ∈ k).
    { intros e He. specialize (Hx e He).
      assert (e ∈ y :: k) as [->|?]%elem_of_cons by (apply Hin; by right); [|done].
      assert (x ∈ y :: k) as [->|Hxk]%elem_of_cons by (apply Hin; by left); [lia|].
      specialize (Hy x Hxk). lia. }
    assert (x ∈ y :: k) as [->|Hxk]%elem_of_cons by (apply Hin; by left).
    + constructor. by apply IH.
    + constructor. apply IH; [done|].
      intros e [->|He]%elem_of_cons; auto.
Qed.

Lemma transmit_ordered fs s :
  (tx_seq s + N.of_nat (length fs) < 2 ^ 64)%N ->
  ordered (tx_seq s) (tx_seq s + N.of_nat (length fs)) (transmit fs s).1.
Proof.
  revert s. induction fs as [|f fs IH]; intros s; [split; constructor|]. cbn [length transmit]. intros Hb.
  destruct (send_state f s) as (_ & _ & Hseq). specialize (IH (send f s).2).
  destruct (transmit fs (send f s).2) as [log s']. cbn [fst] in *. rewrite Hseq in IH.
  destruct (encode_frame f); cbn [app].
  - unfold u64_wrap in IH. rewrite N.mod_small in IH by lia.
    apply ordered_cons; [lia|]. eapply ordered_weaken, IH; lia.
  - eapply ordered_weaken, IH; lia.
Qed.

Lemma receive_ordered n r :
  (rx_seq r + N.of_nat n < 2 ^ 64)%N ->
  ordered (rx_seq r) (rx_seq r + N.of_nat n) (receive n r).1.
Proof.
  revert r. induction n as [|n IH]; intros r; [split; constructor|]. cbn [receive]. intros Hb.
  destruct (recv_state r) as (_ & _ & Hseq). specialize (IH (recv r).2).
  destruct (receive n (recv r).2) as [log r']. cbn [fst] in *.
  destruct (read_plain (stream r)).1 as [cipher|]; cbn [app].
  - destruct Hseq as [Hseq _]. rewrite Hseq in IH.
    unfold u64_wrap in IH. rewrite N.mod_small in IH by lia.
    apply ordered_cons; [lia|]. eapply ordered_weaken, IH; lia.
  - rewrite Hseq in IH. eapply ordered_weaken, IH; lia.
Qed.

(** What the receiver returns has opened under its sequence number. *)
Lemma receive_opened n r q cipher f :
  (q, (cipher, Ok f)) ∈ (receive n r).1 ->
  exists plain, unseal (rx r) (seq_nonce q (rx_nonce_tag r)) cipher = Some plain
    /\ decode_frame plain = Ok f.
Proof.
  revert r. induction n as [|n IH]; intros r; [by intros ?%elem_of_nil|]. cbn [receive].
  destruct (recv_state r) as (Hk & Ht & Hseq). specialize (IH (recv r).2).
  rewrite Hk, Ht in IH. destruct (receive n (recv r).2) as [log r']. cbn [fst] in *.
  destruct (read_plain (stream r)).1 as [c|]; cbn [app]; [|done].
  destruct Hseq as [_ Hout]. rewrite Hout. intros [Heq|?]%elem_of_cons; [|auto].
  injection Heq as -> -> Hd. destruct (unseal _ _ _) as [plain|]; [eauto|done].
Qed.

Lemma sealed_entry s log nonce cipher :
  sealed s log nonce = Some cipher ->
  exists q f plain, (q, f) ∈ log /\ seq_nonce q (tx_nonce_tag s) = nonce
    /\ encode_frame f = Ok plain /\ seal (tx s) nonce plain = Some cipher.
Proof.
  unfold sealed. destruct (list_find _ log) as [[i [q f]]|] eqn:Hf; [|done].
  apply list_find_Some in Hf as (Hi & Hn & _). destruct (encode_frame f) as [plain|] eqn:He; [|done].
  intros Hs. exists q, f, plain. split; [by eapply list_elem_of_lookup_2|done].
Qed.

(** C13. Whatever bytes arrive: as long as neither end has used up its 64-bit
    sequence numbers, what the receiver returns is a subsequence of what the
    sender sent, by sequence number and frame; nothing is added, altered,
    repeated or reordered.  The only way out is a forgery: one of the
    messages that arrived opens under a nonce under which the sender did not
    seal it. *)
Theorem frames_in_order fs n s r :
  channel s r ->
  (tx_seq s + N.of_nat (length fs) < 2 ^ 64)%N -> (rx_seq r + N.of_nat n < 2 ^ 64)%N ->
  sublist (delivered (receive n r).1) (transmit fs s).1
  \/ exists q cipher outcome, (q, (cipher, outcome)) ∈ (receive n r).1
       /\ forged s (transmit fs s).1 q cipher.
Proof.
  intros (Hkey & Htag & Hseq) Hs Hr. set (log := (transmit fs s).1).
  set (out := (receive n r).1).
  destruct (decide (Exists (fun e => is_Some (unseal (tx s)
      (seq_nonce e.1 (tx_nonce_tag s)) e.2.1)
    /\ sealed s log (seq_nonce e.1 (tx_nonce_tag s)) <> Some e.2.1) out)) as [He|Hn].
  { right. apply Exists_exists in He as ([q [c o]] & Hin & Hf). by exists q, c, o. }
  left. pose proof (transmit_ordered fs s Hs) as Ho. pose proof (receive_ordered n r Hr) as Ho'.
  apply (ordered_omap (fun x => match x.2 with Ok f => Some f | Err _ => None end)) in Ho'.
  eapply ordered_sublist; [exact Ho'|exact Ho|]. intros e He%list_elem_of_omap.
  destruct He as ([q [c o]] & Hin & Hb). simpl in Hb. destruct o as [f|]; [|done].
  injection Hb as <-. destruct (receive_opened _ _ _ _ _ Hin) as (plain & Hu & Hd).
  rewrite <- Hkey, <- Htag in Hu.
  destruct (decide (sealed s log (seq_nonce q (tx_nonce_tag s)) = Some c)) as [Hsd|Hne]; cycle 1.
  { destruct Hn. apply Exists_exists. exists (q, (c, Ok f)). split; [done|]. simpl. by rewrite Hu. }
  apply sealed_entry in Hsd as (q' & f' & plain' & Hlog & Hnn & He & Hsl).
  destruct Ho as [_ Hrange], Ho' as [_ Hrange']. rewrite Forall_forall in Hrange.
  pose proof (Hrange _ Hlog). simpl in *.
  apply seq_nonce_inj in Hnn; [|lia|]; cycle 1.
  { pose proof (receive_ordered n r Hr) as [_ Hq]. rewrite Forall_forall in Hq.
    specialize (Hq _ Hin). simpl in Hq. lia. }
  subst q'. apply unseal_seal in Hsl. rewrite Hu in Hsl. injection Hsl as <-.
  apply decode_encode in He. rewrite Hd in He. by injection He as <-.
Qed.

(** ** The honest session *)

(** A frame whose encoding leaves room for the tag. *)
Definition sendable f : Prop :=
  exists plain, encode_frame f = Ok plain /\ (N.of_nat (length plain) + 16 <= MAX_FRAME_BYTES)%N.

Definition writable (st : ByteStream) : Prop := write_error st = None /\ flush_error st = None.

(** What a session seals with. *)
Definition seals_with (key : bytes) (tag q : N) s : Prop :=
  tx s = key /\ tx_nonce_tag s = tag /\ tx_seq s = q.

Lemma send_ok f key tag q :
  sendable f ->
  exists plain cipher,
    encode_frame f = Ok plain /\ fits_frame cipher
    /\ seal key (seq_nonce q tag) plain = Some cipher
    /\ forall s, seals_with key tag q s -> writable (stream s) ->
         seals_with key tag (u64_wrap (q + 1)) (send f s).2
         /\ stream (send f s).2 = mkByteStream (incoming (stream s))
              (outgoing (stream s) ++ frame_bytes cipher) None None.
Proof.
  intros (plain & He & Hlen).
  destruct (seal_total key (seq_nonce q tag) plain) as [cipher Hc]; [unfold fits_frame; lia|].
  assert (Hfit : fits_frame cipher)
    by (unfold fits_frame; rewrite (seal_length _ _ _ _ Hc); lia).
  exists plain, cipher. split; [done|]. split; [done|]. split; [done|].
  intros s (<- & <- & <-) [Hw Hf]. split.
  { destruct (send_state f s) as (? & ? & Hseq). rewrite He in Hseq. done. }
  unfold send, io. unfold_handler. rewrite He. cbn [fst snd]. rewrite Hc.
  by rewrite (proj2 (write_plain_ok cipher _ _)) by eauto.
Qed.

Lemma recv_ok r cipher rest :
  fits_frame cipher -> incoming (stream r) = frame_bytes cipher ++ rest ->
  (read_plain (stream r)).1 = Ok cipher /\ incoming (stream (recv r).2) = rest.
Proof.
  intros Hf Hi. assert (Hr : read_plain (stream r) = (Ok cipher, mkByteStream rest
    (outgoing (stream r)) (write_error (stream r)) (flush_error (stream r))))
    by (apply read_plain_ok; eauto).
  unfold recv, io. unfold_handler. rewrite Hr. split; [done|]. simpl.
  by destruct (unseal _ _ cipher) as [plain|]; [destruct (decode_frame plain)|].
Qed.

(** What is sent arrives, over a wire that carries it. *)
Lemma pipe fs key tag q :
  Forall sendable fs ->
  exists wire, forall s, seals_with key tag q s -> writable (stream s) ->
    outgoing (stream (transmit fs s).2) = outgoing (stream s) ++ wire
    /\ (transmit fs s).1.*2 = fs
    /\ forall rest r, channel s r -> incoming (stream r) = wire ++ rest ->
         delivered (receive (length fs) r).1 = (transmit fs s).1.
Proof.
  intros Hfs. revert q. induction Hfs as [|f fs Hf Hfs IH]; intros q.
  { exists []. intros s _ _. by rewrite app_nil_r. }
  destruct (send_ok f key tag q Hf) as (plain & cipher & He & Hfit & Hc & Hsend).
  destruct (IH (u64_wrap (q + 1))) as (wire & Hwire).
  exists (frame_bytes cipher ++ wire). intros s Hs Hw. destruct (Hsend s Hs Hw) as [Hs' Hst].
  destruct (Hwire (send f s).2 Hs') as (Hout & Hlog & Hrecv); [by rewrite Hst|].
  cbn [transmit length]. rewrite Hst in Hout.
  destruct (transmit fs (send f s).2) as [log s'].
  cbn [fst snd] in *. split; [by rewrite Hout, app_assoc|]. rewrite He. cbn [app].
  split; [by rewrite fmap_cons, Hlog|].
  intros rest r (H1 & H2 & H3) Hin. rewrite <- app_assoc in Hin.
  destruct (recv_ok r cipher (wire ++ rest) Hfit Hin) as [Hr Hin'].
  destruct (recv_state r) as (K1 & K2 & K3). rewrite Hr in K3. destruct K3 as [K3 Hres].
  specialize (Hrecv rest (recv r).2). cbn [receive]. rewrite Hr.
  destruct (receive (length fs) (recv r).2) as [log' r2]. cbn [fst app] in *.
  destruct Hs as (S1 & S2 & S3), Hs' as (S1' & S2' & S3').
  rewrite Hres, <- H1, <- H2, <- H3, S1, S2, S3, (unseal_seal _ _ _ _ Hc), (decode_encode _ _ He).
  cbn. f_equal. apply Hrecv; [|done]. repeat split; congruence.
Qed.

(** ** A frame without room for the tag *)

(** [send] advances the sequence number before it finds the sealed frame too
    large: nothing is written, and from then on the receiver opens every
    message under the nonce of another. *)
Theorem oversized_frame_desyncs f g s r plain rest :
  channel s r -> writable (stream s) -> outgoing (stream s) = [] ->
  encode_frame f = Ok plain -> fits_frame plain ->
  (MAX_FRAME_BYTES < N.of_nat (length plain) + 16)%N -> sendable g ->
  let '(sent_f, s1) := send f s in
  let '(sent_g, s2) := send g s1 in
  let r' := set_stream (mkByteStream (outgoing (stream s2) ++ rest) [] None None) r in
  sent_f = Err (error ErrorKind_FrameTooLarge "secure-session frame exceeds cap")
  /\ sent_g = Ok tt
  /\ ((recv r').1 = Err (error ErrorKind_AuthenticationFailed "decrypt failed")
      \/ exists plain cipher,
           seal (tx s) (seq_nonce (u64_wrap (tx_seq s + 1)) (tx_nonce_tag s)) plain = Some cipher
           /\ is_Some (unseal (tx s) (seq_nonce (tx_seq s) (tx_nonce_tag s)) cipher)).
Proof.
  intros (Hk & Ht & Hq) [Hw Hf] Hout He Hfit Hbig Hg.
  destruct (seal_total (tx s) (seq_nonce (tx_seq s) (tx_nonce_tag s)) plain Hfit) as [cf Hcf].
  assert (Hsend : send f s
    = (Err (error ErrorKind_FrameTooLarge "secure-session frame exceeds cap"), next_tx s)).
  { unfold send, io, write_plain. unfold_handler. rewrite He. cbn [fst snd]. rewrite Hcf.
    rewrite bool_decide_eq_true_2 by (rewrite (seal_length _ _ _ _ Hcf); lia). done. }
  rewrite Hsend. destruct (send g (next_tx s)) as [sent_g s2] eqn:Hs2.
  destruct (send_ok g (tx s) (tx_nonce_tag s) (u64_wrap (tx_seq s + 1)) Hg)
    as (pg & cg & Heg & Hfg & Hcg & Hsg).
  destruct (Hsg (next_tx s)) as [_ Hst]; [done..|].
  assert (sent_g = Ok tt) as ->.
  { revert Hs2. unfold send, io. unfold_handler. rewrite Heg. cbn [fst snd].
    change (seal _ _ pg) with (seal (tx s) (seq_nonce (u64_wrap (tx_seq s + 1)) (tx_nonce_tag s)) pg).
    rewrite Hcg. rewrite (proj2 (write_plain_ok cg _ _)) by eauto. by intros [= <- _]. }
  split; [done|]. split; [done|]. rewrite Hs2 in Hst. simpl in Hst. rewrite Hst, Hout. simpl.
  set (r' := set_stream _ r). destruct (recv_ok r' cg rest Hfg) as [Hr _]; [done|].
  destruct (recv_state r') as (_ & _ & Hres). rewrite Hr in Hres. destruct Hres as [_ ->].
  simpl. rewrite <- Hk, <- Ht, <- Hq.
  destruct (unseal _ _ cg) as [p|] eqn:Hu; [|by left]. right. exists pg, cg. by rewrite Hu.
Qed.

End channel.

Section honest.
Context {codec : ProtocolCodec} {mac : Hmac} {sha : Sha256} {aead : Aead} {json : HelloJson}.
Context {codec_laws : CodecLaws} {mac_laws : HmacLaws} {aead_laws : AeadLaws}
  {json_laws : HelloJsonLaws}.

(** A hello of the other end passes. *)
Lemma hello_verifies label key identity nonce peer :
  ProtocolToken_parse codec_id = Ok codec_id ->
  ProtocolToken_parse schema_fingerprint = Ok schema_fingerprint ->
  identity_wf identity -> length nonce = 32 ->
  exists h b, hello label key codec_id schema_fingerprint identity nonce peer = Ok h
    /\ h_nonce h = nonce /\ to_vec h = Ok b /\ fits_frame b /\ from_slice b = Ok h
    /\ verify_hello label key codec_id schema_fingerprint h identity peer = Ok tt.
Proof.
  intros Hc Hs Hi Hn.
  set (h := mkHello PROTOCOL_VERSION codec_id schema_fingerprint identity nonce []).
  set (h' := mkHello PROTOCOL_VERSION codec_id schema_fingerprint identity nonce
               (mac_hello label key h peer)).
  assert (Hh : hello label key codec_id schema_fingerprint identity nonce peer = Ok h')
    by by apply hello_ok.
  destruct (json_roundtrip h') as (b & Hb & Hf & Hr); [by eapply hello_is_wf|].
  exists h', b. do 5 (split; [done|]). by apply verify_hello_ok.
Qed.

(** C35. Between an honest client and an honest server that share a key and
    expect each other, over a wire that carries what is written, the session
    is established unless the nonce was seen before, and the frames each end
    sends, if their encodings leave room for the tag, are what the other end
    receives, in order. *)
Theorem session_delivers key ci si cn sn g fs gs :
  ProtocolToken_parse codec_id = Ok codec_id ->
  ProtocolToken_parse schema_fingerprint = Ok schema_fingerprint ->
  identity_wf ci -> identity_wf si -> length cn = 32 -> length sn = 32 -> cn ∉ seen g ->
  Forall sendable fs -> Forall sendable gs ->
  exists to_server to_client cs ss st1 st2 g',
    connect key ci si cn (mkByteStream to_client [] None None) = (Ok cs, st1)
    /\ accept key si ci sn (mkByteStream to_server [] None None, g) = (Ok ss, (st2, g'))
    /\ outgoing (stream (transmit fs cs).2) = to_server
    /\ outgoing (stream (transmit gs ss).2) = to_client
    /\ (delivered (receive (length fs) ss).1).*2 = fs
    /\ (delivered (receive (length gs) cs).1).*2 = gs.
Proof.
  intros Hc Hs Hci Hsi Hcn Hsn Hg Hfs Hgs.
  destruct (hello_verifies "client" key ci cn [] Hc Hs Hci Hcn)
    as (hc & bc & Hhc & <- & Hbc & Fc & Rc & Vc).
  destruct (hello_verifies "server" key si sn (h_nonce hc) Hc Hs Hsi Hsn)
    as (hs & bs & Hhs & <- & Hbs & Fs & Rs & Vs).
  destruct (pipe fs (derive_key key (chars "client-tx") (h_nonce hc) (h_nonce hs)) 1 0 Hfs)
    as [w1 H1].
  destruct (pipe gs (derive_key key (chars "server-tx") (h_nonce hc) (h_nonce hs)) 2 0 Hgs)
    as [w2 H2].
  set (st1 := mkByteStream w2 (frame_bytes bc) None None).
  set (st2 := mkByteStream w1 (frame_bytes bs) None None).
  set (cs := new_encrypted st1 key (h_nonce hc) (h_nonce hs) si Role_Client).
  set (ss := new_encrypted st2 key (h_nonce hc) (h_nonce hs) ci Role_Server).
  destruct (H1 cs) as (O1 & L1 & D1); [done..|]. destruct (H2 ss) as (O2 & L2 & D2); [done..|].
  exists (frame_bytes bc ++ w1), (frame_bytes bs ++ w2), cs, ss, st1, st2,
    (mkNonceReplayGuard ({[h_nonce hc]} ∪ seen g)).
  split.
  { unfold connect, json_err. unfold_handler. rewrite Hhc, Hbc.
    rewrite (proj2 (write_plain_ok bc _ _)) by eauto. cbn [incoming outgoing app].
    rewrite (proj2 (read_plain_ok _ bs st1)); [|by eauto]. by rewrite Rs, Vs. }
  split.
  { unfold accept, json_err, on_stream. unfold_handler. cbn [fst snd].
    rewrite (proj2 (read_plain_ok _ bc (mkByteStream w1 [] None None))); [|by eauto].
    rewrite Rc, Vc. cbn [claim fst snd]. rewrite bool_decide_eq_true_2 by done. cbn [negb].
    rewrite Hhs, Hbs. by rewrite (proj2 (write_plain_ok bs _ _)) by eauto. }
  split; [done|]. split; [done|].
  rewrite (D1 [] ss), (D2 [] cs); [done|done|by rewrite app_nil_r|done|by rewrite app_nil_r].
Qed.

End honest.

(** ** The replay guard *)

Section replay.
Context {codec : ProtocolCodec} {mac : Hmac} {sha : Sha256} {aead : Aead} {json : HelloJson}.

(** One connection offered to the server. *)
Record Attempt := mkAttempt {
  at_key : bytes;
  at_local : SecurePeerIdentity;
  at_remote : SecurePeerIdentity;
  at_nonce : bytes;
  at_stream : ByteStream
}.

Definition accept_attempt (a : Attempt) (g : NonceReplayGuard) :
    result SecurePeerSession ConstellationError * NonceReplayGuard :=
  let '(r, (_, g')) := accept (at_key a) (at_local a) (at_remote a) (at_nonce a) (at_stream a, g) in
  (r, g').

(** The attempts that led to a session, with the guard they share. *)
Fixpoint serve (attempts : list Attempt) (g : NonceReplayGuard) :
    list Attempt * NonceReplayGuard :=
  match attempts with
  | [] => ([], g)
  | a :: attempts =>
      let '(r, g1) := accept_attempt a g in
      let '(served, g2) := serve attempts g1 in
      (if is_ok r then a :: served else served, g2)
  end.

(** The guard claims the nonce of a hello that verifies, and nothing else. *)
Lemma accept_guard a g r g' :
  accept_attempt a g = (r, g') ->
  (g' = g /\ is_ok r = false)
  \/ exists h, got (at_stream a) h
       /\ verify_hello "client" (at_key a) codec_id schema_fingerprint h (at_remote a) [] = Ok tt
       /\ seen g' = {[h_nonce h]} ∪ seen g
       /\ (is_ok r = true -> h_nonce h ∉ seen g).
Proof.
  unfold accept_attempt, accept, on_stream. unfold_handler. cbn [fst snd].
  destruct (read_plain (at_stream a)) as [[b|] st1] eqn:Hr; [|by intros [= <- <-]; left].
  apply read_plain_ok in Hr as (Hf & rest & Hr & ->).
  destruct (json_err (from_slice b)) as [client|] eqn:Hc; [|by intros [= <- <-]; left].
  apply json_read in Hc.
  destruct (verify_hello _ _ _ _ _ _ _) as [[]|] eqn:Hv; [|by intros [= <- <-]; left].
  assert (Hgot : got (at_stream a) client) by by exists b, rest.
  cbn [claim fst snd]. intros Hrun. right. exists client. split; [done|]. split; [done|].
  case_bool_decide as Hfresh; simpl in Hrun; [|by injection Hrun as <- <-].
  destruct (hello _ _ _ _ _ _ _) as [server|]; [|by injection Hrun as <- <-].
  destruct (json_err (to_vec server)) as [b'|]; [|by injection Hrun as <- <-].
  destruct (write_plain b' _) as [[[]|] st2]; by injection Hrun as <- <-.
Qed.

Lemma serve_fresh attempts g a h :
  a ∈ (serve attempts g).1 -> got (at_stream a) h -> h_nonce h ∉ seen g.
Proof.
  revert g. induction attempts as [|b attempts IH]; intros g; [by intros ?%elem_of_nil|].
  cbn [serve]. destruct (accept_attempt b g) as [r g1] eqn:Ha. specialize (IH g1).
  destruct (serve attempts g1) as [served g2]. cbn [fst] in *. intros Hin Hgot.
  destruct (accept_guard _ _ _ _ Ha) as [[-> Hr]|(h' & Hg' & _ & Hs & Hnew)].
  - rewrite Hr in Hin. auto.
  - destruct (is_ok r).
    + apply elem_of_cons in Hin as [->|Hin]; [|set_solver].
      rewrite (got_unique _ _ _ Hgot Hg'). auto.
    + set_solver.
Qed.

(** No two sessions of one server come from one client nonce. *)
Theorem nonce_accepted_once attempts g l1 a l2 b l3 h h' :
  (serve attempts g).1 = l1 ++ a :: l2 ++ b :: l3 ->
  got (at_stream a) h -> got (at_stream b) h' -> h_nonce h <> h_nonce h'.
Proof.
  revert g l1. induction attempts as [|c attempts IH]; intros g l1; [by destruct l1|].
  cbn [serve]. destruct (accept_attempt c g) as [r g1] eqn:Ha. specialize (IH g1).
  pose proof (serve_fresh attempts g1 b h') as Hfresh.
  destruct (serve attempts g1) as [served g2]. cbn [fst] in *. intros Heq Hg Hg' Hn.
  destruct (is_ok r) eqn:Hr; [|by eapply IH].
  destruct l1 as [|x l1]; [|injection Heq as _ Heq; by eapply IH].
  injection Heq as -> ->. apply Hfresh; [set_solver|done|].
  destruct (accept_guard _ _ _ _ Ha) as [[_ ?]|(k & Hk & _ & -> & _)]; [congruence|].
  rewrite <- Hn, (got_unique _ _ _ Hg Hk). set_solver.
Qed.

End replay.
End SecureSession.

(** ** An instance *)

Module SecureDemo.
Import PeerSession SecureSession.

#[local] Instance toy_hmac : Hmac := fun key message =>
  take 32 (key ++ message ++ replicate 32 "0"%char).

#[local] Instance toy_hmac_laws : HmacLaws.
Proof.
  intros key message. unfold hmac_sha256, toy_hmac.
  rewrite length_take, !length_app, length_replicate. lia.
Qed.

#[local] Instance toy_sha : Sha256 := fun b => b.

(** A tag of the nonce and the key, then the message. *)
Definition toy_tag (key nonce : bytes) : bytes :=
  take 12 (nonce ++ replicate 12 "0"%char) ++ take 4 (key ++ replicate 4 "0"%char).

Lemma toy_tag_length key nonce : length (toy_tag key nonce) = 16.
Proof.
  unfold toy_tag. rewrite length_app, !length_take, !length_app, !length_replicate. lia.
Qed.

#[local] Instance toy_aead : Aead := {|
  seal key nonce plain := Some (toy_tag key nonce ++ plain);
  unseal key nonce cipher :=
    if bool_decide (take 16 cipher = toy_tag key nonce) then Some (drop 16 cipher) else None
|}.

#[local] Instance toy_aead_laws : AeadLaws.
Proof.
  split; simpl.
  - intros key nonce plain cipher [= <-].
    rewrite take_app_length', drop_app_length' by (by rewrite toy_tag_length).
    by rewrite bool_decide_eq_true_2.
  - intros key nonce plain cipher. case_bool_decide as Ht; [|done]. intros [= <-].
    by rewrite <- Ht, take_drop.
  - intros key nonce plain cipher [= <-]. rewrite length_app, toy_tag_length. lia.
  - eauto.
Qed.

(** A codec for two frames. *)
Definition rejected (reason : HandshakeRejectedReason) : ConstellationFrame :=
  ConstellationFrame_HandshakeRejected (mkHandshakeRejected reason).

#[local] Instance toy_codec : ProtocolCodec := {|
  codec_id := "toy";
  schema_fingerprint := "v1";
  encode_frame f :=
    match f with
    | ConstellationFrame_HandshakeRejected (mkHandshakeRejected
        HandshakeRejectedReason_VersionSkew) => Ok ["v"%char]
    | ConstellationFrame_HandshakeRejected (mkHandshakeRejected
        HandshakeRejectedReason_CodecMismatch) => Ok ["c"%char]
    | _ => Err (error ErrorKind_MalformedFrame "unknown frame")
    end;
  decode_frame b :=
    if bool_decide (b = ["v"%char]) then Ok (rejected HandshakeRejectedReason_VersionSkew)
    else if bool_decide (b = ["c"%char]) then Ok (rejected HandshakeRejectedReason_CodecMismatch)
    else Err (error ErrorKind_MalformedFrame "unknown frame")
|}.

#[local] Instance toy_codec_laws : CodecLaws.
Proof. intros f plain. simpl. by repeat case_match; intros [= <-]. Qed.

(** A hello as its fields, each with its length. *)
Definition toy_fields (h : Hello) : list bytes :=
  [be_bytes 4 (h_version h); chars (h_codec_id h); chars (h_schema_fingerprint h);
   chars (target_form (sp_realm (h_identity h))); chars (sp_principal (h_identity h));
   chars (sp_node (h_identity h)); h_nonce h; h_mac h].

Fixpoint read_fields (n : nat) (b : bytes) : option (list bytes) :=
  match n with
  | 0 => Some []
  | S n =>
      let len := N.to_nat (from_le_bytes (reverse (take 8 b))) in
      fs ← read_fields n (drop len (drop 8 b)); Some (take len (drop 8 b) :: fs)
  end.

Abbreviation str := String.string_of_list_ascii (only parsing).

Definition read_hello (b : bytes) : option Hello :=
  match read_fields 8 b with
  | Some [v; c; s; r; p; n; nonce; mac] =>
      Some (mkHello (from_le_bytes (reverse v)) (str c) (str s)
              (mkSecurePeerIdentity (Target.split_dots (str r)) (str p) (str n)) nonce mac)
  | _ => None
  end.

#[local] Instance TokenError_eq_dec : EqDecision TokenError.
Proof. solve_decision. Defined.

Definition hello_checks (h : Hello) : Prop :=
  (h_version h < 2 ^ 32)%N
  /\ ProtocolToken_parse (h_codec_id h) = Ok (h_codec_id h)
  /\ ProtocolToken_parse (h_schema_fingerprint h) = Ok (h_schema_fingerprint h)
  /\ (RealmPath_new (sp_realm (h_identity h)) = Some (sp_realm (h_identity h))
      /\ Forall (fun l => parse_label l = Ok l) (sp_realm (h_identity h))
      /\ parse_opaque (sp_principal (h_identity h)) = Ok (sp_principal (h_identity h))
      /\ parse_label (sp_node (h_identity h)) = Ok (sp_node (h_identity h)))
  /\ length (h_nonce h) = 32 /\ length (h_mac h) = 32.

#[local] Instance hello_checks_dec h : Decision (hello_checks h).
Proof. unfold hello_checks. apply _. Defined.

Lemma hello_checks_wf h : hello_checks h <-> hello_wf h.
Proof.
  split.
  - intros (? & ? & ? & (? & ? & ? & ?) & ? & ?).
    by constructor; [..|constructor| |].
  - intros [? ? ? [? ? ? ?] ? ?]. by repeat apply conj.
Qed.

#[local] Instance hello_wf_dec h : Decision (hello_wf h).
Proof. refine (cast_if (decide (hello_checks h))); abstract (by rewrite <- hello_checks_wf). Defined.

#[local] Instance toy_json : HelloJson := {|
  to_vec h := Ok (concat (map mac_field (toy_fields h)));
  from_slice b :=
    match read_hello b with
    | Some h => if decide (hello_wf h) then Ok h else Err "not a hello"%string
    | None => Err "not a hello"%string
    end
|}.

Lemma read_fields_concat fs :
  Forall fits_u64 fs -> read_fields (length fs) (concat (map mac_field fs)) = Some fs.
Proof.
  induction 1 as [|f fs Hf Hfs IH]; [done|]. cbn [map concat length read_fields].
  revert IH. generalize (concat (map mac_field fs)). intros rest IH.
  unfold mac_field. rewrite <- !app_assoc.
  rewrite !take_app_length', !drop_app_length' by by rewrite Gateway.Handshake.be_bytes_length.
  assert (from_le_bytes (reverse (be_bytes 8 (N.of_nat (length f)))) = N.of_nat (length f)) as ->.
  { unfold Gateway.Handshake.be_bytes. rewrite reverse_involutive.
    by apply from_le_bytes_le_bytes. }
  rewrite Nat2N.id, take_app_length, drop_app_length. by rewrite IH.
Qed.

Lemma fields_short h : hello_wf h -> Forall (fun f => length f <= 255) (toy_fields h).
Proof.
  intros [_ Hc Hs Hi Hn Hm]. apply identity_fits in Hi as (H1 & H2 & H3 & _).
  unfold toy_fields. rewrite !Forall_cons, Gateway.Handshake.be_bytes_length, Hn, Hm.
  assert (Htok : forall t, ProtocolToken_parse t = Ok t -> length (chars t) <= 255).
  { intros t. unfold ProtocolToken_parse, MAX_PROTOCOL_TOKEN_LEN. rewrite length_chars.
    destruct (_ =? _)%string; [done|]. case_bool_decide; [done|]. lia. }
  apply Htok in Hc, Hs. repeat apply conj; try done; lia.
Qed.

Lemma concat_short fs :
  Forall (fun f => length f <= 255) fs -> length (concat (map mac_field fs)) <= 263 * length fs.
Proof.
  induction 1 as [|f fs Hf Hfs IH]; [done|]. cbn [map concat length]. unfold mac_field at 1.
  rewrite !length_app, Gateway.Handshake.be_bytes_length. lia.
Qed.

Lemma read_hello_fields h : hello_wf h -> read_hello (concat (map mac_field (toy_fields h))) = Some h.
Proof.
  intros Hw. unfold read_hello. change 8 with (length (toy_fields h)) at 1.
  rewrite read_fields_concat.
  - unfold toy_fields. destruct Hw as [Hv _ _ Hi _ _].
    apply identity_fits in Hi as (_ & _ & _ & Hne & Hdot).
    assert (from_le_bytes (reverse (be_bytes 4 (h_version h))) = h_version h) as ->.
    { unfold Gateway.Handshake.be_bytes. rewrite reverse_involutive.
      by apply from_le_bytes_le_bytes. }
    rewrite !String.string_of_list_ascii_of_string, Target.split_target_form by done.
    by destruct h as [? ? ? [] ? ?].
  - eapply Forall_impl; [by apply fields_short|]. intros f Hf. by apply (short_u64 f 255).
Qed.

#[local] Instance toy_json_laws : HelloJsonLaws.
Proof.
  split; cbn [to_vec from_slice toy_json].
  - intros h Hw. eexists. split; [done|]. split.
    + pose proof (concat_short _ (fields_short h Hw)) as Hlen. unfold fits_frame, MAX_FRAME_BYTES.
      change (length (toy_fields h)) with 8 in Hlen. lia.
    + rewrite read_hello_fields by done. by destruct (decide (hello_wf h)).
  - intros b h. destruct (read_hello b) as [h'|]; [|done].
    by destruct (decide (hello_wf h')); [intros [= <-]|].
Qed.

Definition key : bytes := replicate 32 "k"%char.
Definition cn : bytes := replicate 32 "c"%char.
Definition sn : bytes := replicate 32 "s"%char.
Definition ci : SecurePeerIdentity := mkSecurePeerIdentity ["work"%string] "alice" "laptop".
Definition si : SecurePeerIdentity := mkSecurePeerIdentity ["work"%string] "gateway" "gw".

Lemma ci_wf : identity_wf ci.
Proof. split; try reflexivity. by repeat constructor. Qed.

Lemma si_wf : identity_wf si.
Proof. split; try reflexivity. by repeat constructor. Qed.

(** What the two ends write to each other. *)
Definition to_server : bytes := outgoing (connect key ci si cn (mkByteStream [] [] None None)).2.
Definition server_run := accept key si ci sn (mkByteStream to_server [] None None, mkNonceReplayGuard ∅).
Definition to_client : bytes := outgoing server_run.2.1.
Definition client_run := connect key ci si cn (mkByteStream to_client [] None None).

Definition demo_frames : list ConstellationFrame :=
  [rejected HandshakeRejectedReason_VersionSkew; rejected HandshakeRejectedReason_CodecMismatch].

Lemma demo_sendable : Forall sendable demo_frames.
Proof. repeat constructor; eexists; split; reflexivity || (vm_compute; discriminate). Qed.

Lemma session_delivers_witness :
  exists to_server to_client cs ss st1 st2 g',
    connect key ci si cn (mkByteStream to_client [] None None) = (Ok cs, st1)
    /\ accept key si ci sn (mkByteStream to_server [] None None, mkNonceReplayGuard ∅)
       = (Ok ss, (st2, g'))
    /\ outgoing (stream (transmit demo_frames cs).2) = to_server
    /\ outgoing (stream (transmit [] ss).2) = to_client
    /\ (delivered (receive (length demo_frames) ss).1).*2 = demo_frames
    /\ (delivered (receive 0 cs).1).*2 = [].
Proof.
  apply (session_delivers key ci si cn sn (mkNonceReplayGuard ∅) demo_frames []);
    [reflexivity|reflexivity|exact ci_wf|exact si_wf|reflexivity|reflexivity| |exact demo_sendable
    |constructor].
  simpl. apply not_elem_of_empty.
Defined.

Definition session_of {A} (r : result SecurePeerSession ConstellationError * A) : SecurePeerSession :=
  match r.1 with
  | Ok s => s
  | Err _ => mkSecurePeerSession (mkByteStream [] [] None None) [] [] 0 0 0 0 ci
  end.

Definition first_hello (b : bytes) : Hello :=
  match read_plain (mkByteStream b [] None None) with
  | (Ok b, _) => match from_slice b with Ok h => h | Err _ => mkHello 0 "" "" ci [] [] end
  | _ => mkHello 0 "" "" ci [] []
  end.

Lemma session_agreement_witness :
  h_mac (first_hello to_client) = h_mac (first_hello to_client)
  /\ (mirrored (session_of client_run) (session_of server_run)
      \/ hellos_collide key "server" "server" (first_hello to_client) (first_hello to_client) cn
           (h_nonce (first_hello to_server))).
Proof.
  split; [reflexivity|].
  destruct (session_agreement toy_codec toy_codec key ci si cn (mkByteStream to_client [] None None)
    (session_of client_run) client_run.2 si ci sn (mkByteStream to_server [] None None)
    (mkNonceReplayGuard ∅) (session_of server_run) server_run.2.1 server_run.2.2
    (first_hello to_server) (first_hello to_client) (first_hello to_server)
    (first_hello to_client)) as [Hs _].
  - exact ci_wf.
  - exact si_wf.
  - reflexivity.
  - reflexivity.
  - vm_compute. reflexivity.
  - vm_compute. reflexivity.
  - exists (drop 4 to_server). split; [vm_compute; discriminate|]. split; vm_compute; reflexivity.
  - exists (drop 4 to_client), []. split; [vm_compute; discriminate|]. split; vm_compute; reflexivity.
  - exists (drop 4 to_server), []. split; [vm_compute; discriminate|]. split; vm_compute; reflexivity.
  - exists (drop 4 to_client). split; [vm_compute; discriminate|]. split; vm_compute; reflexivity.
  - destruct (Hs eq_refl) as [(_ & _ & _ & _ & _ & Hm)|Hc]; [left; exact Hm|right; exact Hc].
Defined.

Lemma frames_in_order_witness :
  let s := session_of client_run in
  let r := set_stream (mkByteStream (outgoing (stream (transmit demo_frames s).2)) [] None None)
             (session_of server_run) in
  sublist (delivered (receive 3 r).1) (transmit demo_frames s).1
  \/ exists q cipher outcome, (q, (cipher, outcome)) ∈ (receive 3 r).1
       /\ forged s (transmit demo_frames s).1 q cipher.
Proof.
  refine (frames_in_order demo_frames 3 _ _ _ _ _).
  - split; [|split]; vm_compute; reflexivity.
  - vm_compute. reflexivity.
  - vm_compute. reflexivity.
Defined.

End SecureDemo.
