(* ===== verification/Usbip.v ===== *)
(** * USB passthrough

    The per-busid plan of the daemon ([d2bd/usbip_state_machine.rs],
    [Module BusidPlan]) and what the privileged broker does for it: bus ids
    ([d2b-contracts/usbip.rs], [Module BusId]), the claim file of a busid
    ([d2b-priv-broker/ops/usbip_lock.rs]), the inspection of the host
    ([ops/usbip_host.rs]), the live handlers, and the dispatch of
    [UsbipBind], [UsbipUnbind] and [UsbipExplicitBind] with their rollbacks
    ([Module UsbipBroker]).  The broker serves one connection at a time, so a
    history is a list of requests.  Files, sysfs, the [usbip] command, ACLs
    and the audit log answer each call as an arbitrary function of time. *)

From S2P Require Import Prelude Ids Streams Frame Targets Text.

Local Open Scope rust_scope.

(** ** Bus ids *)

Module BusId.

Definition SYSFS_BUS_ID_MAX : nat := 31.

Inductive BusIdError : Set := Empty | Invalid | TooLong (max : nat).

Definition segment_ok (segment : string) : bool :=
  negb (bool_decide (segment = ""%string))
  && forallb is_ascii_digit (chars segment)
  && negb (bool_decide (1 < String.length segment) && starts_with ["0"%char] (chars segment)).

Definition validate_bus_id (bus_id : string) : result unit BusIdError :=
  if bool_decide (bus_id = ""%string) then Err Empty
  else if bool_decide (SYSFS_BUS_ID_MAX < String.length bus_id)
  then Err (TooLong SYSFS_BUS_ID_MAX)
  else match split_once "-" bus_id with
  | None => if segment_ok bus_id then Ok tt else Err Invalid
  | Some (bus, port_chain) =>
      if segment_ok bus && negb (bool_decide (port_chain = ""%string))
      then if forallb segment_ok (Target.split_dots port_chain) then Ok tt else Err Invalid
      else Err Invalid
  end.

(** [parse_port_chain]; the error carries the text. *)
Fixpoint parse_ports (segments : list string) : option (list N) :=
  match segments with
  | [] => Some []
  | s :: segments =>
      match parse_u8 s, parse_ports segments with
      | Some n, Some ns => Some (n :: ns)
      | _, _ => None
      end
  end.

Definition parse_port_chain (raw : string) : option (list N) :=
  if bool_decide (raw = ""%string) then Some [] else parse_ports (Target.split_dots raw).

End BusId.

(** ** The privileged broker *)

Module UsbipBroker.
Import BusId.

Inductive UsbipDriverBinding : Type :=
| Unbound
| BoundToUsbipHost
| BoundToOtherDriver (driver : string).

#[global] Instance UsbipDriverBinding_eq_dec : EqDecision UsbipDriverBinding.
Proof. solve_decision. Defined.

Inductive UsbipHostInspectionError : Type :=
| InvalidBusId (bus_id : string)
| DeviceMissing (bus_id : string)
| MissingRequiredAttr (bus_id attr : string)
| AttrIo (bus_id attr : string)
| AttrParse (bus_id attr value : string)
| AllowlistMissing (intent_id : string)
| AllowlistMismatch (bus_id : string) (vendor product : N)
| TopologyIncomplete (bus_id : string)
| TopologyMismatch (bus_id : string) (expected_bus : N) (expected_ports : list N)
    (observed_bus : N) (observed_ports : list N)
| DeviceIdentityChanged (bus_id : string) (initial_devnum observed_devnum : N)
| DeviceDepartedDuringInspection (bus_id : string)
| PathSafetyViolation
| DriverUnbindUnsupported.

Inductive UsbipLockError : Type :=
| LockAlreadyHeld (path existing_owner : string)
| OwnerMismatch (path expected observed : string)
| Io (path : string).

Inductive LiveHandlerError : Type :=
| UsbipLock (e : UsbipLockError)
| UsbipInspection (e : UsbipHostInspectionError)
| UsbipNotConverged (observed : UsbipDriverBinding)
| UsbipUnbindRefused (owner : string)
| UsbipUnbindOtherDriver (driver : string)
| UsbipStillBound
| ReconcileExec
| Activation.

Inductive BrokerError : Type :=
| BundleResolverUnavailable
| BundleIntentMissing (kind intent_id : string)
| UsbipLockConflict (busid owner : string)
| UsbipDeviceNotAllowed (busid : string) (vendor product : N)
| UsbipPolicyMismatch (busid reason : string)
| UsbipDeviceAbsent (busid : string)
| LiveHandler (e : LiveHandlerError)
| AclNodeChanged (granted observed : string)
| AclIdentityChanged (expected observed : N * N)
| AclFailed
| SerialKey
| AuditFailed.

Record ResolvedUsbipBindIntent := mkBindIntent {
  intent_id : string;
  bus_id : string;
  vm_name : string;
  env : string;
  vendor_product_allowlist : list (N * N);
  dynamic_bus_id : bool
}.

(** The parts of the bundle resolver these requests use: which firewall
    intents there are, the bind intents, and the uid of each runner intent. *)
Record BundleResolver := mkBundleResolver {
  usbip_firewall_intents : gset string;
  usbip_bind_intents : gmap string ResolvedUsbipBindIntent;
  runner_uids : gmap string N
}.

Record UsbipHostDeviceInspection := mkInspection {
  vendor : N;
  product : N;
  bus_number : N;
  port_chain : list N;
  device_node : string;
  driver : UsbipDriverBinding
}.

(** What was done to a device, for which VM, whether the call succeeded, and
    the text of the claim file at that moment. *)
Inductive Effect : Type :=
| RunBind
| ShutdownStreams
| WaitStreams
| RunUnbind
| GrantAcl (node : string) (uid : N)
| RevokeAcl (node : string) (uid : N).

Record Event := mkEvent {
  ev_bus : string;
  ev_vm : string;
  ev_effect : Effect;
  ev_ok : bool;
  ev_claim : option string
}.

(** The claim files under [/run/d2b/locks/usbip], by bus id: every lock path
    of the broker is [/run/d2b/locks/usbip/<bus_id>].  [tick] counts the
    calls answered by the system. *)
Record Broker := mkBroker {
  locks : gmap string string;
  tick : N;
  events : list Event;
  audited : list string
}.

Inductive DirStat : Set := Directory | NotDirectory | DirNotFound | DirError.
Inductive AttrRead : Type := Attr (raw : string) | AttrNotFound | AttrError.
Inductive LinkRead : Type := Link (basename : option string) | LinkNotFound | LinkError.

(** The answers of the system at each point in time. *)
Record World := mkWorld {
  w_lock_io : N -> bool;
  w_lock_written : N -> nat;
  w_dir : N -> string -> DirStat;
  w_attr : N -> string -> string -> AttrRead;
  w_driver : N -> string -> LinkRead;
  w_unbind_supported : N -> bool;
  w_run : N -> bool;
  w_acl : N -> bool;
  w_serial_key : N -> option bool;
  w_audit : N -> bool
}.

Section broker.
Context (w : World).

Definition step {E} : handler Broker E N := fun s =>
  (Ok (tick s), mkBroker (locks s) (tick s + 1) (events s) (audited s)).

Definition set_locks (f : gmap string string -> gmap string string) (s : Broker) : Broker :=
  mkBroker (f (locks s)) (tick s) (events s) (audited s).

Definition record_event (bus vm : string) (effect : Effect) (ok : bool) (s : Broker) : Broker :=
  mkBroker (locks s) (tick s) (events s ++ [mkEvent bus vm effect ok (locks s !! bus)])
    (audited s).

Definition map_err {E F A} (f : E -> F) (m : handler Broker E A) : handler Broker F A :=
  fun s => match m s with (Ok a, s') => (Ok a, s') | (Err e, s') => (Err (f e), s') end.

(** [let _ = m], and [if let Err(..) = m] that only logs. *)
Definition ignore {E F A} (m : handler Broker E A) : handler Broker F unit :=
  fun s => (Ok tt, (m s).2).

Definition try_ {E F A} (m : handler Broker E A) : handler Broker F (result A E) :=
  fun s => let '(r, s') := m s in (Ok r, s').

(** ** The claim file ([usbip_lock.rs]) *)

(** One call on the lock directory or an open file, which may fail. *)
Definition lock_io (path : string) : handler Broker UsbipLockError unit :=
  let? t := step in h_reject (negb (w_lock_io w t)) (Io path).

(** [write_all]: on failure a part of the text may have been written. *)
Definition write_all (path text : string) : handler Broker UsbipLockError unit :=
  let? t := step in
  let append written :=
    h_modify (set_locks (alter (fun content => content +:+ written) path)) in
  if w_lock_io w t then append text
  else append (String.string_of_list_ascii (take (w_lock_written w t) (chars text))) ?;
       h_throw (Io path).

Definition newline : string := String "010"%char "".

(** The file is created; [fchmod], [fchown], the two writes and [fsync]
    follow, and a failure leaves the file as it is. *)
Definition create_claim (path owner_vm : string) : handler Broker UsbipLockError unit :=
  lock_io path ?;
  h_modify (set_locks <[path := ""%string]>) ?;
  lock_io path ?;
  lock_io path ?;
  write_all path owner_vm ?;
  write_all path newline ?;
  lock_io path.

(** [O_EXCL] refuses to create a file that exists. *)
Definition acquire_lock (path owner_vm : string) : handler Broker UsbipLockError unit :=
  lock_io path ?;
  let? s := h_get in
  match locks s !! path with
  | Some content =>
      let? t := step in
      let existing := if w_lock_io w t then trim content else "<unreadable>"%string in
      if bool_decide (trim existing = owner_vm) then h_ret tt
      else h_throw (LockAlreadyHeld path existing)
  | None => create_claim path owner_vm
  end.

Definition release_lock (path expected_owner : string) : handler Broker UsbipLockError unit :=
  lock_io path ?;
  let? s := h_get in
  match locks s !! path with
  | None => h_ret tt
  | Some content =>
      lock_io path ?;
      let observed := trim content in
      h_reject (bool_decide (observed <> expected_owner))
        (OwnerMismatch path expected_owner observed) ?;
      lock_io path ?;
      h_modify (set_locks (delete path))
  end.

(** [peek_owner]: no owner too when the file cannot be read. *)
Definition peek_owner {E} (path : string) : handler Broker E (option string) :=
  let? t := step in
  let? s := h_get in
  h_ret (if w_lock_io w t then trim <$> locks s !! path else None).

(** ** Inspection ([usbip_host.rs]) *)

Definition validate_bus_id_for_path (bus : string) : result unit UsbipHostInspectionError :=
  match validate_bus_id bus with Ok _ => Ok tt | Err _ => Err (InvalidBusId bus) end.

Definition parse_bus_id_topology (bus_id : string) :
    result (N * list N) UsbipHostInspectionError :=
  r_bind (validate_bus_id_for_path bus_id) (fun _ =>
  let '(bus, ports) :=
    match split_once "-" bus_id with Some p => p | None => (bus_id, ""%string) end in
  match parse_u16 bus with
  | None => Err (InvalidBusId bus_id)
  | Some bus =>
      match parse_port_chain ports with
      | None => Err (AttrParse bus_id "busid" ports)
      | Some ports => Ok (bus, ports)
      end
  end).

Definition insp (A : Type) : Type := handler Broker UsbipHostInspectionError A.

(** [trim_end_matches(&['\r', '\n'])] *)
Fixpoint trim_newlines (l : list Ascii.ascii) : list Ascii.ascii :=
  match l with
  | c :: r => if char_eqb c "010"%char || char_eqb c "013"%char then trim_newlines r else l
  | [] => []
  end.

Definition read_required_attr (bus attr : string) : insp string :=
  let? t := step in
  match w_attr w t bus attr with
  | Attr raw =>
      h_ret (String.string_of_list_ascii (reverse (trim_newlines (reverse (chars raw)))))
  | AttrNotFound => h_throw (MissingRequiredAttr bus attr)
  | AttrError => h_throw (AttrIo bus attr)
  end.

Definition read_decimal_attr (bus attr : string) : insp N :=
  let? raw := read_required_attr bus attr in
  match parse_u16 raw with Some n => h_ret n | None => h_throw (AttrParse bus attr raw) end.

(** [trim_start_matches("0x")] *)
Fixpoint trim_0x (l : list Ascii.ascii) : list Ascii.ascii :=
  match l with
  | "0"%char :: ("x"%char :: r) => trim_0x r
  | l => l
  end.

Definition read_hex_attr (bus attr : string) : insp N :=
  let? raw := read_required_attr bus attr in
  match parse_radix 16 65535 (String.string_of_list_ascii (trim_0x (chars raw))) with
  | Some n => h_ret n
  | None => h_throw (AttrParse bus attr raw)
  end.

Definition inspect_usbip_driver_binding (bus : string) : insp UsbipDriverBinding :=
  h_lift (validate_bus_id_for_path bus) ?;
  let? t := step in
  match w_driver w t bus with
  | Link (Some driver) =>
      h_ret (if bool_decide (driver = "usbip-host"%string) then BoundToUsbipHost
             else BoundToOtherDriver driver)
  | Link None => h_throw PathSafetyViolation
  | LinkNotFound => h_ret Unbound
  | LinkError => h_throw (AttrIo bus "driver")
  end.

(** [{:03}] *)
Definition pad3 (n : N) : string :=
  let s := pretty n in
  String.string_of_list_ascii (replicate (3 - String.length s) "0"%char) +:+ s.

Definition inspect_usbip_host_device (bus : string) : insp UsbipHostDeviceInspection :=
  h_lift (validate_bus_id_for_path bus) ?;
  let? expected := h_lift (parse_bus_id_topology bus) in
  h_reject (bool_decide (expected.2 = [])) (TopologyIncomplete bus) ?;
  let? t := step in
  match w_dir w t bus with
  | NotDirectory => h_throw PathSafetyViolation
  | DirNotFound => h_throw (DeviceMissing bus)
  | DirError => h_throw (AttrIo bus "device")
  | Directory =>
      let? initial_devnum := read_decimal_attr bus "devnum" in
      let? vendor := read_hex_attr bus "idVendor" in
      let? product := read_hex_attr bus "idProduct" in
      let? observed_bus := read_decimal_attr bus "busnum" in
      let? devpath := read_required_attr bus "devpath" in
      let? observed_ports :=
        match parse_port_chain devpath with
        | Some ports => h_ret ports
        | None => h_throw (AttrParse bus "devpath" devpath)
        end in
      let? observed_devnum :=
        map_err (fun e => match e with
                          | MissingRequiredAttr _ "devnum" => DeviceDepartedDuringInspection bus
                          | other => other
                          end) (read_decimal_attr bus "devnum") in
      h_reject (bool_decide (initial_devnum <> observed_devnum))
        (DeviceIdentityChanged bus initial_devnum observed_devnum) ?;
      h_reject (bool_decide (expected.1 <> observed_bus)
                || bool_decide (expected.2 <> observed_ports))
        (TopologyMismatch bus expected.1 expected.2 observed_bus observed_ports) ?;
      let? driver := inspect_usbip_driver_binding bus in
      h_ret (mkInspection vendor product observed_bus observed_ports
               ("/dev/bus/usb/" +:+ pad3 observed_bus +:+ "/" +:+ pad3 observed_devnum) driver)
  end.

Definition enforce_allowlist (intent : ResolvedUsbipBindIntent) (vendor product : N) :
    result unit UsbipHostInspectionError :=
  if bool_decide (vendor_product_allowlist intent = []) then Err (AllowlistMissing (intent_id intent))
  else if existsb (fun pair => (pair.1 =? vendor)%N && (pair.2 =? product)%N)
            (vendor_product_allowlist intent)
  then Ok tt
  else Err (AllowlistMismatch (bus_id intent) vendor product).

Definition enforce_usbip_physical_policy (intent : ResolvedUsbipBindIntent) :
    insp UsbipHostDeviceInspection :=
  let? inspection := inspect_usbip_host_device (bus_id intent) in
  h_lift (enforce_allowlist intent (vendor inspection) (product inspection)) ?;
  h_ret inspection.

(** [ensure_usbip_host_driver_unbind_supported]: the attribute file is there. *)
Definition ensure_usbip_host_driver_unbind_supported : insp unit :=
  let? t := step in h_reject (negb (w_unbind_supported w t)) DriverUnbindUnsupported.

(** ** The live handlers ([live_handlers.rs]) *)

Definition live (A : Type) : Type := handler Broker LiveHandlerError A.

(** A call of the executor on behalf of [vm]. *)
Definition exec (bus vm : string) (effect : Effect) : live unit :=
  let? t := step in
  h_modify (record_event bus vm effect (w_run w t)) ?;
  h_reject (negb (w_run w t)) ReconcileExec.

Definition live_usbip_bind (bus vm : string) : live unit :=
  map_err UsbipLock (acquire_lock bus vm) ?;
  let? observed := try_ (inspect_usbip_driver_binding bus) in
  match observed with
  | Err e => ignore (release_lock bus vm) ?; h_throw (UsbipInspection e)
  | Ok BoundToUsbipHost => h_ret tt
  | Ok (Unbound | BoundToOtherDriver _) =>
      let? ran := try_ (exec bus vm RunBind) in
      match ran with
      | Err e => ignore (release_lock bus vm) ?; h_throw e
      | Ok _ =>
          let? observed := try_ (inspect_usbip_driver_binding bus) in
          match observed with
          | Err e => ignore (release_lock bus vm) ?; h_throw (UsbipInspection e)
          | Ok BoundToUsbipHost => h_ret tt
          | Ok observed => ignore (release_lock bus vm) ?; h_throw (UsbipNotConverged observed)
          end
      end
  end.

Definition live_usbip_unbind (bus vm : string) : live unit :=
  let? owner := peek_owner bus in
  match owner with
  | None => h_ret tt
  | Some observed =>
      h_reject (bool_decide (observed <> vm)) (UsbipUnbindRefused observed) ?;
      let? binding := map_err UsbipInspection (inspect_usbip_driver_binding bus) in
      match binding with
      | Unbound => h_ret tt
      | BoundToOtherDriver driver => h_throw (UsbipUnbindOtherDriver driver)
      | BoundToUsbipHost =>
          map_err UsbipInspection ensure_usbip_host_driver_unbind_supported ?;
          exec bus vm ShutdownStreams ?;
          exec bus vm WaitStreams ?;
          exec bus vm RunUnbind ?;
          let? binding := map_err UsbipInspection (inspect_usbip_driver_binding bus) in
          h_reject (bool_decide (binding = BoundToUsbipHost)) UsbipStillBound
      end
  end.

(** ** Device ACLs ([runtime.rs]) *)

Definition disp (A : Type) : Type := handler Broker BrokerError A.

Definition USBIP_BACKEND_ACL_GRANT_ATTEMPTS : nat := 20.

Definition set_acl (bus vm : string) (effect : Effect) : disp unit :=
  let? t := step in
  h_modify (record_event bus vm effect (w_acl w t)) ?;
  h_reject (negb (w_acl w t)) (LiveHandler Activation).

(** [retry_usbip_backend_acl_grant], with the attempts left and the last
    error. *)
Fixpoint retry_acl_grant (attempts : nat) (last_error : BrokerError) (bus vm : string) (uid : N)
    (verify : disp string) : disp unit :=
  match attempts with
  | 0 => h_throw last_error
  | S attempts =>
      let? first := try_ verify in
      match first with
      | Err e => retry_acl_grant attempts e bus vm uid verify
      | Ok node =>
          let? granted := try_ (set_acl bus vm (GrantAcl node uid)) in
          match granted with
          | Err e => retry_acl_grant attempts e bus vm uid verify
          | Ok _ =>
              let? second := try_ verify in
              match second with
              | Ok current =>
                  if bool_decide (current = node) then h_ret tt
                  else
                    ignore (set_acl bus vm (RevokeAcl node uid)) ?;
                    retry_acl_grant attempts (AclNodeChanged node current) bus vm uid verify
              | Err e =>
                  ignore (set_acl bus vm (RevokeAcl node uid)) ?;
                  retry_acl_grant attempts e bus vm uid verify
              end
          end
      end
  end.

Definition retry_usbip_backend_acl_grant : string -> string -> N -> disp string -> disp unit :=
  retry_acl_grant USBIP_BACKEND_ACL_GRANT_ATTEMPTS AclFailed.

Definition map_usbip_host_inspection_error_for_intent (intent : ResolvedUsbipBindIntent)
    (err : UsbipHostInspectionError) : BrokerError :=
  match err with
  | AllowlistMismatch bus vendor product => UsbipDeviceNotAllowed bus vendor product
  | AllowlistMissing _ =>
      UsbipPolicyMismatch (bus_id intent) "vendor/product allowlist is missing"
  | TopologyIncomplete bus =>
      UsbipPolicyMismatch bus "declared physical topology is incomplete"
  | TopologyMismatch bus _ _ _ _ =>
      UsbipPolicyMismatch bus "observed physical topology does not match the declaration"
  | DeviceMissing bus | DeviceDepartedDuringInspection bus => UsbipDeviceAbsent bus
  | other => LiveHandler (UsbipInspection other)
  end.

Definition intent_id_runner (vm role_id : string) : string :=
  "runner:vm:" +:+ vm +:+ ":role:" +:+ role_id.

Definition backend_uid (r : BundleResolver) (env : string) : result N BrokerError :=
  let id := intent_id_runner ("sys-" +:+ env +:+ "-usbipd") "backend" in
  match runner_uids r !! id with
  | Some uid => Ok uid
  | None => Err (BundleIntentMissing "runner" id)
  end.

Definition verify_usbip_device_node (intent : ResolvedUsbipBindIntent) (expected : N * N) :
    disp string :=
  let? inspection := map_err (map_usbip_host_inspection_error_for_intent intent)
                       (enforce_usbip_physical_policy intent) in
  let current := (vendor inspection, product inspection) in
  h_reject (bool_decide (current <> expected)) (AclIdentityChanged expected current) ?;
  h_ret (device_node inspection).

Definition grant_usbip_backend_device_acl (r : BundleResolver) (intent : ResolvedUsbipBindIntent)
    (expected : N * N) : disp unit :=
  let? uid := h_lift (backend_uid r (env intent)) in
  retry_usbip_backend_acl_grant (bus_id intent) (vm_name intent) uid
    (verify_usbip_device_node intent expected).

Definition revoke_usbip_backend_device_acl (r : BundleResolver)
    (intent : ResolvedUsbipBindIntent) : disp unit :=
  let? uid := h_lift (backend_uid r (env intent)) in
  let? inspection := map_err (map_usbip_host_inspection_error_for_intent intent)
                       (enforce_usbip_physical_policy intent) in
  set_acl (bus_id intent) (vm_name intent) (RevokeAcl (device_node inspection) uid).

Definition inspection_error (e : UsbipHostInspectionError) : BrokerError :=
  LiveHandler (UsbipInspection e).

Definition verify_explicit_usbip_device_stable (bus : string) (expected : N * N) : disp string :=
  let? inspection := map_err inspection_error (inspect_usbip_host_device bus) in
  let current := (vendor inspection, product inspection) in
  h_reject (bool_decide (current <> expected)) (AclIdentityChanged expected current) ?;
  h_ret (device_node inspection).

Definition grant_explicit_usbip_backend_acl (r : BundleResolver) (env bus vm : string)
    (expected : N * N) : disp unit :=
  let? uid := h_lift (backend_uid r env) in
  retry_usbip_backend_acl_grant bus vm uid (verify_explicit_usbip_device_stable bus expected).

Definition revoke_explicit_usbip_backend_acl (r : BundleResolver) (env bus vm : string) :
    disp unit :=
  let? uid := h_lift (backend_uid r env) in
  let? inspection := map_err inspection_error (inspect_usbip_host_device bus) in
  set_acl bus vm (RevokeAcl (device_node inspection) uid).

(** ** Intents *)

Definition intent_id_usbip_firewall (env bus : string) : string :=
  "usbip-fw:env:" +:+ env +:+ ":bus:" +:+ bus.

Definition intent_id_usbip_bind (env vm bus : string) : string :=
  "usbip-bind:env:" +:+ env +:+ ":vm:" +:+ vm +:+ ":bus:" +:+ bus.

Definition parse_usbip_bind_intent_id (id : string) : option (string * string * string) :=
  rest ← Target.strip_prefix "usbip-bind:env:" id;
  '(env, rest) ← split_once ":vm:" rest;
  '(vm, bus) ← split_once ":bus:" rest;
  if bool_decide (env = ""%string) || bool_decide (vm = ""%string) || bool_decide (bus = ""%string)
  then None else Some (env, vm, bus).

Definition static_usbip_busid_owner (r : BundleResolver) (bus : string) : option string :=
  head (omap (fun e => if bool_decide (bus_id e.2 = bus) && negb (bool_decide (bus_id e.2 = "pending"%string))
                       then Some (vm_name e.2) else None)
          (btree_entries (usbip_bind_intents r))).

Definition dynamic_usbip_bind_intent (source : ResolvedUsbipBindIntent) (bus : string) :
    ResolvedUsbipBindIntent :=
  mkBindIntent (intent_id_usbip_bind (env source) (vm_name source) bus) bus (vm_name source)
    (env source) (vendor_product_allowlist source) true.

Definition find_usbip_bind_intent_or_wildcard (r : BundleResolver) (id : string) :
    option ResolvedUsbipBindIntent :=
  match usbip_bind_intents r !! id with
  | Some intent => Some intent
  | None =>
      '(env, vm, bus) ← parse_usbip_bind_intent_id id;
      if negb (is_ok (validate_bus_id bus)) then None
      else if bool_decide (is_Some (static_usbip_busid_owner r bus)) then None
      else
        source ← usbip_bind_intents r !! intent_id_usbip_bind env vm "pending";
        Some (dynamic_usbip_bind_intent source bus)
  end.

(** ** Dispatch *)

(** Who holds the claim of [intent]: this VM, nobody, or a conflict. *)
Definition claim_by (bus vm : string) : disp bool :=
  let? owner := peek_owner bus in
  match owner with
  | Some owner =>
      if bool_decide (owner = vm) then h_ret true else h_throw (UsbipLockConflict bus owner)
  | None => h_ret false
  end.

Definition write_audit (verb : string) : disp unit :=
  let? t := step in
  h_reject (negb (w_audit w t)) AuditFailed ?;
  h_modify (fun s => mkBroker (locks s) (tick s) (events s) (audited s ++ [verb])).

(** [usb_audit_device_identity_for_busid] and the audit record of a key
    rotation that was not logged yet. *)
Definition audit_identity : disp unit :=
  let? t := step in
  match w_serial_key w t with
  | None => h_throw SerialKey
  | Some false => h_ret tt
  | Some true => write_audit "UsbSerialCorrelationKeyRotate"
  end.

Definition live_error {A} (m : live A) : disp A := map_err LiveHandler m.

(** [backend.usbip_unbind], then the release of the claim; failures are
    logged. *)
Definition unbind_and_release (bus vm : string) : disp unit :=
  let? unbound := try_ (live_usbip_unbind bus vm) in
  match unbound with
  | Ok _ => ignore (release_lock bus vm)
  | Err _ => h_ret tt
  end.

Definition rollback_usbip_bind_after_audit_failure (r : BundleResolver)
    (intent : ResolvedUsbipBindIntent) (same_vm_replay : bool) : disp unit :=
  if same_vm_replay then h_ret tt
  else
    ignore (revoke_usbip_backend_device_acl r intent) ?;
    unbind_and_release (bus_id intent) (vm_name intent).

Definition rollback_usbip_bind_after_acl_grant_failure (intent : ResolvedUsbipBindIntent)
    (same_vm_replay : bool) : disp unit :=
  if same_vm_replay then h_ret tt else unbind_and_release (bus_id intent) (vm_name intent).

Definition require_intent (resolver : option BundleResolver) (id : string) :
    result (BundleResolver * ResolvedUsbipBindIntent) BrokerError :=
  match resolver with
  | None => Err BundleResolverUnavailable
  | Some r =>
      match find_usbip_bind_intent_or_wildcard r id with
      | None => Err (BundleIntentMissing "usbip-bind" id)
      | Some intent => Ok (r, intent)
      end
  end.

Definition usbip_bind (resolver : option BundleResolver) (id : string) : disp unit :=
  let? (r, intent) := h_lift (require_intent resolver id) in
  let? same_vm_replay := claim_by (bus_id intent) (vm_name intent) in
  let? inspection := map_err (map_usbip_host_inspection_error_for_intent intent)
                       (enforce_usbip_physical_policy intent) in
  audit_identity ?;
  live_error (live_usbip_bind (bus_id intent) (vm_name intent)) ?;
  let? granted := try_ (grant_usbip_backend_device_acl r intent
                          (vendor inspection, product inspection)) in
  match granted with
  | Err e => rollback_usbip_bind_after_acl_grant_failure intent same_vm_replay ?; h_throw e
  | Ok _ =>
      let? written := try_ (write_audit "UsbipBind") in
      match written with
      | Err e => rollback_usbip_bind_after_audit_failure r intent same_vm_replay ?; h_throw e
      | Ok _ => h_ret tt
      end
  end.

(** [handle_usbip_acl_revoke_failure_after_unbind] *)
Definition handle_acl_revoke_failure (intent : ResolvedUsbipBindIntent)
    (preserve_durable_claim : bool) (revoke_error : BrokerError) : disp unit :=
  if preserve_durable_claim then h_throw revoke_error
  else
    let? binding := try_ (inspect_usbip_driver_binding (bus_id intent)) in
    match binding with
    | Ok BoundToUsbipHost => h_throw revoke_error
    | _ =>
        map_err (fun e => LiveHandler (UsbipLock e))
          (release_lock (bus_id intent) (vm_name intent)) ?;
        h_throw revoke_error
    end.

Definition usbip_unbind (resolver : option BundleResolver) (id : string)
    (preserve_durable_claim : bool) : disp unit :=
  let? (r, intent) := h_lift (require_intent resolver id) in
  let? had_matching_lock := claim_by (bus_id intent) (vm_name intent) in
  live_error (live_usbip_unbind (bus_id intent) (vm_name intent)) ?;
  (if had_matching_lock then
     let? revoked := try_ (revoke_usbip_backend_device_acl r intent) in
     match revoked with
     | Err e => handle_acl_revoke_failure intent preserve_durable_claim e
     | Ok _ =>
         if preserve_durable_claim then h_ret tt
         else map_err (fun e => LiveHandler (UsbipLock e))
                (release_lock (bus_id intent) (vm_name intent))
     end
   else h_ret tt) ?;
  write_audit "UsbipUnbind".

Record UsbipExplicitBindRequest := mkExplicitBind {
  req_bus_id : string;
  req_vm : string;
  req_env : string
}.

Definition usbip_explicit_bind (resolver : option BundleResolver) (req : UsbipExplicitBindRequest) :
    disp unit :=
  let bus := req_bus_id req in
  let vm := req_vm req in
  match resolver with
  | None => h_throw BundleResolverUnavailable
  | Some r =>
      let? same_vm_replay := claim_by bus vm in
      let? inspection := map_err inspection_error (inspect_usbip_host_device bus) in
      audit_identity ?;
      live_error (live_usbip_bind bus vm) ?;
      let? granted := try_ (grant_explicit_usbip_backend_acl r (req_env req) bus vm
                              (vendor inspection, product inspection)) in
      match granted with
      | Err e => (if same_vm_replay then h_ret tt else unbind_and_release bus vm) ?; h_throw e
      | Ok _ =>
          let? written := try_ (write_audit "UsbipExplicitBind") in
          match written with
          | Err e =>
              (if same_vm_replay then h_ret tt
               else
                 ignore (revoke_explicit_usbip_backend_acl r (req_env req) bus vm) ?;
                 unbind_and_release bus vm) ?;
              h_throw e
          | Ok _ => h_ret tt
          end
      end
  end.

(** ** Requests and histories *)

Inductive Request : Type :=
| Bind (resolver : option BundleResolver) (id : string)
| Unbind (resolver : option BundleResolver) (id : string) (preserve_durable_claim : bool)
| ExplicitBind (resolver : option BundleResolver) (req : UsbipExplicitBindRequest).

Definition dispatch (q : Request) : disp unit :=
  match q with
  | Bind resolver id => usbip_bind resolver id
  | Unbind resolver id preserve => usbip_unbind resolver id preserve
  | ExplicitBind resolver req => usbip_explicit_bind resolver req
  end.

Definition run_all (qs : list Request) (s : Broker) : Broker :=
  fold_left (fun s q => (dispatch q s).2) qs s.

(** The bus id and the VM a request is about. *)
Definition target (q : Request) : option (string * string) :=
  match q with
  | Bind resolver id | Unbind resolver id _ =>
      match require_intent resolver id with
      | Ok (_, intent) => Some (bus_id intent, vm_name intent)
      | Err _ => None
      end
  | ExplicitBind _ req => Some (req_bus_id req, req_vm req)
  end.

Definition is_bind (q : Request) : bool :=
  match q with Unbind _ _ _ => false | _ => true end.

(** VM names: no white space, not empty. *)
Definition name_ok (vm : string) : Prop :=
  vm <> ""%string /\ vm <> "<unreadable>"%string
  /\ forallb (fun c => negb (is_whitespace c)) (chars vm) = true.

Definition request_ok (q : Request) : Prop :=
  forall bus vm, target q = Some (bus, vm) -> name_ok vm.

(** ** Claims *)

Abbreviation Locks := (gmap string string) (only parsing).

Definition owner (L : Locks) (bus : string) : option string := trim <$> L !! bus.

Definition event_ok (e : Event) : Prop := trim <$> ev_claim e = Some (ev_vm e).

(** What serving a request for [vm] on [bus] may do: no other claim file
    changes, what happens to the device happens under the claim of [vm], and
    a claim of somebody else stays. *)
Record served (bus vm : string) (s s' : Broker) : Prop := mkServed {
  sv_other : forall b, b <> bus -> locks s' !! b = locks s !! b;
  sv_events : exists evs, events s' = events s ++ evs
    /\ Forall (fun e => ev_bus e = bus /\ ev_vm e = vm /\ event_ok e) evs;
  sv_claim : forall o, owner (locks s) bus = Some o -> o <> vm -> locks s' = locks s
}.

Lemma served_refl bus vm s s' : locks s' = locks s -> events s' = events s -> served bus vm s s'.
Proof. intros HL He. split; [by rewrite HL|exists []; by rewrite He, app_nil_r|done]. Qed.

Lemma served_trans bus vm s1 s2 s3 :
  served bus vm s1 s2 -> served bus vm s2 s3 -> served bus vm s1 s3.
Proof.
  intros [A1 (e1 & B1 & F1) C1] [A2 (e2 & B2 & F2) C2]. split.
  - intros b Hb. rewrite A2, A1; done.
  - exists (e1 ++ e2). rewrite B2, B1, app_assoc. split; [done|]. by apply Forall_app.
  - intros o Ho Hne. specialize (C1 o Ho Hne). rewrite (C2 o); [done|by rewrite C1|done].
Qed.

(** [m], started where [P] holds of the claim files, serves [vm] on [bus]
    and ends where [Q] holds. *)
Definition triple (bus vm : string) {E A} (P : Locks -> Prop) (m : handler Broker E A)
    (Q : result A E -> Locks -> Prop) : Prop :=
  forall s, P (locks s) -> served bus vm s (m s).2 /\ Q (m s).1 (locks (m s).2).

Section triples.
Context (bus vm : string).
Implicit Types (P : Locks -> Prop).

Lemma triple_ret {E A} P (a : A) (Q : result A E -> Locks -> Prop) :
  (forall L, P L -> Q (Ok a) L) -> triple bus vm P (h_ret a) Q.
Proof. intros HQ s Hs. split; [by apply served_refl|auto]. Qed.

Lemma triple_throw {E A} P (e : E) (Q : result A E -> Locks -> Prop) :
  (forall L, P L -> Q (Err e) L) -> triple bus vm P (h_throw e) Q.
Proof. intros HQ s Hs. split; [by apply served_refl|auto]. Qed.

Lemma triple_lift {E A} P (r : result A E) (Q : result A E -> Locks -> Prop) :
  (forall L, P L -> Q r L) -> triple bus vm P (h_lift r) Q.
Proof. intros HQ s Hs. split; [by apply served_refl|auto]. Qed.

Lemma triple_lift_ok {E A B} P (r : result A E) a (k : A -> handler Broker E B)
    (Q : result B E -> Locks -> Prop) :
  r = Ok a -> triple bus vm P (k a) Q -> triple bus vm P (h_bind (h_lift r) k) Q.
Proof. by intros ->. Qed.

Lemma triple_bind {E A B} P (m : handler Broker E A) (k : A -> handler Broker E B)
    (R : A -> Locks -> Prop) (Q : result B E -> Locks -> Prop) :
  triple bus vm P m (fun r L => match r with Ok a => R a L | Err e => Q (Err e) L end) ->
  (forall a, triple bus vm (R a) (k a) Q) ->
  triple bus vm P (h_bind m k) Q.
Proof.
  intros Hm Hk s Hs. specialize (Hm s Hs) as [H1 H2]. unfold h_bind.
  destruct (m s) as [[a|e] s1]; simpl in *; [|done].
  destruct (Hk a s1 H2) as [H3 H4]. split; [by eapply served_trans|done].
Qed.

Lemma triple_conseq {E A} P P' (m : handler Broker E A) (Q Q' : result A E -> Locks -> Prop) :
  triple bus vm P' m Q' -> (forall L, P L -> P' L) -> (forall r L, Q' r L -> Q r L) ->
  triple bus vm P m Q.
Proof. intros Hm HP HQ s Hs. destruct (Hm s (HP _ Hs)). auto. Qed.

Lemma triple_map_err {E F A} P (f : E -> F) (m : handler Broker E A)
    (Q : result A F -> Locks -> Prop) :
  triple bus vm P m (fun r L => Q (match r with Ok a => Ok a | Err e => Err (f e) end) L) ->
  triple bus vm P (map_err f m) Q.
Proof.
  intros Hm s Hs. specialize (Hm s Hs). unfold map_err. by destruct (m s) as [[a|e] s'].
Qed.

Lemma triple_ignore {E F A} P (m : handler Broker E A) (Q : result unit F -> Locks -> Prop) :
  triple bus vm P m (fun _ L => Q (Ok tt) L) -> triple bus vm P (ignore m) Q.
Proof. intros Hm s Hs. exact (Hm s Hs). Qed.

Lemma triple_try {E F A} P (m : handler Broker E A)
    (Q : result (result A E) F -> Locks -> Prop) :
  triple bus vm P m (fun r L => Q (Ok r) L) -> triple bus vm P (try_ m) Q.
Proof. intros Hm s Hs. specialize (Hm s Hs). unfold try_. by destruct (m s) as [r s']. Qed.

Lemma triple_step {E} P (Q : result N E -> Locks -> Prop) :
  (forall t L, P L -> Q (Ok t) L) -> triple bus vm P step Q.
Proof. intros HQ s Hs. split; [by apply served_refl|by apply HQ]. Qed.

Lemma triple_reject {E} P (b : bool) (e : E) (Q : result unit E -> Locks -> Prop) :
  (forall L, P L -> if b then Q (Err e) L else Q (Ok tt) L) -> triple bus vm P (h_reject b e) Q.
Proof. destruct b; [apply triple_throw|apply triple_ret]. Qed.

End triples.

(** ** Calls that only look *)

Definition quiet {E A} (m : handler Broker E A) : Prop :=
  forall s, locks (m s).2 = locks s /\ events (m s).2 = events s.

Lemma quiet_ret {E A} (a : A) : quiet (E := E) (h_ret a).
Proof. done. Qed.
Lemma quiet_throw {E A} (e : E) : quiet (A := A) (h_throw e).
Proof. done. Qed.
Lemma quiet_lift {E A} (r : result A E) : quiet (h_lift r).
Proof. done. Qed.
Lemma quiet_step {E} : quiet (E := E) step.
Proof. done. Qed.
Lemma quiet_get {E} : quiet (E := E) h_get.
Proof. done. Qed.
Lemma quiet_reject {E} (b : bool) (e : E) : quiet (h_reject b e).
Proof. by destruct b. Qed.
Lemma quiet_map_err {E F A} (f : E -> F) (m : handler Broker E A) : quiet m -> quiet (map_err f m).
Proof. intros Hm s. specialize (Hm s). unfold map_err. by destruct (m s) as [[a|e] s']. Qed.
Lemma quiet_try {E F A} (m : handler Broker E A) : quiet m -> quiet (E := F) (try_ m).
Proof. intros Hm s. specialize (Hm s). unfold try_. by destruct (m s) as [r s']. Qed.
Lemma quiet_bind {E A B} (m : handler Broker E A) (k : A -> handler Broker E B) :
  quiet m -> (forall a, quiet (k a)) -> quiet (h_bind m k).
Proof.
  intros Hm Hk s. specialize (Hm s) as [H1 H2]. unfold h_bind.
  destruct (m s) as [[a|e] s1]; simpl in *; [|done].
  destruct (Hk a s1) as [H3 H4]. split; congruence.
Qed.

Create HintDb usbip.
#[local] Hint Resolve quiet_ret quiet_throw quiet_lift quiet_step quiet_get quiet_reject
  quiet_map_err quiet_try : usbip.

Ltac quiet :=
  repeat (first [solve [auto with usbip]
                | apply quiet_bind; [|intros ?]
                | progress (repeat case_match)]).

Lemma quiet_lock_io path : quiet (lock_io path).
Proof. unfold lock_io. quiet. Qed.

Lemma quiet_peek {E} path : quiet (E := E) (peek_owner path).
Proof. unfold peek_owner. quiet. Qed.

Lemma quiet_attr bus attr : quiet (read_required_attr bus attr).
Proof. unfold read_required_attr. quiet. Qed.

Lemma quiet_driver bus : quiet (inspect_usbip_driver_binding bus).
Proof. unfold inspect_usbip_driver_binding. quiet. Qed.

#[local] Hint Resolve quiet_lock_io quiet_peek quiet_attr quiet_driver : usbip.

Lemma quiet_decimal bus attr : quiet (read_decimal_attr bus attr).
Proof. unfold read_decimal_attr. quiet. Qed.

Lemma quiet_hex bus attr : quiet (read_hex_attr bus attr).
Proof. unfold read_hex_attr. quiet. Qed.

#[local] Hint Resolve quiet_decimal quiet_hex : usbip.

Lemma quiet_device bus : quiet (inspect_usbip_host_device bus).
Proof. unfold inspect_usbip_host_device. quiet. Qed.

#[local] Hint Resolve quiet_device : usbip.

Lemma quiet_policy intent : quiet (enforce_usbip_physical_policy intent).
Proof. unfold enforce_usbip_physical_policy. quiet. Qed.

#[local] Hint Resolve quiet_policy : usbip.

Lemma quiet_verify intent expected : quiet (verify_usbip_device_node intent expected).
Proof. unfold verify_usbip_device_node. quiet. Qed.

Lemma quiet_verify_explicit bus expected : quiet (verify_explicit_usbip_device_stable bus expected).
Proof. unfold verify_explicit_usbip_device_stable. quiet. Qed.

Lemma quiet_unbind_supported : quiet ensure_usbip_host_driver_unbind_supported.
Proof. unfold ensure_usbip_host_driver_unbind_supported. quiet. Qed.

Lemma quiet_audit verb : quiet (write_audit verb).
Proof. unfold write_audit. quiet. done. Qed.

#[local] Hint Resolve quiet_verify quiet_verify_explicit quiet_unbind_supported quiet_audit : usbip.

Lemma quiet_identity : quiet audit_identity.
Proof. unfold audit_identity. quiet. Qed.

#[local] Hint Resolve quiet_identity : usbip.

Lemma triple_quiet bus vm {E A} (P : Locks -> Prop) (m : handler Broker E A) :
  quiet m -> triple bus vm P m (fun _ => P).
Proof. intros Hm s Hs. destruct (Hm s) as [HL He]. split; [by apply served_refl|by rewrite HL]. Qed.

(** Looking first changes nothing. *)
Lemma triple_look bus vm {E A B} (P : Locks -> Prop) (m : handler Broker E A)
    (k : A -> handler Broker E B) (Q : result B E -> Locks -> Prop) :
  quiet m -> (forall e L, P L -> Q (Err e) L) -> (forall a, triple bus vm P (k a) Q) ->
  triple bus vm P (h_bind m k) Q.
Proof.
  intros Hm He Hk. apply (triple_bind _ _ _ _ _ (fun _ => P)); [|done].
  eapply triple_conseq; [by apply (triple_quiet _ _ P)|done|]. intros [a|e] L; auto.
Qed.

(** ** Claim files *)

Lemma trim_owner vm : name_ok vm -> trim (vm +:+ newline) = vm.
Proof.
  intros (Hne & _ & Hw). apply chars_inj. unfold trim.
  rewrite String.list_ascii_of_string_of_list_ascii, chars_app.
  destruct (chars vm) as [|c l] eqn:Hc.
  { destruct Hne. by apply chars_inj. }
  rewrite (trim_start_id ((c :: l) ++ chars newline)) by exact (no_whitespace_head _ Hw).
  change (chars newline) with ["010"%char]. rewrite reverse_app.
  apply no_whitespace_reverse, no_whitespace_head, trim_start_id in Hw.
  change (trim_start_chars (reverse ["010"%char] ++ reverse (c :: l)))
    with (trim_start_chars (reverse (c :: l))).
  by rewrite Hw, reverse_involutive.
Qed.

Section claims.
Context (bus vm : string).

Definition held (L : Locks) : Prop := owner L bus = Some vm.

(** A change of the claim file of [bus] that respects a claim of others. *)
Lemma triple_locks {E} (P : Locks -> Prop) (f : Locks -> Locks)
    (Q : result unit E -> Locks -> Prop) :
  (forall L, P L -> (forall b, b <> bus -> f L !! b = L !! b)
     /\ (forall o, owner L bus = Some o -> o <> vm -> f L = L) /\ Q (Ok tt) (f L)) ->
  triple bus vm P (h_modify (set_locks f)) Q.
Proof.
  intros Hf s Hs. destruct (Hf _ Hs) as (H1 & H2 & H3). split; [|done].
  split; [done| |done]. exists []. by rewrite app_nil_r.
Qed.

(** Something done to the device under the claim. *)
Lemma triple_event {E} effect ok (P : Locks -> Prop) (Q : result unit E -> Locks -> Prop) :
  (forall L, P L -> held L /\ Q (Ok tt) L) ->
  triple bus vm P (h_modify (record_event bus vm effect ok)) Q.
Proof.
  intros Hp s Hs. destruct (Hp _ Hs) as [Hh HQ]. split; [|done]. split; [done| |done].
  eexists [_]. split; [done|]. by apply Forall_singleton.
Qed.

Lemma triple_exec effect (P : Locks -> Prop) :
  (forall L, P L -> held L) -> triple bus vm P (exec bus vm effect) (fun _ => P).
Proof.
  intros HP. unfold exec. apply triple_look; [auto with usbip|done|]. intros t.
  apply (triple_bind _ _ _ _ _ (fun _ => P)); [apply triple_event; auto|]. intros [].
  apply triple_quiet. auto with usbip.
Qed.

Lemma triple_set_acl effect (P : Locks -> Prop) :
  (forall L, P L -> held L) -> triple bus vm P (set_acl bus vm effect) (fun _ => P).
Proof.
  intros HP. unfold set_acl. apply triple_look; [auto with usbip|done|]. intros t.
  apply (triple_bind _ _ _ _ _ (fun _ => P)); [apply triple_event; auto|]. intros [].
  apply triple_quiet. auto with usbip.
Qed.

End claims.

Section claims2.
Context (bus vm : string) (Hvm : name_ok vm).

Abbreviation any := (fun _ : Locks => True).

Lemma triple_peek {E} (P : Locks -> Prop) :
  triple bus vm P (peek_owner (E := E) bus)
    (fun r L => P L /\ forall o, r = Ok (Some o) -> owner L bus = Some o).
Proof.
  intros s Hs. unfold peek_owner. unfold_handler. cbn. split; [by apply served_refl|].
  split; [done|]. intros o [= Ho]. unfold owner. by destruct (w_lock_io w (tick s)).
Qed.

Lemma triple_release (P : Locks -> Prop) :
  triple bus vm P (release_lock bus vm)
    (fun r L => (P L \/ L !! bus = None) /\ (is_ok r = true -> L !! bus = None)).
Proof.
  intros s Hs. unfold release_lock, lock_io. unfold_handler. cbn.
  destruct (w_lock_io w _); cbn; [|by split; [apply served_refl|split; [left|]]].
  destruct (locks s !! bus) as [content|] eqn:Hc; cbn; [|by split; [apply served_refl|auto]].
  destruct (w_lock_io w _); cbn; [|by split; [apply served_refl|split; [left|]]].
  case_bool_decide as Ho; cbn; [by split; [apply served_refl|split; [left|]]|].
  destruct (w_lock_io w _); cbn; [|by split; [apply served_refl|split; [left|]]].
  rewrite lookup_delete_eq. split; [|auto]. split; cbn.
  - intros b Hb. by rewrite lookup_delete_ne.
  - exists []. by rewrite app_nil_r.
  - intros o Ho' Hne. unfold owner in Ho'. rewrite Hc in Ho'. by injection Ho' as <-.
Qed.

(** The creation of the claim file, step by step. *)
Definition only_claim {E A} (m : handler Broker E A) : Prop :=
  forall s, (forall b, b <> bus -> locks (m s).2 !! b = locks s !! b)
    /\ events (m s).2 = events s.

Lemma only_quiet {E A} (m : handler Broker E A) : quiet m -> only_claim m.
Proof. intros Hm s. destruct (Hm s) as [HL He]. by rewrite HL. Qed.

Lemma only_bind {E A B} (m : handler Broker E A) (k : A -> handler Broker E B) :
  only_claim m -> (forall a, only_claim (k a)) -> only_claim (h_bind m k).
Proof.
  intros Hm Hk s. specialize (Hm s) as [H1 H2]. unfold h_bind.
  destruct (m s) as [[a|e] s1]; simpl in *; [|done].
  destruct (Hk a s1) as [H3 H4]. split; [|congruence]. intros b Hb. rewrite H3; auto.
Qed.

Lemma only_write text : only_claim (write_all bus text).
Proof.
  intros s. unfold write_all. unfold_handler. cbn.
  destruct (w_lock_io w _); cbn; (split; [|done]); intros b Hb; by rewrite lookup_alter_ne.
Qed.

Lemma only_insert content : only_claim (E := UsbipLockError) (h_modify (set_locks <[bus := content]>)).
Proof. intros s. split; [|done]. intros b Hb. cbn. by rewrite lookup_insert_ne. Qed.

Lemma only_create : only_claim (create_claim bus vm).
Proof.
  unfold create_claim.
  repeat (first [apply only_write | apply only_insert | apply only_quiet; solve [auto with usbip]
                | apply only_bind; [|intros ?]]).
Qed.

Lemma create_ok s :
  is_ok (create_claim bus vm s).1 = true ->
  locks (create_claim bus vm s).2 !! bus = Some (vm +:+ newline).
Proof.
  unfold create_claim, lock_io, write_all. unfold_handler. cbn.
  do 6 (destruct (w_lock_io w _); cbn; [|done]). intros _.
  by rewrite !lookup_alter_eq, lookup_insert_eq.
Qed.

Lemma triple_acquire (P : Locks -> Prop) :
  triple bus vm P (acquire_lock bus vm) (fun r L => (is_ok r = true -> held bus vm L)).
Proof.
  intros s _. unfold acquire_lock, lock_io. unfold_handler. cbn.
  destruct (w_lock_io w _); cbn; [|by split; [apply served_refl|]].
  destruct (locks s !! bus) as [content|] eqn:Hc.
  - cbn. destruct (w_lock_io w _).
    + case_bool_decide as Ho; cbn; (split; [by apply served_refl|]); [|done]. intros _.
      rewrite trim_trim in Ho. unfold held, owner. by rewrite Hc, <- Ho.
    + rewrite bool_decide_eq_false_2; [by split; [apply served_refl|]|].
      intros Ho. destruct Hvm as (_ & Hun & _). by destruct Hun.
  - match goal with |- served _ _ _ (create_claim _ _ ?s1).2 /\ _ => set (s1' := s1) end.
    destruct (only_create s1') as [H1 H2]. split.
    + split; [exact H1|exists []; by rewrite app_nil_r|].
      intros o Ho. unfold owner in Ho. by rewrite Hc in Ho.
    + intros Hok. apply create_ok in Hok. unfold held, owner. rewrite Hok. simpl.
      by rewrite trim_owner.
Qed.
Lemma triple_release_throw {A E} (P : Locks -> Prop) (e : E) (X : result A E -> Locks -> Prop) :
  (forall L, X (Err e) L) ->
  triple bus vm P (ignore (release_lock bus vm) ?; h_throw e) X.
Proof.
  intros HX. apply (triple_bind _ _ _ _ _ (fun _ => any)).
  - apply triple_ignore. eapply triple_conseq; [apply (triple_release any)|done..].
  - intros []. by apply triple_throw.
Qed.

Lemma triple_live_bind (P : Locks -> Prop) :
  triple bus vm P (live_usbip_bind bus vm) (fun r L => is_ok r = true -> held bus vm L).
Proof.
  unfold live_usbip_bind. apply (triple_bind _ _ _ _ _ (fun _ => held bus vm)).
  { apply triple_map_err. eapply triple_conseq; [apply (triple_acquire P)|done|].
    intros [[]|e] L HL; [by apply HL|done]. }
  intros []. apply triple_look; [auto with usbip|done|].
  intros [[]|e]; try by apply triple_release_throw; done.
  all: try by apply triple_ret.
  all: apply (triple_bind _ _ _ _ _ (fun _ => held bus vm));
    [by apply triple_try, triple_exec|]; intros [[]|e]; [|by apply triple_release_throw];
    (apply triple_look; [auto with usbip|done|]);
    intros [[]|e]; try (by apply triple_release_throw); by apply triple_ret.
Qed.

Lemma triple_live_unbind (P : Locks -> Prop) :
  triple bus vm P (live_usbip_unbind bus vm) (fun _ => P).
Proof.
  unfold live_usbip_unbind.
  apply (triple_bind _ _ _ _ _ (fun o L => P L /\ forall x, o = Some x -> owner L bus = Some x)).
  { eapply triple_conseq; [apply (triple_peek P)|done|].
    intros [o|e] L [HP Ho]; [|done]. split; [done|]. intros x ->. by apply Ho. }
  intros [observed|]; [|by apply triple_ret; intros L [? _]].
  eapply (triple_conseq _ _ _ (fun L => P L /\ owner L bus = Some observed)
            _ _ (fun _ L => P L)); [|by intros L [? Ho]; auto|done].
  destruct (decide (observed <> vm)) as [Hne|Heq%dec_stable].
  { apply (triple_bind _ _ _ _ _ (fun _ _ => False)); [|by intros [] ? []].
    apply triple_reject. rewrite bool_decide_eq_true_2 by done. by intros L [? _]. }
  subst observed. change (fun L => P L /\ owner L bus = Some vm) with (fun L => P L /\ held bus vm L).
  set (PH := fun L => P L /\ held bus vm L).
  assert (HPH : forall L, PH L -> P L) by by intros L [? _].
  assert (HH : forall L, PH L -> held bus vm L) by by intros L [_ ?].
  apply triple_look; [apply quiet_reject|auto|]. intros [].
  apply triple_look; [auto with usbip|auto|].
  intros [| |d]; [by apply triple_ret| |by apply triple_throw].
  apply triple_look; [auto with usbip|auto|]. intros [].
  do 3 (apply (triple_bind _ _ _ _ _ (fun _ => PH));
    [eapply triple_conseq; [by apply (triple_exec _ _ _ PH)|done|intros [[]|e] L HL; auto]|intros []]).
  apply triple_look; [auto with usbip|auto|]. intros binding.
  eapply triple_conseq; [apply (triple_quiet _ _ PH), quiet_reject|done|auto].
Qed.

Lemma triple_grant uid verify attempts last (P : Locks -> Prop) :
  (forall L, P L -> held bus vm L) -> quiet verify ->
  triple bus vm P (retry_acl_grant attempts last bus vm uid verify) (fun _ => P).
Proof.
  intros HP Hq. revert last. induction attempts as [|n IH]; intros last; cbn [retry_acl_grant];
    [by apply triple_throw|].
  apply triple_look; [auto with usbip|done|]. intros [node|e]; [|apply IH].
  apply (triple_bind _ _ _ _ _ (fun _ => P)); [by apply triple_try, triple_set_acl|].
  intros [[]|e]; [|apply IH].
  apply triple_look; [auto with usbip|done|].
  intros [current|e]; [case_bool_decide; [by apply triple_ret|]|];
    (apply (triple_bind _ _ _ _ _ (fun _ => P)); [by apply triple_ignore, triple_set_acl|intros []; apply IH]).
Qed.

Lemma triple_unbind_release (P : Locks -> Prop) :
  triple bus vm P (unbind_and_release bus vm) (fun _ L => P L \/ L !! bus = None).
Proof.
  unfold unbind_and_release. apply (triple_bind _ _ _ _ _ (fun _ => P)).
  { apply triple_try, triple_live_unbind. }
  intros [[]|e]; [|by apply triple_ret; auto].
  apply triple_ignore. eapply triple_conseq; [apply (triple_release P)|done|]. by intros r L [? _].
Qed.

Lemma triple_claim_by (P : Locks -> Prop) :
  triple bus vm P (claim_by bus vm)
    (fun r L => P L /\ (r = Ok true -> held bus vm L)).
Proof.
  unfold claim_by.
  apply (triple_bind _ _ _ _ _ (fun o L => P L /\ forall x, o = Some x -> owner L bus = Some x)).
  { eapply triple_conseq; [apply (triple_peek P)|done|].
    intros [o|e] L [HP Ho]; [|by split]. split; [done|]. intros x ->. by apply Ho. }
  intros [o|]; [|by apply triple_ret; intros L [? _]].
  case_bool_decide as Ho; [|by apply triple_throw; intros L [? _]].
  subst o. apply triple_ret. intros L [? Hown]. split; [done|]. intros _. by apply Hown.
Qed.

End claims2.

(** ** Dispatch *)

Section dispatched.
Context (bus vm : string) (Hvm : name_ok vm).

Abbreviation any := (fun _ : Locks => True).

Lemma triple_acl_grant r intent expected (P : Locks -> Prop) :
  bus_id intent = bus -> vm_name intent = vm -> (forall L, P L -> held bus vm L) ->
  triple bus vm P (grant_usbip_backend_device_acl r intent expected) (fun _ => P).
Proof.
  intros Hb Hv HP. unfold grant_usbip_backend_device_acl. rewrite Hb, Hv.
  apply triple_look; [auto with usbip|done|]. intros uid. apply triple_grant; auto with usbip.
Qed.

Lemma triple_acl_revoke r intent (P : Locks -> Prop) :
  bus_id intent = bus -> vm_name intent = vm -> (forall L, P L -> held bus vm L) ->
  triple bus vm P (revoke_usbip_backend_device_acl r intent) (fun _ => P).
Proof.
  intros Hb Hv HP. unfold revoke_usbip_backend_device_acl. rewrite Hb, Hv.
  apply triple_look; [auto with usbip|done|]. intros uid.
  apply triple_look; [auto with usbip|done|]. intros i. by apply triple_set_acl.
Qed.

Lemma triple_explicit_grant r e expected (P : Locks -> Prop) :
  (forall L, P L -> held bus vm L) ->
  triple bus vm P (grant_explicit_usbip_backend_acl r e bus vm expected) (fun _ => P).
Proof.
  intros HP. unfold grant_explicit_usbip_backend_acl.
  apply triple_look; [auto with usbip|done|]. intros uid. apply triple_grant; auto with usbip.
Qed.

Lemma triple_explicit_revoke r e (P : Locks -> Prop) :
  (forall L, P L -> held bus vm L) ->
  triple bus vm P (revoke_explicit_usbip_backend_acl r e bus vm) (fun _ => P).
Proof.
  intros HP. unfold revoke_explicit_usbip_backend_acl.
  apply triple_look; [auto with usbip|done|]. intros uid.
  apply triple_look; [auto with usbip|done|]. intros i. by apply triple_set_acl.
Qed.

Definition acked {A E} (r : result A E) (L : Locks) : Prop := is_ok r = true -> held bus vm L.

(** Giving up a bind. *)
Lemma triple_give_up (undo : disp unit) (P : Locks -> Prop) (e : BrokerError) :
  triple bus vm P undo (fun _ => any) -> triple bus vm P (undo ?; h_throw (A := unit) e) acked.
Proof.
  intros Hu. apply (triple_bind _ _ _ _ _ (fun _ => any)); [|by intros []; apply triple_throw].
  eapply triple_conseq; [exact Hu|done|]. by intros [[]|e'] L _.
Qed.

Lemma triple_undo (P : Locks -> Prop) : triple bus vm P (unbind_and_release bus vm) (fun _ => any).
Proof. eapply triple_conseq; [by apply triple_unbind_release|done|done]. Qed.

(** What follows the peek and the inspection, for any way to grant, to revoke
    and to audit. *)
Lemma triple_bind_body (replay : bool) (grant undo_grant : disp unit) verb (P : Locks -> Prop) :
  (forall P, (forall L, P L -> held bus vm L) -> triple bus vm P grant (fun _ => P)) ->
  triple bus vm (held bus vm) undo_grant (fun _ => any) ->
  triple bus vm P
    (live_error (live_usbip_bind bus vm) ?;
     let? granted := try_ grant in
     match granted with
     | Err e => (if replay then h_ret tt else unbind_and_release bus vm) ?; h_throw e
     | Ok _ =>
         let? written := try_ (write_audit verb) in
         match written with
         | Err e => undo_grant ?; h_throw e
         | Ok _ => h_ret tt
         end
     end) acked.
Proof.
  intros Hg Hu. apply (triple_bind _ _ _ _ _ (fun _ => held bus vm)).
  { apply triple_map_err. eapply triple_conseq; [apply (triple_live_bind bus vm Hvm P)|done|].
    intros [[]|e] L HL; [by apply HL|done]. }
  intros []. apply (triple_bind _ _ _ _ _ (fun _ => held bus vm)); [by apply triple_try, Hg|].
  intros [[]|e].
  - apply triple_look; [auto with usbip|done|]. intros [[]|e].
    + apply triple_ret. by intros L HL _.
    + by apply triple_give_up.
  - apply triple_give_up. destruct replay; [by apply triple_ret|apply triple_undo].
Qed.

Lemma triple_usbip_bind resolver id r intent :
  require_intent resolver id = Ok (r, intent) -> bus_id intent = bus -> vm_name intent = vm ->
  triple bus vm any (usbip_bind resolver id) acked.
Proof.
  intros Hi Hb Hv. unfold usbip_bind. apply (triple_lift_ok _ _ _ _ _ _ _ Hi).
  cbn [fst snd]. rewrite Hb, Hv.
  apply (triple_bind _ _ _ _ _ (fun _ => any)).
  { eapply triple_conseq; [apply (triple_claim_by bus vm any)|done|]. by intros [b|e] L _. }
  intros replay. apply triple_look; [auto with usbip|done|]. intros inspection.
  apply triple_look; [auto with usbip|done|]. intros [].
  unfold rollback_usbip_bind_after_acl_grant_failure, rollback_usbip_bind_after_audit_failure.
  rewrite Hb, Hv. apply triple_bind_body.
  - intros P HP. by apply triple_acl_grant.
  - destruct replay; [by apply triple_ret|].
    apply (triple_bind _ _ _ _ _ (fun _ => held bus vm)); [|intros []; apply triple_undo].
    apply triple_ignore. by apply triple_acl_revoke.
Qed.

Lemma triple_usbip_explicit_bind resolver e :
  triple bus vm any (usbip_explicit_bind resolver (mkExplicitBind bus vm e)) acked.
Proof.
  unfold usbip_explicit_bind. destruct resolver as [r|]; [|by apply triple_throw].
  cbn [req_bus_id req_vm req_env]. apply (triple_bind _ _ _ _ _ (fun _ => any)).
  { eapply triple_conseq; [apply (triple_claim_by bus vm any)|done|]. by intros [b|e'] L _. }
  intros replay. apply triple_look; [auto with usbip|done|]. intros inspection.
  apply triple_look; [auto with usbip|done|]. intros [].
  apply triple_bind_body.
  - intros P HP. by apply triple_explicit_grant.
  - destruct replay; [by apply triple_ret|].
    apply (triple_bind _ _ _ _ _ (fun _ => held bus vm)); [|intros []; apply triple_undo].
    apply triple_ignore. by apply triple_explicit_revoke.
Qed.

Lemma triple_release_error (P : Locks -> Prop) :
  triple bus vm P (map_err (fun e => LiveHandler (UsbipLock e)) (release_lock bus vm)) (fun _ => any).
Proof.
  apply triple_map_err. eapply triple_conseq; [apply (triple_release bus vm any)|done|done].
Qed.

Lemma triple_usbip_unbind resolver id preserve r intent :
  require_intent resolver id = Ok (r, intent) -> bus_id intent = bus -> vm_name intent = vm ->
  triple bus vm any (usbip_unbind resolver id preserve) (fun _ => any).
Proof.
  intros Hi Hb Hv. unfold usbip_unbind. apply (triple_lift_ok _ _ _ _ _ _ _ Hi).
  cbn [fst snd]. rewrite Hb, Hv.
  apply (triple_bind _ _ _ _ _ (fun (b : bool) L => b = true -> held bus vm L)).
  { eapply triple_conseq; [apply (triple_claim_by bus vm any)|done|].
    intros [b|e] L [_ Hh]; [|done]. intros ->. auto. }
  intros had. set (H := fun L => had = true -> held bus vm L).
  apply (triple_bind _ _ _ _ _ (fun _ => H)).
  { apply triple_map_err. eapply triple_conseq; [apply (triple_live_unbind bus vm H)|done|].
    by intros [[]|e] L HL. }
  intros []. apply (triple_bind _ _ _ _ _ (fun _ => any)); cycle 1.
  { intros []. eapply triple_conseq; [apply (triple_quiet _ _ any); auto with usbip|done|done]. }
  destruct had; [|by apply triple_ret].
  apply (triple_bind _ _ _ _ _ (fun _ => any)).
  { apply triple_try. eapply triple_conseq; [apply (triple_acl_revoke r intent H Hb Hv)|done|done].
    intros L HL. by apply HL. }
  intros [[]|e].
  - destruct preserve; [by apply triple_ret|].
    eapply triple_conseq; [apply (triple_release_error any)|done|by intros [[]|e] L _].
  - unfold handle_acl_revoke_failure. rewrite Hb, Hv. destruct preserve; [by apply triple_throw|].
    apply triple_look; [auto with usbip|done|].
    intros binding. assert (Hgive : triple bus vm any
      (map_err (fun e => LiveHandler (UsbipLock e)) (release_lock bus vm) ?; h_throw (A := unit) e)
      (fun r _ => True)).
    { apply (triple_bind _ _ _ _ _ (fun _ => any)); [|by intros []; apply triple_throw].
      eapply triple_conseq; [apply (triple_release_error any)|done|by intros [[]|e'] L _]. }
    destruct binding as [[]|]; try (by apply triple_throw);
      (eapply triple_conseq; [exact Hgive|done|by intros [[]|e'] L _]).
Qed.
End dispatched.

(** A request that names nothing changes nothing. *)
Lemma dispatch_none q s : target q = None -> (dispatch q s).2 = s /\ is_ok (dispatch q s).1 = false.
Proof.
  destruct q as [res id|res id p|res req]; simpl; [| |done];
    unfold usbip_bind, usbip_unbind; unfold_handler; by destruct (require_intent res id) as [[]|].
Qed.

Lemma dispatch_served q bus vm :
  target q = Some (bus, vm) -> name_ok vm ->
  triple bus vm (fun _ => True) (dispatch q)
    (fun r L => is_bind q = true -> is_ok r = true -> held bus vm L).
Proof.
  intros Ht Hvm. destruct q as [res id|res id p|res [b v e]]; simpl in *.
  - destruct (require_intent res id) as [[r intent]|] eqn:Hi; [|done]. injection Ht as Hb Hv.
    eapply triple_conseq; [by eapply triple_usbip_bind|done|]. intros x L HL _. exact HL.
  - destruct (require_intent res id) as [[r intent]|] eqn:Hi; [|done]. injection Ht as Hb Hv.
    eapply triple_conseq; [by eapply triple_usbip_unbind|done|done].
  - injection Ht as -> ->. eapply triple_conseq; [by apply triple_usbip_explicit_bind|done|].
    intros x L HL _. exact HL.
Qed.

(** ** Histories *)

Lemma run_all_app qs qs' s : run_all (qs ++ qs') s = run_all qs' (run_all qs s).
Proof. apply fold_left_app. Qed.

Lemma owner_stays q s bus vm :
  request_ok q -> owner (locks s) bus = Some vm -> target q <> Some (bus, vm) ->
  locks (dispatch q s).2 !! bus = locks s !! bus.
Proof.
  intros Hok Ho Ht. destruct (target q) as [[b v]|] eqn:Hq; cycle 1.
  { by destruct (dispatch_none q s Hq) as [-> _]. }
  destruct (dispatch_served q b v Hq (Hok _ _ Hq) s I) as [[Hother _ Hclaim] _].
  destruct (decide (b = bus)) as [->|Hne]; [|by apply Hother].
  by rewrite (Hclaim vm Ho) by congruence.
Qed.

(** The request that ends a claim is one of its owner. *)
Lemma claim_ended qs s bus vm :
  Forall request_ok qs -> owner (locks s) bus = Some vm ->
  owner (locks (run_all qs s)) bus <> Some vm ->
  exists k1 c k2, qs = k1 ++ c :: k2 /\ target c = Some (bus, vm)
    /\ owner (locks (run_all k1 s)) bus = Some vm
    /\ owner (locks (dispatch c (run_all k1 s)).2) bus <> Some vm.
Proof.
  intros Hok Ho. revert s Ho. induction Hok as [|q qs Hq Hok IH]; intros s Ho Hend; [done|].
  destruct (decide (owner (locks (dispatch q s).2) bus = Some vm)) as [Hs|Hn].
  - destruct (IH _ Hs Hend) as (k1 & c & k2 & -> & Ht & H1 & H2). by exists (q :: k1), c, k2.
  - exists [], q, qs. split; [done|]. split; [|done].
    destruct (decide (target q = Some (bus, vm))) as [|Hne]; [done|].
    destruct Hn. unfold owner. by rewrite (owner_stays q s bus vm).
Qed.

(** C6. Whatever the system answers and whatever was claimed before: a
    device is bound, detached, granted or revoked only for the VM of a
    request received, and only while the claim file of its bus id names
    that VM. *)
Theorem effects_under_claim qs L :
  Forall request_ok qs ->
  Forall (fun e => event_ok e /\ exists q, q ∈ qs /\ target q = Some (ev_bus e, ev_vm e))
    (events (run_all qs (mkBroker L 0 [] []))).
Proof.
  induction qs as [|q qs IH] using rev_ind; [constructor|].
  intros [Hqs [Hq _]%Forall_cons]%Forall_app. specialize (IH Hqs). rewrite run_all_app.
  set (s := run_all qs _) in *. change (run_all [q] s) with (dispatch q s).2.
  assert (Hold : Forall (fun e => event_ok e
    /\ exists q', q' ∈ qs ++ [q] /\ target q' = Some (ev_bus e, ev_vm e)) (events s)).
  { eapply Forall_impl; [exact IH|]. intros e (He & q' & Hin & Ht). split; [done|].
    exists q'. split; [set_solver|done]. }
  destruct (target q) as [[b v]|] eqn:Ht.
  - destruct (dispatch_served q b v Ht (Hq _ _ Ht) s I) as [[_ (evs & -> & Hevs) _] _].
    apply Forall_app. split; [done|]. eapply Forall_impl; [exact Hevs|].
    intros e (-> & -> & He). split; [done|]. exists q. split; [set_solver|done].
  - by destruct (dispatch_none q s Ht) as [-> _].
Qed.

(** C7. Two VMs never hold one device by acknowledged binds: if a bind for
    [a] was acknowledged and a later one for another VM [b], then in between
    a request for [a] gave up the claim, and it was an unbind or a bind that
    failed. *)
Theorem claims_exclusive l1 q l2 q' l3 s bus a b :
  Forall request_ok (l1 ++ q :: l2 ++ q' :: l3) ->
  target q = Some (bus, a) -> target q' = Some (bus, b) -> a <> b ->
  is_bind q = true -> is_bind q' = true ->
  is_ok (dispatch q (run_all l1 s)).1 = true ->
  is_ok (dispatch q' (run_all (l1 ++ q :: l2) s)).1 = true ->
  exists k1 c k2, l2 = k1 ++ c :: k2 /\ target c = Some (bus, a)
    /\ owner (locks (run_all (l1 ++ q :: k1) s)) bus = Some a
    /\ owner (locks (run_all (l1 ++ q :: k1 ++ [c]) s)) bus <> Some a
    /\ (is_bind c = true -> is_ok (dispatch c (run_all (l1 ++ q :: k1) s)).1 = false).
Proof.
  intros Hok Ht Ht' Hab Hb Hb' Hack Hack'.
  apply Forall_app in Hok as [_ [Hq [Hl2 [Hq' _]%Forall_cons]%Forall_app]%Forall_cons].
  rewrite run_all_app in Hack'. cbn [run_all fold_left] in Hack'.
  set (s1 := run_all l1 s) in *. fold (run_all l2 (dispatch q s1).2) in Hack'.
  destruct (dispatch_served q bus a Ht (Hq _ _ Ht) s1 I) as [_ Hheld].
  specialize (Hheld Hb Hack). set (s2 := (dispatch q s1).2) in *.
  destruct (dispatch_served q' bus b Ht' (Hq' _ _ Ht') (run_all l2 s2) I) as [[_ _ Hclaim] Hheld'].
  specialize (Hheld' Hb' Hack').
  destruct (claim_ended l2 s2 bus a Hl2 Hheld) as (k1 & c & k2 & -> & Htc & Hbefore & Hafter).
  { intros Ho. unfold held in Hheld'. rewrite (Hclaim a Ho Hab), Ho in Hheld'. congruence. }
  assert (Hrun : run_all (l1 ++ q :: k1) s = run_all k1 s2) by (rewrite run_all_app; done).
  exists k1, c, k2. rewrite Hrun. split; [done|]. split; [done|]. split; [done|]. split.
  - replace (l1 ++ q :: k1 ++ [c]) with ((l1 ++ q :: k1) ++ [c])
      by (by rewrite <- app_assoc).
    by rewrite run_all_app, Hrun.
  - intros Hbc. apply not_true_is_false. intros Hackc. destruct Hafter.
    apply Forall_app in Hl2 as [_ [Hc _]%Forall_cons].
    destruct (dispatch_served c bus a Htc (Hc _ _ Htc) (run_all k1 s2) I) as [_ Hh].
    exact (Hh Hbc Hackc).
Qed.

(** A claim file whose text no VM has for a name, as an interrupted creation
    leaves it, refuses every bind and stays. *)
Theorem orphan_claim_stays qs s bus o :
  owner (locks s) bus = Some o ->
  Forall (fun q => request_ok q /\ target q <> Some (bus, o)) qs ->
  locks (run_all qs s) !! bus = locks s !! bus
  /\ forall q vm, q ∈ qs -> target q = Some (bus, vm) -> is_bind q = true ->
       is_ok (dispatch q (run_all qs s)).1 = false.
Proof.
  intros Ho Hqs.
  assert (Hstay : locks (run_all qs s) !! bus = locks s !! bus).
  { revert s Ho. induction Hqs as [|q qs [Hq Hne] _ IH]; intros s Ho; [done|].
    pose proof (owner_stays q s bus o Hq Ho Hne) as Hs. change (run_all (q :: qs) s)
      with (run_all qs (dispatch q s).2). rewrite IH; [done|]. unfold owner. by rewrite Hs. }
  split; [done|]. intros q vm Hin Ht Hb. apply not_true_is_false. intros Hack.
  rewrite Forall_forall in Hqs. destruct (Hqs q Hin) as [Hq Hne].
  destruct (dispatch_served q bus vm Ht (Hq _ _ Ht) (run_all qs s) I) as [_ Hh].
  specialize (Hh Hb Hack). unfold held, owner in Hh.
  rewrite (owner_stays q _ bus o Hq), Hstay in Hh; [|by unfold owner; rewrite Hstay|done].
  unfold owner in Ho. rewrite Ho in Hh. injection Hh as ->. by rewrite Ht in Hne.
Qed.

(** The requests that name an intent name a VM of the bundle. *)
Lemma intent_vm r id r' intent :
  require_intent (Some r) id = Ok (r', intent) ->
  exists id' i, usbip_bind_intents r !! id' = Some i /\ vm_name i = vm_name intent.
Proof.
  unfold require_intent. destruct (find_usbip_bind_intent_or_wildcard r id) as [i0|] eqn:Hf; [|done].
  intros [= _ <-]. revert Hf. unfold find_usbip_bind_intent_or_wildcard.
  destruct (usbip_bind_intents r !! id) as [i|] eqn:Hi; [intros [= <-]; eauto|].
  intros ([[e v] b] & _ & Hm)%bind_Some. destruct (negb _); [done|].
  destruct (bool_decide _); [done|]. apply bind_Some in Hm as (i & Hp & [= <-]). eauto.
Qed.

(** The claim of an explicit attach for a VM without a bind intent in the
    bundle outlives every unbind. *)
Theorem explicit_claim_stays qs s bus vm :
  owner (locks s) bus = Some vm -> Forall request_ok qs ->
  (forall q, q ∈ qs -> exists r id preserve, q = Unbind (Some r) id preserve
     /\ forall id' i, usbip_bind_intents r !! id' = Some i -> vm_name i <> vm) ->
  owner (locks (run_all qs s)) bus = Some vm.
Proof.
  intros Ho Hok Hqs. enough (Hf : Forall (fun q => request_ok q /\ target q <> Some (bus, vm)) qs).
  { unfold owner. by rewrite (proj1 (orphan_claim_stays qs s bus vm Ho Hf)). }
  rewrite Forall_forall in *. intros q Hq. split; [auto|].
  destruct (Hqs q Hq) as (r & id & p & -> & Hno). cbn [target].
  destruct (require_intent (Some r) id) as [[r' i]|] eqn:Hi; [|done].
  apply intent_vm in Hi as (id' & i' & Hi' & Hv). intros [= _ Heq]. by apply (Hno _ _ Hi'); congruence.
Qed.

End broker.

(** ** Runs *)

Definition demo_intent (vm env : string) : ResolvedUsbipBindIntent :=
  mkBindIntent (intent_id_usbip_bind env vm "1-2") "1-2" vm env [(4176, 1031)]%N false.

Definition demo_resolver : BundleResolver :=
  mkBundleResolver
    {[intent_id_usbip_firewall "work" "1-2"]}
    {[intent_id_usbip_bind "work" "vm-a" "1-2" := demo_intent "vm-a" "work";
      intent_id_usbip_bind "home" "vm-b" "1-2" := demo_intent "vm-b" "home"]}
    {[intent_id_runner "sys-work-usbipd" "backend" := 900%N;
      intent_id_runner "sys-home-usbipd" "backend" := 901%N]}.

Definition bind_a : Request := Bind (Some demo_resolver) (intent_id_usbip_bind "work" "vm-a" "1-2").
Definition bind_b : Request := Bind (Some demo_resolver) (intent_id_usbip_bind "home" "vm-b" "1-2").
Definition unbind_a : Request :=
  Unbind (Some demo_resolver) (intent_id_usbip_bind "work" "vm-a" "1-2") false.

Definition demo_attr (attr : string) : AttrRead :=
  match attr with
  | "devnum" => Attr "7"
  | "idVendor" => Attr "1050"
  | "idProduct" => Attr "0407"
  | "busnum" => Attr "1"
  | "devpath" => Attr "2"
  | _ => AttrNotFound
  end%string.

(** A key on port 1-2; the driver link reads as [link] says. *)
Definition demo_world (lock_io : N -> bool) (link : N -> LinkRead) : World :=
  mkWorld lock_io (fun _ => 0) (fun _ _ => Directory) (fun _ _ attr => demo_attr attr)
    (fun t _ => link t) (fun _ => true) (fun _ => true) (fun _ => true) (fun _ => Some false)
    (fun _ => true).

Definition start : Broker := mkBroker ∅ 0 [] [].
Definition healthy (_ : N) : bool := true.

(** The driver link of the device cannot be read at the call [k]. *)
Definition unreadable_at (k t : N) : LinkRead :=
  if (t =? k)%N then LinkError else Link (Some "usbip-host"%string).

Definition transient : World := demo_world healthy (unreadable_at 48).

(** A repeated bind whose inspection fails gives up the claim of the bind
    before it, while the device stays bound and its ACL granted: the bind of
    another VM is acknowledged, and both backends may open the device. *)
Theorem failed_replay_shares_device :
  let s1 := run_all transient [bind_a] start in
  let s2 := run_all transient [bind_a; bind_a] start in
  let s3 := run_all transient [bind_a; bind_a; bind_b] start in
  is_ok (dispatch transient bind_a start).1 = true
  /\ is_ok (dispatch transient bind_a s1).1 = false
  /\ owner (locks s2) "1-2" = None
  /\ is_ok (dispatch transient bind_b s2).1 = true
  /\ map ev_effect (events s3)
     = [GrantAcl "/dev/bus/usb/001/007" 900; GrantAcl "/dev/bus/usb/001/007" 901].
Proof. vm_compute. repeat split. Qed.

(** A claim interrupted between its creation and its text, as
    [orphan_claim_stays] supposes. *)
Theorem interrupted_claim :
  let w := demo_world (fun t => negb (t =? 13)%N) (unreadable_at 0) in
  is_ok (dispatch w bind_a start).1 = false
  /\ owner (locks (dispatch w bind_a start).2) "1-2" = Some ""%string.
Proof. vm_compute. repeat split. Qed.

(** An unbind during which the claim cannot be read once is acknowledged and
    gives up the claim, with the device still bound to [usbip-host]: the
    handler takes an unreadable claim for none, and detaches nothing. *)
Theorem unreadable_claim_detaches_nothing :
  let w := demo_world (fun t => negb (t =? 37)%N) (unreadable_at 0) in
  let s := run_all w [bind_a] start in
  owner (locks s) "1-2" = Some "vm-a"%string
  /\ is_ok (dispatch w unbind_a s).1 = true
  /\ owner (locks (dispatch w unbind_a s).2) "1-2" = None
  /\ map ev_effect (events (dispatch w unbind_a s).2)
     = [GrantAcl "/dev/bus/usb/001/007" 900; RevokeAcl "/dev/bus/usb/001/007" 900].
Proof. vm_compute. repeat split. Qed.

Lemma demo_requests_ok : request_ok bind_a /\ request_ok bind_b.
Proof. split; intros bus vm; vm_compute; intros [= <- <-]; repeat split; discriminate. Qed.

Lemma effects_under_claim_witness :
  let w := demo_world healthy (unreadable_at 0) in
  let run := events (run_all w [bind_a; bind_b] start) in
  Forall (fun e => event_ok e
    /\ exists q, q ∈ [bind_a; bind_b] /\ target q = Some (ev_bus e, ev_vm e)) run
  /\ map ev_effect run = [GrantAcl "/dev/bus/usb/001/007" 900].
Proof.
  split; [|vm_compute; reflexivity].
  apply (effects_under_claim (demo_world healthy (unreadable_at 0)) [bind_a; bind_b] ∅).
  destruct demo_requests_ok as [Ha Hb]. exact (Forall_cons_2 _ _ _ Ha (Forall_cons_2 _ _ _ Hb (Forall_nil_2 _))).
Defined.

(** The claim given up in [failed_replay_shares_device] is the one of a
    bind that failed. *)
Lemma claims_exclusive_witness :
  exists k1 c k2, [bind_a] = k1 ++ c :: k2 /\ target c = Some ("1-2", "vm-a")%string
    /\ owner (locks (run_all transient ([] ++ bind_a :: k1) start)) "1-2" = Some "vm-a"%string
    /\ owner (locks (run_all transient ([] ++ bind_a :: k1 ++ [c]) start)) "1-2"
       <> Some "vm-a"%string
    /\ (is_bind c = true ->
        is_ok (dispatch transient c (run_all transient ([] ++ bind_a :: k1) start)).1 = false).
Proof.
  apply (claims_exclusive transient [] bind_a [bind_a] bind_b [] start "1-2" "vm-a" "vm-b");
    try solve [vm_compute; reflexivity]; [|done].
  destruct demo_requests_ok as [Ha Hb].
  exact (Forall_cons_2 _ _ _ Ha (Forall_cons_2 _ _ _ Ha (Forall_cons_2 _ _ _ Hb (Forall_nil_2 _)))).
Defined.

End UsbipBroker.

(** ** The plan of the daemon *)

Module BusidPlan.
Import BusId UsbipBroker.

(** [Declared firewall_ref bind_ref] *)
Inductive UsbipClaimSource : Set :=
| Declared (firewall_ref bind_ref : string)
| Explicit.

Inductive UsbipBusidStep : Set :=
  Modprobe | Lock | Withhold | Firewall | Backend | BindStep | Proxy.

#[export] Instance UsbipBusidStep_eq_dec : EqDecision UsbipBusidStep.
Proof. solve_decision. Defined.

Definition is_per_env_sidecar (s : UsbipBusidStep) : bool :=
  match s with Backend | Proxy => true | _ => false end.

Definition is_per_busid_rollback_step (s : UsbipBusidStep) : bool :=
  negb (is_per_env_sidecar s).

Definition CANONICAL_STEPS : list UsbipBusidStep :=
  [Modprobe; Lock; Withhold; Firewall; Backend; BindStep; Proxy].

Record UsbipBusidPlan := mkBusidPlan {
  busid : string;
  plan_env : string;
  plan_vm : string;
  steps : list UsbipBusidStep;
  claim_source : UsbipClaimSource
}.

Definition stop_order (plan : UsbipBusidPlan) : list UsbipBusidStep :=
  List.filter is_per_busid_rollback_step (reverse (steps plan)).

(** [TypedError::UsbipStepFailed] *)
Record UsbipStepFailed := mkStepFailed {
  failed_busid : string;
  failed_step : UsbipBusidStep;
  reason : string
}.

Definition refuse_if (b : bool) (busid : string) (step : UsbipBusidStep) (reason : string) :
    result unit UsbipStepFailed :=
  if b then Err (mkStepFailed busid step reason) else Ok tt.

Definition build_usbip_plan (busid env vm : string) (resolver : BundleResolver) :
    result UsbipBusidPlan UsbipStepFailed :=
  r_bind (refuse_if (bool_decide (busid = ""%string)) busid Lock "bus_id is empty") (fun _ =>
  r_bind (refuse_if (bool_decide (env = ""%string)) busid Lock "env is empty") (fun _ =>
  r_bind (refuse_if (bool_decide (vm = ""%string)) busid BindStep "vm is empty") (fun _ =>
  let firewall_id := intent_id_usbip_firewall env busid in
  r_bind (refuse_if (negb (bool_decide (firewall_id ∈ usbip_firewall_intents resolver)))
    busid Firewall
    ("trusted bundle has no usbip firewall intent for env=" +:+ env +:+ " busid=" +:+ busid))
    (fun _ =>
  let bind_id := intent_id_usbip_bind env vm busid in
  r_bind (refuse_if (negb (bool_decide (is_Some (usbip_bind_intents resolver !! bind_id))))
    busid BindStep
    ("trusted bundle has no usbip bind intent for env=" +:+ env +:+ " vm=" +:+ vm
     +:+ " busid=" +:+ busid))
    (fun _ =>
  Ok (mkBusidPlan busid env vm CANONICAL_STEPS (Declared firewall_id bind_id))))))).

(** The derived [Debug] of [BusIdError]. *)
Definition BusIdError_debug (e : BusIdError) : string :=
  match e with
  | Empty => "Empty"
  | Invalid => "Invalid"
  | TooLong max => "TooLong { max: " +:+ pretty (N.of_nat max) +:+ " }"
  end.

Definition build_usbip_explicit_plan (busid env vm : string) :
    result UsbipBusidPlan UsbipStepFailed :=
  r_bind (refuse_if (bool_decide (busid = ""%string)) busid Lock "bus_id is empty") (fun _ =>
  match validate_bus_id busid with
  | Err err =>
      Err (mkStepFailed busid Lock ("invalid bus_id shape: " +:+ BusIdError_debug err))
  | Ok _ =>
      r_bind (refuse_if (bool_decide (env = ""%string)) busid Lock "env is empty") (fun _ =>
      r_bind (refuse_if (bool_decide (vm = ""%string)) busid BindStep "vm is empty") (fun _ =>
      Ok (mkBusidPlan busid env vm CANONICAL_STEPS Explicit)))
  end).

(** The executor: each step may change the executor's state and fail. *)
Class UsbipStepExecutor (E : Type) := {
  modprobe : UsbipBusidPlan -> handler E string unit;
  acquire_lock_step : UsbipBusidPlan -> handler E string unit;
  withhold_non_owners : UsbipBusidPlan -> handler E string unit;
  apply_firewall : UsbipBusidPlan -> handler E string unit;
  start_backend : UsbipBusidPlan -> handler E string unit;
  bind_step : UsbipBusidPlan -> handler E string unit;
  start_proxy : UsbipBusidPlan -> handler E string unit
}.

Record UsbipExecutionReport := mkReport {
  report_busid : string;
  report_env : string;
  report_vm : string;
  completed : list UsbipBusidStep;
  failed : option (UsbipBusidStep * string)
}.

Definition report_is_ok (r : UsbipExecutionReport) : bool :=
  match failed r with
  | None => bool_decide (length (completed r) = length CANONICAL_STEPS)
  | Some _ => false
  end.

Definition failure_rollback_order (r : UsbipExecutionReport) : list UsbipBusidStep :=
  List.filter is_per_busid_rollback_step (reverse (completed r)).

Section executor.
Context {E : Type} `{UsbipStepExecutor E}.

Definition run_step (plan : UsbipBusidPlan) (s : UsbipBusidStep) : handler E string unit :=
  match s with
  | Modprobe => modprobe plan
  | Lock => acquire_lock_step plan
  | Withhold => withhold_non_owners plan
  | Firewall => apply_firewall plan
  | Backend => start_backend plan
  | BindStep => bind_step plan
  | Proxy => start_proxy plan
  end.

(** The loop over the steps; [done] is the report's list of completed steps. *)
Fixpoint execute_steps (plan : UsbipBusidPlan) (done todo : list UsbipBusidStep) :
    handler E (UsbipExecutionReport * UsbipStepFailed) UsbipExecutionReport :=
  match todo with
  | [] => h_ret (mkReport (busid plan) (plan_env plan) (plan_vm plan) done None)
  | s :: todo => fun e =>
      match run_step plan s e with
      | (Ok _, e') => execute_steps plan (done ++ [s]) todo e'
      | (Err why, e') =>
          (Err (mkReport (busid plan) (plan_env plan) (plan_vm plan) done (Some (s, why)),
                mkStepFailed (busid plan) s why), e')
      end
  end.

Definition execute_usbip_plan (plan : UsbipBusidPlan) :
    handler E (UsbipExecutionReport * UsbipStepFailed) UsbipExecutionReport :=
  execute_steps plan [] (steps plan).

(** [ran plan l e e']: the steps [l] succeed in order from [e], and leave [e']. *)
Inductive ran (plan : UsbipBusidPlan) : list UsbipBusidStep -> E -> E -> Prop :=
| ran_nil e : ran plan [] e e
| ran_cons s l e e1 e2 :
    run_step plan s e = (Ok tt, e1) -> ran plan l e1 e2 -> ran plan (s :: l) e e2.

(** What a run amounts to: the steps before the failing one succeeded in
    order, the failing one ran once, and no later one ran. *)
Definition stopped_at (plan : UsbipBusidPlan) (todo before : list UsbipBusidStep)
    (s : UsbipBusidStep) (why : string) (e e' : E) : Prop :=
  exists after e1, todo = before ++ s :: after /\ ran plan before e e1
    /\ run_step plan s e1 = (Err why, e').

Lemma execute_steps_exact plan done todo e :
  match execute_steps plan done todo e with
  | (Ok r, e') => r = mkReport (busid plan) (plan_env plan) (plan_vm plan) (done ++ todo) None /\ ran plan todo e e'
  | (Err (r, err), e') => exists before s why,
      r = mkReport (busid plan) (plan_env plan) (plan_vm plan) (done ++ before) (Some (s, why))
      /\ err = mkStepFailed (busid plan) s why /\ stopped_at plan todo before s why e e'
  end.
Proof.
  revert done e. induction todo as [|s todo IH]; intros done e; simpl.
  - rewrite app_nil_r. split; [done|constructor].
  - destruct (run_step plan s e) as [[[]|why] e1] eqn:Hs.
    + specialize (IH (done ++ [s]) e1). destruct (execute_steps _ _ _ _) as [[r|[r err]] e2].
      * destruct IH as [-> Hr]. rewrite <- app_assoc. split; [done|]. by econstructor.
      * destruct IH as (before & x & why & -> & -> & after & e3 & -> & Hr & Hx).
        exists (s :: before), x, why. rewrite <- app_assoc. split; [done|]. split; [done|].
        exists after, e3. split; [done|]. split; [by econstructor|done].
    + exists [], s, why. rewrite app_nil_r. split; [done|]. split; [done|].
      exists todo, e. split; [done|]. split; [constructor|done].
Qed.

(** The loop over a plan the daemon built: either all seven steps succeeded
    in the canonical order and the report says so, or the first failing
    step ends the run.  What a rollback then undoes is, newest first, what
    ran and is not a sidecar of the environment; it is the tail of the
    teardown order, so a failed start and a stop undo in one order. *)
Theorem execute_exact busid env vm resolver plan e :
  build_usbip_plan busid env vm resolver = Ok plan
  \/ build_usbip_explicit_plan busid env vm = Ok plan ->
  match execute_usbip_plan plan e with
  | (Ok r, e') => report_is_ok r = true /\ ran plan CANONICAL_STEPS e e'
  | (Err (r, err), e') => exists before s why,
      r = mkReport busid (plan_env plan) (plan_vm plan) before (Some (s, why)) /\ report_is_ok r = false
      /\ err = mkStepFailed busid s why
      /\ stopped_at plan CANONICAL_STEPS before s why e e'
      /\ (forall x, x ∈ failure_rollback_order r <->
           x ∈ before /\ x <> Backend /\ x <> Proxy)
      /\ exists undone, stop_order plan = undone ++ failure_rollback_order r
  end.
Proof.
  intros Hplan. assert (Hp : steps plan = CANONICAL_STEPS /\ BusidPlan.busid plan = busid).
  { revert Hplan. unfold build_usbip_plan, build_usbip_explicit_plan, refuse_if.
    intros [Hb|Hb]; revert Hb; [|destruct (validate_bus_id busid)];
      repeat case_bool_decide; simpl; try done; by intros [= <-]. }
  destruct Hp as [Hsteps <-]. pose proof (execute_steps_exact plan [] (steps plan) e) as Hx.
  unfold execute_usbip_plan, stop_order. rewrite Hsteps in *.
  destruct (execute_steps _ _ _ _) as [[r|[r err]] e']; [by destruct Hx as [-> ?]|].
  destruct Hx as (before & s & why & -> & -> & Hst). exists before, s, why.
  do 4 (split; [done|]). split; [intros x; split|].
  - intros Hin. apply list_elem_of_In, filter_In in Hin as [Hin%list_elem_of_In Hx].
    rewrite elem_of_reverse in Hin. split; [exact Hin|]. split; intros ->; discriminate Hx.
  - intros (Hin & H1 & H2). apply list_elem_of_In, filter_In. split.
    + apply list_elem_of_In. by rewrite elem_of_reverse.
    + by destruct x.
  - destruct Hst as (after & e1 & -> & _). unfold failure_rollback_order. simpl completed.
    rewrite reverse_app, List.filter_app. eauto.
Qed.

End executor.
End BusidPlan.
