(* ===== verification/ExecFiles.v ===== *)
(** * The files of a detached command

    What the guest daemon and [d2b-exec-runner] exchange through a slot's
    directory: the durable record and the status ([record.rs], [Module
    ExecRecord]) and the command to run ([spec.rs] and the validation of
    [lib.rs], [Module ExecSpec]).  The codec primitives of [codec.rs] are those
    of [FileRing.Meta]; [Module Codec] adds strings, signed integers and
    options, and states what a reader owes its writer as a class. *)

From S2P Require Import Prelude Ids Frame FileRing.
Import Meta.

Local Open Scope rust_scope.

(** ** Codec primitives ([codec.rs]) *)

Module Codec.

Definition MAX_FIELD_BYTES : N := 2 ^ 20.

(** [core::str::from_utf8]: the byte ranges of well-formed UTF-8. *)
Definition byte_in (lo hi : N) (c : ascii) : bool :=
  (lo <=? N_of_ascii c)%N && (N_of_ascii c <=? hi)%N.

Definition cont : ascii -> bool := byte_in 0x80 0xBF.

Fixpoint utf8_valid (l : list ascii) : bool :=
  match l with
  | [] => true
  | b :: l =>
      if byte_in 0 0x7F b then utf8_valid l
      else if byte_in 0xC2 0xDF b then
        match l with c1 :: l => cont c1 && utf8_valid l | _ => false end
      else
        let three (lo hi : N) :=
          match l with
          | c1 :: c2 :: l => byte_in lo hi c1 && cont c2 && utf8_valid l
          | _ => false
          end in
        let four (lo hi : N) :=
          match l with
          | c1 :: c2 :: c3 :: l => byte_in lo hi c1 && cont c2 && cont c3 && utf8_valid l
          | _ => false
          end in
        if byte_in 0xE0 0xE0 b then three 0xA0 0xBF
        else if byte_in 0xED 0xED b then three 0x80 0x9F
        else if byte_in 0xE1 0xEF b then three 0x80 0xBF
        else if byte_in 0xF0 0xF0 b then four 0x90 0xBF
        else if byte_in 0xF1 0xF3 b then four 0x80 0xBF
        else if byte_in 0xF4 0xF4 b then four 0x80 0x8F
        else false
  end%N.

(** [i32::to_le_bytes] and [i32::from_le_bytes]. *)
Definition i32_bits (value : Z) : N := Z.to_N (value mod 2 ^ 32).
Definition i32_of_bits (n : N) : Z :=
  if (n <? 2 ^ 31)%N then Z.of_N n else Z.of_N n - 2 ^ 32.
Definition i32_fits (value : Z) : Prop := (- 2 ^ 31 <= value < 2 ^ 31)%Z.

Definition put_u8 (value : N) : list ascii := le_bytes 1 value.
Definition put_i32 (value : Z) : list ascii := le_bytes 4 (i32_bits value).
Definition put_bytes (bytes : list ascii) : list ascii :=
  put_u32 (N.of_nat (length bytes)) ++ bytes.
Definition put_str (value : string) : list ascii := put_bytes (chars value).

Definition get_i32 : reader Z :=
  let? bytes := take_bytes 4 in h_ret (i32_of_bits (from_le_bytes bytes)).

Definition get_bytes : reader (list ascii) :=
  let? len := get_u32 in
  h_reject (MAX_FIELD_BYTES <? len)%N DecodeError_FieldTooLong ?;
  take_bytes (N.to_nat len).

Definition get_str : reader string :=
  let? bytes := get_bytes in
  h_reject (negb (utf8_valid bytes)) DecodeError_InvalidUtf8 ?;
  h_ret (String.string_of_list_ascii bytes).

(** [put_opt_i32] and the like. *)
Definition put_opt {A} (put : A -> list ascii) (value : option A) : list ascii :=
  match value with Some v => put_bool true ++ put v | None => put_bool false end.

Definition get_opt {A} (get : reader A) : reader (option A) :=
  let? present := get_bool in
  if (present : bool) then let? v := get in h_ret (Some v) else h_ret None.

(** A string as Rust has it, and short enough to be read back. *)
Definition text (s : string) : Prop := utf8_valid (chars s) = true.
Definition field_fits (s : string) : Prop :=
  text s /\ (N.of_nat (String.length s) <= MAX_FIELD_BYTES)%N.

(** [?] through a [From] conversion of the error. *)
Definition map_err {E F A} (f : E -> F) (m : handler (list ascii) E A) :
    handler (list ascii) F A :=
  fun s => let '(r, s') := m s in (match r with Ok a => Ok a | Err e => Err (f e) end, s').

(** [for _ in 0..n]. *)
Fixpoint get_many {E A} (n : nat) (get : handler (list ascii) E A) :
    handler (list ascii) E (list A) :=
  match n with
  | O => h_ret []
  | S n => let? a := get in let? l := get_many n get in h_ret (a :: l)
  end.

(** *** What a reader owes its writer *)

(** The reader reads what the writer wrote, whatever follows, and reads
    nothing else. *)
Class Codec {E A} (put : A -> list ascii) (get : handler (list ascii) E A) (ok : A -> Prop) :
    Prop := {
  codec_get : forall a rest, ok a -> get (put a ++ rest) = (Ok a, rest);
  codec_ok : forall data a rest, get data = (Ok a, rest) -> data = put a ++ rest /\ ok a
}.

Lemma uint_codec w :
  Codec (le_bytes w) (let? bytes := take_bytes w in h_ret (from_le_bytes bytes))
    (fun v => (v < 256 ^ N.of_nat w)%N).
Proof.
  split; [|intros data v rest H; by apply get_uint_ok].
  intros v rest Hv. unfold h_bind.
  pose proof (take_bytes_app (le_bytes w v) rest) as H. rewrite le_bytes_length in H.
  rewrite H. unfold h_ret. by rewrite from_le_bytes_le_bytes.
Qed.

#[export] Instance u8_codec : Codec put_u8 get_u8 (fun v => (v < 256)%N).
Proof. exact (uint_codec 1). Qed.

#[export] Instance u32_codec : Codec put_u32 get_u32 u32_fits.
Proof.
  pose proof (uint_codec 4) as [H1 H2]. change (256 ^ N.of_nat 4)%N with (2 ^ 32)%N in *.
  split; [intros v rest Hv; apply H1|intros data v rest Hv; apply H2 in Hv as [-> Hv]; split; [done|]];
    unfold u32_fits, u32_max in *; lia.
Qed.

#[export] Instance u64_codec : Codec put_u64 get_u64 u64_fits.
Proof.
  pose proof (uint_codec 8) as [H1 H2]. change (256 ^ N.of_nat 8)%N with (2 ^ 64)%N in *.
  split; [intros v rest Hv; apply H1|intros data v rest Hv; apply H2 in Hv as [-> Hv]; split; [done|]];
    unfold u64_fits, u64_max in *; lia.
Qed.

#[export] Instance bool_codec : Codec put_bool get_bool (fun _ => True).
Proof.
  split; [intros v rest _; apply get_bool_put|].
  intros data v rest H. split; [by apply get_bool_ok|done].
Qed.

Lemma i32_of_bits_bits z : i32_fits z -> i32_of_bits (i32_bits z) = z.
Proof.
  unfold i32_fits, i32_of_bits, i32_bits. intros Hz.
  pose proof (Z.mod_pos_bound z (2 ^ 32) ltac:(lia)) as Hb.
  destruct (N.ltb_spec (Z.to_N (z mod 2 ^ 32)) (2 ^ 31)); rewrite Z2N.id by lia.
  - assert (0 <= z)%Z; [|by rewrite Z.mod_small by lia].
    destruct (Z.le_gt_cases 0 z); [done|].
    replace z with (z + 2 ^ 32 + (-1) * 2 ^ 32)%Z in H by lia.
    rewrite Z_mod_plus_full, Z.mod_small in H by lia. lia.
  - destruct (Z.le_gt_cases 0 z); [rewrite Z.mod_small in H by lia; lia|].
    replace z with (z + 2 ^ 32 + (-1) * 2 ^ 32)%Z at 1 by lia.
    rewrite Z_mod_plus_full, Z.mod_small by lia. lia.
Qed.

Lemma i32_bits_of_bits n :
  (n < 2 ^ 32)%N -> i32_bits (i32_of_bits n) = n /\ i32_fits (i32_of_bits n).
Proof.
  unfold i32_fits, i32_of_bits, i32_bits. intros Hn. destruct (N.ltb_spec n (2 ^ 31)).
  - rewrite Z.mod_small by lia. lia.
  - replace (Z.of_N n - 2 ^ 32)%Z with (Z.of_N n + (-1) * 2 ^ 32)%Z by lia.
    rewrite Z_mod_plus_full, Z.mod_small by lia. lia.
Qed.

#[export] Instance i32_codec : Codec put_i32 get_i32 i32_fits.
Proof.
  split.
  - intros z rest Hz. unfold get_i32, put_i32, h_bind.
    pose proof (take_bytes_app (le_bytes 4 (i32_bits z)) rest) as H. rewrite le_bytes_length in H.
    rewrite H. unfold h_ret. rewrite from_le_bytes_le_bytes; [by rewrite i32_of_bits_bits|].
    unfold i32_bits. pose proof (Z.mod_pos_bound z (2 ^ 32) ltac:(lia)).
    change (256 ^ N.of_nat 4)%N with (2 ^ 32)%N. lia.
  - intros data z rest. unfold get_i32, h_bind.
    destruct (take_bytes 4 data) as [[bs|] r] eqn:Ht; intros [= <- <-].
    apply take_bytes_ok in Ht as [-> Hl]. pose proof (from_le_bytes_lt bs) as Hlt.
    rewrite Hl in Hlt. change (256 ^ N.of_nat 4)%N with (2 ^ 32)%N in Hlt.
    destruct (i32_bits_of_bits _ Hlt) as [Hb Hf]. split; [|done].
    unfold put_i32. by rewrite Hb, <- Hl, le_bytes_from.
Qed.

Lemma h_bind_ok {S E A B} (m : handler S E A) (k : A -> handler S E B) s a s1 :
  m s = (Ok a, s1) -> h_bind m k s = k a s1.
Proof. unfold h_bind. by intros ->. Qed.

Lemma h_reject_false {S E A} b (e : E) (k : handler S E A) s :
  b = false -> (h_reject b e ?; k) s = k s.
Proof. by intros ->. Qed.

#[export] Instance bytes_codec :
  Codec put_bytes get_bytes (fun b => (N.of_nat (length b) <= MAX_FIELD_BYTES)%N).
Proof.
  split.
  - intros b rest Hb. unfold get_bytes, put_bytes. rewrite <- app_assoc.
    erewrite h_bind_ok by (apply codec_get; unfold u32_fits, u32_max, MAX_FIELD_BYTES in *; lia).
    rewrite h_reject_false by (apply N.ltb_ge; lia). rewrite Nat2N.id. apply take_bytes_app.
  - intros data b rest. unfold get_bytes. intros (len & s1 & [-> Hl]%codec_ok & H)%bind_ok.
    apply bind_ok in H as (? & ? & (Hm & ->)%reject_ok & [-> Hb]%take_bytes_ok).
    apply N.ltb_ge in Hm. unfold put_bytes. rewrite <- app_assoc, Hb, N2Nat.id. split; [done|lia].
Qed.

Lemma chars_of_string s : String.string_of_list_ascii (chars s) = s.
Proof. apply String.string_of_list_ascii_of_string. Qed.

#[export] Instance str_codec : Codec put_str get_str field_fits.
Proof.
  split.
  - intros v rest [Ht Hl]. unfold get_str, put_str, text in *.
    erewrite h_bind_ok by (apply codec_get; by rewrite length_chars).
    rewrite h_reject_false by (by rewrite Ht). by rewrite chars_of_string.
  - intros data v rest. unfold get_str. intros (b & s1 & [-> Hl]%codec_ok & H)%bind_ok.
    apply bind_ok in H as (? & ? & (Hu & ->)%reject_ok & [= <- <-]).
    assert (Hc : chars (String.string_of_list_ascii b) = b)
      by apply String.list_ascii_of_string_of_list_ascii.
    unfold put_str, field_fits, text. rewrite <- length_chars, Hc.
    by apply negb_false_iff in Hu.
Qed.

#[export] Instance opt_codec {A} (put : A -> list ascii) (get : reader A) ok `{!Codec put get ok} :
  Codec (put_opt put) (get_opt get) (fun v => forall a, v = Some a -> ok a).
Proof.
  split.
  - intros [a|] rest Ha; unfold get_opt, put_opt.
    + rewrite <- app_assoc. erewrite h_bind_ok by (by apply codec_get). cbv iota.
      by erewrite h_bind_ok by (apply codec_get; auto).
    + by erewrite h_bind_ok by (by apply codec_get).
  - intros data v rest. unfold get_opt. intros ([] & s1 & [-> _]%codec_ok & H)%bind_ok.
    + apply bind_ok in H as (a & s2 & [-> Ha]%codec_ok & [= <- <-]).
      unfold put_opt. rewrite <- app_assoc. split; [done|]. by intros ? [= <-].
    + injection H as <- <-. by split.
Qed.

#[export] Instance map_err_codec {E F A} (f : E -> F) (put : A -> list ascii)
    (get : handler (list ascii) E A) ok `{!Codec put get ok} :
  Codec put (map_err f get) ok.
Proof.
  split.
  - intros a rest Ha. unfold map_err. by rewrite codec_get.
  - intros data a rest. unfold map_err. destruct (get data) as [[a'|] s] eqn:Hg; [|done].
    intros [= -> ->]. by apply codec_ok in Hg.
Qed.

#[export] Instance many_codec {E A} (put : A -> list ascii) (get : handler (list ascii) E A) ok
    n `{!Codec put get ok} :
  Codec (fun l => concat (map put l)) (get_many n get) (fun l => length l = n /\ Forall ok l).
Proof.
  split.
  - revert n. induction n as [|n IH]; intros [|a l] rest [Hn Hl]; simplify_eq/=; [done|].
    apply Forall_cons in Hl as [Ha Hl]. rewrite <- app_assoc.
    erewrite h_bind_ok by (by apply codec_get). by erewrite h_bind_ok by (by apply IH).
  - induction n as [|n IH]; intros data l rest; simpl; [intros [= <- <-]; auto|].
    intros (a & s1 & [-> Ha]%codec_ok & H)%bind_ok.
    apply bind_ok in H as (l' & s2 & [-> [Hn Hl]]%IH & [= <- <-]).
    simpl. rewrite <- app_assoc, Hn. auto.
Qed.

Lemma finish_nil : finish [] = (Ok tt, []).
Proof. done. Qed.

Lemma finish_ok data u rest : finish data = (Ok u, rest) -> data = [] /\ rest = [].
Proof.
  unfold finish. intros (x & s1 & [= <- <-] & (Hb & ->)%reject_ok)%bind_ok.
  apply negb_false_iff, bool_decide_eq_true in Hb. by subst.
Qed.

(** Undoes a reader that succeeded, one field after the other. *)
Ltac read_inv H :=
  repeat first
    [ let a := fresh "v" in let s := fresh "s" in let Hg := fresh "Hg" in
      apply bind_ok in H as (a & s & Hg & H);
      first
        [ apply finish_ok in Hg as [-> ->]
        | let Hb := fresh "Hb" in apply reject_ok in Hg as [Hb ->]
        | let Ho := fresh "Ho" in apply codec_ok in Hg as [-> Ho] ] ].

(** Runs a reader on what a writer wrote. *)
Ltac read_back :=
  repeat first
    [ rewrite h_reject_false by done
    | erewrite h_bind_ok by (apply codec_get; first [done | vm_compute; congruence]) ].

End Codec.

(** ** The durable record and the status ([record.rs]) *)

Module ExecRecord.
Import Codec.

Definition RECORD_MAGIC : N := 0x4e4c4552.
Definition RECORD_VERSION : N := 1.
Definition RECORD_KIND_DETACHED : N := 1.
Definition STATUS_MAGIC : N := 0x4e4c5354.
Definition STATUS_VERSION : N := 1.

Inductive RecordState : Set :=
  Dispatching | Running | Exited | Signaled | Cancelled | SpawnFailed.

#[export] Instance RecordState_eq_dec : EqDecision RecordState.
Proof. solve_decision. Defined.

Definition is_terminal (self : RecordState) : bool :=
  match self with Exited | Signaled | Cancelled | SpawnFailed => true | _ => false end.

Definition tag (self : RecordState) : N :=
  match self with
  | Dispatching => 0 | Running => 1 | Exited => 2 | Signaled => 3 | Cancelled => 4
  | SpawnFailed => 5
  end.

Definition from_tag (t : N) : result RecordState DecodeError :=
  match t with
  | 0 => Ok Dispatching | 1 => Ok Running | 2 => Ok Exited | 3 => Ok Signaled
  | 4 => Ok Cancelled | 5 => Ok SpawnFailed
  | _ => Err DecodeError_InvalidTag
  end%N.

Record DurableRecord := mkDurableRecord {
  exec_id : string;
  slot : N;
  boot_id : string;
  create_time_unix : N;
  dispatch_deadline_unix : N;
  argv_sha256 : string;
  state : RecordState;
  exit_code : option Z;
  term_signal : option N;
  lost : bool;
  terminal_time_unix : option N
}.

Definition put_state (s : RecordState) : list ascii := put_u8 (tag s).

Definition encode_record (self : DurableRecord) : list ascii :=
  put_u32 RECORD_MAGIC ++ put_u32 RECORD_VERSION ++ put_u8 RECORD_KIND_DETACHED
  ++ put_str (exec_id self) ++ put_u32 (slot self) ++ put_str (boot_id self)
  ++ put_u64 (create_time_unix self) ++ put_u64 (dispatch_deadline_unix self)
  ++ put_str (argv_sha256 self) ++ put_state (state self)
  ++ put_opt put_i32 (exit_code self) ++ put_opt put_u32 (term_signal self)
  ++ put_bool (lost self) ++ put_opt put_u64 (terminal_time_unix self).

Definition get_state : reader RecordState :=
  let? t := get_u8 in h_lift (from_tag t).

Definition decode_record_fields : reader DurableRecord :=
  let? magic := get_u32 in
  h_reject (negb (magic =? RECORD_MAGIC)%N) DecodeError_BadMagic ?;
  let? version := get_u32 in
  h_reject (negb (version =? RECORD_VERSION)%N) DecodeError_BadVersion ?;
  let? kind := get_u8 in
  h_reject (negb (kind =? RECORD_KIND_DETACHED)%N) DecodeError_InvalidTag ?;
  let? exec_id := get_str in
  let? slot := get_u32 in
  let? boot_id := get_str in
  let? create_time_unix := get_u64 in
  let? dispatch_deadline_unix := get_u64 in
  let? argv_sha256 := get_str in
  let? state := get_state in
  let? exit_code := get_opt get_i32 in
  let? term_signal := get_opt get_u32 in
  let? lost := get_bool in
  let? terminal_time_unix := get_opt get_u64 in
  finish ?;
  h_ret (mkDurableRecord exec_id slot boot_id create_time_unix dispatch_deadline_unix
           argv_sha256 state exit_code term_signal lost terminal_time_unix).

Definition decode_record (bytes : list ascii) : result DurableRecord DecodeError :=
  (decode_record_fields bytes).1.

(** The fields have their Rust types, and the texts fit the codec. *)
Record record_wf (r : DurableRecord) : Prop := mkRecordWf {
  rwf_exec_id : field_fits (exec_id r);
  rwf_slot : u32_fits (slot r);
  rwf_boot_id : field_fits (boot_id r);
  rwf_created : u64_fits (create_time_unix r);
  rwf_deadline : u64_fits (dispatch_deadline_unix r);
  rwf_argv : field_fits (argv_sha256 r);
  rwf_exit : forall z, exit_code r = Some z -> i32_fits z;
  rwf_signal : forall n, term_signal r = Some n -> u32_fits n;
  rwf_time : forall n, terminal_time_unix r = Some n -> u64_fits n
}.

#[export] Instance state_codec :
  Codec put_state get_state (fun _ => True).
Proof.
  split.
  - intros s rest _. unfold get_state, put_state. erewrite h_bind_ok by (apply codec_get; by destruct s).
    by destruct s.
  - intros data s rest. unfold get_state. intros (t & s1 & [-> _]%codec_ok & H)%bind_ok.
    unfold h_lift, from_tag in H. repeat case_match; simplify_eq; done.
Qed.

Lemma decode_encode_record r : record_wf r -> decode_record (encode_record r) = Ok r.
Proof.
  intros []. unfold decode_record, encode_record, decode_record_fields.
  rewrite <- (app_nil_r (put_opt put_u64 _)).
  read_back. by destruct r.
Qed.

Lemma decode_record_ok bytes r :
  decode_record bytes = Ok r -> bytes = encode_record r /\ record_wf r.
Proof.
  unfold decode_record. destruct (decode_record_fields bytes) as [res rest] eqn:Hd.
  intros Hr. simpl in Hr. subst res. unfold decode_record_fields in Hd.
  read_inv Hd. injection Hd as <-.
  repeat match goal with H : negb (_ =? _)%N = false |- _ =>
    apply negb_false_iff, N.eqb_eq in H; subst end.
  split; [by unfold encode_record; rewrite app_nil_r|]. by split.
Qed.

(** *** The status the runner publishes *)

Inductive StatusPhase : Set :=
| Phase_Started
| Phase_SpawnFailed
| Phase_InfraFailed
| Phase_Exited (code : Z)
| Phase_Signaled (signal : Z)
| Phase_Cancelled.

Definition phase_tag (self : StatusPhase) : N :=
  match self with
  | Phase_Started => 0 | Phase_SpawnFailed => 1 | Phase_InfraFailed => 2 | Phase_Exited _ => 3
  | Phase_Signaled _ => 4 | Phase_Cancelled => 5
  end.

Definition encode_status (phase : StatusPhase) : list ascii :=
  put_u32 STATUS_MAGIC ++ put_u32 STATUS_VERSION ++ put_u8 (phase_tag phase)
  ++ match phase with
     | Phase_Exited code => put_i32 code
     | Phase_Signaled signal => put_i32 signal
     | _ => []
     end.

Definition decode_status_fields : reader StatusPhase :=
  let? magic := get_u32 in
  h_reject (negb (magic =? STATUS_MAGIC)%N) DecodeError_BadMagic ?;
  let? version := get_u32 in
  h_reject (negb (version =? STATUS_VERSION)%N) DecodeError_BadVersion ?;
  let? t := get_u8 in
  let? phase :=
    match t with
    | 0 => h_ret Phase_Started
    | 1 => h_ret Phase_SpawnFailed
    | 2 => h_ret Phase_InfraFailed
    | 3 => let? code := get_i32 in h_ret (Phase_Exited code)
    | 4 => let? signal := get_i32 in h_ret (Phase_Signaled signal)
    | 5 => h_ret Phase_Cancelled
    | _ => h_throw DecodeError_InvalidTag
    end%N in
  finish ?;
  h_ret phase.

Definition decode_status (bytes : list ascii) : result StatusPhase DecodeError :=
  (decode_status_fields bytes).1.

Definition phase_fits (phase : StatusPhase) : Prop :=
  match phase with
  | Phase_Exited code => i32_fits code
  | Phase_Signaled signal => i32_fits signal
  | _ => True
  end.

Lemma decode_encode_status phase :
  phase_fits phase -> decode_status (encode_status phase) = Ok phase.
Proof.
  intros Hf. unfold decode_status, encode_status, decode_status_fields.
  erewrite h_bind_ok by (by apply codec_get). rewrite h_reject_false by done.
  erewrite h_bind_ok by (by apply codec_get). rewrite h_reject_false by done.
  erewrite h_bind_ok by (apply codec_get; by destruct phase).
  destruct phase; cbn [phase_tag phase_fits] in *; try done;
    rewrite <- (app_nil_r (put_i32 _)); cbv iota;
    erewrite h_bind_ok by (erewrite h_bind_ok by (by apply codec_get); reflexivity); done.
Qed.

Lemma decode_status_ok bytes phase :
  decode_status bytes = Ok phase -> bytes = encode_status phase /\ phase_fits phase.
Proof.
  unfold decode_status. destruct (decode_status_fields bytes) as [res rest] eqn:Hd.
  intros Hr. simpl in Hr. subst res. unfold decode_status_fields in Hd.
  apply bind_ok in Hd as (m & s1 & [-> _]%codec_ok & Hd).
  apply bind_ok in Hd as (? & ? & (Hm & ->)%reject_ok & Hd).
  apply bind_ok in Hd as (v & s2 & [-> _]%codec_ok & Hd).
  apply bind_ok in Hd as (? & ? & (Hv & ->)%reject_ok & Hd).
  apply negb_false_iff, N.eqb_eq in Hm, Hv. subst m v.
  apply bind_ok in Hd as (t & s3 & [-> _]%codec_ok & Hd).
  apply bind_ok in Hd as (p & s4 & Hp & Hd).
  apply bind_ok in Hd as (u & s5 & [-> ->]%finish_ok & [= <- <-]).
  unfold encode_status.
  repeat match type of Hp with context [match ?n with _ => _ end] => destruct n end;
    try done;
    first [ injection Hp as <- ->; by rewrite ?app_nil_r
          | apply bind_ok in Hp as (z & s6 & [-> Hz]%codec_ok & [= <- ->]);
            by rewrite ?app_nil_r ].
Qed.

End ExecRecord.

(** ** The command to run ([spec.rs], [lib.rs]) *)

Module ExecSpec.
Import Codec.

Definition MAX_ARGV : nat := 128.
Definition MAX_ARG_LEN : nat := N.to_nat 4096.
Definition MAX_CWD_LEN : nat := N.to_nat 4096.
Definition MAX_ENV : nat := 256.
Definition MAX_ENV_KEY_LEN : nat := 128.
Definition MAX_ENV_VALUE_LEN : nat := N.to_nat 8192.
Definition MAX_SYSTEMD_RUN_ARGS : nat := MAX_ENV * 2 + MAX_ARGV + 32.
Definition SPEC_MAGIC : N := 0x44324553.
Definition SPEC_VERSION : N := 2.

Record RunnerEnv := mkRunnerEnv { key : string; value : string }.

Inductive ValidationError : Set :=
| EmptyArgv | TooManyArgs | ArgEmpty | ArgLeadingDash | ArgTooLong | ArgContainsNul
| CwdEmpty | CwdRelative | CwdTooLong | CwdContainsNul
| TooManyEnv | EnvKeyEmpty | EnvKeyTooLong | EnvKeyContainsNul | EnvKeyContainsEquals
| EnvValueTooLong | EnvValueContainsNul.

Definition check {E} (b : bool) (e : E) : result unit E := if b then Err e else Ok tt.

(** A check of every element, in order. *)
Fixpoint each {A E} (f : A -> result unit E) (l : list A) : result unit E :=
  match l with [] => Ok tt | a :: l => r_bind (f a) (fun _ => each f l) end.

Definition contains (c : ascii) (s : string) : bool := existsb (char_eqb c) (chars s).
Definition contains_nul : string -> bool := contains "000"%char.
Definition is_empty (s : string) : bool := bool_decide (s = ""%string).
Definition longer (max : nat) (s : string) : bool := bool_decide (max < String.length s).
Definition starts (prefix s : string) : bool := starts_with (chars prefix) (chars s).

Definition validate_argv (argv : list string) : result unit ValidationError :=
  r_bind (check (bool_decide (argv = [])) EmptyArgv) (fun _ =>
  r_bind (check (bool_decide (MAX_ARGV < length argv)) TooManyArgs) (fun _ =>
  r_bind (each (fun arg =>
    r_bind (check (is_empty arg) ArgEmpty) (fun _ =>
    r_bind (check (longer MAX_ARG_LEN arg) ArgTooLong) (fun _ =>
    check (contains_nul arg) ArgContainsNul))) argv) (fun _ =>
  check (starts "-" (hd ""%string argv)) ArgLeadingDash))).

Definition validate_cwd (cwd : option string) : result unit ValidationError :=
  match cwd with
  | None => Ok tt
  | Some cwd =>
      r_bind (check (is_empty cwd) CwdEmpty) (fun _ =>
      r_bind (check (contains_nul cwd) CwdContainsNul) (fun _ =>
      r_bind (check (negb (starts "/" cwd)) CwdRelative) (fun _ =>
      check (longer MAX_CWD_LEN cwd) CwdTooLong)))
  end.

Definition validate_env (env : list RunnerEnv) : result unit ValidationError :=
  r_bind (check (bool_decide (MAX_ENV < length env)) TooManyEnv) (fun _ =>
  each (fun entry =>
    r_bind (check (is_empty (key entry)) EnvKeyEmpty) (fun _ =>
    r_bind (check (longer MAX_ENV_KEY_LEN (key entry)) EnvKeyTooLong) (fun _ =>
    r_bind (check (contains_nul (key entry)) EnvKeyContainsNul) (fun _ =>
    r_bind (check (contains "="%char (key entry)) EnvKeyContainsEquals) (fun _ =>
    r_bind (check (longer MAX_ENV_VALUE_LEN (value entry)) EnvValueTooLong) (fun _ =>
    check (contains_nul (value entry)) EnvValueContainsNul)))))) env).

Record ExecSpec := mkExecSpec {
  argv : list string;
  cwd : option string;
  env : list RunnerEnv;
  stdout_log_cap : N;
  stderr_log_cap : N;
  max_runtime_sec : N;
  exec_user : string;
  exec_uid : N;
  systemd_run_path : string;
  login_shell_path : string;
  workload_unit_name : string;
  systemd_run_args : list string
}.

Inductive SpecError : Set :=
| SpecError_Decode (e : DecodeError)
| SpecError_Validation (e : ValidationError)
| SpecError_BadMagic | SpecError_BadVersion | SpecError_LogCapZero | SpecError_BadExecUser
| SpecError_BadExecUid | SpecError_BadPath | SpecError_BadWorkloadUnitName
| SpecError_BadSystemdRunArgs.

Definition validation {A} (r : result A ValidationError) : result A SpecError :=
  match r with Ok a => Ok a | Err e => Err (SpecError_Validation e) end.

Definition validate_exec_user (user : string) : result unit SpecError :=
  check (is_empty user || longer MAX_ARG_LEN user || contains_nul user) SpecError_BadExecUser.

Definition validate_abs_path (path : string) : result unit SpecError :=
  check (is_empty path || longer MAX_ARG_LEN path || contains_nul path || negb (starts "/" path))
    SpecError_BadPath.

Definition ends (suffix s : string) : bool :=
  starts_with (reverse (chars suffix)) (reverse (chars s)).

Definition validate_workload_unit_name (unit : string) : result () SpecError :=
  check (is_empty unit || longer MAX_ARG_LEN unit || contains_nul unit || contains "/"%char unit
         || negb (starts "d2b-exec-" unit) || negb (ends "-w.service" unit)
         || negb (forallb (fun b => is_ascii_alphanumeric b || char_eqb b "-"%char
                                    || char_eqb b "."%char) (chars unit)))
    SpecError_BadWorkloadUnitName.

Definition validate_systemd_run_args (args : list string) : result unit SpecError :=
  r_bind (check (bool_decide (args = []) || bool_decide (MAX_SYSTEMD_RUN_ARGS < length args))
            SpecError_BadSystemdRunArgs) (fun _ =>
  each (fun arg => check (is_empty arg || longer MAX_ARG_LEN arg || contains_nul arg)
                     SpecError_BadSystemdRunArgs) args).

Definition validate (self : ExecSpec) : result unit SpecError :=
  r_bind (validation (validate_argv (argv self))) (fun _ =>
  r_bind (validation (validate_cwd (cwd self))) (fun _ =>
  r_bind (validation (validate_env (env self))) (fun _ =>
  r_bind (check ((stdout_log_cap self =? 0)%N || (stderr_log_cap self =? 0)%N)
            SpecError_LogCapZero) (fun _ =>
  r_bind (validate_exec_user (exec_user self)) (fun _ =>
  r_bind (check (exec_uid self =? 0)%N SpecError_BadExecUid) (fun _ =>
  r_bind (validate_abs_path (systemd_run_path self)) (fun _ =>
  r_bind (validate_abs_path (login_shell_path self)) (fun _ =>
  r_bind (validate_workload_unit_name (workload_unit_name self)) (fun _ =>
  validate_systemd_run_args (systemd_run_args self)))))))))).

(** *** The codec *)

Definition put_env (entry : RunnerEnv) : list ascii := put_str (key entry) ++ put_str (value entry).

(** [as u32] of a length. *)
Definition put_len (n : nat) : list ascii := put_u32 (N.of_nat n mod 2 ^ 32).

Definition encode_fields (spec : ExecSpec) : list ascii :=
  put_u32 SPEC_MAGIC ++ put_u32 SPEC_VERSION
  ++ put_len (length (argv spec)) ++ concat (map put_str (argv spec))
  ++ put_opt put_str (cwd spec)
  ++ put_len (length (env spec)) ++ concat (map put_env (env spec))
  ++ put_u64 (stdout_log_cap spec) ++ put_u64 (stderr_log_cap spec)
  ++ put_u64 (max_runtime_sec spec) ++ put_str (exec_user spec) ++ put_u32 (exec_uid spec)
  ++ put_str (systemd_run_path spec) ++ put_str (login_shell_path spec)
  ++ put_str (workload_unit_name spec)
  ++ put_len (length (systemd_run_args spec)) ++ concat (map put_str (systemd_run_args spec)).

Definition encode_spec (spec : ExecSpec) : result (list ascii) SpecError :=
  r_bind (validate spec) (fun _ => Ok (encode_fields spec)).

Definition spec_reader (A : Type) : Type := handler (list ascii) SpecError A.

Definition read {A} (m : reader A) : spec_reader A := map_err SpecError_Decode m.

Definition get_env : spec_reader RunnerEnv :=
  let? key := read get_str in
  let? value := read get_str in
  h_ret (mkRunnerEnv key value).

Definition decode_spec_fields : spec_reader ExecSpec :=
  let? magic := read get_u32 in
  h_reject (negb (magic =? SPEC_MAGIC)%N) SpecError_BadMagic ?;
  let? version := read get_u32 in
  h_reject (negb (version =? SPEC_VERSION)%N) SpecError_BadVersion ?;
  let? argc := read get_u32 in
  h_reject (N.of_nat MAX_ARGV <? argc)%N (SpecError_Validation TooManyArgs) ?;
  let? argv := get_many (N.to_nat argc) (read get_str) in
  let? cwd := read (get_opt get_str) in
  let? env_count := read get_u32 in
  h_reject (N.of_nat MAX_ENV <? env_count)%N (SpecError_Validation TooManyEnv) ?;
  let? env := get_many (N.to_nat env_count) get_env in
  let? stdout_log_cap := read get_u64 in
  let? stderr_log_cap := read get_u64 in
  let? max_runtime_sec := read get_u64 in
  let? exec_user := read get_str in
  let? exec_uid := read get_u32 in
  let? systemd_run_path := read get_str in
  let? login_shell_path := read get_str in
  let? workload_unit_name := read get_str in
  let? systemd_argc := read get_u32 in
  h_reject (N.of_nat MAX_SYSTEMD_RUN_ARGS <? systemd_argc)%N SpecError_BadSystemdRunArgs ?;
  let? systemd_run_args := get_many (N.to_nat systemd_argc) (read get_str) in
  read finish ?;
  let spec := mkExecSpec argv cwd env stdout_log_cap stderr_log_cap max_runtime_sec exec_user
                exec_uid systemd_run_path login_shell_path workload_unit_name systemd_run_args in
  h_lift (validate spec) ?;
  h_ret spec.

Definition decode_spec (bytes : list ascii) : result ExecSpec SpecError :=
  (decode_spec_fields bytes).1.

(** *** The codec is exact *)

(** The fields have their Rust types. *)
Record spec_wf (s : ExecSpec) : Prop := mkSpecWf {
  swf_argv : Forall text (argv s);
  swf_cwd : forall c, cwd s = Some c -> text c;
  swf_env : Forall (fun e => text (key e) /\ text (value e)) (env s);
  swf_stdout : u64_fits (stdout_log_cap s);
  swf_stderr : u64_fits (stderr_log_cap s);
  swf_runtime : u64_fits (max_runtime_sec s);
  swf_user : text (exec_user s);
  swf_uid : u32_fits (exec_uid s);
  swf_run : text (systemd_run_path s);
  swf_shell : text (login_shell_path s);
  swf_unit : text (workload_unit_name s);
  swf_args : Forall text (systemd_run_args s)
}.

Lemma r_bind_Ok {A B E} (r : result A E) (k : A -> result B E) b :
  r_bind r k = Ok b -> exists a, r = Ok a /\ k a = Ok b.
Proof. destruct r; [eauto|done]. Qed.

Lemma check_Ok {E} b (e : E) u : check b e = Ok u -> b = false.
Proof. by destruct b. Qed.

Lemma each_Ok {A E} (f : A -> result unit E) l u :
  each f l = Ok u -> Forall (fun a => f a = Ok tt) l.
Proof.
  induction l as [|a l IH]; simpl; [constructor|]. intros ([] & Ha & Hl)%r_bind_Ok. auto.
Qed.

Lemma longer_fits max s : longer max s = false -> max <= N.to_nat 8192 -> text s -> field_fits s.
Proof.
  unfold longer, field_fits, MAX_FIELD_BYTES. intros H%bool_decide_eq_false Hmax Ht.
  split; [done|]. lia.
Qed.

Ltac checks H :=
  repeat match type of H with
  | r_bind _ _ = Ok _ =>
      let H1 := fresh "Hc" in apply r_bind_Ok in H as ([] & H1 & H)
  end.

Lemma validation_Ok {A} (r : result A ValidationError) a : validation r = Ok a -> r = Ok a.
Proof. by destruct r; intros [= ->]. Qed.

Lemma validate_argv_fits argv u :
  validate_argv argv = Ok u -> Forall text argv -> length argv <= MAX_ARGV /\ Forall field_fits argv.
Proof.
  unfold validate_argv. intros H Ht. checks H.
  apply check_Ok, bool_decide_eq_false in Hc0. split; [lia|]. apply each_Ok in Hc1.
  rewrite Forall_forall in *. intros a Ha. specialize (Hc1 a Ha). simpl in Hc1. checks Hc1.
  apply check_Ok in Hc3. apply (longer_fits MAX_ARG_LEN); [done|unfold MAX_ARG_LEN; lia|auto].
Qed.

Lemma validate_cwd_fits cwd u c :
  validate_cwd cwd = Ok u -> (forall c, cwd = Some c -> text c) -> cwd = Some c -> field_fits c.
Proof.
  intros H Ht ->. simpl in H. checks H. apply check_Ok in H.
  apply (longer_fits MAX_CWD_LEN); [done|unfold MAX_CWD_LEN; lia|auto].
Qed.

Lemma validate_env_fits env u :
  validate_env env = Ok u -> Forall (fun e => text (key e) /\ text (value e)) env ->
  length env <= MAX_ENV /\ Forall (fun e => field_fits (key e) /\ field_fits (value e)) env.
Proof.
  unfold validate_env. intros H Ht. checks H. apply check_Ok, bool_decide_eq_false in Hc.
  split; [lia|]. apply each_Ok in H. rewrite Forall_forall in *. intros a Ha.
  specialize (H a Ha). destruct (Ht a Ha) as [Hk Hv]. simpl in H. checks H.
  apply check_Ok in Hc1, Hc4. split.
  - apply (longer_fits MAX_ENV_KEY_LEN); [done|unfold MAX_ENV_KEY_LEN; lia|done].
  - apply (longer_fits MAX_ENV_VALUE_LEN); [done|unfold MAX_ENV_VALUE_LEN; lia|done].
Qed.

Lemma arg_fits {E} b c (e : E) s u :
  check (b || longer MAX_ARG_LEN s || c) e = Ok u -> text s -> field_fits s.
Proof.
  intros [[_ H]%orb_false_iff _]%check_Ok%orb_false_iff Ht.
  apply (longer_fits MAX_ARG_LEN); [done|unfold MAX_ARG_LEN; lia|done].
Qed.

Lemma validate_systemd_run_args_fits args u :
  validate_systemd_run_args args = Ok u -> Forall text args ->
  length args <= MAX_SYSTEMD_RUN_ARGS /\ Forall field_fits args.
Proof.
  unfold validate_systemd_run_args. intros H Ht. checks H.
  apply check_Ok, orb_false_iff in Hc as [_ Hc%bool_decide_eq_false].
  split; [lia|]. apply each_Ok in H. rewrite Forall_forall in *. intros a Ha.
  apply (arg_fits _ _ _ _ _ (H a Ha)). auto.
Qed.

(** What a valid spec says of its encoding: every count and text fits. *)
Record encodable (s : ExecSpec) : Prop := mkEncodable {
  en_argc : length (argv s) <= MAX_ARGV;
  en_argv : Forall field_fits (argv s);
  en_cwd : forall c, cwd s = Some c -> field_fits c;
  en_envc : length (env s) <= MAX_ENV;
  en_env : Forall (fun e => field_fits (key e) /\ field_fits (value e)) (env s);
  en_user : field_fits (exec_user s);
  en_run : field_fits (systemd_run_path s);
  en_shell : field_fits (login_shell_path s);
  en_unit : field_fits (workload_unit_name s);
  en_argsc : length (systemd_run_args s) <= MAX_SYSTEMD_RUN_ARGS;
  en_args : Forall field_fits (systemd_run_args s)
}.

Lemma validate_encodable s u : spec_wf s -> validate s = Ok u -> encodable s.
Proof.
  intros [] H. unfold validate in H. checks H. apply validation_Ok in Hc, Hc0, Hc1.
  apply validate_argv_fits in Hc as []; [|done].
  apply validate_env_fits in Hc1 as []; [|done].
  apply validate_systemd_run_args_fits in H as []; [|done].
  unfold validate_exec_user, validate_abs_path, validate_workload_unit_name in *.
  rewrite <- !orb_assoc in *. split; try done.
  - intros c. by apply (validate_cwd_fits _ _ _ Hc0).
  - eapply arg_fits; [|done]. rewrite <- orb_assoc. exact Hc3.
  - eapply arg_fits; [|done]. rewrite <- orb_assoc. exact Hc5.
  - eapply arg_fits; [|done]. rewrite <- orb_assoc. exact Hc6.
  - eapply arg_fits; [|done]. rewrite <- orb_assoc. exact Hc7.
Qed.

#[export] Instance env_codec :
  Codec put_env get_env (fun e => field_fits (key e) /\ field_fits (value e)).
Proof.
  split.
  - intros [k v] rest [Hk Hv]. unfold get_env, put_env. rewrite <- app_assoc. cbn [key value] in *.
    erewrite h_bind_ok by (by apply codec_get). by erewrite h_bind_ok by (by apply codec_get).
  - intros data e rest. unfold get_env. intros (k & s1 & [-> Hk]%codec_ok & H)%bind_ok.
    apply bind_ok in H as (v & s2 & [-> Hv]%codec_ok & [= <- <-]).
    unfold put_env. by rewrite <- app_assoc.
Qed.

#[export] Instance read_codec {A} (put : A -> list ascii) (get : reader A) ok `{!Codec put get ok} :
  Codec put (read get) ok.
Proof. unfold read. apply _. Qed.

Lemma put_len_u32 n : n <= MAX_SYSTEMD_RUN_ARGS -> put_len n = put_u32 (N.of_nat n).
Proof.
  intros Hn. unfold put_len. rewrite N.mod_small; [done|].
  assert (N.of_nat n <= N.of_nat MAX_SYSTEMD_RUN_ARGS)%N as Hle by lia.
  eapply N.le_lt_trans; [exact Hle|]. by vm_compute.
Qed.

Lemma len_fits n : n <= MAX_SYSTEMD_RUN_ARGS -> u32_fits (N.of_nat n).
Proof.
  intros Hn. assert (N.of_nat n <= N.of_nat MAX_SYSTEMD_RUN_ARGS)%N as Hle by lia.
  unfold u32_fits. etransitivity; [exact Hle|]. by vm_compute.
Qed.

(** Reads a count and then as many elements. *)
Lemma get_counted {A B} (put : A -> list ascii) (get : spec_reader A) ok `{!Codec put get ok}
    max e l rest (k : list A -> spec_reader B) :
  length l <= max -> max <= MAX_SYSTEMD_RUN_ARGS -> Forall ok l ->
  (let? n := read get_u32 in
   h_reject (N.of_nat max <? n)%N e ?;
   let? l := get_many (N.to_nat n) get in
   k l) (put_len (length l) ++ concat (map put l) ++ rest)
  = k l rest.
Proof.
  intros Hl Hmax Hok. rewrite put_len_u32 by lia.
  erewrite h_bind_ok by (apply codec_get, len_fits; lia).
  rewrite h_reject_false by (apply N.ltb_ge; lia). rewrite Nat2N.id.
  erewrite h_bind_ok; [done|]. apply (codec_get (Codec := many_codec put get ok (length l))). done.
Qed.

Lemma get_counted_ok {A B} (put : A -> list ascii) (get : spec_reader A) ok `{!Codec put get ok}
    max e data rest (k : list A -> spec_reader B) b :
  max <= MAX_SYSTEMD_RUN_ARGS ->
  (let? n := read get_u32 in
   h_reject (N.of_nat max <? n)%N e ?;
   let? l := get_many (N.to_nat n) get in
   k l) data = (Ok b, rest) ->
  exists l data', data = put_len (length l) ++ concat (map put l) ++ data'
    /\ Forall ok l /\ k l data' = (Ok b, rest).
Proof.
  intros Hmax (n & s1 & [-> Hn]%codec_ok & H)%bind_ok.
  apply bind_ok in H as (? & ? & (Hm & ->)%reject_ok & H).
  apply bind_ok in H as (l & s2 & [-> [Hl Hok]]%codec_ok & H).
  apply N.ltb_ge in Hm. exists l, s2. split; [|done].
  rewrite put_len_u32 by lia. by rewrite Hl, N2Nat.id.
Qed.

Lemma max_argv_le : MAX_ARGV <= MAX_SYSTEMD_RUN_ARGS.
Proof. apply (bool_decide_unpack _). by vm_compute. Qed.

Lemma max_env_le : MAX_ENV <= MAX_SYSTEMD_RUN_ARGS.
Proof. apply (bool_decide_unpack _). by vm_compute. Qed.

Lemma decode_encode_spec s :
  spec_wf s -> validate s = Ok tt -> decode_spec (encode_fields s) = Ok s.
Proof.
  intros Hwf Hv. destruct (validate_encodable s tt Hwf Hv). destruct Hwf.
  unfold decode_spec, encode_fields, decode_spec_fields.
  rewrite <- (app_nil_r (concat (map put_str (systemd_run_args s)))).
  erewrite h_bind_ok by (by apply codec_get). rewrite h_reject_false by done.
  erewrite h_bind_ok by (by apply codec_get). rewrite h_reject_false by done.
  rewrite (get_counted put_str (read get_str) field_fits) by (done || apply max_argv_le).
  erewrite h_bind_ok by (by apply codec_get).
  rewrite (get_counted put_env get_env _) by (done || apply max_env_le).
  do 8 erewrite h_bind_ok by (by apply codec_get).
  rewrite (get_counted put_str (read get_str) field_fits) by done.
  erewrite h_bind_ok by done. cbv zeta. destruct s.
  erewrite h_bind_ok; [done|]. unfold h_lift. by rewrite <- Hv.
Qed.

Lemma decode_spec_ok bytes s :
  decode_spec bytes = Ok s -> encode_spec s = Ok bytes /\ spec_wf s.
Proof.
  unfold decode_spec. destruct (decode_spec_fields bytes) as [res rest] eqn:Hd.
  intros Hr. simpl in Hr. subst res. unfold decode_spec_fields in Hd.
  apply bind_ok in Hd as (m & s1 & [-> _]%codec_ok & Hd).
  apply bind_ok in Hd as (? & ? & (Hm & ->)%reject_ok & Hd).
  apply bind_ok in Hd as (v & s2 & [-> _]%codec_ok & Hd).
  apply bind_ok in Hd as (? & ? & (Hv & ->)%reject_ok & Hd).
  apply negb_false_iff, N.eqb_eq in Hm, Hv. subst m v.
  apply (get_counted_ok put_str _ field_fits) in Hd as (argv & s3 & -> & Ha & Hd);
    [|apply max_argv_le].
  apply bind_ok in Hd as (cwd & s4 & [-> Hcwd]%codec_ok & Hd).
  apply (get_counted_ok put_env _ _) in Hd as (env & s5 & -> & He & Hd); [|apply max_env_le].
  do 8 (let Hg := fresh "Hf" in apply bind_ok in Hd as (? & ? & [-> Hg]%codec_ok & Hd)).
  apply (get_counted_ok put_str _ field_fits) in Hd as (args & s6 & -> & Hargs & Hd); [|done].
  apply bind_ok in Hd as (u & s7 & Hfin & Hd). unfold read, map_err in Hfin.
  destruct (finish s6) as [[]] eqn:Hf7; [|done]. injection Hfin as -> ->.
  apply finish_ok in Hf7 as [-> ->]. cbv zeta in Hd.
  apply bind_ok in Hd as ([] & s8 & Hval & [= <- <-]). injection Hval as Hval _.
  assert (Hall : forall l, Forall field_fits l -> Forall text l)
    by (intros l Hl; eapply Forall_impl; [exact Hl|by intros ? []]).
  split.
  - unfold encode_spec. rewrite Hval. simpl. unfold encode_fields. cbn [ExecSpec.argv
      ExecSpec.cwd ExecSpec.env stdout_log_cap stderr_log_cap max_runtime_sec exec_user exec_uid
      systemd_run_path login_shell_path workload_unit_name systemd_run_args].
    by rewrite app_nil_r.
  - split; cbn; try done; try (by apply Hall);
      try (match goal with H : field_fits ?x |- text ?x => exact (proj1 H) end).
    + intros c Hc. by destruct (Hcwd c Hc).
    + eapply Forall_impl; [exact He|]. by intros ? [[] []].
Qed.

End ExecSpec.

(** C25. The files of a slot decode exactly: a byte string is a record, a
    status or a spec if and only if it is the encoding of one, so what the
    guest daemon and the runner read is what the other wrote, no two byte
    strings mean the same, and a spec is never written or read that does not
    validate. *)
Theorem slot_files_exact b :
  (forall r, ExecRecord.decode_record b = Ok r
     <-> ExecRecord.record_wf r /\ ExecRecord.encode_record r = b)
  /\ (forall p, ExecRecord.decode_status b = Ok p
     <-> ExecRecord.phase_fits p /\ ExecRecord.encode_status p = b)
  /\ (forall s, ExecSpec.decode_spec b = Ok s
     <-> ExecSpec.spec_wf s /\ ExecSpec.encode_spec s = Ok b).
Proof.
  split; [|split]; intros x; split.
  - by intros [-> H]%ExecRecord.decode_record_ok.
  - intros [H <-]. by apply ExecRecord.decode_encode_record.
  - by intros [-> H]%ExecRecord.decode_status_ok.
  - intros [H <-]. by apply ExecRecord.decode_encode_status.
  - by intros [H1 H2]%ExecSpec.decode_spec_ok.
  - intros [Hwf He]. unfold ExecSpec.encode_spec in He.
    apply ExecSpec.r_bind_Ok in He as ([] & Hv & [= <-]). by apply ExecSpec.decode_encode_spec.
Qed.
