(* ===== verification/DetachedUnits.v ===== *)
(** * The units of detached commands

    A detached command runs in two systemd units of its slot: the runner, and
    the workload the runner starts.  [Module Units] names them, builds the
    [systemd-run] arguments and reads [systemctl]'s answers back ([d2b-guestd]
    [detached.rs]); [Module Command] checks a request and turns it into the
    spec the runner gets ([service.rs], [detached_registry.rs]); [Module
    Identity] decides whether the units found in a slot are those of its
    command, and [Module Reports] shows that the units of an accepted command
    are.  [systemctl] and systemd are not modelled: their outputs are
    arguments, and what the theorems assume of them is the format the comments
    of [detached.rs] describe. *)

From S2P Require Import Prelude Ids Streams Frame FileRing Text ExecFiles.
Import ExecSpec.

Local Open Scope rust_scope.

Abbreviation bytes := (list Ascii.ascii) (only parsing).

(** ** Errors of the guest's exec service *)

Inductive ExecError : Set :=
| ExecDisabled | RootDenied | UserDenied | UnsupportedMode | InvalidArgv | InvalidProgram
| CwdInvalid | InvalidEnv | MaxChunkExceeded | ExecCapacityExceeded | AttachCapacityExceeded
| WaitCapacityExceeded | ReadWaitCapacityExceeded | ExecNotFound | OffsetExpired
| OffsetInFuture | ExecError_SpawnFailed | RetainedLogPathUnsafe | RetainedLogQuotaExceeded
| StaleSession | ExecExpired | InvalidTerminalSize | TtyStderrUnavailable | TtyRequired
| StdinClosed | StdinOffsetMismatch | StdinByteBudgetExhausted | StdinBackpressure
| ControlSeqMismatch | InvalidSignal | ExecClosing | Internal.

#[export] Instance ExecError_eq_dec : EqDecision ExecError.
Proof. solve_decision. Defined.

(** ** Units ([detached.rs]) *)

Module Units.

Inductive UnitError : Set :=
  UnitError_SpawnFailed | NonZeroExit | UnitError_Timeout | Unsupported | UnitError_Internal.

Inductive ManagedUnitKind : Set := Runner | Workload.

#[export] Instance ManagedUnitKind_eq_dec : EqDecision ManagedUnitKind.
Proof. solve_decision. Defined.

Inductive UnitIdentity : Set :=
| Queried (slice exec_start binds_to part_of after : option bytes)
| Unqueried.

Record ManagedUnit := mkManagedUnit {
  mu_slot : N;
  kind : ManagedUnitKind;
  active : bool;
  identity : UnitIdentity
}.

(** [{slot:02}] *)
Definition pad2 (n : N) : string := if (n <? 10)%N then "0" +:+ pretty n else pretty n.

Definition unit_name (slot : N) : string := "d2b-exec-" +:+ pad2 slot +:+ ".service".
Definition workload_unit_name (slot : N) : string := "d2b-exec-" +:+ pad2 slot +:+ "-w.service".

Definition ManagedUnit_name (self : ManagedUnit) : string :=
  match kind self with
  | Runner => unit_name (mu_slot self)
  | Workload => workload_unit_name (mu_slot self)
  end.

Definition parse_u32 (digits : bytes) : option N := parse_radix 10 u32_max (of_chars digits).

Definition parse_slot_from_unit (unit : bytes) : option (N * ManagedUnitKind) :=
  rest ← strip_prefix_chars (chars "d2b-exec-") unit;
  match strip_suffix_chars (chars "-w.service") rest with
  | Some digits => (fun slot => (slot, Workload)) <$> parse_u32 digits
  | None =>
      digits ← strip_suffix_chars (chars ".service") rest;
      (fun slot => (slot, Runner)) <$> parse_u32 digits
  end.

Definition is_service (word : bytes) : bool :=
  bool_decide (is_Some (strip_suffix_chars (chars ".service") word)).

(** One line of [systemctl list-units]; a leading status glyph is skipped. *)
Definition parse_unit_line (line : bytes) : option ManagedUnit :=
  '(unit, cols) ←
    match words line with
    | [] => None
    | unit :: cols =>
        if is_service unit then Some (unit, cols)
        else match cols with
             | next :: cols => if is_service next then Some (next, cols) else None
             | [] => None
             end
    end;
  '(slot, kind) ← parse_slot_from_unit unit;
  let active_state := default [] (cols !! 1) in
  Some (mkManagedUnit slot kind
          (bool_decide (active_state = chars "active")
           || bool_decide (active_state = chars "activating")) Unqueried).

Definition parse_managed_units (text : bytes) : list ManagedUnit :=
  omap parse_unit_line (lines text).

Record ShowEntry := mkShowEntry {
  se_id : bytes;
  se_slice : option bytes;
  se_exec_start : option bytes;
  se_binds_to : option bytes;
  se_part_of : option bytes;
  se_after : option bytes;
  malformed : bool
}.

Definition empty_entry : ShowEntry := mkShowEntry [] None None None None None false.

(** A value that is empty leaves the property as it is. *)
Definition some_unless_empty (v : bytes) (old : option bytes) : option bytes :=
  if bool_decide (v = []) then old else Some v.

Definition show_line (e : ShowEntry) (line : bytes) : ShowEntry :=
  let '(mkShowEntry id slice exec_start binds_to part_of after bad) := e in
  match strip_prefix_chars (chars "Id=") line with
  | Some v => mkShowEntry (trim_chars v) slice exec_start binds_to part_of after bad
  | None =>
  match strip_prefix_chars (chars "Slice=") line with
  | Some v =>
      mkShowEntry id (some_unless_empty (trim_chars v) slice) exec_start binds_to part_of after bad
  | None =>
  match strip_prefix_chars (chars "ExecStart=") line with
  | Some v =>
      mkShowEntry id slice
        (match exec_start with
         | Some _ => exec_start
         | None => some_unless_empty (trim_chars v) None
         end) binds_to part_of after bad
  | None =>
  match strip_prefix_chars (chars "BindsTo=") line with
  | Some v =>
      mkShowEntry id slice exec_start (some_unless_empty (trim_chars v) binds_to) part_of after bad
  | None =>
  match strip_prefix_chars (chars "PartOf=") line with
  | Some v =>
      mkShowEntry id slice exec_start binds_to (some_unless_empty (trim_chars v) part_of) after bad
  | None =>
  match strip_prefix_chars (chars "After=") line with
  | Some v =>
      mkShowEntry id slice exec_start binds_to part_of (some_unless_empty (trim_chars v) after) bad
  | None =>
      mkShowEntry id slice exec_start binds_to part_of after
        (bad || negb (bool_decide (trim_chars line = [])))
  end end end end end end.

Definition show_block (block : bytes) : ShowEntry := fold_left show_line (lines block) empty_entry.

Definition parse_show_blocks (text : bytes) : list ShowEntry :=
  List.filter (fun e => negb (bool_decide (se_id e = [])))
    (map show_block (split [line_feed; line_feed] text)).

(** What [systemctl show] says of a unit. *)
Definition with_identity (blocks : list ShowEntry) (u : ManagedUnit) : ManagedUnit :=
  match List.find (fun b => bool_decide (se_id b = chars (ManagedUnit_name u))) blocks with
  | Some b =>
      if malformed b then u
      else mkManagedUnit (mu_slot u) (kind u) (active u)
             (Queried (se_slice b) (se_exec_start b) (se_binds_to b) (se_part_of b) (se_after b))
  | None => u
  end.

(** [list_managed_units], given the answers of [systemctl list-units] and
    [systemctl show]; [None] is a [show] that failed. *)
Definition list_managed_units (listed : result bytes UnitError) (shown : option bytes) :
    result (list ManagedUnit) UnitError :=
  r_bind listed (fun text =>
  let units := parse_managed_units text in
  if bool_decide (length units = 0) then Ok units
  else
    match shown with
    | Some text => Ok (map (with_identity (parse_show_blocks text)) units)
    | None => Ok units
    end).

Definition TIMEOUT_STOP_SEC : N := 10.
Definition RUNTIME_MAX_MARGIN_SEC : N := 5.

(** The arguments of [systemd-run] for a slot's runner. *)
Definition systemd_run_argv (slot ceiling_sec : N) (exec_runner_path : string) : list string :=
  ["--unit=d2b-exec-" +:+ pad2 slot; "--slice=d2b-exec.slice"; "-p"; "User=root";
   "-p"; "StandardInput=null"; "-p"; "StandardOutput=null"; "-p"; "StandardError=null";
   "-p"; "KillMode=mixed"; "-p"; "TimeoutStopSec=" +:+ pretty TIMEOUT_STOP_SEC;
   "-p"; "Type=exec"]%string
  ++ (if (0 <? ceiling_sec)%N then
        ["-p"; "RuntimeMaxSec=" +:+ pretty (u64_saturating_add
           (u64_saturating_add ceiling_sec TIMEOUT_STOP_SEC) RUNTIME_MAX_MARGIN_SEC)]%string
      else [])
  ++ [exec_runner_path; "--serve-exec"; "--slot"; pad2 slot]%string.

(** *** Reading [ExecStart] back *)

Record ParsedExecStart := mkParsedExecStart { exe : bytes; pes_argv : list bytes }.

(** The tokenizer; [tokens] are those completed so far. *)
Fixpoint parse_exec_argv (tokens : list bytes) (current : bytes) (quote : option Ascii.ascii)
    (escaped in_token : bool) (value : bytes) : option (list bytes) :=
  match value with
  | [] =>
      if escaped || bool_decide (is_Some quote) then None
      else Some (if in_token then tokens ++ [current] else tokens)
  | ch :: value =>
      if escaped then parse_exec_argv tokens (current ++ [ch]) quote false true value
      else if char_eqb ch "\"%char then parse_exec_argv tokens current quote true true value
      else
        match quote with
        | Some q =>
            if char_eqb ch q then parse_exec_argv tokens current None false true value
            else parse_exec_argv tokens (current ++ [ch]) quote false true value
        | None =>
            if char_eqb ch "'"%char || char_eqb ch "034"%char
            then parse_exec_argv tokens current (Some ch) false true value
            else if is_whitespace ch
            then if in_token then parse_exec_argv (tokens ++ [current]) [] None false false value
                 else parse_exec_argv tokens current None false false value
            else parse_exec_argv tokens (current ++ [ch]) None false true value
        end
  end.

Definition exec_argv (value : bytes) : option (list bytes) :=
  parse_exec_argv [] [] None false false value.

(** The loop over the fields: the first [path=] and the first [argv[]=]
    count, and an argument list that does not parse ends it. *)
Fixpoint exec_start_fields (exe : option bytes) (argv : option (list bytes))
    (fields : list bytes) : option (option bytes * option (list bytes)) :=
  match fields with
  | [] => Some (exe, argv)
  | field :: fields =>
      let field := trim_chars field in
      match strip_prefix_chars (chars "path=") field with
      | Some v =>
          exec_start_fields
            (match exe with Some _ => exe | None => Some (trim_chars v) end) argv fields
      | None =>
          match strip_prefix_chars (chars "argv[]=") field, argv with
          | Some v, None =>
              argv ← exec_argv (trim_chars v);
              exec_start_fields exe (Some argv) fields
          | _, _ => exec_start_fields exe argv fields
          end
      end
  end.

Definition parse_exec_start (value : bytes) : option ParsedExecStart :=
  inner ← strip_prefix_chars (chars "{") (trim_chars value);
  let inner := default inner (strip_suffix_chars (chars "}") inner) in
  '(exe, argv) ← exec_start_fields None None (split (chars ";") inner);
  exe ← exe;
  if bool_decide (exe = []) then None else Some (mkParsedExecStart exe (default [] argv)).

Definition exec_start_raw_fields (value : bytes) : option (bytes * bytes) :=
  inner ← strip_prefix_chars (chars "{") (trim_chars value);
  inner ← strip_suffix_chars (chars "}") inner;
  '(_, after) ← split_once_chars (chars "path=") inner;
  '(path, _) ← split_once_chars (chars " ; ") after;
  '(_, after) ← split_once_chars (chars "argv[]=") inner;
  '(argv, _) ← rsplit_once_chars (chars " ; ignore_errors=") after;
  Some (path, argv).

End Units.

(** ** Requests and specs *)

Module Command.
Import Units.

Definition MAX_ARG_BYTES : nat := N.to_nat 4096.
Definition MAX_CWD_BYTES : nat := N.to_nat 4096.
Definition MAX_ENV_KEY_BYTES : nat := 128.
Definition MAX_ENV_VALUE_BYTES : nat := N.to_nat 8192.
Definition MAX_ENV_ENTRIES : nat := 256.
Definition HARD_MAX_CHUNK_BYTES : N := 1024 * 1024.

Record ExecPolicy := mkExecPolicy { enabled : bool; policy_exec_user : option string }.

(** The fields of [ExecCreateInput] a detached create reads. *)
Record ExecCreateInput := mkExecCreateInput {
  in_argv : list string;
  in_cwd : option string;
  in_env : list (string * string);
  tty : bool;
  stdin_open : bool;
  has_terminal_size : bool;
  max_chunk_bytes : N
}.

Record ValidatedCommand := mkValidatedCommand {
  program : string;
  args : list string;
  cmd_cwd : string;
  cmd_env : list (string * string)
}.

Definition valid_detached_env_key (key : string) : bool :=
  negb (is_empty key || longer MAX_ENV_KEY_BYTES key)
  && match chars key with
     | first :: _ =>
         is_ascii_lowercase first || is_ascii_uppercase first || char_eqb first "_"%char
     | [] => false
     end
  && forallb (fun c => is_ascii_alphanumeric c || char_eqb c "_"%char) (chars key).

Definition arg_ok (arg : string) : bool :=
  negb (longer MAX_ARG_BYTES arg)
  && negb (existsb (fun b => char_eqb b "000"%char || char_eqb b line_feed
                             || char_eqb b carriage_return) (chars arg)).

Definition cwd_ok (cwd : string) : bool :=
  negb (is_empty cwd || longer MAX_CWD_BYTES cwd || negb (starts "/" cwd) || contains_nul cwd).

(** The loop over the environment; [seen] are the keys so far. *)
Fixpoint env_ok (seen : gset string) (env : list (string * string)) : bool :=
  match env with
  | [] => true
  | (key, value) :: env =>
      valid_detached_env_key key && negb (longer MAX_ENV_VALUE_BYTES value)
      && negb (contains_nul value) && negb (bool_decide (key ∈ seen)) && env_ok ({[key]} ∪ seen) env
  end.

Definition validate_detached_command (input : ExecCreateInput) (policy : ExecPolicy) :
    result ValidatedCommand ExecError :=
  r_bind (check (negb (enabled policy)) ExecDisabled) (fun _ =>
  r_bind (check (tty input || stdin_open input || has_terminal_size input) UnsupportedMode)
    (fun _ =>
  r_bind (check (negb (bool_decide (is_Some (policy_exec_user policy)))) ExecDisabled) (fun _ =>
  r_bind (check ((max_chunk_bytes input =? 0)%N || (HARD_MAX_CHUNK_BYTES <? max_chunk_bytes input)%N)
            MaxChunkExceeded) (fun _ =>
  r_bind (check (bool_decide (in_argv input = []) || bool_decide (MAX_ARGV < length (in_argv input)))
            InvalidArgv) (fun _ =>
  r_bind (check (negb (forallb arg_ok (in_argv input))) InvalidArgv) (fun _ =>
  let program := hd ""%string (in_argv input) in
  r_bind (check (is_empty program || starts "-" program) InvalidProgram) (fun _ =>
  r_bind (check (existsb is_empty (tl (in_argv input))) InvalidArgv) (fun _ =>
  r_bind (match in_cwd input with
          | Some cwd => if cwd_ok cwd then Ok cwd else Err CwdInvalid
          | None => Ok "/"%string
          end) (fun cwd =>
  r_bind (check (bool_decide (MAX_ENV_ENTRIES < length (in_env input))) InvalidEnv) (fun _ =>
  r_bind (check (negb (env_ok ∅ (in_env input))) InvalidEnv) (fun _ =>
  Ok (mkValidatedCommand program (tl (in_argv input)) cwd (in_env input))))))))))))).

Record DetachedCaps := mkDetachedCaps {
  caps_stdout : N;
  caps_stderr : N;
  caps_runtime : N
}.

Record RegistryConfig := mkRegistryConfig {
  exec_runner_path : string;
  cfg_boot_id : string;
  cfg_max_runtime_sec : N;
  cfg_exec_user : string;
  cfg_exec_uid : N;
  cfg_systemd_run_path : string;
  cfg_login_shell_path : string
}.

(** The script the login shell runs: [exec] of its arguments, which are
    between double quotes. *)
Definition double_quote : string := String "034"%char "".
Definition exec_words : string := "exec " +:+ double_quote +:+ "$@" +:+ double_quote.

(** The words after [--]: what the workload unit runs. *)
Definition workload_command (shell program : string) (args : list string) : list string :=
  [shell; "-l"; "-c"; exec_words; "d2b-exec"; program]%string ++ args.

Definition workload_systemd_run_args (command : ValidatedCommand) (config : RegistryConfig)
    (slot : N) (workload_unit : string) : list string :=
  let runner_unit := unit_name slot in
  ["--uid=" +:+ cfg_exec_user config; "--unit=" +:+ workload_unit; "--quiet"; "--collect";
   "--expand-environment=no"; "--slice=d2b-exec.slice"; "--pipe"; "--wait";
   "--property=PAMName=login"; "--property=BindsTo=" +:+ runner_unit;
   "--property=PartOf=" +:+ runner_unit; "--property=After=" +:+ runner_unit;
   "--working-directory=" +:+ cmd_cwd command]%string
  ++ concat (map (fun '(key, value) => ["--setenv"; key +:+ "=" +:+ value]%string)
       (cmd_env command))
  ++ ["--"%string]
  ++ workload_command (cfg_login_shell_path config) (program command) (args command).

(** Paths are text here, so the conversions that can fail in the source do
    not. *)
Definition build_spec (command : ValidatedCommand) (caps : DetachedCaps) (config : RegistryConfig)
    (slot : N) : ExecSpec :=
  let workload_unit := Units.workload_unit_name slot in
  mkExecSpec (program command :: args command) (Some (cmd_cwd command))
    (map (fun '(key, value) => mkRunnerEnv key value) (cmd_env command))
    (caps_stdout caps) (caps_stderr caps) (caps_runtime caps) (cfg_exec_user config)
    (cfg_exec_uid config) (cfg_systemd_run_path config) (cfg_login_shell_path config)
    workload_unit (workload_systemd_run_args command config slot workload_unit).

(** The opaque id is 32 lowercase hexadecimal digits. *)
Definition is_valid_exec_id (exec_id : string) : bool :=
  bool_decide (String.length exec_id = 32)
  && forallb (fun b => is_ascii_digit b || char_in "a"%char "f"%char b) (chars exec_id).

(** The text [argv_hash] hashes. *)
Definition argv_text (command : ValidatedCommand) : bytes :=
  chars (program command) ++ concat (map (fun arg => "000"%char :: chars arg) (args command)).

End Command.

(** ** Whose units are these? *)

Module Identity.
Import Units Command.

Inductive SlotLiveness : Set := Live | OrphanWorkload | Foreign | Absent | Unknown.
Inductive UnitClass : Set := Class_Live | Class_Foreign | Class_Unknown.

#[export] Instance SlotLiveness_eq_dec : EqDecision SlotLiveness.
Proof. solve_decision. Defined.
#[export] Instance UnitClass_eq_dec : EqDecision UnitClass.
Proof. solve_decision. Defined.

(** [argv.windows(2).any(...)] *)
Fixpoint followed_by (a b : bytes) (l : list bytes) : bool :=
  match l with
  | x :: (y :: _) as r => (bool_decide (x = a) && bool_decide (y = b)) || followed_by a b r
  | _ => false
  end.

Definition exec_slice : option bytes := Some (chars "d2b-exec.slice").

Definition identity_matches (runner_path : string) (slice exec_start : option bytes) (slot : N) :
    bool :=
  if bool_decide (slice <> exec_slice) then false
  else
    match exec_start ≫= parse_exec_start with
    | None => false
    | Some parsed =>
        bool_decide (exe parsed = chars runner_path)
        && existsb (fun t => bool_decide (t = chars "--serve-exec")) (pes_argv parsed)
        && followed_by (chars "--slot") (chars (pad2 slot)) (pes_argv parsed)
    end.

Definition property_contains_unit (value : option bytes) (unit : string) : bool :=
  match value with
  | Some v => existsb (fun token => bool_decide (token = chars unit)) (words v)
  | None => false
  end.

Definition workload_identity_matches (slice exec_start binds_to part_of after : option bytes)
    (slot : N) (spec : ExecSpec) : bool :=
  if bool_decide (slice <> exec_slice) then false
  else
    let runner := unit_name slot in
    if negb (property_contains_unit binds_to runner) || negb (property_contains_unit part_of runner)
       || negb (property_contains_unit after runner) then false
    else
      match exec_start ≫= exec_start_raw_fields with
      | None => false
      | Some (raw_path, raw_argv) =>
          bool_decide (raw_path = chars (login_shell_path spec))
          && bool_decide (raw_argv = join (chars " ")
               (map (fun a => chars a)
                 ([login_shell_path spec; "-l"; "-c"; exec_words;
                   "d2b-exec"]%string ++ argv spec)))
      end.

Definition classify_runner_unit (config : RegistryConfig) (unit : ManagedUnit) (slot : N) :
    UnitClass :=
  if negb (active unit) then Class_Foreign
  else
    match identity unit with
    | Unqueried => Class_Unknown
    | Queried slice exec_start _ _ _ =>
        if identity_matches (exec_runner_path config) slice exec_start slot
        then Class_Live else Class_Foreign
    end.

(** [spec] is what [read_spec] answers. *)
Definition classify_workload_unit (spec : result ExecSpec ExecError) (unit : ManagedUnit)
    (slot : N) : UnitClass :=
  if negb (active unit) then Class_Foreign
  else
    match identity unit with
    | Unqueried => Class_Unknown
    | Queried slice exec_start binds_to part_of after =>
        match spec with
        | Err _ => Class_Foreign
        | Ok spec =>
            if workload_identity_matches slice exec_start binds_to part_of after slot spec
            then Class_Live else Class_Foreign
        end
    end.

Definition unit_of (k : ManagedUnitKind) (slot : N) (u : ManagedUnit) : bool :=
  (mu_slot u =? slot)%N && bool_decide (kind u = k).

Definition classify_unit (config : RegistryConfig) (spec : result ExecSpec ExecError)
    (units : list ManagedUnit) (slot : N) : SlotLiveness :=
  let runner_state :=
    (fun u => classify_runner_unit config u slot) <$> List.find (unit_of Runner slot) units in
  let workload_state :=
    (fun u => classify_workload_unit spec u slot) <$> List.find (unit_of Workload slot) units in
  if bool_decide (runner_state = Some Class_Foreign)
     || bool_decide (workload_state = Some Class_Foreign) then Foreign
  else if bool_decide (runner_state = Some Class_Unknown)
     || bool_decide (workload_state = Some Class_Unknown) then Unknown
  else
    match runner_state, workload_state with
    | Some Class_Live, Some Class_Live => Live
    | Some Class_Live, None => Unknown
    | None, Some Class_Live => OrphanWorkload
    | None, None => Absent
    | _, _ => Foreign
    end.

End Identity.

(** ** What systemd reports *)

Module Reports.
Import Units Command Identity.

(** [ExecStart] as [systemctl show] prints it: the arguments joined by
    spaces, with nothing escaped. *)
Definition rendered_exec_start (path : bytes) (argv : list bytes) (tail : bytes) : bytes :=
  chars "{ path=" ++ path ++ chars " ; argv[]=" ++ join [" "%char] argv
  ++ chars " ; ignore_errors=" ++ tail ++ chars "}".

(** The fields systemd prints after [ignore_errors=]. *)
Definition tail_ok (tail : bytes) : Prop := Ids.contains (chars " ; ignore_errors=") tail = false.

Lemma braces_trimmed l : trimmed ("{"%char :: l ++ ["}"%char]).
Proof.
  split; [by intros c [= <-]|]. intros c. rewrite app_comm_cons, last_snoc. by intros [= <-].
Qed.

Lemma raw_fields_exact path argv tail :
  " "%char ∉ path -> "["%char ∉ path -> tail_ok tail ->
  exec_start_raw_fields (rendered_exec_start path argv tail)
  = Some (path, join [" "%char] argv).
Proof.
  intros Hsp Hbr Htail. set (text := join [" "%char] argv).
  set (inner := chars " path=" ++ path ++ chars " ; argv[]=" ++ text
                ++ chars " ; ignore_errors=" ++ tail).
  assert (Hr : rendered_exec_start path argv tail = "{"%char :: inner ++ ["}"%char]).
  { unfold rendered_exec_start, inner. rewrite <- !app_assoc. done. }
  unfold exec_start_raw_fields. rewrite Hr, trim_chars_id by apply braces_trimmed.
  change ("{"%char :: inner ++ ["}"%char]) with (chars "{" ++ inner ++ chars "}").
  rewrite strip_prefix_chars_app. cbn [mbind option_bind].
  rewrite strip_suffix_chars_app. cbn [mbind option_bind].
  assert (H1 : split_once_chars (chars "path=") inner
    = Some ([" "%char], path ++ chars " ; argv[]=" ++ text ++ chars " ; ignore_errors=" ++ tail))
    by done.
  assert (H2 : split_once_chars (chars " ; ")
      (path ++ chars " ; argv[]=" ++ text ++ chars " ; ignore_errors=" ++ tail)
    = Some (path, chars "argv[]=" ++ text ++ chars " ; ignore_errors=" ++ tail))
    by (apply (split_once_chars_app [] " "%char (chars "; ")); set_solver).
  assert (H3 : split_once_chars (chars "argv[]=") inner
    = Some (chars " path=" ++ path ++ chars " ; ", text ++ chars " ; ignore_errors=" ++ tail)).
  { replace inner with ((chars " path=" ++ path ++ chars " ; ")
      ++ (chars "argv" ++ "["%char :: chars "]=") ++ (text ++ chars " ; ignore_errors=" ++ tail))
      by (unfold inner; rewrite <- !app_assoc; done).
    apply (split_once_chars_app (chars "argv") "["%char (chars "]=")); [rewrite !elem_of_app; intros [H|[H|H]]; [|done|]|intros H];
      revert H; apply (bool_decide_unpack _); by vm_compute. }
  assert (H4 : rsplit_once_chars (chars " ; ignore_errors=")
      (text ++ chars " ; ignore_errors=" ++ tail) = Some (text, tail))
    by (apply rsplit_once_chars_app; [done|]; apply contains_none; [done|exact Htail]).
  rewrite H1. cbn [mbind option_bind]. rewrite H2. cbn [mbind option_bind].
  rewrite H3. cbn [mbind option_bind]. by rewrite H4.
Qed.

(** Characters the tokenizer takes as they are. *)
Definition plain (c : Ascii.ascii) : bool :=
  negb (is_whitespace c || char_eqb c "\"%char || char_eqb c "'"%char || char_eqb c "034"%char
        || char_eqb c ";"%char).

Definition plain_word (w : bytes) : Prop := w <> [] /\ Forall (fun c => plain c = true) w.

Lemma parse_plain tokens current in_token w rest :
  Forall (fun c => plain c = true) w ->
  parse_exec_argv tokens current None false in_token (w ++ rest)
  = parse_exec_argv tokens (current ++ w) None false
      (if bool_decide (w = []) then in_token else true) rest.
Proof.
  revert current in_token. induction w as [|c w IH]; intros current in_token.
  { intros _. by rewrite app_nil_r. }
  intros [Hc Hw]%Forall_cons. unfold plain in Hc. apply negb_true_iff in Hc.
  do 4 (apply orb_false_iff in Hc as [Hc ?]). cbn [app parse_exec_argv].
  destruct (char_eqb c "\"%char) eqn:E1; [done|]. destruct (char_eqb c "'"%char) eqn:E2; [done|].
  destruct (char_eqb c "034"%char) eqn:E3; [done|]. cbn [orb]. rewrite Hc, IH by done.
  rewrite <- app_assoc, (bool_decide_eq_false_2 (c :: w = [])) by done.
  by destruct (bool_decide (w = [])).
Qed.

Lemma exec_argv_join ts : Forall plain_word ts -> exec_argv (join [" "%char] ts) = Some ts.
Proof.
  unfold exec_argv. change ts with ([] ++ ts) at 3. generalize (@nil bytes) as acc.
  induction ts as [|w ts IH]; intros acc; [by rewrite app_nil_r|].
  intros [[Hne Hw] Hts]%Forall_cons. destruct ts as [|w' ts].
  - cbn [join]. rewrite <- (app_nil_r w) at 1. rewrite parse_plain by done.
    by rewrite bool_decide_eq_false_2.
  - change (join [" "%char] (w :: w' :: ts)) with (w ++ " "%char :: join [" "%char] (w' :: ts)).
    rewrite parse_plain by done. rewrite bool_decide_eq_false_2 by done.
    cbn [app parse_exec_argv]. change (is_whitespace " ") with true.
    change (char_eqb " " "\") with false. cbv iota.
    change (char_eqb " " "'" || char_eqb " " "034")%char with false. cbv iota.
    rewrite IH by done. by rewrite <- app_assoc.
Qed.

Lemma exec_start_fields_set e a fields :
  exec_start_fields (Some e) (Some a) fields = Some (Some e, Some a).
Proof.
  induction fields as [|f fields IH]; [done|]. cbn [exec_start_fields].
  destruct (strip_prefix_chars (chars "path=") _); [done|].
  by destruct (strip_prefix_chars (chars "argv[]=") _).
Qed.

Lemma plain_trimmed w : Forall (fun c => plain c = true) w -> trimmed w.
Proof.
  intros Hw. assert (H : forall c, c ∈ w -> is_whitespace c = false).
  { intros c Hc. rewrite Forall_forall in Hw. specialize (Hw c Hc). unfold plain in Hw.
    apply negb_true_iff in Hw. by do 4 apply orb_false_iff in Hw as [Hw _]. }
  split; intros c Hc; apply H.
  - destruct w; simplify_eq/=. by left.
  - by apply last_Some_elem_of in Hc.
Qed.

(** A joined list of plain words, between its first and its last character. *)
Lemma join_trimmed ts : Forall plain_word ts -> trimmed (join [" "%char] ts).
Proof.
  intros Hts. split.
  - destruct Hts as [|w ts [Hne Hw] _]; [done|]. apply plain_trimmed in Hw as [Hh _].
    intros c Hc. apply Hh. destruct w as [|x w]; [done|]. by destruct ts.
  - induction Hts as [|w ts [Hne Hw] Hts IH]; [done|]. destruct ts as [|w' ts].
    + by apply plain_trimmed in Hw as [_ ?].
    + change (join [" "%char] (w :: w' :: ts)) with (w ++ [" "%char] ++ join [" "%char] (w' :: ts)).
      intros c. rewrite app_assoc, last_app. destruct (last (join _ _)) eqn:E; [by apply IH|].
      apply last_None in E. apply Forall_cons in Hts as [[Hne' _] _]. by destruct w', ts.
Qed.

Lemma join_no_semicolon ts : Forall plain_word ts -> ";"%char ∉ join [" "%char] ts.
Proof.
  assert (Hp : forall w, plain_word w -> ";"%char ∉ w).
  { intros w [_ Hw] Hin. rewrite Forall_forall in Hw. by specialize (Hw _ Hin). }
  induction 1 as [|w ts Hw Hts IH]; [by apply not_elem_of_nil|]. destruct ts as [|w' ts]; [by apply Hp|].
  change (join [" "%char] (w :: w' :: ts)) with (w ++ [" "%char] ++ join [" "%char] (w' :: ts)).
  rewrite !elem_of_app. intros [H|[H|H]]; [by apply (Hp w)| |by apply IH].
  by apply list_elem_of_singleton in H.
Qed.

Lemma trimmed_prefix p l :
  p <> [] -> trimmed p -> trimmed l -> trimmed (p ++ l).
Proof.
  intros Hne [Hh Hl] [_ Hl']. split.
  - intros c. destruct p; [done|]. intros Hc. by apply Hh.
  - intros c. rewrite last_app. destruct (last l); [by apply Hl'|apply Hl].
Qed.

Ltac solve_trimmed := split; intros ? [= <-]; reflexivity.

Lemma parse_exec_start_exact path ts tail :
  plain_word path -> Forall plain_word ts ->
  parse_exec_start (rendered_exec_start path ts tail) = Some (mkParsedExecStart path ts).
Proof.
  intros [Hne Hp] Hts. set (text := join [" "%char] ts).
  set (rest := chars " ignore_errors=" ++ tail).
  set (inner := (" "%char :: (chars "path=" ++ path) ++ [" "%char]) ++ ";"%char
                :: (" "%char :: (chars "argv[]=" ++ text) ++ [" "%char]) ++ ";"%char :: rest).
  assert (Hr : rendered_exec_start path ts tail = chars "{" ++ inner ++ chars "}").
  { unfold rendered_exec_start, inner, rest. cbn [app String.list_ascii_of_string].
    rewrite <- !app_assoc. cbn [app]. rewrite <- !app_assoc. done. }
  unfold parse_exec_start. rewrite Hr, trim_chars_id by apply braces_trimmed.
  rewrite strip_prefix_chars_app. cbn [mbind option_bind].
  rewrite strip_suffix_chars_app. cbn [default from_option id].
  assert (Hs1 : ";"%char ∉ " "%char :: (chars "path=" ++ path) ++ [" "%char]).
  { assert (Hps : ";"%char ∉ path).
    { intros Hin. rewrite Forall_forall in Hp. by specialize (Hp _ Hin). }
    intros [H|[[H|H]%elem_of_app|H]%elem_of_app]%elem_of_cons; try done;
      revert H; apply (bool_decide_unpack _); by vm_compute. }
  assert (Hs2 : ";"%char ∉ " "%char :: (chars "argv[]=" ++ text) ++ [" "%char]).
  { pose proof (join_no_semicolon ts Hts).
    intros [H'|[[H'|H']%elem_of_app|H']%elem_of_app]%elem_of_cons; try done;
      revert H'; apply (bool_decide_unpack _); by vm_compute. }
  unfold inner. change (chars ";") with [";"%char]. rewrite split_char, split_char by done.
  assert (T1 : trim_chars (" "%char :: (chars "path=" ++ path) ++ [" "%char]) = chars "path=" ++ path)
    by (apply trim_chars_spaces, trimmed_prefix; [done|solve_trimmed|by apply plain_trimmed]).
  assert (T2 : trim_chars (" "%char :: (chars "argv[]=" ++ text) ++ [" "%char])
               = chars "argv[]=" ++ text)
    by (apply trim_chars_spaces, trimmed_prefix; [done|solve_trimmed|by apply join_trimmed]).
  cbn [exec_start_fields]. rewrite T1, T2.
  rewrite strip_prefix_chars_app. rewrite (trim_chars_id path) by (by apply plain_trimmed).
  assert (Hnp : strip_prefix_chars (chars "path=") (chars "argv[]=" ++ text) = None) by done.
  rewrite Hnp, strip_prefix_chars_app, (trim_chars_id text) by (by apply join_trimmed).
  unfold text. rewrite exec_argv_join by done. cbn [mbind option_bind].
  rewrite exec_start_fields_set. cbn [mbind option_bind]. by rewrite bool_decide_eq_false_2.
Qed.

(** *** The command of a unit *)

(** How [systemd-run] reads its arguments: [-p] and [--setenv] take the next
    word, other words with leading dashes are options up to [--], and the
    rest is the command. *)
Fixpoint command_words (l : list string) : list string :=
  match l with
  | [] => []
  | w :: r =>
      if bool_decide (w = "--"%string) then r
      else if bool_decide (w = "-p"%string) || bool_decide (w = "--setenv"%string)
      then match r with _ :: r => command_words r | [] => [] end
      else if starts "-" w then command_words r
      else l
  end.

Lemma command_words_flag w r :
  w <> "--"%string -> w <> "-p"%string -> w <> "--setenv"%string -> starts "-" w = true ->
  command_words (w :: r) = command_words r.
Proof.
  intros H1 H2 H3 H4. cbn [command_words].
  by rewrite !bool_decide_eq_false_2, H4 by done.
Qed.

Lemma command_words_setenv env r :
  command_words (concat (map (fun '(key, value) => ["--setenv"; key +:+ "=" +:+ value]%string) env)
                 ++ "--"%string :: r) = r.
Proof. induction env as [|[k v] env IH]; [done|]. exact IH. Qed.

Lemma workload_command_words command config slot u :
  command_words (workload_systemd_run_args command config slot u)
  = workload_command (cfg_login_shell_path config) (program command) (args command).
Proof.
  unfold workload_systemd_run_args. cbn [app].
  do 13 (rewrite command_words_flag by done). apply command_words_setenv.
Qed.

Lemma runner_command_words slot ceiling path :
  starts "/" path = true ->
  command_words (systemd_run_argv slot ceiling path)
  = [path; "--serve-exec"; "--slot"; pad2 slot]%string.
Proof.
  intros Hp. unfold systemd_run_argv. cbn [app]. do 2 (rewrite command_words_flag by done).
  assert (Hpath : forall r, command_words (path :: r) = path :: r).
  { intros r. destruct path as [|c path]; [done|].
    unfold starts in Hp. cbn [String.list_ascii_of_string starts_with] in Hp.
    rewrite andb_true_r in Hp. apply char_eqb_true in Hp as <-. done. }
  destruct (0 <? ceiling)%N; apply Hpath.
Qed.

(** *** Names *)

(** Slots of the registry. *)
Definition slots : list N := map N.of_nat (seq 0 32).

Lemma slots_all (P : N -> bool) :
  forallb P slots = true -> forall slot, (slot < 32)%N -> P slot = true.
Proof.
  intros H slot Hs. rewrite forallb_elem in H. apply H. unfold slots.
  apply list_elem_of_fmap. exists (N.to_nat slot). rewrite N2Nat.id. split; [done|].
  apply elem_of_seq. lia.
Qed.

Lemma pad2_plain slot : (slot < 32)%N -> plain_word (chars (pad2 slot)).
Proof.
  intros Hs. assert (H : (negb (bool_decide (chars (pad2 slot) = []))
    && forallb plain (chars (pad2 slot)))%bool = true)
    by (revert slot Hs; apply slots_all; by vm_compute).
  apply andb_true_iff in H as [H1 H2]. split; [by apply negb_true_iff, bool_decide_eq_false in H1|].
  rewrite forallb_elem in H2. by apply Forall_forall.
Qed.

(** The name of a unit of slot [slot], and what is read back from it. *)
Definition name_of (k : ManagedUnitKind) (slot : N) : string :=
  match k with Runner => unit_name slot | Workload => workload_unit_name slot end.

Lemma name_read_back k slot :
  (slot < 32)%N -> parse_slot_from_unit (chars (name_of k slot)) = Some (slot, k).
Proof.
  intros Hs. apply (bool_decide_unpack _), Is_true_true.
  revert slot Hs. destruct k; apply slots_all; by vm_compute.
Qed.

Lemma name_service k slot : (slot < 32)%N -> is_service (chars (name_of k slot)) = true.
Proof. revert slot. destruct k; apply slots_all; by vm_compute. Qed.

Lemma name_unspaced k slot : (slot < 32)%N -> unspaced (chars (name_of k slot)).
Proof.
  intros Hs. assert (H : (negb (bool_decide (chars (name_of k slot) = []))
    && forallb (fun c => negb (is_whitespace c)) (chars (name_of k slot)))%bool = true)
    by (revert slot Hs; destruct k; apply slots_all; by vm_compute).
  apply andb_true_iff in H as [H1 H2]. split; [by apply negb_true_iff, bool_decide_eq_false in H1|].
  rewrite forallb_elem in H2. apply Forall_forall. intros c Hc. by apply negb_true_iff, H2.
Qed.

(** *** Identities *)

(** A dependency property that names the runner among other units. *)
Definition names_unit (property : bytes) (unit : string) : Prop :=
  exists us, property = join [" "%char] us /\ Forall unspaced us /\ chars unit ∈ us.

Lemma names_unit_contains property unit :
  names_unit property unit -> property_contains_unit (Some property) unit = true.
Proof.
  intros (us & -> & Hus & Hin). unfold property_contains_unit. rewrite words_join by done.
  apply existsb_elem. exists (chars unit). by rewrite bool_decide_eq_true.
Qed.

Lemma serve_exec_plain : Forall plain_word [chars "--serve-exec"; chars "--slot"].
Proof. by repeat (constructor || discriminate). Qed.

Lemma runner_recognised path slot ceiling tail :
  plain_word (chars path) -> starts "/" path = true -> (slot < 32)%N ->
  identity_matches path exec_slice
    (Some (rendered_exec_start (chars path)
       (map (fun a => chars a) (command_words (systemd_run_argv slot ceiling path))) tail)) slot
  = true.
Proof.
  intros Hp Ha Hs. unfold identity_matches. rewrite bool_decide_eq_false_2 by naive_solver.
  rewrite runner_command_words by done. cbn [map mbind option_bind].
  pose proof serve_exec_plain as [H1 [H2 _]%Forall_cons]%Forall_cons.
  rewrite parse_exec_start_exact; 
    [|done|apply Forall_cons; split; [done|];
      do 2 (apply Forall_cons; split; [done|]); apply Forall_singleton; by apply pad2_plain].
  cbn [exe pes_argv]. rewrite bool_decide_eq_true_2 by done. apply andb_true_iff. split.
  - apply existsb_elem. exists (chars "--serve-exec"). split; [|by apply bool_decide_eq_true].
    apply elem_of_cons. right. by left.
  - cbn [followed_by]. rewrite (bool_decide_eq_true_2 (chars "--slot" = chars "--slot")) by done.
    rewrite (bool_decide_eq_true_2 (chars (pad2 slot) = chars (pad2 slot))) by done.
    by rewrite !orb_true_r.
Qed.

Lemma workload_recognised command caps config slot tail binds_to part_of after :
  " "%char ∉ chars (cfg_login_shell_path config) ->
  "["%char ∉ chars (cfg_login_shell_path config) -> tail_ok tail ->
  names_unit binds_to (unit_name slot) -> names_unit part_of (unit_name slot) ->
  names_unit after (unit_name slot) ->
  let spec := build_spec command caps config slot in
  workload_identity_matches exec_slice
    (Some (rendered_exec_start (chars (cfg_login_shell_path config))
       (map (fun a => chars a) (command_words (systemd_run_args spec))) tail))
    (Some binds_to) (Some part_of) (Some after) slot spec = true.
Proof.
  intros Hsp Hbr Ht Hb Hp Ha spec. unfold workload_identity_matches.
  rewrite bool_decide_eq_false_2 by naive_solver.
  rewrite !names_unit_contains by done. cbn [negb orb mbind option_bind].
  rewrite raw_fields_exact by done. unfold spec, build_spec. cbn [systemd_run_args
    login_shell_path argv]. rewrite workload_command_words, !bool_decide_eq_true_2; done.
Qed.

(** *** The texts of [systemctl] *)

Record UnitReport := mkUnitReport {
  rep_slot : N;
  rep_kind : ManagedUnitKind;
  rep_load : bytes;
  rep_active : string;
  rep_rest : bytes;
  rep_slice : bytes;
  rep_exec_start : bytes;
  rep_binds_to : bytes;
  rep_part_of : bytes;
  rep_after : bytes
}.

Definition rep_name (u : UnitReport) : bytes := chars (name_of (rep_kind u) (rep_slot u)).

(** A line of [list-units], the lines of a block of [show], and both
    outputs. *)
Definition list_line (u : UnitReport) : bytes :=
  rep_name u ++ " "%char :: rep_load u ++ " "%char :: chars (rep_active u) ++ " "%char :: rep_rest u.

Definition list_text (us : list UnitReport) : bytes :=
  concat (map (fun u => list_line u ++ [line_feed]) us).

Definition show_lines (u : UnitReport) : list bytes :=
  [chars "Id=" ++ rep_name u; chars "Slice=" ++ rep_slice u;
   chars "ExecStart=" ++ rep_exec_start u; chars "BindsTo=" ++ rep_binds_to u;
   chars "PartOf=" ++ rep_part_of u; chars "After=" ++ rep_after u].

Definition show_text (us : list UnitReport) : bytes :=
  join [line_feed; line_feed] (map (fun u => join [line_feed] (show_lines u)) us) ++ [line_feed].

(** A value [systemctl] prints on one line; it may be empty. *)
Definition value_ok (v : bytes) : Prop :=
  trimmed v /\ (line_feed ∉ v) /\ (carriage_return ∉ v).

(** All but the command, and all of a report. *)
Record frame_ok (u : UnitReport) : Prop := mkFrameOk {
  rok_slot : (rep_slot u < 32)%N;
  rok_load : unspaced (rep_load u);
  rok_active : unspaced (chars (rep_active u));
  rok_rest : (line_feed ∉ rep_rest u) /\ (carriage_return ∉ rep_rest u);
  rok_slice : value_ok (rep_slice u);
  rok_binds_to : value_ok (rep_binds_to u);
  rok_part_of : value_ok (rep_part_of u);
  rok_after : value_ok (rep_after u)
}.

Definition report_ok (u : UnitReport) : Prop := frame_ok u /\ value_ok (rep_exec_start u).

(** The unit a report means. *)
Definition reported (u : UnitReport) (id : UnitIdentity) : ManagedUnit :=
  mkManagedUnit (rep_slot u) (rep_kind u)
    (bool_decide (chars (rep_active u) = chars "active")
     || bool_decide (chars (rep_active u) = chars "activating")) id.

Definition known (v : bytes) : option bytes := some_unless_empty v None.

Definition queried (u : UnitReport) : UnitIdentity :=
  Queried (known (rep_slice u)) (known (rep_exec_start u)) (known (rep_binds_to u))
    (known (rep_part_of u)) (known (rep_after u)).

Definition entry (u : UnitReport) : ShowEntry :=
  mkShowEntry (rep_name u) (known (rep_slice u)) (known (rep_exec_start u))
    (known (rep_binds_to u)) (known (rep_part_of u)) (known (rep_after u)) false.

Lemma unspaced_no_break l : unspaced l -> (line_feed ∉ l) /\ (carriage_return ∉ l).
Proof.
  intros [_ H]. rewrite Forall_forall in H.
  split; intros Hin; specialize (H _ Hin); done.
Qed.

Lemma no_cr_last l : carriage_return ∉ l -> last l <> Some carriage_return.
Proof. intros H Hl. apply H. by apply last_Some_elem_of in Hl. Qed.

Lemma parse_list_line u :
  report_ok u -> parse_unit_line (list_line u) = Some (reported u Unqueried).
Proof.
  intros [[] _]. unfold parse_unit_line, list_line.
  rewrite !words_cons by (done || by apply name_unspaced). unfold rep_name.
  rewrite name_service by done. cbn [mbind option_bind]. by rewrite name_read_back.
Qed.

Lemma list_read_back us :
  Forall report_ok us ->
  parse_managed_units (list_text us) = map (fun u => reported u Unqueried) us.
Proof.
  unfold parse_managed_units, list_text. induction 1 as [|u us Hu Hus IH]; [done|].
  cbn [map concat]. rewrite <- app_assoc. cbn [app]. rewrite lines_cons.
  - cbn [omap list_omap]. by rewrite parse_list_line, IH.
  - destruct Hu as [[Hs [Hl1 Hl2]%unspaced_no_break [Ha1 Ha2]%unspaced_no_break [Hr1 Hr2]] _].
    destruct (unspaced_no_break _ (name_unspaced (rep_kind u) _ Hs)) as [Hn1 Hn2].
    assert (Hb : forall c, is_whitespace c = true -> c <> " "%char ->
      c ∉ rep_name u -> c ∉ rep_load u -> c ∉ chars (rep_active u) -> c ∉ rep_rest u ->
      c ∉ list_line u) by (intros c; unfold list_line; set_solver).
    split; [by apply Hb|]. by apply no_cr_last, Hb.
Qed.

(** A block: non-empty lines without breaks, joined by line feeds. *)
Definition block_line (l : bytes) : Prop :=
  l <> [] /\ (line_feed ∉ l) /\ (carriage_return ∉ l).

Abbreviation blank := [line_feed; line_feed] (only parsing).

Lemma split_on_line piece l rest :
  line_feed ∉ l -> split_on blank 0 piece (l ++ rest) = split_on blank 0 (piece ++ l) rest.
Proof.
  revert piece. induction l as [|c l IH]; intros piece Hl; [by rewrite app_nil_r|].
  cbn [app split_on starts_with]. destruct (char_eqb line_feed c) eqn:E.
  { apply char_eqb_true in E. set_solver. }
  simpl. rewrite IH by set_solver. by rewrite <- app_assoc.
Qed.

Lemma split_on_break piece l rest :
  block_line l ->
  split_on blank 0 piece (line_feed :: l ++ rest) = split_on blank 0 (piece ++ [line_feed]) (l ++ rest).
Proof.
  intros (Hne & Hl & _). destruct l as [|c l]; [done|]. cbn [app split_on starts_with].
  change (char_eqb line_feed line_feed) with true. destruct (char_eqb line_feed c) eqn:E; [|done].
  apply char_eqb_true in E. set_solver.
Qed.

Lemma join_cons sep (p q : bytes) ps :
  join sep (p :: q :: ps) = p ++ sep ++ join sep (q :: ps).
Proof. done. Qed.

Lemma split_on_block piece ls rest :
  ls <> [] -> Forall block_line ls ->
  split_on blank 0 piece (join [line_feed] ls ++ rest)
  = split_on blank 0 (piece ++ join [line_feed] ls) rest.
Proof.
  intros Hne Hls. revert piece Hne. induction Hls as [|l ls Hl Hls IH]; intros piece Hne; [done|].
  destruct ls as [|l' ls].
  - cbn [join]. apply split_on_line. apply Hl.
  - rewrite join_cons, <- !app_assoc. rewrite split_on_line by apply Hl. cbn [app].
    assert (Hj : join [line_feed] (l' :: ls) ++ rest
      = l' ++ (match ls with [] => [] | _ => line_feed :: join [line_feed] ls end ++ rest)).
    { destruct ls; [done|]. rewrite join_cons, <- !app_assoc. done. }
    rewrite Hj. apply Forall_cons in Hls as [Hl' _]. rewrite split_on_break, <- Hj by done.
    rewrite IH by done. by rewrite <- !app_assoc.
Qed.

Lemma split_blocks (blocks : list (list bytes)) :
  blocks <> [] -> Forall (fun ls => ls <> [] /\ Forall block_line ls) blocks ->
  exists last_block rest, blocks = rest ++ [last_block]
    /\ split blank (join blank (map (join [line_feed]) blocks) ++ [line_feed])
       = map (join [line_feed]) rest ++ [join [line_feed] last_block ++ [line_feed]].
Proof.
  intros Hne Hb. induction Hb as [|ls blocks [Hls Hlines] Hb IH]; [done|].
  destruct blocks as [|ls' blocks].
  - exists ls, []. split; [done|]. cbn [map join app]. unfold split.
    by rewrite split_on_block.
  - destruct IH as (lb & rest & Heq & IH); [done|]. exists lb, (ls :: rest).
    split; [by rewrite Heq|]. cbn [map app] in *. rewrite <- IH. rewrite join_cons, <- !app_assoc.
    unfold split at 1. rewrite split_on_block by done. done.
Qed.

Lemma lines_block ls :
  Forall block_line ls -> lines (join [line_feed] ls) = ls
    /\ (ls <> [] -> lines (join [line_feed] ls ++ [line_feed]) = ls).
Proof.
  induction 1 as [|l ls (Hne & Hf & Hr) Hls [IH1 IH2]]; [done|].
  assert (Hline : is_line l) by (split; [done|by apply no_cr_last]).
  destruct ls as [|l' ls].
  - cbn [join]. split; [by apply lines_last|]. intros _. by rewrite lines_cons.
  - rewrite join_cons, <- app_assoc. cbn [app]. split; [|intros _]; rewrite lines_cons by done;
      [by rewrite IH1|by rewrite IH2].
Qed.

(** What each line of a block sets. *)
Section show_line.
Context (id v : bytes) (slice exec binds part after : option bytes) (bad : bool).
Let e := mkShowEntry id slice exec binds part after bad.

Lemma show_id :
  show_line e (chars "Id=" ++ v) = mkShowEntry (trim_chars v) slice exec binds part after bad.
Proof. done. Qed.

Lemma show_slice :
  show_line e (chars "Slice=" ++ v)
  = mkShowEntry id (some_unless_empty (trim_chars v) slice) exec binds part after bad.
Proof. done. Qed.

Lemma show_exec_start :
  show_line e (chars "ExecStart=" ++ v)
  = mkShowEntry id slice
      (match exec with Some _ => exec | None => some_unless_empty (trim_chars v) None end)
      binds part after bad.
Proof. done. Qed.

Lemma show_binds_to :
  show_line e (chars "BindsTo=" ++ v)
  = mkShowEntry id slice exec (some_unless_empty (trim_chars v) binds) part after bad.
Proof. done. Qed.

Lemma show_part_of :
  show_line e (chars "PartOf=" ++ v)
  = mkShowEntry id slice exec binds (some_unless_empty (trim_chars v) part) after bad.
Proof. done. Qed.

Lemma show_after :
  show_line e (chars "After=" ++ v)
  = mkShowEntry id slice exec binds part (some_unless_empty (trim_chars v) after) bad.
Proof. done. Qed.

End show_line.

Lemma value_read v : value_ok v -> some_unless_empty (trim_chars v) None = known v.
Proof. intros (Ht & _). by rewrite trim_chars_id. Qed.

Lemma show_lines_entry u :
  report_ok u -> fold_left show_line (show_lines u) empty_entry = entry u.
Proof.
  intros [[] He]. unfold show_lines, empty_entry. cbn [fold_left].
  destruct (name_unspaced (rep_kind u) _ rok_slot0) as [_ Hn].
  assert (Ht : trimmed (rep_name u)).
  { rewrite Forall_forall in Hn. split; intros c Hc; apply Hn.
    - by apply head_Some_elem_of in Hc.
    - by apply last_Some_elem_of in Hc. }
  rewrite show_id, trim_chars_id by done.
  rewrite show_slice, show_exec_start, show_binds_to, show_part_of, show_after.
  by rewrite !value_read.
Qed.

Lemma show_lines_block u : report_ok u -> Forall block_line (show_lines u).
Proof.
  intros [[] He]. destruct (unspaced_no_break _ (name_unspaced (rep_kind u) _ rok_slot0)) as [Hn1 Hn2].
  assert (Hv : forall p v, (line_feed ∉ chars p) -> (carriage_return ∉ chars p) ->
    chars p <> [] -> (line_feed ∉ v) -> (carriage_return ∉ v) -> block_line (chars p ++ v)).
  { intros p v H1 H2 H3 H4 H5. split; [by destruct (chars p)|]. split; set_solver. }
  assert (Hp : forall p v, bool_decide (line_feed ∉ chars p) && bool_decide (carriage_return ∉ chars p)
    && negb (bool_decide (chars p = [])) = true -> (line_feed ∉ v) -> (carriage_return ∉ v) ->
    block_line (chars p ++ v)).
  { intros p v [[H1%bool_decide_eq_true H2%bool_decide_eq_true]%andb_true_iff
      H3%negb_true_iff%bool_decide_eq_false]%andb_true_iff. by apply Hv. }
  unfold show_lines, value_ok in *. destruct_and!.
  by repeat (apply Forall_cons; split; [apply Hp; [by vm_compute|done|done]|]).
Qed.

Lemma show_read_back us :
  us <> [] -> Forall report_ok us -> parse_show_blocks (show_text us) = map entry us.
Proof.
  intros Hne Hus.
  destruct (split_blocks (map show_lines us)) as (lb & rest & Heq & Hsplit).
  { by destruct us. }
  { rewrite Forall_fmap. eapply Forall_impl; [exact Hus|]. intros u Hu.
    split; [done|by apply show_lines_block]. }
  assert (Hlines : forall ls, ls ∈ map show_lines us -> exists u, ls = show_lines u /\ report_ok u).
  { intros ls (u & -> & Hu)%list_elem_of_fmap. exists u. rewrite Forall_forall in Hus. auto. }
  assert (Hblock : forall ls, ls ∈ map show_lines us -> show_block (join [line_feed] ls)
    = fold_left show_line ls empty_entry
    /\ show_block (join [line_feed] ls ++ [line_feed]) = fold_left show_line ls empty_entry).
  { intros ls (u & -> & Hu)%Hlines. unfold show_block.
    destruct (lines_block (show_lines u) (show_lines_block u Hu)) as [-> H2].
    by rewrite H2. }
  assert (Hmap : map show_block (split blank (show_text us)) = map entry us).
  { unfold show_text. rewrite <- (map_map show_lines (join [line_feed])), Hsplit.
    rewrite map_app, map_map. cbn [map].
    transitivity (map (fun ls => fold_left show_line ls empty_entry) (map show_lines us)).
    - rewrite Heq, map_app. cbn [map]. f_equal.
      + apply map_ext_in. intros ls Hls%list_elem_of_In. apply Hblock. rewrite Heq. set_solver.
      + f_equal. apply Hblock. rewrite Heq. set_solver.
    - rewrite map_map. apply map_ext_in. intros u Hu%list_elem_of_In.
      rewrite Forall_forall in Hus. by apply show_lines_entry, Hus. }
  unfold parse_show_blocks. rewrite Hmap. clear -Hus.
  induction Hus as [|u us [[Hs] _] Hus IH]; [done|]. cbn [map List.filter].
  rewrite bool_decide_eq_false_2; [simpl; by rewrite IH|].
  exact (proj1 (name_unspaced _ _ Hs)).
Qed.

(** What [systemctl] prints is read back: every unit with its identity. *)
Theorem systemctl_read_back us :
  Forall report_ok us -> NoDup (map rep_name us) ->
  list_managed_units (Ok (list_text us)) (Some (show_text us))
  = Ok (map (fun u => reported u (queried u)) us).
Proof.
  intros Hus Hnd. unfold list_managed_units. cbn [r_bind]. rewrite list_read_back by done.
  destruct us as [|u0 us0] eqn:E; [done|]. rewrite <- E in *.
  rewrite bool_decide_eq_false_2 by (by rewrite E). f_equal.
  rewrite show_read_back by (done || by rewrite E). rewrite map_map. apply map_ext_in.
  intros u Hu%list_elem_of_In. unfold with_identity.
  assert (Hname : ManagedUnit_name (reported u Unqueried) = name_of (rep_kind u) (rep_slot u))
    by (by unfold ManagedUnit_name; simpl; destruct (rep_kind u)).
  rewrite Hname. fold (rep_name u).
  assert (Hfind : List.find (fun b => bool_decide (se_id b = rep_name u)) (map entry us)
    = Some (entry u)); [|by rewrite Hfind].
  clear -Hu Hnd. induction us as [|x us IH]; [by apply elem_of_nil in Hu|].
  cbn [map List.find]. apply NoDup_cons in Hnd as [Hx Hnd].
  destruct (decide (rep_name x = rep_name u)) as [Hxu|Hxu].
  - rewrite bool_decide_eq_true_2 by done. apply elem_of_cons in Hu as [->|Hu]; [done|].
    destruct Hx. rewrite Hxu. by apply list_elem_of_fmap_2.
  - rewrite bool_decide_eq_false_2 by done. apply elem_of_cons in Hu as [->|Hu]; [done|auto].
Qed.

(** *** Accepted commands are recognised *)

Definition shell_ok (shell : string) : Prop :=
  chars shell <> [] /\ (" "%char ∉ chars shell) /\ ("["%char ∉ chars shell)
  /\ (line_feed ∉ chars shell) /\ (carriage_return ∉ chars shell).

Definition ends_ok (tail : bytes) : Prop :=
  tail_ok tail /\ (line_feed ∉ tail) /\ (carriage_return ∉ tail).

Lemma join_no_char c ps :
  c <> " "%char -> Forall (fun p : bytes => c ∉ p) ps -> c ∉ join [" "%char] ps.
Proof.
  intros Hc. induction 1 as [|p ps Hp Hps IH]; [by apply not_elem_of_nil|].
  destruct ps as [|q ps]; [done|]. rewrite join_cons, !elem_of_app. intros [H|[H|H]]; [done| |done].
  by apply list_elem_of_singleton in H.
Qed.

Lemma rendered_value path ts tail :
  (line_feed ∉ path) /\ (carriage_return ∉ path) ->
  Forall (fun t : bytes => (line_feed ∉ t) /\ (carriage_return ∉ t)) ts ->
  (line_feed ∉ tail) /\ (carriage_return ∉ tail) ->
  value_ok (rendered_exec_start path ts tail).
Proof.
  intros [P1 P2] Hts [T1 T2]. apply Forall_and in Hts as [H1 H2].
  assert (Hc : forall c, c <> " "%char -> c ∉ path -> c ∉ tail -> Forall (fun p : bytes => c ∉ p) ts ->
    c ∉ chars "{ path=" -> c ∉ chars " ; argv[]=" -> c ∉ chars " ; ignore_errors=" ->
    c ∉ chars "}" -> c ∉ rendered_exec_start path ts tail).
  { intros c Hc Hp Ht Hl. pose proof (join_no_char c ts Hc Hl). unfold rendered_exec_start.
    rewrite !elem_of_app. tauto. }
  split.
  - replace (rendered_exec_start path ts tail) with ("{"%char :: (chars " path=" ++ path
      ++ chars " ; argv[]=" ++ join [" "%char] ts ++ chars " ; ignore_errors=" ++ tail) ++ ["}"%char])
      by (unfold rendered_exec_start; rewrite <- !app_assoc; done). apply braces_trimmed.
  - split; apply Hc; try done; apply (bool_decide_unpack _); by vm_compute.
Qed.

Lemma plain_no_break w : plain_word w -> (line_feed ∉ w) /\ (carriage_return ∉ w).
Proof.
  intros [_ H]. rewrite Forall_forall in H. split; intros Hin; by specialize (H _ Hin).
Qed.

Lemma validated_args input policy command :
  validate_detached_command input policy = Ok command ->
  forallb arg_ok (program command :: args command) = true.
Proof.
  unfold validate_detached_command. intros H. checks H; injection H as <-; cbn [program args];
    apply check_Ok, negb_false_iff in Hc4; (destruct (in_argv input) as [|p l]; [|done]);
    by apply check_Ok in Hc3.
Qed.

(** The reports of the two units of a slot. *)
Record runner_report (config : RegistryConfig) (slot ceiling : N) (tail : bytes)
    (u : UnitReport) : Prop := mkRunnerReport {
  rr_slot : rep_slot u = slot;
  rr_kind : rep_kind u = Runner;
  rr_active : rep_active u = "active"%string \/ rep_active u = "activating"%string;
  rr_slice : rep_slice u = chars "d2b-exec.slice";
  rr_exec_start : rep_exec_start u = rendered_exec_start (chars (exec_runner_path config))
    (map (fun a => chars a)
       (command_words (systemd_run_argv slot ceiling (exec_runner_path config)))) tail
}.

Record workload_report (config : RegistryConfig) (spec : ExecSpec) (slot : N) (tail : bytes)
    (u : UnitReport) : Prop := mkWorkloadReport {
  wr_slot : rep_slot u = slot;
  wr_kind : rep_kind u = Workload;
  wr_active : rep_active u = "active"%string \/ rep_active u = "activating"%string;
  wr_slice : rep_slice u = chars "d2b-exec.slice";
  wr_exec_start : rep_exec_start u = rendered_exec_start (chars (cfg_login_shell_path config))
    (map (fun a => chars a) (command_words (systemd_run_args spec))) tail;
  wr_binds_to : names_unit (rep_binds_to u) (unit_name slot);
  wr_part_of : names_unit (rep_part_of u) (unit_name slot);
  wr_after : names_unit (rep_after u) (unit_name slot)
}.

Lemma known_some v : v <> [] -> known v = Some v.
Proof. intros H. unfold known, some_unless_empty. by rewrite bool_decide_eq_false_2. Qed.

Lemma names_unit_ne property slot : (slot < 32)%N -> names_unit property (unit_name slot) -> property <> [].
Proof.
  intros Hs (us & -> & Hus & Hin) Hj. pose proof (words_join us Hus) as Hw. rewrite Hj in Hw.
  unfold words in Hw. cbn in Hw. subst us. by apply elem_of_nil in Hin.
Qed.

Lemma rendered_ne path ts tail : rendered_exec_start path ts tail <> [].
Proof. done. Qed.

Lemma active_reported u id :
  rep_active u = "active"%string \/ rep_active u = "activating"%string ->
  active (reported u id) = true.
Proof. unfold reported. cbn [active]. by intros [-> | ->]. Qed.

(** The units found for a slot among reports with distinct names. *)
Lemma find_reported us u :
  Forall (fun u => (rep_slot u < 32)%N) us -> NoDup (map rep_name us) -> u ∈ us ->
  List.find (unit_of (rep_kind u) (rep_slot u)) (map (fun u => reported u (queried u)) us)
  = Some (reported u (queried u)).
Proof.
  intros Hs Hnd Hu. induction us as [|x us IH]; [by apply elem_of_nil in Hu|].
  apply NoDup_cons in Hnd as [Hx Hnd]. apply Forall_cons in Hs as [Hsx Hs]. cbn [map List.find].
  unfold unit_of at 1. cbn [mu_slot kind reported].
  destruct (N.eqb_spec (rep_slot x) (rep_slot u)) as [E1|E1];
    [destruct (decide (rep_kind x = rep_kind u)) as [E2|E2]|].
  - rewrite bool_decide_eq_true_2 by done. cbn [andb]. apply elem_of_cons in Hu as [->|Hu]; [done|].
    destruct Hx. unfold rep_name. rewrite E1, E2. by apply (list_elem_of_fmap_2 rep_name).
  - rewrite bool_decide_eq_false_2 by done. cbn [andb].
    apply elem_of_cons in Hu as [->|Hu]; [done|auto].
  - cbn [andb]. apply elem_of_cons in Hu as [->|Hu]; [done|auto].
Qed.

Section own.
Context (input : ExecCreateInput) (policy : ExecPolicy) (command : ValidatedCommand).
Context (caps : DetachedCaps) (config : RegistryConfig) (slot : N) (tail tail' : bytes).
Context (Haccepted : validate_detached_command input policy = Ok command).
Context (Hslot : (slot < 32)%N).
Context (Hrunner : plain_word (chars (exec_runner_path config))).
Context (Habs : starts "/" (exec_runner_path config) = true).
Context (Hshell : shell_ok (cfg_login_shell_path config)).
Context (Htail : ends_ok tail) (Htail' : ends_ok tail').

Let spec := build_spec command caps config slot.

Lemma runner_value u :
  runner_report config slot (caps_runtime caps) tail u -> value_ok (rep_exec_start u).
Proof.
  intros []. rewrite rr_exec_start0. rewrite runner_command_words by done.
  destruct Htail as (_ & T1 & T2).
  pose proof serve_exec_plain as [H1 [H2 _]%Forall_cons]%Forall_cons.
  apply rendered_value; [by apply plain_no_break| |done]. cbn [map].
  do 3 (apply Forall_cons; split; [by apply plain_no_break|]).
  apply Forall_singleton. by apply plain_no_break, pad2_plain.
Qed.

Lemma workload_value u : workload_report config spec slot tail' u -> value_ok (rep_exec_start u).
Proof.
  intros []. rewrite wr_exec_start0. unfold spec, build_spec. cbn [systemd_run_args].
  rewrite workload_command_words. destruct Htail' as (_ & T1 & T2).
  destruct Hshell as (_ & _ & _ & S1 & S2). apply rendered_value; [done| |done].
  unfold workload_command. cbn [app map]. apply Forall_cons. split; [done|].
  assert (Hargs : Forall (fun a => (line_feed ∉ chars a) /\ (carriage_return ∉ chars a))
    (program command :: args command)).
  { apply Forall_forall. intros a Ha. pose proof (validated_args _ _ _ Haccepted) as H.
    rewrite forallb_elem in H. specialize (H a Ha). unfold arg_ok in H.
    apply andb_true_iff in H as [_ H]. apply negb_true_iff in H. rewrite existsb_false in H.
    split; intros Hin; specialize (H _ Hin); by rewrite !char_eqb_refl, ?orb_true_r in H. }
  apply Forall_cons in Hargs as [Hp Hargs].
  do 4 (apply Forall_cons; split; [split; apply (bool_decide_unpack _); by vm_compute|]).
  apply Forall_cons. split; [done|]. by apply Forall_fmap.
Qed.

(** C22. While an accepted detached command runs, the units systemd reports
    for its slot are recognised as its own, whatever bytes its arguments
    hold and whatever other units are listed: the daemon never takes its own
    live command for a foreign one, which it would stop. *)
Theorem own_units_live us r w :
  Forall frame_ok us -> NoDup (map rep_name us) ->
  (forall u, u ∈ us -> u = r \/ u = w \/ value_ok (rep_exec_start u)) ->
  r ∈ us -> runner_report config slot (caps_runtime caps) tail r ->
  w ∈ us -> workload_report config spec slot tail' w ->
  exists units, list_managed_units (Ok (list_text us)) (Some (show_text us)) = Ok units
    /\ classify_unit config (Ok spec) units slot = Live.
Proof.
  intros Hframe Hnd Hothers Hr Rr Hw Rw.
  assert (Hok : Forall report_ok us).
  { rewrite Forall_forall in *. intros u Hu. split; [auto|].
    destruct (Hothers u Hu) as [->|[->|]]; [by apply runner_value|by apply workload_value|done]. }
  exists (map (fun u => reported u (queried u)) us). split; [by apply systemctl_read_back|].
  assert (Hslots : Forall (fun u => (rep_slot u < 32)%N) us).
  { eapply Forall_impl; [exact Hframe|]. by intros u []. }
  unfold classify_unit.
  pose proof (find_reported us r Hslots Hnd Hr) as Fr. rewrite (rr_slot _ _ _ _ _ Rr),
    (rr_kind _ _ _ _ _ Rr) in Fr.
  pose proof (find_reported us w Hslots Hnd Hw) as Fw. rewrite (wr_slot _ _ _ _ _ Rw),
    (wr_kind _ _ _ _ _ Rw) in Fw. rewrite Fr, Fw. cbn [fmap option_fmap option_map].
  assert (Cr : classify_runner_unit config (reported r (queried r)) slot = Class_Live).
  { destruct Rr. unfold classify_runner_unit. rewrite active_reported by done. cbn [negb].
    unfold reported, queried. cbn [identity]. rewrite rr_slice0, rr_exec_start0.
    rewrite !known_some by done. by rewrite runner_recognised. }
  assert (Cw : classify_workload_unit (Ok spec) (reported w (queried w)) slot = Class_Live).
  { destruct Rw, Hshell as (? & ? & ? & _), Htail' as [? _]. unfold classify_workload_unit.
    rewrite active_reported by done. cbn [negb]. unfold reported, queried. cbn [identity].
    rewrite wr_slice0, wr_exec_start0, !known_some by (done || by eapply names_unit_ne).
    unfold spec. by rewrite workload_recognised. }
  by rewrite Cr, Cw.
Qed.

End own.
End Reports.

(** ** Commands whose spec cannot be written *)

Module SpecLimits.
Import Command.

(** Every word of the [systemd-run] command line has to fit [MAX_ARG_LEN],
    but a variable may be longer: a request with such a variable is accepted
    and its spec refused. *)
Theorem long_variable_refused command caps config slot key value :
  (key, value) ∈ cmd_env command ->
  N.to_nat 4095 < String.length key + String.length value ->
  is_ok (encode_spec (build_spec command caps config slot)) = false.
Proof.
  intros Hin Hlen. apply not_true_is_false. unfold encode_spec.
  destruct (validate (build_spec command caps config slot)) as [u|] eqn:Hv; [intros _|done].
  unfold validate in Hv. checks Hv. unfold validate_systemd_run_args in Hv. checks Hv.
  apply each_Ok in Hv. rewrite Forall_forall in Hv.
  assert (Harg : key +:+ "=" +:+ value ∈ systemd_run_args (build_spec command caps config slot)).
  { unfold build_spec, workload_systemd_run_args. cbn [systemd_run_args].
    apply elem_of_app. right. apply elem_of_app. left. apply list_elem_of_In, in_concat.
    exists ["--setenv"; key +:+ "=" +:+ value]%string. split; [|by right; left].
    apply in_map_iff. exists (key, value). by rewrite <- list_elem_of_In. }
  specialize (Hv _ Harg). simpl in Hv. apply check_Ok, orb_false_iff in Hv as [Hv _].
  apply orb_false_iff in Hv as [_ Hv]. unfold longer in Hv. apply bool_decide_eq_false in Hv.
  assert (Hl : String.length (key +:+ "=" +:+ value) = String.length key + S (String.length value)).
  { rewrite <- length_chars, !chars_app, !length_app, !length_chars. done. }
  unfold MAX_ARG_LEN in Hv. lia.
Qed.

(** Such a request, with a value of the permitted length. *)
Definition long_value : string := of_chars (replicate (N.to_nat 8192) "x"%char).

Definition long_request : ExecCreateInput :=
  mkExecCreateInput ["/bin/true"%string] None [("PAYLOAD"%string, long_value)] false false false 1.

Lemma long_request_accepted :
  validate_detached_command long_request (mkExecPolicy true (Some "alice"%string))
  = Ok (mkValidatedCommand "/bin/true" [] "/" [("PAYLOAD"%string, long_value)]).
Proof. vm_compute. reflexivity. Qed.

End SpecLimits.

Module UnitsDemo.
Import Units Command Identity Reports.

(** A command with arguments that look like the syntax around them. *)
Definition odd_args : list string :=
  ["/bin/echo"; "a ; ignore_errors=no ; argv[]=x"; String "034"%char "}"; "\"; " trailing "]%string.

Definition demo_input : ExecCreateInput :=
  mkExecCreateInput odd_args None [("LANG"%string, "--"%string)] false false false 1.

Definition demo_policy : ExecPolicy := mkExecPolicy true (Some "alice"%string).

Definition demo_command : ValidatedCommand :=
  mkValidatedCommand "/bin/echo" (tl odd_args) "/" [("LANG"%string, "--"%string)].

Definition demo_config : RegistryConfig :=
  mkRegistryConfig "/run/bin/d2b-exec-runner" "boot" 0 "alice" 1000 "/run/bin/systemd-run"
    "/run/bin/bash".

Definition demo_caps : DetachedCaps := mkDetachedCaps 4194304 4194304 0.

Definition demo_tail : bytes := chars "no ; pid=0 ; code=(null) ; status=0/0 ".

Definition demo_runner : UnitReport :=
  mkUnitReport 7 Runner (chars "loaded") "active" (chars "running /run/bin/d2b-exec-runner")
    (chars "d2b-exec.slice")
    (rendered_exec_start (chars (exec_runner_path demo_config))
       (map (fun a => chars a)
          (command_words (systemd_run_argv 7 0 (exec_runner_path demo_config)))) demo_tail)
    [] [] (chars "system.slice").

Definition demo_workload : UnitReport :=
  mkUnitReport 7 Workload (chars "loaded") "active" (chars "running bash")
    (chars "d2b-exec.slice")
    (rendered_exec_start (chars (cfg_login_shell_path demo_config))
       (map (fun a => chars a)
          (command_words (systemd_run_args (build_spec demo_command demo_caps demo_config 7))))
       demo_tail)
    (chars "d2b-exec-07.service") (chars "d2b-exec-07.service")
    (chars "system.slice d2b-exec-07.service").

Lemma forallb_Forall {A} (f : A -> bool) l : forallb f l = true -> Forall (fun c => f c = true) l.
Proof. rewrite forallb_elem. by rewrite Forall_forall. Qed.

Lemma unspaced_check l :
  negb (bool_decide (l = [])) && forallb (fun c => negb (is_whitespace c)) l = true -> unspaced l.
Proof.
  intros [H1%negb_true_iff%bool_decide_eq_false H2%forallb_Forall]%andb_true_iff. split; [done|].
  eapply Forall_impl; [exact H2|]. intros c. apply negb_true_iff.
Qed.

Lemma plain_check l : negb (bool_decide (l = [])) && forallb plain l = true -> plain_word l.
Proof.
  intros [H1%negb_true_iff%bool_decide_eq_false H2%forallb_Forall]%andb_true_iff. by split.
Qed.

Definition breaks (c : Ascii.ascii) (l : bytes) : bool := existsb (char_eqb c) l.

Lemma no_break c l : breaks c l = false -> c ∉ l.
Proof.
  unfold breaks. rewrite existsb_false. intros H Hin. specialize (H c Hin).
  by rewrite char_eqb_refl in H.
Qed.

Lemma value_check v :
  (match head v with Some c => is_whitespace c | None => false end
   || match last v with Some c => is_whitespace c | None => false end
   || breaks line_feed v || breaks carriage_return v) = false -> value_ok v.
Proof.
  intros [[[H1 H2]%orb_false_iff H3%no_break]%orb_false_iff H4%no_break]%orb_false_iff.
  split; [|done]. split; intros c Hc; by rewrite Hc in H1 || rewrite Hc in H2.
Qed.

Lemma names_check property unit us :
  property = join [" "%char] us -> Forall unspaced us -> chars unit ∈ us ->
  names_unit property unit.
Proof. by exists us. Qed.

Lemma own_units_live_witness :
  exists units,
    list_managed_units (Ok (list_text [demo_runner; demo_workload]))
      (Some (show_text [demo_runner; demo_workload])) = Ok units
    /\ classify_unit demo_config (Ok (build_spec demo_command demo_caps demo_config 7)) units 7
       = Live.
Proof.
  apply (own_units_live demo_input demo_policy demo_command demo_caps demo_config 7 demo_tail
           demo_tail) with (r := demo_runner) (w := demo_workload).
  - vm_compute. reflexivity.
  - done.
  - by apply plain_check.
  - done.
  - repeat split; try apply no_break; done.
  - repeat split; try apply no_break; done.
  - repeat split; try apply no_break; done.
  - repeat (apply Forall_cons; split; [split; first [done | by apply unspaced_check
      | by apply value_check | split; by apply no_break]|]); done.
  - apply (bool_decide_unpack _). by vm_compute.
  - intros u [->|[->|[]%elem_of_nil]%elem_of_cons]%elem_of_cons; auto.
  - by left.
  - by split; [| |left| |].
  - by right; left.
  - split; [done|done|by left|done|done| | |].
    + by apply (names_check _ _ [chars "d2b-exec-07.service"]);
        [|apply Forall_singleton, unspaced_check|left].
    + by apply (names_check _ _ [chars "d2b-exec-07.service"]);
        [|apply Forall_singleton, unspaced_check|left].
    + apply (names_check _ _ [chars "system.slice"; chars "d2b-exec-07.service"]); [done| |].
      * by apply Forall_cons; split; [apply unspaced_check|apply Forall_singleton, unspaced_check].
      * by right; left.
Defined.

End UnitsDemo.
