(* ===== verification/Detached.v ===== *)
(** * The registry of detached commands ([d2b-guestd] [detached_registry.rs])

    The registry owns the slots of detached commands: it reserves a slot and
    its log quota, writes the durable record and the spec before it starts
    the runner's unit, waits for the runner's first status, reconciles records
    with units and statuses, cancels in two phases, deletes old records, and
    takes the records over again after a restart.

    Its methods are async and run concurrently.  [Module Tasks] has them as
    programs: trees of steps, each of which locks or unlocks the registry's
    mutex, reads or changes the state under it, asks the clock, sleeps, or
    calls the slot store, systemd or the id source.  A world runs any number
    of programs interleaved step by step, in any order; a call fails or
    succeeds, statuses and units are reported, and time passes as an arbitrary
    oracle says.  [Module Registry] has the methods.  Loops that poll take
    fuel; a program that runs out stays where it is, so a statement about
    every fuel covers every prefix of the loop. *)

From S2P Require Import Prelude Ids Streams Frame FileRing Text ExecFiles DetachedUnits.
Import Meta ExecRecord Units Command Identity.
Close Scope rust_scope.

(** ** Programs *)

Module Tasks.

Inductive ExecState : Set :=
  St_Running | St_Exited | St_Signaled | St_Cancelled | St_Reaped | St_LostGuestd.

Inductive ExitOutcome : Set := Outcome_Exited (code : Z) | Outcome_Signaled (signal : N).

(** A detached command has no terminal, so that [stdin] and
    [last_control_seq] are constants. *)
Record ExecSnapshot := mkExecSnapshot {
  snap_state : ExecState;
  outcome : option ExitOutcome;
  state_generation : N;
  stdout_start_offset : N;
  stdout_end_offset : N;
  stderr_start_offset : N;
  stderr_end_offset : N;
  stdout_dropped_bytes : N;
  stderr_dropped_bytes : N;
  stdout_truncated : bool;
  stderr_truncated : bool
}.

Inductive Stream : Set := Stdout | Stderr.

(** [Finished] carries what the creator returned. *)
Inductive CreateResolution : Set :=
| Creating
| Finished (r : result ExecSnapshot ExecError).

Record SlotEntry := mkSlotEntry {
  record : DurableRecord;
  caps : DetachedCaps;
  creating : bool;
  dispatch_hold : bool;
  generation : N;
  active_counted : bool;
  read_guards : N;
  create_resolution : option nat
}.

Record RegistryState := mkRegistryState {
  slots : gmap N SlotEntry;
  active : N;
  reserved_log_bytes : N;
  tombstones : list string
}.

(** The memory the tasks share: the state behind the mutex, and the watch
    channels, by number. *)
Record Shared := mkShared {
  registry : RegistryState;
  channels : list CreateResolution
}.

(** Calls to the slot store, the unit manager and the id source. *)
Inductive call : Set -> Type :=
| NextExecId : call (result string ExecError)
| PrepareSlotDir (slot : N) : call (result unit ExecError)
| WriteRecord (slot : N) (r : DurableRecord) : call (result unit ExecError)
| ReadRecord (slot : N) : call (result DurableRecord ExecError)
| WriteSpec (slot : N) (spec : ExecSpec.ExecSpec) : call (result unit ExecError)
| ReadSpec (slot : N) : call (result ExecSpec.ExecSpec ExecError)
| WriteCancel (slot : N) : call (result unit ExecError)
| ReadStatus (slot : N) : call (result (option StatusPhase) ExecError)
| ReadLogMeta (slot : N) (stream : Stream) : call (result (option StreamMeta) ExecError)
| ReadLog (slot : N) (stream : Stream) (offset max_len : N) :
    call (result FileRing.RingChunk FileRing.FileRingError)
| MarkLost (slot : N) : call (result unit ExecError)
| DeleteSlotDir (slot : N) : call (result unit ExecError)
| ScrubSlotFiles (slot : N) : call (result unit ExecError)
| ValidateAuthenticity (slot : N) : call (result unit ExecError)
| ListSlotDirs : call (result (list N) ExecError)
| StartTransientUnit (slot ceiling_sec : N) : call (result unit UnitError)
| StopUnit (slot : N) : call (result unit UnitError)
| ResetFailed (slot : N) : call (result unit UnitError)
| ListManagedUnits : call (result (list ManagedUnit) UnitError).

Inductive prog (A : Type) : Type :=
| Ret (a : A)
| Lock (k : prog A)
| Unlock (k : prog A)
| State {R : Set} (f : Shared -> R * Shared) (k : R -> prog A)
| Now (k : N -> prog A)
| Sleep (ms : N) (k : prog A)
| Call {R : Set} (c : call R) (k : R -> prog A)
| Send (channel : nat) (v : CreateResolution) (k : prog A)
| Await (channel : nat) (k : option (result ExecSnapshot ExecError) -> prog A)
| Spin.

#[global] Arguments Ret {A} a.
#[global] Arguments Lock {A} k.
#[global] Arguments Unlock {A} k.
#[global] Arguments State {A R} f k.
#[global] Arguments Now {A} k.
#[global] Arguments Sleep {A} ms k.
#[global] Arguments Call {A R} c k.
#[global] Arguments Send {A} channel v k.
#[global] Arguments Await {A} channel k.
#[global] Arguments Spin {A}.

Fixpoint bind {A B} (p : prog A) (f : A -> prog B) : prog B :=
  match p with
  | Ret a => f a
  | Lock k => Lock (bind k f)
  | Unlock k => Unlock (bind k f)
  | State g k => State g (fun r => bind (k r) f)
  | Now k => Now (fun t => bind (k t) f)
  | Sleep ms k => Sleep ms (bind k f)
  | Call c k => Call c (fun r => bind (k r) f)
  | Send ch v k => Send ch v (bind k f)
  | Await ch k => Await ch (fun r => bind (k r) f)
  | Spin => Spin
  end.

Declare Scope task_scope.
Delimit Scope task_scope with task.
Notation "'let!' x ':=' p 'in' k" := (bind p (fun x => k))
  (at level 10, x pattern, k at level 200) : task_scope.
Notation "p '!;' k" := (bind p (fun _ => k))
  (at level 100, k at level 200, right associativity) : task_scope.
Local Open Scope task_scope.

Definition now : prog N := Now Ret.
Definition sleep (ms : N) : prog unit := Sleep ms (Ret tt).
Definition perform {R : Set} (c : call R) : prog R := Call c Ret.

(** A section under the mutex that only touches the state, and one that
    reads it. *)
Definition locked {R : Set} (f : Shared -> R * Shared) : prog R :=
  Lock (State f (fun r => Unlock (Ret r))).
Definition locked_get {R : Set} (f : RegistryState -> R) : prog R :=
  locked (fun s => (f (registry s), s)).
Definition on_registry {R : Set} (f : RegistryState -> R * RegistryState) (s : Shared) : R * Shared :=
  let '(r, reg) := f (registry s) in (r, mkShared reg (channels s)).

(** [?] *)
Definition try {A B E} (p : prog (result A E)) (k : A -> prog (result B E)) :
    prog (result B E) :=
  bind p (fun r => match r with Ok a => k a | Err e => Ret (Err e) end).

(** ** Worlds *)

(** The slot directory: of its files, those the registry writes.  The disk
    has one directory per slot number, under the name the store gives it
    ([slot-07]).  [list_slot_dirs] also reads a number from other spellings
    ([slot-7]), so that a stray directory beside the slot's own would list the
    slot twice; a disk with such directories is not modelled. *)
Record SlotDir := mkSlotDir {
  dir_record : option DurableRecord;
  dir_spec : option ExecSpec.ExecSpec;
  dir_cancel : bool
}.

Definition Disk : Type := gmap N SlotDir.

(** What was done to the units and the directories; a start comes with the
    directory the runner finds. *)
Inductive Event : Type :=
| Started (slot : N) (dir : option SlotDir) (ok : bool)
| Stopped (slot : N) (ok : bool)
| Deleted (slot : N) (ok : bool).

(** What the outside world does at each moment: the error of a store call on a
    slot, of the listing, of a unit call, the id, the status, the units, the logs, which files a
    failed deletion leaves, whether a wait times out, and how far the wall
    clock moves. *)
Record Oracle := mkOracle {
  o_store : N -> N -> option ExecError;
  o_list : N -> option ExecError;
  o_unit : N -> option UnitError;
  o_id : N -> result string ExecError;
  o_status : N -> N -> result (option StatusPhase) ExecError;
  o_units : N -> result (list ManagedUnit) UnitError;
  o_meta : N -> result (option StreamMeta) ExecError;
  o_log : N -> result FileRing.RingChunk FileRing.FileRingError;
  o_left : N -> SlotDir -> option SlotDir;
  o_timeout : N -> bool;
  o_elapsed : N -> Z
}.

Record World := mkWorld {
  shared : Shared;
  mutex : option nat;
  disk : Disk;
  clock : N;
  tick : N;
  trace : list Event
}.

Definition answer {E} (error : option E) : result unit E :=
  match error with None => Ok tt | Some e => Err e end.

Definition succeeded {E} (error : option E) : bool :=
  match error with None => true | Some _ => false end.

Definition empty_dir : SlotDir := mkSlotDir None None false.

(** A write in a directory that is there. *)
Definition write_file (slot : N) (f : SlotDir -> SlotDir) (error : option ExecError) (d : Disk) :
    result unit ExecError * Disk :=
  match error, d !! slot with
  | None, Some dir => (Ok tt, <[slot := f dir]> d)
  | Some e, _ => (Err e, d)
  | None, None => (Err Internal, d)
  end.

Definition DETACHED_RETAINED_PER_VM : nat := 32.

(** The answer of a call at time [t], the disk after it, and its trace. *)
Definition respond (o : Oracle) (t : N) {R : Set} (c : call R) (d : Disk) : R * Disk * list Event :=
  match c in call R return R * Disk * list Event with
  | NextExecId => (o_id o t, d, [])
  | PrepareSlotDir slot =>
      (answer (o_store o t slot),
       match o_store o t slot with
       | None => match d !! slot with Some _ => d | None => <[slot := empty_dir]> d end
       | Some _ => d
       end, [])
  | WriteRecord slot r =>
      (write_file slot (fun dir => mkSlotDir (Some r) (dir_spec dir) (dir_cancel dir))
         (o_store o t slot) d, [])
  | ReadRecord slot =>
      (match o_store o t slot, d !! slot ≫= dir_record with
       | None, Some r => Ok r
       | None, None => Err ExecNotFound
       | Some e, _ => Err e
       end, d, [])
  | WriteSpec slot spec =>
      (match ExecSpec.validate spec with
       | Ok _ =>
           write_file slot (fun dir => mkSlotDir (dir_record dir) (Some spec) (dir_cancel dir))
             (o_store o t slot) d
       | Err _ => (Err Internal, d)
       end, [])
  | ReadSpec slot =>
      (match o_store o t slot, d !! slot ≫= dir_spec with
       | None, Some spec => Ok spec
       | None, None => Err Internal
       | Some e, _ => Err e
       end, d, [])
  | WriteCancel slot =>
      (write_file slot (fun dir => mkSlotDir (dir_record dir) (dir_spec dir) true)
         (o_store o t slot) d, [])
  | ReadStatus slot => (o_status o t slot, d, [])
  | ReadLogMeta _ _ => (o_meta o t, d, [])
  | ReadLog _ _ _ _ => (o_log o t, d, [])
  | MarkLost slot => (answer (o_store o t slot), d, [])
  | DeleteSlotDir slot =>
      (answer (o_store o t slot),
       match o_store o t slot with
       | None => delete slot d
       | Some _ =>
           match d !! slot with
           | Some dir => partial_alter (fun _ => o_left o t dir) slot d
           | None => d
           end
       end, [Deleted slot (succeeded (o_store o t slot))])
  | ScrubSlotFiles slot =>
      (answer (o_store o t slot),
       match o_store o t slot, d !! slot with
       | None, Some dir => <[slot := mkSlotDir (dir_record dir) (dir_spec dir) false]> d
       | _, _ => d
       end, [])
  | ValidateAuthenticity slot => (answer (o_store o t slot), d, [])
  | ListSlotDirs =>
      (match o_list o t with
       | None => Ok (List.filter (fun s => (s <? N.of_nat DETACHED_RETAINED_PER_VM)%N)
                       (btree_keys d))
       | Some e => Err e
       end, d, [])
  | StartTransientUnit slot _ =>
      (answer (o_unit o t), d, [Started slot (d !! slot) (succeeded (o_unit o t))])
  | StopUnit slot => (answer (o_unit o t), d, [Stopped slot (succeeded (o_unit o t))])
  | ResetFailed _ => (answer (o_unit o t), d, [])
  | ListManagedUnits => (o_units o t, d, [])
  end.

(** Time passes with every step. *)
Definition pass (o : Oracle) (ms : N) (w : World) : World :=
  mkWorld (shared w) (mutex w) (disk w)
    (Z.to_N (Z.of_N (clock w + ms) + o_elapsed o (tick w))) (tick w + 1) (trace w).

Definition with_shared (s : Shared) (w : World) : World :=
  mkWorld s (mutex w) (disk w) (clock w) (tick w) (trace w).
Definition with_mutex (m : option nat) (w : World) : World :=
  mkWorld (shared w) m (disk w) (clock w) (tick w) (trace w).

(** One step of the task [i]; [None] when it is done or blocked. *)
Definition step (o : Oracle) (i : nat) {A} (p : prog A) (w : World) : option (prog A * World) :=
  match p with
  | Ret _ | Spin => None
  | Lock k =>
      match mutex w with
      | None => Some (k, pass o 0 (with_mutex (Some i) w))
      | Some _ => None
      end
  | Unlock k =>
      if bool_decide (mutex w = Some i) then Some (k, pass o 0 (with_mutex None w)) else None
  | State f k =>
      if bool_decide (mutex w = Some i)
      then let '(r, s) := f (shared w) in Some (k r, pass o 0 (with_shared s w))
      else None
  | Now k => Some (k (clock w), pass o 0 w)
  | Sleep ms k => Some (k, pass o ms w)
  | Call c k =>
      let '(r, d, evs) := respond o (tick w) c (disk w) in
      Some (k r, pass o 0 (mkWorld (shared w) (mutex w) d (clock w) (tick w) (trace w ++ evs)))
  | Send ch v k =>
      let s := shared w in
      Some (k, pass o 0 (with_shared (mkShared (registry s) (<[ch := v]> (channels s))) w))
  | Await ch k =>
      match channels (shared w) !! ch with
      | Some (Finished r) => Some (k (Some r), pass o 0 w)
      | _ => if o_timeout o (tick w) then Some (k None, pass o 0 w) else None
      end
  end.

(** Many tasks under a schedule: a turn of a task that cannot move is
    skipped. *)
Fixpoint run {A} (o : Oracle) (schedule : list nat) (tasks : list (prog A)) (w : World) :
    list (prog A) * World :=
  match schedule with
  | [] => (tasks, w)
  | i :: schedule =>
      match tasks !! i with
      | Some p =>
          match step o i p w with
          | Some (p', w') => run o schedule (<[i := p']> tasks) w'
          | None => run o schedule tasks w
          end
      | None => run o schedule tasks w
      end
  end.

(** One task by itself, for at most [n] steps. *)
Fixpoint run_alone {A} (o : Oracle) (n : nat) (p : prog A) (w : World) : prog A * World :=
  match n with
  | O => (p, w)
  | S n =>
      match step o 0 p w with
      | Some (p', w') => run_alone o n p' w'
      | None => (p, w)
      end
  end.

End Tasks.

(** ** The registry *)

Module Registry.
Import Tasks.
Local Open Scope task_scope.

Definition CREATE_TIMEOUT_MS : N := 10000.
Definition DISPATCH_DEADLINE_MS : N := 30000.
Definition RETENTION_TTL_MS : N := 30 * 60 * 1000.
Definition STATUS_POLL_INTERVAL_MS : N := 100.
Definition CANCEL_DEADLINE_MS : N := 15000.
Definition DETACHED_ACTIVE_PER_VM : N := 8.
Definition DETACHED_STREAM_LOG_BYTES : N := 4 * 1024 * 1024.
Definition DETACHED_LOG_QUOTA_BYTES : N :=
  N.of_nat DETACHED_RETAINED_PER_VM * 2 * DETACHED_STREAM_LOG_BYTES.

Definition standard (max_runtime_sec : N) : DetachedCaps :=
  mkDetachedCaps DETACHED_STREAM_LOG_BYTES DETACHED_STREAM_LOG_BYTES max_runtime_sec.

Definition reserved_bytes (self : DetachedCaps) : N :=
  u64_saturating_add (caps_stdout self) (caps_stderr self).

(** *** Records and entries *)

Definition set_state (s : RecordState) (r : DurableRecord) : DurableRecord :=
  mkDurableRecord (exec_id r) (slot r) (boot_id r) (create_time_unix r) (dispatch_deadline_unix r)
    (argv_sha256 r) s (exit_code r) (term_signal r) (lost r) (terminal_time_unix r).

Definition set_terminal (s : RecordState) (code : option Z) (signal : option N) (at_ : option N)
    (r : DurableRecord) : DurableRecord :=
  mkDurableRecord (exec_id r) (slot r) (boot_id r) (create_time_unix r) (dispatch_deadline_unix r)
    (argv_sha256 r) s code signal (lost r) at_.

Definition set_lost (at_ : N) (r : DurableRecord) : DurableRecord :=
  mkDurableRecord (exec_id r) (slot r) (boot_id r) (create_time_unix r) (dispatch_deadline_unix r)
    (argv_sha256 r) Cancelled (exit_code r) (term_signal r) true (Some at_).

Definition entry_is_terminal (self : SlotEntry) : bool := is_terminal (state (record self)).
Definition hidden (self : SlotEntry) : bool := creating self || dispatch_hold self.

(** The record, and whether the state moved on. *)
Definition set_record (r : DurableRecord) (moved : bool) (e : SlotEntry) : SlotEntry :=
  mkSlotEntry r (caps e) (creating e) (dispatch_hold e)
    (if moved then u64_wrap (generation e + 1) else generation e) (active_counted e)
    (read_guards e) (create_resolution e).

(** An entry that is resolved: neither being created nor held. *)
Definition resolve (e : SlotEntry) : SlotEntry :=
  mkSlotEntry (record e) (caps e) false false (generation e) (active_counted e) (read_guards e)
    None.

Definition set_counted (b : bool) (e : SlotEntry) : SlotEntry :=
  mkSlotEntry (record e) (caps e) (creating e) (dispatch_hold e) (generation e) b (read_guards e)
    (create_resolution e).

Definition set_guards (n : N) (e : SlotEntry) : SlotEntry :=
  mkSlotEntry (record e) (caps e) (creating e) (dispatch_hold e) (generation e) (active_counted e) n
    (create_resolution e).

Definition set_slots (f : gmap N SlotEntry -> gmap N SlotEntry) (s : RegistryState) : RegistryState :=
  mkRegistryState (f (slots s)) (active s) (reserved_log_bytes s) (tombstones s).

Definition put_entry (slot : N) (e : SlotEntry) : RegistryState -> RegistryState :=
  set_slots <[slot := e]>.

Definition free_slot (s : RegistryState) : option N :=
  List.find (fun slot => bool_decide (slots s !! slot = None))
    (map N.of_nat (seq 0 DETACHED_RETAINED_PER_VM)).

Definition find_by_id (s : RegistryState) (id : string) : option N :=
  fst <$> List.find (fun '(_, e) => negb (hidden e) && bool_decide (exec_id (record e) = id))
            (btree_entries (slots s)).

Definition find_any_by_id (s : RegistryState) (id : string) : option N :=
  fst <$> List.find (fun '(_, e) => bool_decide (exec_id (record e) = id))
            (btree_entries (slots s)).

Definition push_tombstone (id : string) (s : RegistryState) : RegistryState :=
  let kept :=
    if bool_decide (DETACHED_RETAINED_PER_VM <= length (tombstones s)) then tl (tombstones s)
    else tombstones s in
  mkRegistryState (slots s) (active s) (reserved_log_bytes s) (kept ++ [id]).

Definition is_tombstoned (s : RegistryState) (id : string) : bool :=
  existsb (fun t => bool_decide (t = id)) (tombstones s).

Definition release_active (slot : N) (s : RegistryState) : RegistryState :=
  match slots s !! slot with
  | Some e =>
      if active_counted e
      then mkRegistryState (<[slot := set_counted false e]> (slots s)) (active s - 1)
             (reserved_log_bytes s) (tombstones s)
      else s
  | None => s
  end.

Definition remove_entry (slot : N) (s : RegistryState) : RegistryState :=
  match slots s !! slot with
  | Some e =>
      mkRegistryState (delete slot (slots s))
        (if active_counted e then active s - 1 else active s)
        (reserved_log_bytes s - reserved_bytes (caps e)) (tombstones s)
  | None => s
  end.

Definition status_to_terminal (status : option StatusPhase) :
    option (RecordState * option Z * option N) :=
  match status with
  | Some (Phase_Exited code) => Some (Exited, Some code, None)
  | Some (Phase_Signaled signal) => Some (Signaled, None, Some (Codec.i32_bits signal))
  | Some Phase_Cancelled => Some (Cancelled, None, None)
  | Some Phase_SpawnFailed | Some Phase_InfraFailed => Some (SpawnFailed, None, None)
  | Some Phase_Started | None => None
  end.

Definition public_state (r : DurableRecord) : ExecState :=
  match state r with
  | Dispatching | Running => St_Running
  | Exited | SpawnFailed => St_Exited
  | Signaled => St_Signaled
  | Cancelled => if lost r then St_LostGuestd else St_Cancelled
  end.

Definition public_outcome (r : DurableRecord) : option ExitOutcome :=
  match state r with
  | Exited => Some (Outcome_Exited (default (-1)%Z (exit_code r)))
  | Signaled => Some (Outcome_Signaled (default 0%N (term_signal r)))
  | SpawnFailed => Some (Outcome_Exited 127)
  | _ => None
  end.

Definition zero_meta : StreamMeta := mkStreamMeta 0 0 0 0 false false false.

Definition map_ring_error (error : FileRing.FileRingError) : ExecError :=
  match error with
  | FileRing.FileRingError_OffsetExpired | FileRing.FileRingError_Busy => OffsetExpired
  | FileRing.FileRingError_OffsetInFuture => OffsetInFuture
  | _ => Internal
  end.

Record ExecListEntryData := mkExecListEntryData {
  le_exec_id : string;
  le_slot : N;
  le_state : ExecState;
  le_create_time_unix : N;
  le_argv_sha256 : string;
  le_stdout_truncated : bool;
  le_stderr_truncated : bool;
  le_dropped_bytes : N
}.

Inductive CreateAdmission : Set :=
| Reserved (slot : N) (resolution : nat)
| ReplayVisible
| ReplayCreating (receiver : nat).

Inductive AdoptKind : Set :=
| Adopt_Terminal (s : RecordState) (code : option Z) (signal : option N)
| Adopt_Running
| Adopt_DispatchHold.

Section registry.
Context (config : RegistryConfig) (argv_hash : ValidatedCommand -> string).

(** *** Sections under the mutex *)

Definition reserve_create (id sha : string) (caps : DetachedCaps) (now : N) (s : Shared) :
    result CreateAdmission ExecError * Shared :=
  let reg := registry s in
  if (DETACHED_ACTIVE_PER_VM <=? active reg)%N then (Err ExecCapacityExceeded, s)
  else
    match free_slot reg with
    | None => (Err ExecCapacityExceeded, s)
    | Some slot =>
        let reserve := reserved_bytes caps in
        if (DETACHED_LOG_QUOTA_BYTES <? u64_saturating_add (reserved_log_bytes reg) reserve)%N
        then (Err RetainedLogQuotaExceeded, s)
        else
          let r := mkDurableRecord id slot (cfg_boot_id config) now
                     (u64_saturating_add now DISPATCH_DEADLINE_MS) sha Dispatching None None false
                     None in
          let ch := length (channels s) in
          let e := mkSlotEntry r caps true false 0 true 0 (Some ch) in
          (Ok (Reserved slot ch),
           mkShared
             (mkRegistryState (<[slot := e]> (slots reg)) (active reg + 1)
                (u64_saturating_add (reserved_log_bytes reg) reserve) (tombstones reg))
             (channels s ++ [Creating]))
    end.

Definition admit_create (requested : bool) (id sha : string) (caps : DetachedCaps) (now : N) (s : Shared) :
    result CreateAdmission ExecError * Shared :=
  let reg := registry s in
  if requested then
    if is_tombstoned reg id then (Err ExecExpired, s)
    else
      match find_any_by_id reg id ≫= fun slot => slots reg !! slot with
      | Some existing =>
          if bool_decide (argv_sha256 (record existing) <> sha) then (Err InvalidArgv, s)
          else if creating existing then
            (match create_resolution existing with
             | Some ch => Ok (ReplayCreating ch)
             | None => Err Internal
             end, s)
          else if dispatch_hold existing then (Err Internal, s)
          else (Ok ReplayVisible, s)
      | None => reserve_create id sha caps now s
      end
  else reserve_create id sha caps now s.

(** The section of [commit_running] and its record. *)
Definition set_running (slot : N) (s : RegistryState) : option DurableRecord * RegistryState :=
  match slots s !! slot with
  | None => (None, s)
  | Some e =>
      let e := if bool_decide (state (record e) = Dispatching)
               then set_record (set_state Running (record e)) true e else e in
      let e := resolve e in
      (Some (record e), put_entry slot e s)
  end.

Definition set_terminal_entry (slot now : N) (terminal : RecordState) (code : option Z)
    (signal : option N) (s : RegistryState) : option DurableRecord * RegistryState :=
  match slots s !! slot with
  | None => (None, s)
  | Some e =>
      let e := if entry_is_terminal e then e
               else set_record (set_terminal terminal code signal (Some now) (record e)) true e in
      let e := resolve e in
      (Some (record e), release_active slot (put_entry slot e s))
  end.

Definition set_lost_entry (slot now : N) (s : RegistryState) :
    option DurableRecord * RegistryState :=
  match slots s !! slot with
  | None => (None, s)
  | Some e =>
      if entry_is_terminal e then (None, s)
      else
        let e := set_record (set_lost now (record e)) true e in
        (Some (record e), release_active slot (put_entry slot e s))
  end.

Definition clear_hold (slot : N) (s : RegistryState) : option DurableRecord * RegistryState :=
  match slots s !! slot with
  | None => (None, s)
  | Some e =>
      if dispatch_hold e then
        let r := if bool_decide (state (record e) = Dispatching)
                 then set_state Running (record e) else record e in
        let e := mkSlotEntry r (caps e) (creating e) false (u64_wrap (generation e + 1))
                   (active_counted e) (read_guards e) (create_resolution e) in
        (Some r, put_entry slot e s)
      else (None, s)
  end.

(** *** Steps shared by the methods *)

Definition write_if (slot : N) (r : option DurableRecord) : prog unit :=
  match r with
  | Some r => perform (WriteRecord slot r) !; Ret tt
  | None => Ret tt
  end.

Definition commit_running (slot : N) : prog unit :=
  let! r := locked (on_registry (set_running slot)) in
  write_if slot r.

Definition commit_terminal (slot : N) (terminal : RecordState) (code : option Z)
    (signal : option N) : prog unit :=
  let! now := now in
  let! r := locked (on_registry (set_terminal_entry slot now terminal code signal)) in
  write_if slot r.

Definition mark_lost (slot : N) : prog unit :=
  let! now := now in
  let! r := locked (on_registry (set_lost_entry slot now)) in
  match r with
  | Some r => perform (MarkLost slot) !; perform (WriteRecord slot r) !; Ret tt
  | None => Ret tt
  end.

Definition stop_and_reset (slot : N) : prog unit :=
  perform (StopUnit slot) !; perform (ResetFailed slot) !; Ret tt.

(** [read_spec] is asked only for a workload whose identity is known. *)
Definition needs_spec (units : list ManagedUnit) (slot : N) : bool :=
  match List.find (unit_of Workload slot) units with
  | Some u => Units.active u && match identity u with Queried _ _ _ _ _ => true | Unqueried => false end
  | None => false
  end.

Definition classify (units : list ManagedUnit) (slot : N) : prog SlotLiveness :=
  let! spec := (if needs_spec units slot then perform (ReadSpec slot) else Ret (Err Internal)) in
  Ret (classify_unit config spec units slot).

Definition unit_liveness (slot : N) : prog SlotLiveness :=
  let! units := perform ListManagedUnits in
  match units with
  | Ok units => classify units slot
  | Err _ => Ret Unknown
  end.

Definition stream_metas (slot : N) : prog (option StreamMeta * option StreamMeta) :=
  let! out := perform (ReadLogMeta slot Stdout) in
  let! err := perform (ReadLogMeta slot Stderr) in
  let flat r := match r with Ok m => m | Err _ => None end in
  Ret (flat out, flat err).

Definition snapshot_for (slot : N) : prog (result ExecSnapshot ExecError) :=
  let! found := locked_get (fun s =>
    option_map (fun e => (record e, generation e)) (slots s !! slot)) in
  match found with
  | None => Ret (Err Internal)
  | Some (r, generation) =>
      let! (out, err) := stream_metas slot in
      let out := default zero_meta out in
      let err := default zero_meta err in
      Ret (Ok (mkExecSnapshot (public_state r) (public_outcome r) generation
        (start_offset out) (end_offset out) (start_offset err) (end_offset err)
        (dropped_bytes out) (dropped_bytes err)
        (truncated out || Meta.lost out) (truncated err || Meta.lost err)))
  end.

Definition is_terminal_slot (slot : N) : prog bool :=
  locked_get (fun s => match slots s !! slot with Some e => entry_is_terminal e | None => false end).

Definition resolve_slot (id : string) : prog (result N ExecError) :=
  locked_get (fun s =>
    match find_by_id s id with
    | Some slot => Ok slot
    | None => Err (if is_tombstoned s id then ExecExpired else ExecNotFound)
    end).

(** [entry.record.state == Dispatching && now < deadline], under the mutex. *)
Definition within_deadline (slot : N) : prog bool :=
  Lock (State (fun s => (slots (registry s) !! slot, s)) (fun e =>
    match e with
    | Some e =>
        if bool_decide (state (record e) = Dispatching)
        then Now (fun t => Unlock (Ret (t <? dispatch_deadline_unix (record e))%N))
        else Unlock (Ret false)
    | None => Unlock (Ret false)
    end)).

(** *** Reconciliation *)

Definition lost_unless_dispatching (slot : N) : prog unit :=
  let! within := within_deadline slot in
  if (within : bool) then Ret tt else mark_lost slot.

Definition reconcile_liveness (slot : N) : prog unit :=
  let! liveness := unit_liveness slot in
  match liveness with
  | Live | Unknown => Ret tt
  | OrphanWorkload =>
      let! stopped := perform (StopUnit slot) in
      match stopped with Err _ => Ret tt | Ok _ => lost_unless_dispatching slot end
  | Foreign =>
      let! stopped := perform (StopUnit slot) in
      match stopped with
      | Err _ => Ret tt
      | Ok _ => perform (ResetFailed slot) !; lost_unless_dispatching slot
      end
  | Absent => lost_unless_dispatching slot
  end.

Definition reconcile_slot (slot : N) : prog unit :=
  let! seen := locked_get (fun s =>
    option_map (fun e => (hidden e, entry_is_terminal e)) (slots s !! slot)) in
  match seen with
  | None => Ret tt
  | Some (hidden, terminal) =>
      if hidden || terminal then Ret tt
      else
        let! status := perform (ReadStatus slot) in
        match status with
        | Ok (Some (Phase_Exited code)) =>
            stop_and_reset slot !; commit_terminal slot Exited (Some code) None
        | Ok (Some (Phase_Signaled signal)) =>
            stop_and_reset slot !;
            commit_terminal slot Signaled None (Some (Codec.i32_bits signal))
        | Ok (Some Phase_Cancelled) =>
            stop_and_reset slot !; commit_terminal slot Cancelled None None
        | Ok (Some Phase_SpawnFailed) =>
            stop_and_reset slot !; commit_terminal slot SpawnFailed None None
        | Ok (Some Phase_Started) => commit_running slot !; reconcile_liveness slot
        | Ok (Some Phase_InfraFailed) | Ok None | Err _ => reconcile_liveness slot
        end
  end.

(** *** Reading *)

Definition inspect (id boot : string) : prog (result ExecSnapshot ExecError) :=
  if bool_decide (boot <> cfg_boot_id config) then Ret (Err StaleSession)
  else try (resolve_slot id) (fun slot => reconcile_slot slot !; snapshot_for slot).

Fixpoint wait_loop (fuel : nat) (slot start : N) (known : option N) (timeout_ms : N) :
    prog (result (ExecSnapshot * bool) ExecError) :=
  match fuel with
  | O => Spin
  | S fuel =>
      reconcile_slot slot !;
      try (snapshot_for slot) (fun snapshot =>
      let terminal := match snap_state snapshot with St_Running => false | _ => true end in
      let changed :=
        match known with
        | Some g => negb (state_generation snapshot =? g)%N
        | None => false
        end in
      if terminal || changed then Ret (Ok (snapshot, false))
      else
        let! t := now in
        if (timeout_ms <=? t - start)%N then Ret (Ok (snapshot, true))
        else sleep STATUS_POLL_INTERVAL_MS !; wait_loop fuel slot start known timeout_ms)
  end.

Definition wait (fuel : nat) (id boot : string) (known : option N) (timeout_ms : N) :
    prog (result (ExecSnapshot * bool) ExecError) :=
  if bool_decide (boot <> cfg_boot_id config) then Ret (Err StaleSession)
  else try (resolve_slot id) (fun slot =>
       let! start := now in wait_loop fuel slot start known timeout_ms).

Definition take_guard (slot : N) (id : string) (s : RegistryState) :
    result unit ExecError * RegistryState :=
  match slots s !! slot with
  | Some e => (Ok tt, put_entry slot (set_guards (read_guards e + 1) e) s)
  | None => (Err (if is_tombstoned s id then ExecExpired else ExecNotFound), s)
  end.

Definition drop_guard (slot : N) (s : RegistryState) : unit * RegistryState :=
  match slots s !! slot with
  | Some e => (tt, put_entry slot (set_guards (read_guards e - 1) e) s)
  | None => (tt, s)
  end.

Definition read_logs (id boot : string) (stream : Stream) (offset max_len : N) :
    prog (result FileRing.RingChunk ExecError) :=
  if bool_decide (boot <> cfg_boot_id config) then Ret (Err StaleSession)
  else
    try (resolve_slot id) (fun slot =>
    try (locked (on_registry (take_guard slot id))) (fun _ =>
    let! chunk := perform (ReadLog slot stream offset max_len) in
    locked (on_registry (drop_guard slot)) !;
    Ret (match chunk with Ok c => Ok c | Err e => Err (map_ring_error e) end))).

Fixpoint each {A} (f : A -> prog unit) (l : list A) : prog unit :=
  match l with [] => Ret tt | a :: l => f a !; each f l end.

Fixpoint list_entries (l : list (N * DurableRecord)) : prog (list ExecListEntryData) :=
  match l with
  | [] => Ret []
  | (slot, r) :: l =>
      let! (out, err) := stream_metas slot in
      let cut m := match m with Some m => truncated m || Meta.lost m | None => false end in
      let dropped m := match m with Some m => dropped_bytes m | None => 0%N end in
      let! rest := list_entries l in
      Ret (mkExecListEntryData (exec_id r) slot (public_state r) (create_time_unix r)
             (argv_sha256 r) (cut out) (cut err) (u64_wrap (dropped out + dropped err)) :: rest)
  end.

Definition visible (s : RegistryState) : list (N * SlotEntry) :=
  List.filter (fun '(_, e) => negb (hidden e)) (btree_entries (slots s)).

Definition list_execs (boot : string) : prog (result (list ExecListEntryData) ExecError) :=
  if bool_decide (boot <> cfg_boot_id config) then Ret (Err StaleSession)
  else
    let! found := locked_get (fun s => map fst (visible s)) in
    each reconcile_slot found !;
    let! entries := locked_get (fun s => map (fun '(slot, e) => (slot, record e)) (visible s)) in
    let! out := list_entries entries in
    Ret (Ok out).

(** *** Creation *)

Definition abort_create (slot : N) : prog unit :=
  stop_and_reset slot !;
  perform (DeleteSlotDir slot) !;
  locked (on_registry (fun s => (tt, remove_entry slot s))).

Definition persist_dispatch (slot : N) (spec : ExecSpec.ExecSpec) : prog (result unit ExecError) :=
  try (perform (PrepareSlotDir slot)) (fun _ =>
  try (perform (ScrubSlotFiles slot)) (fun _ =>
  try (locked_get (fun s => match slots s !! slot with
                            | Some e => Ok (record e)
                            | None => Err Internal
                            end)) (fun r =>
  try (perform (WriteRecord slot r)) (fun _ =>
  perform (WriteSpec slot spec))))).

Definition committed (slot : N) (id : string) : prog (result (string * ExecSnapshot) ExecError) :=
  try (snapshot_for slot) (fun snapshot => Ret (Ok (id, snapshot))).

Fixpoint await_create_resolution (fuel : nat) (slot : N) (id : string) (start : N) :
    prog (result (string * ExecSnapshot) ExecError) :=
  match fuel with
  | O => Spin
  | S fuel =>
      let! status := perform (ReadStatus slot) in
      match status with
      | Err e => abort_create slot !; Ret (Err e)
      | Ok (Some Phase_Started) => commit_running slot !; committed slot id
      | Ok (Some (Phase_Exited code)) =>
          commit_terminal slot Exited (Some code) None !; committed slot id
      | Ok (Some (Phase_Signaled signal)) =>
          commit_terminal slot Signaled None (Some (Codec.i32_bits signal)) !; committed slot id
      | Ok (Some Phase_Cancelled) =>
          commit_terminal slot Cancelled None None !; committed slot id
      | Ok (Some Phase_SpawnFailed) =>
          commit_terminal slot SpawnFailed None None !; committed slot id
      | Ok (Some Phase_InfraFailed) => abort_create slot !; Ret (Err RetainedLogPathUnsafe)
      | Ok None =>
          let! t := now in
          if (CREATE_TIMEOUT_MS <=? t - start)%N then
            let! liveness := unit_liveness slot in
            match liveness with
            | Live | Unknown => commit_running slot !; committed slot id
            | Absent | Foreign | OrphanWorkload => abort_create slot !; Ret (Err Internal)
            end
          else
            sleep STATUS_POLL_INTERVAL_MS !; await_create_resolution fuel slot id start
      end
  end.

Definition execute_reserved_create (fuel : nat) (slot : N) (id : string)
    (command : ValidatedCommand) (caps : DetachedCaps) :
    prog (result (string * ExecSnapshot) ExecError) :=
  let spec := build_spec command caps config slot in
  let! persisted := persist_dispatch slot spec in
  match persisted with
  | Err e => abort_create slot !; Ret (Err e)
  | Ok _ =>
      let! started := perform (StartTransientUnit slot (caps_runtime caps)) in
      match started with
      | Err _ => abort_create slot !; Ret (Err Internal)
      | Ok _ => let! start := now in await_create_resolution fuel slot id start
      end
  end.

Definition finished (r : result (string * ExecSnapshot) ExecError) : CreateResolution :=
  Finished (match r with Ok (_, snapshot) => Ok snapshot | Err e => Err e end).

(** The rest of [create_inner], once it is admitted. *)
Definition run_admission (fuel : nat) (boot id : string) (command : ValidatedCommand)
    (caps : DetachedCaps) (admission : CreateAdmission) :
    prog (result (string * ExecSnapshot) ExecError) :=
  match admission with
  | ReplayVisible => try (inspect id boot) (fun snapshot => Ret (Ok (id, snapshot)))
  | ReplayCreating ch =>
      Await ch (fun r =>
        match r with
        | Some (Ok snapshot) => Ret (Ok (id, snapshot))
        | Some (Err e) => Ret (Err e)
        | None => Ret (Err Internal)
        end)
  | Reserved slot ch =>
      let! r := execute_reserved_create fuel slot id command caps in
      Send ch (finished r) (Ret r)
  end.

Definition create_inner (fuel : nat) (boot : string) (command : ValidatedCommand)
    (caps : DetachedCaps) (requested : option string) :
    prog (result (string * ExecSnapshot) ExecError) :=
  if bool_decide (boot <> cfg_boot_id config) then Ret (Err StaleSession)
  else
    try (match requested with
         | Some id => Ret (if is_valid_exec_id id then Ok id else Err InvalidArgv)
         | None => perform NextExecId
         end) (fun id =>
    let! t := now in
    try (locked (admit_create (bool_decide (is_Some requested)) id (argv_hash command) caps t))
      (run_admission fuel boot id command caps)).

(** *** Cancellation *)

Fixpoint await_cancelled (fuel : nat) (slot start : N) : prog bool :=
  match fuel with
  | O => Spin
  | S fuel =>
      reconcile_slot slot !;
      let! terminal := is_terminal_slot slot in
      if (terminal : bool) then Ret true
      else
        let! t := now in
        if (CANCEL_DEADLINE_MS <=? t - start)%N then Ret false
        else sleep STATUS_POLL_INTERVAL_MS !; await_cancelled fuel slot start
  end.

Definition cancel_backstop (slot : N) : prog unit :=
  let! r := perform (StopUnit slot) in
  let stopped := is_ok r in
  (if stopped then perform (ResetFailed slot) !; Ret tt else Ret tt) !;
  reconcile_slot slot !;
  let! terminal := is_terminal_slot slot in
  if (terminal : bool) then Ret tt
  else if stopped then mark_lost slot
  else
    let! liveness := unit_liveness slot in
    match liveness with Absent => mark_lost slot | _ => Ret tt end.

Definition cancel (fuel : nat) (id boot : string) : prog (result bool ExecError) :=
  if bool_decide (boot <> cfg_boot_id config) then Ret (Err StaleSession)
  else
    try (resolve_slot id) (fun slot =>
    reconcile_slot slot !;
    let! terminal := is_terminal_slot slot in
    if (terminal : bool) then Ret (Ok true)
    else
      try (perform (WriteCancel slot)) (fun _ =>
      let! start := now in
      let! terminal := await_cancelled fuel slot start in
      if (terminal : bool) then Ret (Ok false)
      else cancel_backstop slot !; Ret (Ok false))).

(** *** The reaper *)

(** The directory is deleted while the mutex is held. *)
Definition gc_slot (slot : N) : prog unit :=
  stop_and_reset slot !;
  Lock (State (fun s => (slots (registry s) !! slot, s)) (fun e =>
    match e with
    | None => Unlock (Ret tt)
    | Some e =>
        if (0 <? read_guards e)%N then Unlock (Ret tt)
        else
          Call (DeleteSlotDir slot) (fun r =>
            match r with
            | Err _ => Unlock (Ret tt)
            | Ok _ =>
                State (on_registry (fun s =>
                  (tt, match slots s !! slot with
                       | Some e => push_tombstone (exec_id (record e)) (remove_entry slot s)
                       | None => remove_entry slot s
                       end))) (fun _ => Unlock (Ret tt))
            end)
    end)).

Fixpoint sweep_units (adopted stopped : list N) (units : list ManagedUnit) : prog unit :=
  match units with
  | [] => Ret tt
  | u :: units =>
      let n := mu_slot u in
      if bool_decide (n ∈ adopted) || bool_decide (n ∈ stopped)
      then sweep_units adopted stopped units
      else stop_and_reset n !; sweep_units adopted (n :: stopped) units
  end.

Definition sweep_orphan_units : prog unit :=
  let! units := perform ListManagedUnits in
  match units with
  | Err _ => Ret tt
  | Ok units =>
      let! adopted := locked_get (fun s => btree_keys (slots s)) in
      sweep_units adopted [] units
  end.

Definition promote_dispatch_hold (slot : N) : prog unit :=
  let! r := locked (on_registry (clear_hold slot)) in
  write_if slot r.

Definition delete_dispatch_hold (slot : N) : prog unit :=
  let! r := perform (DeleteSlotDir slot) in
  match r with
  | Ok _ => locked (on_registry (fun s => (tt, remove_entry slot s)))
  | Err _ => Ret tt
  end.

Definition resolve_hold_liveness (slot : N) (past_deadline : bool) : prog unit :=
  let! liveness := unit_liveness slot in
  match liveness with
  | Live => promote_dispatch_hold slot
  | Unknown => Ret tt
  | OrphanWorkload | Foreign =>
      let! stopped := perform (StopUnit slot) in
      match stopped with
      | Err _ => Ret tt
      | Ok _ =>
          perform (ResetFailed slot) !;
          if past_deadline then delete_dispatch_hold slot else Ret tt
      end
  | Absent => if past_deadline then delete_dispatch_hold slot else Ret tt
  end.

Definition resolve_dispatch_hold (slot : N) : prog unit :=
  let! past := Lock (State (fun s => (slots (registry s) !! slot, s)) (fun e =>
    match e with
    | Some e => Now (fun t => Unlock (Ret (Some (dispatch_deadline_unix (record e) <=? t)%N)))
    | None => Unlock (Ret None)
    end)) in
  match past with
  | None => Ret tt
  | Some past_deadline =>
      let! status := perform (ReadStatus slot) in
      match status with
      | Ok (Some Phase_Started) => promote_dispatch_hold slot
      | Ok (Some Phase_InfraFailed) => stop_and_reset slot !; delete_dispatch_hold slot
      | Ok None | Err _ => resolve_hold_liveness slot past_deadline
      | Ok (Some phase) =>
          match status_to_terminal (Some phase) with
          | Some (terminal, code, signal) =>
              stop_and_reset slot !; commit_terminal slot terminal code signal
          | None => resolve_hold_liveness slot past_deadline
          end
      end
  end.

Definition reap_slot (slot : N) : prog unit :=
  let! seen := locked_get (fun s =>
    option_map (fun e =>
      (creating e, dispatch_hold e, entry_is_terminal e, terminal_time_unix (record e)))
      (slots s !! slot)) in
  match seen with
  | None => Ret tt
  | Some (creating, dispatch_hold, terminal, terminal_time) =>
      if (creating : bool) then Ret tt
      else if (dispatch_hold : bool) then resolve_dispatch_hold slot
      else if negb terminal then reconcile_slot slot
      else
        match terminal_time with
        | None => Ret tt
        | Some at_ =>
            let! t := now in
            if (RETENTION_TTL_MS <=? t - at_)%N then gc_slot slot else Ret tt
        end
  end.

Definition reap_once : prog unit :=
  sweep_orphan_units !;
  let! found := locked_get (fun s => btree_keys (slots s)) in
  each reap_slot found.

(** *** Taking the records over at startup *)

Definition adopted_entry (now : N) (r : DurableRecord) (kind : AdoptKind) : SlotEntry :=
  let '(r, active_counted, dispatch_hold) :=
    match kind with
    | Adopt_Terminal s code signal =>
        (set_terminal s code signal
           (Some (default now (terminal_time_unix r))) r, false, false)
    | Adopt_Running => (set_state Running r, true, false)
    | Adopt_DispatchHold => (r, true, true)
    end in
  mkSlotEntry r (standard (cfg_max_runtime_sec config)) false dispatch_hold 0 active_counted 0 None.

Definition insert_entry (slot : N) (e : SlotEntry) (s : RegistryState) : RegistryState :=
  mkRegistryState (<[slot := e]> (slots s)) (if active_counted e then active s + 1 else active s)
    (u64_saturating_add (reserved_log_bytes s) (reserved_bytes (caps e))) (tombstones s).

(** The record is written while the mutex is held. *)
Definition insert_adopted (slot : N) (r : DurableRecord) (kind : AdoptKind) : prog unit :=
  let! now := now in
  let e := adopted_entry now r kind in
  Lock (State (on_registry (fun s => (tt, insert_entry slot e s))) (fun _ =>
    Call (WriteRecord slot (record e)) (fun _ => Unlock (Ret tt)))).

Definition adopt_no_unit (slot : N) (r : DurableRecord) : prog unit :=
  if bool_decide (state r = Dispatching) then
    let! t := now in
    if (t <? dispatch_deadline_unix r)%N then insert_adopted slot r Adopt_DispatchHold
    else
      let! deleted := perform (DeleteSlotDir slot) in
      match deleted with
      | Err _ => insert_adopted slot r Adopt_DispatchHold
      | Ok _ => Ret tt
      end
  else insert_adopted slot r Adopt_Running !; mark_lost slot.

Definition quarantine (slot : N) : prog unit :=
  stop_and_reset slot !; perform (DeleteSlotDir slot) !; Ret tt.

(** The matrix of a record that is to be trusted. *)
Definition adopt_record (slot : N) (r : DurableRecord) (status : option StatusPhase)
    (liveness : SlotLiveness) : prog unit :=
  match status_to_terminal status with
  | Some (terminal, code, signal) =>
      match status with
      | Some Phase_InfraFailed => quarantine slot
      | _ =>
          match liveness with
          | Live | OrphanWorkload | Foreign => stop_and_reset slot
          | Absent | Unknown => Ret tt
          end !;
          insert_adopted slot r (Adopt_Terminal terminal code signal)
      end
  | None =>
      match liveness with
      | Live => insert_adopted slot r Adopt_Running
      | Foreign =>
          let! stopped := perform (StopUnit slot) in
          match stopped with
          | Err _ => insert_adopted slot r Adopt_Running
          | Ok _ => perform (ResetFailed slot) !; adopt_no_unit slot r
          end
      | OrphanWorkload =>
          let! stopped := perform (StopUnit slot) in
          match stopped with
          | Err _ => insert_adopted slot r Adopt_Running
          | Ok _ => adopt_no_unit slot r
          end
      | Absent => adopt_no_unit slot r
      | Unknown =>
          if bool_decide (state r = Dispatching)
          then insert_adopted slot r Adopt_DispatchHold
          else insert_adopted slot r Adopt_Running
      end
  end.

Definition adopt_slot (slot : N) (liveness : SlotLiveness) : prog unit :=
  let! authentic := perform (ValidateAuthenticity slot) in
  match authentic with
  | Err _ => quarantine slot
  | Ok _ =>
      let! r := perform (ReadRecord slot) in
      match r with
      | Err _ => perform (DeleteSlotDir slot) !; Ret tt
      | Ok r =>
          if negb (is_valid_exec_id (exec_id r)) then perform (DeleteSlotDir slot) !; Ret tt
          else if bool_decide (boot_id r <> cfg_boot_id config) then quarantine slot
          else
            let! status := perform (ReadStatus slot) in
            adopt_record slot r (match status with Ok s => s | Err _ => None end) liveness
      end
  end.

Definition adopt_found (units : option (list ManagedUnit)) (slot : N) : prog unit :=
  let! liveness := match units with Some units => classify units slot | None => Ret Unknown end in
  adopt_slot slot liveness.

Fixpoint stop_unrecorded (adopted : list N) (units : list ManagedUnit) : prog unit :=
  match units with
  | [] => Ret tt
  | u :: units =>
      (if bool_decide (mu_slot u ∈ adopted) then Ret tt
       else stop_and_reset (mu_slot u)) !;
      stop_unrecorded adopted units
  end.

(** The oldest terminal record. *)
Definition eviction_victim (s : RegistryState) : option N :=
  if (reserved_log_bytes s <=? DETACHED_LOG_QUOTA_BYTES)%N then None
  else
    fst <$> foldl (fun best '(slot, e) =>
      let key := default (2 ^ 64 - 1)%N (terminal_time_unix (record e)) in
      match best with
      | Some (_, least) => if (key <? least)%N then Some (slot, key) else best
      | None => Some (slot, key)
      end) None (List.filter (fun '(_, e) => entry_is_terminal e) (btree_entries (slots s))).

Fixpoint evict_over_budget (fuel : nat) : prog unit :=
  match fuel with
  | O => Spin
  | S fuel =>
      let! victim := locked_get eviction_victim in
      match victim with
      | Some slot => gc_slot slot !; evict_over_budget fuel
      | None => Ret tt
      end
  end.

Definition reconcile_on_startup (fuel : nat) : prog unit :=
  let! found := perform ListSlotDirs in
  match found with
  | Err _ => Ret tt
  | Ok found =>
      let! units := perform ListManagedUnits in
      let units := match units with Ok units => Some units | Err _ => None end in
      each (adopt_found units) found !;
      match units with
      | Some units =>
          let! adopted := locked_get (fun s => btree_keys (slots s)) in
          stop_unrecorded adopted units
      | None => Ret tt
      end !;
      evict_over_budget fuel
  end.

End registry.
End Registry.
