(* ===== verification/DetachedSound.v ===== *)
(** * The registry of detached commands: what holds of every interleaving

    [Module Interleaving] says when a program keeps an invariant under the
    mutex, and shows that worlds of such programs keep it under every schedule
    and never block on a lock that is not given back.  [Module Accounts] is
    the registry's invariant, which every method keeps. *)

From S2P Require Import Prelude Ids Streams Frame FileRing Text ExecFiles DetachedUnits Detached.
Import Meta ExecRecord Units Command Identity Tasks Registry.
Close Scope rust_scope.

(** ** Programs that keep an invariant under the mutex *)

Module Interleaving.

(** The slot store is called synchronously; the unit manager is awaited. *)
Definition awaits {R : Set} (c : call R) : bool :=
  match c with
  | StartTransientUnit _ _ | StopUnit _ | ResetFailed _ | ListManagedUnits => true
  | _ => false
  end.

Section safe.
Context (Inv : Shared -> Prop) (allowed : forall R : Set, call R -> R -> Prop).
Arguments allowed {R}.

(** [held]: does the task hold the mutex?  It never locks twice, never awaits
    with the lock, touches the state only with it, and gives it back. *)
Fixpoint safe {A} (held : bool) (p : prog A) : Prop :=
  match p with
  | Ret _ | Spin => held = false
  | Lock k => held = false /\ safe true k
  | Unlock k => held = true /\ safe false k
  | State f k => held = true /\ (forall s, Inv s -> Inv (snd (f s))) /\ forall r, safe true (k r)
  | Now k => forall t, safe held (k t)
  | Sleep _ k => held = false /\ safe false k
  | Call c k => (held = true -> awaits c = false) /\ forall r, allowed c r -> safe held (k r)
  | Send _ _ k => held = false /\ safe false k
  | Await _ k => held = false /\ forall r, safe false (k r)
  end.

Lemma safe_bind {A B} (p : prog A) (f : A -> prog B) held :
  safe held p -> (forall a, safe false (f a)) -> safe held (bind p f).
Proof.
  intros Hp Hf. revert held Hp. induction p; intros held Hp; cbn in *; naive_solver.
Qed.

Lemma safe_locked {R : Set} (f : Shared -> R * Shared) :
  (forall s, Inv s -> Inv (snd (f s))) -> safe false (locked f).
Proof. cbn. naive_solver. Qed.

Lemma safe_locked_get {R : Set} (f : RegistryState -> R) : safe false (locked_get f).
Proof. by apply safe_locked. Qed.

Lemma safe_perform {R : Set} (c : call R) : safe false (perform c).
Proof. cbn. naive_solver. Qed.

Lemma safe_try {A B E} (p : prog (result A E)) (k : A -> prog (result B E)) :
  safe false p -> (forall a, safe false (k a)) -> safe false (try p k).
Proof. intros Hp Hk. apply safe_bind; [done|]. intros []; [apply Hk|done]. Qed.

Lemma safe_each {A} (f : A -> prog unit) l : (forall a, safe false (f a)) -> safe false (each f l).
Proof. intros Hf. induction l; [done|]. cbn. by apply safe_bind. Qed.

Context (o : Oracle).
Hypothesis Inv_send : forall reg chs chs',
  length chs' = length chs -> Inv (mkShared reg chs) -> Inv (mkShared reg chs').
Hypothesis answers : forall (R : Set) (c : call R) t d, allowed c (respond o t c d).1.1.

Definition holds (w : World) (i : nat) : bool := bool_decide (mutex w = Some i).

Record world_ok {A} (tasks : list (prog A)) (w : World) : Prop := mkWorldOk {
  ok_inv : Inv (shared w);
  ok_tasks : forall i p, tasks !! i = Some p -> safe (holds w i) p;
  ok_holder : forall i, mutex w = Some i -> i < length tasks
}.

Lemma step_ok {A} i (p p' : prog A) w w' :
  Inv (shared w) -> safe (holds w i) p -> step o i p w = Some (p', w') ->
  Inv (shared w') /\ safe (holds w' i) p'
  /\ (mutex w' = mutex w \/ (mutex w = None /\ mutex w' = Some i)
      \/ (mutex w = Some i /\ mutex w' = None)).
Proof.
  intros HI Hs. unfold holds in *.
  destruct p; cbn [step]; intros E; cbn [safe] in Hs.
  - done.
  - destruct (mutex w) eqn:Em; [done|]. simplify_eq. cbn. rewrite bool_decide_eq_true_2 by done.
    naive_solver.
  - destruct (bool_decide_reflect (mutex w = Some i)) as [Em|]; [|done]. simplify_eq. cbn.
    naive_solver.
  - destruct (bool_decide_reflect (mutex w = Some i)) as [Em|]; [|done].
    destruct (f (shared w)) as [r s] eqn:Ef. simplify_eq. cbn.
    destruct Hs as (_ & Hf & Hk). specialize (Hf _ HI). rewrite Ef in Hf.
    rewrite bool_decide_eq_true_2 by done. naive_solver.
  - simplify_eq. cbn. naive_solver.
  - simplify_eq. cbn. destruct Hs as [-> Hs]. naive_solver.
  - pose proof (answers R c (tick w) (disk w)) as Ha.
    destruct (respond o (tick w) c (disk w)) as [[r d] evs] eqn:Er. simplify_eq. cbn in *.
    naive_solver.
  - simplify_eq. cbn. destruct Hs as [-> Hs]. split; [|naive_solver].
    destruct (shared w) as [reg chs]. cbn. eapply Inv_send; [|done]. apply length_insert.
  - destruct Hs as [Hh Hs]. repeat case_match; simplify_eq; cbn; rewrite Hh; naive_solver.
  - done.
Qed.

Lemma world_step {A} i (tasks : list (prog A)) p p' w w' :
  world_ok tasks w -> tasks !! i = Some p -> step o i p w = Some (p', w') ->
  world_ok (<[i := p']> tasks) w'.
Proof.
  intros [HI Ht Hh] Hi Hstep.
  destruct (step_ok i p p' w w' HI (Ht i p Hi) Hstep) as (HI' & Hp' & Hm).
  pose proof (lookup_lt_Some _ _ _ Hi) as Hlt.
  split; [done| |].
  - intros j q [(-> & <- & _)|[Hne Hj]]%list_lookup_insert_Some; [done|].
    specialize (Ht j q Hj). unfold holds in *.
    assert (bool_decide (mutex w' = Some j) = bool_decide (mutex w = Some j)) as ->; [|done].
    apply bool_decide_ext. destruct Hm as [->|[[-> ->]|[-> ->]]]; split; congruence.
  - intros j Hj. rewrite length_insert. destruct Hm as [Hm|[[_ Hm]|[_ Hm]]]; rewrite Hm in Hj;
      simplify_eq; auto.
Qed.

Lemma run_ok {A} schedule (tasks : list (prog A)) w :
  world_ok tasks w ->
  world_ok (run o schedule tasks w).1 (run o schedule tasks w).2.
Proof.
  revert tasks w. induction schedule as [|i schedule IH]; intros tasks w Hok; [done|].
  cbn [run]. destruct (tasks !! i) as [p|] eqn:Hi; [|by apply IH].
  destruct (step o i p w) as [[p' w']|] eqn:Hs; [|by apply IH].
  apply IH. by eapply world_step.
Qed.

(** Whoever holds the lock can move. *)
Lemma holder_moves {A} (tasks : list (prog A)) w i :
  world_ok tasks w -> mutex w = Some i ->
  exists p, tasks !! i = Some p /\ is_Some (step o i p w).
Proof.
  intros [_ Ht Hh] Hm. destruct (lookup_lt_is_Some_2 tasks i (Hh i Hm)) as [p Hp].
  exists p. split; [done|]. specialize (Ht i p Hp). unfold holds in Ht.
  rewrite bool_decide_eq_true_2 in Ht by done.
  destruct p; cbn [safe] in Ht; destruct_and? ; try done; cbn [step];
    rewrite ?bool_decide_eq_true_2 by done; try (by eexists).
  - destruct (f (shared w)). by eexists.
  - destruct (respond _ _ _ _) as [[? ?] ?]. by eexists.
Qed.

End safe.

Create HintDb safe.
#[export] Hint Resolve safe_bind safe_locked_get safe_perform safe_try safe_each : safe.

End Interleaving.

(** ** The accounts *)

Module Accounts.
Import Interleaving.

(** The sum of a quantity over the entries. *)
Definition total (f : SlotEntry -> N) (m : gmap N SlotEntry) : N :=
  map_fold (fun _ e acc => (f e + acc)%N) 0%N m.

Lemma total_insert f m i e : m !! i = None -> total f (<[i := e]> m) = (f e + total f m)%N.
Proof. intros Hi. unfold total. rewrite map_fold_insert_L; [done|intros; lia|done]. Qed.

Lemma total_delete f m i e : m !! i = Some e -> total f m = (f e + total f (delete i m))%N.
Proof.
  intros Hi. rewrite <- (insert_delete_id m i e Hi) at 1. by rewrite total_insert by apply lookup_delete_eq.
Qed.

Lemma total_replace f m i e e' :
  m !! i = Some e -> (total f (<[i := e']> m) + f e = f e' + total f m)%N.
Proof.
  intros Hi. rewrite (total_delete f m i e Hi), <- insert_delete_eq.
  rewrite total_insert by apply lookup_delete_eq. lia.
Qed.

Definition counts (e : SlotEntry) : N := if active_counted e then 1 else 0.
Definition reserves (e : SlotEntry) : N := reserved_bytes (caps e).

(** [limit]: the concurrency the registry may reach; [named]: the ids that
    only requests use. *)
Record registry_ok (limit : N) (named : string -> Prop) (s : Shared) : Prop := mkRegistryOk {
  ok_slots : forall i e, slots (registry s) !! i = Some e ->
    (i < N.of_nat DETACHED_RETAINED_PER_VM)%N /\ active_counted e = negb (entry_is_terminal e)
    /\ (state (record e) = Dispatching -> hidden e = true);
  ok_active : active (registry s) = total counts (slots (registry s));
  ok_limit : (active (registry s) <= limit)%N;
  ok_reserved : reserved_log_bytes (registry s) = total reserves (slots (registry s));
  ok_quota : (reserved_log_bytes (registry s) <= DETACHED_LOG_QUOTA_BYTES)%N;
  ok_tombstones : length (tombstones (registry s)) <= DETACHED_RETAINED_PER_VM;
  ok_channels : forall i e, slots (registry s) !! i = Some e -> creating e = true ->
    exists ch, create_resolution e = Some ch /\ ch < length (channels s);
  ok_ids : forall i j e e', slots (registry s) !! i = Some e -> slots (registry s) !! j = Some e' ->
    exec_id (record e) = exec_id (record e') -> named (exec_id (record e)) -> i = j
}.

Section accounts.
Context (limit : N) (named : string -> Prop).

Notation ok := (registry_ok limit named).

(** *** Replacing an entry *)

Record succeeds (e e' : SlotEntry) : Prop := mkSucceeds {
  su_caps : caps e' = caps e;
  su_id : exec_id (record e') = exec_id (record e);
  su_counted : active_counted e' = negb (entry_is_terminal e');
  su_released : active_counted e' = true -> active_counted e = true;
  su_creating : creating e' = true ->
    creating e = true /\ create_resolution e' = create_resolution e;
  su_hidden : state (record e') = Dispatching -> hidden e' = true
}.

Definition replaced (i : N) (e e' : SlotEntry) (s : RegistryState) : RegistryState :=
  mkRegistryState (<[i := e']> (slots s))
    (if active_counted e && negb (active_counted e') then active s - 1 else active s)%N
    (reserved_log_bytes s) (tombstones s).

Lemma replace_ok i e e' reg chs :
  ok (mkShared reg chs) -> slots reg !! i = Some e -> succeeds e e' ->
  ok (mkShared (replaced i e e' reg) chs).
Proof.
  intros [Hs Ha Hl Hr Hq Ht Hc Hid] Hi [Scaps Sid Scount Srel Screate Shidden]. cbn in *.
  pose proof (total_replace counts _ i e e' Hi) as Tc.
  pose proof (total_replace reserves _ i e e' Hi) as Tr.
  assert (reserves e' = reserves e) as Er by (unfold reserves; by rewrite Scaps).
  split; cbn.
  - intros j x [[<- <-]|[_ Hj]]%lookup_insert_Some; [|eauto]. split; [by eapply Hs|by split].
  - unfold counts in Tc at 2 3. destruct (active_counted e), (active_counted e');
      cbn; naive_solver lia.
  - destruct (_ && _); lia.
  - lia.
  - lia.
  - done.
  - intros j x [[<- <-]|[_ Hj]]%lookup_insert_Some Hx; [|eauto].
    destruct (Screate Hx) as [He ->]. eauto.
  - assert (Hback : forall j x, <[i := e']> (slots reg) !! j = Some x ->
      exists y, slots reg !! j = Some y /\ exec_id (record y) = exec_id (record x)).
    { intros j x [[<- <-]|[_ Hj]]%lookup_insert_Some; [exists e; by rewrite Sid|by exists x]. }
    intros j k x y (x0 & Hj & Ex)%Hback (y0 & Hk & Ey)%Hback Exy Hn.
    apply (Hid j k x0 y0 Hj Hk); by rewrite Ex, ?Ey.
Qed.

Lemma put_entry_replaced i e e' s :
  slots s !! i = Some e -> active_counted e' = active_counted e -> put_entry i e' s = replaced i e e' s.
Proof.
  intros Hi He. unfold put_entry, set_slots, replaced. rewrite He. by destruct (active_counted e).
Qed.

Lemma release_replaced i e e' s :
  slots s !! i = Some e -> active_counted e' = active_counted e ->
  release_active i (put_entry i e' s) = replaced i e (set_counted false e') s.
Proof.
  intros Hi He. unfold release_active, put_entry, set_slots, replaced. cbn.
  rewrite lookup_insert_eq, He. destruct (active_counted e) eqn:Ec; cbn.
  - by rewrite insert_insert_eq.
  - do 2 f_equal. destruct e'; cbn in *. by rewrite He.
Qed.

Lemma entry_counted i e s :
  ok s -> slots (registry s) !! i = Some e -> active_counted e = negb (entry_is_terminal e).
Proof. intros Hok Hi. by eapply ok_slots. Qed.

Ltac entry_case s i :=
  destruct (slots (registry s) !! i) as [e|] eqn:Hi; cbn; [|by destruct s].

Lemma set_running_ok i s : ok s -> ok (snd (on_registry (set_running i) s)).
Proof.
  intros Hok. unfold on_registry, set_running. entry_case s i.
  pose proof (entry_counted i e s Hok Hi) as Hc. destruct s as [reg chs]. cbn in *.
  set (e' := if bool_decide _ then _ else _).
  assert (active_counted (resolve e') = active_counted e) as Hsame
    by (unfold e'; by case_bool_decide).
  rewrite (put_entry_replaced i e (resolve e')) by done. apply replace_ok; [done..|].
  unfold e' in *. case_bool_decide as Hd; split; try done.
  all: rewrite ?Hsame, Hc; unfold entry_is_terminal; cbn; by rewrite ?Hd.
Qed.

Lemma set_terminal_entry_ok i now t code signal s :
  is_terminal t = true -> ok s -> ok (snd (on_registry (set_terminal_entry i now t code signal) s)).
Proof.
  intros Ht Hok. unfold on_registry, set_terminal_entry. entry_case s i.
  destruct s as [reg chs]. cbn in *.
  set (e' := if entry_is_terminal e then _ else _).
  rewrite (release_replaced i e (resolve e')) by (try done; unfold e'; by destruct (entry_is_terminal e)).
  apply replace_ok; [done..|].
  unfold e'. destruct (entry_is_terminal e) eqn:Et; split; try done; cbn.
  - unfold entry_is_terminal in *. cbn. by rewrite Et.
  - intros Hd. unfold entry_is_terminal in Et. by rewrite Hd in Et.
  - unfold entry_is_terminal. cbn. by rewrite Ht.
  - intros ->. done.
Qed.

Lemma set_lost_entry_ok i now s : ok s -> ok (snd (on_registry (set_lost_entry i now) s)).
Proof.
  intros Hok. unfold on_registry, set_lost_entry. entry_case s i.
  destruct (entry_is_terminal e) eqn:Et; [by destruct s|]. destruct s as [reg chs]. cbn in *.
  rewrite (release_replaced i e) by done. by apply replace_ok.
Qed.

Lemma clear_hold_ok i s : ok s -> ok (snd (on_registry (clear_hold i) s)).
Proof.
  intros Hok. unfold on_registry, clear_hold. entry_case s i.
  pose proof (entry_counted i e s Hok Hi) as Hc.
  destruct (dispatch_hold e) eqn:Et; [|by destruct s]. destruct s as [reg chs]. cbn in *.
  rewrite (put_entry_replaced i e) by done. apply replace_ok; [done..|].
  split; try done; cbn; [by case_bool_decide| |by case_bool_decide].
  rewrite Hc. unfold entry_is_terminal. cbn. case_bool_decide as Hd; cbn; by rewrite ?Hd.
Qed.

Lemma set_guards_ok i n e reg chs :
  ok (mkShared reg chs) -> slots reg !! i = Some e ->
  ok (mkShared (put_entry i (set_guards n e) reg) chs).
Proof.
  intros Hok Hi. rewrite (put_entry_replaced i e) by done. apply replace_ok; [done..|].
  destruct (ok_slots _ _ _ Hok i e Hi) as (_ & ? & ?). by split.
Qed.

Lemma take_guard_ok i id s : ok s -> ok (snd (on_registry (take_guard i id) s)).
Proof.
  intros Hok. unfold on_registry, take_guard. entry_case s i. destruct s. by apply set_guards_ok.
Qed.

Lemma drop_guard_ok i s : ok s -> ok (snd (on_registry (drop_guard i) s)).
Proof.
  intros Hok. unfold on_registry, drop_guard. entry_case s i. destruct s. by apply set_guards_ok.
Qed.

(** *** Removing an entry *)

Lemma remove_entry_ok i reg chs : ok (mkShared reg chs) -> ok (mkShared (remove_entry i reg) chs).
Proof.
  intros Hok. unfold remove_entry. destruct (slots reg !! i) as [e|] eqn:Hi; [|done].
  destruct Hok as [Hs Ha Hl Hr Hq Ht Hc Hid]. cbn in *.
  pose proof (total_delete counts _ i e Hi) as Tc.
  pose proof (total_delete reserves _ i e Hi) as Tr.
  unfold counts in Tc at 2. unfold reserves in Tr at 2.
  split; cbn; try done.
  - intros j x [_ Hj]%lookup_delete_Some. eauto.
  - destruct (active_counted e); lia.
  - destruct (active_counted e); lia.
  - lia.
  - lia.
  - intros j x [_ Hj]%lookup_delete_Some. eauto.
  - intros j k x y [_ Hj]%lookup_delete_Some [_ Hk]%lookup_delete_Some. eauto.
Qed.

Lemma remove_ok i s : ok s -> ok (snd (on_registry (fun reg => (tt, remove_entry i reg)) s)).
Proof. destruct s. apply remove_entry_ok. Qed.

Lemma push_tombstone_ok id reg chs :
  ok (mkShared reg chs) -> ok (mkShared (push_tombstone id reg) chs).
Proof.
  intros [Hs Ha Hl Hr Hq Ht Hc Hid]. split; try done. cbn in *. unfold push_tombstone. cbn.
  rewrite length_app. cbn. unfold DETACHED_RETAINED_PER_VM in *.
  case_bool_decide; [|lia]. destruct (tombstones reg); cbn in *; lia.
Qed.

(** *** Reserving a slot *)

Lemma free_slot_spec reg i :
  free_slot reg = Some i -> slots reg !! i = None /\ (i < N.of_nat DETACHED_RETAINED_PER_VM)%N.
Proof.
  intros [Hin Hb%bool_decide_eq_true]%List.find_some. split; [done|].
  apply in_map_iff in Hin as (n & <- & Hn%in_seq). unfold DETACHED_RETAINED_PER_VM in *. lia.
Qed.

Lemma find_any_none reg id i e :
  find_any_by_id reg id = None -> slots reg !! i = Some e -> exec_id (record e) <> id.
Proof.
  unfold find_any_by_id. intros Hf%fmap_None Hi Hid.
  assert (In (i, e) (btree_entries (slots reg))) as Hin
    by by apply list_elem_of_In, elem_of_btree_entries.
  pose proof (List.find_none _ _ Hf (i, e) Hin) as Hb. cbn in Hb.
  by apply bool_decide_eq_false in Hb.
Qed.

(** What [find_any_by_id] finds is there. *)
Lemma find_any_some reg id i :
  find_any_by_id reg id = Some i ->
  exists e, slots reg !! i = Some e /\ exec_id (record e) = id.
Proof.
  unfold find_any_by_id. intros ([j e] & [Hin Hb]%List.find_some & ->)%fmap_Some.
  exists e. split; [|by apply bool_decide_eq_true in Hb].
  by apply list_elem_of_In, elem_of_btree_entries in Hin.
Qed.

Hypothesis Hlimit : (DETACHED_ACTIVE_PER_VM <= limit)%N.

Lemma reserve_create_ok config id sha caps now s :
  (forall i e, slots (registry s) !! i = Some e -> named id -> exec_id (record e) <> id) ->
  ok s -> ok (snd (reserve_create config id sha caps now s)).
Proof.
  intros Hid Hok. unfold reserve_create.
  destruct (N.leb_spec DETACHED_ACTIVE_PER_VM (active (registry s))); [done|].
  destruct (free_slot (registry s)) as [i|] eqn:Hf; [|done].
  apply free_slot_spec in Hf as [Hi Hlt].
  destruct (N.ltb_spec DETACHED_LOG_QUOTA_BYTES
    (u64_saturating_add (reserved_log_bytes (registry s)) (reserved_bytes caps))) as [|Hq']; [done|].
  set (e := mkSlotEntry _ _ _ _ _ _ _ _). destruct Hok as [Hs Ha Hl Hr Hq Ht Hc Hids]. cbn.
  assert (u64_saturating_add (reserved_log_bytes (registry s)) (reserved_bytes caps)
          = (reserved_log_bytes (registry s) + reserved_bytes caps)%N) as Hsum.
  { unfold u64_saturating_add in *. apply N.min_l.
    assert (DETACHED_LOG_QUOTA_BYTES < u64_max)%N by reflexivity. lia. }
  split; cbn; rewrite ?Hsum, ?length_app.
  - intros j x [[<- <-]|[_ Hj]]%lookup_insert_Some; [|eauto]. done.
  - rewrite total_insert, Ha by done. change (counts e) with 1%N. lia.
  - lia.
  - rewrite total_insert, Hr by done. change (reserves e) with (reserved_bytes caps). lia.
  - lia.
  - done.
  - intros j x [[<- <-]|[_ Hj]]%lookup_insert_Some Hx; cbn.
    + eexists. split; [done|lia].
    + destruct (Hc j x Hj Hx) as (ch & Hch & Hltc). exists ch. split; [done|lia].
  - intros j k x y [[<- <-]|[_ Hj]]%lookup_insert_Some [[<- <-]|[_ Hk]]%lookup_insert_Some
      Exy Hn; [done| | |eauto].
    + by destruct (Hid k y Hk Hn).
    + rewrite Exy in Hn. by destruct (Hid j x Hj Hn).
Qed.

Lemma admit_ok config requested id sha caps now s :
  (requested = false -> ~ named id) -> ok s -> ok (snd (admit_create config requested id sha caps now s)).
Proof.
  intros Hn Hok. unfold admit_create. destruct requested.
  - destruct (is_tombstoned _ _); [done|].
    destruct (find_any_by_id (registry s) id) as [i|] eqn:Hf; cbn [mbind option_bind].
    + apply find_any_some in Hf as (e & -> & _). by repeat case_match.
    + apply reserve_create_ok; [|done]. intros i e Hi _. by eapply find_any_none.
  - apply reserve_create_ok; [|done]. intros i e _ Hname. by destruct (Hn eq_refl).
Qed.

(** *** The methods *)

(** The random source never returns an id of the named ones. *)
Definition random_ids {R : Set} (c : call R) : R -> Prop :=
  match c in call R return R -> Prop with
  | NextExecId => fun r => forall id, r = Ok id -> ~ named id
  | _ => fun _ => True
  end.

Notation keeps := (safe ok (@random_ids)).

Lemma keeps_locked {R : Set} (f : RegistryState -> R * RegistryState) :
  (forall s, ok s -> ok (snd (on_registry f s))) -> keeps false (locked (on_registry f)).
Proof. intros Hf. by apply safe_locked. Qed.

Ltac keep :=
  repeat match goal with
  | |- forall _, _ => intros
  | |- safe _ _ false (bind _ _) => apply safe_bind
  | |- safe _ _ false (try _ _) => apply safe_try
  | |- safe _ _ false (each _ _) => apply safe_each
  | |- safe _ _ false (perform _) => apply safe_perform
  | |- safe _ _ false (locked_get _) => apply safe_locked_get
  | |- safe _ _ false (locked (on_registry _)) => apply keeps_locked
  | |- safe _ _ false now => done
  | |- safe _ _ false (sleep _) => done
  | |- safe _ _ false (Ret _) => done
  | |- safe _ _ false Spin => done
  | |- safe _ _ _ (match ?x with _ => _ end) => destruct x; cbn [status_to_terminal]
  | |- _ => by auto with safe
  end.

Lemma keeps_write_if i r : keeps false (write_if i r).
Proof. unfold write_if. keep. Qed.
#[local] Hint Resolve keeps_write_if : safe.

Lemma keeps_commit_running i : keeps false (commit_running i).
Proof. unfold commit_running. keep. by apply set_running_ok. Qed.

Lemma keeps_commit_terminal i t code signal :
  is_terminal t = true -> keeps false (commit_terminal i t code signal).
Proof. unfold commit_terminal. intros Ht. keep. by apply set_terminal_entry_ok. Qed.

Lemma keeps_mark_lost i : keeps false (mark_lost i).
Proof. unfold mark_lost. keep. by apply set_lost_entry_ok. Qed.

Lemma keeps_stop_and_reset i : keeps false (stop_and_reset i).
Proof. unfold stop_and_reset. keep. Qed.

Lemma keeps_unit_liveness config i : keeps false (unit_liveness config i).
Proof. unfold unit_liveness, classify. keep. Qed.

Lemma keeps_snapshot_for i : keeps false (snapshot_for i).
Proof. unfold snapshot_for, stream_metas. keep. Qed.

Lemma keeps_within_deadline i : keeps false (within_deadline i).
Proof. cbn. do 3 (split; [done|]). intros [e|]; [|done]. by case_bool_decide. Qed.
#[local] Hint Resolve keeps_commit_running keeps_commit_terminal keeps_mark_lost keeps_stop_and_reset
  keeps_unit_liveness keeps_snapshot_for keeps_within_deadline : safe.

Lemma keeps_reconcile_slot config i : keeps false (reconcile_slot config i).
Proof.
  assert (keeps false (lost_unless_dispatching i)) by (unfold lost_unless_dispatching; keep).
  assert (keeps false (reconcile_liveness config i)) by (unfold reconcile_liveness; keep).
  unfold reconcile_slot. keep.
Qed.
#[local] Hint Resolve keeps_reconcile_slot : safe.


Lemma keeps_resolve_slot id : keeps false (resolve_slot id).
Proof. apply safe_locked_get. Qed.

Lemma keeps_is_terminal_slot i : keeps false (is_terminal_slot i).
Proof. apply safe_locked_get. Qed.

Lemma keeps_abort_create i : keeps false (abort_create i).
Proof. unfold abort_create. keep. by apply remove_ok. Qed.

Lemma keeps_delete_dispatch_hold i : keeps false (delete_dispatch_hold i).
Proof. unfold delete_dispatch_hold. keep. by apply remove_ok. Qed.

Lemma keeps_promote_dispatch_hold i : keeps false (promote_dispatch_hold i).
Proof. unfold promote_dispatch_hold. keep. by apply clear_hold_ok. Qed.
#[local] Hint Resolve keeps_resolve_slot keeps_is_terminal_slot keeps_abort_create
  keeps_delete_dispatch_hold keeps_promote_dispatch_hold : safe.

Lemma keeps_inspect config id boot : keeps false (inspect config id boot).
Proof. unfold inspect. keep. Qed.
#[local] Hint Resolve keeps_inspect : safe.

Lemma keeps_wait config fuel id boot known timeout : keeps false (wait config fuel id boot known timeout).
Proof.
  assert (forall i start, keeps false (wait_loop config fuel i start known timeout)).
  { induction fuel; cbn [wait_loop]; keep. }
  unfold wait. keep.
Qed.

Lemma keeps_read_logs config id boot stream offset max : keeps false (read_logs config id boot stream offset max).
Proof. unfold read_logs. keep; [by apply take_guard_ok|by apply drop_guard_ok]. Qed.

Lemma keeps_list config boot : keeps false (list_execs config boot).
Proof.
  assert (forall l, keeps false (list_entries l)).
  { induction l as [|[]]; cbn [list_entries]; unfold stream_metas; keep. }
  unfold list_execs. keep.
Qed.

Lemma keeps_cancel config fuel id boot : keeps false (cancel config fuel id boot).
Proof.
  assert (forall i start, keeps false (await_cancelled config fuel i start)).
  { induction fuel; cbn [await_cancelled]; keep. }
  assert (forall i, keeps false (cancel_backstop config i)) by (unfold cancel_backstop; keep).
  unfold cancel. keep.
Qed.

Lemma keeps_await_create_resolution config fuel i id start :
  keeps false (await_create_resolution config fuel i id start).
Proof.
  assert (keeps false (committed i id)) by (unfold committed; keep).
  induction fuel; cbn [await_create_resolution]; keep.
Qed.
#[local] Hint Resolve keeps_await_create_resolution : safe.

Lemma keeps_execute config fuel i id command caps :
  keeps false (execute_reserved_create config fuel i id command caps).
Proof. unfold execute_reserved_create, persist_dispatch. keep. Qed.
#[local] Hint Resolve keeps_execute : safe.

Lemma keeps_create config hash fuel boot command caps requested :
  keeps false (create_inner config hash fuel boot command caps requested).
Proof.
  assert (forall id, (requested = None -> ~ named id) -> keeps false (
    let! t := now in
    try (locked (admit_create config (bool_decide (is_Some requested)) id (hash command) caps t))
      (run_admission config fuel boot id command caps))%task) as Hadmitted.
  { intros id Hid. unfold run_admission. keep.
    - apply safe_locked. intros s. apply admit_ok. rewrite bool_decide_eq_false.
      intros Hr. apply Hid. by apply eq_None_not_Some.
    - split; [done|]. by intros [[]|]. }
  unfold create_inner. destruct (bool_decide (boot <> cfg_boot_id config)); [done|]. destruct requested as [id|].
  - unfold try at 1. cbn [bind]. destruct (is_valid_exec_id id); [|done]. by apply Hadmitted.
  - unfold try at 1, perform. cbn [bind safe]. split; [done|]. intros [id|] Hr; [|done].
    apply Hadmitted. intros _. by apply Hr.
Qed.

Lemma keeps_gc_slot i : keeps false (gc_slot i).
Proof.
  unfold gc_slot. keep. cbn. do 3 (split; [done|]). intros [e|]; [|done].
  destruct (0 <? read_guards e)%N; [done|]. cbn. split; [done|]. intros [] _; [|done]. cbn.
  split; [done|]. split; [|done]. intros s Hok. destruct s as [reg chs]. cbn.
  destruct (slots reg !! i); [apply push_tombstone_ok|]; by apply remove_entry_ok.
Qed.

Lemma keeps_resolve_dispatch_hold config i : keeps false (resolve_dispatch_hold config i).
Proof.
  assert (forall past, keeps false (resolve_hold_liveness config i past))
    by (unfold resolve_hold_liveness; keep).
  unfold resolve_dispatch_hold. apply safe_bind.
  - cbn. do 3 (split; [done|]). by intros [].
  - intros [past|]; [|done]. keep.
Qed.
#[local] Hint Resolve keeps_gc_slot keeps_resolve_dispatch_hold : safe.

Lemma keeps_reap_once config : keeps false (reap_once config).
Proof.
  assert (forall units adopted stopped, keeps false (sweep_units adopted stopped units)).
  { induction units; cbn [sweep_units]; keep. }
  assert (forall i, keeps false (reap_slot config i)) by (unfold reap_slot; keep).
  unfold reap_once, sweep_orphan_units. keep.
Qed.

End accounts.
End Accounts.
