(* ===== verification/DetachedRecovery.v ===== *)
(** * The registry of detached commands: creation and recovery

    [Module Alone] runs one method to its end and reasons about it with
    weakest preconditions.  [Module Startup] is the takeover of the records
    after a restart, which establishes the accounts of [DetachedSound] and
    adopts a unit that runs; [Module Creation] is creation as a transaction;
    [Module Service] puts startup and requests together. *)

From S2P Require Import Prelude Ids Streams Frame FileRing Text ExecFiles DetachedUnits.
From S2P Require Import Detached DetachedSound.
Import Meta ExecRecord Units Command Identity Tasks Registry.
Close Scope rust_scope.

(** ** One method by itself *)

Module Alone.

(** The result of a task that runs alone, as task [0]. *)
Fixpoint finish {A} (o : Oracle) (p : prog A) (w : World) : option (A * World) :=
  match p with
  | Ret a => Some (a, w)
  | Spin => None
  | Lock k =>
      match mutex w with
      | None => finish o k (pass o 0 (with_mutex (Some 0) w))
      | Some _ => None
      end
  | Unlock k =>
      if bool_decide (mutex w = Some 0) then finish o k (pass o 0 (with_mutex None w)) else None
  | State f k =>
      if bool_decide (mutex w = Some 0)
      then finish o (k (fst (f (shared w)))) (pass o 0 (with_shared (snd (f (shared w))) w))
      else None
  | Now k => finish o (k (clock w)) (pass o 0 w)
  | Sleep ms k => finish o k (pass o ms w)
  | Call c k =>
      let '(r, d, evs) := respond o (tick w) c (disk w) in
      finish o (k r)
        (pass o 0 (mkWorld (shared w) (mutex w) d (clock w) (tick w) (trace w ++ evs)))
  | Send ch v k =>
      let s := shared w in
      finish o k (pass o 0 (with_shared (mkShared (registry s) (<[ch := v]> (channels s))) w))
  | Await ch k =>
      match channels (shared w) !! ch with
      | Some (Finished r) => finish o (k (Some r)) (pass o 0 w)
      | _ => if o_timeout o (tick w) then finish o (k None) (pass o 0 w) else None
      end
  end.

(** Such a run is one of the steps of the world. *)
Lemma finish_run {A} o (p : prog A) w a w' :
  finish o p w = Some (a, w') -> exists n, run_alone o n p w = (Ret a, w').
Proof.
  revert w. induction p; intros w; cbn [finish].
  - intros [= -> ->]. by exists 0.
  - destruct (mutex w) eqn:Em; [done|]. intros [n Hn]%IHp. exists (S n). cbn. by rewrite Em.
  - case_bool_decide as Em; [|done]. intros [n Hn]%IHp. exists (S n). cbn [run_alone step].
    by rewrite bool_decide_eq_true_2.
  - case_bool_decide as Em; [|done]. intros [n Hn]%H. exists (S n). cbn [run_alone step].
    rewrite bool_decide_eq_true_2 by done. by destruct (f (shared w)).
  - intros [n Hn]%H. by exists (S n).
  - intros [n Hn]%IHp. by exists (S n).
  - destruct (respond _ _ _ _) as [[r d] evs] eqn:E. intros [n Hn]%H. exists (S n).
    cbn [run_alone step]. by rewrite E.
  - intros [n Hn]%IHp. by exists (S n).
  - intros Hf. cut (exists q w1, step o 0 (Await channel k) w = Some (q, w1)
                     /\ exists n, run_alone o n q w1 = (Ret a, w')).
    { intros (q & w1 & Hs & n & Hn). exists (S n). cbn [run_alone]. by rewrite Hs. }
    cbn [step]. destruct (channels (shared w) !! channel) as [[|r]|], (o_timeout o (tick w));
      try done; eauto 6.
  - done.
Qed.

(** Every fact is stated by its weakest precondition. *)
Definition wp {A} (o : Oracle) (p : prog A) (Q : A -> World -> Prop) (w : World) : Prop :=
  exists a w', finish o p w = Some (a, w') /\ Q a w'.

Lemma wp_ret {A} o (a : A) (Q : A -> World -> Prop) w : Q a w -> wp o (Ret a) Q w.
Proof. intros HQ. by exists a, w. Qed.

Lemma finish_bind {A B} o (p : prog A) (f : A -> prog B) w :
  finish o (bind p f) w = match finish o p w with Some (a, w') => finish o (f a) w' | None => None end.
Proof.
  revert w. induction p; intros w; cbn [finish bind]; try done; try by repeat case_match.
  - destruct (mutex w); [done|]. apply IHp.
  - case_bool_decide; [|done]. apply IHp.
  - case_bool_decide; [|done]. apply H.
  - destruct (respond _ _ _ _) as [[r d] evs]. apply H.
  - destruct (channels _ !! _) as [[]|]; try destruct (o_timeout o (tick w)); try done; apply H.
Qed.

Lemma wp_bind {A B} o (p : prog A) (f : A -> prog B) Q w :
  wp o p (fun a w' => wp o (f a) Q w') w -> wp o (bind p f) Q w.
Proof.
  intros (a & w1 & H1 & b & w2 & H2 & HQ). exists b, w2. by rewrite finish_bind, H1.
Qed.

Lemma wp_mono {A} o (p : prog A) (Q Q' : A -> World -> Prop) w :
  wp o p Q w -> (forall a w', Q a w' -> Q' a w') -> wp o p Q' w.
Proof. intros (a & w' & Hf & HQ) Himp. exists a, w'. auto. Qed.

(** [w'] is [w] with another state, another disk and more of a trace, and
    [ms] later when clocks do not go back. *)
Record moved (o : Oracle) (ms : N) (s : Shared) (d : Disk) (evs : list Event) (w w' : World) :
    Prop := mkMoved {
  mv_shared : shared w' = s;
  mv_mutex : mutex w' = mutex w;
  mv_disk : disk w' = d;
  mv_trace : trace w' = trace w ++ evs;
  mv_clock : (forall t, 0 <= o_elapsed o t)%Z -> (clock w + ms <= clock w')%N
}.

Lemma wp_now o (Q : N -> World -> Prop) w :
  (forall w', moved o 0 (shared w) (disk w) [] w w' -> Q (clock w) w') -> wp o now Q w.
Proof.
  intros HQ. eexists _, _. split; [done|]. apply HQ. split; try done; cbn.
  - by rewrite app_nil_r.
  - intros Ht. specialize (Ht (tick w)). lia.
Qed.

Lemma wp_sleep o ms (Q : unit -> World -> Prop) w :
  (forall w', moved o ms (shared w) (disk w) [] w w' -> Q tt w') -> wp o (sleep ms) Q w.
Proof.
  intros HQ. eexists _, _. split; [done|]. apply HQ. split; try done; cbn.
  - by rewrite app_nil_r.
  - intros Ht. specialize (Ht (tick w)). lia.
Qed.

Lemma wp_call {A} {R : Set} o (c : call R) (k : R -> prog A) Q w :
  (forall r d evs w', respond o (tick w) c (disk w) = (r, d, evs) ->
     moved o 0 (shared w) d evs w w' -> wp o (k r) Q w') -> wp o (Call c k) Q w.
Proof.
  intros HQ. unfold wp. cbn [finish]. destruct (respond _ _ _ _) as [[r d] evs] eqn:E.
  apply (HQ r d evs _ eq_refl). split; try done. cbn.
  intros Ht. specialize (Ht (tick w)). lia.
Qed.

Lemma wp_perform {R : Set} o (c : call R) (Q : R -> World -> Prop) w :
  (forall r d evs w', respond o (tick w) c (disk w) = (r, d, evs) ->
     moved o 0 (shared w) d evs w w' -> Q r w') -> wp o (perform c) Q w.
Proof. intros HQ. apply wp_call. intros. apply wp_ret. eauto. Qed.

Lemma wp_locked {R : Set} o (f : Shared -> R * Shared) (Q : R -> World -> Prop) w :
  mutex w = None ->
  (forall w', moved o 0 (snd (f (shared w))) (disk w) [] w w' -> Q (fst (f (shared w))) w') ->
  wp o (locked f) Q w.
Proof.
  intros Hm HQ. unfold wp, locked. cbn [finish]. rewrite Hm. cbn.
  rewrite !bool_decide_eq_true_2 by done. cbn. eexists _, _. split; [done|]. apply HQ.
  split; try done; cbn.
  - by rewrite app_nil_r.
  - intros Ht. set (t := tick w). pose proof (Ht t). pose proof (Ht (t + 1)%N).
    pose proof (Ht (t + 1 + 1)%N). lia.
Qed.

End Alone.

(** ** Startup *)

Module Startup.
Import DetachedSound.Accounts Alone.

Definition event_slot (ev : Event) : N :=
  match ev with Started i _ _ | Stopped i _ | Deleted i _ => i end.

(** The slot a call is about. *)
Definition call_slot {R : Set} (c : call R) : option N :=
  match c with
  | PrepareSlotDir i | WriteRecord i _ | ReadRecord i | WriteSpec i _ | ReadSpec i | WriteCancel i
  | ReadStatus i | ReadLogMeta i _ | ReadLog i _ _ _ | MarkLost i | DeleteSlotDir i
  | ScrubSlotFiles i | ValidateAuthenticity i | StartTransientUnit i _ | StopUnit i
  | ResetFailed i => Some i
  | NextExecId | ListSlotDirs | ListManagedUnits => None
  end.

Lemma write_file_local i j f error d :
  j <> i -> (write_file i f error d).2 !! j = d !! j.
Proof.
  intros Hj. unfold write_file. destruct error, (d !! i); cbn; try done.
  by apply lookup_insert_ne.
Qed.

Lemma respond_local {R : Set} o t (c : call R) d r d' evs i :
  respond o t c d = (r, d', evs) -> call_slot c = Some i ->
  (forall j, j <> i -> d' !! j = d !! j) /\ Forall (fun ev => event_slot ev = i) evs.
Proof.
  intros Hr Hc. destruct c; cbn in Hc; simplify_eq; cbn in Hr.
  all: split; [intros j Hj|].
  all: try (destruct (ExecSpec.validate spec); cbn in Hr).
  all: try (destruct (write_file _ _ _ _) as [r1 d1] eqn:E; cbn in Hr).
  all: try match goal with
    E : write_file ?i ?f ?error ?d = _ |- _ !! _ = _ =>
      pose proof (write_file_local i j f error d Hj) as Hw; rewrite E in Hw
    end.
  all: simplify_eq; try by repeat constructor.
  all: repeat case_match; simplify_eq; try done.
  all: first [apply lookup_insert_ne|apply lookup_delete_ne|apply lookup_partial_alter_ne];
    congruence.
Qed.

(** Only slot [i] is touched. *)
Record touches (i : N) (w w' : World) : Prop := mkTouches {
  to_slots : forall j, j <> i ->
    slots (registry (shared w')) !! j = slots (registry (shared w)) !! j;
  to_disk : forall j, j <> i -> disk w' !! j = disk w !! j;
  to_trace : exists evs, trace w' = trace w ++ evs /\ Forall (fun ev => event_slot ev = i) evs;
  to_mutex : mutex w' = mutex w
}.

Lemma touches_refl i w : touches i w w.
Proof. split; try done. exists []. by rewrite app_nil_r. Qed.

Lemma touches_trans i w1 w2 w3 : touches i w1 w2 -> touches i w2 w3 -> touches i w1 w3.
Proof.
  intros [S1 D1 (e1 & T1 & F1) M1] [S2 D2 (e2 & T2 & F2) M2]. split.
  - intros j Hj. by rewrite S2, S1.
  - intros j Hj. by rewrite D2, D1.
  - exists (e1 ++ e2). rewrite T2, T1, app_assoc. split; [done|]. by apply Forall_app.
  - congruence.
Qed.

Lemma moved_touches o ms i d evs w w' :
  moved o ms (shared w) d evs w w' -> (forall j, j <> i -> d !! j = disk w !! j) ->
  Forall (fun ev => event_slot ev = i) evs -> touches i w w'.
Proof.
  intros [Hs Hm Hd Ht _] Hj He. split; [by rewrite Hs|by rewrite Hd|by exists evs|done].
Qed.

(** Calls that leave no mark. *)
Definition reads {R : Set} (c : call R) : bool :=
  match c with
  | ReadRecord _ | ReadSpec _ | ReadStatus _ | ReadLogMeta _ _ | ReadLog _ _ _ _
  | ValidateAuthenticity _ | ListSlotDirs | ListManagedUnits | NextExecId => true
  | _ => false
  end.

Lemma wp_read {R : Set} o (c : call R) (Q : R -> World -> Prop) w :
  reads c = true ->
  (forall w', moved o 0 (shared w) (disk w) [] w w' ->
     Q (respond o (tick w) c (disk w)).1.1 w') -> wp o (perform c) Q w.
Proof.
  intros Hc HQ. apply wp_perform. intros r d evs w' Hr Hm.
  assert (d = disk w /\ evs = []) as [-> ->] by (destruct c; cbn in *; naive_solver).
  specialize (HQ w' Hm). by rewrite Hr in HQ.
Qed.

(** [read_spec] is asked when its answer matters. *)
Lemma classify_unit_spec config spec spec' units i :
  needs_spec units i = false ->
  classify_unit config spec units i = classify_unit config spec' units i.
Proof.
  unfold needs_spec, classify_unit. destruct (List.find (unit_of Workload i) units) as [u|]; [|done].
  intros Hn. cbn [fmap option_fmap option_map].
  assert (classify_workload_unit spec u i = classify_workload_unit spec' u i) as ->; [|done].
  unfold classify_workload_unit. by destruct (Units.active u), (identity u).
Qed.

Section startup.
Context (config : RegistryConfig) (named : string -> Prop) (o : Oracle) (d0 : Disk).

Definition retained : N := N.of_nat DETACHED_RETAINED_PER_VM.

(** Between two slots of the takeover, [done] of them behind it. *)
Record taking (done : list N) (w : World) : Prop := mkTaking {
  tk_ok : registry_ok retained named (shared w);
  tk_entries : forall i e, slots (registry (shared w)) !! i = Some e ->
    i ∈ done /\ caps e = standard (cfg_max_runtime_sec config)
    /\ exists r, d0 !! i ≫= dir_record = Some r /\ exec_id r = exec_id (record e);
  tk_disk : forall i, i ∉ done -> disk w !! i = d0 !! i;
  tk_mutex : mutex w = None
}.

Lemma taking_mono done done' w : taking done w -> (forall i, i ∈ done -> i ∈ done') -> taking done' w.
Proof. intros [Hok He Hd Hm] Hin. split; naive_solver. Qed.

(** *** Room for all *)

Lemma total_bound f m c :
  (forall i e, m !! i = Some e -> (f e <= c)%N) -> (total f m <= c * N.of_nat (size m))%N.
Proof.
  induction m as [|i e m Hi IH] using map_ind; intros Hb; [unfold total; rewrite map_fold_empty; lia|].
  rewrite total_insert, map_size_insert_None by done.
  assert (f e <= c)%N by (apply (Hb i); apply lookup_insert_eq).
  assert (total f m <= c * N.of_nat (size m))%N by
    (apply IH; intros j x Hj; apply (Hb j); rewrite lookup_insert_ne; naive_solver).
  lia.
Qed.

Lemma slots_bounded (m : gmap N SlotEntry) :
  (forall i e, m !! i = Some e -> (i < retained)%N) -> size m <= DETACHED_RETAINED_PER_VM.
Proof.
  intros Hb. rewrite <- size_dom.
  transitivity (size (list_to_set (map N.of_nat (seq 0 DETACHED_RETAINED_PER_VM)) : gset N)).
  - apply subseteq_size. intros i [e Hi%Hb]%elem_of_dom.
    apply elem_of_list_to_set, list_elem_of_fmap. exists (N.to_nat i). split; [lia|].
    apply elem_of_seq. unfold retained in Hi. lia.
  - by vm_compute.
Qed.

Lemma insert_entry_ok i e reg chs :
  registry_ok retained named (mkShared reg chs) ->
  (forall j x, slots reg !! j = Some x -> caps x = standard (cfg_max_runtime_sec config)) ->
  slots reg !! i = None -> (i < retained)%N ->
  caps e = standard (cfg_max_runtime_sec config) ->
  active_counted e = negb (entry_is_terminal e) -> creating e = false ->
  (state (record e) = Dispatching -> hidden e = true) ->
  (forall j x, slots reg !! j = Some x -> exec_id (record x) = exec_id (record e) ->
     named (exec_id (record e)) -> False) ->
  registry_ok retained named (mkShared (insert_entry i e reg) chs).
Proof.
  intros [Hs Ha Hl Hr Hq Ht Hc Hids] Hcaps Hi Hlt He Hcount Hcre Hhid Hfresh. cbn in *.
  assert (Hs' : forall j x, <[i := e]> (slots reg) !! j = Some x ->
    (j < retained)%N /\ caps x = standard (cfg_max_runtime_sec config)).
  { intros j x [[<- <-]|[_ Hj]]%lookup_insert_Some; [done|]. split; [by eapply Hs|eauto]. }
  assert (size (<[i := e]> (slots reg)) <= DETACHED_RETAINED_PER_VM) as Hsize
    by (apply slots_bounded; intros j x Hj; by destruct (Hs' j x Hj)).
  assert (total counts (<[i := e]> (slots reg)) <= retained)%N as Hact.
  { transitivity (1 * N.of_nat (size (<[i := e]> (slots reg))))%N; [|unfold retained; lia].
    apply total_bound. intros _ x _. unfold counts. by destruct (active_counted x). }
  assert (total reserves (<[i := e]> (slots reg)) <= DETACHED_LOG_QUOTA_BYTES)%N as Hres.
  { transitivity (reserved_bytes (standard (cfg_max_runtime_sec config))
                  * N.of_nat (size (<[i := e]> (slots reg))))%N.
    - apply total_bound. intros j x Hj. unfold reserves. destruct (Hs' j x Hj) as [_ ->]. lia.
    - change (reserved_bytes _) with 8388608%N.
      change DETACHED_LOG_QUOTA_BYTES with (8388608 * 32)%N.
      unfold DETACHED_RETAINED_PER_VM in Hsize. lia. }
  pose proof (total_insert counts _ i e Hi) as Tc. pose proof (total_insert reserves _ i e Hi) as Tr.
  assert (reserved_bytes (caps e) = reserves e) as Er by done.
  split; cbn; try done.
  - intros j x [[<- <-]|[_ Hj]]%lookup_insert_Some; [done|eauto].
  - unfold counts in Tc at 2. destruct (active_counted e); lia.
  - unfold counts in Tc at 2. destruct (active_counted e); lia.
  - unfold u64_saturating_add. rewrite N.min_l; [lia|].
    assert (DETACHED_LOG_QUOTA_BYTES < u64_max)%N by reflexivity. lia.
  - unfold u64_saturating_add. lia.
  - intros j x [[<- <-]|[_ Hj]]%lookup_insert_Some Hx; [congruence|eauto].
  - intros j k x y [[<- <-]|[_ Hj]]%lookup_insert_Some [[<- <-]|[_ Hk]]%lookup_insert_Some
      Exy Hn; [done| | |eauto].
    + exfalso. by apply (Hfresh k y).
    + exfalso. rewrite Exy in Hn. by apply (Hfresh j x).
Qed.

(** *** One slot *)

Section slot.
Context (done : list N) (i : N) (w0 : World).
Hypothesis Hi : (i < retained)%N.
Hypothesis distinct : forall j k r r', d0 !! j ≫= dir_record = Some r ->
  d0 !! k ≫= dir_record = Some r' -> exec_id r = exec_id r' -> named (exec_id r) -> j = k.

(** Where the takeover of the slot is, and before it has an entry. *)
Definition at_slot (w : World) : Prop := taking (i :: done) w /\ touches i w0 w.
Definition open_slot (w : World) : Prop := at_slot w /\ slots (registry (shared w)) !! i = None.

Lemma wp_at {R : Set} (c : call R) (Q : R -> World -> Prop) w :
  at_slot w -> call_slot c = Some i ->
  (forall r w', at_slot w' -> shared w' = shared w -> Q r w') -> wp o (perform c) Q w.
Proof.
  intros [[Hok He Hd Hm] Ht] Hc HQ. apply wp_perform. intros r d evs w' Hr Hmv.
  destruct (respond_local o _ c _ r d evs i Hr Hc) as [Hloc Hev].
  assert (touches i w w') as Ht' by by eapply moved_touches.
  destruct Hmv as [Hs Hm' Hd' _ _]. apply HQ; [|done]. split; [|by eapply touches_trans].
  split; rewrite ?Hs; try done; [|congruence].
  intros j Hj. rewrite <- (Hd j Hj), Hd'. apply Hloc. set_solver.
Qed.

Lemma wp_open {R : Set} (c : call R) (Q : R -> World -> Prop) w :
  open_slot w -> call_slot c = Some i -> (forall r w', open_slot w' -> Q r w') ->
  wp o (perform c) Q w.
Proof.
  intros [Hat Hn] Hc HQ. apply wp_at; [done..|]. intros r w' Hat' Hs. apply HQ. split; [done|].
  by rewrite Hs.
Qed.

Lemma at_moved ms w w' : at_slot w -> moved o ms (shared w) (disk w) [] w w' -> at_slot w'.
Proof.
  intros [[Hok He Hd Hm] Ht] Hmv.
  assert (touches i w w') by (by eapply moved_touches).
  destruct Hmv as [Hs Hm' Hd' _ _]. split; [|by eapply touches_trans].
  split; rewrite ?Hs, ?Hd'; try done. congruence.
Qed.

Lemma wp_open_now (Q : N -> World -> Prop) w :
  open_slot w -> (forall t w', open_slot w' -> Q t w') -> wp o now Q w.
Proof.
  intros [Hat Hn] HQ. apply wp_now. intros w' Hmv. apply HQ. split; [by eapply at_moved|].
  by rewrite (mv_shared _ _ _ _ _ _ _ Hmv).
Qed.

Lemma wp_stop_and_reset (Q : unit -> World -> Prop) w :
  open_slot w -> (forall w', open_slot w' -> Q tt w') -> wp o (stop_and_reset i) Q w.
Proof.
  intros Ho HQ. apply wp_bind, wp_open; [done..|]. intros _ w1 Ho1.
  apply wp_bind, wp_open; [done..|]. intros _ w2 Ho2. by apply wp_ret, HQ.
Qed.

Lemma wp_delete (Q : unit -> World -> Prop) w :
  open_slot w -> (forall w', at_slot w' -> Q tt w') ->
  wp o (bind (perform (DeleteSlotDir i)) (fun _ => Ret tt)) Q w.
Proof.
  intros Ho HQ. apply wp_bind, wp_open; [done..|]. intros _ w1 [Ho1 _]. by apply wp_ret, HQ.
Qed.

Lemma wp_quarantine (Q : unit -> World -> Prop) w :
  open_slot w -> (forall w', at_slot w' -> Q tt w') -> wp o (quarantine i) Q w.
Proof.
  intros Ho HQ. apply wp_bind, wp_stop_and_reset; [done|]. intros w1 Ho1. by apply wp_delete.
Qed.

(** A record of the disk, and a kind that fits it. *)
Definition adoptable (r : DurableRecord) (kind : AdoptKind) : Prop :=
  (exists r0, d0 !! i ≫= dir_record = Some r0 /\ exec_id r0 = exec_id r)
  /\ match kind with
     | Adopt_Terminal s _ _ => is_terminal s = true
     | Adopt_Running => True
     | Adopt_DispatchHold => state r = Dispatching
     end.

Lemma adopted_entry_taken t r kind w :
  adoptable r kind -> open_slot w ->
  registry_ok retained named
    (mkShared (insert_entry i (adopted_entry config t r kind) (registry (shared w)))
       (channels (shared w))).
Proof.
  intros [(r0 & Hr0 & Eid) Hk] [[[Hok He Hd Hm] Ht] Hn].
  assert (exec_id (record (adopted_entry config t r kind)) = exec_id r) as Eid' by by destruct kind.
  apply insert_entry_ok; try done.
  - by destruct (shared w).
  - intros j x Hj. by apply He in Hj as (_ & ? & _).
  - by destruct kind.
  - destruct kind; unfold entry_is_terminal; cbn; by rewrite Hk || done.
  - by destruct kind.
  - destruct kind; cbn; try done. by intros ->.
  - intros j x Hj Ex Hname. pose proof (He j x Hj) as (_ & _ & r' & Hr' & Ex').
    assert (j = i) as -> by (apply (distinct j i r' r0 Hr' Hr0); congruence). congruence.
Qed.

Lemma wp_insert_adopted r kind (Q : unit -> World -> Prop) w :
  adoptable r kind -> open_slot w ->
  (forall t w', at_slot w' -> trace w' = trace w ->
     slots (registry (shared w')) !! i = Some (adopted_entry config t r kind) -> Q tt w') ->
  wp o (insert_adopted config i r kind) Q w.
Proof.
  intros Hr [Hat Hn] HQ. apply wp_bind, wp_now. intros w1 Hmv.
  assert (open_slot w1) as Ho1.
  { split; [by eapply at_moved|]. by rewrite (mv_shared _ _ _ _ _ _ _ Hmv). }
  assert (trace w1 = trace w) as Htr by (rewrite (mv_trace _ _ _ _ _ _ _ Hmv); apply app_nil_r).
  set (e := adopted_entry config (clock w) r kind).
  pose proof (adopted_entry_taken (clock w) r kind w1 Hr Ho1) as Hok'. fold e in Hok'.
  destruct Ho1 as [[[Hok He Hd Hm] Ht] Hn1].
  unfold wp. cbn [finish]. rewrite Hm. cbn [mutex with_mutex pass shared].
  rewrite bool_decide_eq_true_2 by done. cbn [fst snd on_registry].
  destruct (respond _ _ _ _) as [[res d] evs] eqn:Er.
  destruct (respond_local _ _ _ _ _ _ _ i Er eq_refl) as [Hloc Hev].
  assert (evs = []) as -> by (cbn in Er; destruct (write_file _ _ _ _); by simplify_eq).
  cbn [finish mutex pass]. rewrite bool_decide_eq_true_2 by done. eexists _, _. split; [done|].
  apply (HQ (clock w)); cbn.
  - split; [split; cbn; try done|].
    + intros j x [[<- <-]|[_ Hj]]%lookup_insert_Some.
      * split; [set_solver|]. split; [by destruct kind|]. destruct Hr as [(r0 & Hr0 & Eid) _].
        exists r0. split; [done|]. by destruct kind.
      * by apply He.
    + intros j Hj. rewrite <- (Hd j Hj). apply Hloc. set_solver.
    + eapply touches_trans; [done|]. split; cbn; try done.
      * intros j Hj. by rewrite lookup_insert_ne.
      * exists []. by rewrite !app_nil_r.
  - by rewrite app_nil_r.
  - apply lookup_insert_eq.
Qed.

Lemma wp_write_if r (Q : unit -> World -> Prop) w :
  at_slot w -> (forall w', at_slot w' -> Q tt w') -> wp o (write_if i r) Q w.
Proof.
  intros Hat HQ. destruct r as [r|]; [|by apply wp_ret, HQ].
  apply wp_bind, wp_at; [done..|]. intros _ w1 Hat1 _. by apply wp_ret, HQ.
Qed.

Lemma set_lost_slots t j s :
  j <> i -> slots (snd (set_lost_entry i t s)) !! j = slots s !! j.
Proof.
  intros Hj. unfold set_lost_entry, release_active, put_entry, set_slots.
  repeat case_match; cbn in *; simplify_eq; by rewrite ?lookup_insert_ne.
Qed.

Lemma set_lost_succ t s e' :
  slots (snd (set_lost_entry i t s)) !! i = Some e' ->
  exists e, slots s !! i = Some e /\ caps e' = caps e /\ exec_id (record e') = exec_id (record e).
Proof.
  unfold set_lost_entry. destruct (slots s !! i) as [e|] eqn:Hs; cbn; [|congruence].
  destruct (entry_is_terminal e); cbn; [rewrite Hs; naive_solver|].
  rewrite (release_replaced i e) by done. cbn. rewrite lookup_insert_eq. intros [= <-]. by exists e.
Qed.

Lemma wp_mark_lost (Q : unit -> World -> Prop) w :
  at_slot w -> (forall w', at_slot w' -> Q tt w') -> wp o (mark_lost i) Q w.
Proof.
  intros Hat HQ. apply wp_bind, wp_now. intros w1 Hmv.
  assert (at_slot w1) as Hat1 by by eapply at_moved. clear Hat Hmv.
  apply wp_bind, wp_locked; [apply Hat1|]. intros w2 Hmv.
  assert (at_slot w2) as Hat2.
  { destruct Hat1 as [[Hok He Hd Hm] Ht].
    pose proof (set_lost_entry_ok retained named i (clock w) (shared w1) Hok) as Hok2.
    destruct Hmv as [Hs Hm' Hd' Htr _]. unfold on_registry in *.
    pose proof (set_lost_succ (clock w) (registry (shared w1))) as Hsucc.
    pose proof (fun j => set_lost_slots (clock w) j (registry (shared w1))) as Hrest.
    destruct (set_lost_entry i (clock w) (registry (shared w1))) as [x reg] eqn:E. cbn in *.
    split.
    - split; rewrite ?Hs, ?Hd'; cbn; try done; [|congruence].
      intros j e Hj. destruct (decide (j = i)) as [->|Hne].
      + destruct (Hsucc e Hj) as (e1 & He1 & -> & ->). by apply He.
      + rewrite (Hrest j Hne) in Hj. by apply He.
    - eapply touches_trans; [done|]. split; rewrite ?Hs, ?Hd'; try done.
      exists []. done. }
  destruct (fst _) as [r|]; [|by apply wp_ret, HQ].
  apply wp_bind, wp_at; [done..|]. intros _ w3 Hat3 _.
  apply wp_bind, wp_at; [done..|]. intros _ w4 Hat4 _. by apply wp_ret, HQ.
Qed.

Lemma wp_adopt_no_unit r (Q : unit -> World -> Prop) w :
  (exists r0, d0 !! i ≫= dir_record = Some r0 /\ exec_id r0 = exec_id r) ->
  open_slot w -> (forall w', at_slot w' -> Q tt w') -> wp o (adopt_no_unit config i r) Q w.
Proof.
  intros Hr Ho HQ. unfold adopt_no_unit. case_bool_decide as Hd.
  - apply wp_bind, wp_open_now; [done|]. intros t w1 Ho1. destruct (t <? _)%N.
    + apply wp_insert_adopted; [done..|]. eauto.
    + apply wp_bind, wp_open; [done..|]. intros [] w2 Ho2; [apply wp_ret, HQ, Ho2|].
      apply wp_insert_adopted; [done..|]. eauto.
  - apply wp_bind, wp_insert_adopted; [done..|]. intros t w1 Ho1 _ _. by apply wp_mark_lost.
Qed.

Lemma status_to_terminal_terminal status t code signal :
  status_to_terminal status = Some (t, code, signal) -> is_terminal t = true.
Proof. destruct status as [[]|]; cbn; naive_solver. Qed.

Lemma wp_adopt_record r status liveness (Q : unit -> World -> Prop) w :
  d0 !! i ≫= dir_record = Some r ->
  open_slot w -> (forall w', at_slot w' -> Q tt w') -> wp o (adopt_record config i r status liveness) Q w.
Proof.
  intros Hr Ho HQ. unfold adopt_record.
  assert (exists r0, d0 !! i ≫= dir_record = Some r0 /\ exec_id r0 = exec_id r) as Hr0 by eauto.
  assert (Hins : forall kind w1, open_slot w1 -> adoptable r kind ->
    wp o (insert_adopted config i r kind) Q w1).
  { intros kind w1 Ho1 Hk. apply wp_insert_adopted; eauto. }
  destruct (status_to_terminal status) as [[[t code] signal]|] eqn:Et.
  - apply status_to_terminal_terminal in Et.
    assert (Hgo : wp o (bind (match liveness with
      | Live | OrphanWorkload | Foreign => stop_and_reset i | Absent | Unknown => Ret tt end)
      (fun _ => insert_adopted config i r (Adopt_Terminal t code signal))) Q w).
    { apply wp_bind. destruct liveness; try (apply wp_ret; by apply Hins);
        apply wp_stop_and_reset; [done| |done| |done|]; intros w1 Ho1; by apply Hins. }
    destruct status as [[]|]; try done. by apply wp_quarantine.
  - destruct liveness.
    + by apply Hins.
    + apply wp_bind, wp_open; [done..|]. intros [] w1 Ho1; [by apply wp_adopt_no_unit|by apply Hins].
    + apply wp_bind, wp_open; [done..|]. intros [] w1 Ho1; [|by apply Hins].
      apply wp_bind, wp_open; [done..|]. intros _ w2 Ho2. by apply wp_adopt_no_unit.
    + by apply wp_adopt_no_unit.
    + case_bool_decide; by apply Hins.
Qed.

(** Nothing of the slot has changed since the start. *)
Definition fresh_slot (w : World) : Prop := open_slot w /\ disk w !! i = d0 !! i.

Lemma fresh_moved w w' :
  fresh_slot w -> moved o 0 (shared w) (disk w) [] w w' -> fresh_slot w'.
Proof.
  intros [[Hat Hn] Hd] Hmv. split; [split; [by eapply at_moved|]|].
  - by rewrite (mv_shared _ _ _ _ _ _ _ Hmv).
  - by rewrite (mv_disk _ _ _ _ _ _ _ Hmv).
Qed.

Lemma wp_adopt_slot liveness (Q : unit -> World -> Prop) w :
  fresh_slot w -> (forall w', at_slot w' -> Q tt w') -> wp o (adopt_slot config i liveness) Q w.
Proof.
  intros Hf HQ. apply wp_bind, wp_read; [done|]. intros w1 Hmv1.
  pose proof (fresh_moved _ _ Hf Hmv1) as Hf1. clear Hf Hmv1.
  destruct (fst _) as [[]|]; [|by apply wp_quarantine; [apply Hf1|]].
  apply wp_bind, wp_read; [done|]. intros w2 Hmv2. pose proof (fresh_moved _ _ Hf1 Hmv2) as Hf2.
  cbn [respond fst]. destruct (o_store o (tick w1) i); [by apply wp_delete; [apply Hf2|]|].
  destruct Hf1 as [_ ->].
  destruct (d0 !! i ≫= dir_record) as [r|] eqn:Hr; [|by apply wp_delete; [apply Hf2|]].
  destruct (negb _); [by apply wp_delete; [apply Hf2|]|].
  case_bool_decide; [by apply wp_quarantine; [apply Hf2|]|].
  apply wp_bind, wp_read; [done|]. intros w3 Hmv3. pose proof (fresh_moved _ _ Hf2 Hmv3) as Hf3.
  by apply wp_adopt_record; [|apply Hf3|].
Qed.

Lemma wp_classify units (Q : SlotLiveness -> World -> Prop) w :
  fresh_slot w -> (forall l w', fresh_slot w' -> Q l w') -> wp o (classify config units i) Q w.
Proof.
  intros Hf HQ. apply wp_bind. destruct (needs_spec units i).
  - apply wp_read; [done|]. intros w1 Hmv. apply wp_ret, HQ. by eapply fresh_moved.
  - by apply wp_ret, wp_ret, HQ.
Qed.

Lemma wp_adopt_found units (Q : unit -> World -> Prop) w :
  fresh_slot w -> (forall w', at_slot w' -> Q tt w') -> wp o (adopt_found config units i) Q w.
Proof.
  intros Hf HQ. apply wp_bind. destruct units as [units|].
  - apply wp_classify; [done|]. intros l w1 Hf1. by apply wp_adopt_slot.
  - apply wp_ret. by apply wp_adopt_slot.
Qed.

End slot.

(** *** All slots *)

Context (distinct : forall j k r r', d0 !! j ≫= dir_record = Some r ->
  d0 !! k ≫= dir_record = Some r' -> exec_id r = exec_id r' -> named (exec_id r) -> j = k).

Lemma taking_fresh done i w : i ∉ done -> taking done w -> fresh_slot done i w w.
Proof.
  intros Hi Ht. split; [|by apply tk_disk with done]. split; [split|].
  - eapply taking_mono; [done|]. set_solver.
  - apply touches_refl.
  - destruct (slots _ !! i) as [e|] eqn:E; [|done]. by destruct (tk_entries _ _ Ht i e E).
Qed.

Lemma wp_each_adopt units (P : list N -> World -> Prop) l done w :
  (forall i done w, i ∈ l -> i ∉ done -> taking done w -> P done w ->
     wp o (adopt_found config units i) (fun _ w' => taking (i :: done) w' /\ P (i :: done) w') w) ->
  NoDup l -> (forall i, i ∈ l -> i ∉ done) -> taking done w -> P done w ->
  wp o (each (adopt_found config units) l)
    (fun _ w' => taking (rev l ++ done) w' /\ P (rev l ++ done) w') w.
Proof.
  revert done w. induction l as [|i l IH]; intros done w Hstep Hnd Hdis Ht HP; [by apply wp_ret|].
  apply NoDup_cons in Hnd as [Hi Hnd]. cbn [each]. apply wp_bind.
  eapply wp_mono; [apply Hstep; [constructor|apply Hdis; constructor|done..]|].
  intros _ w1 [Ht1 HP1]. cbn [rev]. rewrite <- app_assoc. apply (IH (i :: done)); [|done| |done..].
  - intros j done' w' Hj. apply Hstep. by constructor.
  - intros j Hj. rewrite not_elem_of_cons. split; [by intros ->|]. apply Hdis. by constructor.
Qed.

Lemma wp_stop_unrecorded adopted units w :
  wp o (stop_unrecorded adopted units)
    (fun _ w' => shared w' = shared w /\ mutex w' = mutex w
       /\ exists evs, trace w' = trace w ++ evs
          /\ Forall (fun ev => event_slot ev ∉ adopted) evs) w.
Proof.
  revert w. induction units as [|u units IH]; intros w; cbn [stop_unrecorded].
  { apply wp_ret. split_and! ; try done. exists []. by rewrite app_nil_r. }
  apply wp_bind. case_bool_decide as Hin; [by apply wp_ret|].
  apply wp_bind, wp_perform. intros r1 d1 evs1 w1 E1 M1.
  apply wp_bind, wp_perform. intros r2 d2 evs2 w2 E2 M2. apply wp_ret.
  eapply wp_mono; [apply IH|]. intros _ w3 (Hs & Hm & evs & Htr & Hev).
  destruct M1 as [S1 U1 _ T1 _], M2 as [S2 U2 _ T2 _]. split_and! ; [congruence..|].
  cbn in E1, E2. simplify_eq. exists ([Stopped (mu_slot u) (succeeded (o_unit o (tick w)))] ++ evs).
  split; [by rewrite Htr, T2, T1, app_nil_r, app_assoc|]. by constructor.
Qed.

Lemma wp_evict fuel (Q : unit -> World -> Prop) w :
  0 < fuel -> mutex w = None -> registry_ok retained named (shared w) ->
  (forall w', moved o 0 (shared w) (disk w) [] w w' -> Q tt w') -> wp o (evict_over_budget fuel) Q w.
Proof.
  intros Hf Hm Hok HQ. destruct fuel as [|fuel]; [lia|]. apply wp_bind, wp_locked; [done|].
  intros w1 Hmv. cbn in *. unfold eviction_victim.
  rewrite (proj2 (N.leb_le _ _)) by apply Hok. by apply wp_ret, HQ.
Qed.

Definition booted (now : N) : World :=
  mkWorld (mkShared (mkRegistryState ∅ 0 0 []) []) None d0 now 0 [].

Lemma booted_taking now : taking [] (booted now).
Proof. split; try done. split; cbn; try done; [by vm_compute..|lia]. Qed.

Lemma slot_list_spec (d : Disk) :
  NoDup (List.filter (fun s => (s <? retained)%N) (btree_keys d))
  /\ forall i, i ∈ List.filter (fun s => (s <? retained)%N) (btree_keys d)
       <-> is_Some (d !! i) /\ (i < retained)%N.
Proof.
  split.
  - apply NoDup_ListNoDup, List.NoDup_filter, NoDup_ListNoDup. unfold btree_keys. apply btree_iter_NoDup.
  - intros i. rewrite list_elem_of_In, filter_In, <- list_elem_of_In, N.ltb_lt.
    unfold btree_keys. by rewrite elem_of_btree_iter, elem_of_dom.
Qed.

Definition listed (t : N) : option (list ManagedUnit) :=
  match o_units o t with Ok units => Some units | Err _ => None end.

(** The takeover as a whole, with a fact [P] that every slot keeps: it either
    could not list the slots, or has been through all of them and then
    stopped units without an entry. *)
Definition taken_over (P : list N -> World -> Prop) (w : World) : Prop :=
  registry_ok retained named (shared w) /\ mutex w = None
  /\ (o_list o 0 = None -> exists done w1 evs,
        P done w1 /\ (forall i, is_Some (d0 !! i) -> (i < retained)%N -> i ∈ done)
        /\ shared w = shared w1 /\ trace w = trace w1 ++ evs
        /\ Forall (fun ev => slots (registry (shared w1)) !! event_slot ev = None) evs).

Lemma wp_startup fuel now (P : list N -> World -> Prop) :
  0 < fuel ->
  (forall t i done w, is_Some (d0 !! i) -> (i < retained)%N -> i ∉ done -> taking done w -> P done w ->
     wp o (adopt_found config (listed t) i)
       (fun _ w' => taking (i :: done) w' /\ P (i :: done) w') w) ->
  (forall w, registry (shared w) = mkRegistryState ∅ 0 0 [] -> trace w = [] -> P [] w) ->
  wp o (reconcile_on_startup config fuel) (fun _ => taken_over P) (booted now).
Proof.
  intros Hf Hstep HP. apply wp_bind, wp_read; [done|]. intros w1 M1. cbn [respond fst booted tick].
  destruct (o_list o 0) as [e|] eqn:El.
  { apply wp_ret. destruct M1 as [S1 U1 _ _ _]. unfold taken_over. rewrite S1, U1, El. split_and! ; [by apply (tk_ok [] _ (booted_taking now))|done|done]. }
  apply wp_bind, wp_read; [done|]. intros w2 M2. cbn [respond fst].
  fold (listed (tick w1)). fold retained. cbn [booted disk].
  destruct (slot_list_spec d0) as [Hnd Hin].
  set (found := List.filter _ _) in *.
  destruct M1 as [S1 U1 D1 T1 _], M2 as [S2 U2 D2 T2 _]. cbn in S1, U1, D1, T1.
  assert (taking [] w2) as Ht2.
  { destruct (booted_taking now) as [Hok He Hd Hm].
    split; [by rewrite S2, S1|by rewrite S2, S1|by rewrite D2, D1|congruence]. }
  apply wp_bind. eapply wp_mono.
  { apply (wp_each_adopt (listed (tick w1)) P found [] w2); [|done|set_solver|done|].
    - intros i done w [Hi1 Hi2]%Hin. by apply Hstep.
    - apply HP; [by rewrite S2, S1|]. by rewrite T2, T1. }
  cbn beta. rewrite app_nil_r. intros _ w3 [Ht3 HP3]. apply wp_bind.
  assert (Hend : forall w4 evs, shared w4 = shared w3 -> mutex w4 = None ->
    trace w4 = trace w3 ++ evs ->
    Forall (fun ev => slots (registry (shared w3)) !! event_slot ev = None) evs ->
    wp o (evict_over_budget fuel) (fun _ => taken_over P) w4).
  { intros w4 evs S4 U4 T4 F4. apply wp_evict; [done..|by rewrite S4; apply Ht3|].
    intros w5 [S5 U5 _ T5 _]. unfold taken_over. rewrite S5, S4. split_and! ; [apply Ht3|congruence|]. intros _.
    exists (rev found), w3, evs. split_and! ; try done; [|by rewrite T5, T4, app_nil_r].
    intros i Hi1 Hi2. rewrite list_elem_of_In, <- in_rev, <- list_elem_of_In. by apply Hin. }
  destruct (listed (tick w1)) as [units|].
  - apply wp_bind, wp_locked; [apply Ht3|]. intros w4 [S4 U4 _ T4 _].
    eapply wp_mono; [apply wp_stop_unrecorded|]. intros _ w5 (S5 & U5 & evs & T5 & F5).
    apply (Hend w5 evs); [by rewrite S5, S4|rewrite U5, U4; apply Ht3|by rewrite T5, T4, app_nil_r|].
    eapply Forall_impl; [exact F5|]. cbn. intros ev Hev.
    unfold btree_keys in Hev. rewrite elem_of_btree_iter in Hev. by apply not_elem_of_dom in Hev.
  - apply wp_ret, (Hend w3 []); [done|apply Ht3|by rewrite app_nil_r|constructor].
Qed.

Lemma startup_accounts fuel now :
  0 < fuel ->
  wp o (reconcile_on_startup config fuel)
    (fun _ w' => registry_ok retained named (shared w') /\ mutex w' = None) (booted now).
Proof.
  intros Hf. eapply wp_mono.
  - apply (wp_startup fuel now (fun _ _ => True)); [done| |done].
    intros t i done w Hd Hi Hnd Ht _.
    apply (wp_adopt_found done i w); [done..|by apply taking_fresh|]. by intros w' [Hw' _].
  - intros _ w' (Hok & Hm & _). by split.
Qed.

(** *** A unit that runs *)

Section live.
Context (i : N) (dir : SlotDir) (r : DurableRecord) (spec : ExecSpec.ExecSpec)
  (units : list ManagedUnit).
Hypothesis Hdir : d0 !! i = Some dir.
Hypothesis Hrecord : dir_record dir = Some r.
Hypothesis Hspec : dir_spec dir = Some spec.
Hypothesis Hi : (i < retained)%N.
Hypothesis Hid : is_valid_exec_id (exec_id r) = true.
Hypothesis Hboot : boot_id r = cfg_boot_id config.
Hypothesis Hstore : forall t, o_store o t i = None.
Hypothesis Hunits : forall t, o_units o t = Ok units.
Hypothesis Hlive : classify_unit config (Ok spec) units i = Live.
Hypothesis Hstatus : forall t,
  status_to_terminal (match o_status o t i with Ok s => s | Err _ => None end) = None.

(** The record is back, as a running command, and the unit has been left
    alone. *)
Definition running_again (done : list N) (w : World) : Prop :=
  (i ∈ done -> exists now,
     slots (registry (shared w)) !! i = Some (adopted_entry config now r Adopt_Running))
  /\ forall ok, Stopped i ok ∉ trace w.

Lemma wp_adopt_live done w0 w (Q : unit -> World -> Prop) :
  fresh_slot done i w0 w ->
  (forall now w', at_slot done i w0 w' -> trace w' = trace w ->
     slots (registry (shared w')) !! i = Some (adopted_entry config now r Adopt_Running) -> Q tt w') ->
  wp o (adopt_slot config i Live) Q w.
Proof.
  intros Hf HQ.
  assert (Hin : d0 !! i ≫= dir_record = Some r) by by rewrite Hdir.
  apply wp_bind, wp_read; [done|]. intros w1 M1. pose proof (fresh_moved _ _ _ _ _ Hf M1) as Hf1.
  cbn [respond fst]. rewrite Hstore. cbn [answer].
  apply wp_bind, wp_read; [done|]. intros w2 M2. pose proof (fresh_moved _ _ _ _ _ Hf1 M2) as Hf2.
  cbn [respond fst]. rewrite Hstore, (proj2 Hf1), Hin, Hid. cbn [negb].
  rewrite bool_decide_eq_false_2 by naive_solver.
  apply wp_bind, wp_read; [done|]. intros w3 M3. pose proof (fresh_moved _ _ _ _ _ Hf2 M3) as Hf3.
  cbn [respond fst]. unfold adopt_record. rewrite Hstatus.
  apply (wp_insert_adopted done i w0); [done|done|by split; [eauto|]|apply Hf3|].
  intros t w4 Hat Htr Hs. apply (HQ t); [done| |done].
  by rewrite Htr, (mv_trace _ _ _ _ _ _ _ M3), (mv_trace _ _ _ _ _ _ _ M2),
    (mv_trace _ _ _ _ _ _ _ M1), !app_nil_r.
Qed.

Lemma wp_classify_live done w (Q : SlotLiveness -> World -> Prop) :
  fresh_slot done i w w -> (forall w', fresh_slot done i w w' -> trace w' = trace w -> Q Live w') ->
  wp o (classify config units i) Q w.
Proof.
  intros Hf HQ. apply wp_bind. destruct (needs_spec units i) eqn:En.
  - apply wp_read; [done|]. intros w1 M1. apply wp_ret. cbn [respond fst].
    rewrite Hstore, (proj2 Hf), Hdir. cbn. rewrite Hspec, Hlive.
    apply HQ; [by eapply fresh_moved|]. by rewrite (mv_trace _ _ _ _ _ _ _ M1), app_nil_r.
  - apply wp_ret, wp_ret. rewrite (classify_unit_spec _ _ (Ok spec)), Hlive by done. by apply HQ.
Qed.

Lemma wp_adopt_found_live done w (Q : unit -> World -> Prop) :
  fresh_slot done i w w ->
  (forall now w', at_slot done i w w' -> trace w' = trace w ->
     slots (registry (shared w')) !! i = Some (adopted_entry config now r Adopt_Running) -> Q tt w') ->
  wp o (adopt_found config (Some units) i) Q w.
Proof.
  intros Hf HQ. apply wp_bind, (wp_classify_live done); [done|]. intros w1 Hf1 Ht1.
  apply (wp_adopt_live done w); [done|]. intros t w2 Hat Htr Hs. apply (HQ t); [done|congruence|done].
Qed.

Lemma startup_live fuel now :
  0 < fuel -> o_list o 0 = None ->
  wp o (reconcile_on_startup config fuel) (fun _ w' =>
    (exists now, slots (registry (shared w')) !! i = Some (adopted_entry config now r Adopt_Running))
    /\ forall ok, Stopped i ok ∉ trace w') (booted now).
Proof.
  intros Hf Hl. eapply wp_mono.
  - apply (wp_startup fuel now running_again); [done| |].
    + intros t j done w Hd Hj Hnd Ht [HP1 HP2]. unfold listed. rewrite Hunits.
      destruct (decide (j = i)) as [->|Hne].
      * apply (wp_adopt_found_live done); [by apply taking_fresh|].
        intros t' w' [Hat _] Htr Hs. split; [done|]. split; [by exists t'|]. by rewrite Htr.
      * apply (wp_adopt_found done j w); [done..|by apply taking_fresh|].
        intros w' [Hat [Hs _ (evs & Htr & Hev) _]]. split; [done|]. split.
        -- intros Hin. rewrite Hs by done. apply HP1. set_solver.
        -- intros ok. rewrite Htr, elem_of_app. intros [Hin|Hin]; [by apply HP2 in Hin|].
           rewrite Forall_forall in Hev. specialize (Hev _ Hin). cbn in Hev. congruence.
    + intros w _ Htr. split; [set_solver|]. rewrite Htr. set_solver.
  - intros _ w' (_ & _ & Hw'). destruct (Hw' Hl) as (done & w1 & evs & [HP1 HP2] & Hall & Hs & Htr & Hev).
    destruct HP1 as [t Ht]; [by apply Hall; [eexists|]|]. rewrite Hs. split; [by exists t|].
    intros ok. rewrite Htr, elem_of_app. intros [Hin|Hin]; [by apply HP2 in Hin|].
    rewrite Forall_forall in Hev. specialize (Hev _ Hin). cbn in Hev. congruence.
Qed.

End live.

End startup.
End Startup.

(** ** Creation *)

Module Creation.
Import DetachedSound.Accounts Alone Startup.

Definition is_start (ev : Event) : bool := match ev with Started _ _ _ => true | _ => false end.

Section creation.
Context (config : RegistryConfig) (argv_hash : ValidatedCommand -> string) (o : Oracle).
Context (w0 : World).

(** *** A slot whose command has an entry *)

Section settled.
Context (i : N) (id sha : string) (T : list Event -> Prop).
Hypothesis T_quiet : forall evs ev, T evs -> is_start ev = false -> T (evs ++ [ev]).

(** [T] holds of what has happened since [w0]. *)
Definition since (w : World) : Prop := exists evs, trace w = trace w0 ++ evs /\ T evs.

Record settled (w : World) : Prop := mkSettled {
  se_mutex : mutex w = None;
  se_rest : forall j, j <> i ->
    slots (registry (shared w)) !! j = slots (registry (shared w0)) !! j;
  se_entry : exists e, slots (registry (shared w)) !! i = Some e
    /\ exec_id (record e) = id /\ argv_sha256 (record e) = sha /\ hidden e = false;
  se_since : since w
}.

Lemma T_quiets evs evs' : T evs -> Forall (fun ev => is_start ev = false) evs' -> T (evs ++ evs').
Proof.
  intros Hevs Hq. revert evs Hevs. induction Hq as [|ev evs' Hev _ IH]; intros evs Hevs.
  - by rewrite app_nil_r.
  - rewrite cons_middle, app_assoc. by apply IH, T_quiet.
Qed.

Lemma respond_quiet {R : Set} t (c : call R) d r d' evs :
  respond o t c d = (r, d', evs) ->
  match c with StartTransientUnit _ _ => True | _ => Forall (fun ev => is_start ev = false) evs end.
Proof.
  intros Hr. destruct c; cbn in Hr; try done.
  all: try (destruct (ExecSpec.validate spec); cbn in Hr).
  all: try (destruct (write_file _ _ _ _); cbn in Hr).
  all: simplify_eq; by repeat constructor.
Qed.

Definition quiet {R : Set} (c : call R) : bool :=
  match c with StartTransientUnit _ _ => false | _ => true end.

Lemma since_call {R : Set} (c : call R) r d evs s w w' :
  quiet c = true -> respond o (tick w) c (disk w) = (r, d, evs) ->
  moved o 0 s d evs w w' -> since w -> since w'.
Proof.
  intros Hc Hr Hm (evs0 & Htr & HT). exists (evs0 ++ evs). split.
  - by rewrite (mv_trace _ _ _ _ _ _ _ Hm), Htr, app_assoc.
  - apply T_quiets; [done|]. apply respond_quiet in Hr. by destruct c.
Qed.

Lemma since_moved ms s d w w' : moved o ms s d [] w w' -> since w -> since w'.
Proof.
  intros Hm (evs & Htr & HT). exists evs. by rewrite (mv_trace _ _ _ _ _ _ _ Hm), app_nil_r.
Qed.

Lemma wp_settled_call {R : Set} (c : call R) (Q : R -> World -> Prop) w :
  settled w -> quiet c = true -> (forall r w', settled w' -> Q r w') -> wp o (perform c) Q w.
Proof.
  intros [Hm Hr He Hs] Hc HQ. apply wp_perform. intros r d evs w' Hres Hmv. apply HQ.
  pose proof (since_call c r d evs _ w w' Hc Hres Hmv Hs). destruct Hmv as [Sh Mu _ _ _].
  split; [congruence|by rewrite Sh|by rewrite Sh|done].
Qed.

Lemma settled_moved ms d w w' : moved o ms (shared w) d [] w w' -> settled w -> settled w'.
Proof.
  intros Hmv [Hm Hr He Hs]. pose proof (since_moved _ _ _ _ _ Hmv Hs).
  destruct Hmv as [Sh Mu _ _ _]. split; [congruence|by rewrite Sh|by rewrite Sh|done].
Qed.

(** A section that leaves the entry's names and keeps it listed. *)
Definition keeps_entry (f : RegistryState -> option DurableRecord * RegistryState) : Prop :=
  forall reg e, slots reg !! i = Some e ->
    (forall j, j <> i -> slots (snd (f reg)) !! j = slots reg !! j)
    /\ exists e', slots (snd (f reg)) !! i = Some e' /\ exec_id (record e') = exec_id (record e)
       /\ argv_sha256 (record e') = argv_sha256 (record e)
       /\ (hidden e = false -> hidden e' = false).

Lemma wp_settled_locked f (Q : option DurableRecord -> World -> Prop) w :
  settled w -> keeps_entry f -> (forall r w', settled w' -> Q r w') ->
  wp o (locked (on_registry f)) Q w.
Proof.
  intros [Hm Hr (e & He & Hid & Hsha & Hh) Hs] Hf HQ. apply wp_locked; [done|]. intros w' Hmv.
  apply HQ. pose proof (since_moved _ _ _ _ _ Hmv Hs). destruct Hmv as [Sh Mu _ _ _].
  destruct (Hf _ e He) as (Hrest & e' & He' & Hid' & Hsha' & Hh').
  unfold on_registry in Sh. destruct (f (registry (shared w))) as [x reg]. cbn in *.
  split; [congruence| | |done]; rewrite Sh; cbn.
  - intros j Hj. by rewrite Hrest, Hr.
  - exists e'. split_and! ; [done|congruence|congruence|auto].
Qed.

Lemma put_keeps f e' :
  (forall reg e, slots reg !! i = Some e -> exists r, f reg = (r, put_entry i (e' e) reg)) ->
  (forall e, exec_id (record (e' e)) = exec_id (record e)
     /\ argv_sha256 (record (e' e)) = argv_sha256 (record e)
     /\ (hidden e = false -> hidden (e' e) = false)) -> keeps_entry f.
Proof.
  intros Hf He' reg e He. destruct (Hf reg e He) as [r ->]. cbn. split.
  - intros j Hj. by apply lookup_insert_ne.
  - exists (e' e). rewrite lookup_insert_eq. naive_solver.
Qed.

Lemma set_running_keeps : keeps_entry (set_running i).
Proof.
  eapply put_keeps.
  - intros reg e He. unfold set_running. rewrite He. by eexists.
  - intros e. cbn. by case_bool_decide.
Qed.

Lemma released_keeps f e' :
  (forall reg e, slots reg !! i = Some e ->
     f reg = (None, reg) \/ exists r, f reg = (r, release_active i (put_entry i (e' e) reg))) ->
  (forall e, active_counted (e' e) = active_counted e
     /\ exec_id (record (e' e)) = exec_id (record e)
     /\ argv_sha256 (record (e' e)) = argv_sha256 (record e)
     /\ (hidden e = false -> hidden (e' e) = false)) -> keeps_entry f.
Proof.
  intros Hf He' reg e He. destruct (He' e) as (Hc & ? & ? & ?).
  destruct (Hf reg e He) as [->|[r ->]]; cbn; [naive_solver|].
  rewrite (release_replaced i e) by done. cbn. split.
  - intros j Hj. by apply lookup_insert_ne.
  - exists (set_counted false (e' e)). rewrite lookup_insert_eq. naive_solver.
Qed.

Lemma set_terminal_keeps now t code signal : keeps_entry (set_terminal_entry i now t code signal).
Proof.
  eapply released_keeps.
  - intros reg e He. right. unfold set_terminal_entry. rewrite He. by eexists.
  - intros e. cbn. by destruct (entry_is_terminal e).
Qed.

Lemma set_lost_keeps now : keeps_entry (set_lost_entry i now).
Proof.
  apply (released_keeps _ (fun e => set_record (set_lost now (record e)) true e)).
  - intros reg e He. unfold set_lost_entry. rewrite He.
    destruct (entry_is_terminal e); [by left|]. right. by eexists.
  - intros e. done.
Qed.

(** *** Reconciling it *)

Lemma wp_settled_write r (Q : unit -> World -> Prop) w :
  settled w -> (forall w', settled w' -> Q tt w') -> wp o (write_if i r) Q w.
Proof.
  intros Hs HQ. destruct r as [r|]; [|by apply wp_ret, HQ].
  apply wp_bind, wp_settled_call; [done..|]. intros _ w1 Hs1. by apply wp_ret, HQ.
Qed.

Lemma wp_settled_now (Q : N -> World -> Prop) w :
  settled w -> (forall t w', settled w' -> Q t w') -> wp o now Q w.
Proof. intros Hs HQ. apply wp_now. intros w' Hmv. apply HQ. by eapply settled_moved. Qed.

Lemma wp_settled_running (Q : unit -> World -> Prop) w :
  settled w -> (forall w', settled w' -> Q tt w') -> wp o (commit_running i) Q w.
Proof.
  intros Hs HQ. apply wp_bind, wp_settled_locked; [done|apply set_running_keeps|].
  intros r w1 Hs1. by apply wp_settled_write.
Qed.

Lemma wp_settled_terminal t code signal (Q : unit -> World -> Prop) w :
  settled w -> (forall w', settled w' -> Q tt w') -> wp o (commit_terminal i t code signal) Q w.
Proof.
  intros Hs HQ. apply wp_bind, wp_settled_now; [done|]. intros now w1 Hs1.
  apply wp_bind, wp_settled_locked; [done|apply set_terminal_keeps|].
  intros r w2 Hs2. by apply wp_settled_write.
Qed.

Lemma wp_settled_lost (Q : unit -> World -> Prop) w :
  settled w -> (forall w', settled w' -> Q tt w') -> wp o (mark_lost i) Q w.
Proof.
  intros Hs HQ. apply wp_bind, wp_settled_now; [done|]. intros now w1 Hs1.
  apply wp_bind, wp_settled_locked; [done|apply set_lost_keeps|].
  intros [r|] w2 Hs2; [|by apply wp_ret, HQ].
  apply wp_bind, wp_settled_call; [done..|]. intros _ w3 Hs3.
  apply wp_bind, wp_settled_call; [done..|]. intros _ w4 Hs4. by apply wp_ret, HQ.
Qed.

Lemma wp_settled_stop (Q : unit -> World -> Prop) w :
  settled w -> (forall w', settled w' -> Q tt w') -> wp o (stop_and_reset i) Q w.
Proof.
  intros Hs HQ. apply wp_bind, wp_settled_call; [done..|]. intros _ w1 Hs1.
  apply wp_bind, wp_settled_call; [done..|]. intros _ w2 Hs2. by apply wp_ret, HQ.
Qed.

Lemma wp_settled_liveness (Q : SlotLiveness -> World -> Prop) w :
  settled w -> (forall l w', settled w' -> Q l w') -> wp o (unit_liveness config i) Q w.
Proof.
  intros Hs HQ. apply wp_bind, wp_settled_call; [done..|]. intros [units|] w1 Hs1.
  - apply wp_bind. destruct (needs_spec units i); [|by apply wp_ret, wp_ret, HQ].
    apply wp_settled_call; [done..|]. intros r w2 Hs2. by apply wp_ret, HQ.
  - by apply wp_ret, HQ.
Qed.

Lemma wp_settled_deadline (Q : bool -> World -> Prop) w :
  settled w -> (forall b w', settled w' -> Q b w') -> wp o (within_deadline i) Q w.
Proof.
  intros [Hm Hr He Hs] HQ. unfold wp, within_deadline. cbn [finish]. rewrite Hm.
  cbn [mutex with_mutex pass shared]. rewrite bool_decide_eq_true_2 by done. cbn [fst snd].
  destruct He as (e & He & Hid & Hsha & Hh). rewrite He.
  destruct (bool_decide (state (record e) = Dispatching)); cbn [finish mutex pass with_shared];
    rewrite bool_decide_eq_true_2 by done; eexists _, _; (split; [done|]); apply HQ; split; cbn;
    try done; eauto 6.
Qed.

Lemma wp_settled_reconcile (Q : unit -> World -> Prop) w :
  settled w -> (forall w', settled w' -> Q tt w') -> wp o (reconcile_slot config i) Q w.
Proof.
  intros Hs HQ.
  assert (Hlost : forall w, settled w -> wp o (lost_unless_dispatching i) Q w).
  { intros w1 Hs1. apply wp_bind, wp_settled_deadline; [done|]. intros [] w2 Hs2.
    - by apply wp_ret, HQ.
    - by apply wp_settled_lost. }
  assert (Hlive : forall w, settled w -> wp o (reconcile_liveness config i) Q w).
  { intros w1 Hs1. apply wp_bind, wp_settled_liveness; [done|]. intros [] w2 Hs2.
    - by apply wp_ret, HQ.
    - apply wp_bind, wp_settled_call; [done..|]. intros [] w3 Hs3; [by apply Hlost|by apply wp_ret, HQ].
    - apply wp_bind, wp_settled_call; [done..|]. intros [] w3 Hs3; [|by apply wp_ret, HQ].
      apply wp_bind, wp_settled_call; [done..|]. intros _ w4 Hs4. by apply Hlost.
    - by apply Hlost.
    - by apply wp_ret, HQ. }
  assert (Hterm : forall t code signal w, settled w ->
    wp o (bind (stop_and_reset i) (fun _ => commit_terminal i t code signal)) Q w).
  { intros t code signal w1 Hs1. apply wp_bind, wp_settled_stop; [done|]. intros w2 Hs2.
    by apply wp_settled_terminal. }
  apply wp_bind, wp_locked; [apply Hs|]. intros w1 M1. cbn in M1.
  pose proof (settled_moved _ _ _ _ M1 Hs) as Hs1.
  destruct (se_entry _ Hs) as (e & He & _ & _ & Hh). cbn [fst]. rewrite He. cbn [option_map].
  rewrite Hh. cbn [orb].
  destruct (entry_is_terminal e); [by apply wp_ret, HQ|].
  apply wp_bind, wp_settled_call; [done..|]. intros [[[]|]|] w2 Hs2; auto.
  apply wp_bind, wp_settled_running; [done|]. auto.
Qed.

(** The snapshot shows the entry. *)
Definition shows (snap : ExecSnapshot) (w : World) : Prop :=
  exists e, slots (registry (shared w)) !! i = Some e
    /\ snap_state snap = public_state (record e) /\ outcome snap = public_outcome (record e)
    /\ state_generation snap = generation e.

Lemma wp_settled_snapshot (Q : result ExecSnapshot ExecError -> World -> Prop) w :
  settled w -> (forall snap w', settled w' -> shows snap w' -> Q (Ok snap) w') ->
  wp o (snapshot_for i) Q w.
Proof.
  intros Hs HQ. apply wp_bind, wp_locked; [apply Hs|]. intros w1 M1. cbn in M1.
  pose proof (settled_moved _ _ _ _ M1 Hs) as Hs1.
  destruct (se_entry _ Hs) as (e & He & _). cbn [fst]. rewrite He. cbn [option_map].
  apply wp_bind, wp_bind, wp_read; [done|]. intros w2 M2. pose proof (settled_moved _ _ _ _ M2 Hs1).
  apply wp_bind, wp_read; [done|]. intros w3 M3. pose proof (settled_moved _ _ _ _ M3 H).
  apply wp_ret. apply wp_ret. apply HQ; [done|]. exists e. split; [|done].
  by rewrite (mv_shared _ _ _ _ _ _ _ M3), (mv_shared _ _ _ _ _ _ _ M2), (mv_shared _ _ _ _ _ _ _ M1).
Qed.

End settled.
(** *** A create in flight *)

(** Units started: slot [i]'s, and only with the record and the spec in the
    directory. *)
Definition well_started (i : N) (r : DurableRecord) (spec : ExecSpec.ExecSpec) (evs : list Event) :
    Prop :=
  forall j dir ok, Started j dir ok ∈ evs ->
    j = i /\ exists d, dir = Some d /\ dir_record d = Some r /\ dir_spec d = Some spec.

Lemma well_started_app i r spec evs evs' :
  well_started i r spec evs -> well_started i r spec evs' -> well_started i r spec (evs ++ evs').
Proof. intros H1 H2 j dir ok [Hin|Hin]%elem_of_app; eauto. Qed.

Lemma well_started_quiet i r spec evs ev :
  well_started i r spec evs -> is_start ev = false -> well_started i r spec (evs ++ [ev]).
Proof.
  intros Hw Hev. apply well_started_app; [done|]. intros j dir ok Hin.
  apply list_elem_of_singleton in Hin. by subst.
Qed.

Section flight.
Context (i : N) (e : SlotEntry) (reg : RegistryState) (spec : ExecSpec.ExecSpec).
Hypothesis He : slots reg !! i = Some e.
Hypothesis Hdispatching : state (record e) = Dispatching.
Hypothesis Hrest : forall j, j <> i -> slots reg !! j = slots (registry (shared w0)) !! j.

Notation id := (exec_id (record e)).
Notation sha := (argv_sha256 (record e)).
Notation T := (well_started i (record e) spec).
Notation entry_settled := (settled i id sha T).

Record flying (w : World) : Prop := mkFlying {
  fl_registry : registry (shared w) = reg;
  fl_mutex : mutex w = None;
  fl_since : since T w
}.

(** The reservation is undone and the unit told to stop. *)
Record aborted (w : World) : Prop := mkAborted {
  ab_registry : registry (shared w) = remove_entry i reg;
  ab_mutex : mutex w = None;
  ab_since : since (fun evs => T evs /\ exists ok, Stopped i ok ∈ evs) w
}.

Lemma flying_moved ms w w' : moved o ms (shared w) (disk w) [] w w' -> flying w -> flying w'.
Proof.
  intros Hmv [Hr Hm Hs]. pose proof (since_moved T _ _ _ _ _ Hmv Hs).
  destruct Hmv as [Sh Mu _ _ _]. split; [congruence|congruence|done].
Qed.

Lemma wp_fly_call {R : Set} (c : call R) (Q : R -> World -> Prop) w :
  flying w -> quiet c = true ->
  (forall r d evs w', respond o (tick w) c (disk w) = (r, d, evs) -> flying w' ->
     disk w' = d -> ((forall t, 0 <= o_elapsed o t)%Z -> (clock w <= clock w')%N) -> Q r w') ->
  wp o (perform c) Q w.
Proof.
  intros [Hr Hm Hs] Hc HQ. apply wp_perform. intros r d evs w' Hres Hmv.
  pose proof (since_call T (well_started_quiet _ _ _) c r d evs _ w w' Hc Hres Hmv Hs).
  destruct Hmv as [Sh Mu Hd _ Hcl]. apply (HQ r d evs w'); try done.
  - split; [congruence|congruence|done].
  - intros Ht. specialize (Hcl Ht). lia.
Qed.

Lemma write_file_ok j f error d d' :
  write_file j f error d = (Ok tt, d') -> exists dir, d' !! j = Some (f dir) /\ d !! j = Some dir.
Proof.
  unfold write_file. destruct error, (d !! j) as [dir|]; try done. intros [= <-]. exists dir.
  split; [apply lookup_insert_eq|done].
Qed.

Lemma wp_persist (Q : result unit ExecError -> World -> Prop) w :
  flying w ->
  (forall w' d, flying w' -> disk w' !! i = Some d -> dir_record d = Some (record e) ->
     dir_spec d = Some spec -> Q (Ok tt) w') ->
  (forall err w', flying w' -> Q (Err err) w') -> wp o (persist_dispatch i spec) Q w.
Proof.
  intros Hf HOk HErr.
  apply wp_bind, wp_fly_call; [done..|]. intros [[]|err] d1 evs1 w1 _ Hf1 _ _; [|by apply wp_ret, HErr].
  apply wp_bind, wp_fly_call; [done..|]. intros [[]|err] d2 evs2 w2 _ Hf2 _ _; [|by apply wp_ret, HErr].
  apply wp_bind, wp_locked; [apply Hf2|]. intros w3 M3. cbn [fst snd] in *.
  pose proof (flying_moved _ _ _ M3 Hf2) as Hf3. rewrite (fl_registry _ Hf2), He.
  apply wp_bind, wp_fly_call; [done..|]. intros [[]|err] d4 evs4 w4 E4 Hf4 Hd4 _; [|by apply wp_ret, HErr].
  apply wp_fly_call; [done..|]. intros [[]|err] d5 evs5 w5 E5 Hf5 Hd5 _; [|by apply HErr].
  cbn in E4, E5. destruct (write_file _ _ _ (disk w3)) as [x4 y4] eqn:W4. simplify_eq.
  apply write_file_ok in W4 as (dir4 & L4 & _).
  destruct (ExecSpec.validate spec); [|done].
  destruct (write_file _ _ _ (disk w4)) as [x5 y5] eqn:W5. simplify_eq.
  apply write_file_ok in W5 as (dir5 & L5 & L45).
  assert (dir5 = mkSlotDir (Some (record e)) (dir_spec dir4) (dir_cancel dir4)) as -> by congruence.
  by eapply HOk.
Qed.

Lemma since_weaken (P P' : list Event -> Prop) w :
  (forall evs, P evs -> P' evs) -> since P w -> since P' w.
Proof. intros HP (evs & Htr & Hevs). exists evs. auto. Qed.

Lemma wp_abort (Q : unit -> World -> Prop) w :
  flying w -> (forall w', aborted w' -> Q tt w') -> wp o (abort_create i) Q w.
Proof.
  intros [Hr Hm Hs] HQ.
  set (T' := fun evs => T evs /\ exists ok, Stopped i ok ∈ evs).
  assert (T'_quiet : forall evs ev, T' evs -> is_start ev = false -> T' (evs ++ [ev])).
  { intros evs ev [HT [ok Hok]] Hev. split; [by apply well_started_quiet|]. exists ok. set_solver. }
  assert (Hstep : forall (R : Set) (c : call R) (Q : R -> World -> Prop) w,
    quiet c = true -> registry (shared w) = reg -> mutex w = None -> since T' w ->
    (forall r w', registry (shared w') = reg -> mutex w' = None -> since T' w' -> Q r w') ->
    wp o (perform c) Q w).
  { intros R c Q' w1 Hc Hr1 Hm1 Hs1 HQ'. apply wp_perform. intros r d evs w' Hres Hmv.
    pose proof (since_call T' T'_quiet c r d evs _ w1 w' Hc Hres Hmv Hs1).
    destruct Hmv as [Sh Mu _ _ _]. apply HQ'; [congruence|congruence|done]. }
  apply wp_bind, wp_bind, wp_perform. intros r1 d1 evs1 w1 E1 [Sh1 Mu1 _ Tr1 _].
  assert (since T' w1) as Hs1.
  { destruct Hs as (evs & Htr & HT). exists (evs ++ evs1). split; [by rewrite Tr1, Htr, app_assoc|].
    cbn in E1. simplify_eq. split; [by apply well_started_quiet|].
    eexists. apply elem_of_app. right. by apply list_elem_of_singleton. }
  apply wp_bind, Hstep; [done|congruence|congruence|done|]. intros _ w2 Hr2 Hm2 Hs2.
  apply wp_ret, wp_bind, Hstep; [done..|]. intros _ w3 Hr3 Hm3 Hs3.
  apply wp_locked; [done|]. intros w4 M4. apply HQ. pose proof (since_moved T' _ _ _ _ _ M4 Hs3).
  destruct M4 as [Sh4 Mu4 _ _ _]. split; [by rewrite Sh4; cbn; rewrite Hr3|congruence|done].
Qed.

(** A commit leaves an entry that is listed. *)
Lemma wp_settle f (Q : unit -> World -> Prop) w :
  flying w -> keeps_entry i f ->
  (forall e', slots (snd (f reg)) !! i = Some e' -> hidden e' = false) ->
  (forall w', entry_settled w' -> Q tt w') ->
  wp o (bind (locked (on_registry f)) (write_if i)) Q w.
Proof.
  intros [Hr Hm Hs] Hf Hh HQ. apply wp_bind, wp_locked; [done|]. intros w1 M1.
  apply wp_settled_write with (id := id) (sha := sha) (T := T);
    [by intros; apply well_started_quiet| |done].
  pose proof (since_moved T _ _ _ _ _ M1 Hs). destruct M1 as [Sh Mu _ _ _].
  destruct (Hf reg e He) as (Hj & e' & He' & Hid & Hsha & _).
  unfold on_registry in Sh. rewrite Hr in Sh.
  destruct (f reg) as [x reg']. cbn in *. split; [congruence| | |done]; rewrite Sh; cbn.
  - intros j Hne. by rewrite Hj, Hrest.
  - exists e'. naive_solver.
Qed.

Lemma wp_fly_running (Q : unit -> World -> Prop) w :
  flying w -> (forall w', entry_settled w' -> Q tt w') -> wp o (commit_running i) Q w.
Proof.
  intros Hf HQ. apply wp_settle; [done|apply set_running_keeps| |done].
  unfold set_running. rewrite He. cbn. rewrite lookup_insert_eq. by intros e' [= <-].
Qed.

Lemma wp_fly_terminal t code signal (Q : unit -> World -> Prop) w :
  flying w -> (forall w', entry_settled w' -> Q tt w') ->
  wp o (commit_terminal i t code signal) Q w.
Proof.
  intros Hf HQ. apply wp_bind, wp_now. intros w1 M1. pose proof (flying_moved _ _ _ M1 Hf) as Hf1.
  apply wp_settle; [done|apply set_terminal_keeps| |done].
  unfold set_terminal_entry. rewrite He. cbn.
  rewrite (release_replaced i e) by (try done; by destruct (entry_is_terminal e)).
  cbn. rewrite lookup_insert_eq. by intros e' [= <-].
Qed.

Definition outcome_ok (r : result (string * ExecSnapshot) ExecError) (w : World) : Prop :=
  match r with
  | Err _ => aborted w
  | Ok (id', snap) => id' = id /\ entry_settled w /\ shows i snap w
  end.

Lemma wp_committed w :
  entry_settled w -> wp o (committed i id) outcome_ok w.
Proof.
  intros Hs. apply wp_bind.
  apply (wp_settled_snapshot i id sha T); [done|].
  intros snap w1 Hs1 Hsh. apply wp_ret. by split.
Qed.

Lemma wp_fly_liveness (Q : SlotLiveness -> World -> Prop) w :
  flying w -> (forall l w', flying w' -> Q l w') -> wp o (unit_liveness config i) Q w.
Proof.
  intros Hs HQ. apply wp_bind, wp_fly_call; [done..|]. intros [units|] d1 evs1 w1 _ Hs1 _ _.
  - apply wp_bind. destruct (needs_spec units i); [|by apply wp_ret, wp_ret, HQ].
    apply wp_fly_call; [done..|]. intros r d2 evs2 w2 _ Hs2 _ _. by apply wp_ret, HQ.
  - by apply wp_ret, HQ.
Qed.

Hypothesis clock_forward : forall t, (0 <= o_elapsed o t)%Z.

Lemma wp_await fuel start w :
  flying w -> (start + CREATE_TIMEOUT_MS <= clock w + STATUS_POLL_INTERVAL_MS * N.of_nat fuel)%N ->
  wp o (await_create_resolution config (S fuel) i id start) outcome_ok w.
Proof.
  revert w. induction fuel as [|fuel IH]; intros w Hf Hfuel.
  all: cbn [await_create_resolution]; apply wp_bind, wp_fly_call; [done..|].
  all: intros [[[]|]|err] d1 evs1 w1 _ Hf1 _ Hc1; specialize (Hc1 clock_forward).
  all: try (apply wp_bind, wp_fly_running; [done|]; intros; by apply wp_committed).
  all: try (apply wp_bind, wp_fly_terminal; [done|]; intros; by apply wp_committed).
  all: try (apply wp_bind, wp_abort; [done|]; intros; by apply wp_ret).
  all: apply wp_bind, wp_now; intros w2 M2; pose proof (flying_moved _ _ _ M2 Hf1) as Hf2.
  all: pose proof (mv_clock _ _ _ _ _ _ _ M2 clock_forward) as Hc2.
  all: destruct (N.leb_spec CREATE_TIMEOUT_MS (clock w1 - start)) as [|Hlt].
  1, 3: apply wp_bind, wp_fly_liveness; [done|]; intros [] w3 Hf3;
    try (apply wp_bind, wp_fly_running; [done|]; intros; by apply wp_committed);
    (apply wp_bind, wp_abort; [done|]; intros; by apply wp_ret).
  - unfold CREATE_TIMEOUT_MS in *. lia.
  - apply wp_bind, wp_sleep. intros w3 M3. pose proof (flying_moved _ _ _ M3 Hf2) as Hf3.
    pose proof (mv_clock _ _ _ _ _ _ _ M3 clock_forward) as Hc3. apply IH; [done|].
    unfold STATUS_POLL_INTERVAL_MS in *. lia.
Qed.

Lemma wp_execute fuel command caps w :
  spec = build_spec command caps config i -> flying w -> 100 < fuel ->
  wp o (execute_reserved_create config fuel i id command caps) outcome_ok w.
Proof.
  intros Hspec Hf Hfuel. unfold execute_reserved_create. rewrite <- Hspec.
  apply wp_bind, wp_persist; [done| |].
  - intros w1 d Hf1 Hd Hrec Hsp. apply wp_bind, wp_perform. intros r d2 evs w2 E2 M2.
    assert (flying w2) as Hf2.
    { destruct Hf1 as [Hr1 Hm1 (evs1 & Htr & HT)], M2 as [Sh Mu _ Tr _].
      split; [congruence|congruence|]. exists (evs1 ++ evs).
      split; [by rewrite Tr, Htr, app_assoc|]. apply well_started_app; [done|].
      cbn in E2. simplify_eq. intros j dir ok Hin. apply list_elem_of_singleton in Hin.
      simplify_eq. split; [done|]. rewrite Hd. by exists d. }
    destruct r; [|apply wp_bind, wp_abort; [done|]; intros; by apply wp_ret].
    apply wp_bind, wp_now. intros w3 M3. pose proof (flying_moved _ _ _ M3 Hf2) as Hf3.
    pose proof (mv_clock _ _ _ _ _ _ _ M3 clock_forward). destruct fuel as [|fuel]; [lia|].
    apply wp_await; [done|]. unfold CREATE_TIMEOUT_MS, STATUS_POLL_INTERVAL_MS. lia.
  - intros err w1 Hf1. apply wp_bind, wp_abort; [done|]. intros. by apply wp_ret.
Qed.

End flight.

(** *** The transaction *)

(** What a create that returns [r] has done between [w0] and [w]. *)
Definition created (boot : string) (command : ValidatedCommand) (caps : DetachedCaps)
    (requested : option string) (r : result (string * ExecSnapshot) ExecError) (w : World) : Prop :=
  exists evs, trace w = trace w0 ++ evs
  /\ (forall i dir ok, Started i dir ok ∈ evs ->
        slots (registry (shared w0)) !! i = None
        /\ exists d rec, dir = Some d /\ dir_record d = Some rec
           /\ dir_spec d = Some (build_spec command caps config i)
           /\ state rec = Dispatching /\ argv_sha256 rec = argv_hash command /\ boot_id rec = boot)
  /\ match r with
     | Err _ =>
         registry (shared w) = registry (shared w0)
         /\ forall i dir ok, Started i dir ok ∈ evs -> exists ok', Stopped i ok' ∈ evs
     | Ok (id, snap) =>
         (requested = None \/ requested = Some id)
         /\ exists i e, slots (registry (shared w)) !! i = Some e
            /\ exec_id (record e) = id /\ argv_sha256 (record e) = argv_hash command
            /\ hidden e = false
            /\ snap_state snap = public_state (record e) /\ outcome snap = public_outcome (record e)
            /\ forall j, j <> i ->
                 slots (registry (shared w)) !! j = slots (registry (shared w0)) !! j
     end.

Section transaction.
Context (limit : N) (named : string -> Prop) (fuel : nat) (boot : string)
  (command : ValidatedCommand) (caps : DetachedCaps) (requested : option string).
Hypothesis clock_forward : forall t, (0 <= o_elapsed o t)%Z.
Hypothesis Hfuel : 100 < fuel.
Hypothesis Hok : registry_ok limit named (shared w0).
Hypothesis Hnamed : forall id, requested = Some id -> named id.
Hypothesis Hidle : forall i e, slots (registry (shared w0)) !! i = Some e -> creating e = false.
Hypothesis Hboot : boot = cfg_boot_id config.

Notation done_ok := (created boot command caps requested).

(** Nothing has happened yet. *)
Record untouched (w : World) : Prop := mkUntouched {
  un_shared : shared w = shared w0;
  un_mutex : mutex w = None;
  un_trace : trace w = trace w0
}.

Lemma untouched_moved ms d w w' :
  moved o ms (shared w) d [] w w' -> untouched w -> untouched w'.
Proof.
  intros [Sh Mu _ Tr _] [Hs Hm Ht]. split; [congruence|congruence|by rewrite Tr, app_nil_r].
Qed.

Lemma untouched_same ms d w w' : moved o ms (shared w0) d [] w w' -> untouched w -> untouched w'.
Proof. intros Hm Hun. eapply untouched_moved; [|done]. by rewrite (un_shared _ Hun). Qed.

Lemma untouched_err err w : untouched w -> done_ok (Err err) w.
Proof.
  intros [Hs _ Ht]. exists []. rewrite app_nil_r, Hs. split; [exact Ht|].
  split; [|split; [reflexivity|]]; intros i dir ok Hin; by apply not_elem_of_nil in Hin.
Qed.

(** The section of [admit_create], when it reserves. *)
Lemma reserve_spec id sha now s a s' :
  reserve_create config id sha caps now s = (Ok a, s') ->
  exists i e, a = Reserved i (length (channels s))
    /\ slots (registry s) !! i = None /\ slots (registry s') !! i = Some e
    /\ (forall j, j <> i -> slots (registry s') !! j = slots (registry s) !! j)
    /\ exec_id (record e) = id /\ argv_sha256 (record e) = sha /\ state (record e) = Dispatching
    /\ boot_id (record e) = cfg_boot_id config /\ remove_entry i (registry s') = registry s.
Proof.
  unfold reserve_create. destruct (_ <=? _)%N; [done|].
  destruct (free_slot (registry s)) as [i|] eqn:Hfree; [|done].
  apply free_slot_spec in Hfree as [Hi _].
  destruct (N.ltb_spec DETACHED_LOG_QUOTA_BYTES
    (u64_saturating_add (reserved_log_bytes (registry s)) (reserved_bytes caps))) as [|Hq]; [done|].
  intros [= <- <-]. exists i. eexists. split; [done|]. split; [done|]. cbn.
  split; [apply lookup_insert_eq|]. split; [intros j Hj; by rewrite lookup_insert_ne|].
  do 4 (split; [done|]). unfold remove_entry. cbn. rewrite lookup_insert_eq. cbn.
  rewrite delete_insert_id by done.
  assert (DETACHED_LOG_QUOTA_BYTES < u64_max)%N by reflexivity.
  assert (u64_saturating_add (reserved_log_bytes (registry s)) (reserved_bytes caps)
          - reserved_bytes caps = reserved_log_bytes (registry s))%N as ->
    by (unfold u64_saturating_add in *; lia).
  destruct (registry s) as [m a r t]. cbn. f_equal. lia.
Qed.

Lemma reserve_err id sha now s err s' :
  reserve_create config id sha caps now s = (Err err, s') -> s' = s.
Proof. unfold reserve_create. intros H. repeat case_match; naive_solver. Qed.

Lemma wp_reserved id now w i ch s :
  requested = None \/ requested = Some id ->
  reserve_create config id (argv_hash command) caps now (shared w0) = (Ok (Reserved i ch), s) ->
  shared w = s -> mutex w = None -> trace w = trace w0 ->
  wp o (bind (execute_reserved_create config fuel i id command caps)
          (fun r => Send ch (finished r) (Ret r))) done_ok w.
Proof.
  intros Hreq Hres Hs Hm Ht.
  destruct (reserve_spec _ _ _ _ _ _ Hres)
    as (i' & e & [= <- ->] & Hfree & He & Hrest & Eid & Esha & Est & Eboot & Hundo).
  apply wp_bind. eapply wp_mono.
  { rewrite <- Eid. apply (wp_execute i e (registry s) (build_spec command caps config i)); try done.
    split; [by rewrite Hs|done|]. exists []. rewrite app_nil_r. split; [done|]. intros j dir ok. set_solver. }
  assert (Hstarted : forall evs, well_started i (record e) (build_spec command caps config i) evs ->
    forall j dir ok, Started j dir ok ∈ evs ->
        slots (registry (shared w0)) !! j = None
        /\ exists d rec, dir = Some d /\ dir_record d = Some rec
           /\ dir_spec d = Some (build_spec command caps config j)
           /\ state rec = Dispatching /\ argv_sha256 rec = argv_hash command /\ boot_id rec = boot).
  { intros evs HT j dir ok Hin. destruct (HT j dir ok Hin) as (-> & d & -> & Hr & Hsp).
    split; [done|]. exists d, (record e). by rewrite Hboot. }
  intros r w1 Hout. eexists r, _. split; [done|]. destruct r as [[id' snap]|err].
  - destruct Hout as (-> & [Hm1 Hr1 (e1 & He1 & Hid1 & Hsha1 & Hh1) (evs & Htr & HT)] &
      e2 & He2 & Hst2 & Hout2 & _).
    exists evs. cbn. split; [done|]. split; [by apply Hstarted|].
    split; [by rewrite Eid|]. exists i, e1. rewrite He1 in He2. simplify_eq.
    by rewrite Hid1, Hsha1.
  - destruct Hout as [Hr1 Hm1 (evs & Htr & HT & Hstop)].
    exists evs. cbn. split; [done|]. split; [by apply Hstarted|]. split; [by rewrite Hr1|].
    intros j dir ok Hin. by destruct (HT j dir ok Hin) as [-> _].
Qed.

Lemma find_by_id_visible reg id i e :
  slots reg !! i = Some e -> exec_id (record e) = id -> hidden e = false ->
  exists j e', find_by_id reg id = Some j /\ slots reg !! j = Some e'
    /\ exec_id (record e') = id /\ hidden e' = false.
Proof.
  intros Hi Hid Hh. unfold find_by_id.
  destruct (List.find _ (btree_entries (slots reg))) as [[j e']|] eqn:Hf.
  - apply List.find_some in Hf as [Hin Hb]. apply andb_true_iff in Hb as [Hb1 Hb2].
    apply negb_true_iff in Hb1. apply bool_decide_eq_true in Hb2.
    apply list_elem_of_In, elem_of_btree_entries in Hin. by exists j, e'.
  - assert (In (i, e) (btree_entries (slots reg))) as Hin
      by by apply list_elem_of_In, elem_of_btree_entries.
    pose proof (List.find_none _ _ Hf (i, e) Hin) as Hb. cbn in Hb. rewrite Hh in Hb. cbn in Hb.
    by apply bool_decide_eq_false in Hb.
Qed.

Lemma wp_replay id i e w :
  requested = Some id -> slots (registry (shared w0)) !! i = Some e -> exec_id (record e) = id ->
  argv_sha256 (record e) = argv_hash command -> hidden e = false -> untouched w ->
  wp o (try (inspect config id boot) (fun snapshot => Ret (Ok (id, snapshot)))) done_ok w.
Proof.
  intros Hreq Hi Hid Hsha Hh Hun. apply wp_bind. unfold inspect.
  rewrite bool_decide_eq_false_2 by naive_solver.
  apply wp_bind, wp_locked; [apply Hun|]. intros w1 M1. cbn [fst snd] in *.
  pose proof (untouched_moved _ _ _ _ M1 Hun) as [Hs1 Hm1 Ht1]. rewrite (un_shared _ Hun).
  destruct (find_by_id_visible _ id i e Hi Hid Hh) as (j & e' & -> & Hj & Hid' & _).
  assert (j = i) as -> by (apply (ok_ids _ _ _ Hok j i e' e Hj Hi); [congruence|rewrite Hid'; auto]).
  set (T := fun evs : list Event => forall j dir ok, Started j dir ok ∉ evs).
  assert (T_quiet : forall evs ev, T evs -> is_start ev = false -> T (evs ++ [ev])).
  { intros evs ev HT Hev k dir ok [Hin|Hin]%elem_of_app; [by eapply HT|].
    apply list_elem_of_singleton in Hin. by subst. }
  apply wp_bind, (wp_settled_reconcile i id (argv_hash command) T T_quiet).
  { split; [done|by rewrite Hs1| |].
    - exists e. by rewrite Hs1.
    - exists []. rewrite app_nil_r. split; [done|]. intros k dir ok. set_solver. }
  intros w2 Hs2. apply (wp_settled_snapshot i id (argv_hash command) T); [done|].
  intros snap w3 [Hm3 Hr3 (e3 & He3 & Hid3 & Hsha3 & Hh3) (evs & Htr & HT)] (e4 & He4 & Hst & Hout & _).
  apply wp_ret. exists evs. split; [done|]. split; [by intros k dir ok Hin; apply HT in Hin|].
  split; [by right|]. exists i, e3. rewrite He3 in He4. by simplify_eq.
Qed.

Lemma wp_admitted id w :
  requested = None \/ requested = Some id -> untouched w ->
  wp o (bind now (fun t =>
    try (locked (admit_create config (bool_decide (is_Some requested)) id (argv_hash command) caps t))
      (run_admission config fuel boot id command caps))) done_ok w.
Proof.
  intros Hreq Hun. apply wp_bind, wp_now. intros w1 M1. pose proof (untouched_moved _ _ _ _ M1 Hun) as Hun1.
  apply wp_bind, wp_locked; [apply Hun1|]. intros w2 M2. rewrite (un_shared _ Hun1) in *.
  set (t := clock w) in *. clearbody t. clear M1 Hun w.
  assert (Hreserve : admit_create config (bool_decide (is_Some requested)) id (argv_hash command) caps t
      (shared w0) = reserve_create config id (argv_hash command) caps t (shared w0) ->
    wp o (match fst (admit_create config (bool_decide (is_Some requested)) id (argv_hash command) caps t
                 (shared w0)) with
          | Ok admission => run_admission config fuel boot id command caps admission
          | Err e => Ret (Err e)
          end) done_ok w2).
  { intros E. rewrite E in *. destruct M2 as [Sh Mu _ Tr _], Hun1 as [_ Hm Ht].
    destruct (reserve_create _ _ _ _ _ _) as [[a|err] s] eqn:Er; cbn [fst snd] in *.
    - destruct (reserve_spec _ _ _ _ _ _ Er) as (i & e & -> & _).
      eapply wp_reserved; [done|exact Er|done|congruence|by rewrite Tr, app_nil_r].
    - apply wp_ret, untouched_err. apply reserve_err in Er.
      split; [congruence|congruence|by rewrite Tr, app_nil_r]. }
  unfold admit_create in *. destruct (bool_decide_reflect (is_Some requested)) as [[id' Hid']|]; [|by apply Hreserve].
  assert (id' = id) as -> by naive_solver.
  destruct (is_tombstoned _ _).
  { apply wp_ret, untouched_err. by eapply untouched_same. }
  destruct (find_any_by_id (registry (shared w0)) id) as [i|] eqn:Hf; cbn [mbind option_bind] in *;
    [|by apply Hreserve].
  apply find_any_some in Hf as (e & He & Hid). rewrite He in *. clear Hreserve.
  case_bool_decide as Hsha; [apply wp_ret, untouched_err; by eapply untouched_same|].
  rewrite (Hidle i e He) in *.
  destruct (dispatch_hold e) eqn:Hh; [apply wp_ret, untouched_err; by eapply untouched_same|].
  eapply (wp_replay id i e); try done.
  - unfold hidden. by rewrite (Hidle i e He), Hh.
  - by eapply untouched_same.
Qed.

End transaction.

End creation.

Lemma wp_run {A} o (p : prog A) Q w :
  wp o p Q w -> exists n a w', run_alone o n p w = (Ret a, w') /\ Q a w'.
Proof.
  intros (a & w' & Hf & HQ). destruct (finish_run o p w a w' Hf) as [n Hn]. by exists n, a, w'.
Qed.

(** C10. Creation is a transaction.  Run by itself from any sound state in
    which no other create is in progress, with a clock that does not go back,
    [create_inner] returns: a hundred and one rounds of its poll are enough,
    whatever the store, systemd and the runner answer.  A unit is started
    only in a free slot and only when the slot's directory already holds the
    dispatching record, with this boot and the command's hash, and the spec
    built for the command.  If the create fails, the registry is exactly what
    it was and a unit that had been started was told to stop; if it succeeds,
    the entry of the returned id is listed, carries the command's hash and is
    what the snapshot shows, and no other slot has changed. *)
Theorem create_returns config argv_hash o fuel boot command caps requested limit named w :
  (forall t, 0 <= o_elapsed o t)%Z -> 100 < fuel -> mutex w = None ->
  registry_ok limit named (shared w) -> (forall id, requested = Some id -> named id) ->
  (forall i e, slots (registry (shared w)) !! i = Some e -> creating e = false) ->
  exists n r w',
    run_alone o n (create_inner config argv_hash fuel boot command caps requested) w = (Ret r, w')
    /\ created config argv_hash w boot command caps requested r w'.
Proof.
  intros Hclock Hfuel Hm Hok Hnamed Hidle. apply wp_run. unfold create_inner.
  assert (untouched w w) as Hun by done.
  destruct (bool_decide_reflect (boot <> cfg_boot_id config)) as [|Hboot%dec_stable];
    [by apply wp_ret, untouched_err|].
  destruct requested as [id|].
  - unfold try at 1. cbn [bind]. destruct (is_valid_exec_id id); [|by apply wp_ret, untouched_err].
    eapply (wp_admitted _ _ _ _ limit named); eauto.
  - apply wp_bind, wp_read; [done|]. intros w1 M1. pose proof (untouched_moved _ _ _ _ _ _ M1 Hun).
    destruct (fst _) as [id|err]; [|by apply wp_ret, untouched_err].
    eapply (wp_admitted _ _ _ _ limit named); eauto.
Qed.

End Creation.

(** ** Startup and requests *)

Module Service.
Import DetachedSound.Interleaving DetachedSound.Accounts Alone Startup.
Local Open Scope task_scope.

(** What guestd's service and its reaper ask of the registry. *)
Inductive request : Type :=
| Create (boot : string) (command : ValidatedCommand) (caps : DetachedCaps)
    (requested : option string)
| Inspecting (id boot : string)
| Waiting (id boot : string) (known : option N) (timeout_ms : N)
| Reading (id boot : string) (stream : Stream) (offset max_len : N)
| Listing (boot : string)
| Cancelling (id boot : string)
| Reaping.

Definition serve (config : RegistryConfig) (argv_hash : ValidatedCommand -> string) (fuel : nat)
    (q : request) : prog unit :=
  match q with
  | Create boot command caps requested =>
      create_inner config argv_hash fuel boot command caps requested !; Ret tt
  | Inspecting id boot => inspect config id boot !; Ret tt
  | Waiting id boot known timeout_ms => wait config fuel id boot known timeout_ms !; Ret tt
  | Reading id boot stream offset max_len => read_logs config id boot stream offset max_len !; Ret tt
  | Listing boot => list_execs config boot !; Ret tt
  | Cancelling id boot => cancel config fuel id boot !; Ret tt
  | Reaping => reap_once config
  end.

Lemma serve_safe limit named config hash fuel q :
  (DETACHED_ACTIVE_PER_VM <= limit)%N ->
  safe (registry_ok limit named) (@random_ids named) false (serve config hash fuel q).
Proof.
  intros Hl. destruct q; cbn [serve]; try (apply safe_bind; [|done]).
  - by apply keeps_create.
  - by apply keeps_inspect.
  - by apply keeps_wait.
  - by apply keeps_read_logs.
  - by apply keeps_list.
  - by apply keeps_cancel.
  - by apply keeps_reap_once.
Qed.

Lemma registry_ok_limit limit limit' named s :
  registry_ok limit named s -> (active (registry s) <= limit')%N -> registry_ok limit' named s.
Proof. intros [] ?. by split. Qed.

Lemma registry_ok_channels limit named reg chs chs' :
  length chs' = length chs -> registry_ok limit named (mkShared reg chs) ->
  registry_ok limit named (mkShared reg chs').
Proof. intros Hlen []. split; try done. cbn in *. by rewrite Hlen. Qed.

(** No two directories hold a record of the same one of these ids. *)
Definition distinct_ids (named : string -> Prop) (d : Disk) : Prop :=
  forall j k r r', d !! j ≫= dir_record = Some r -> d !! k ≫= dir_record = Some r' ->
    exec_id r = exec_id r' -> named (exec_id r) -> j = k.

(** C9. Whatever the disk holds at startup, however the calls of the store, of
    systemd and of the clock come out, and however any number of requests and
    reaper passes interleave: startup ends, and from then on the registry's
    accounts are exact.  Every entry has one of the 32 slots; an entry is
    counted as active exactly while its record is not terminal; the active
    counter is the number of such entries and exceeds eight only by what
    startup took over; the reserved bytes are the sum over the entries and
    within the quota; tombstones are at most 32; a create in progress has a
    channel its replays can wait on; an id that only requests use names one
    slot.  The mutex is never waited for by its holder: whoever holds it can
    move. *)
Theorem registry_accounts config hash o named d0 now fuel requests schedule :
  0 < fuel -> distinct_ids named d0 -> (forall t id, o_id o t = Ok id -> ~ named id) ->
  exists w0, finish o (reconcile_on_startup config fuel) (booted d0 now) = Some (tt, w0)
  /\ let '(tasks, w) := run o schedule (map (serve config hash fuel) requests) w0 in
     registry_ok (N.max DETACHED_ACTIVE_PER_VM (active (registry (shared w0)))) named (shared w)
     /\ forall i, mutex w = Some i -> exists p, tasks !! i = Some p /\ is_Some (step o i p w).
Proof.
  intros Hf Hd Hid.
  destruct (startup_accounts config named o d0 Hd fuel now Hf) as ([] & w0 & Hw0 & Hok & Hm).
  exists w0. split; [done|]. set (limit := N.max _ _).
  set (tasks0 := map (serve config hash fuel) requests).
  assert (world_ok (registry_ok limit named) (@random_ids named) tasks0 w0) as Hstart.
  { split; [|intros i p Hi|congruence].
    - eapply registry_ok_limit; [done|]. lia.
    - unfold holds. rewrite Hm. apply list_lookup_fmap_Some in Hi as (q & -> & _).
      apply serve_safe. lia. }
  assert (Hans : forall (R : Set) (c : call R) t d, random_ids named c (respond o t c d).1.1)
    by (intros R [] t d; cbn; eauto).
  pose proof (run_ok _ _ o (registry_ok_channels limit named) Hans schedule tasks0 w0 Hstart) as Hend.
  destruct (run o schedule tasks0 w0) as [tasks w]. cbn in Hend.
  split; [apply Hend|]. intros i Hi. by eapply holder_moves.
Qed.

(** C11. A command that runs survives a restart of guestd.  Take any disk on
    which a slot has a readable record of this boot with a well-formed id,
    and its spec; if systemd lists units among which the slot's runner and
    workload are recognised, and the runner has not reported an end, then
    startup ends with the slot's entry in the registry: the same id, running,
    listed and counted, and the slot's units were never stopped.  This holds
    whatever the other slots hold and whatever fails for them. *)
Theorem live_command_survives_restart config o d0 now fuel i dir r spec units :
  d0 !! i = Some dir -> dir_record dir = Some r -> dir_spec dir = Some spec ->
  (i < N.of_nat DETACHED_RETAINED_PER_VM)%N -> is_valid_exec_id (exec_id r) = true ->
  boot_id r = cfg_boot_id config ->
  o_list o 0 = None -> (forall t, o_store o t i = None) -> (forall t, o_units o t = Ok units) ->
  classify_unit config (Ok spec) units i = Live ->
  (forall t, status_to_terminal (match o_status o t i with Ok s => s | Err _ => None end) = None) ->
  0 < fuel ->
  exists w e, finish o (reconcile_on_startup config fuel) (booted d0 now) = Some (tt, w)
    /\ slots (registry (shared w)) !! i = Some e
    /\ exec_id (record e) = exec_id r /\ state (record e) = Running
    /\ hidden e = false /\ active_counted e = true
    /\ forall ok, Stopped i ok ∉ trace w.
Proof.
  intros Hdir Hr Hsp Hi Hid Hb Hl Hst Hu Hlive Hstatus Hf.
  destruct (startup_live config (fun _ => False) o d0 ltac:(done) i dir r spec units
    Hdir Hr Hsp Hi Hid Hb Hst Hu Hlive Hstatus fuel now Hf Hl) as ([] & w & Hw & (t & He) & Hs).
  by exists w, (adopted_entry config t r Adopt_Running).
Qed.

End Service.

(** ** Runs *)

Module RegistryDemo.
Import DetachedSound.Accounts Alone Startup Creation Service UnitsDemo.

Definition demo_id : string := "0123456789abcdef0123456789abcdef".
Definition random_id : string := "ffffffffffffffffffffffffffffffff".
Definition demo_hash (_ : ValidatedCommand) : string := "00".

(** The runner and the workload of slot 7, as systemd reports them. *)
Definition demo_units : list ManagedUnit :=
  match list_managed_units (Ok (Reports.list_text [demo_runner; demo_workload]))
          (Some (Reports.show_text [demo_runner; demo_workload])) with
  | Ok units => units
  | Err _ => []
  end.

Definition demo_oracle (units : result (list ManagedUnit) UnitError) (status : option StatusPhase) :
    Oracle :=
  mkOracle (fun _ _ => None) (fun _ => None) (fun _ => None) (fun _ => Ok random_id)
    (fun _ _ => Ok status) (fun _ => units) (fun _ => Ok None)
    (fun _ => Err FileRing.FileRingError_Busy) (fun _ dir => Some dir) (fun _ => false) (fun _ => 0%Z).

Definition demo_record (s : RecordState) (lost : bool) : DurableRecord :=
  mkDurableRecord demo_id 7 "boot" 5 30005 "00" s None None lost
    (if lost then Some 9%N else None).

Definition demo_disk (r : DurableRecord) : gmap N SlotDir :=
  {[ 7%N := mkSlotDir (Some r) (Some (build_spec demo_command demo_caps demo_config 7)) false ]}.

Definition is_demo (id : string) : Prop := id = demo_id.

Lemma registry_accounts_witness :
  let o := demo_oracle (Ok demo_units) (Some Phase_Started) in
  exists w0,
    finish o (reconcile_on_startup demo_config 1) (booted (demo_disk (demo_record Running false)) 100)
      = Some (tt, w0)
    /\ let '(tasks, w) :=
         run o [0; 1; 0; 1; 0; 1; 0]
           (map (serve demo_config demo_hash 1)
              [Create "boot" demo_command demo_caps (Some demo_id); Reaping]) w0 in
       registry_ok (N.max DETACHED_ACTIVE_PER_VM (active (registry (shared w0)))) is_demo (shared w)
       /\ forall i, mutex w = Some i -> exists p, tasks !! i = Some p /\ is_Some (step o i p w).
Proof.
  intros o. apply (registry_accounts demo_config demo_hash o is_demo).
  - lia.
  - intros j k r r' (dir & Hj & _)%bind_Some (dir' & Hk & _)%bind_Some _ _.
    unfold demo_disk in Hj, Hk. apply lookup_singleton_Some in Hj as [<- _].
    by apply lookup_singleton_Some in Hk as [<- _].
  - intros t id [= <-]. by intros [=].
Defined.

Lemma live_command_survives_restart_witness :
  let o := demo_oracle (Ok demo_units) None in
  exists w e,
    finish o (reconcile_on_startup demo_config 1)
      (booted (demo_disk (demo_record Dispatching false)) 100) = Some (tt, w)
    /\ slots (registry (shared w)) !! 7%N = Some e
    /\ exec_id (record e) = demo_id /\ state (record e) = Running
    /\ hidden e = false /\ active_counted e = true
    /\ forall ok, Stopped 7 ok ∉ trace w.
Proof.
  intros o. eapply (live_command_survives_restart demo_config o _ 100 1 7
    _ (demo_record Dispatching false) (build_spec demo_command demo_caps demo_config 7) demo_units);
    try done; try lia; by vm_compute.
Defined.

Lemma create_returns_witness :
  let o := demo_oracle (Ok []) None in
  exists n r w',
    run_alone o n
      (create_inner demo_config demo_hash 101 "boot" demo_command demo_caps (Some demo_id))
      (booted ∅ 100) = (Ret r, w')
    /\ created demo_config demo_hash (booted ∅ 100) "boot" demo_command demo_caps (Some demo_id) r w'.
Proof.
  intros o. apply (create_returns demo_config demo_hash o 101 "boot" demo_command demo_caps
    (Some demo_id) retained is_demo); try done; try lia.
  - apply (tk_ok demo_config is_demo ∅ [] _ (booted_taking demo_config is_demo ∅ 100)).
  - by intros id [= <-].
Defined.

(** A command that was reported lost runs again after a restart when systemd
    does not answer: startup takes every record that is not dispatching over
    as running, terminal ones too. *)
Example lost_command_listed_as_running :
  public_state (demo_record Cancelled true) = St_LostGuestd
  /\ match finish (demo_oracle (Err UnitError_Timeout) None) (reconcile_on_startup demo_config 1)
             (booted (demo_disk (demo_record Cancelled true)) 100) with
     | Some (_, w) =>
         public_state ∘ record <$> slots (registry (shared w)) !! 7%N = Some St_Running
         /\ active (registry (shared w)) = 1%N
     | None => False
     end.
Proof. by vm_compute. Qed.

(** The sweep of unrecorded units lists the units, then reads which slots have
    an entry, and then stops.  A create that reserves a slot of the list in
    between has its own unit stopped, while its entry says it runs. *)
Example sweep_stops_a_new_command :
  let orphan := mkManagedUnit 0 Runner true Unqueried in
  let o := demo_oracle (Ok [orphan]) (Some Phase_Started) in
  let tasks := map (serve demo_config demo_hash 1)
                 [Reaping; Create "boot" demo_command demo_caps (Some demo_id)] in
  let '(_, w) := run o (repeat 0 4 ++ repeat 1 40 ++ repeat 0 1) tasks (booted ∅ 100) in
  map (fun ev => (is_start ev, event_slot ev)) (trace w) = [(true, 0%N); (false, 0%N)]
  /\ (fun e => (exec_id (record e), public_state (record e))) <$> slots (registry (shared w)) !! 0%N
     = Some (demo_id, St_Running).
Proof. by vm_compute. Qed.

End RegistryDemo.
